(* ===== verification/_CoqProject ===== *)
-Q . S2P
Prelude.v
NodeId.v
Selector.v
DataTypeRegistry.v
ServerOptions.v
ComponentState.v
Native.v
Concrete.v
TypeDescriptor.v
TypeProtocol.v
ConnPolicyProtocol.v
EndpointTypeRegistry.v
Server.v
OperationDispatcher.v
ServerSetup.v
PortDataSources.v
Inventory.v
AddressSpace.v
ConcreteServer.v
NodeSpecs.v
Snapshot.v
Transaction.v
Publication.v
PublicationSpec.v
Client.v
ClientDiscovery.v
ConcreteClient.v
ClientSpec.v
RemotePort.v
RemotePortSpec.v
RemoteOperation.v
RemoteOperationSpec.v
TaskContextProxy.v
ConcreteProxy.v
Hoare.v
ProxySteps.v
ProxyLogic.v
ProxySync.v
TaskContextProxySpec.v
