(* ===== verification/Prelude.v ===== *)
(** A model of rtt_opcua, the library that publishes Orocos RTT components as
    OPC UA objects and mirrors remote ones, and the theorems that make its parts
    correct.

    * The program

    A [Server] (src/src/server.cpp) owns one native OPC UA server and the thread
    that iterates it; other threads hand tasks to that thread.  When the thread
    starts it freezes the process-wide registry of data type providers
    (datatype_registry.cpp), registers their namespaces and makes the endpoint's
    type registry (endpoint_type_registry.cpp), which binds the type protocols
    (type_protocol.cpp, conn_policy_protocol.cpp) of RTT's type infos to codecs.
    The object model (object_model.cpp) discovers the resources of a component,
    selects some (publication_selector.cpp), gives them node ids (node_id.cpp)
    and publishes them as a transaction of the native server, which it rolls back
    when a node cannot be created.  The callbacks of variables and methods take a lease on the component
    (component_state.hpp), convert values with codecs and bridge ports
    (port_bridge.cpp), and the operation dispatcher (operation_dispatcher.cpp)
    runs the methods.

    On the other side a [TaskContextProxy] (task_context_proxy.cpp) mirrors a
    remote component.  Its session (client_session.cpp) connects to an endpoint,
    makes requests and discovers what the endpoint publishes; from the discovered
    descriptions [synchronize] stages operations (remote_operation.cpp), ports
    (remote_port.cpp) and values, and replaces the interface of the task context
    by them.  A thread of the proxy pumps samples through the ports; it is parked
    while the ports are replaced, moved or discarded, which is what keeps these
    apart, since a port's own mutex guards no more than its error text.

    * The files

    - Prelude.v: out-parameters, exceptions, effectful computations, ordered
      containers, [std::size_t], strings, lemmas and tactics.
    - NodeId.v: node_id.cpp, and the path functions of object_model.cpp and
      client_session.cpp.
    - Selector.v: publication_selector.cpp.
    - DataTypeRegistry.v: datatype_registry.cpp; the [RegistryState] record is
      the state behind [registry()], each function under its mutex one step.
    - ServerOptions.v: server_options.cpp.
    - ComponentState.v: component_state.hpp; [lease_step] interleaves the
      critical sections of leases and of [deactivate].
    - Native.v: the interfaces of open62541pp and RTT, classes of operations with
      classes of laws; Concrete.v implements them for the witnesses.
    - TypeDescriptor.v, TypeProtocol.v, ConnPolicyProtocol.v: type_descriptor.cpp,
      type_protocol.cpp, conn_policy_protocol.cpp and type_transport_plugin.cpp;
      the templates are functions of the C++ type [CppType].
    - EndpointTypeRegistry.v: endpoint_type_registry.cpp; codecs are heap
      objects, so that the addresses in the name table can dangle.
    - Server.v: the life cycle, the server thread and the task queue of
      server.cpp; [Impl] has the members of [Server::Impl], the program counter
      of the thread ([run_step]) and of the thread in [start] or [stop], and the
      waiting [invoke]s; [act] is one step between critical sections.
    - ServerSetup.v: what the thread does before it runs (server.cpp); [initialize]
      is what Server.v takes as a parameter.
    - OperationDispatcher.v: operation_dispatcher.cpp; [describe], one call, and
      the interleaving of calls, operations, reaper, [drain] and the leases of
      ComponentState.v.
    - PortDataSources.v: port_bridge.cpp and the data sources of variables of
      object_model.cpp.
    - Inventory.v: discovery and publication plans of object_model.cpp, with a
      reference definition of the walks through the service graph.
    - AddressSpace.v, ConcreteServer.v: the node services of the native server
      with their laws, and a server that has them.
    - NodeSpecs.v: the node specifications of object_model.cpp; a creator
      is a function of a server, the RTT heap, the component state and the two
      out-parameters.
    - Snapshot.v: from the inventory and the plan to the nodes of a component.
    - Transaction.v: creating the nodes, the ledger, the rollback, shared roots.
    - Publication.v: [ObjectModelImpl]; a publication is one step, because it holds
      the command mutex.  PublicationSpec.v: the abstract machine that it
      implements, its invariant and its reports.
    - Client.v: the connection and the requests of client_session.cpp, a call of
      the session one step; ClientDiscovery.v: its discoveries, where [Attempt] is
      code with early returns.  ConcreteClient.v: a network with one endpoint.
      ClientSpec.v: what a session promises.
    - RemotePort.v: remote_port.cpp, an adapter with its session and the RTT heap;
      RemotePortSpec.v: a port as a channel, over traces of samples and values.
    - RemoteOperation.v: remote_operation.cpp; a sent call is a future that its
      thread completes in one step.  RemoteOperationSpec.v: signatures, calls,
      sends and collections, and the agreement with the schemas of the server.
    - TaskContextProxy.v: task_context_proxy.cpp and rtt_thread_context.hpp.  [proxy_world] has the members of
      [Impl] with the adapters by their addresses; a computation is a sequence of
      atomic steps, and before each of them the environment (the port thread,
      requests of mirrored objects, other uses of RTT) moves by the schedule in
      the world, over which the theorems quantify.  ConcreteProxy.v: a mirror that
      runs.
    - Hoare.v: triples of computations.  ProxySteps.v: what the environment does;
      ProxyLogic.v: assertions it keeps and the rules of the short operations;
      ProxySync.v: the rules of staging, installation, replacement, construction
      and destruction; TaskContextProxySpec.v: what a proxy promises.

    * What the theorems show

    - Names: node paths of nonempty names are unambiguous, the selectors that are
      escaped paths select one resource, a match returns exactly the selected
      paths and every selector that is malformed or matches nothing.
    - Data types: registration keeps the registry well formed and is idempotent
      or refused, freezing succeeds exactly for complete acyclic dependencies,
      yields a topological order and makes the registry immutable; an endpoint
      has exactly one data type and one node per definition, made after those it
      depends on, with its namespaces, a codec per type with a protocol, and
      publishes the nodes in order up to the first failure.
    - Values: canonical codecs and the connection policy carry every
      representable value, reject others, and proxies follow what is read.
    - Components: while a lease is held or an operation runs the component is not
      dropped; [deactivate] completes; callbacks without a component do nothing.
    - Server: tasks run at most once and in order, the result of [invoke] says
      what happened to its task, [stop] leaves no task and no waiting caller, and
      the thread never gets stuck.
    - Operations: each status code of a call has its meaning, [drain] leaves no
      invocation, and the schema lists exactly the arguments and results.
    - Discovery and plans: the discovery ends on every service graph and equals the
      reference walk, paths have bounded depth, a plan publishes what is selected,
      the services above it and the mandatory operations, nothing else.
    - Snapshots: a snapshot without diagnostics is a tree of nodes with every
      effective resource; otherwise each missing resource has a diagnostic.
    - Publication: it refines a machine that adds a component with all its nodes
      or none; a rollback takes back exactly what was created; the invariant ties
      published components, their states and the address space together; errors
      are reported and change nothing; repeating a publication changes nothing;
      the shutdown detaches every state.
    - Sessions: a session that is connected has what its requests need; the six
      requests implement one specification, in which a refused request says
      nothing to the network; a stale session stays silent until it is connected
      again; a connection attempt that fails leaves no client behind; a discovery
      returns the sorted names that the server listed, or an error.
    - Mirrored ports: the values that arrive at a remote input are the samples put
      into the local port, in order and without loss; a local output shows the
      values read, each once; what is in flight moves to a replacement.
    - Mirrored operations: the client accepts every schema the server describes
      and gives it the same signature, the types of arguments, outputs and result
      included; a send performs one call with the values read
      before it; the answers of a collection are final.
    - Mirrors of components: under every interleaving the requests of the mirror go
      through only while the interface is the synchronized one, a stale one keeps
      nothing pending, and no adapter leaks; a synchronization ends with a ready
      interface, a stale one or the old one; replacing the ports loses no sample;
      a failed construction leaves nothing behind; the thread can always be
      paused and stopped; a reported state is a state.
    - Deviations the model exhibits: two node names with one escape, real-time
      strings cut at a NUL, a dangling codec address for aliased types, a task
      that survives a failing server, an exception without message that counts
      as success, an operation that outlives its lease, and a null root service
      that is diagnosed and then followed.

    * Bounds and fuel

    The loop that orders providers has the number of providers as fuel; the
    freezing theorems show that it always ends before.  Counters of [std::size_t]
    wrap at 2^64; a component has fewer than 2^64 - 1 leases at a time since each
    occupies memory.  Namespace indexes are 16 bits wide, as the bound on the
    namespace table shows.  The discovery nests at most 33 calls
    ([kMaximumServiceDepth] + 1), the walk below a node takes at most one turn
    more than the server has nodes; both are proved to end within that fuel.  The
    revision wraps at 2^64.  Staging has the supported depth as fuel and tests the
    depth first, so that it never runs out; the thread finishes a round within one
    step more than it has adapters left, and returns within three steps when it
    is told to stop; clearing the services of a task context nests as deep as its
    services do ([service_levels]).  Other recursion is structural.

    * What is not modelled

    The libraries are interfaces: what RTT and open62541pp do is stated as the
    laws of Native.v and of the classes beside their users.  Log output, sleeps
    and the wake-up of condition variables are left out (a waiting thread may
    take its step whenever its condition holds), and so is memory exhaustion
    except where the source tests for it.  Calls of [stop] from a task on the
    server thread are not modelled.  In a publication the native services do not
    throw, and [beginShutdown] does not fall between two of its steps.

    Of the client side: how long a timed wait takes, the memory of staged RTT
    objects other than ports, and the destruction of the session when a proxy is
    destroyed ([Client.destroy] is defined but not composed); the closures that
    read and write a mirrored value are parameters.  The calls of the real-time
    operating system in rtt_thread_context.hpp are arguments.  [lastError] of a
    proxy takes no lock around its three reads and copies the pointers of the
    adapters; the model makes the reads separate steps but does not count the
    copies as owners, which would only put off the end of an adapter.

    Branches that no caller can reach are left out or end in an error of the
    model: a value category that is no enumerator ([discoverValues]) and the null
    type registry of a bridge that only observes ([bridge_write]).  Integers of
    codecs are in Z: the casts of type_protocol.cpp are between types of one
    width or widen. *)

From stdpp Require Export base tactics option list gmap sets strings sorting.
From Stdlib Require Export Ascii ZArith Lia.
From Stdlib Require DecimalString DecimalN.

(** ** Out-parameters

    [std::string *error]: [None] is the null pointer, [Some s] a pointer to a
    string that holds [s]. *)
Definition assignError (output : option string) (value : string) : option string :=
  match output with
  | Some _ => Some value
  | None => None
  end.

(** [if (error != nullptr) error->clear()]. *)
Definition clearError (output : option string) : option string := assignError output "".

(** [fail(error, message)] of the registries and protocols. *)
Definition fail (error : option string) (message : string) : bool * option string :=
  (false, assignError error message).

(** ** Exceptions

    A computation that may throw returns [exn + A]: a [std::exception] with its
    [what()], or anything else. *)
Inductive exn :=
  | std_exception (what : string)
  | other_exception.

(** Code that reads and changes a world [W] and may throw. *)
Definition IO (W A : Type) : Type := W → W * (exn + A).

#[global] Instance IO_ret W : MRet (IO W) := λ A x w, (w, inr x).
#[global] Instance IO_bind W : MBind (IO W) := λ A B f m w,
  match m w with
  | (w', inr x) => f x w'
  | (w', inl e) => (w', inl e)
  end.

Definition io_throw {W A} (e : exn) : IO W A := λ w, (w, inl e).
Definition io_gets {W A} (f : W → A) : IO W A := λ w, (w, inr (f w)).
Definition io_modify {W} (f : W → W) : IO W unit := λ w, (f w, inr tt).

(** [try { m } catch (const std::exception &e) { h(e.what()) }]. *)
Definition catch_std {W A} (m : IO W A) (h : string → IO W A) : IO W A := λ w,
  match m w with
  | (w', inl (std_exception what)) => h what w'
  | result => result
  end.

(** [try { m } catch (...) { h }]. *)
Definition catch_all {W A} (m : IO W A) (h : exn → IO W A) : IO W A := λ w,
  match m w with
  | (w', inl e) => h e w'
  | result => result
  end.

(** [appendError] of object_model.cpp: joins messages with ["; "]. *)
Definition appendError (output : option string) (value : string) : option string :=
  match output with
  | None => None
  | Some current =>
      if String.eqb value "" then Some current
      else if String.eqb current "" then Some value
      else Some (current +:+ "; " +:+ value)
  end.

(** ** Defaulted three-way comparison

    [auto operator<=>(const T &) const = default] compares the members in
    declaration order.  [members] lists them as strings (an enumerator as the
    one-character string of its value), so the order is lexicographic. *)
Fixpoint lex_le (xs ys : list string) : bool :=
  match xs, ys with
  | [], _ => true
  | _ :: _, [] => false
  | x :: xs', y :: ys' =>
      match String.compare x y with
      | Lt => true
      | Eq => lex_le xs' ys'
      | Gt => false
      end
  end.

Class ThreeWay (A : Type) := {
  members : A → list string;
  members_inj : ∀ x y, members x = members y → x = y;
}.

Definition tw_le `{ThreeWay A} (x y : A) : Prop := lex_le (members x) (members y).

#[global] Instance tw_le_dec `{ThreeWay A} : RelDecision tw_le.
Proof. intros x y. unfold tw_le. apply _. Defined.

(** [std::unique] followed by [erase]: drops an element equal to the one kept
    before it. *)
Fixpoint unique_adj `{EqDecision A} (l : list A) : list A :=
  match l with
  | x :: ((y :: _) as l') => if decide (x = y) then unique_adj l' else x :: unique_adj l'
  | l' => l'
  end.

(** [std::sort] then [std::unique]/[erase]. *)
Definition sort_unique `{EqDecision A, ThreeWay A} (l : list A) : list A :=
  unique_adj (merge_sort tw_le l).

(** ** Ordered containers

    [std::set<std::string>] and [std::map<std::string, V>] are [gset string]
    and [gmap string V]; iteration goes through the keys in ascending byte
    order. *)
Definition ordered_elems (X : gset string) : list string :=
  merge_sort String.le (elements X).

Definition ordered_items {V : Type} (m : gmap string V) : list (string * V) :=
  omap (λ k, (λ v, (k, v)) <$> m !! k) (ordered_elems (dom m)).

(** [std::adjacent_find(...) != end]. *)
Fixpoint has_adjacent_equal `{EqDecision A} (l : list A) : bool :=
  match l with
  | x :: ((y :: _) as l') => bool_decide (x = y) || has_adjacent_equal l'
  | _ => false
  end.

(** [std::to_string] of an unsigned and of a signed number, in decimal. *)
Definition to_string (n : N) : string := DecimalString.NilZero.string_of_uint (N.to_uint n).
Definition to_string_Z (z : Z) : string := DecimalString.NilZero.string_of_int (Z.to_int z).

(** ** [std::size_t] *)

(** [++count] on [std::size_t]. *)
Definition size_increment (count : N) : N := ((count + 1) mod 2 ^ 64)%N.

(** [--count] on [std::size_t]. *)
Definition size_decrement (count : N) : N :=
  if (count =? 0)%N then (2 ^ 64 - 1)%N else (count - 1)%N.

(** ** Strings *)

(** Every character satisfies [P]. *)
Fixpoint str_all (P : ascii → bool) (s : string) : bool :=
  match s with
  | EmptyString => true
  | String c s' => P c && str_all P s'
  end.

(** [s.find(c) != npos]. *)
Definition str_contains (c : ascii) (s : string) : bool :=
  negb (str_all (λ d, negb (Ascii.eqb d c)) s).

(** [s.front()] and [s.back()], when there is one. *)
Definition str_front (s : string) : option ascii :=
  match s with
  | EmptyString => None
  | String c _ => Some c
  end.

Fixpoint str_back (s : string) : option ascii :=
  match s with
  | EmptyString => None
  | String c EmptyString => Some c
  | String _ s' => str_back s'
  end.

Definition str_empty (s : string) : bool := String.eqb s "".

(** ** Lemmas: strings *)

Lemma str_app_cons c (s t : string) : String c s +:+ t = String c (s +:+ t).
Proof. done. Qed.

Lemma str_app_nil_l (s : string) : "" +:+ s = s.
Proof. done. Qed.

Lemma str_app_nil_r (s : string) : s +:+ "" = s.
Proof. induction s as [|c s IH]; [done|]. by rewrite str_app_cons, IH. Qed.

Lemma str_app_assoc (s t u : string) : (s +:+ t) +:+ u = s +:+ t +:+ u.
Proof. induction s as [|c s IH]; [done|]. by rewrite !str_app_cons, IH. Qed.

Lemma str_app_eq_nil (s t : string) : s +:+ t = "" → s = "" ∧ t = "".
Proof. destruct s; [done|]. intros H. inversion H. Qed.

Lemma str_all_app P (s t : string) : str_all P (s +:+ t) = str_all P s && str_all P t.
Proof.
  induction s as [|c s IH]; [done|]. rewrite str_app_cons. simpl.
  by rewrite IH, andb_assoc.
Qed.

Lemma str_all_impl P Q (s : string) :
  (∀ c, P c = true → Q c = true) → str_all P s = true → str_all Q s = true.
Proof.
  intros HPQ. induction s as [|c s IH]; simpl; [done|].
  intros [??]%andb_true_iff. apply andb_true_iff. auto.
Qed.

Lemma str_contains_false c s :
  str_contains c s = false ↔ str_all (λ d, negb (Ascii.eqb d c)) s = true.
Proof. unfold str_contains. by rewrite negb_false_iff. Qed.

Lemma str_empty_spec s : str_empty s = true ↔ s = "".
Proof. apply String.eqb_eq. Qed.

Lemma str_empty_false s : str_empty s = false ↔ s ≠ "".
Proof. apply String.eqb_neq. Qed.

(** Two delimited fields: what precedes the first delimiter is determined. *)
Lemma str_app_delim_inj (d : ascii) (s1 s2 t1 t2 : string) :
  str_contains d s1 = false → str_contains d s2 = false →
  (t1 = "" ∨ str_front t1 = Some d) → (t2 = "" ∨ str_front t2 = Some d) →
  s1 +:+ t1 = s2 +:+ t2 → s1 = s2 ∧ t1 = t2.
Proof.
  rewrite !str_contains_false. revert s2.
  induction s1 as [|c1 s1 IH]; intros [|c2 s2]; simpl; intros H1 H2 Ht1 Ht2 Heq.
  - done.
  - rewrite str_app_cons in Heq. change ("" +:+ t1) with t1 in Heq. subst t1.
    destruct Ht1 as [|Ht1]; [done|]. simpl in Ht1. simplify_eq.
    by rewrite Ascii.eqb_refl in H2.
  - rewrite str_app_cons in Heq. change ("" +:+ t2) with t2 in Heq. subst t2.
    destruct Ht2 as [|Ht2]; [done|]. simpl in Ht2. simplify_eq.
    by rewrite Ascii.eqb_refl in H1.
  - rewrite !str_app_cons in Heq. inversion Heq; subst.
    apply andb_true_iff in H1 as [_ H1], H2 as [_ H2].
    destruct (IH s2) as [-> ->]; auto.
Qed.

(** ** Lemmas: decimal numbers *)

(** [isdigit]. *)
Lemma NilEmpty_digits (d : Decimal.uint) (P : ascii → bool) :
  forallb P ["0"; "1"; "2"; "3"; "4"; "5"; "6"; "7"; "8"; "9"]%char = true →
  str_all P (DecimalString.NilEmpty.string_of_uint d) = true.
Proof.
  simpl. intros HP. repeat (apply andb_true_iff in HP as [? HP]).
  induction d; simpl; try apply andb_true_iff; auto.
Qed.

Lemma to_string_all (n : N) (P : ascii → bool) :
  forallb P ["0"; "1"; "2"; "3"; "4"; "5"; "6"; "7"; "8"; "9"]%char = true →
  str_all P (to_string n) = true.
Proof.
  intros HP. unfold to_string, DecimalString.NilZero.string_of_uint.
  destruct (N.to_uint n); [|by apply NilEmpty_digits..].
  simpl in *. by repeat (apply andb_true_iff in HP as [? HP]); apply andb_true_iff.
Qed.

Lemma to_string_digits (n : N) : str_contains "/"%char (to_string n) = false.
Proof. apply str_contains_false, to_string_all. done. Qed.

Lemma N_to_uint_nonnil (n : N) : N.to_uint n ≠ Decimal.Nil.
Proof.
  intros Hnil. pose proof (DecimalN.Unsigned.to_of (N.to_uint n)) as H.
  rewrite DecimalN.Unsigned.of_to, Hnil in H. done.
Qed.

Lemma to_string_inj (n m : N) : to_string n = to_string m → n = m.
Proof.
  intros Heq. apply (f_equal DecimalString.NilZero.uint_of_string) in Heq.
  unfold to_string in Heq. rewrite !DecimalString.NilZero.usu in Heq by apply N_to_uint_nonnil.
  apply (f_equal (from_option N.of_uint 0%N)) in Heq. simpl in Heq.
  by rewrite !DecimalN.Unsigned.of_to in Heq.
Qed.

(** ** Lemmas: byte order *)

Lemma string_compare_refl (s : string) : String.compare s s = Eq.
Proof.
  induction s as [|c s IH]; simpl; [done|].
  unfold Ascii.compare. by rewrite N.compare_refl.
Qed.

Lemma string_compare_eq (s t : string) : String.compare s t = Eq ↔ s = t.
Proof.
  split; [apply String.compare_eq_iff|]. intros ->. apply string_compare_refl.
Qed.

Lemma string_le_spec (s t : string) :
  String.le s t ↔ String.compare s t = Lt ∨ s = t.
Proof.
  unfold String.le, String.leb. rewrite <-string_compare_eq.
  destruct (String.compare s t); naive_solver.
Qed.

Lemma string_lt_trans (s t u : string) :
  String.compare s t = Lt → String.compare t u = Lt → String.compare s u = Lt.
Proof.
  intros Hst Htu.
  assert (Hsu : String.le s u).
  { transitivity t; apply string_le_spec; auto. }
  apply string_le_spec in Hsu as [?| ->]; [done|].
  assert (t = u) as ->.
  { apply (anti_symm String.le); apply string_le_spec; auto. }
  by rewrite string_compare_refl in Htu.
Qed.

Lemma string_compare_swap (s t : string) :
  String.compare s t = Gt → String.compare t s = Lt.
Proof.
  intros Hst. destruct (total String.le s t) as [Hle|Hle].
  - apply string_le_spec in Hle as [Hle| ->]; [congruence|].
    by rewrite string_compare_refl in Hst.
  - apply string_le_spec in Hle as [?| ->]; [done|].
    by rewrite string_compare_refl in Hst.
Qed.

(** ** Lemmas: the defaulted comparison is a total order *)

Lemma lex_le_refl xs : lex_le xs xs.
Proof. induction xs as [|x xs IH]; simpl; [done|]. by rewrite string_compare_refl. Qed.

Lemma lex_le_trans xs ys zs : lex_le xs ys → lex_le ys zs → lex_le xs zs.
Proof.
  revert ys zs. induction xs as [|x xs IH]; intros [|y ys] [|z zs]; simpl; try done.
  destruct (String.compare x y) eqn:Hxy; destruct (String.compare y z) eqn:Hyz; try done.
  - apply String.compare_eq_iff in Hxy as ->. rewrite Hyz. eauto.
  - apply String.compare_eq_iff in Hxy as ->. by rewrite Hyz.
  - apply String.compare_eq_iff in Hyz as ->. by rewrite Hxy.
  - by rewrite (string_lt_trans x y z).
Qed.

Lemma lex_le_antisymm xs ys : lex_le xs ys → lex_le ys xs → xs = ys.
Proof.
  revert ys. induction xs as [|x xs IH]; intros [|y ys]; simpl; try done.
  destruct (String.compare x y) eqn:Hxy; try done.
  - apply String.compare_eq_iff in Hxy as ->. rewrite string_compare_refl.
    intros ??. f_equal. auto.
  - intros _. destruct (String.compare y x) eqn:Hyx; try done.
    + apply String.compare_eq_iff in Hyx as ->. by rewrite string_compare_refl in Hxy.
    + by pose proof (string_lt_trans x y x Hxy Hyx) as H; rewrite string_compare_refl in H.
Qed.

Lemma lex_le_total xs ys : lex_le xs ys ∨ lex_le ys xs.
Proof.
  revert ys. induction xs as [|x xs IH]; intros [|y ys]; simpl; auto.
  destruct (String.compare x y) eqn:Hxy; auto.
  - apply String.compare_eq_iff in Hxy as ->. rewrite string_compare_refl. auto.
  - right. by rewrite (string_compare_swap _ _ Hxy).
Qed.

#[global] Instance tw_le_preorder `{ThreeWay A} : PreOrder (@tw_le A _).
Proof. split; repeat intro; unfold tw_le in *; eauto using lex_le_refl, lex_le_trans. Qed.

#[global] Instance tw_le_antisymm `{ThreeWay A} : AntiSymm (=) (@tw_le A _).
Proof. intros x y ??. by apply members_inj, lex_le_antisymm. Qed.

#[global] Instance tw_le_total `{ThreeWay A} : Total (@tw_le A _).
Proof. intros x y. apply lex_le_total. Qed.

(** ** Lemmas: sort and deduplicate *)

Section sort_unique.
Context `{EqDecision A, ThreeWay A}.
Implicit Types (l : list A) (x : A).

Lemma elem_of_unique_adj x l : x ∈ unique_adj l ↔ x ∈ l.
Proof.
  induction l as [|y [|z l] IH]; [done..|].
  change (unique_adj (y :: z :: l)) with
    (if decide (y = z) then unique_adj (z :: l) else y :: unique_adj (z :: l)).
  case_decide; set_solver.
Qed.

Lemma unique_adj_StronglySorted l :
  StronglySorted tw_le l →
  StronglySorted tw_le (unique_adj l) ∧ NoDup (unique_adj l).
Proof.
  induction 1 as [|y l Hl IH Hy]; [by split; constructor|].
  destruct l as [|z l]; [split; repeat constructor; set_solver|].
  change (unique_adj (y :: z :: l)) with
    (if decide (y = z) then unique_adj (z :: l) else y :: unique_adj (z :: l)).
  destruct IH as [IH1 IH2]. case_decide as Hyz; [done|].
  split; constructor; [done| |..|done].
  - apply Forall_forall. intros u Hu. rewrite elem_of_unique_adj in Hu.
    by apply (proj1 (Forall_forall _ _) Hy).
  - rewrite elem_of_unique_adj. intros Hin. apply Hyz, (anti_symm tw_le).
    + by inversion Hy.
    + apply elem_of_cons in Hin as [->|Hin]; [reflexivity|].
      inversion Hl as [|?? _ Hz]; subst. by apply (proj1 (Forall_forall _ _) Hz).
Qed.

Lemma elem_of_sort_unique x l : x ∈ sort_unique l ↔ x ∈ l.
Proof. unfold sort_unique. by rewrite elem_of_unique_adj, merge_sort_Permutation. Qed.

Lemma sort_unique_sorted l : StronglySorted tw_le (sort_unique l).
Proof. apply unique_adj_StronglySorted, StronglySorted_merge_sort; apply _. Qed.

Lemma sort_unique_NoDup l : NoDup (sort_unique l).
Proof. apply unique_adj_StronglySorted, StronglySorted_merge_sort; apply _. Qed.

Lemma sort_unique_nil_iff l : sort_unique l = [] ↔ l = [].
Proof.
  split; [|by intros ->]. destruct l as [|x l]; [done|]. intros Hsort.
  assert (x ∈ sort_unique (x :: l)) as Hx by (apply elem_of_sort_unique; apply list_elem_of_here).
  rewrite Hsort in Hx. by apply elem_of_nil in Hx.
Qed.

(** The result depends on the set of elements only. *)
Lemma sort_unique_ext l1 l2 :
  (∀ x, x ∈ l1 ↔ x ∈ l2) → sort_unique l1 = sort_unique l2.
Proof.
  intros Hl. apply (StronglySorted_unique tw_le); auto using sort_unique_sorted.
  apply NoDup_Permutation; auto using sort_unique_NoDup.
  intros x. by rewrite !elem_of_sort_unique.
Qed.
End sort_unique.

(** ** Lemmas: iteration over ordered containers *)

Lemma ordered_elems_Permutation (X : gset string) : ordered_elems X ≡ₚ elements X.
Proof. apply merge_sort_Permutation. Qed.

Lemma elem_of_ordered_elems (X : gset string) s : s ∈ ordered_elems X ↔ s ∈ X.
Proof. by rewrite ordered_elems_Permutation, elem_of_elements. Qed.

Lemma ordered_elems_NoDup (X : gset string) : NoDup (ordered_elems X).
Proof. rewrite ordered_elems_Permutation. apply NoDup_elements. Qed.

Lemma ordered_elems_length (X : gset string) : length (ordered_elems X) = size X.
Proof. by rewrite ordered_elems_Permutation. Qed.

Lemma ordered_elems_sorted (X : gset string) : StronglySorted String.le (ordered_elems X).
Proof. apply StronglySorted_merge_sort; apply _. Qed.

Lemma elem_of_ordered_items {V} (m : gmap string V) k v :
  (k, v) ∈ ordered_items m ↔ m !! k = Some v.
Proof.
  unfold ordered_items. rewrite list_elem_of_omap. split.
  - intros (k' & _ & Hk'). apply fmap_Some in Hk' as (v' & ? & ?). by simplify_eq.
  - intros Hk. exists k. rewrite elem_of_ordered_elems, elem_of_dom, Hk. eauto.
Qed.

Lemma ordered_items_keys {V} (m : gmap string V) :
  (ordered_items m).*1 = ordered_elems (dom m).
Proof.
  unfold ordered_items.
  assert (Hin : ∀ k, k ∈ ordered_elems (dom m) → is_Some (m !! k)).
  { intros k. by rewrite elem_of_ordered_elems, elem_of_dom. }
  induction (ordered_elems (dom m)) as [|k ks IH]; [done|]. simpl.
  destruct (Hin k ltac:(set_solver)) as [v ->]. simpl. f_equal. apply IH. set_solver.
Qed.

(** ** Out-parameters never turn a null pointer into an object *)
Lemma assignError_Some output value s :
  assignError output value = Some s → s = value.
Proof. destruct output; naive_solver. Qed.

Lemma clearError_idemp output : clearError (clearError output) = clearError output.
Proof. by destruct output. Qed.

(** ** Automation *)
Create HintDb opcua.

#[export] Hint Resolve sort_unique_sorted sort_unique_NoDup ordered_elems_NoDup
  ordered_elems_sorted lex_le_refl : opcua.
#[export] Hint Rewrite @elem_of_sort_unique elem_of_ordered_elems @elem_of_ordered_items
  using (typeclasses eauto) : opcua.

(** Splits the boolean tests a guard is made of. *)
Ltac split_guards :=
  repeat match goal with
  | H : andb _ _ = true |- _ => apply andb_true_iff in H as [??]
  | H : orb _ _ = false |- _ => apply orb_false_iff in H as [??]
  | H : negb _ = true |- _ => apply negb_true_iff in H
  | H : negb _ = false |- _ => apply negb_false_iff in H
  | H : bool_decide _ = true |- _ => apply bool_decide_eq_true in H
  | H : bool_decide _ = false |- _ => apply bool_decide_eq_false in H
  end.

(** Goes through every branch of the code in the goal. *)
Ltac by_branches :=
  repeat (case_match; simplify_eq/=); split_guards; try done.
