(* ===== verification/NodeId.v ===== *)
(** The node paths of the OPC UA address space (src/src/node_id.cpp): percent
    escaping of one path segment and the construction of a path, with the path
    helpers of object_model.cpp and client_session.cpp that the publishing and
    the discovering side share. *)

From S2P Require Import Prelude.

Definition kNamespaceUri : string := "urn:orocos:rtt".

Definition kHexDigits : string := "0123456789ABCDEF".

Definition isUnreserved (value : ascii) : bool :=
  let v := Ascii.N_of_ascii value in
  ((Ascii.N_of_ascii "a" <=? v) && (v <=? Ascii.N_of_ascii "z") ||
   (Ascii.N_of_ascii "A" <=? v) && (v <=? Ascii.N_of_ascii "Z") ||
   (Ascii.N_of_ascii "0" <=? v) && (v <=? Ascii.N_of_ascii "9") ||
   (v =? Ascii.N_of_ascii "-") || (v =? Ascii.N_of_ascii ".") ||
   (v =? Ascii.N_of_ascii "_") || (v =? Ascii.N_of_ascii "~"))%N.

(** [kHexDigits[i]]; the array ends in NUL. *)
Definition hexDigit (i : N) : ascii :=
  default Ascii.zero (String.get (N.to_nat i) kHexDigits).

(** The loop of [escapeNodeIdSegment]. *)
Fixpoint escapeBytes (segment : string) : string :=
  match segment with
  | EmptyString => EmptyString
  | String character rest =>
      let value := Ascii.N_of_ascii character in
      if isUnreserved character then String character (escapeBytes rest)
      else
        String "%" (String (hexDigit (N.shiftr value 4))
          (String (hexDigit (N.land value 15)) (escapeBytes rest)))
  end.

Definition escapeNodeIdSegment (segment : string) : string :=
  if str_empty segment then "%00" else escapeBytes segment.

Definition appendNodeSegment (path segment : string) : string :=
  path +:+ "/" +:+ escapeNodeIdSegment segment.

Definition makeNodePath (segments : list string) : string :=
  foldl (λ path segment, path +:+ "/" +:+ escapeNodeIdSegment segment) "rtt" segments.

Fixpoint pathDepth (path : string) : nat :=
  match path with
  | EmptyString => 0
  | String c rest => (if Ascii.eqb c "/" then 1 else 0) + pathDepth rest
  end.

(** client_session.cpp *)
Definition RemoteServicePath := list string.

Definition modelPath (component : string) (service_path : RemoteServicePath)
    (trailing_segments : list string) : string :=
  let segments := ["components"; component] in
  let segments :=
    foldl (λ segments service_name, segments ++ ["services"; service_name])
      segments service_path in
  makeNodePath (segments ++ trailing_segments).

(** ** Lemmas *)

(** The characters an escaped segment is made of. *)
Definition isEscapedChar (c : ascii) : bool := isUnreserved c || Ascii.eqb c "%".

Lemma byte_cases (P : ascii → bool) :
  forallb P (Ascii.ascii_of_nat <$> seq 0 256) = true → ∀ c, P c = true.
Proof.
  intros HP c. rewrite forallb_forall in HP. apply HP.
  apply list_elem_of_In, list_elem_of_fmap. exists (Ascii.nat_of_ascii c).
  rewrite Ascii.ascii_nat_embedding, elem_of_seq.
  split; [done|]. pose proof (Ascii.nat_ascii_bounded c). lia.
Qed.

Lemma unreserved_escaped c : isUnreserved c = true → isEscapedChar c = true.
Proof. unfold isEscapedChar. by intros ->. Qed.

Lemma hexDigits_escaped c :
  isEscapedChar (hexDigit (N.shiftr (Ascii.N_of_ascii c) 4)) &&
  isEscapedChar (hexDigit (N.land (Ascii.N_of_ascii c) 15)) = true.
Proof.
  apply (byte_cases (λ c, isEscapedChar (hexDigit (N.shiftr (Ascii.N_of_ascii c) 4)) &&
    isEscapedChar (hexDigit (N.land (Ascii.N_of_ascii c) 15)))). by vm_compute.
Qed.

Lemma escapeBytes_chars s : str_all isEscapedChar (escapeBytes s) = true.
Proof.
  induction s as [|c s IH]; [done|]. simpl. case_match eqn:Hc.
  - simpl. by rewrite (unreserved_escaped c Hc), IH.
  - pose proof (hexDigits_escaped c) as [H1 H2]%andb_true_iff.
    simpl. by rewrite H1, H2, IH.
Qed.

Lemma escapeNodeIdSegment_chars s : str_all isEscapedChar (escapeNodeIdSegment s) = true.
Proof. unfold escapeNodeIdSegment. case_match; [done|]. apply escapeBytes_chars. Qed.

Lemma escaped_no_char d s :
  isEscapedChar d = false → str_all isEscapedChar s = true → str_contains d s = false.
Proof.
  intros Hd. rewrite str_contains_false. apply str_all_impl. intros c Hc.
  apply negb_true_iff, Ascii.eqb_neq. congruence.
Qed.

Lemma escapeNodeIdSegment_no_slash s : str_contains "/" (escapeNodeIdSegment s) = false.
Proof. by apply escaped_no_char, escapeNodeIdSegment_chars. Qed.

Lemma escapeNodeIdSegment_no_star s : str_contains "*" (escapeNodeIdSegment s) = false.
Proof. by apply escaped_no_char, escapeNodeIdSegment_chars. Qed.

Lemma escapeBytes_nonempty s : s ≠ "" → escapeBytes s ≠ "".
Proof. destruct s; [done|]. simpl. by case_match. Qed.

Lemma escapeNodeIdSegment_nonempty s : escapeNodeIdSegment s ≠ "".
Proof.
  unfold escapeNodeIdSegment. case_match eqn:Hs; [done|].
  apply escapeBytes_nonempty. by apply str_empty_false.
Qed.

(** Reads a hexadecimal digit back. *)
Definition hexIndex (h : ascii) : N := N.of_nat (default 0 (String.index 0 (String h "") kHexDigits)).

Lemma hexDigit_pair c :
  Ascii.ascii_of_N (16 * hexIndex (hexDigit (N.shiftr (Ascii.N_of_ascii c) 4)) +
                    hexIndex (hexDigit (N.land (Ascii.N_of_ascii c) 15))) = c.
Proof.
  apply Ascii.eqb_eq.
  apply (byte_cases (λ c, Ascii.eqb (Ascii.ascii_of_N
    (16 * hexIndex (hexDigit (N.shiftr (Ascii.N_of_ascii c) 4)) +
     hexIndex (hexDigit (N.land (Ascii.N_of_ascii c) 15)))) c)). by vm_compute.
Qed.

Lemma percent_reserved : isUnreserved "%" = false.
Proof. done. Qed.

#[global] Instance escapeBytes_inj : Inj (=) (=) escapeBytes.
Proof.
  intros s. induction s as [|c s IH]; intros [|d t]; [done|..].
  - simpl. by case_match.
  - simpl. by case_match.
  - simpl. destruct (isUnreserved c) eqn:Hc, (isUnreserved d) eqn:Hd;
      intros Heq; simplify_eq; [f_equal; auto|].
    rewrite (IH t) by done. f_equal.
    rewrite <-(hexDigit_pair c), <-(hexDigit_pair d). congruence.
Qed.

Lemma escapeNodeIdSegment_of_nonempty s : s ≠ "" → escapeNodeIdSegment s = escapeBytes s.
Proof. intros Hs. unfold escapeNodeIdSegment. by apply str_empty_false in Hs as ->. Qed.

(** A path below ["rtt"], as a right fold. *)
Fixpoint pathSuffix (segments : list string) : string :=
  match segments with
  | [] => ""
  | segment :: segments' => "/" +:+ escapeNodeIdSegment segment +:+ pathSuffix segments'
  end.

Lemma pathSuffix_app l1 l2 : pathSuffix (l1 ++ l2) = pathSuffix l1 +:+ pathSuffix l2.
Proof.
  induction l1 as [|s l1 IH]; [done|]. simpl. rewrite IH.
  by rewrite !str_app_cons, !str_app_assoc.
Qed.

Lemma foldl_pathSuffix path segments :
  foldl (λ path segment, path +:+ "/" +:+ escapeNodeIdSegment segment) path segments =
  path +:+ pathSuffix segments.
Proof.
  revert path. induction segments as [|s segments IH]; intros path; simpl.
  - by rewrite str_app_nil_r.
  - by rewrite IH, !str_app_assoc.
Qed.

Lemma makeNodePath_suffix segments : makeNodePath segments = "rtt" +:+ pathSuffix segments.
Proof. apply foldl_pathSuffix. Qed.

Lemma makeNodePath_snoc segments segment :
  makeNodePath (segments ++ [segment]) = appendNodeSegment (makeNodePath segments) segment.
Proof. unfold makeNodePath, appendNodeSegment. by rewrite foldl_snoc. Qed.

Lemma pathSuffix_front segments :
  pathSuffix segments = "" ∨ str_front (pathSuffix segments) = Some "/"%char.
Proof. destruct segments; auto. Qed.

Lemma escape_pathSuffix_inj s t l1 l2 :
  escapeNodeIdSegment s +:+ pathSuffix l1 = escapeNodeIdSegment t +:+ pathSuffix l2 →
  escapeNodeIdSegment s = escapeNodeIdSegment t ∧ pathSuffix l1 = pathSuffix l2.
Proof.
  apply (str_app_delim_inj "/"); auto using escapeNodeIdSegment_no_slash, pathSuffix_front.
Qed.

Lemma pathSuffix_inj l1 l2 :
  Forall (.≠ "") l1 → Forall (.≠ "") l2 → pathSuffix l1 = pathSuffix l2 → l1 = l2.
Proof.
  intros Hl1. revert l2. induction Hl1 as [|s l1 Hs Hl1 IH]; intros l2 Hl2 Heq.
  - by destruct l2.
  - destruct Hl2 as [|t l2 Ht Hl2]; [done|]. simpl in Heq.
    rewrite !str_app_cons in Heq. injection Heq as Heq.
    apply escape_pathSuffix_inj in Heq as [Hst Heq].
    rewrite !escapeNodeIdSegment_of_nonempty in Hst by done.
    f_equal; [by apply (inj escapeBytes)|auto].
Qed.

Lemma makeNodePath_inj l1 l2 :
  Forall (.≠ "") l1 → Forall (.≠ "") l2 → makeNodePath l1 = makeNodePath l2 → l1 = l2.
Proof.
  rewrite !makeNodePath_suffix. intros ?? Heq%(inj (String.append "rtt")).
  by apply pathSuffix_inj.
Qed.

#[export] Hint Resolve escapeNodeIdSegment_no_slash escapeNodeIdSegment_no_star
  escapeNodeIdSegment_nonempty pathSuffix_front : opcua.

(** The name that consists of one NUL byte. *)
Definition nul_name : string := String Ascii.zero "".

(** ** Properties *)

(** Percent escaping keeps names apart, with one exception: two names have
    the same escaped segment exactly when they are equal or one is the empty
    name and the other the one-NUL name, which both become [%00]. *)
Theorem escapeNodeIdSegment_collision s t :
  escapeNodeIdSegment s = escapeNodeIdSegment t ↔
  s = t ∨ (s = "" ∧ t = nul_name) ∨ (s = nul_name ∧ t = "").
Proof.
  assert (Hnul : escapeBytes nul_name = "%00") by done.
  unfold escapeNodeIdSegment.
  destruct (str_empty s) eqn:Hs, (str_empty t) eqn:Ht;
    rewrite ?str_empty_spec, ?str_empty_false in *; subst.
  - naive_solver.
  - rewrite <-Hnul. split; [intros ->%(inj escapeBytes)|]; naive_solver.
  - rewrite <-Hnul. split; [intros ->%(inj escapeBytes)|]; naive_solver.
  - split; [intros ->%(inj escapeBytes)|]; naive_solver.
Qed.

(** C38: node paths are unambiguous: two lists of nonempty names with the same
    path are the same list, so a NodeId names one component and resource. *)
Theorem makeNodePath_unambiguous l1 l2 :
  Forall (.≠ "") l1 → Forall (.≠ "") l2 → makeNodePath l1 = makeNodePath l2 → l1 = l2.
Proof. apply makeNodePath_inj. Qed.

Lemma makeNodePath_unambiguous_witness :
  Forall (.≠ "") ["components"; "a/b"] ∧ ["components"; "a/b"] = ["components"; "a/b"].
Proof.
  split; [by repeat constructor|].
  apply (makeNodePath_unambiguous ["components"; "a/b"] ["components"; "a/b"]);
    [by repeat constructor..|reflexivity].
Defined.
