(* ===== verification/Selector.v ===== *)
(** Publication selectors (src/src/publication_selector.cpp): canonical decoding
    of escaped segments, the selector grammar ([*] a whole segment, [**] a
    whole terminal segment), matching against the resource paths of an
    inventory, and the sorted list of selector issues. *)

From S2P Require Import Prelude NodeId.

(** ** Data *)

Inductive SelectorIssueKind := malformed | unmatched.

Record SelectorIssue := {
  issue_kind : SelectorIssueKind;
  issue_selector : string;
  issue_reason : string;
}.

Record SelectorMatch := {
  match_resource_paths : gset string;
  match_issues : list SelectorIssue;
}.

Inductive SelectorSegmentKind := literal | single_wildcard | recursive_wildcard.

Record SelectorSegment := {
  segment_kind : SelectorSegmentKind;
  segment_literal : string;
}.

(** [ParsedSelector] is its [segments] vector. *)
Definition ParsedSelector := list SelectorSegment.

Record ParsedResource := {
  resource_path : string;
  resource_segments : list string;
}.

#[global] Instance SelectorIssueKind_eq_dec : EqDecision SelectorIssueKind.
Proof. solve_decision. Defined.
#[global] Instance SelectorIssue_eq_dec : EqDecision SelectorIssue.
Proof. solve_decision. Defined.
#[global] Instance SelectorSegmentKind_eq_dec : EqDecision SelectorSegmentKind.
Proof. solve_decision. Defined.

Definition SelectorIssueKind_member (k : SelectorIssueKind) : string :=
  match k with malformed => "0" | unmatched => "1" end.

(** [auto operator<=>(const SelectorIssue &) const = default]. *)
#[global] Program Instance SelectorIssue_three_way : ThreeWay SelectorIssue := {
  members i := [SelectorIssueKind_member (issue_kind i); issue_selector i; issue_reason i];
}.
Next Obligation. intros [[] ??] [[] ??]; simpl; congruence. Qed.

(** ** Operations *)

Definition isUpperHexDigit (character : ascii) : bool :=
  let v := Ascii.N_of_ascii character in
  ((Ascii.N_of_ascii "0" <=? v) && (v <=? Ascii.N_of_ascii "9") ||
   (Ascii.N_of_ascii "A" <=? v) && (v <=? Ascii.N_of_ascii "F"))%N.

(** The result is an [unsigned char]: modulo 256. *)
Definition hexValue (character : ascii) : N :=
  let v := Z.of_N (Ascii.N_of_ascii character) in
  let v0 := Z.of_N (Ascii.N_of_ascii "0") in
  let vA := Z.of_N (Ascii.N_of_ascii "A") in
  let v9 := Z.of_N (Ascii.N_of_ascii "9") in
  if (v0 <=? v)%Z && (v <=? v9)%Z then Z.to_N ((v - v0) mod 256)
  else Z.to_N ((v - vA + 10) mod 256).

(** The loop of [decodeCanonicalSegment], over the rest of the segment. *)
Fixpoint decodeBytes (segment : string) : option string :=
  match segment with
  | EmptyString => Some ""
  | String character rest =>
      if negb (Ascii.eqb character "%") then String character <$> decodeBytes rest
      else
        match rest with
        | String high (String low rest') =>
            if negb (isUpperHexDigit high) || negb (isUpperHexDigit low) then None
            else
              let value := (N.lor (N.shiftl (hexValue high) 4) (hexValue low) mod 256)%N in
              String (Ascii.ascii_of_N value) <$> decodeBytes rest'
        | _ => None
        end
  end.

Definition decodeCanonicalSegment (segment : string) : option string :=
  match decodeBytes segment with
  | None => None
  | Some decoded =>
      if negb (String.eqb (escapeNodeIdSegment decoded) segment) then None
      else Some decoded
  end.

(** [begin] walks the path from one ['/'] to the next: the string that is left
    is [path.substr(begin)], the segment in progress is the head of the
    result. *)
Fixpoint splitPath (path : string) : list string :=
  match path with
  | EmptyString => [""]
  | String c rest =>
      if Ascii.eqb c "/" then "" :: splitPath rest
      else
        match splitPath rest with
        | segment :: segments => String c segment :: segments
        | [] => [String c ""]
        end
  end.

(** The loop of [parseSelector]; [raw_segments] is what is left of them, so
    [index + 1U != raw_segments.size()] is [raw_segments' ≠ []]. *)
Fixpoint parseSegments (raw_segments : list string) : string + ParsedSelector :=
  match raw_segments with
  | [] => inr []
  | segment :: raw_segments' =>
      if str_empty segment then inl "selector contains an empty segment"
      else if String.eqb segment "**" then
        match raw_segments' with
        | _ :: _ => inl "recursive wildcard must be terminal"
        | [] => inr [{| segment_kind := recursive_wildcard; segment_literal := "" |}]
        end
      else if String.eqb segment "*" then
        match parseSegments raw_segments' with
        | inl reason => inl reason
        | inr segments =>
            inr ({| segment_kind := single_wildcard; segment_literal := "" |} :: segments)
        end
      else if str_contains "*" segment then inl "wildcard must occupy an entire segment"
      else
        match decodeCanonicalSegment segment with
        | None => inl "literal segment is not canonically escaped"
        | Some decoded =>
            match parseSegments raw_segments' with
            | inl reason => inl reason
            | inr segments =>
                inr ({| segment_kind := literal; segment_literal := decoded |} :: segments)
            end
        end
  end.

(** [inl] is [std::nullopt] with the text stored through [reason]. *)
Definition parseSelector (selector : string) : string + ParsedSelector :=
  if str_empty selector then inl "selector is empty"
  else parseSegments (splitPath selector).

(** The loop of [parseResource]. *)
Fixpoint decodeSegments (raw_segments : list string) : option (list string) :=
  match raw_segments with
  | [] => Some []
  | segment :: raw_segments' =>
      if str_empty segment then None
      else
        decoded ← decodeCanonicalSegment segment;
        segments ← decodeSegments raw_segments';
        Some (decoded :: segments)
  end.

Definition parseResource (path : string) : option ParsedResource :=
  if str_empty path then None
  else
    segments ← decodeSegments (splitPath path);
    Some {| resource_path := path; resource_segments := segments |}.

(** The loop of [matches] over the first [fixed] segments of the selector. *)
Fixpoint matchesFixed (fixed : nat) (selector : ParsedSelector) (resource : list string) : bool :=
  match fixed, selector, resource with
  | O, _, _ => true
  | S fixed', segment :: selector', name :: resource' =>
      match segment_kind segment with
      | single_wildcard => matchesFixed fixed' selector' resource'
      | literal =>
          if negb (String.eqb (segment_literal segment) name) then false
          else matchesFixed fixed' selector' resource'
      | recursive_wildcard => false
      end
  | S _, _, _ => false
  end.

Definition is_recursive (selector : ParsedSelector) : bool :=
  match last selector with
  | Some segment => bool_decide (segment_kind segment = recursive_wildcard)
  | None => false
  end.

Definition matches (selector : ParsedSelector) (resource : list string) : bool :=
  let recursive := is_recursive selector in
  let fixed := if recursive then length selector - 1 else length selector in
  if (negb recursive && negb (length resource =? fixed)) ||
     (recursive && (length resource <? fixed)) then false
  else matchesFixed fixed selector resource.

Definition addIssue (issues : list SelectorIssue) (kind : SelectorIssueKind)
    (selector reason : string) : list SelectorIssue :=
  issues ++ [{| issue_kind := kind; issue_selector := selector; issue_reason := reason |}].

(** The body of the loop over the selectors. *)
Definition matchSelector (resources : list ParsedResource) (result : SelectorMatch)
    (selector : string) : SelectorMatch :=
  match parseSelector selector with
  | inl reason =>
      {| match_resource_paths := match_resource_paths result;
         match_issues := addIssue (match_issues result) malformed selector reason |}
  | inr parsed =>
      let '(paths, matched) :=
        foldl (λ '(paths, matched) resource,
                 if matches parsed (resource_segments resource)
                 then ({[resource_path resource]} ∪ paths, true)
                 else (paths, matched))
              (match_resource_paths result, false) resources in
      {| match_resource_paths := paths;
         match_issues :=
           if (matched : bool) then match_issues result
           else addIssue (match_issues result) unmatched selector
                  "selector did not match a logical resource" |}
  end.

Definition matchPublicationSelectors (selectors resource_paths : list string) : SelectorMatch :=
  let resources := omap parseResource resource_paths in
  let result :=
    foldl (matchSelector resources)
      {| match_resource_paths := ∅; match_issues := [] |} selectors in
  {| match_resource_paths := match_resource_paths result;
     match_issues := sort_unique (match_issues result) |}.

(** ** Specification of matching *)

Inductive SelectorMatches : ParsedSelector → list string → Prop :=
  | selects_exactly : SelectorMatches [] []
  | selects_below text names :
      SelectorMatches [{| segment_kind := recursive_wildcard; segment_literal := text |}] names
  | selects_any text selector name names :
      SelectorMatches selector names →
      SelectorMatches
        ({| segment_kind := single_wildcard; segment_literal := text |} :: selector)
        (name :: names)
  | selects_name selector name names :
      SelectorMatches selector names →
      SelectorMatches
        ({| segment_kind := literal; segment_literal := name |} :: selector) (name :: names).

(** The resource [path] is selected by the selector text [selector]. *)
Definition selects (selector path : string) : Prop :=
  ∃ parsed resource,
    parseSelector selector = inr parsed ∧ parseResource path = Some resource ∧
    SelectorMatches parsed (resource_segments resource).

(** The diagnosis of one selector against an inventory. *)
Definition selector_issue_spec (paths : list string) (issue : SelectorIssue) : Prop :=
  match issue_kind issue with
  | malformed => parseSelector (issue_selector issue) = inl (issue_reason issue)
  | unmatched =>
      issue_reason issue = "selector did not match a logical resource" ∧
      (∃ parsed, parseSelector (issue_selector issue) = inr parsed) ∧
      ∀ path, path ∈ paths → ¬ selects (issue_selector issue) path
  end.

(** ** Lemmas: canonical segments *)

Lemma hexDigits_decode c :
  negb (isUpperHexDigit (hexDigit (N.shiftr (Ascii.N_of_ascii c) 4))) ||
  negb (isUpperHexDigit (hexDigit (N.land (Ascii.N_of_ascii c) 15))) = false ∧
  Ascii.ascii_of_N
    (N.lor (N.shiftl (hexValue (hexDigit (N.shiftr (Ascii.N_of_ascii c) 4))) 4)
       (hexValue (hexDigit (N.land (Ascii.N_of_ascii c) 15))) mod 256) = c.
Proof.
  pose (P c :=
    negb (negb (isUpperHexDigit (hexDigit (N.shiftr (Ascii.N_of_ascii c) 4))) ||
          negb (isUpperHexDigit (hexDigit (N.land (Ascii.N_of_ascii c) 15)))) &&
    Ascii.eqb (Ascii.ascii_of_N
      (N.lor (N.shiftl (hexValue (hexDigit (N.shiftr (Ascii.N_of_ascii c) 4))) 4)
         (hexValue (hexDigit (N.land (Ascii.N_of_ascii c) 15))) mod 256)) c).
  assert (HP : P c = true) by (apply byte_cases; by vm_compute).
  apply andb_true_iff in HP as [H1 H2]. split; [by apply negb_true_iff|by apply Ascii.eqb_eq].
Qed.

Lemma decodeBytes_escapeBytes s : decodeBytes (escapeBytes s) = Some s.
Proof.
  induction s as [|c s IH]; [done|]. simpl. case_match eqn:Hc; simpl.
  - destruct (Ascii.eqb_spec c "%") as [->|]; [done|]. simpl. by rewrite IH.
  - destruct (hexDigits_decode c) as [-> ->]. by rewrite IH.
Qed.

Lemma decodeCanonicalSegment_escape s :
  s ≠ "" → decodeCanonicalSegment (escapeNodeIdSegment s) = Some s.
Proof.
  intros Hs. unfold decodeCanonicalSegment.
  rewrite escapeNodeIdSegment_of_nonempty, decodeBytes_escapeBytes by done.
  by rewrite escapeNodeIdSegment_of_nonempty, String.eqb_refl by done.
Qed.

Lemma decodeCanonicalSegment_Some segment decoded :
  decodeCanonicalSegment segment = Some decoded → segment = escapeNodeIdSegment decoded.
Proof.
  unfold decodeCanonicalSegment. case_match; [|done]. case_match eqn:Heq; [done|].
  intros [= ->]. apply negb_false_iff, String.eqb_eq in Heq. done.
Qed.

(** ** Lemmas: paths *)

Lemma splitPath_nonempty path : splitPath path ≠ [].
Proof. destruct path; simpl; [done|]. case_match; [done|]. by case_match. Qed.

Lemma splitPath_no_slash s : str_contains "/" s = false → splitPath s = [s].
Proof.
  rewrite str_contains_false. induction s as [|c s IH]; [done|]. simpl.
  intros [Hc Hs]%andb_true_iff. apply negb_true_iff in Hc. by rewrite Hc, IH.
Qed.

Lemma splitPath_app s t :
  str_contains "/" s = false → splitPath (s +:+ "/" +:+ t) = s :: splitPath t.
Proof.
  rewrite str_contains_false. induction s as [|c s IH]; [done|].
  rewrite str_app_cons. simpl. intros [Hc Hs]%andb_true_iff. apply negb_true_iff in Hc.
  by rewrite Hc, (IH Hs).
Qed.

Lemma splitPath_concat segments :
  segments ≠ [] → Forall (λ s, str_contains "/" s = false) segments →
  splitPath (String.concat "/" segments) = segments.
Proof.
  intros Hne Hall. induction Hall as [|s segments Hs Hall IH]; [done|].
  destruct segments as [|t segments]; [by apply splitPath_no_slash|].
  change (String.concat "/" (s :: t :: segments)) with
    (s +:+ "/" +:+ String.concat "/" (t :: segments)).
  by rewrite splitPath_app, IH.
Qed.

(** The canonical path of a list of names. *)
Definition canonicalPath (names : list string) : string :=
  String.concat "/" (escapeNodeIdSegment <$> names).

Lemma splitPath_canonicalPath names :
  names ≠ [] → splitPath (canonicalPath names) = escapeNodeIdSegment <$> names.
Proof.
  intros Hne. apply splitPath_concat; [by destruct names|].
  apply Forall_fmap, Forall_true. intros s. apply escapeNodeIdSegment_no_slash.
Qed.

Lemma canonicalPath_nonempty names : names ≠ [] → canonicalPath names ≠ "".
Proof.
  intros Hne Heq. pose proof (splitPath_canonicalPath names Hne) as Hsplit.
  rewrite Heq in Hsplit. destruct names as [|n names]; [done|].
  injection Hsplit as Hn _. by destruct (escapeNodeIdSegment_nonempty n).
Qed.

Lemma escape_not_wildcard s :
  String.eqb (escapeNodeIdSegment s) "**" = false ∧
  String.eqb (escapeNodeIdSegment s) "*" = false.
Proof.
  pose proof (escapeNodeIdSegment_no_star s) as Hs.
  split; apply String.eqb_neq; intros Heq; by rewrite Heq in Hs.
Qed.

Lemma parseSelector_canonicalPath names :
  names ≠ [] → Forall (.≠ "") names →
  parseSelector (canonicalPath names) =
    inr ((λ name, {| segment_kind := literal; segment_literal := name |}) <$> names).
Proof.
  intros Hne Hall. unfold parseSelector.
  rewrite (proj2 (str_empty_false _) (canonicalPath_nonempty names Hne)).
  rewrite splitPath_canonicalPath by done. clear Hne.
  induction Hall as [|s names Hs Hall IH]; [done|]. csimpl.
  rewrite (proj2 (str_empty_false _) (escapeNodeIdSegment_nonempty s)).
  destruct (escape_not_wildcard s) as [-> ->].
  by rewrite escapeNodeIdSegment_no_star, decodeCanonicalSegment_escape, IH.
Qed.

Lemma parseResource_canonicalPath names :
  names ≠ [] → Forall (.≠ "") names →
  parseResource (canonicalPath names) =
    Some {| resource_path := canonicalPath names; resource_segments := names |}.
Proof.
  intros Hne Hall. unfold parseResource.
  rewrite (proj2 (str_empty_false _) (canonicalPath_nonempty names Hne)).
  rewrite splitPath_canonicalPath by done.
  assert (decodeSegments (escapeNodeIdSegment <$> names) = Some names) as ->; [|done].
  clear Hne. induction Hall as [|s names Hs Hall IH]; [done|]. csimpl.
  rewrite (proj2 (str_empty_false _) (escapeNodeIdSegment_nonempty s)).
  by rewrite decodeCanonicalSegment_escape, IH.
Qed.

Lemma canonicalPath_inj names1 names2 :
  names1 ≠ [] → names2 ≠ [] → Forall (.≠ "") names1 → Forall (.≠ "") names2 →
  canonicalPath names1 = canonicalPath names2 → names1 = names2.
Proof.
  intros ???? Heq.
  assert (parseResource (canonicalPath names1) = parseResource (canonicalPath names2)) as Hp
    by congruence.
  rewrite !parseResource_canonicalPath in Hp by done. congruence.
Qed.

Lemma parseResource_path path resource :
  parseResource path = Some resource → resource_path resource = path.
Proof.
  unfold parseResource. case_match; [done|].
  destruct (decodeSegments _); simpl; intros; by simplify_eq.
Qed.

(** ** Lemmas: matching *)

Lemma is_recursive_cons segment selector :
  selector ≠ [] → is_recursive (segment :: selector) = is_recursive selector.
Proof. by destruct selector. Qed.

Lemma is_recursive_nonempty selector : is_recursive selector = true → selector ≠ [].
Proof. by destruct selector. Qed.

Lemma matches_nil selector : selector ≠ [] → matches selector [] = is_recursive selector &&
  (length selector =? 1).
Proof.
  intros Hne. unfold matches. destruct selector as [|s selector]; [done|]. simpl length.
  destruct (is_recursive (s :: selector)) eqn:Hrec; simpl; [|done].
  rewrite Nat.sub_0_r. by destruct selector.
Qed.

Lemma matches_cons segment selector name names :
  selector ≠ [] →
  matches (segment :: selector) (name :: names) =
    match segment_kind segment with
    | single_wildcard => matches selector names
    | literal => String.eqb (segment_literal segment) name && matches selector names
    | recursive_wildcard => false
    end.
Proof.
  intros Hne. unfold matches. rewrite is_recursive_cons by done. simpl length.
  assert (1 ≤ length selector) by (destruct selector; simpl; [done|lia]).
  destruct (is_recursive selector); simpl.
  - replace (length selector - 0) with (S (length selector - 1)) by lia.
    replace (S (length names) <? S (length selector - 1)) with
      (length names <? length selector - 1) by done.
    simpl. destruct (length names <? length selector - 1).
    + destruct (segment_kind segment); auto using andb_false_r.
    + destruct (segment_kind segment); auto. by destruct (String.eqb _ _).
  - rewrite !orb_false_r. destruct (length names =? length selector); simpl.
    + destruct (segment_kind segment); auto. by destruct (String.eqb _ _).
    + destruct (segment_kind segment); auto using andb_false_r.
Qed.

Lemma matches_single segment name names :
  matches [segment] (name :: names) =
    match segment_kind segment with
    | recursive_wildcard => true
    | single_wildcard => bool_decide (names = [])
    | literal => String.eqb (segment_literal segment) name && bool_decide (names = [])
    end.
Proof.
  destruct segment as [[] text]; [destruct names; unfold matches; simpl|by destruct names|done];
    by destruct (String.eqb text name).
Qed.

Lemma matches_spec selector names : matches selector names = true ↔ SelectorMatches selector names.
Proof.
  revert names. induction selector as [|[kind text] selector IH]; intros names.
  { split; [|by inversion 1]. destruct names; [constructor|done]. }
  destruct names as [|name names].
  { rewrite matches_nil by done. destruct selector as [|segment selector].
    - unfold is_recursive. simpl. destruct kind; simpl; split; try done; try by inversion 1.
      constructor.
    - simpl. rewrite andb_false_r. split; [done|by inversion 1]. }
  destruct selector as [|segment selector].
  - rewrite matches_single. destruct kind; simpl.
    + rewrite andb_true_iff, String.eqb_eq, bool_decide_eq_true. split.
      * intros [-> ->]. repeat constructor.
      * inversion 1 as [| | |? ? ? H']; subst. by inversion H'.
    + rewrite bool_decide_eq_true. split.
      * intros ->. repeat constructor.
      * inversion 1 as [| |? ? ? ? H'|]; subst. by inversion H'.
    + split; [constructor|done].
  - rewrite matches_cons by done. destruct kind; simpl.
    + rewrite andb_true_iff, String.eqb_eq, IH. split.
      * intros [-> ?]. by constructor.
      * by inversion 1.
    + rewrite IH. split; [by constructor|by inversion 1].
    + split; [done|by inversion 1].
Qed.

#[export] Instance SelectorMatches_dec selector names : Decision (SelectorMatches selector names).
Proof.
  refine (cast_if (decide (matches selector names = true))); by rewrite <-matches_spec.
Defined.

(** ** Lemmas: the loops of matchPublicationSelectors *)

Definition resource_step (parsed : ParsedSelector) :=
  λ '(paths, matched) (resource : ParsedResource),
    if matches parsed (resource_segments resource)
    then ({[resource_path resource]} ∪ paths, true)
    else (paths : gset string, matched : bool).

Lemma resource_loop parsed resources paths matched :
  let '(paths', matched') := foldl (resource_step parsed) (paths, matched) resources in
  (∀ path, path ∈ paths' ↔ path ∈ paths ∨
     ∃ r, r ∈ resources ∧ resource_path r = path ∧
          SelectorMatches parsed (resource_segments r)) ∧
  (matched' = true ↔ matched = true ∨
     ∃ r, r ∈ resources ∧ SelectorMatches parsed (resource_segments r)).
Proof.
  revert paths matched. induction resources as [|r resources IH]; intros paths matched; simpl.
  { split; intros; set_solver. }
  destruct (matches parsed (resource_segments r)) eqn:Hm;
    [apply matches_spec in Hm|rewrite <-not_true_iff_false, matches_spec in Hm];
    match goal with |- context [foldl _ (?p, ?m) _] => specialize (IH p m) end;
    destruct (foldl _ _ _) as [paths' matched']; destruct IH as [IH1 IH2];
    (split; [intros path; rewrite IH1|rewrite IH2]); set_solver.
Qed.

Lemma elem_of_resources resource (paths : list string) :
  resource ∈ omap parseResource paths ↔
  resource_path resource ∈ paths ∧ parseResource (resource_path resource) = Some resource.
Proof.
  rewrite list_elem_of_omap. split.
  - intros (path & Hin & Hp). by rewrite (parseResource_path _ _ Hp).
  - intros [??]. eauto.
Qed.

Lemma elem_of_addIssue issues kind selector reason issue :
  issue ∈ addIssue issues kind selector reason ↔
  issue ∈ issues ∨
  issue = {| issue_kind := kind; issue_selector := selector; issue_reason := reason |}.
Proof. unfold addIssue. set_solver. Qed.

Lemma matchSelector_spec paths result selector :
  let result' := matchSelector (omap parseResource paths) result selector in
  (∀ path, path ∈ match_resource_paths result' ↔
     path ∈ match_resource_paths result ∨ path ∈ paths ∧ selects selector path) ∧
  (∀ issue, issue ∈ match_issues result' ↔
     issue ∈ match_issues result ∨
     issue_selector issue = selector ∧ selector_issue_spec paths issue).
Proof.
  simpl. unfold matchSelector, selector_issue_spec. destruct (parseSelector selector) as [reason|parsed] eqn:Hsel.
  - split; simpl.
    + intros path. unfold selects. naive_solver congruence.
    + intros [kind sel why]. rewrite elem_of_addIssue. simpl. split.
      * intros [?|?]; [by left|]. simplify_eq/=. auto.
      * intros [?|[-> ?]]; [by left|right]. destruct kind; naive_solver congruence.
  - pose proof (resource_loop parsed (omap parseResource paths)
      (match_resource_paths result) false) as Hloop.
    change (foldl _ _ _) with
      (foldl (resource_step parsed) (match_resource_paths result, false) (omap parseResource paths)).
    destruct (foldl _ _ _) as [paths' matched]. destruct Hloop as [Hp Hm]. simpl. split.
    + intros path. rewrite Hp. unfold selects. setoid_rewrite elem_of_resources. split.
      * intros [?|(r & [? ?] & <- & ?)]; [by left|right]. naive_solver.
      * intros [?|(? & parsed' & r & ? & Hr & ?)]; [by left|right].
        pose proof (parseResource_path _ _ Hr). exists r. naive_solver congruence.
    + assert (Hm' : matched = false ↔ ∀ path, path ∈ paths → ¬ selects selector path).
      { rewrite <-not_true_iff_false, Hm. setoid_rewrite elem_of_resources. unfold selects. split.
        - intros Hno path Hin (parsed' & r & ? & Hr & ?). apply Hno. right.
          pose proof (parseResource_path _ _ Hr). exists r. naive_solver congruence.
        - intros Hno [?|(r & [? ?] & ?)]; [done|]. eapply Hno; naive_solver. }
      intros [kind sel why]. destruct matched; simpl.
      * split; [by left|]. intros [?|[-> Hs]]; [done|]. exfalso. destruct kind; [congruence|].
        destruct Hs as (_ & _ & Hs). by apply Hm' in Hs.
      * rewrite elem_of_addIssue. split.
        -- intros [?|?]; [by left|right]. simplify_eq/=. naive_solver.
        -- intros [?|[-> Hs]]; [by left|right]. destruct kind; naive_solver congruence.
Qed.

Lemma selector_loop paths selectors result :
  let result' := foldl (matchSelector (omap parseResource paths)) result selectors in
  (∀ path, path ∈ match_resource_paths result' ↔
     path ∈ match_resource_paths result ∨
     path ∈ paths ∧ ∃ selector, selector ∈ selectors ∧ selects selector path) ∧
  (∀ issue, issue ∈ match_issues result' ↔
     issue ∈ match_issues result ∨
     issue_selector issue ∈ selectors ∧ selector_issue_spec paths issue).
Proof.
  revert result. induction selectors as [|selector selectors IH]; intros result; simpl.
  { split; intros; set_solver. }
  destruct (matchSelector_spec paths result selector) as [Hp Hi].
  destruct (IH (matchSelector (omap parseResource paths) result selector)) as [IHp IHi].
  split; [intros path; rewrite IHp, Hp|intros issue; rewrite IHi, Hi]; set_solver.
Qed.

Lemma match_paths_spec selectors paths path :
  path ∈ match_resource_paths (matchPublicationSelectors selectors paths) ↔
  path ∈ paths ∧ ∃ selector, selector ∈ selectors ∧ selects selector path.
Proof.
  unfold matchPublicationSelectors. simpl.
  rewrite (proj1 (selector_loop paths selectors _)). set_solver.
Qed.

Lemma match_issues_spec selectors paths issue :
  issue ∈ match_issues (matchPublicationSelectors selectors paths) ↔
  issue_selector issue ∈ selectors ∧ selector_issue_spec paths issue.
Proof.
  unfold matchPublicationSelectors. simpl.
  rewrite elem_of_sort_unique, (proj2 (selector_loop paths selectors _)). set_solver.
Qed.

Lemma literals_match names other :
  SelectorMatches ((λ name, {| segment_kind := literal; segment_literal := name |}) <$> names)
    other ↔ names = other.
Proof.
  split.
  - revert other. induction names as [|n names IH]; intros other; inversion 1; subst; f_equal; auto.
  - intros <-. induction names; constructor; done.
Qed.

(** Names that make up a canonical path. *)
Definition addressable (names : list string) : Prop := names ≠ [] ∧ Forall (.≠ "") names.

Lemma canonical_selects names other :
  addressable names → addressable other →
  selects (canonicalPath names) (canonicalPath other) ↔ names = other.
Proof.
  intros [??] [??]. unfold selects. rewrite parseSelector_canonicalPath by done.
  rewrite parseResource_canonicalPath by done. split.
  - intros (? & ? & ? & ? & Hm). simplify_eq. by apply literals_match in Hm.
  - intros ->. eexists _, _. by rewrite literals_match.
Qed.

(** ** Properties *)

(** C23: publication selects exactly the inventory paths that some selector
    matches: [matchPublicationSelectors] returns the paths of the inventory
    whose canonical segments are related to a parsed selector by
    [SelectorMatches] ([*] one segment, a terminal [**] any suffix, a literal
    its own name). *)
Theorem matchPublicationSelectors_paths selectors paths path :
  path ∈ match_resource_paths (matchPublicationSelectors selectors paths) ↔
  path ∈ paths ∧ ∃ selector, selector ∈ selectors ∧ selects selector path.
Proof. apply match_paths_spec. Qed.

(** The issues of a match are, sorted and without duplicates, one
    [malformed] issue with the parser's reason for every selector that does not
    parse and one [unmatched] issue for every selector that parses and selects
    no path. *)
Theorem matchPublicationSelectors_issues selectors paths :
  let issues := match_issues (matchPublicationSelectors selectors paths) in
  StronglySorted tw_le issues ∧ NoDup issues ∧
  ∀ issue, issue ∈ issues ↔
    issue_selector issue ∈ selectors ∧ selector_issue_spec paths issue.
Proof.
  split_and!; [apply sort_unique_sorted|apply sort_unique_NoDup|].
  intros issue. apply match_issues_spec.
Qed.

(** A selector that spells out an escaped resource path selects that
    resource and no other of an inventory of canonical paths, so escaping makes
    every name (with ['/'] or ['*'] in it too) addressable. *)
Theorem literal_selector_exact names (inventory : list (list string)) :
  addressable names → Forall addressable inventory → names ∈ inventory →
  matchPublicationSelectors [canonicalPath names] (canonicalPath <$> inventory) =
    {| match_resource_paths := {[canonicalPath names]}; match_issues := [] |}.
Proof.
  intros Hn Hall Hin. rewrite Forall_forall in Hall.
  destruct (matchPublicationSelectors _ _) as [found issues] eqn:Hmatch. f_equal.
  - change found with (match_resource_paths {| match_resource_paths := found; match_issues := issues |}).
    rewrite <-Hmatch. apply set_eq. intros path.
    rewrite match_paths_spec, elem_of_singleton, list_elem_of_fmap. split.
    + intros ((other & -> & Ho) & sel & ->%list_elem_of_singleton & Hs).
      apply canonical_selects in Hs; [congruence|done|auto].
    + intros ->. split; [eauto|]. exists (canonicalPath names). split; [set_solver|].
      by apply canonical_selects.
  - change issues with (match_issues {| match_resource_paths := found; match_issues := issues |}).
    rewrite <-Hmatch. apply elem_of_nil_inv. intros [[] sel why].
    all: rewrite match_issues_spec; intros [Hsel%list_elem_of_singleton Hs]; simpl in Hsel; subst sel.
    + simpl in Hs. unfold selector_issue_spec in Hs. simpl in Hs.
      by rewrite parseSelector_canonicalPath in Hs by apply Hn.
    + destruct Hs as (_ & _ & Hs). apply (Hs (canonicalPath names)); [set_solver|].
      by apply canonical_selects.
Qed.

Lemma literal_selector_exact_witness :
  matchPublicationSelectors [canonicalPath ["services"; "motion/raw*"]]
    (canonicalPath <$> [["services"; "motion"]; ["services"; "motion/raw*"]]) =
    {| match_resource_paths := {["services/motion%2Fraw%2A"]}; match_issues := [] |}.
Proof.
  apply (literal_selector_exact ["services"; "motion/raw*"]).
  - by split; repeat constructor.
  - by repeat constructor.
  - set_solver.
Defined.
