(* ===== verification/DataTypeRegistry.v ===== *)
(** The process-wide registry of datatype providers (src/src/datatype_registry.cpp):
    registration with validation, the topological provider order and freezing. *)

From S2P Require Import Prelude.

(** ** Data (datatype_registry.hpp) *)

Record LogicalDataTypeId := {
  id_namespace_uri : string;
  type_node_id : string;
  binary_encoding_node_id : string;
}.

Inductive CustomDataTypeKind := structure | enumeration | union_type.

#[global] Instance LogicalDataTypeId_eq_dec : EqDecision LogicalDataTypeId.
Proof. solve_decision. Defined.
#[global] Instance LogicalDataTypeId_countable : Countable LogicalDataTypeId.
Proof.
  refine (inj_countable'
    (λ i, (id_namespace_uri i, type_node_id i, binary_encoding_node_id i))
    (λ '(a, b, c), {| id_namespace_uri := a; type_node_id := b; binary_encoding_node_id := c |}) _).
  by intros [].
Defined.
#[global] Instance CustomDataTypeKind_eq_dec : EqDecision CustomDataTypeKind.
Proof. solve_decision. Defined.

(** [DataTypeFactoryContext::State]; [UA_DataType] is the type of a native
    datatype description. *)
Record FactoryState (UA_DataType : Type) := {
  factory_namespace_indexes : gmap string N;
  factory_data_types : gmap LogicalDataTypeId UA_DataType;
}.
Arguments factory_namespace_indexes {_} _.
Arguments factory_data_types {_} _.

(** The context holds a [shared_ptr<const State>], null when [None]. *)
Definition DataTypeFactoryContext (UA_DataType : Type) := option (FactoryState UA_DataType).

(** [DataTypeFactory]: [std::function], empty when [None]; it may throw. *)
Record CustomDataTypeDefinition (UA_DataType DataType : Type) := {
  def_name : string;
  def_id : LogicalDataTypeId;
  def_kind : CustomDataTypeKind;
  schema_fingerprint : string;
  materialize : option (DataTypeFactoryContext UA_DataType → exn + DataType);
}.
Arguments def_name {_ _} _.
Arguments def_id {_ _} _.
Arguments def_kind {_ _} _.
Arguments schema_fingerprint {_ _} _.
Arguments materialize {_ _} _.

Record DataTypeProvider (UA_DataType DataType : Type) := {
  provider_name : string;
  provider_namespace_uri : string;
  dependencies : list string;
  data_types : list (CustomDataTypeDefinition UA_DataType DataType);
}.
Arguments provider_name {_ _} _.
Arguments provider_namespace_uri {_ _} _.
Arguments dependencies {_ _} _.
Arguments data_types {_ _} _.

Record RegistryState (UA_DataType DataType : Type) := {
  providers : gmap string (DataTypeProvider UA_DataType DataType);
  provider_order : list string;
  frozen : bool;
}.
Arguments providers {_ _} _.
Arguments provider_order {_ _} _.
Arguments frozen {_ _} _.

(** ** Operations on texts *)

Definition containsNul (value : string) : bool := str_contains Ascii.zero value.

Definition validText (value : string) : bool := negb (str_empty value) && negb (containsNul value).

(** ** The provider order *)

(** [dependents[dependency].push_back(name)] for every dependency of [name]. *)
Definition addDependents (dependents : gmap string (list string))
    (entry : string * list string) : gmap string (list string) :=
  let '(name, deps) := entry in
  foldl (λ dependents dependency,
           <[dependency := default [] (dependents !! dependency) ++ [name]]> dependents)
    dependents deps.

Definition buildDependents (deps : gmap string (list string)) : gmap string (list string) :=
  merge_sort String.le <$> foldl addDependents ∅ (ordered_items deps).

(** The body of the loop over [dependents[name]]. *)
Definition releaseDependent (state : gmap string N * gset string) (dependent : string) :
    gmap string N * gset string :=
  let '(indegree, ready) := state in
  let count := size_decrement (default 0%N (indegree !! dependent)) in
  (<[dependent := count]> indegree,
   if (count =? 0)%N then {[dependent]} ∪ ready else ready).

(** [while (!ready.empty())]; the result holds the state in which the loop
    stopped or ran out of fuel. *)
Fixpoint orderLoop (fuel : nat) (dependents : gmap string (list string))
    (indegree : gmap string N) (ready : gset string) (order : list string) :
    gmap string N * gset string * list string :=
  match fuel, ordered_elems ready with
  | S fuel', name :: _ =>
      let '(indegree', ready') :=
        foldl releaseDependent (indegree, ready ∖ {[name]}) (default [] (dependents !! name)) in
      orderLoop fuel' dependents indegree' ready' (order ++ [name])
  | _, _ => (indegree, ready, order)
  end.

Section registry.
Context {UA_DataType DataType : Type}.
Notation CustomDataTypeDefinition := (CustomDataTypeDefinition UA_DataType DataType).
Notation DataTypeProvider := (DataTypeProvider UA_DataType DataType).
Notation RegistryState := (RegistryState UA_DataType DataType).
Implicit Types (state : RegistryState) (provider : DataTypeProvider).

Definition initial_registry : RegistryState :=
  {| providers := ∅; provider_order := []; frozen := false |}.

(** ** DataTypeFactoryContext *)

Definition factory_namespaceIndex (context : DataTypeFactoryContext UA_DataType)
    (namespace_uri : string) : exn + N :=
  match context with
  | None => inl (std_exception "OPC UA datatype factory context is not bound")
  | Some state =>
      match factory_namespace_indexes state !! namespace_uri with
      | None => inl (std_exception ("OPC UA namespace URI is not bound: " +:+ namespace_uri))
      | Some index => inr index
      end
  end.

Definition factory_dataType (context : DataTypeFactoryContext UA_DataType)
    (id : LogicalDataTypeId) : option UA_DataType :=
  match context with
  | None => None
  | Some state => factory_data_types state !! id
  end.

(** ** Registration *)

Definition sameDefinition (lhs rhs : CustomDataTypeDefinition) : bool :=
  String.eqb (def_name lhs) (def_name rhs) && bool_decide (def_id lhs = def_id rhs) &&
  bool_decide (def_kind lhs = def_kind rhs) &&
  String.eqb (schema_fingerprint lhs) (schema_fingerprint rhs) &&
  Bool.eqb (bool_decide (is_Some (materialize lhs))) (bool_decide (is_Some (materialize rhs))).

(** [std::equal] over two ranges of the same length. *)
Fixpoint sameDefinitions (lhs rhs : list CustomDataTypeDefinition) : bool :=
  match lhs, rhs with
  | l :: lhs', r :: rhs' => sameDefinition l r && sameDefinitions lhs' rhs'
  | _, _ => true
  end.

Definition sameProvider (lhs rhs : DataTypeProvider) : bool :=
  String.eqb (provider_name lhs) (provider_name rhs) &&
  String.eqb (provider_namespace_uri lhs) (provider_namespace_uri rhs) &&
  bool_decide (dependencies lhs = dependencies rhs) &&
  (length (data_types lhs) =? length (data_types rhs)) &&
  sameDefinitions (data_types lhs) (data_types rhs).

(** The two [LogicalNodeId]s of a definition. *)
Definition logicalTypeId (definition : CustomDataTypeDefinition) : string * string :=
  (id_namespace_uri (def_id definition), type_node_id (def_id definition)).
Definition logicalEncodingId (definition : CustomDataTypeDefinition) : string * string :=
  (id_namespace_uri (def_id definition), binary_encoding_node_id (def_id definition)).

Definition occupyDefinition (occupied : gset (string * string))
    (definition : CustomDataTypeDefinition) : gset (string * string) :=
  {[logicalEncodingId definition]} ∪ ({[logicalTypeId definition]} ∪ occupied).

Definition occupiedIds (state : RegistryState) : gset (string * string) :=
  foldl (λ occupied '(_, existing), foldl occupyDefinition occupied (data_types existing))
    ∅ (ordered_items (providers state)).

(** The loop over the definitions of the new provider. *)
Fixpoint validateDefinitions (provider : DataTypeProvider) (occupied : gset (string * string))
    (definitions : list CustomDataTypeDefinition) : option string :=
  match definitions with
  | [] => None
  | definition :: definitions' =>
      if negb (validText (def_name definition)) ||
         negb (validText (schema_fingerprint definition)) ||
         negb (validText (id_namespace_uri (def_id definition))) ||
         negb (validText (type_node_id (def_id definition))) ||
         negb (validText (binary_encoding_node_id (def_id definition))) ||
         bool_decide (materialize definition = None)
      then Some ("invalid OPC UA datatype provider: invalid datatype definition in '" +:+
                 provider_name provider +:+ "'")
      else if negb (String.eqb (id_namespace_uri (def_id definition))
                      (provider_namespace_uri provider))
      then Some ("invalid OPC UA datatype provider: datatype namespace does not match provider '" +:+
                 provider_name provider +:+ "'")
      else
        let type_id := logicalTypeId definition in
        let encoding_id := logicalEncodingId definition in
        if bool_decide (type_id = encoding_id) || bool_decide (type_id ∈ occupied) ||
           bool_decide (encoding_id ∈ {[type_id]} ∪ occupied)
        then Some ("conflicting OPC UA datatype provider: NodeId collision in '" +:+
                   provider_name provider +:+ "'")
        else validateDefinitions provider (occupyDefinition occupied definition) definitions'
  end.

Definition sortDependencies (provider : DataTypeProvider) : DataTypeProvider :=
  {| provider_name := provider_name provider;
     provider_namespace_uri := provider_namespace_uri provider;
     dependencies := merge_sort String.le (dependencies provider);
     data_types := data_types provider |}.

(** [inl] is the validation message, [inr] the normalized provider. *)
Definition validateAndNormalize (provider : DataTypeProvider) (state : RegistryState) :
    string + DataTypeProvider :=
  if negb (validText (provider_name provider)) ||
     negb (validText (provider_namespace_uri provider)) ||
     bool_decide (length (data_types provider) = 0)
  then inl "invalid OPC UA datatype provider: name, namespace URI, and datatype list must be nonempty"
  else if existsb (λ dependency, negb (validText dependency) ||
                     String.eqb dependency (provider_name provider)) (dependencies provider)
  then inl ("invalid OPC UA datatype provider: invalid dependency for '" +:+
            provider_name provider +:+ "'")
  else
    let provider := sortDependencies provider in
    if has_adjacent_equal (dependencies provider)
    then inl ("invalid OPC UA datatype provider: duplicate dependency for '" +:+
              provider_name provider +:+ "'")
    else
      match validateDefinitions provider (occupiedIds state) (data_types provider) with
      | Some message => inl message
      | None => inr provider
      end.

Definition registerDataTypeProvider (state : RegistryState) (provider : DataTypeProvider)
    (error : option string) : RegistryState * bool * option string :=
  let provider := sortDependencies provider in
  let existing := providers state !! provider_name provider in
  if match existing with Some existing => sameProvider existing provider | None => false end
  then (state, true, clearError error)
  else if frozen state then
    (state, false, assignError error ("late OPC UA datatype provider registration: '" +:+
                                      provider_name provider +:+ "'"))
  else if bool_decide (is_Some existing) then
    (state, false, assignError error ("conflicting OPC UA datatype provider: '" +:+
                                      provider_name provider +:+ "'"))
  else
    match validateAndNormalize provider state with
    | inl validation => (state, false, assignError error validation)
    | inr provider =>
        ({| providers := <[provider_name provider := provider]> (providers state);
            provider_order := provider_order state;
            frozen := frozen state |}, true, clearError error)
    end.

(** ** Freezing *)

(** The first missing dependency, in iteration order. *)
Definition firstMissingDependency (state : RegistryState) : option (string * string) :=
  head (filter (λ '(_, dependency), providers state !! dependency = None)
    (ordered_items (providers state) ≫=
       λ '(name, provider), (λ dependency, (name, dependency)) <$> dependencies provider)).

Definition computeProviderOrder (state : RegistryState) (error : option string) :
    option (list string) * option string :=
  match firstMissingDependency state with
  | Some (name, dependency) =>
      (None, assignError error ("missing OPC UA datatype provider dependency: provider '" +:+
                                name +:+ "' requires '" +:+ dependency +:+ "'"))
  | None =>
      let indegree := (λ provider, N.of_nat (length (dependencies provider))) <$> providers state in
      let dependents := buildDependents (dependencies <$> providers state) in
      let ready := dom (filter (λ '(_, count), count = 0%N) indegree) in
      let '(indegree, _, order) :=
        orderLoop (size (providers state)) dependents indegree ready [] in
      if negb (length order =? size (providers state)) then
        (None, assignError error
           ("cyclic OPC UA datatype provider dependency:" +:+
            foldr (λ '(name, count) message,
                     if (count =? 0)%N then message else " " +:+ name +:+ message)
              "" (ordered_items indegree)))
      else (Some order, error)
  end.

Definition dataTypeRegistryFrozen (state : RegistryState) : bool := frozen state.

Definition freezeDataTypeRegistry (state : RegistryState) (error : option string) :
    RegistryState * option (list string) * option string :=
  if frozen state then (state, Some (provider_order state), clearError error)
  else
    match computeProviderOrder state error with
    | (None, error) => (state, None, error)
    | (Some order, error) =>
        ({| providers := providers state; provider_order := order; frozen := true |},
         Some order, clearError error)
    end.

(** [providers.at(name)] for every name; [at] throws when the key is absent. *)
Definition providersInOrder (state : RegistryState) : exn + list DataTypeProvider :=
  foldr (λ name rest,
           match providers state !! name, rest with
           | None, _ => inl (std_exception "map::at")
           | Some provider, inr rest => inr (provider :: rest)
           | Some _, inl e => inl e
           end) (inr []) (provider_order state).

Definition frozenDataTypeProviders (state : RegistryState) (error : option string) :
    RegistryState * (exn + option (list DataTypeProvider)) * option string :=
  match freezeDataTypeRegistry state error with
  | (state, None, error) => (state, inr None, error)
  | (state, Some _, error) =>
      match providersInOrder state with
      | inl e => (state, inl e, error)
      | inr found => (state, inr (Some found), error)
      end
  end.

(** ** Specification *)

(** A call on the registry, and the states a process can bring it to. *)
Inductive registry_step : RegistryState → RegistryState → Prop :=
  | step_register state provider error :
      registry_step state (registerDataTypeProvider state provider error).1.1
  | step_freeze state error :
      registry_step state (freezeDataTypeRegistry state error).1.1.

Definition registry_reachable : RegistryState → Prop := rtc registry_step initial_registry.

(** Every dependency of a provider precedes it. *)
Definition topological (deps : gmap string (list string)) (order : list string) : Prop :=
  ∀ before name after l dependency,
    order = before ++ name :: after → deps !! name = Some l → dependency ∈ l → dependency ∈ before.

Definition definition_ids (provider : DataTypeProvider) : list (string * string) :=
  data_types provider ≫= λ definition, [logicalTypeId definition; logicalEncodingId definition].

Record valid_definition provider (definition : CustomDataTypeDefinition) : Prop := {
  vd_name : validText (def_name definition) = true;
  vd_fingerprint : validText (schema_fingerprint definition) = true;
  vd_type : validText (type_node_id (def_id definition)) = true;
  vd_encoding : validText (binary_encoding_node_id (def_id definition)) = true;
  vd_namespace : id_namespace_uri (def_id definition) = provider_namespace_uri provider;
  vd_materialize : is_Some (materialize definition);
}.

Record valid_provider provider : Prop := {
  vp_name : validText (provider_name provider) = true;
  vp_namespace : validText (provider_namespace_uri provider) = true;
  vp_types : data_types provider ≠ [];
  vp_dependencies : ∀ d, d ∈ dependencies provider → validText d = true ∧ d ≠ provider_name provider;
  vp_sorted : StronglySorted String.le (dependencies provider);
  vp_NoDup : NoDup (dependencies provider);
  vp_definitions : ∀ def, def ∈ data_types provider → valid_definition provider def;
  vp_ids : NoDup (definition_ids provider);
}.

Record registry_wf state : Prop := {
  wf_keys : ∀ name provider, providers state !! name = Some provider → provider_name provider = name;
  wf_valid : ∀ name provider, providers state !! name = Some provider → valid_provider provider;
  wf_disjoint : ∀ name1 provider1 name2 provider2 id,
    providers state !! name1 = Some provider1 → providers state !! name2 = Some provider2 →
    id ∈ definition_ids provider1 → id ∈ definition_ids provider2 → name1 = name2;
  wf_order : frozen state = true →
    provider_order state ≡ₚ elements (dom (providers state)) ∧
    topological (dependencies <$> providers state) (provider_order state);
}.
End registry.

(** The loop of [computeProviderOrder]: [order] is a topologically closed set of
    providers, [indegree] counts the dependencies not placed yet and [ready]
    holds the providers that wait for none. *)
Record order_inv (deps : gmap string (list string)) (indegree : gmap string N)
    (ready : gset string) (order : list string) : Prop := {
  oi_NoDup : NoDup order;
  oi_dom : ∀ name, name ∈ order → name ∈ dom deps;
  oi_indegree : ∀ name,
    indegree !! name = (λ l, N.of_nat (length (filter (.∉ order) l))) <$> deps !! name;
  oi_ready : ∀ name, name ∈ ready ↔
    name ∉ order ∧ ∃ l, deps !! name = Some l ∧ ∀ d, d ∈ l → d ∈ order;
  oi_topological : topological deps order;
}.

(** Two providers, the first of which depends on the second, for the concrete runs. *)
Definition example_definition (namespace name : string) : CustomDataTypeDefinition unit unit :=
  {| def_name := name;
     def_id := {| id_namespace_uri := namespace; type_node_id := name;
                  binary_encoding_node_id := name +:+ ".Binary" |};
     def_kind := structure; schema_fingerprint := "v1";
     materialize := Some (λ _, inr tt) |}.

Definition example_provider (name : string) (deps : list string) : DataTypeProvider unit unit :=
  {| provider_name := name; provider_namespace_uri := "urn:" +:+ name;
     dependencies := deps; data_types := [example_definition ("urn:" +:+ name) "Type"] |}.

Definition example_registry : RegistryState unit unit :=
  (registerDataTypeProvider
     (registerDataTypeProvider initial_registry (example_provider "a" ["b"]) None).1.1
     (example_provider "b" []) None).1.1.

(** ** Lemmas: the dependents *)

Lemma addDependents_lookup m name l d :
  NoDup l →
  default [] (addDependents m (name, l) !! d) =
  default [] (m !! d) ++ (if decide (d ∈ l) then [name] else []).
Proof.
  intros Hl. revert m. unfold addDependents.
  induction Hl as [|x l Hx Hl IH]; intros m; csimpl.
  - by rewrite app_nil_r.
  - rewrite IH. destruct (decide (x = d)) as [->|Hne].
    + rewrite lookup_insert_eq. simpl.
      rewrite (decide_False (P := d ∈ l)) by done. rewrite (decide_True (P := d ∈ d :: l)) by set_solver.
      by rewrite app_nil_r.
    + rewrite lookup_insert_ne by done. f_equal.
      destruct (decide (d ∈ l)).
      * by rewrite decide_True by set_solver.
      * by rewrite decide_False by set_solver.
Qed.

#[local] Arguments addDependents : simpl never.

Lemma foldl_addDependents_lookup m items d :
  (∀ item, item ∈ items → NoDup item.2) →
  default [] (foldl addDependents m items !! d) =
  default [] (m !! d) ++ (filter (λ item, d ∈ item.2) items).*1.
Proof.
  revert m. induction items as [|[name l] items IH]; intros m Hitems; csimpl.
  - by rewrite app_nil_r.
  - rewrite IH by set_solver. rewrite addDependents_lookup by (apply (Hitems (name, l)); set_solver).
    rewrite <-app_assoc. f_equal. rewrite filter_cons. simpl. by case_decide.
Qed.

Lemma buildDependents_spec (deps : gmap string (list string)) d :
  (∀ name l, deps !! name = Some l → NoDup l) →
  NoDup (default [] (buildDependents deps !! d)) ∧
  ∀ name, name ∈ default [] (buildDependents deps !! d) ↔
    ∃ l, deps !! name = Some l ∧ d ∈ l.
Proof.
  intros Hdeps.
  assert (Heq : default [] (buildDependents deps !! d) ≡ₚ
                (filter (λ item, d ∈ item.2) (ordered_items deps)).*1).
  { unfold buildDependents. rewrite lookup_fmap.
    pose proof (foldl_addDependents_lookup ∅ (ordered_items deps) d) as Hl.
    rewrite lookup_empty in Hl. simpl in Hl.
    rewrite <-Hl by (intros [name l] Hin; apply elem_of_ordered_items in Hin; simpl; eauto).
    destruct (foldl addDependents ∅ (ordered_items deps) !! d); simpl; [|done].
    apply merge_sort_Permutation. }
  split.
  - rewrite Heq. eapply sublist_NoDup; [|apply (fmap_sublist fst), sublist_filter].
    change (NoDup (fst <$> ordered_items deps)).
    rewrite ordered_items_keys. apply ordered_elems_NoDup.
  - intros name. rewrite Heq, list_elem_of_fmap. split.
    + intros ([name' l] & -> & Hin). apply list_elem_of_filter in Hin as [? Hin].
      apply elem_of_ordered_items in Hin. eauto.
    + intros (l & ? & ?). exists (name, l). split; [done|].
      apply list_elem_of_filter. by rewrite elem_of_ordered_items.
Qed.

(** ** Lemmas: one round of the loop *)

Lemma size_decrement_pos count : (0 < count)%N → size_decrement count = (count - 1)%N.
Proof. unfold size_decrement. intros ?. destruct (N.eqb_spec count 0); [lia|done]. Qed.

Lemma foldl_releaseDependent ds indegree ready indegree' ready' :
  NoDup ds →
  (∀ d, d ∈ ds → ∃ count, indegree !! d = Some count ∧ (0 < count)%N) →
  foldl releaseDependent (indegree, ready) ds = (indegree', ready') →
  (∀ k, indegree' !! k = if decide (k ∈ ds) then (λ count, count - 1)%N <$> indegree !! k
                         else indegree !! k) ∧
  (∀ k, k ∈ ready' ↔ k ∈ ready ∨ (k ∈ ds ∧ indegree !! k = Some 1%N)).
Proof.
  intros Hds. revert indegree ready.
  induction Hds as [|x ds Hx Hds IH]; intros indegree ready Hpos Hfold; simpl in Hfold.
  { simplify_eq. split; intros k; [done|set_solver]. }
  destruct (Hpos x ltac:(set_solver)) as (count & Hcount & Hcount0).
  rewrite Hcount in Hfold. simpl in Hfold. rewrite size_decrement_pos in Hfold by done.
  apply IH in Hfold as [Hind Hready].
  - split; intros k.
    + rewrite Hind. destruct (decide (k = x)) as [->|].
      * rewrite (decide_False (P := x ∈ ds)), (decide_True (P := x ∈ x :: ds)) by set_solver.
        by rewrite lookup_insert_eq, Hcount.
      * rewrite lookup_insert_ne by done.
        destruct (decide (k ∈ ds)).
        { by rewrite decide_True by set_solver. }
        { by rewrite decide_False by set_solver. }
    + rewrite Hready. destruct (decide (k = x)) as [->|].
      * rewrite lookup_insert_eq, Hcount.
        destruct (N.eqb_spec (count - 1) 0); [|].
        { replace count with 1%N by lia. set_solver. }
        { split; [intros [?|[??]]; [auto|set_solver]|].
          intros [?|[_ [= ->]]]; [auto|done]. }
      * rewrite lookup_insert_ne by done. destruct (_ =? _)%N; set_solver.
  - intros d Hd. rewrite lookup_insert_ne by set_solver. apply Hpos. set_solver.
Qed.

Lemma order_inv_init deps :
  order_inv deps ((λ l, N.of_nat (length l)) <$> deps)
    (dom (filter (λ '(_, count), count = 0%N) ((λ l, N.of_nat (length l)) <$> deps))) [].
Proof.
  assert (Hfilter : ∀ l : list string, filter (.∉ []) l = l).
  { intros l. induction l as [|x l IH]; [done|]. rewrite filter_cons, decide_True by set_solver. by f_equal. }
  split.
  - constructor.
  - set_solver.
  - intros name. rewrite lookup_fmap. destruct (deps !! name); simpl; [|done]. by rewrite Hfilter.
  - intros name. rewrite elem_of_dom. split.
    + intros [count Hc]. apply map_lookup_filter_Some in Hc as [Hc ->].
      rewrite lookup_fmap in Hc. destruct (deps !! name) as [l|]; simplify_eq/=.
      split; [set_solver|]. exists l. split; [done|]. destruct l; [set_solver|done].
    + intros [_ (l & Hl & Hall)]. exists 0%N. apply map_lookup_filter_Some. split; [|done].
      rewrite lookup_fmap, Hl. simpl. destruct l as [|d l]; [done|].
      exfalso. specialize (Hall d). set_solver.
  - intros before name after l d Heq. by destruct before.
Qed.

Lemma filter_not_in_snoc (order l : list string) name :
  NoDup l → name ∉ order →
  length (filter (.∉ order) l) =
  length (filter (.∉ order ++ [name]) l) + (if decide (name ∈ l) then 1 else 0).
Proof.
  intros Hl Hname. induction Hl as [|x l Hx Hl IH].
  { done. }
  rewrite !filter_cons.
  destruct (decide (x = name)) as [->|Hne].
  - rewrite (decide_True (P := name ∉ order)) by done.
    rewrite (decide_False (P := name ∉ order ++ [name])) by set_solver.
    rewrite (decide_True (P := name ∈ name :: l)) by set_solver.
    rewrite decide_False in IH by done. simpl. lia.
  - destruct (decide (x ∉ order)) as [Hin|Hin].
    + rewrite (decide_True (P := x ∉ order ++ [name])) by set_solver. simpl.
      destruct (decide (name ∈ l)).
      * rewrite decide_True by set_solver. lia.
      * rewrite decide_False by set_solver. lia.
    + rewrite (decide_False (P := x ∉ order ++ [name])) by set_solver.
      destruct (decide (name ∈ l)).
      * rewrite decide_True by set_solver. lia.
      * rewrite decide_False by set_solver. lia.
Qed.

(** ** Lemmas: the loop *)

Lemma topological_closed deps order name l d :
  topological deps order → name ∈ order → deps !! name = Some l → d ∈ l → d ∈ order.
Proof.
  intros Htop Hin Hl Hd. apply list_elem_of_split in Hin as (before & after & Heq).
  rewrite Heq. apply elem_of_app. left. by eapply Htop.
Qed.

Lemma topological_snoc deps order name :
  topological deps order →
  (∀ l d, deps !! name = Some l → d ∈ l → d ∈ order) →
  topological deps (order ++ [name]).
Proof.
  intros Htop Hname before x after l d Heq Hl Hd.
  destruct after as [|y after _] using rev_ind.
  - apply app_inj_tail in Heq as [-> ->]. eauto.
  - rewrite app_comm_cons, app_assoc in Heq. apply app_inj_tail in Heq as [-> _].
    by eapply Htop.
Qed.

Lemma filter_not_in_nil (order l : list string) :
  length (filter (.∉ order) l) = 0 ↔ ∀ d, d ∈ l → d ∈ order.
Proof.
  rewrite length_zero_iff_nil. split.
  - intros Hnil d Hd. destruct (decide (d ∈ order)) as [|Hno]; [done|].
    assert (d ∈ filter (.∉ order) l) by (by apply list_elem_of_filter). rewrite Hnil in *. set_solver.
  - intros Hall. induction l as [|x l IH]; [done|].
    rewrite filter_cons, decide_False by (intros Hx; apply Hx, Hall; set_solver).
    apply IH. set_solver.
Qed.

Section order.
Context (deps : gmap string (list string))
  (Hnodup : ∀ name l, deps !! name = Some l → NoDup l).

Lemma order_step indegree ready order name indegree' ready' :
  order_inv deps indegree ready order → name ∈ ready →
  foldl releaseDependent (indegree, ready ∖ {[name]})
    (default [] (buildDependents deps !! name)) = (indegree', ready') →
  order_inv deps indegree' ready' (order ++ [name]).
Proof using Hnodup.
  intros [HN Hdom Hind Hready Htop] Hname Hfold.
  destruct (buildDependents_spec deps name Hnodup) as [Hds Hin].
  pose proof (proj1 (Hready name) Hname) as [Hnew (lname & Hlname & Hplaced)].
  assert (Hself : name ∉ lname) by (intros ?; by apply Hnew, Hplaced).
  assert (Hdep : ∀ k l, deps !! k = Some l → name ∈ l → k ∉ order ∧ k ≠ name).
  { intros k l Hl Hk. split; [|congruence]. intros Ho. apply Hnew. by eapply topological_closed. }
  apply foldl_releaseDependent in Hfold as [Hind' Hready']; [|done|].
  2: { intros d Hd. apply Hin in Hd as (l & Hl & Hd). rewrite Hind, Hl. simpl.
       eexists. split; [done|]. rewrite (filter_not_in_snoc _ _ name) by eauto.
       rewrite decide_True by done. lia. }
  split.
  - apply NoDup_app. split; [done|]. split; [set_solver|]. apply NoDup_singleton.
  - intros x. rewrite elem_of_app, list_elem_of_singleton.
    intros [?| ->]; [auto|]. by apply elem_of_dom_2 in Hlname.
  - intros k. rewrite Hind', Hind. destruct (deps !! k) as [l|] eqn:Hl; simpl; [|by case_decide].
    rewrite (filter_not_in_snoc _ _ name) by eauto.
    destruct (decide (name ∈ l)); case_decide; simpl; f_equal; try lia.
    + exfalso. naive_solver.
    + apply Hin in H as (? & ? & ?). by simplify_eq.
  - intros k. rewrite Hready', elem_of_difference, Hready, not_elem_of_singleton, Hin, Hind. split.
    + intros [[[? (l & Hl & Hall)] ?]|[(l & Hl & Hk) Hone]]; [set_solver|].
      destruct (Hdep _ _ Hl Hk). split; [set_solver|]. exists l. split; [done|].
      apply filter_not_in_nil. rewrite Hl in Hone. injection Hone as Hone.
      rewrite (filter_not_in_snoc _ _ name), decide_True in Hone by eauto. lia.
    + intros [Hk (l & Hl & Hall)]. destruct (decide (name ∈ l)) as [Hnl|Hnl].
      * right. split; [eauto|]. rewrite Hl. simpl. f_equal. apply filter_not_in_nil in Hall.
        rewrite (filter_not_in_snoc _ _ name), decide_True by eauto. lia.
      * left. split; [|set_solver]. split; [set_solver|]. exists l. set_solver.
  - apply topological_snoc; [done|]. intros l d Hl Hd. simplify_eq. auto.
Qed.

(** With one unit of fuel per provider left the loop stops because nothing is
    ready. *)
Lemma orderLoop_spec fuel indegree ready order :
  order_inv deps indegree ready order →
  size deps ≤ length order + fuel →
  ∃ indegree' order', orderLoop fuel (buildDependents deps) indegree ready order =
    (indegree', ∅, order') ∧ order_inv deps indegree' ∅ order'.
Proof using Hnodup.
  revert indegree ready order. induction fuel as [|fuel IH]; intros indegree ready order Hinv Hfuel.
  - simpl. enough (ready = ∅) as -> by eauto.
    apply set_eq. intros x. split; [|set_solver]. intros Hx.
    apply (oi_ready _ _ _ _ Hinv) in Hx as [Hx (l & Hl & _)].
    assert (Hperm : length (x :: order) ≤ size deps).
    { rewrite <-size_dom, <-(size_list_to_set (C := gset string)).
      - apply subseteq_size. intros y. rewrite elem_of_list_to_set, elem_of_cons.
        intros [->|?]; [by apply elem_of_dom_2 in Hl|by apply (oi_dom _ _ _ _ Hinv)].
      - constructor; [done|apply Hinv]. }
    simpl in Hperm. lia.
  - simpl. destruct (ordered_elems ready) as [|name names] eqn:Hr.
    { enough (ready = ∅) as -> by eauto. apply set_eq. intros x.
      rewrite <-elem_of_ordered_elems, Hr. set_solver. }
    assert (name ∈ ready) by (rewrite <-elem_of_ordered_elems, Hr; set_solver).
    destruct (foldl _ _ _) as [indegree' ready'] eqn:Hfold.
    apply IH; [by eapply order_step|]. rewrite length_app. simpl. lia.
Qed.

(** What is left out waits for something that is left out. *)
Lemma order_inv_stuck indegree order :
  order_inv deps indegree ∅ order →
  (∀ name l d, deps !! name = Some l → d ∈ l → d ∈ dom deps) →
  (length order = size deps ∧ order ≡ₚ elements (dom deps)) ∨
  (length order ≠ size deps ∧ ∃ name, name ∈ dom deps ∧ name ∉ order ∧
     ∀ name l, deps !! name = Some l → name ∉ order → ∃ d, d ∈ l ∧ d ∈ dom deps ∧ d ∉ order).
Proof using Hnodup.
  intros [HN Hdom _ Hready _] Hclosed.
  assert (Hsub : (list_to_set order : gset string) ⊆ dom deps) by (intros x; rewrite elem_of_list_to_set; auto).
  assert (Hlen : size (list_to_set order : gset string) = length order) by (by apply size_list_to_set).
  destruct (decide (length order = size deps)) as [Heq|Hne]; [left|right]; split; try done.
  - assert (Hset : (list_to_set order : gset string) ≡ dom deps).
    { apply set_subseteq_size_equiv; [done|]. rewrite size_dom. lia. }
    rewrite <-Hset. symmetry. by apply elements_list_to_set.
  - destruct (decide (dom deps ⊆ (list_to_set order : gset string))) as [Hall|Hall].
    { exfalso. apply Hne. apply subseteq_size in Hsub, Hall. rewrite size_dom in *. lia. }
    destruct (set_choose_L (dom deps ∖ list_to_set order)) as [name Hname].
    { intros Hemp. apply Hall. intros x Hx.
      destruct (decide (x ∈ (list_to_set order : gset string))) as [|Hn]; [done|].
      assert (x ∈ dom deps ∖ list_to_set order) by set_solver. rewrite Hemp in *. set_solver. }
    apply elem_of_difference in Hname as [Hname Hno]. rewrite elem_of_list_to_set in Hno.
    exists name. split_and!; [done|done|]. intros k l Hl Hk.
    destruct (decide (Exists (.∉ order) l)) as [(d & Hd & Hd')%Exists_exists|Hno'].
    + exists d. eauto.
    + exfalso. apply (not_elem_of_empty (C := gset string) k), Hready. split; [done|].
      exists l. split; [done|]. intros d Hd. destruct (decide (d ∈ order)); [done|].
      exfalso. apply Hno', Exists_exists. eauto.
Qed.
End order.

(** ** Lemmas: the provider order *)

Section registry_facts.
Context {UA_DataType DataType : Type}.
Notation CustomDataTypeDefinition := (CustomDataTypeDefinition UA_DataType DataType).
Notation DataTypeProvider := (DataTypeProvider UA_DataType DataType).
Notation RegistryState := (RegistryState UA_DataType DataType).
Implicit Types (state : RegistryState) (provider : DataTypeProvider).

(** The dependency graph of a registry. *)
Notation graph state := (dependencies <$> providers state).

Lemma firstMissingDependency_None state :
  firstMissingDependency state = None ↔
  ∀ name l d, graph state !! name = Some l → d ∈ l → d ∈ dom (graph state).
Proof.
  unfold firstMissingDependency. rewrite head_None. split.
  - intros Hnil name l d Hl Hd. rewrite lookup_fmap in Hl.
    destruct (providers state !! name) as [provider|] eqn:Hp; simplify_eq/=.
    rewrite dom_fmap. apply elem_of_dom.
    destruct (providers state !! d) as [x|] eqn:Hx; [done|]. exfalso.
    assert (Hin : (name, d) ∈ filter (λ '(_, dependency), providers state !! dependency = None)
      (ordered_items (providers state) ≫=
         λ '(name, provider), (λ dependency, (name, dependency)) <$> dependencies provider)).
    { apply list_elem_of_filter. split; [done|]. apply list_elem_of_bind. exists (name, provider).
      split; [|by apply elem_of_ordered_items]. apply list_elem_of_fmap. eauto. }
    rewrite Hnil in Hin. set_solver.
  - intros Hclosed.
    destruct (filter _ _) as [|[name d] rest] eqn:Hf; [done|]. exfalso.
    assert (Hin : (name, d) ∈ (name, d) :: rest) by set_solver. rewrite <-Hf in Hin.
    apply list_elem_of_filter in Hin as [Hnone Hin].
    apply list_elem_of_bind in Hin as ([name' provider] & Hin & Hitem).
    apply list_elem_of_fmap in Hin as (d' & [= -> ->] & Hd).
    apply elem_of_ordered_items in Hitem.
    apply (not_elem_of_dom (D := gset string)) in Hnone. apply Hnone.
    rewrite <-(dom_fmap dependencies). eapply (Hclosed name'); [|done]. by rewrite lookup_fmap, Hitem.
Qed.

Lemma initial_indegree state :
  (λ provider, N.of_nat (length (dependencies provider))) <$> providers state =
  (λ l, N.of_nat (length l)) <$> graph state.
Proof. by rewrite <-map_fmap_compose. Qed.

(** The three outcomes of [computeProviderOrder]. *)
Lemma computeProviderOrder_cases state error :
  (∀ name l, graph state !! name = Some l → NoDup l) →
  (∃ order, computeProviderOrder state error = (Some order, error) ∧
     order ≡ₚ elements (dom (graph state)) ∧ topological (graph state) order ∧
     ∀ name l d, graph state !! name = Some l → d ∈ l → d ∈ dom (graph state)) ∨
  (∃ message, computeProviderOrder state error = (None, assignError error message) ∧
     ((∃ name l d, graph state !! name = Some l ∧ d ∈ l ∧ d ∉ dom (graph state)) ∨
      ∃ X : gset string, X ≢ ∅ ∧ X ⊆ dom (graph state) ∧
        ∀ name l, name ∈ X → graph state !! name = Some l → ∃ d, d ∈ l ∧ d ∈ X)).
Proof.
  intros Hnodup. unfold computeProviderOrder.
  destruct (firstMissingDependency state) as [[name d]|] eqn:Hmiss.
  - right. eexists. split; [done|]. left.
    apply head_Some_elem_of, list_elem_of_filter in Hmiss as [Hnone Hin].
    apply list_elem_of_bind in Hin as ([name' provider] & Hin & Hitem).
    apply list_elem_of_fmap in Hin as (d' & [= -> ->] & Hd).
    apply elem_of_ordered_items in Hitem.
    exists name', (dependencies provider), d'. split_and!; [|done|].
    + by rewrite lookup_fmap, Hitem.
    + rewrite dom_fmap. by apply not_elem_of_dom.
  - pose proof (proj1 (firstMissingDependency_None state) Hmiss) as Hclosed.
    rewrite initial_indegree.
    destruct (orderLoop_spec (graph state) Hnodup (size (providers state)) _ _ _
      (order_inv_init (graph state))) as (indegree & order & Hloop & Hinv).
    { rewrite map_size_fmap. simpl. lia. }
    rewrite Hloop.
    apply order_inv_stuck in Hinv as Hstuck; [|done..].
    rewrite map_size_fmap in Hstuck.
    destruct Hstuck as [[Hlen Hperm]|(Hlen & name & Hname & Hno & Hstuck)].
    + left. exists order. rewrite Hlen, Nat.eqb_refl. split_and!; [done|done|apply Hinv|done].
    + right. apply Nat.eqb_neq in Hlen. rewrite Hlen. eexists. split; [done|]. right.
      exists (dom (graph state) ∖ list_to_set order). split_and!.
      * set_solver.
      * set_solver.
      * intros k l Hk Hl. destruct (Hstuck k l Hl) as (d & ? & ? & ?); set_solver.
Qed.

(** ** Lemmas: validation *)

Lemma elem_of_occupyDefinitions (definitions : list CustomDataTypeDefinition) occupied id :
  id ∈ foldl occupyDefinition occupied definitions ↔
  id ∈ occupied ∨ id ∈ definitions ≫= λ def, [logicalTypeId def; logicalEncodingId def].
Proof.
  revert occupied. induction definitions as [|def definitions IH]; intros occupied; csimpl.
  - set_solver.
  - rewrite IH. unfold occupyDefinition. set_solver.
Qed.

Lemma elem_of_occupiedIds state id :
  id ∈ occupiedIds state ↔
  ∃ name provider, providers state !! name = Some provider ∧ id ∈ definition_ids provider.
Proof.
  unfold occupiedIds. transitivity (∃ item, item ∈ ordered_items (providers state) ∧ id ∈ definition_ids item.2).
  2: { split.
       - intros ([name provider] & Hin & ?). apply elem_of_ordered_items in Hin. eauto.
       - intros (name & provider & ? & ?). exists (name, provider). by rewrite elem_of_ordered_items. }
  generalize (ordered_items (providers state)). intros items.
  transitivity (id ∈ (∅ : gset (string * string)) ∨ ∃ item, item ∈ items ∧ id ∈ definition_ids item.2);
    [|set_solver].
  generalize (∅ : gset (string * string)). induction items as [|[name provider] items IH]; intros occupied; simpl.
  - set_solver.
  - rewrite IH, elem_of_occupyDefinitions.
    split.
    + intros [[?|?]|(item & ? & ?)]; [auto|right; exists (name, provider)|right; exists item]; set_solver.
    + intros [?|(item & [->|?]%elem_of_cons & ?)]; [auto..|right; eauto].
Qed.

Lemma validateDefinitions_None provider definitions occupied :
  validateDefinitions provider occupied definitions = None →
  (∀ def, def ∈ definitions → valid_definition provider def) ∧
  let ids := definitions ≫= λ def, [logicalTypeId def; logicalEncodingId def] in
  NoDup ids ∧ ∀ id, id ∈ ids → id ∉ occupied.
Proof.
  revert occupied. induction definitions as [|def definitions IH]; intros occupied; csimpl.
  { intros _. split_and!; [set_solver|constructor|set_solver]. }
  destruct (_ || bool_decide (materialize def = None)) eqn:Htexts; [done|].
  destruct (negb (_ =? _)%string) eqn:Hns; [done|].
  destruct (bool_decide (logicalTypeId def = _) || _ || _) eqn:Hids; [done|].
  intros Hrest. apply IH in Hrest as (Hvalid & Hnodup & Hdisj).
  split_guards. apply String.eqb_eq in Hns.
  assert (Hout : ∀ id, id ∈ definitions ≫= (λ def, [logicalTypeId def; logicalEncodingId def]) →
    id ≠ logicalTypeId def ∧ id ≠ logicalEncodingId def ∧ id ∉ occupied).
  { intros id Hid%Hdisj. unfold occupyDefinition in Hid. set_solver. }
  split_and!.
  - intros d [->|Hd]%elem_of_cons; [|auto]. split; auto.
    destruct (materialize def) eqn:Hm; [by eexists|congruence].
  - constructor; [|constructor; [|done]].
    + rewrite elem_of_cons. intros [?|Hin]; [done|]. by apply Hout in Hin as [? _].
    + intros Hin. by apply Hout in Hin as (_ & ? & _).
  - intros id. rewrite !elem_of_cons. intros [->|[->|Hin]]; [done|set_solver|].
    by apply Hout in Hin as (_ & _ & ?).
Qed.

Lemma has_adjacent_equal_false (l : list string) :
  has_adjacent_equal l = false → StronglySorted String.le l → NoDup l.
Proof.
  induction l as [|x [|y l] IH]; [constructor|intros; apply NoDup_singleton|].
  intros [Hxy Hrest]%orb_false_iff Hs. apply bool_decide_eq_false in Hxy.
  inversion Hs as [|?? Hs' Hx]; subst. constructor; [|by apply IH].
  intros Hin. apply Hxy, (anti_symm String.le); [by inversion Hx|].
  apply elem_of_cons in Hin as [->|Hin]; [done|].
  inversion Hs' as [|?? _ Hy]; subst. by apply (proj1 (Forall_forall _ _) Hy).
Qed.

Lemma validateAndNormalize_inr provider state provider' :
  validateAndNormalize provider state = inr provider' →
  provider' = sortDependencies provider ∧ valid_provider provider' ∧
  ∀ id, id ∈ definition_ids provider' → id ∉ occupiedIds state.
Proof.
  unfold validateAndNormalize.
  destruct (_ || bool_decide (length (data_types provider) = 0)) eqn:Htexts; [done|].
  destruct (existsb _ _) eqn:Hdeps; [done|].
  destruct (has_adjacent_equal _) eqn:Hadj; [done|].
  destruct (validateDefinitions _ _ _) eqn:Hdefs; [done|].
  intros [= <-]. apply validateDefinitions_None in Hdefs as (Hvalid & Hnodup & Hdisj).
  split_guards. split; [done|]. split; [|done].
  assert (Hsorted : StronglySorted String.le (dependencies (sortDependencies provider)))
    by (apply StronglySorted_merge_sort; apply _).
  split; try done.
  - intros Hnil. simpl in Hnil. by rewrite Hnil in *.
  - intros d Hd. simpl in Hd. rewrite merge_sort_Permutation in Hd.
    destruct (decide (validText d = true ∧ d ≠ provider_name provider)) as [|Hno]; [done|].
    exfalso. apply not_true_iff_false in Hdeps. apply Hdeps, existsb_exists.
    exists d. split; [by apply list_elem_of_In|]. apply orb_true_iff.
    destruct (validText d); [right|by left]. apply String.eqb_eq.
    destruct (decide (d = provider_name provider)); [done|]. naive_solver.
  - by apply has_adjacent_equal_false.
Qed.

(** ** Lemmas: the registry invariant *)

Lemma registry_wf_initial : registry_wf (initial_registry (UA_DataType := UA_DataType) (DataType := DataType)).
Proof. split; simpl; try done; set_solver. Qed.

Lemma registry_wf_NoDup state name l :
  registry_wf state → graph state !! name = Some l → NoDup l.
Proof.
  intros Hwf Hl. rewrite lookup_fmap in Hl. apply fmap_Some in Hl as (provider & Hp & ->).
  by eapply vp_NoDup, wf_valid.
Qed.

(** A registration leaves the state alone or adds one checked provider. *)
Lemma registerDataTypeProvider_cases state provider error :
  (registerDataTypeProvider state provider error).1.1 = state ∨
  (frozen state = false ∧ providers state !! provider_name provider = None ∧
   let provider' := sortDependencies (sortDependencies provider) in
   (registerDataTypeProvider state provider error).1.1 =
     {| providers := <[provider_name provider := provider']> (providers state);
        provider_order := provider_order state; frozen := frozen state |} ∧
   valid_provider provider' ∧ ∀ id, id ∈ definition_ids provider' → id ∉ occupiedIds state).
Proof.
  unfold registerDataTypeProvider. simpl.
  destruct (match _ with Some _ => _ | None => false end); [by left|].
  destruct (frozen state) eqn:Hfrozen; [by left|].
  case_bool_decide as Hsome; [by left|]. rewrite <-eq_None_not_Some in Hsome.
  destruct (validateAndNormalize _ _) as [|provider'] eqn:Hvalid; [by left|]. right.
  apply validateAndNormalize_inr in Hvalid as (-> & ? & ?). done.
Qed.

Lemma registry_wf_register state provider error :
  registry_wf state → registry_wf (registerDataTypeProvider state provider error).1.1.
Proof.
  intros Hwf. destruct (registerDataTypeProvider_cases state provider error)
    as [->|(Hfrozen & Hfresh & -> & Hvalid & Hids)]; [done|].
  assert (Hnew : ∀ name p id, providers state !! name = Some p → id ∈ definition_ids p →
    id ∉ definition_ids (sortDependencies (sortDependencies provider))).
  { intros name p id Hp Hid Hid'. apply (Hids id Hid'). apply elem_of_occupiedIds. eauto. }
  split; simpl.
  - intros name p. rewrite lookup_insert_Some. intros [[<- <-]|[_ ?]]; [done|by eapply wf_keys].
  - intros name p. rewrite lookup_insert_Some. intros [[<- <-]|[_ ?]]; [done|by eapply wf_valid].
  - intros name1 p1 name2 p2 id. rewrite !lookup_insert_Some.
    intros [[<- <-]|[? H1]] [[<- <-]|[? H2]] Hid1 Hid2; [done|..].
    + by destruct (Hnew _ _ _ H2 Hid2).
    + by destruct (Hnew _ _ _ H1 Hid1).
    + by eapply wf_disjoint.
  - by rewrite Hfrozen.
Qed.

Lemma registry_wf_freeze state error :
  registry_wf state → registry_wf (freezeDataTypeRegistry state error).1.1.
Proof.
  intros Hwf. unfold freezeDataTypeRegistry. destruct (frozen state) eqn:Hfrozen; [done|].
  destruct (computeProviderOrder_cases state error) as [(order & -> & Hperm & Htop & _)|(message & -> & _)];
    [by intros; eapply registry_wf_NoDup| |done].
  split; simpl; [by apply wf_keys|by apply wf_valid|by apply wf_disjoint|].
  intros _. by rewrite <-(dom_fmap dependencies (providers state)).
Qed.

Lemma registry_wf_reachable state : registry_reachable state → registry_wf state.
Proof.
  revert state. apply (rtc_ind_r registry_wf); [apply registry_wf_initial|].
  intros ?? _ []; auto using registry_wf_register, registry_wf_freeze.
Qed.

(** ** Lemmas: registered providers stay *)

Lemma sameDefinition_refl (definition : CustomDataTypeDefinition) :
  sameDefinition definition definition = true.
Proof.
  unfold sameDefinition.
  by rewrite !String.eqb_refl, (bool_decide_eq_true_2 (def_id _ = _)), (bool_decide_eq_true_2 (def_kind _ = _)), eqb_reflx.
Qed.

Lemma sameProvider_refl provider : sameProvider provider provider = true.
Proof.
  unfold sameProvider. rewrite !String.eqb_refl, bool_decide_eq_true_2, Nat.eqb_refl by done. simpl.
  induction (data_types provider); simpl; [done|]. by rewrite sameDefinition_refl.
Qed.

Lemma sortDependencies_idemp provider :
  sortDependencies (sortDependencies provider) = sortDependencies provider.
Proof.
  unfold sortDependencies. simpl. f_equal.
  apply (StronglySorted_unique String.le); [apply StronglySorted_merge_sort; apply _..|].
  apply merge_sort_Permutation.
Qed.

Lemma providers_grow state state' :
  rtc registry_step state state' → providers state ⊆ providers state'.
Proof.
  induction 1 as [|state1 state2 state3 Hstep _ IH]; [done|]. etransitivity; [|exact IH].
  destruct Hstep as [state provider error|state error].
  - destruct (registerDataTypeProvider_cases state provider error)
      as [->|(_ & Hfresh & -> & _)]; [done|]. by apply insert_subseteq.
  - unfold freezeDataTypeRegistry. destruct (frozen state); [done|].
    by destruct (computeProviderOrder state error) as [[order|] error'].
Qed.

Lemma registered_lookup state provider error :
  (registerDataTypeProvider state provider error).1.2 = true →
  ∃ existing, providers (registerDataTypeProvider state provider error).1.1
      !! provider_name provider = Some existing ∧
    sameProvider existing (sortDependencies provider) = true.
Proof.
  unfold registerDataTypeProvider. simpl.
  destruct (providers state !! provider_name provider) as [existing|] eqn:Hex.
  - destruct (sameProvider existing _) eqn:Hsame; [simpl; eauto|].
    destruct (frozen state); [done|]. by rewrite bool_decide_eq_true_2 by eauto.
  - destruct (frozen state); [done|]. rewrite bool_decide_eq_false_2 by (by intros []).
    destruct (validateAndNormalize _ _) as [|provider'] eqn:Hvalid; [done|]. intros _. simpl.
    apply validateAndNormalize_inr in Hvalid as (-> & _). simpl.
    rewrite lookup_insert_eq, sortDependencies_idemp. eauto using sameProvider_refl.
Qed.

Lemma register_again state provider error existing :
  providers state !! provider_name provider = Some existing →
  sameProvider existing (sortDependencies provider) = true →
  registerDataTypeProvider state provider error = (state, true, clearError error).
Proof. intros Hex Hsame. unfold registerDataTypeProvider. simpl. by rewrite Hex, Hsame. Qed.

Lemma frozen_register state provider error :
  frozen state = true → (registerDataTypeProvider state provider error).1.1 = state.
Proof.
  intros Hfrozen. destruct (registerDataTypeProvider_cases state provider error)
    as [?|(? & _)]; congruence.
Qed.

Lemma freeze_Some state error order :
  registry_wf state → (freezeDataTypeRegistry state error).1.2 = Some order →
  freezeDataTypeRegistry state error =
    ({| providers := providers state; provider_order := order; frozen := true |},
     Some order, clearError error) ∧
  order ≡ₚ elements (dom (providers state)) ∧ topological (graph state) order.
Proof.
  intros Hwf. unfold freezeDataTypeRegistry. destruct (frozen state) eqn:Hfrozen.
  - intros [= <-]. split; [|by apply wf_order]. destruct state; simpl in *. by subst.
  - destruct (computeProviderOrder_cases state error)
      as [(order' & -> & Hperm & Htop & _)|(message & -> & _)];
      [by intros; eapply registry_wf_NoDup| |done].
    intros [= <-]. by rewrite <-(dom_fmap dependencies (providers state)).
Qed.

(** [frozenDataTypeProviders] either reports the failure of the freeze or
    returns the registered providers in the order. *)
Lemma frozenDataTypeProviders_cases state error :
  registry_wf state →
  (∃ e, freezeDataTypeRegistry state error = (state, None, e) ∧
     frozenDataTypeProviders state error = (state, inr None, e)) ∨
  (∃ order found,
     let state' := {| providers := providers state; provider_order := order; frozen := true |} in
     freezeDataTypeRegistry state error = (state', Some order, clearError error) ∧
     frozenDataTypeProviders state error = (state', inr (Some found), clearError error) ∧
     provider_name <$> found = order ∧
     (∀ provider, provider ∈ found → providers state !! provider_name provider = Some provider) ∧
     order ≡ₚ elements (dom (providers state)) ∧ topological (graph state) order).
Proof.
  intros Hwf. unfold frozenDataTypeProviders.
  destruct (freezeDataTypeRegistry state error) as [[state' [order|]] e] eqn:Hfreeze.
  - right. destruct (freeze_Some state error order Hwf) as (Heq & Hperm & Htop); [by rewrite Hfreeze|].
    rewrite Hfreeze in Heq. simplify_eq.
    assert (Hall : ∀ name, name ∈ order → is_Some (providers state !! name)).
    { intros name. by rewrite Hperm, elem_of_elements, elem_of_dom. }
    unfold providersInOrder. simpl.
    enough (∃ found, foldr (λ name rest,
        match providers state !! name, rest with
        | None, _ => inl (std_exception "map::at")
        | Some provider, inr rest => inr (provider :: rest)
        | Some _, inl e => inl e
        end) (inr []) order = inr found ∧ provider_name <$> found = order ∧
        ∀ provider, provider ∈ found → providers state !! provider_name provider = Some provider)
      as (found & -> & Hnames & Hin) by (exists order, found; auto 10).
    clear Hperm Htop Hfreeze. induction order as [|name order IH]; [exists []; set_solver|].
    destruct IH as (found & Hfound & Hnames & Hin); [set_solver|]. simpl. rewrite Hfound.
    destruct (Hall name) as [provider Hp]; [set_solver|]. rewrite Hp.
    pose proof (wf_keys _ Hwf _ _ Hp). exists (provider :: found). csimpl. subst.
    split_and!; [done|done|]. set_solver.
  - left. exists e. unfold freezeDataTypeRegistry in Hfreeze. destruct (frozen state); [done|].
    destruct (computeProviderOrder state error) as [[]]; by simplify_eq.
Qed.

(** No data type id is used twice among registered providers. *)
Lemma valid_provider_ids_NoDup provider :
  valid_provider provider → NoDup (def_id <$> data_types provider).
Proof.
  intros Hvalid. pose proof (vp_ids _ Hvalid) as Hids. unfold definition_ids in Hids.
  induction (data_types provider) as [|def defs IH]; csimpl in *; [constructor|].
  apply NoDup_cons in Hids as [Hnew Hids]. apply NoDup_cons in Hids as [_ Hids].
  constructor; [|by apply IH]. intros (def' & Heq & Hin)%list_elem_of_fmap.
  apply Hnew, elem_of_cons. right. apply list_elem_of_bind. exists def'. split; [|done].
  unfold logicalTypeId. rewrite <-Heq. set_solver.
Qed.

Lemma definitions_NoDup state (found : list DataTypeProvider) :
  registry_wf state →
  (∀ provider, provider ∈ found → providers state !! provider_name provider = Some provider) →
  NoDup (provider_name <$> found) → NoDup (def_id <$> (found ≫= data_types)).
Proof.
  intros Hwf. induction found as [|provider found IH]; csimpl; [constructor|].
  intros Hin [Hnew Hnodup]%NoDup_cons.
  rewrite fmap_app. apply NoDup_app. split_and!.
  - apply valid_provider_ids_NoDup. eapply wf_valid; [done|]. apply Hin. set_solver.
  - intros id (def & -> & Hdef)%list_elem_of_fmap (def' & Heq & Hdef')%list_elem_of_fmap.
    apply list_elem_of_bind in Hdef' as (provider' & Hdef' & Hp').
    apply Hnew, list_elem_of_fmap. exists provider'. split; [|done].
    eapply (wf_disjoint _ Hwf _ provider _ provider' (logicalTypeId def));
      [apply Hin; set_solver|apply Hin; set_solver|..].
    + apply list_elem_of_bind. exists def. split; [set_solver|done].
    + apply list_elem_of_bind. exists def'. split; [|done]. unfold logicalTypeId. rewrite Heq. set_solver.
  - apply IH; [set_solver|done].
Qed.

(** An index is a rank: a topological order rules out cycles. *)
Lemma topological_rank (deps : gmap string (list string)) order :
  order ≡ₚ elements (dom deps) → topological deps order →
  ∃ rank : string → nat, ∀ name l d,
    deps !! name = Some l → d ∈ l → d ∈ dom deps ∧ rank d < rank name.
Proof.
  intros Hperm Htop.
  assert (Hnodup : NoDup order) by (rewrite Hperm; apply NoDup_elements).
  assert (Hin : ∀ x, x ∈ order ↔ x ∈ dom deps) by (intros x; by rewrite Hperm, elem_of_elements).
  exists (λ x, default 0 (fst <$> list_find (x =.) order)). intros name l d Hl Hd.
  assert (Hname : name ∈ order) by (apply Hin; by apply elem_of_dom_2 in Hl).
  apply list_elem_of_split in Hname as (before & after & Heq).
  assert (Hbefore : d ∈ before) by (by eapply Htop). split.
  { apply Hin. rewrite Heq. set_solver. }
  assert (Hfind : ∀ x i, order !! i = Some x → list_find (x =.) order = Some (i, x)).
  { intros x i Hi. apply list_find_Some. split_and!; [done|done|].
    intros j y Hj Hlt ->. pose proof (NoDup_lookup _ _ _ _ Hnodup Hi Hj). lia. }
  apply list_elem_of_lookup in Hbefore as [i Hi].
  rewrite (Hfind d i), (Hfind name (length before)).
  - simpl. by apply lookup_lt_Some in Hi.
  - rewrite Heq. by apply list_lookup_middle.
  - rewrite Heq. by apply lookup_app_l_Some.
Qed.

(** A set in which everything waits for something has no rank. *)
Lemma stuck_no_rank (deps : gmap string (list string)) (X : gset string) (rank : string → nat) :
  X ≢ ∅ → X ⊆ dom deps →
  (∀ name l, name ∈ X → deps !! name = Some l → ∃ d, d ∈ l ∧ d ∈ X) →
  (∀ name l d, deps !! name = Some l → d ∈ l → rank d < rank name) → False.
Proof.
  intros Hne Hsub Hstuck Hrank. apply set_choose in Hne as [x Hx].
  remember (rank x) as n eqn:Hn. revert x Hx Hn.
  induction n as [n IH] using lt_wf_ind. intros x Hx ->.
  destruct (proj1 (elem_of_dom deps x) (Hsub x Hx)) as [l Hl].
  destruct (Hstuck x l Hx Hl) as (d & Hd & HdX). eapply (IH (rank d)); eauto.
Qed.
End registry_facts.

(** ** Properties *)

Section properties.
Context {UA_DataType DataType : Type}.
Notation DataTypeProvider := (DataTypeProvider UA_DataType DataType).
Notation RegistryState := (RegistryState UA_DataType DataType).
Implicit Types (state : RegistryState) (provider : DataTypeProvider).

(** C18: freezing succeeds exactly when every dependency is registered and the
    providers can be ranked with each dependency below its dependent: the
    fuelled loop finds an order whenever there is one, and reports a missing
    dependency or a cycle exactly when there is none. *)
Theorem freeze_iff_acyclic state error (Hreach : registry_reachable state) :
  is_Some (freezeDataTypeRegistry state error).1.2 ↔
  ∃ rank : string → nat, ∀ name provider dependency,
    providers state !! name = Some provider → dependency ∈ dependencies provider →
    is_Some (providers state !! dependency) ∧ rank dependency < rank name.
Proof.
  apply registry_wf_reachable in Hreach as Hwf. split.
  - intros [order Horder]. apply freeze_Some in Horder as (_ & Hperm & Htop); [|done].
    rewrite <-(dom_fmap dependencies) in Hperm.
    destruct (topological_rank _ _ Hperm Htop) as [rank Hrank]. exists rank.
    intros name provider d Hp Hd. destruct (Hrank name (dependencies provider) d) as [Hdom ?]; [|done|].
    + by rewrite lookup_fmap, Hp.
    + rewrite dom_fmap in Hdom. split; [by apply elem_of_dom|done].
  - intros [rank Hrank].
    assert (Hr : ∀ name l d, (dependencies <$> providers state) !! name = Some l → d ∈ l →
      d ∈ dom (dependencies <$> providers state) ∧ rank d < rank name).
    { intros name l d Hl Hd. rewrite lookup_fmap in Hl. apply fmap_Some in Hl as (p & Hp & ->).
      rewrite dom_fmap, elem_of_dom. eauto. }
    unfold freezeDataTypeRegistry. destruct (frozen state); [done|].
    destruct (computeProviderOrder_cases state error)
      as [(order & -> & _)|(message & _ & [(name & l & d & Hl & Hd & Hno)|(X & ? & ? & ?)])].
    + by intros; eapply registry_wf_NoDup.
    + done.
    + by destruct (Hr name l d Hl Hd).
    + exfalso. eapply stuck_no_rank; [done..|]. intros. by eapply Hr.
Qed.

(** C17: the order [freezeDataTypeRegistry] returns lists every registered
    provider once, each after all its dependencies; the registry is frozen with
    that order and otherwise unchanged, and the error text is cleared. *)
Theorem freeze_topological state error order (Hreach : registry_reachable state)
    (Horder : (freezeDataTypeRegistry state error).1.2 = Some order) :
  NoDup order ∧ (∀ name, name ∈ order ↔ is_Some (providers state !! name)) ∧
  topological (dependencies <$> providers state) order ∧
  freezeDataTypeRegistry state error =
    ({| providers := providers state; provider_order := order; frozen := true |},
     Some order, clearError error).
Proof.
  apply freeze_Some in Horder as (-> & Hperm & Htop); [|by apply registry_wf_reachable].
  split_and!; [rewrite Hperm; apply NoDup_elements| |done|done].
  intros name. by rewrite Hperm, elem_of_elements, elem_of_dom.
Qed.

(** A frozen registry never changes again: whatever calls follow, its
    providers and its order stay, and every freeze returns that order. *)
Theorem frozen_registry_stable state state' error
    (Hfrozen : frozen state = true) (Hsteps : rtc registry_step state state') :
  state' = state ∧
  freezeDataTypeRegistry state' error = (state, Some (provider_order state), clearError error).
Proof.
  enough (state' = state) as -> by (unfold freezeDataTypeRegistry; by rewrite Hfrozen).
  induction Hsteps as [|state1 state2 state3 Hstep _ IH]; [done|].
  enough (state2 = state1) as -> by auto.
  destruct Hstep; [by apply frozen_register|].
  unfold freezeDataTypeRegistry. by rewrite Hfrozen.
Qed.

(** In every state the calls can reach, each provider is stored under its
    own name, is valid, has sorted duplicate-free dependencies other than
    itself and matching namespaces, no type or encoding node id is used twice
    within or across providers, and a frozen order is a topological
    enumeration of all providers. *)
Theorem registry_invariant state (Hreach : registry_reachable state) : registry_wf state.
Proof. by apply registry_wf_reachable. Qed.

(** A provider that was accepted once is accepted again at any later time,
    frozen or not, and the repetition changes nothing. *)
Theorem register_idempotent state provider error error' later
    (Hok : (registerDataTypeProvider state provider error).1.2 = true)
    (Hlater : rtc registry_step (registerDataTypeProvider state provider error).1.1 later) :
  registerDataTypeProvider later provider error' = (later, true, clearError error').
Proof.
  apply registered_lookup in Hok as (existing & Hex & Hsame).
  apply (register_again _ _ _ existing); [|done].
  eapply lookup_weaken; [exact Hex|by apply providers_grow].
Qed.

End properties.

(** ** Witnesses *)

Lemma example_registry_reachable : registry_reachable example_registry.
Proof.
  eapply rtc_l; [apply (step_register _ (example_provider "a" ["b"]) None)|].
  apply rtc_once, (step_register _ (example_provider "b" []) None).
Qed.

Lemma freeze_iff_acyclic_witness :
  is_Some (freezeDataTypeRegistry example_registry None).1.2 ↔
  ∃ rank : string → nat, ∀ name provider dependency,
    providers example_registry !! name = Some provider → dependency ∈ dependencies provider →
    is_Some (providers example_registry !! dependency) ∧ rank dependency < rank name.
Proof. apply freeze_iff_acyclic, example_registry_reachable. Defined.

Lemma freeze_topological_witness :
  NoDup ["b"; "a"] ∧ (∀ name, name ∈ ["b"; "a"] ↔ is_Some (providers example_registry !! name)) ∧
  topological (dependencies <$> providers example_registry) ["b"; "a"] ∧
  freezeDataTypeRegistry example_registry (Some "old") =
    ({| providers := providers example_registry; provider_order := ["b"; "a"]; frozen := true |},
     Some ["b"; "a"], Some "").
Proof.
  refine (freeze_topological example_registry (Some "old") ["b"; "a"] example_registry_reachable _).
  vm_compute. reflexivity.
Defined.

Lemma frozen_registry_stable_witness :
  let state := (freezeDataTypeRegistry example_registry None).1.1 in
  (registerDataTypeProvider state (example_provider "c" []) None).1.1 = state ∧
  freezeDataTypeRegistry (registerDataTypeProvider state (example_provider "c" []) None).1.1 None =
    (state, Some (provider_order state), None).
Proof.
  intros state. refine (frozen_registry_stable state _ None _ _).
  - vm_compute. reflexivity.
  - apply rtc_once. constructor.
Defined.

Lemma registry_invariant_witness : registry_wf example_registry.
Proof. apply registry_invariant, example_registry_reachable. Defined.

Lemma register_idempotent_witness :
  let state := (registerDataTypeProvider example_registry (example_provider "c" ["a"; "b"]) None).1.1 in
  let later := (freezeDataTypeRegistry state None).1.1 in
  registerDataTypeProvider later (example_provider "c" ["a"; "b"]) (Some "x") = (later, true, Some "").
Proof.
  intros state later.
  refine (register_idempotent example_registry (example_provider "c" ["a"; "b"]) None (Some "x") later _ _).
  - vm_compute. reflexivity.
  - apply rtc_once. constructor.
Defined.

