(* ===== verification/ServerOptions.v ===== *)
(** Server options (src/src/server_options.cpp, server_options.hpp): validation
    and the endpoint URL. *)

From S2P Require Import Prelude.

Record ServerOptions := {
  bind_address : string;
  port : N; (* uint16_t *)
  endpoint_path : string;
  application_name : string;
  additional_namespace_uris : list string;
}.

Definition default_options : ServerOptions :=
  {| bind_address := "127.0.0.1"; port := 4840; endpoint_path := "/rtt";
     application_name := "Orocos RTT OPC UA"; additional_namespace_uris := [] |}.

Definition isLoopbackAddress (address : string) : bool :=
  String.eqb address "127.0.0.1" || String.eqb address "::1".

(** The characters of the literal ["?# \t\r\n"]. *)
Definition unsupported_path_characters : list ascii :=
  ["?"; "#"; " "; ascii_of_nat 9; ascii_of_nat 13; ascii_of_nat 10]%char.

(** The loop over the additional namespace URIs. *)
Fixpoint validateNamespaceUris (namespace_uris : gset string) (uris : list string) :
    option string :=
  match uris with
  | [] => None
  | uri :: uris' =>
      if str_empty uri || str_contains Ascii.zero uri then
        Some "additional namespace URI must not be empty or contain NUL"
      else if bool_decide (uri ∈ namespace_uris) then
        Some "additional namespace URIs must be unique"
      else validateNamespaceUris ({[uri]} ∪ namespace_uris) uris'
  end.

Definition validateServerOptions (options : ServerOptions) : option string :=
  if str_empty (bind_address options) then Some "bind address must not be empty"
  else if (port options =? 0)%N then Some "port must be between 1 and 65535"
  else if str_empty (endpoint_path options) ||
          negb (bool_decide (str_front (endpoint_path options) = Some "/"%char))
  then Some "endpoint path must start with '/'"
  else if existsb (λ c, str_contains c (endpoint_path options)) unsupported_path_characters
  then Some "endpoint path contains an unsupported character"
  else if str_empty (application_name options) then Some "application name must not be empty"
  else if negb (isLoopbackAddress (bind_address options)) &&
          negb (String.eqb (bind_address options) "0.0.0.0")
  then Some "non-loopback OPC UA listening is not supported"
  else validateNamespaceUris ∅ (additional_namespace_uris options).

Definition endpointUrl (options : ServerOptions) : string :=
  let is_ipv6_literal := str_contains ":"%char (bind_address options) in
  let host := if is_ipv6_literal then "[" +:+ bind_address options +:+ "]"
              else bind_address options in
  "opc.tcp://" +:+ host +:+ ":" +:+ to_string (port options) +:+ endpoint_path options.

(** What the accepted options are. *)
Record accepted_options (options : ServerOptions) : Prop := {
  ao_address : bind_address options ∈ ["127.0.0.1"; "::1"; "0.0.0.0"];
  ao_port : port options ≠ 0%N;
  ao_path : str_front (endpoint_path options) = Some "/"%char;
  ao_path_characters : ∀ c, c ∈ unsupported_path_characters →
    str_contains c (endpoint_path options) = false;
  ao_application : application_name options ≠ "";
  ao_uris : ∀ uri, uri ∈ additional_namespace_uris options →
    uri ≠ "" ∧ str_contains Ascii.zero uri = false;
  ao_unique : NoDup (additional_namespace_uris options);
}.

(** ** Lemmas *)

Lemma validateNamespaceUris_None namespace_uris uris :
  validateNamespaceUris namespace_uris uris = None ↔
  (∀ uri, uri ∈ uris → uri ≠ "" ∧ str_contains Ascii.zero uri = false ∧ uri ∉ namespace_uris) ∧
  NoDup uris.
Proof.
  revert namespace_uris. induction uris as [|uri uris IH]; intros namespace_uris; simpl.
  { split; [|done]. intros _. split; [set_solver|constructor]. }
  destruct (str_empty uri || _) eqn:Htext.
  { split; [done|]. intros [Hall _]. destruct (Hall uri ltac:(set_solver)) as (Hne & Hnul & _).
    apply str_empty_false in Hne. by rewrite Hne, Hnul in Htext. }
  apply orb_false_iff in Htext as [Hne Hnul]. apply str_empty_false in Hne.
  case_bool_decide as Hin.
  { split; [done|]. intros [Hall _]. by destruct (Hall uri ltac:(set_solver)) as (_ & _ & ?). }
  rewrite IH. split.
  - intros [Hall Hnodup]. split.
    + intros u [->|Hu]%elem_of_cons; [done|]. specialize (Hall u Hu). set_solver.
    + constructor; [|done]. intros Hu. destruct (Hall uri Hu) as (_ & _ & ?). set_solver.
  - intros [Hall [Hu Hnodup]%NoDup_cons]. split; [|done]. intros u Hu'.
    destruct (Hall u ltac:(set_solver)) as (? & ? & ?). split_and!; set_solver.
Qed.

Lemma isLoopbackAddress_spec address :
  isLoopbackAddress address = true ↔ address = "127.0.0.1" ∨ address = "::1".
Proof. unfold isLoopbackAddress. by rewrite orb_true_iff, !String.eqb_eq. Qed.

Lemma validateServerOptions_None options :
  validateServerOptions options = None ↔ accepted_options options.
Proof.
  unfold validateServerOptions. split.
  - repeat (case_match; [done|]). intros Huris. apply validateNamespaceUris_None in Huris as [Huris Hunique].
    rename select (existsb _ _ = false) into Hchars.
    rename select (negb (isLoopbackAddress _) && _ = false) into Haddress.
    split_guards. split; try done.
    + apply andb_false_iff in Haddress as [Hl%negb_false_iff|He%negb_false_iff].
      * apply isLoopbackAddress_spec in Hl. set_solver.
      * apply String.eqb_eq in He. set_solver.
    + by apply N.eqb_neq.
    + intros c Hc. destruct (str_contains c (endpoint_path options)) eqn:Hin; [|done].
      apply not_true_iff_false in Hchars. destruct Hchars. apply existsb_exists.
      exists c. by rewrite <-list_elem_of_In.
    + by apply str_empty_false.
    + intros uri Hu. by destruct (Huris uri Hu) as (? & ? & _).
  - intros [Haddress Hport Hpath Hchars Happ Huris Hunique].
    assert (Hloop : negb (isLoopbackAddress (bind_address options)) &&
      negb (String.eqb (bind_address options) "0.0.0.0") = false).
    { rewrite !elem_of_cons in Haddress. destruct Haddress as [->|[->|[->|?%elem_of_nil]]]; done. }
    assert (Hne : str_empty (bind_address options) = false).
    { apply str_empty_false. intros Hne. rewrite Hne in Haddress. set_solver. }
    assert (Hpne : str_empty (endpoint_path options) = false).
    { apply str_empty_false. intros Hp. by rewrite Hp in Hpath. }
    assert (Hcs : existsb (λ c, str_contains c (endpoint_path options))
      unsupported_path_characters = false).
    { apply not_true_iff_false. rewrite existsb_exists. intros (c & Hc & Hin).
      rewrite <-list_elem_of_In in Hc. by rewrite (Hchars c Hc) in Hin. }
    apply N.eqb_neq in Hport. apply str_empty_false in Happ.
    rewrite Hne, Hport, Hpne, Hcs, Happ, Hloop, bool_decide_eq_true_2 by done. simpl.
    apply validateNamespaceUris_None. split; [|done].
    intros uri Hu. destruct (Huris uri Hu). split_and!; set_solver.
Qed.

Lemma endpointUrl_port_path options :
  accepted_options options →
  ∃ host, endpointUrl options = host +:+ ":" +:+ to_string (port options) +:+ endpoint_path options ∧
    (bind_address options = "127.0.0.1" ∧ host = "opc.tcp://127.0.0.1" ∨
     bind_address options = "::1" ∧ host = "opc.tcp://[::1]" ∨
     bind_address options = "0.0.0.0" ∧ host = "opc.tcp://0.0.0.0").
Proof.
  intros [Haddress]. rewrite !elem_of_cons in Haddress. unfold endpointUrl.
  destruct Haddress as [Ha|[Ha|[Ha|?%elem_of_nil]]]; [..|done]; rewrite Ha; simpl;
    eexists; (split; [by rewrite <-!str_app_assoc|naive_solver]).
Qed.

(** ** Properties *)

(** Validation accepts exactly the options with a loopback or wildcard
    address, a nonzero port, a rooted path without query, fragment or white
    space, an application name, and nonempty, NUL-free, pairwise distinct
    namespace URIs. *)
Theorem validateServerOptions_accepts options :
  validateServerOptions options = None ↔ accepted_options options.
Proof. apply validateServerOptions_None. Qed.

(** Two accepted configurations with the same endpoint URL listen on the
    same address, port and path. *)
Theorem endpointUrl_injective options1 options2
    (Hok1 : validateServerOptions options1 = None) (Hok2 : validateServerOptions options2 = None)
    (Hurl : endpointUrl options1 = endpointUrl options2) :
  bind_address options1 = bind_address options2 ∧ port options1 = port options2 ∧
  endpoint_path options1 = endpoint_path options2.
Proof.
  apply validateServerOptions_None in Hok1, Hok2.
  destruct (endpointUrl_port_path options1 Hok1) as (host1 & Hu1 & Hh1).
  destruct (endpointUrl_port_path options2 Hok2) as (host2 & Hu2 & Hh2).
  rewrite Hu1, Hu2 in Hurl.
  assert (bind_address options1 = bind_address options2 ∧
    to_string (port options1) +:+ endpoint_path options1 =
    to_string (port options2) +:+ endpoint_path options2) as [Ha Hrest].
  { destruct Hh1 as [[-> ->]|[[-> ->]|[-> ->]]], Hh2 as [[-> ->]|[[-> ->]|[-> ->]]];
      simplify_eq; done. }
  split; [done|].
  destruct (str_app_delim_inj "/"%char _ _ _ _ (to_string_digits _) (to_string_digits _)
    (or_intror (ao_path _ Hok1)) (or_intror (ao_path _ Hok2)) Hrest) as [Hp ?].
  split; [|done]. by apply to_string_inj.
Qed.

(** ** Witnesses *)

Lemma endpointUrl_injective_witness :
  bind_address default_options = bind_address default_options ∧
  port default_options = port default_options ∧
  endpoint_path default_options = endpoint_path default_options.
Proof. apply endpointUrl_injective; vm_compute; reflexivity. Defined.
