(* ===== verification/ComponentState.v ===== *)
(** The lease protocol of src/src/component_state.hpp: callbacks of the native
    server hold a [ComponentLease] while they use a component, and [deactivate]
    waits for all of them before it drops the component. *)

From S2P Require Import Prelude.

Section component_state.
(** [TaskContext] identifies an RTT component, a pointer being [None] or [Some]. *)
Context {TaskContext : Type}.

(** [model_closed] is the flag all states of an object model share. *)
Record ComponentState := {
  component : option TaskContext;
  component_name : string;
  admission_closed : bool;
  is_active : bool;
  users : N;
}.

Definition makeComponentState (value : TaskContext) (name : string) (model_closed : bool) :
    ComponentState :=
  {| component := Some value; component_name := name; admission_closed := model_closed;
     is_active := true; users := 0 |}.

(** A lease: whether [state_] is set, and [component_]. *)
Record ComponentLease := {
  lease_state : bool;
  lease_component : option TaskContext;
}.

Definition null_lease : ComponentLease := {| lease_state := false; lease_component := None |}.

Definition set_users (state : ComponentState) (count : N) : ComponentState :=
  {| component := component state; component_name := component_name state;
     admission_closed := admission_closed state; is_active := is_active state; users := count |}.

(** [ComponentLease(state)]; [has_state] tells whether the pointer is set. *)
Definition ComponentLease_acquire (has_state : bool) (state : ComponentState) :
    ComponentState * ComponentLease :=
  if negb has_state then (state, null_lease)
  else if admission_closed state || negb (is_active state) || bool_decide (component state = None)
  then (state, null_lease)
  else (set_users state (size_increment (users state)),
        {| lease_state := true; lease_component := component state |}).

Definition ComponentLease_release (state : ComponentState) (lease : ComponentLease) :
    ComponentState * ComponentLease :=
  if negb (lease_state lease) then (state, lease)
  else (set_users state (size_decrement (users state)), null_lease).

(** The move constructor: the new lease and what is left of [other]. *)
Definition ComponentLease_move (other : ComponentLease) : ComponentLease * ComponentLease :=
  (other, null_lease).

(** [operator=(ComponentLease &&)] for two distinct objects: the state, this
    lease and what is left of [other]. *)
Definition ComponentLease_assign (state : ComponentState) (lease other : ComponentLease) :
    ComponentState * ComponentLease * ComponentLease :=
  let '(state, _) := ComponentLease_release state lease in (state, other, null_lease).

Definition ComponentLease_bool (lease : ComponentLease) : bool :=
  bool_decide (is_Some (lease_component lease)).

Definition ComponentLease_get (lease : ComponentLease) : option TaskContext := lease_component lease.

(** [deactivate] up to its wait, the wait's condition, and the rest. *)
Definition deactivate_begin (state : ComponentState) : ComponentState :=
  {| component := component state; component_name := component_name state;
     admission_closed := admission_closed state; is_active := false; users := users state |}.
Definition deactivate_condition (state : ComponentState) : bool := (users state =? 0)%N.
Definition deactivate_end (state : ComponentState) : ComponentState :=
  {| component := None; component_name := component_name state;
     admission_closed := admission_closed state; is_active := is_active state;
     users := users state |}.

Definition isActive (has_state : bool) (state : ComponentState) : bool :=
  has_state && negb (admission_closed state) && is_active state &&
  bool_decide (is_Some (component state)).

(** [admission_closed_->store(true)] in [ObjectModel::shutdown]. *)
Definition closeAdmission (state : ComponentState) : ComponentState :=
  {| component := component state; component_name := component_name state;
     admission_closed := true; is_active := is_active state; users := users state |}.

(** ** Interleavings

    The lease objects that exist, by address, and the number of threads waiting
    in [deactivate].  Every step is one critical section of the mutex; the step
    into the wait releases it. *)
Record world := {
  w_state : ComponentState;
  w_leases : gmap nat ComponentLease;
  w_waiting : nat;
}.

(** Each lease occupies memory, so fewer than [2^64 - 1] exist. *)
Definition lease_bound : N := 2 ^ 64 - 1.

Inductive lease_step : world → world → Prop :=
  | step_acquire i has_state state leases waiting state' lease :
      leases !! i = None → (N.of_nat (size leases) < lease_bound)%N →
      ComponentLease_acquire has_state state = (state', lease) →
      lease_step {| w_state := state; w_leases := leases; w_waiting := waiting |}
                 {| w_state := state'; w_leases := <[i := lease]> leases; w_waiting := waiting |}
  | step_destroy i state leases waiting lease :
      leases !! i = Some lease →
      lease_step {| w_state := state; w_leases := leases; w_waiting := waiting |}
                 {| w_state := (ComponentLease_release state lease).1;
                    w_leases := delete i leases; w_waiting := waiting |}
  | step_move i j state leases waiting other lease other' :
      leases !! i = None → (N.of_nat (size leases) < lease_bound)%N →
      leases !! j = Some other →
      ComponentLease_move other = (lease, other') →
      lease_step {| w_state := state; w_leases := leases; w_waiting := waiting |}
                 {| w_state := state; w_leases := <[i := lease]> (<[j := other']> leases);
                    w_waiting := waiting |}
  | step_assign i j state leases waiting lease other state' lease' other' :
      i ≠ j → leases !! i = Some lease → leases !! j = Some other →
      ComponentLease_assign state lease other = (state', lease', other') →
      lease_step {| w_state := state; w_leases := leases; w_waiting := waiting |}
                 {| w_state := state'; w_leases := <[i := lease']> (<[j := other']> leases);
                    w_waiting := waiting |}
  | step_deactivate_begin state leases waiting :
      lease_step {| w_state := state; w_leases := leases; w_waiting := waiting |}
                 {| w_state := deactivate_begin state; w_leases := leases; w_waiting := S waiting |}
  | step_deactivate_end state leases waiting :
      deactivate_condition state = true →
      lease_step {| w_state := state; w_leases := leases; w_waiting := S waiting |}
                 {| w_state := deactivate_end state; w_leases := leases; w_waiting := waiting |}
  | step_close state leases waiting :
      lease_step {| w_state := state; w_leases := leases; w_waiting := waiting |}
                 {| w_state := closeAdmission state; w_leases := leases; w_waiting := waiting |}.

Definition initial_world (value : TaskContext) (name : string) (closed : bool) : world :=
  {| w_state := makeComponentState value name closed; w_leases := ∅; w_waiting := 0 |}.

Definition lease_reachable (w : world) : Prop :=
  ∃ value name closed, rtc lease_step (initial_world value name closed) w.

(** The leases that count as users. *)
Definition held (leases : gmap nat ComponentLease) : gmap nat ComponentLease :=
  filter (λ entry, lease_state entry.2 = true) leases.

Record lease_inv (w : world) : Prop := {
  li_users : users (w_state w) = N.of_nat (size (held (w_leases w)));
  li_bound : (N.of_nat (size (w_leases w)) ≤ lease_bound)%N;
  li_held : ∀ i lease, w_leases w !! i = Some lease →
    if lease_state lease
    then is_Some (lease_component lease) ∧ lease_component lease = component (w_state w)
    else lease_component lease = None;
  li_waiting : 0 < w_waiting w → is_active (w_state w) = false;
  li_dropped : component (w_state w) = None → is_active (w_state w) = false;
}.
End component_state.
Arguments ComponentState : clear implicits.
Arguments ComponentLease : clear implicits.
Arguments world : clear implicits.

(** One lease is held and [deactivate] has started. *)
Definition example_lease_world : world nat :=
  {| w_state := deactivate_begin (set_users (makeComponentState 7 "component" false) 1);
     w_leases := {[0 := {| lease_state := true; lease_component := Some 7 |}]};
     w_waiting := 1 |}.

(** ** Lemmas *)

Section lease_facts.
Context {TaskContext : Type}.
Implicit Types (w : world TaskContext) (leases : gmap nat (ComponentLease TaskContext)).

Lemma held_insert_true leases i lease :
  leases !! i = None → lease_state lease = true →
  size (held (<[i := lease]> leases)) = S (size (held leases)).
Proof.
  intros Hi Hl. unfold held. rewrite map_filter_insert_True by done.
  rewrite map_size_insert_None; [done|]. apply map_lookup_filter_None. auto.
Qed.

Lemma held_insert_false leases i lease :
  leases !! i = None → lease_state lease = false →
  size (held (<[i := lease]> leases)) = size (held leases).
Proof.
  intros Hi Hl. unfold held. rewrite map_filter_insert_False by (simpl; congruence).
  by rewrite delete_id.
Qed.

Lemma held_delete leases i lease :
  leases !! i = Some lease →
  size (held leases) = (if lease_state lease then 1 else 0) + size (held (delete i leases)).
Proof.
  intros Hi. rewrite <-(insert_delete_id leases i lease Hi) at 1.
  destruct (lease_state lease) eqn:Hl.
  - rewrite held_insert_true; [done|apply lookup_delete_eq|done].
  - rewrite held_insert_false; [done|apply lookup_delete_eq|done].
Qed.

Lemma held_le leases : size (held leases) ≤ size leases.
Proof. apply map_subseteq_size, map_filter_subseteq. Qed.

(** Overwriting an entry, in terms of what the others hold. *)
Lemma held_overwrite leases i lease lease' :
  leases !! i = Some lease →
  size (held (<[i := lease']> leases)) =
  (if lease_state lease' then 1 else 0) + size (held (delete i leases)).
Proof.
  intros Hi. rewrite (held_delete (<[i := lease']> leases) i lease') by apply lookup_insert_eq.
  by rewrite delete_insert_eq.
Qed.

Lemma release_users (state : ComponentState TaskContext) lease n :
  users state = N.of_nat ((if lease_state lease then 1 else 0) + n) →
  users (ComponentLease_release state lease).1 = N.of_nat n.
Proof.
  unfold ComponentLease_release, size_decrement. destruct (lease_state lease); simpl; intros Hu.
  - destruct (N.eqb_spec (users state) 0); lia.
  - done.
Qed.

Lemma release_component (state : ComponentState TaskContext) lease :
  component (ComponentLease_release state lease).1 = component state ∧
  is_active (ComponentLease_release state lease).1 = is_active state.
Proof. unfold ComponentLease_release. by case_match. Qed.

Lemma initial_lease_inv value name closed : lease_inv (initial_world (TaskContext := TaskContext) value name closed).
Proof. by split; simpl; intros; try lia. Qed.

Lemma acquire_inv state leases waiting i has_state state' lease :
  lease_inv {| w_state := state; w_leases := leases; w_waiting := waiting |} →
  leases !! i = None → (N.of_nat (size leases) < lease_bound)%N →
  ComponentLease_acquire has_state state = (state', lease) →
  lease_inv {| w_state := state'; w_leases := <[i := lease]> leases; w_waiting := waiting |}.
Proof.
  intros [Hu Hb Hh Hw Hd] Hi Hbound Hacq. simpl in *.
  unfold ComponentLease_acquire in Hacq.
  assert (Hsize : size (<[i := lease]> leases) = S (size leases)) by (by apply map_size_insert_None).
  destruct (negb has_state); [|destruct (admission_closed state || _ || _) eqn:Hguard]; simplify_eq/=.
  1,2: split; simpl; try done;
    [by rewrite held_insert_false|rewrite Hsize; unfold lease_bound in *; lia|];
    intros j l; rewrite lookup_insert_Some; intros [[<- <-]|[_ ?]]; [done|by eapply Hh].
  split_guards. split; simpl; try done.
  - rewrite held_insert_true by done. unfold size_increment. rewrite Hu.
    pose proof (held_le leases). unfold lease_bound in *. rewrite N.mod_small by lia. lia.
  - rewrite Hsize. unfold lease_bound in *. lia.
  - intros j l. rewrite lookup_insert_Some. intros [[<- <-]|[_ Hl]]; simpl.
    + split; [|done]. by apply not_eq_None_Some.
    + by eapply Hh.
Qed.

Lemma destroy_inv state leases waiting i lease :
  lease_inv {| w_state := state; w_leases := leases; w_waiting := waiting |} →
  leases !! i = Some lease →
  lease_inv {| w_state := (ComponentLease_release state lease).1;
               w_leases := delete i leases; w_waiting := waiting |}.
Proof.
  intros [Hu Hb Hh Hw Hd] Hi. simpl in *.
  destruct (release_component state lease) as [Hc Ha].
  split; simpl; rewrite ?Hc, ?Ha; try done.
  - apply release_users. by rewrite Hu, (held_delete leases i lease).
  - rewrite map_size_delete_Some by eauto. lia.
  - intros j l. rewrite lookup_delete_Some. intros [_ ?]. by eapply Hh.
Qed.

Lemma move_inv state leases waiting i j other :
  lease_inv {| w_state := state; w_leases := leases; w_waiting := waiting |} →
  leases !! i = None → (N.of_nat (size leases) < lease_bound)%N → leases !! j = Some other →
  lease_inv {| w_state := state; w_leases := <[i := other]> (<[j := null_lease]> leases);
               w_waiting := waiting |}.
Proof.
  intros [Hu Hb Hh Hw Hd] Hi Hbound Hj. simpl in *.
  assert (Hij : i ≠ j) by congruence.
  assert (Hi' : <[j := null_lease]> leases !! i = None) by (by rewrite lookup_insert_ne).
  split; simpl; try done.
  - rewrite Hu, (held_delete leases j other) by done.
    destruct (lease_state other) eqn:Ho.
    + by rewrite held_insert_true, (held_overwrite _ _ other) by done.
    + by rewrite held_insert_false, (held_overwrite _ _ other) by done.
  - rewrite map_size_insert_None by done. rewrite map_size_insert_Some by eauto.
    unfold lease_bound in *. lia.
  - intros k l. rewrite !lookup_insert_Some.
    intros [[<- <-]|[_ [[<- <-]|[_ ?]]]]; [by eapply Hh|done|by eapply Hh].
Qed.

Lemma assign_inv state leases waiting i j lease other :
  lease_inv {| w_state := state; w_leases := leases; w_waiting := waiting |} →
  i ≠ j → leases !! i = Some lease → leases !! j = Some other →
  lease_inv {| w_state := (ComponentLease_release state lease).1;
               w_leases := <[i := other]> (<[j := null_lease]> leases); w_waiting := waiting |}.
Proof.
  intros [Hu Hb Hh Hw Hd] Hij Hi Hj. simpl in *.
  destruct (release_component state lease) as [Hc Ha].
  split; simpl; rewrite ?Hc, ?Ha; try done.
  - apply release_users. rewrite Hu, (held_delete leases i lease) by done. do 2 f_equal.
    rewrite (held_delete (delete i leases) j other) by (by rewrite lookup_delete_ne).
    rewrite (held_overwrite _ i lease) by (by rewrite lookup_insert_ne).
    rewrite delete_insert_ne by done.
    by rewrite (held_overwrite _ j other) by (by rewrite lookup_delete_ne).
  - rewrite map_size_insert_Some by (rewrite lookup_insert_ne; eauto).
    by rewrite map_size_insert_Some by eauto.
  - intros k l. rewrite !lookup_insert_Some.
    intros [[<- <-]|[_ [[<- <-]|[_ ?]]]]; [by eapply Hh|done|by eapply Hh].
Qed.

Lemma deactivate_end_inv state leases waiting :
  lease_inv {| w_state := state; w_leases := leases; w_waiting := S waiting |} →
  deactivate_condition state = true →
  lease_inv {| w_state := deactivate_end state; w_leases := leases; w_waiting := waiting |}.
Proof.
  intros [Hu Hb Hh Hw Hd] Hcond. apply N.eqb_eq in Hcond. simpl in *.
  split; simpl; try done; [|intros; apply Hw; lia..].
  intros i l Hl. specialize (Hh i l Hl). destruct (lease_state l) eqn:Hheld; [|done].
  exfalso. rewrite Hcond, (held_delete leases i l), Hheld in Hu by done. lia.
Qed.

Lemma lease_step_inv w w' : lease_inv w → lease_step w w' → lease_inv w'.
Proof.
  intros Hinv Hstep. destruct Hstep as [| | |i j state leases waiting lease other state' lease' other' Hij Hi Hj Ha| | |].
  - by eapply acquire_inv.
  - by eapply destroy_inv.
  - rename select (ComponentLease_move _ = _) into Hm. injection Hm as <- <-. by eapply move_inv.
  - unfold ComponentLease_assign in Ha. destruct (ComponentLease_release state lease) as [s l] eqn:Hr.
    injection Ha as <- <- <-. replace s with (ComponentLease_release state lease).1 by (by rewrite Hr).
    by eapply assign_inv.
  - destruct Hinv. by split.
  - by apply deactivate_end_inv.
  - destruct Hinv. by split.
Qed.

Lemma lease_reachable_inv w : lease_reachable w → lease_inv w.
Proof.
  intros (value & name & closed & Hsteps). revert w Hsteps.
  apply (rtc_ind_r lease_inv); [apply initial_lease_inv|].
  intros ?? _ ??. by eapply lease_step_inv.
Qed.

(** What a step cannot undo. *)
Lemma lease_step_closed w w' :
  lease_step w w' →
  (is_active (w_state w) = false → is_active (w_state w') = false) ∧
  (admission_closed (w_state w) = true → admission_closed (w_state w') = true) ∧
  (component (w_state w) = None → component (w_state w') = None).
Proof.
  destruct 1 as [i has_state state leases waiting state' lease _ _ Ha| | |i j state leases waiting lease other state' lease' other' _ _ _ Ha| | |];
    simpl; try done.
  - unfold ComponentLease_acquire in Ha. by by_branches.
  - unfold ComponentLease_release. by case_match.
  - unfold ComponentLease_assign, ComponentLease_release in Ha. by by_branches.
Qed.

Lemma lease_steps_closed w w' :
  rtc lease_step w w' →
  (is_active (w_state w) = false → is_active (w_state w') = false) ∧
  (admission_closed (w_state w) = true → admission_closed (w_state w') = true) ∧
  (component (w_state w) = None → component (w_state w') = None).
Proof.
  induction 1 as [|w1 w2 w3 Hstep _ IH]; [done|]. apply lease_step_closed in Hstep. naive_solver.
Qed.

Lemma acquire_closed has_state (state : ComponentState TaskContext) :
  is_active state = false ∨ admission_closed state = true ∨ component state = None →
  ComponentLease_acquire has_state state = (state, null_lease).
Proof.
  unfold ComponentLease_acquire. intros H. case_match; [done|].
  destruct H as [->|[->| ->]]; simpl; by rewrite ?orb_true_r.
Qed.

(** Destroying every lease lets a waiting [deactivate] go on. *)
Lemma destroy_all w :
  lease_inv w →
  ∃ state, rtc lease_step w {| w_state := state; w_leases := ∅; w_waiting := w_waiting w |}.
Proof.
  destruct w as [state leases waiting]. revert state.
  induction leases as [|i lease leases Hi IH] using map_ind; intros state Hinv; [by eexists|].
  pose proof (step_destroy i state (<[i := lease]> leases) waiting lease (lookup_insert_eq _ _ _)) as Hstep.
  rewrite delete_insert_id in Hstep by done.
  destruct (IH (ComponentLease_release state lease).1) as [state' Hrest].
  { eapply lease_step_inv; [exact Hinv|exact Hstep]. }
  exists state'. by eapply rtc_l.
Qed.

Lemma held_step w w' :
  lease_inv w → is_active (w_state w) = false → lease_step w w' →
  size (held (w_leases w')) ≤ size (held (w_leases w)).
Proof.
  intros Hinv Hact Hstep. pose proof (lease_step_inv _ _ Hinv Hstep) as Hinv'.
  pose proof (li_users _ Hinv) as Hu. pose proof (li_users _ Hinv') as Hu'.
  assert (Hr : ∀ (state : ComponentState TaskContext) lease,
    users state = N.of_nat (size (held (w_leases w))) →
    (lease_state lease = true → (0 < users state)%N) →
    (users (ComponentLease_release state lease).1 ≤ users state)%N).
  { intros state lease _ Hpos. unfold ComponentLease_release, size_decrement.
    destruct (lease_state lease); simpl; [|lia]. specialize (Hpos eq_refl).
    destruct (N.eqb_spec (users state) 0); lia. }
  destruct Hstep as [i has_state state leases waiting state' lease _ _ Ha| | |i j state leases waiting lease other state' lease' other' Hij Hi Hj Ha| | |];
    simpl in *; try done.
  - rewrite acquire_closed in Ha by auto. simplify_eq. lia.
  - assert (users (ComponentLease_release state lease).1 ≤ users state)%N; [|lia].
    apply Hr; [done|]. intros Hl. rewrite Hu, (held_delete leases i lease), Hl by done. lia.
  - lia.
  - unfold ComponentLease_assign in Ha. destruct (ComponentLease_release state lease) as [s l] eqn:Hrel.
    simplify_eq. assert (users (ComponentLease_release state lease).1 ≤ users state)%N; [|rewrite Hrel in *; simpl in *; lia].
    apply Hr; [done|]. intros Hl. rewrite Hu, (held_delete leases i lease), Hl by done. lia.
Qed.

(** ** Properties *)

(** C16: while any lease hands out a component, that component has not been
    dropped, it is the state's component, and [users] is the number of leases
    held: [deactivate] cannot complete under a callback. *)
Theorem lease_safety w i lease c (Hreach : lease_reachable w)
    (Hlease : w_leases w !! i = Some lease) (Hget : ComponentLease_get lease = Some c) :
  component (w_state w) = Some c ∧ lease_state lease = true ∧
  users (w_state w) = N.of_nat (size (held (w_leases w))).
Proof.
  apply lease_reachable_inv in Hreach as Hinv.
  pose proof (li_held _ Hinv i lease Hlease) as Hh. unfold ComponentLease_get in Hget.
  destruct (lease_state lease).
  - destruct Hh as [_ Hh]. split_and!; [congruence|done|apply Hinv].
  - congruence.
Qed.

(** After [deactivate] has dropped the component, in every later state the
    component stays dropped, no lease holds it, the component is not active and
    every new lease is empty. *)
Theorem deactivated_forever w w' (Hreach : lease_reachable w)
    (Hdropped : component (w_state w) = None) (Hsteps : rtc lease_step w w') :
  component (w_state w') = None ∧ users (w_state w') = 0%N ∧
  (∀ i lease, w_leases w' !! i = Some lease → ComponentLease_bool lease = false) ∧
  (∀ has_state, isActive has_state (w_state w') = false ∧
     ComponentLease_acquire has_state (w_state w') = (w_state w', null_lease)).
Proof.
  assert (Hinv : lease_inv w').
  { destruct Hreach as (value & name & closed & ?). apply lease_reachable_inv.
    exists value, name, closed. by etransitivity. }
  apply lease_steps_closed in Hsteps as (_ & _ & Hnone). specialize (Hnone Hdropped).
  assert (Hnull : ∀ i lease, w_leases w' !! i = Some lease →
    lease_state lease = false ∧ lease_component lease = None).
  { intros i lease Hl. pose proof (li_held _ Hinv i lease Hl) as Hh.
    destruct (lease_state lease); [|done]. destruct Hh as [[? ?] ?]. congruence. }
  split_and!; [done|..].
  - rewrite (li_users _ Hinv). enough (held (w_leases w') = ∅) as -> by done.
    apply map_empty. intros i. apply map_lookup_filter_None. right. intros lease Hl.
    destruct (Hnull i lease Hl) as [Hf _]. simpl. congruence.
  - intros i lease Hl. destruct (Hnull i lease Hl) as [_ Hc].
    unfold ComponentLease_bool. by rewrite Hc.
  - intros has_state. split; [|by apply acquire_closed; auto].
    unfold isActive. by rewrite Hnone, andb_false_r.
Qed.

(** Once [deactivate] has started, no step adds a held lease, and a waiting
    [deactivate] completes as soon as the existing leases are given back. *)
Theorem deactivate_completes w (Hreach : lease_reachable w) (Hwaiting : 0 < w_waiting w) :
  (∀ w', rtc lease_step w w' → size (held (w_leases w')) ≤ size (held (w_leases w))) ∧
  ∃ w', rtc lease_step w w' ∧ w_waiting w' = pred (w_waiting w) ∧ component (w_state w') = None.
Proof.
  apply lease_reachable_inv in Hreach as Hinv. split.
  - intros w' Hsteps. pose proof (li_waiting _ Hinv Hwaiting) as Hact. clear Hwaiting Hreach.
    induction Hsteps as [|w1 w2 w3 Hstep _ IH]; [done|]. etransitivity; [|by eapply held_step].
    apply IH; [by eapply lease_step_inv|]. apply lease_step_closed in Hstep. naive_solver.
  - destruct (destroy_all w Hinv) as [state Hsteps].
    destruct (w_waiting w) as [|n] eqn:Hn; [lia|].
    eexists. split; [eapply rtc_r; [exact Hsteps|apply step_deactivate_end]|done].
    assert (Hinv' : lease_inv {| w_state := state; w_leases := ∅; w_waiting := S n |}).
    { clear -Hinv Hsteps. induction Hsteps; eauto using lease_step_inv. }
    pose proof (li_users _ Hinv') as Hu. simpl in Hu. unfold deactivate_condition. by rewrite Hu.
Qed.
End lease_facts.

(** ** Witnesses *)

(** A callback has taken a lease and [deactivate] waits for it. *)
Lemma example_lease_reachable : lease_reachable example_lease_world.
Proof.
  exists 7, "component", false.
  eapply rtc_l; [apply (step_acquire 0 true _ ∅ 0); [done|done|reflexivity]|].
  apply rtc_once, step_deactivate_begin.
Qed.

Lemma lease_safety_witness :
  component (w_state example_lease_world) = Some 7 ∧ true = true ∧
  users (w_state example_lease_world) = N.of_nat (size (held (w_leases example_lease_world))).
Proof.
  refine (lease_safety example_lease_world 0
    {| lease_state := true; lease_component := Some 7 |} 7 example_lease_reachable _ _); reflexivity.
Defined.

Lemma deactivate_completes_witness :
  (∀ w', rtc lease_step example_lease_world w' →
     size (held (w_leases w')) ≤ size (held (w_leases example_lease_world))) ∧
  ∃ w', rtc lease_step example_lease_world w' ∧ w_waiting w' = 0 ∧ component (w_state w') = None.
Proof.
  refine (deactivate_completes example_lease_world example_lease_reachable _). simpl. lia.
Defined.

Lemma deactivated_forever_witness :
  let w := {| w_state := deactivate_end (deactivate_begin (makeComponentState 7 "component" false));
              w_leases := ∅; w_waiting := 0 |} in
  component (w_state w) = None ∧ users (w_state w) = 0%N ∧
  (∀ i lease, w_leases w !! i = Some lease → ComponentLease_bool lease = false) ∧
  (∀ has_state, isActive has_state (w_state w) = false ∧
     ComponentLease_acquire has_state (w_state w) = (w_state w, null_lease)).
Proof.
  intros w. refine (deactivated_forever w w _ _ _); [|reflexivity|reflexivity].
  exists 7, "component", false. eapply rtc_l; [apply step_deactivate_begin|].
  apply rtc_once, step_deactivate_end. reflexivity.
Defined.
