(* ===== verification/Native.v ===== *)
(** The interfaces of the code the repository builds on: the node ids, data
    types and variants of open62541pp and the data sources, ports and type
    infos of RTT.  Each is a class of operations, with a second class of laws
    that states the documented behaviour the theorems rely on. *)

From S2P Require Import Prelude.

(** ** C++ value types

    The value types of the codecs.  Integers, enumerations and floating point
    numbers (by their bit pattern) are numbers, strings are byte strings. *)
Inductive CppType :=
  | cpp_bool
  | cpp_int8 | cpp_uint8 | cpp_int16 | cpp_uint16
  | cpp_int32 | cpp_uint32 | cpp_int64 | cpp_uint64
  | cpp_float | cpp_double | cpp_char
  | cpp_string | cpp_rt_string
  | cpp_FlowStatus | cpp_WriteStatus | cpp_TaskState.

#[global] Instance CppType_eq_dec : EqDecision CppType.
Proof. solve_decision. Defined.

Definition cpp (t : CppType) : Type :=
  match t with
  | cpp_bool => bool
  | cpp_string | cpp_rt_string => string
  | _ => Z
  end.

(** [RTT::ConnPolicy]; [int] members as numbers. *)
Record ConnPolicy := {
  cp_type : Z; cp_size : Z; cp_lock_policy : Z; cp_init : bool; cp_pull : bool;
  cp_buffer_policy : Z; cp_max_threads : Z; cp_mandatory : bool; cp_transport : Z;
  cp_data_size : Z; cp_name_id : string;
}.

(** The types a data source or port can have. *)
Inductive RttType :=
  | rtt_scalar (t : CppType)
  | rtt_vector (t : CppType)
  | rtt_ConnPolicy.

#[global] Instance RttType_eq_dec : EqDecision RttType.
Proof. solve_decision. Defined.

Definition rtt (t : RttType) : Type :=
  match t with
  | rtt_scalar t => cpp t
  | rtt_vector t => list (cpp t)
  | rtt_ConnPolicy => ConnPolicy
  end.

(** ** open62541pp: node ids and data types *)

(** The enumerators of [DataTypeId] the code names. *)
Inductive DataTypeId :=
  | dt_Boolean | dt_SByte | dt_Byte | dt_Int16 | dt_UInt16 | dt_Int32 | dt_UInt32
  | dt_Int64 | dt_UInt64 | dt_Float | dt_Double | dt_String
  | dt_BaseDataType | dt_Structure | dt_Enumeration | dt_Union.

#[global] Instance DataTypeId_eq_dec : EqDecision DataTypeId.
Proof. solve_decision. Defined.

(** [NodeId(namespace, identifier)] with a string identifier, [NodeId(DataTypeId)]
    and [namespaceIndex()]. *)
Class NodeIds (NodeId : Type) := {
  NodeId_eq_dec :: EqDecision NodeId;
  nodeid_string : N → string → NodeId;
  nodeid_datatype : DataTypeId → NodeId;
  nodeid_namespaceIndex : NodeId → N;
}.

Class NodeIdLaws (NodeId : Type) `{NodeIds NodeId} := {
  nodeid_string_inj n s n' s' : nodeid_string n s = nodeid_string n' s' → n = n' ∧ s = s';
  nodeid_datatype_inj d d' : nodeid_datatype d = nodeid_datatype d' → d = d';
  nodeid_namespaceIndex_string n s : nodeid_namespaceIndex (nodeid_string n s) = n;
  nodeid_namespaceIndex_datatype d : nodeid_namespaceIndex (nodeid_datatype d) = 0%N;
}.

(** [UA_DataTypeKind], as far as the code compares it. *)
Inductive DataTypeKind :=
  | UA_DATATYPEKIND_STRUCTURE | UA_DATATYPEKIND_OPTSTRUCT
  | UA_DATATYPEKIND_ENUM | UA_DATATYPEKIND_UNION | UA_DATATYPEKIND_OTHER.

#[global] Instance DataTypeKind_eq_dec : EqDecision DataTypeKind.
Proof. solve_decision. Defined.

(** [opcua::DataType] and the native description [handle()] points to;
    [findDataType] looks up a builtin description. *)
Class DataTypes (NodeId UA_DataType DataType : Type) := {
  native_typeId : UA_DataType → NodeId;
  dt_typeId : DataType → NodeId;
  dt_binaryEncodingId : DataType → NodeId;
  dt_typeKind : DataType → DataTypeKind;
  dt_handle : DataType → UA_DataType;
  findDataType : NodeId → option UA_DataType;
}.

Class DataTypeLaws NodeId UA_DataType DataType `{DataTypes NodeId UA_DataType DataType} := {
  handle_typeId data_type : native_typeId (dt_handle data_type) = dt_typeId data_type;
  findDataType_typeId id native : findDataType id = Some native → native_typeId native = id;
}.

(** [DataTypeBuilder<T>::createStructure(name, type, encoding).addField...build()]. *)
Class DataTypeBuilder (NodeId DataType : Type) := {
  build_structure : string → NodeId → NodeId → list string → DataType;
}.

Class DataTypeBuilderLaws NodeId UA_DataType DataType `{DataTypes NodeId UA_DataType DataType}
    `{DataTypeBuilder NodeId DataType} := {
  built_typeId name type encoding fields : dt_typeId (build_structure name type encoding fields) = type;
  built_encodingId name type encoding fields :
    dt_binaryEncodingId (build_structure name type encoding fields) = encoding;
  built_kind name type encoding fields :
    dt_typeKind (build_structure name type encoding fields) = UA_DATATYPEKIND_STRUCTURE;
}.

(** [opcua::String]. *)
Class UaStrings (UaString : Type) := {
  ua_string : string → UaString;
  ua_string_view : UaString → string;
}.

Class UaStringLaws (UaString : Type) `{UaStrings UaString} := {
  ua_string_view_ua_string s : ua_string_view (ua_string s) = s;
}.

(** ** open62541pp: variants *)

(** The data type that the library registers for a C++ type. *)
Definition wire_datatype (t : CppType) : DataTypeId :=
  match t with
  | cpp_bool => dt_Boolean
  | cpp_int8 => dt_SByte
  | cpp_uint8 => dt_Byte
  | cpp_int16 => dt_Int16
  | cpp_uint16 => dt_UInt16
  | cpp_int32 => dt_Int32
  | cpp_uint32 => dt_UInt32
  | cpp_int64 => dt_Int64
  | cpp_uint64 => dt_UInt64
  | cpp_float => dt_Float
  | cpp_double => dt_Double
  | cpp_string => dt_String
  | cpp_char | cpp_rt_string | cpp_FlowStatus | cpp_WriteStatus | cpp_TaskState => dt_BaseDataType
  end.

(** The C++ types the library can put into a variant. *)
Definition wire_type (t : CppType) : bool :=
  negb (bool_decide (wire_datatype t = dt_BaseDataType)).

(** [Variant(T)], [Variant(std::vector<T>)], [Variant(T, type)] for a custom
    structure, the tests, and [to<T>()], which throws [BadVariantAccess], a
    [std::exception], when it is [None]. *)
Class Variants (Variant NodeId UA_DataType Wire : Type) := {
  variant_scalar : ∀ t, cpp t → Variant;
  variant_array : ∀ t, list (cpp t) → Variant;
  variant_structure : Wire → UA_DataType → Variant;
  variant_isScalar : Variant → bool;
  variant_isArray : Variant → bool;
  variant_isType : Variant → NodeId → bool;
  variant_arrayDimensions : Variant → list N;
  variant_to_scalar : ∀ t, Variant → option (cpp t);
  variant_to_array : ∀ t, Variant → option (list (cpp t));
  variant_data : Variant → option Wire; (* [data()] read as the structure *)
}.

Class VariantLaws Variant NodeId UA_DataType DataType Wire `{NodeIds NodeId}
    `{DataTypes NodeId UA_DataType DataType} `{!Variants Variant NodeId UA_DataType Wire} := {
  variant_scalar_isScalar t x : variant_isScalar (variant_scalar t x) = true;
  variant_scalar_isType t x id : wire_type t = true →
    variant_isType (variant_scalar t x) id = bool_decide (id = nodeid_datatype (wire_datatype t));
  variant_scalar_to t x : wire_type t = true → variant_to_scalar t (variant_scalar t x) = Some x;
  variant_array_isArray t xs : variant_isArray (variant_array t xs) = true;
  variant_array_isType t xs id : wire_type t = true →
    variant_isType (variant_array t xs) id = bool_decide (id = nodeid_datatype (wire_datatype t));
  variant_array_dimensions t xs : length (variant_arrayDimensions (variant_array t xs)) ≤ 1;
  variant_array_to t xs : wire_type t = true → variant_to_array t (variant_array t xs) = Some xs;
  variant_structure_isScalar w native : variant_isScalar (variant_structure w native) = true;
  variant_structure_isType w native id :
    variant_isType (variant_structure w native) id = bool_decide (id = native_typeId native);
  variant_structure_data w native : variant_data (variant_structure w native) = Some w;
  variant_not_both v : variant_isScalar v = true → variant_isArray v = false;
}.

(** ** RTT: data sources and ports

    [W] is the heap that holds the values of data sources and ports. *)
Class DataSources (W DS Port : Type) := {
  ds_is : RttType → DS → bool;            (* [dynamic_pointer_cast<DataSource<T>>] *)
  ds_is_assignable : RttType → DS → bool; (* [dynamic_pointer_cast<AssignableDataSource<T>>] *)
  ds_evaluate : DS → IO W bool;
  ds_value : ∀ t, DS → W → rtt t;
  ds_set : ∀ t, DS → rtt t → IO W unit;
  ds_new : ∀ t, rtt t → W → W * DS;       (* [new ValueDataSource<T>(value)] *)
  port_is : RttType → Port → bool;        (* [dynamic_cast<OutputPort<T> *>] *)
  port_last : ∀ t, Port → W → option (rtt t); (* [getLastWrittenValue] *)
}.

(** [ds] is a value data source of type [t] that holds [x]. *)
Definition ds_holds `{DataSources W DS Port} (t : RttType) (ds : DS) (x : rtt t) (w : W) : Prop :=
  ds_is t ds = true ∧ ds_is_assignable t ds = true ∧ ds_value t ds w = x ∧
  ds_evaluate ds w = (w, inr true).

(** A value data source keeps what is put into it. *)
Class DataSourceLaws W DS Port `{DataSources W DS Port} := {
  ds_new_holds t x w : ds_holds t (ds_new t x w).2 x (ds_new t x w).1;
  ds_set_holds t ds x y w : ds_holds t ds x w →
    ∃ w', ds_set t ds y w = (w', inr tt) ∧ ds_holds t ds y w';
}.

(** [VariantReader] and [VariantWriter]; a reader that returns [false] leaves
    nothing the code looks at. *)
Definition VariantReader (W Variant : Type) : Type := IO W (option Variant).
Definition VariantWriter (W Variant : Type) : Type := Variant → IO W bool.

(** The bounds of [TaskCore::TaskState]. *)
Class TaskStates := {
  ts_Init : Z;
  ts_RunTimeError : Z;
}.

(** ** RTT: type infos

    [R] is the state of the type repository: which type infos have a protocol
    under the transport's id.  [ti_getProtocol] includes the [dynamic_cast]. *)
Class TypeInfos (TypeInfo R Protocol : Type) := {
  ti_getTypeName : TypeInfo → string;
  ti_hasProtocol : R → TypeInfo → bool;
  ti_getProtocol : R → TypeInfo → option Protocol;
  ti_addProtocol : R → TypeInfo → Protocol → R * bool;
  types_getTypes : R → list string;
  types_type : R → string → option TypeInfo;
}.

Class TypeInfoLaws TypeInfo R Protocol `{EqDecision TypeInfo, TypeInfos TypeInfo R Protocol} := {
  addProtocol_true r ti p r' : ti_addProtocol r ti p = (r', true) →
    ti_hasProtocol r' ti = true ∧ ti_getProtocol r' ti = Some p;
  addProtocol_false r ti p r' : ti_addProtocol r ti p = (r', false) → r' = r;
  addProtocol_other r ti p ti' : ti ≠ ti' →
    ti_hasProtocol (ti_addProtocol r ti p).1 ti' = ti_hasProtocol r ti' ∧
    ti_getProtocol (ti_addProtocol r ti p).1 ti' = ti_getProtocol r ti';
  addProtocol_types r ti p name : types_type (ti_addProtocol r ti p).1 name = types_type r name;
}.

(** ** open62541pp: status codes and node management *)

Class StatusCodes (StatusCode : Type) := {
  status_isGood : StatusCode → bool;
  status_name : StatusCode → string;
}.

(** The calls of the node management services that publish data types:
    [addDataType(parent, id, name, display name)] with [HasSubtype],
    [addObject] of an encoding node without parent and [addReference] with
    [HasEncoding]. *)
Inductive DataTypeRequest (NodeId : Type) :=
  | req_addDataType (parent id : NodeId) (name display_name : string)
  | req_addEncoding (id : NodeId) (name display_name : string)
  | req_addEncodingReference (source target : NodeId) (forward : bool).
Arguments req_addDataType {_} _ _ _ _.
Arguments req_addEncoding {_} _ _ _.
Arguments req_addEncodingReference {_} _ _ _.

Class DataTypeServices (NS NodeId StatusCode : Type) := {
  data_type_service : DataTypeRequest NodeId → NS → NS * StatusCode;
}.
