(* ===== verification/Concrete.v ===== *)
(** A concrete implementation of the interfaces of Native.v, which shows that
    their laws can hold; the witnesses run the model on it. *)

From S2P Require Import Prelude Native.

(** ** Node ids and data types *)

Definition c_NodeId : Type := N * (DataTypeId + string).

#[global] Instance c_NodeIds : NodeIds c_NodeId := {
  nodeid_string n s := (n, inr s);
  nodeid_datatype d := (0%N, inl d);
  nodeid_namespaceIndex := fst;
}.

#[global] Instance c_NodeIdLaws : NodeIdLaws c_NodeId.
Proof. split; simpl; try done; naive_solver. Qed.

Record c_DataType := {
  c_typeId : c_NodeId;
  c_encodingId : c_NodeId;
  c_kind : DataTypeKind;
}.

(** A native description is known by its node id. *)
#[global] Instance c_DataTypes : DataTypes c_NodeId c_NodeId c_DataType := {
  native_typeId native := native;
  dt_typeId := c_typeId;
  dt_binaryEncodingId := c_encodingId;
  dt_typeKind := c_kind;
  dt_handle := c_typeId;
  findDataType id := if (id.1 =? 0)%N then Some id else None;
}.

#[global] Instance c_DataTypeLaws : DataTypeLaws c_NodeId c_NodeId c_DataType.
Proof. split; simpl; [done|]. intros id native. by case_match; intros; simplify_eq. Qed.

#[global] Instance c_DataTypeBuilder : DataTypeBuilder c_NodeId c_DataType := {
  build_structure _ type encoding _ :=
    {| c_typeId := type; c_encodingId := encoding; c_kind := UA_DATATYPEKIND_STRUCTURE |};
}.

#[global] Instance c_DataTypeBuilderLaws : DataTypeBuilderLaws c_NodeId c_NodeId c_DataType.
Proof. by split. Qed.

#[global] Instance c_UaStrings : UaStrings string := {
  ua_string s := s;
  ua_string_view s := s;
}.

#[global] Instance c_UaStringLaws : UaStringLaws string.
Proof. by split. Qed.

#[global] Instance c_TaskStates : TaskStates := { ts_Init := 0; ts_RunTimeError := 6 }.

(** ** Variants *)

Inductive c_Variant (Wire : Type) :=
  | cv_scalar (t : CppType) (value : cpp t)
  | cv_array (t : CppType) (values : list (cpp t))
  | cv_structure (wire : Wire) (native : c_NodeId).
Arguments cv_scalar {_} _ _.
Arguments cv_array {_} _ _.
Arguments cv_structure {_} _ _.

Definition c_isType {Wire} (v : c_Variant Wire) (id : c_NodeId) : bool :=
  match v with
  | cv_scalar t _ | cv_array t _ => bool_decide (id = nodeid_datatype (wire_datatype t))
  | cv_structure _ native => bool_decide (id = native)
  end.

Definition cast {A} `{EqDecision A} (P : A → Type) {x : A} (y : A) (value : P x) : option (P y) :=
  match decide (x = y) with
  | left e => Some (eq_rect x P value y e)
  | right _ => None
  end.

#[global] Instance c_Variants Wire : Variants (c_Variant Wire) c_NodeId c_NodeId Wire := {
  variant_scalar := cv_scalar;
  variant_array := cv_array;
  variant_structure := cv_structure;
  variant_isScalar v := match v with cv_array _ _ => false | _ => true end;
  variant_isArray v := match v with cv_array _ _ => true | _ => false end;
  variant_isType := c_isType;
  variant_arrayDimensions _ := [];
  variant_to_scalar t v := match v with cv_scalar _ x => cast cpp t x | _ => None end;
  variant_to_array t v :=
    match v with cv_array _ xs => cast (λ t, list (cpp t)) t xs | _ => None end;
  variant_data v := match v with cv_structure w _ => Some w | _ => None end;
}.

(** ** Data sources *)

(** The heap maps addresses to typed values; a data source is a typed address. *)
Notation c_World := (gmap nat { t : RttType & rtt t }).
Definition c_DS : Type := RttType * nat.

Definition cpp_zero (t : CppType) : cpp t :=
  match t with
  | cpp_bool => false
  | cpp_string | cpp_rt_string => ""
  | _ => 0%Z
  end.

Definition default_policy : ConnPolicy :=
  {| cp_type := 0; cp_size := 0; cp_lock_policy := 0; cp_init := false; cp_pull := false;
     cp_buffer_policy := 0; cp_max_threads := 0; cp_mandatory := true; cp_transport := 0;
     cp_data_size := 0; cp_name_id := "" |}.

Definition rtt_zero (t : RttType) : rtt t :=
  match t with
  | rtt_scalar t => cpp_zero t
  | rtt_vector t => []
  | rtt_ConnPolicy => default_policy
  end.

Definition c_value (t : RttType) (n : nat) (w : c_World) : option (rtt t) :=
  match w !! n with
  | Some (existT _ x) => cast rtt t x
  | None => None
  end.

#[global] Instance c_DataSources : DataSources c_World c_DS c_DS := {
  ds_is t ds := bool_decide (ds.1 = t);
  ds_is_assignable t ds := bool_decide (ds.1 = t);
  ds_evaluate _ := mret true;
  ds_value t ds w := default (rtt_zero t) (c_value t ds.2 w);
  ds_set t ds x := io_modify (<[ds.2 := existT t x]>);
  ds_new t x w := let n := fresh (dom w) in (<[n := existT t x]> w, (t, n));
  port_is t ds := bool_decide (ds.1 = t);
  port_last t ds w := c_value t ds.2 w;
}.

(** ** Laws *)

Lemma cast_refl {A} `{EqDecision A} (P : A → Type) (x : A) (value : P x) :
  cast P x value = Some value.
Proof.
  unfold cast. destruct (decide (x = x)) as [e|]; [|done].
  by rewrite (proof_irrel e eq_refl).
Qed.

#[global] Instance c_VariantLaws Wire :
  VariantLaws (c_Variant Wire) c_NodeId c_NodeId c_DataType Wire.
Proof.
  split; simpl; try done; intros; try by rewrite cast_refl. all: try lia.
  by destruct v.
Qed.

#[global] Instance c_DataSourceLaws : DataSourceLaws c_World c_DS c_DS.
Proof.
  split.
  - intros t x w. unfold ds_holds. simpl. rewrite bool_decide_eq_true_2 by done.
    split_and!; try done. unfold c_value. by rewrite lookup_insert_eq, cast_refl.
  - intros t [t' n] x y w (His & Has & _ & _). simpl in *.
    eexists. split; [done|]. unfold ds_holds. simpl. split_and!; try done.
    unfold c_value. by rewrite lookup_insert_eq, cast_refl.
Qed.

(** ** Type infos

    A repository gives names, aliases among them, a type info, which is the name
    it was made with; type infos may have a protocol. *)
Notation c_Repository Protocol := (gmap string string * gmap string Protocol)%type.

#[global] Instance c_TypeInfos Protocol : TypeInfos string (c_Repository Protocol) Protocol := {
  ti_getTypeName info := info;
  ti_hasProtocol r info := bool_decide (is_Some (r.2 !! info));
  ti_getProtocol r info := r.2 !! info;
  ti_addProtocol r info protocol :=
    if bool_decide (is_Some (r.2 !! info)) then (r, false) else ((r.1, <[info := protocol]> r.2), true);
  types_getTypes r := ordered_elems (dom r.1);
  types_type r name := r.1 !! name;
}.

#[global] Instance c_TypeInfoLaws Protocol : TypeInfoLaws string (c_Repository Protocol) Protocol.
Proof.
  split; simpl.
  - intros [n p] ti protocol r'. simpl. destruct (bool_decide (is_Some (p !! ti))); intros; simplify_eq/=.
    by rewrite lookup_insert_eq.
  - intros r ti p r'. destruct (bool_decide (is_Some (r.2 !! ti))); intros; by simplify_eq.
  - intros r ti p ti' Hne. destruct (bool_decide (is_Some (r.2 !! ti))); simpl; [done|].
    by rewrite !lookup_insert_ne by done.
  - intros r ti p name. by destruct (bool_decide (is_Some (r.2 !! ti))).
Qed.
