(* ===== verification/TypeDescriptor.v ===== *)
(** The canonical RTT types and their OPC UA data types
    (src/src/type_descriptor.cpp, type_descriptor.hpp). *)

From S2P Require Import Prelude Native.

Record TypeDescriptor := {
  rtt_name : string;
  data_type : DataTypeId;
  has_value : bool;
}.

Section descriptors.
(** [std::is_signed_v<char>] and [OS_RT_MALLOC] of the build. *)
Context (char_is_signed os_rt_malloc : bool).

Definition descriptor (name : string) (type : DataTypeId) (value : bool) : TypeDescriptor :=
  {| rtt_name := name; data_type := type; has_value := value |}.

Definition canonicalTypeDescriptors : list TypeDescriptor :=
  [descriptor "Bool" dt_Boolean true;
   descriptor "Int8" dt_SByte true;
   descriptor "UInt8" dt_Byte true;
   descriptor "Int16" dt_Int16 true;
   descriptor "UInt16" dt_UInt16 true;
   descriptor "Int32" dt_Int32 true;
   descriptor "UInt32" dt_UInt32 true;
   descriptor "Int64" dt_Int64 true;
   descriptor "UInt64" dt_UInt64 true;
   descriptor "Float32" dt_Float true;
   descriptor "Float64" dt_Double true;
   descriptor "Char" (if char_is_signed then dt_SByte else dt_Byte) true;
   descriptor "String" dt_String true;
   descriptor "Void" dt_BaseDataType false;
   descriptor "Float64Array" dt_Double true;
   descriptor "Int32Array" dt_Int32 true;
   descriptor "StringArray" dt_String true] ++
  (if os_rt_malloc then [descriptor "RtString" dt_String true] else []) ++
  [descriptor "FlowStatus" dt_Int32 true;
   descriptor "WriteStatus" dt_Int32 true;
   descriptor "TaskState" dt_Int32 true].

Definition descriptorForType (name : string) : option TypeDescriptor :=
  List.find (λ descriptor, String.eqb (rtt_name descriptor) name) canonicalTypeDescriptors.

(** ** Lemmas *)

(** The names are distinct, so that each one finds its own entry. *)
Lemma descriptorForType_spec descriptor :
  descriptor ∈ canonicalTypeDescriptors ↔ descriptorForType (rtt_name descriptor) = Some descriptor.
Proof.
  split.
  - unfold descriptorForType, canonicalTypeDescriptors. intros Hin.
    repeat (apply elem_of_cons in Hin as [->|Hin]; [by destruct char_is_signed, os_rt_malloc|]).
    destruct os_rt_malloc; simpl in Hin;
      repeat (apply elem_of_cons in Hin as [->|Hin]; [by destruct char_is_signed|]);
      by apply elem_of_nil in Hin.
  - intros Hfind. apply List.find_some in Hfind as [Hin _]. by apply list_elem_of_In.
Qed.
End descriptors.
