(* ===== verification/TypeProtocol.v ===== *)
(** Type codecs, proxy data sources and type protocols
    (src/src/type_protocol.cpp, include/rtt/opcua/type_protocol.hpp). *)

From S2P Require Import Prelude Native Concrete TypeDescriptor DataTypeRegistry.

(** ** Interfaces (type_protocol.hpp) *)

Inductive PortValueStatus := pv_value | pv_waiting_for_initial_data | pv_error.

Inductive ValueRank := vr_Scalar | vr_OneDimension.

(** [std::variant<NodeId, LogicalDataTypeId>]. *)
Inductive DataTypeReference (NodeId : Type) :=
  | ref_builtin (id : NodeId)
  | ref_logical (id : LogicalDataTypeId).
Arguments ref_builtin {_} _.
Arguments ref_logical {_} _.

#[global] Instance DataTypeReference_eq_dec `{EqDecision NodeId} : EqDecision (DataTypeReference NodeId).
Proof. solve_decision. Defined.

(** A proxy data source: the reader and writer it was made with ([None] is an
    empty [std::function]; the read-only classes have no writer) and the
    mutable [last_value_]. *)
Record Proxy (W Variant T : Type) := {
  reader : option (VariantReader W Variant);
  writer : option (VariantWriter W Variant);
  last_value : T;
}.
Arguments reader {_ _ _} _.
Arguments writer {_ _ _} _.
Arguments last_value {_ _ _} _.

(** The classes of proxies a codec creates; the one of ConnPolicy is declared in
    conn_policy_protocol.cpp. *)
Inductive ProxyDataSource (W Variant NodeId UA_DataType : Type) :=
  | proxy_scalar (t : CppType) (data_type : NodeId) (p : Proxy W Variant (cpp t))
  | proxy_array (t : CppType) (element_type : NodeId) (p : Proxy W Variant (list (cpp t)))
  | proxy_conn_policy (data_type : NodeId) (native : UA_DataType) (p : Proxy W Variant ConnPolicy).
Arguments proxy_scalar {_ _ _ _} _ _ _.
Arguments proxy_array {_ _ _ _} _ _ _.
Arguments proxy_conn_policy {_ _ _ _} _ _ _.

(** The virtual functions of [TypeCodec].  A data source or port is [None] when
    null, and so is the variant an output is written to. *)
Record TypeCodec (W DS Port Variant NodeId UA_DataType : Type) := {
  dataTypeNodeId : NodeId;
  valueRank : ValueRank;
  hasValue : bool;
  toVariant : option DS → option Variant → IO W (bool * option Variant);
  assignVariant : Variant → option DS → IO W bool;
  makeDataSource : Variant → IO W (option DS);
  makeProxyDataSource : option (VariantReader W Variant) → option (VariantWriter W Variant) →
    option (ProxyDataSource W Variant NodeId UA_DataType);
  portValue : option Port → option Variant → W → PortValueStatus * option Variant;
}.
Arguments dataTypeNodeId {_ _ _ _ _ _} _.
Arguments valueRank {_ _ _ _ _ _} _.
Arguments hasValue {_ _ _ _ _ _} _.
Arguments toVariant {_ _ _ _ _ _} _ _ _.
Arguments assignVariant {_ _ _ _ _ _} _ _ _.
Arguments makeDataSource {_ _ _ _ _ _} _ _.
Arguments makeProxyDataSource {_ _ _ _ _ _} _ _ _.
Arguments portValue {_ _ _ _ _ _} _ _ _ _.

(** The virtual functions of [TypeProtocol]. *)
Record TypeProtocol (W DS Port Variant NodeId UA_DataType : Type) := {
  dataType : DataTypeReference NodeId;
  registrationFingerprint : string;
  protocol_bind : NodeId → UA_DataType → option string →
    option (TypeCodec W DS Port Variant NodeId UA_DataType) * option string;
}.
Arguments dataType {_ _ _ _ _ _} _.
Arguments registrationFingerprint {_ _ _ _ _ _} _.
Arguments protocol_bind {_ _ _ _ _ _} _ _ _ _.

(** ** Scalar conversions *)

(** [std::string(value.c_str())]: up to the first NUL. *)
Fixpoint c_str (s : string) : string :=
  match s with
  | EmptyString => EmptyString
  | String c s' => if Ascii.eqb c Ascii.zero then EmptyString else String c (c_str s')
  end.

(** [T{}]. *)
Definition cpp_default (t : CppType) : cpp t :=
  match t with
  | cpp_bool => false
  | cpp_string | cpp_rt_string => ""
  | _ => 0%Z
  end.

Section codecs.
Context (char_is_signed os_rt_malloc : bool).
Context {W DS Port Variant NodeId UA_DataType DataType Wire TypeInfo R : Type}.
Context `{TaskStates} `{NodeIds NodeId} `{DataTypes NodeId UA_DataType DataType}.
Context `{!Variants Variant NodeId UA_DataType Wire} `{DataSources W DS Port}.

Notation VariantReader := (VariantReader W Variant).
Notation VariantWriter := (VariantWriter W Variant).
Notation Proxy := (Proxy W Variant).
Notation ProxyDataSource := (ProxyDataSource W Variant NodeId UA_DataType).
Notation TypeCodec := (TypeCodec W DS Port Variant NodeId UA_DataType).
Notation TypeProtocol := (TypeProtocol W DS Port Variant NodeId UA_DataType).

(** The [Wire] argument [makeCanonicalProtocol] pairs with a [T]. *)
Definition wire_of (t : CppType) : CppType :=
  match t with
  | cpp_char => if char_is_signed then cpp_int8 else cpp_uint8
  | cpp_rt_string => cpp_string
  | cpp_FlowStatus | cpp_WriteStatus | cpp_TaskState => cpp_int32
  | t => t
  end.

Definition char_to_wire : Z → cpp (wire_of cpp_char) :=
  match char_is_signed as b return Z → cpp (if b then cpp_int8 else cpp_uint8) with
  | true => λ value, value
  | false => λ value, value
  end.
Definition char_of_wire : cpp (wire_of cpp_char) → Z :=
  match char_is_signed as b return cpp (if b then cpp_int8 else cpp_uint8) → Z with
  | true => λ value, value
  | false => λ value, value
  end.

(** A [static_cast] keeps the value except for real-time strings. *)
Definition encodeScalar (t : CppType) : cpp t → cpp (wire_of t) :=
  match t with
  | cpp_rt_string => c_str
  | cpp_char => char_to_wire
  | _ => λ value, value
  end.

Definition decodeScalarValue (t : CppType) : cpp (wire_of t) → cpp t :=
  match t with
  | cpp_rt_string => c_str
  | cpp_char => char_of_wire
  | _ => λ value, value
  end.

Definition isTaskStateCode (value : Z) : bool := (ts_Init <=? value)%Z && (value <=? ts_RunTimeError)%Z.

Definition isValidScalarValue (t : CppType) : cpp t → bool :=
  match t with
  | cpp_TaskState => isTaskStateCode
  | _ => λ _, true
  end.

Definition isValidScalarWireValue (t : CppType) : cpp (wire_of t) → bool :=
  match t with
  | cpp_TaskState => isTaskStateCode
  | _ => λ _, true
  end.

Definition decodeScalar (t : CppType) (value : Variant) (data_type : NodeId) : option (cpp t) :=
  if negb (variant_isScalar value) || negb (variant_isType value data_type) then None
  else
    wire_value ← variant_to_scalar (wire_of t) value;
    if isValidScalarWireValue t wire_value then Some (decodeScalarValue t wire_value) else None.

(** ** Proxy data sources *)

Definition set_last {T} (p : Proxy T) (value : T) : Proxy T :=
  {| reader := reader p; writer := writer p; last_value := value |}.

(** The condition and assignment [refresh] of all proxies consists of: read,
    decode, keep. *)
Definition refresh_body {T} (decode : Variant → option T) (p : Proxy T) : IO W (Proxy T * bool) :=
  match reader p with
  | None => mret (p, false)
  | Some read =>
      result ← read;
      match result with
      | None => mret (p, false)
      | Some value =>
          match decode value with
          | None => mret (p, false)
          | Some decoded => mret (set_last p decoded, true)
          end
      end
  end.

(** [ScalarProxyDataSource::refresh], [ScalarAssignableProxyDataSource::refresh]. *)
Definition scalar_refresh (t : CppType) (data_type : NodeId) (p : Proxy (cpp t)) :
    IO W (Proxy (cpp t) * bool) :=
  catch_std (refresh_body (λ value, decodeScalar t value data_type) p) (λ _, mret (p, false)).

Definition isCompatibleArray (value : Variant) (element_type : NodeId) : bool :=
  variant_isArray value && variant_isType value element_type &&
  (length (variant_arrayDimensions value) <=? 1).

Definition decodeArray (t : CppType) (value : Variant) (element_type : NodeId) : option (list (cpp t)) :=
  if negb (isCompatibleArray value element_type) then None else variant_to_array t value.

(** [ArrayProxyDataSource::refresh], [ArrayAssignableProxyDataSource::refresh];
    [to<Value>()] throws inside the [try]. *)
Definition array_refresh (t : CppType) (element_type : NodeId) (p : Proxy (list (cpp t))) :
    IO W (Proxy (list (cpp t)) * bool) :=
  catch_std (refresh_body (λ value, decodeArray t value element_type) p) (λ _, mret (p, false)).

(** [get], [value], [evaluate] and [set()] of a proxy, from its [refresh]. *)
Definition proxy_get {T} (refresh : Proxy T → IO W (Proxy T * bool)) (p : Proxy T) :
    IO W (Proxy T * T) :=
  '(p, _) ← refresh p; mret (p, last_value p).
Definition proxy_value {T} (p : Proxy T) : T := last_value p.
Definition proxy_evaluate {T} (refresh : Proxy T → IO W (Proxy T * bool)) (p : Proxy T) :
    IO W (Proxy T * bool) := refresh p.

(** The tail of [set(value)]: [if (writer_ && writer_(encoded)) last_value_ = value]. *)
Definition write_back {T} (encoded : Variant) (value : T) (p : Proxy T) : IO W (Proxy T) :=
  match writer p with
  | None => mret p
  | Some write =>
      written ← write encoded;
      mret (if (written : bool) then set_last p value else p)
  end.

Definition scalar_set (t : CppType) (value : cpp t) (p : Proxy (cpp t)) : IO W (Proxy (cpp t)) :=
  catch_std
    (if negb (isValidScalarValue t value) then mret p
     else write_back (variant_scalar (wire_of t) (encodeScalar t value)) value p)
    (λ _, mret p).

Definition array_set (t : CppType) (value : list (cpp t)) (p : Proxy (list (cpp t))) :
    IO W (Proxy (list (cpp t))) :=
  catch_std (write_back (variant_array t value) value p) (λ _, mret p).

(** [updated()]: [set(last_value_)]. *)
Definition scalar_updated (t : CppType) (p : Proxy (cpp t)) : IO W (Proxy (cpp t)) :=
  scalar_set t (last_value p) p.
Definition array_updated (t : CppType) (p : Proxy (list (cpp t))) : IO W (Proxy (list (cpp t))) :=
  array_set t (last_value p) p.

(** [clone()]: a proxy with a default value. *)
Definition proxy_clone {T} (default : T) (p : Proxy T) : Proxy T := set_last p default.

(** [copy(already_cloned)] of the object at address [this]: it records itself
    and returns itself. *)
Definition proxy_copy (this : nat) (already_cloned : gmap nat nat) : gmap nat nat * nat :=
  (<[this := this]> already_cloned, this).

(** The member functions of a proxy class; the last three are absent in a
    read-only one. *)
Record ProxyClass (T : Type) := {
  class_get : Proxy T → IO W (Proxy T * T);
  class_value : Proxy T → T;
  class_evaluate : Proxy T → IO W (Proxy T * bool);
  class_clone : Proxy T → Proxy T;
  class_copy : nat → gmap nat nat → gmap nat nat * nat;
  class_set : option (T → Proxy T → IO W (Proxy T));
  class_set_reference : option (Proxy T → IO W (Proxy T * T));
  class_updated : option (Proxy T → IO W (Proxy T));
}.

Definition ScalarProxyDataSource (t : CppType) (data_type : NodeId) : ProxyClass (cpp t) :=
  {| class_get := proxy_get (scalar_refresh t data_type);
     class_value := proxy_value;
     class_evaluate := proxy_evaluate (scalar_refresh t data_type);
     class_clone := proxy_clone (cpp_default t);
     class_copy := proxy_copy;
     class_set := None; class_set_reference := None; class_updated := None |}.

Definition ScalarAssignableProxyDataSource (t : CppType) (data_type : NodeId) : ProxyClass (cpp t) :=
  {| class_get := proxy_get (scalar_refresh t data_type);
     class_value := proxy_value;
     class_evaluate := proxy_evaluate (scalar_refresh t data_type);
     class_clone := proxy_clone (cpp_default t);
     class_copy := proxy_copy;
     class_set := Some (scalar_set t);
     class_set_reference := Some (proxy_get (scalar_refresh t data_type));
     class_updated := Some (scalar_updated t) |}.

Definition ArrayProxyDataSource (t : CppType) (element_type : NodeId) : ProxyClass (list (cpp t)) :=
  {| class_get := proxy_get (array_refresh t element_type);
     class_value := proxy_value;
     class_evaluate := proxy_evaluate (array_refresh t element_type);
     class_clone := proxy_clone [];
     class_copy := proxy_copy;
     class_set := None; class_set_reference := None; class_updated := None |}.

Definition ArrayAssignableProxyDataSource (t : CppType) (element_type : NodeId) :
    ProxyClass (list (cpp t)) :=
  {| class_get := proxy_get (array_refresh t element_type);
     class_value := proxy_value;
     class_evaluate := proxy_evaluate (array_refresh t element_type);
     class_clone := proxy_clone [];
     class_copy := proxy_copy;
     class_set := Some (array_set t);
     class_set_reference := Some (proxy_get (array_refresh t element_type));
     class_updated := Some (array_updated t) |}.

(** ** Codecs *)

(** The typed data source behind a pointer. *)
Definition typed_source (t : RttType) (source : option DS) : option DS :=
  ds ← source; if ds_is t ds then Some ds else None.
Definition typed_destination (t : RttType) (destination : option DS) : option DS :=
  ds ← destination; if ds_is_assignable t ds then Some ds else None.
Definition typed_port (t : RttType) (port : option Port) : option Port :=
  p ← port; if port_is t p then Some p else None.

Definition makeProxy {T} (default : T) (read : VariantReader) (write : option VariantWriter) : Proxy T :=
  {| reader := Some read; writer := write; last_value := default |}.

(** [ScalarTypeCodec<T, Wire>]. *)
Definition scalar_isCompatible (data_type : NodeId) (value : Variant) : bool :=
  variant_isScalar value && variant_isType value data_type.

Definition scalar_toVariant (t : CppType) (source : option DS) (value : option Variant) :
    IO W (bool * option Variant) :=
  match typed_source (rtt_scalar t) source, value with
  | Some typed, Some _ =>
      _ ← ds_evaluate typed;
      local_value ← io_gets (ds_value (rtt_scalar t) typed);
      if negb (isValidScalarValue t local_value) then mret (false, value)
      else mret (true, Some (variant_scalar (wire_of t) (encodeScalar t local_value)))
  | _, _ => mret (false, value)
  end.

(** The value inside a compatible variant, [None] when [to<Wire>()] throws or
    the wire value is invalid. *)
Definition scalar_decode (t : CppType) (data_type : NodeId) (value : Variant) : option (cpp t) :=
  if negb (scalar_isCompatible data_type value) then None
  else
    wire_value ← variant_to_scalar (wire_of t) value;
    if isValidScalarWireValue t wire_value then Some (decodeScalarValue t wire_value) else None.

Definition scalar_assignVariant (t : CppType) (data_type : NodeId) (value : Variant)
    (destination : option DS) : IO W bool :=
  match typed_destination (rtt_scalar t) destination, scalar_decode t data_type value with
  | Some typed, Some decoded =>
      catch_std (_ ← ds_set (rtt_scalar t) typed decoded; mret true) (λ _, mret false)
  | _, _ => mret false
  end.

Definition scalar_makeDataSource (t : CppType) (data_type : NodeId) (value : Variant) :
    IO W (option DS) :=
  match scalar_decode t data_type value with
  | Some decoded => λ w, let '(w', ds) := ds_new (rtt_scalar t) decoded w in (w', inr (Some ds))
  | None => mret None
  end.

Definition scalar_makeProxyDataSource (t : CppType) (data_type : NodeId)
    (reader : option VariantReader) (writer : option VariantWriter) : option ProxyDataSource :=
  match reader with
  | None => None
  | Some read => Some (proxy_scalar t data_type (makeProxy (cpp_default t) read writer))
  end.

Definition scalar_portValue (t : CppType) (port : option Port) (value : option Variant) (w : W) :
    PortValueStatus * option Variant :=
  match typed_port (rtt_scalar t) port, value with
  | Some typed, Some _ =>
      match port_last (rtt_scalar t) typed w with
      | None => (pv_waiting_for_initial_data, value)
      | Some sample =>
          if negb (isValidScalarValue t sample) then (pv_error, value)
          else (pv_value, Some (variant_scalar (wire_of t) (encodeScalar t sample)))
      end
  | _, _ => (pv_error, value)
  end.

Definition ScalarTypeCodec (t : CppType) (data_type : NodeId) : TypeCodec :=
  {| dataTypeNodeId := data_type; valueRank := vr_Scalar; hasValue := true;
     toVariant := scalar_toVariant t;
     assignVariant := scalar_assignVariant t data_type;
     makeDataSource := scalar_makeDataSource t data_type;
     makeProxyDataSource := scalar_makeProxyDataSource t data_type;
     portValue := scalar_portValue t |}.

(** [ArrayTypeCodec<T>]. *)
Definition array_toVariant (t : CppType) (source : option DS) (value : option Variant) :
    IO W (bool * option Variant) :=
  match typed_source (rtt_vector t) source, value with
  | Some typed, Some _ =>
      _ ← ds_evaluate typed;
      local_value ← io_gets (ds_value (rtt_vector t) typed);
      mret (true, Some (variant_array t local_value))
  | _, _ => mret (false, value)
  end.

Definition array_assignVariant (t : CppType) (element_type : NodeId) (value : Variant)
    (destination : option DS) : IO W bool :=
  match typed_destination (rtt_vector t) destination, decodeArray t value element_type with
  | Some typed, Some decoded =>
      catch_std (_ ← ds_set (rtt_vector t) typed decoded; mret true) (λ _, mret false)
  | _, _ => mret false
  end.

Definition array_makeDataSource (t : CppType) (element_type : NodeId) (value : Variant) :
    IO W (option DS) :=
  match decodeArray t value element_type with
  | Some decoded => λ w, let '(w', ds) := ds_new (rtt_vector t) decoded w in (w', inr (Some ds))
  | None => mret None
  end.

Definition array_makeProxyDataSource (t : CppType) (element_type : NodeId)
    (reader : option VariantReader) (writer : option VariantWriter) : option ProxyDataSource :=
  match reader with
  | None => None
  | Some read => Some (proxy_array t element_type (makeProxy [] read writer))
  end.

Definition array_portValue (t : CppType) (port : option Port) (value : option Variant) (w : W) :
    PortValueStatus * option Variant :=
  match typed_port (rtt_vector t) port, value with
  | Some typed, Some _ =>
      match port_last (rtt_vector t) typed w with
      | None => (pv_waiting_for_initial_data, value)
      | Some sample => (pv_value, Some (variant_array t sample))
      end
  | _, _ => (pv_error, value)
  end.

Definition ArrayTypeCodec (t : CppType) (element_type : NodeId) : TypeCodec :=
  {| dataTypeNodeId := element_type; valueRank := vr_OneDimension; hasValue := true;
     toVariant := array_toVariant t;
     assignVariant := array_assignVariant t element_type;
     makeDataSource := array_makeDataSource t element_type;
     makeProxyDataSource := array_makeProxyDataSource t element_type;
     portValue := array_portValue t |}.

Definition VoidTypeCodec (data_type : NodeId) : TypeCodec :=
  {| dataTypeNodeId := data_type; valueRank := vr_Scalar; hasValue := false;
     toVariant _ value := mret (false, value);
     assignVariant _ _ := mret false;
     makeDataSource _ := mret None;
     makeProxyDataSource _ _ := None;
     portValue _ value _ := (pv_error, value) |}.

(** ** Protocols *)

(** The body [bind] of the protocols shares. *)
Definition bind_checked (mismatch : bool) (message : string) (codec : TypeCodec)
    (error : option string) : option TypeCodec * option string :=
  if mismatch then (None, assignError error message) else (Some codec, clearError error).

Definition ScalarTypeProtocol (t : CppType) (type : NodeId) (fingerprint : string) : TypeProtocol :=
  {| dataType := ref_builtin type;
     registrationFingerprint := fingerprint;
     protocol_bind data_type native_type error :=
       bind_checked (negb (bool_decide (data_type = type)) ||
                     negb (bool_decide (native_typeId native_type = data_type)))
         "OPC UA scalar protocol datatype mismatch" (ScalarTypeCodec t data_type) error |}.

Definition ArrayTypeProtocol (t : CppType) (element_type : NodeId) (fingerprint : string) :
    TypeProtocol :=
  {| dataType := ref_builtin element_type;
     registrationFingerprint := fingerprint;
     protocol_bind data_type native_type error :=
       bind_checked (negb (bool_decide (data_type = element_type)) ||
                     negb (bool_decide (native_typeId native_type = data_type)))
         "OPC UA array protocol element datatype mismatch" (ArrayTypeCodec t data_type) error |}.

Definition VoidTypeProtocol : TypeProtocol :=
  {| dataType := ref_builtin (nodeid_datatype dt_BaseDataType);
     registrationFingerprint := "rtt-opcua/builtin/Void/v1";
     protocol_bind data_type native_type error :=
       bind_checked (negb (bool_decide (data_type = nodeid_datatype dt_BaseDataType)) ||
                     negb (bool_decide (native_typeId native_type = data_type)))
         "OPC UA void protocol datatype mismatch" (VoidTypeCodec data_type) error |}.

(** The instantiations [makeCanonicalProtocol] chooses from. *)
Definition canonical_instance (type_name : string) : option (CppType + CppType) :=
  match type_name with
  | "Bool" => Some (inl cpp_bool)
  | "Int8" => Some (inl cpp_int8)
  | "UInt8" => Some (inl cpp_uint8)
  | "Int16" => Some (inl cpp_int16)
  | "UInt16" => Some (inl cpp_uint16)
  | "Int32" => Some (inl cpp_int32)
  | "UInt32" => Some (inl cpp_uint32)
  | "Int64" => Some (inl cpp_int64)
  | "UInt64" => Some (inl cpp_uint64)
  | "Float32" => Some (inl cpp_float)
  | "Float64" => Some (inl cpp_double)
  | "Char" => Some (inl cpp_char)
  | "String" => Some (inl cpp_string)
  | "Float64Array" => Some (inr cpp_double)
  | "Int32Array" => Some (inr cpp_int32)
  | "StringArray" => Some (inr cpp_string)
  | "RtString" => Some (inl cpp_rt_string)
  | "FlowStatus" => Some (inl cpp_FlowStatus)
  | "WriteStatus" => Some (inl cpp_WriteStatus)
  | "TaskState" => Some (inl cpp_TaskState)
  | _ => None
  end%string.

Definition canonical_fingerprint (type_name : string) : string :=
  "rtt-opcua/builtin/" +:+ type_name +:+ "/v1".

Definition makeCanonicalProtocol (type_name : string) : option TypeProtocol :=
  match descriptorForType char_is_signed os_rt_malloc type_name with
  | None => None
  | Some descriptor =>
      let fingerprint := canonical_fingerprint type_name in
      let data_type := nodeid_datatype (TypeDescriptor.data_type descriptor) in
      match canonical_instance type_name with
      | Some (inl t) => Some (ScalarTypeProtocol t data_type fingerprint)
      | Some (inr t) => Some (ArrayTypeProtocol t data_type fingerprint)
      | None => if String.eqb type_name "Void" then Some VoidTypeProtocol else None
      end
  end.

(** ** Registration *)

Definition sameRegistration (lhs rhs : TypeProtocol) : bool :=
  bool_decide (dataType lhs = dataType rhs) &&
  String.eqb (registrationFingerprint lhs) (registrationFingerprint rhs).

Context `{TypeInfos TypeInfo R TypeProtocol}.

(** [frozen] is the answer of [dataTypeRegistryFrozen]. *)
Definition registerTypeProtocolUnlocked (frozen : bool) (type_info : option TypeInfo)
    (protocol : option TypeProtocol) (r : R) (error : option string) :
    R * (bool * option string) :=
  match type_info, protocol with
  | Some type_info, Some protocol =>
      if str_empty (registrationFingerprint protocol)
      then (r, fail error "invalid OPC UA type protocol registration")
      else if ti_hasProtocol r type_info then
        if match ti_getProtocol r type_info with
           | Some existing => sameRegistration existing protocol
           | None => false
           end
        then (r, (true, clearError error))
        else (r, fail error ("conflicting OPC UA type protocol registration for '" +:+
                             ti_getTypeName type_info +:+ "'"))
      else if frozen then
        (r, fail error ("late OPC UA type protocol registration for '" +:+
                        ti_getTypeName type_info +:+ "'"))
      else
        let '(r, added) := ti_addProtocol r type_info protocol in
        if negb added then
          (r, fail error ("invalid OPC UA type protocol registration for '" +:+
                          ti_getTypeName type_info +:+ "'"))
        else (r, (true, clearError error))
  | _, _ => (r, fail error "invalid OPC UA type protocol registration")
  end.

(** The mutex makes [registerTypeProtocol] one step. *)
Definition registerTypeProtocol (frozen : bool) (type_info : option TypeInfo)
    (protocol : option TypeProtocol) (r : R) (error : option string) : R * (bool * option string) :=
  registerTypeProtocolUnlocked frozen type_info protocol r error.

(** [registerCanonicalTypeProtocol] for a name other than ["ConnPolicy"]. *)
Definition registerBuiltinTypeProtocol (frozen : bool) (type_name : string)
    (type_info : option TypeInfo) (r : R) (error : option string) : R * (bool * option string) :=
  match descriptorForType char_is_signed os_rt_malloc type_name with
  | None => (r, fail error ("unsupported canonical RTT type '" +:+ type_name +:+
                            "' for OPC UA protocol registration"))
  | Some _ =>
      match type_info with
      | None => (r, fail error ("missing canonical RTT type '" +:+ type_name +:+
                                "' for OPC UA protocol registration"))
      | Some info =>
          if negb (String.eqb (ti_getTypeName info) type_name) then
            (r, fail error ("canonical RTT type name mismatch for OPC UA protocol registration: requested '" +:+
                            type_name +:+ "', actual '" +:+ ti_getTypeName info +:+ "'"))
          else registerTypeProtocolUnlocked frozen type_info (makeCanonicalProtocol type_name) r error
      end
  end.

(** ** Specification *)

(** [type_info] has a protocol with the registration of [protocol]. *)
Definition registered_as (r : R) (type_info : TypeInfo) (protocol : TypeProtocol) : Prop :=
  ti_hasProtocol r type_info = true ∧
  ∃ existing, ti_getProtocol r type_info = Some existing ∧ sameRegistration existing protocol = true.

(** The values a codec transports unchanged: task states that are states, and
    real-time strings without NUL. *)
Definition representable (t : CppType) : cpp t → bool :=
  match t with
  | cpp_TaskState => isTaskStateCode
  | cpp_rt_string => λ value, negb (str_contains Ascii.zero value)
  | _ => λ _, true
  end.

(** The RTT type a canonical name stands for, and the values of it that are
    transported unchanged. *)
Definition canonical_rtt (instance : CppType + CppType) : RttType :=
  match instance with
  | inl t => rtt_scalar t
  | inr t => rtt_vector t
  end.
Definition canonical_representable (instance : CppType + CppType) : rtt (canonical_rtt instance) → bool :=
  match instance with
  | inl t => representable t
  | inr t => λ _, true
  end.

(** [codec] carries [x]: reading it from a source of type [t] gives a variant
    from which it can be assigned to a destination and rebuilt. *)
Definition codec_carries (codec : TypeCodec) (t : RttType) (x : rtt t) : Prop :=
  ∀ source destination old w y,
    ds_holds t source x w → ds_holds t destination y w →
    ∃ value, toVariant codec (Some source) (Some old) w = (w, inr (true, Some value)) ∧
      (∃ w', assignVariant codec value (Some destination) w = (w', inr true) ∧
         ds_holds t destination x w') ∧
      (∃ w' ds, makeDataSource codec value w = (w', inr (Some ds)) ∧ ds_holds t ds x w').
End codecs.

(** ** Lemmas: conversions *)

Lemma c_str_no_nul s : c_str s = s ↔ str_contains Ascii.zero s = false.
Proof.
  rewrite str_contains_false. induction s as [|c s IH]; simpl; [done|].
  destruct (Ascii.eqb c Ascii.zero); simpl; [done|]. rewrite <-IH. split; [by intros [=]|by intros ->].
Qed.

Lemma c_str_idemp s : c_str (c_str s) = c_str s.
Proof.
  induction s as [|c s IH]; simpl; [done|]. destruct (Ascii.eqb c Ascii.zero) eqn:Hc; simpl; [done|].
  by rewrite Hc, IH.
Qed.

Section codec_facts.
Context (char_is_signed os_rt_malloc : bool).
Context {W DS Port Variant NodeId UA_DataType DataType Wire TypeInfo R : Type}.
Context `{TaskStates} `{NodeIds NodeId} `{!NodeIdLaws NodeId} `{DataTypes NodeId UA_DataType DataType}.
Context `{!Variants Variant NodeId UA_DataType Wire}
  `{!VariantLaws Variant NodeId UA_DataType DataType Wire}.
Context `{DataSources W DS Port} `{!DataSourceLaws W DS Port}.

Notation TypeProtocol := (TypeProtocol W DS Port Variant NodeId UA_DataType).
Notation wire_of := (wire_of char_is_signed).
Notation encodeScalar := (encodeScalar char_is_signed).
Notation decodeScalarValue := (decodeScalarValue char_is_signed).

Lemma wire_type_wire_of t : wire_type (wire_of t) = true.
Proof. by destruct t, char_is_signed. Qed.

Lemma decode_encode t (x : cpp t) : representable t x = true → decodeScalarValue t (encodeScalar t x) = x.
Proof.
  destruct t; simpl; try done.
  - intros _. unfold char_of_wire, char_to_wire. by destruct char_is_signed.
  - rewrite negb_true_iff. intros Hn%c_str_no_nul. by rewrite !Hn.
Qed.

Lemma representable_valid t (x : cpp t) : representable t x = true → isValidScalarValue t x = true.
Proof. by destruct t. Qed.

Lemma valid_wire t (x : cpp t) :
  isValidScalarWireValue char_is_signed t (encodeScalar t x) = isValidScalarValue t x.
Proof. by destruct t. Qed.

(** What a compatible variant made by the codec decodes to. *)
Lemma scalar_decode_encode t (x : cpp t) :
  isValidScalarValue t x = true →
  scalar_decode char_is_signed t (nodeid_datatype (wire_datatype (wire_of t)))
    (variant_scalar (wire_of t) (encodeScalar t x)) = Some (decodeScalarValue t (encodeScalar t x)).
Proof.
  intros Hv. unfold scalar_decode, scalar_isCompatible.
  rewrite variant_scalar_isScalar, variant_scalar_isType by apply wire_type_wire_of.
  rewrite bool_decide_eq_true_2 by done. simpl.
  rewrite variant_scalar_to by apply wire_type_wire_of. simpl. by rewrite valid_wire, Hv.
Qed.

Lemma scalar_codec_carries t (x : cpp t) :
  representable t x = true →
  codec_carries (ScalarTypeCodec char_is_signed t (nodeid_datatype (wire_datatype (wire_of t))))
    (rtt_scalar t) x.
Proof.
  intros Hr source destination old w y (His & _ & Hval & Heval) Hdst.
  pose proof (representable_valid t x Hr) as Hv.
  exists (variant_scalar (wire_of t) (encodeScalar t x)). split_and!.
  - simpl. unfold scalar_toVariant, typed_source. simpl. rewrite His. simpl.
    unfold mbind, IO_bind. rewrite Heval. simpl. rewrite Hval, Hv. done.
  - simpl. unfold scalar_assignVariant, typed_destination. simpl.
    destruct (ds_set_holds _ _ y x w Hdst) as (w' & Hset & Hholds).
    destruct Hdst as (_ & Hass & _). rewrite Hass, scalar_decode_encode, decode_encode by done.
    exists w'. split; [|done]. unfold catch_std, mbind, IO_bind. by rewrite Hset.
  - simpl. unfold scalar_makeDataSource. rewrite scalar_decode_encode, decode_encode by done.
    pose proof (ds_new_holds (rtt_scalar t) x w) as Hnew.
    destruct (ds_new (rtt_scalar t) x w) as [w' ds]. eauto.
Qed.

Lemma array_decode_encode t (xs : list (cpp t)) :
  wire_type t = true →
  decodeArray t (variant_array t xs) (nodeid_datatype (wire_datatype t)) = Some xs.
Proof.
  intros Ht. unfold decodeArray, isCompatibleArray.
  rewrite variant_array_isArray, variant_array_isType, bool_decide_eq_true_2 by done.
  pose proof (variant_array_dimensions t xs). rewrite (proj2 (Nat.leb_le _ _)) by done.
  simpl. by apply variant_array_to.
Qed.

Lemma array_codec_carries t (xs : list (cpp t)) :
  wire_type t = true →
  codec_carries (ArrayTypeCodec t (nodeid_datatype (wire_datatype t))) (rtt_vector t) xs.
Proof.
  intros Ht source destination old w y (His & _ & Hval & Heval) Hdst.
  exists (variant_array t xs). split_and!.
  - simpl. unfold array_toVariant, typed_source. simpl. rewrite His. simpl.
    unfold mbind, IO_bind. rewrite Heval. simpl. by rewrite Hval.
  - simpl. unfold array_assignVariant, typed_destination. simpl.
    destruct (ds_set_holds _ _ y xs w Hdst) as (w' & Hset & Hholds).
    destruct Hdst as (_ & Hass & _). rewrite Hass, array_decode_encode by done.
    exists w'. split; [|done]. unfold catch_std, mbind, IO_bind. by rewrite Hset.
  - simpl. unfold array_makeDataSource. rewrite array_decode_encode by done.
    pose proof (ds_new_holds (rtt_vector t) xs w) as Hnew.
    destruct (ds_new (rtt_vector t) xs w) as [w' ds]. eauto.
Qed.

(** The two tables agree: the descriptor of a name has the data type the
    variants of its instance carry. *)
Lemma canonical_tables descriptor :
  descriptor ∈ canonicalTypeDescriptors char_is_signed os_rt_malloc →
  match canonical_instance (rtt_name descriptor) with
  | Some (inl t) => data_type descriptor = wire_datatype (wire_of t) ∧ has_value descriptor = true
  | Some (inr t) => data_type descriptor = wire_datatype t ∧ wire_type t = true ∧
      has_value descriptor = true
  | None => rtt_name descriptor = "Void" ∧ data_type descriptor = dt_BaseDataType ∧
      has_value descriptor = false
  end.
Proof.
  unfold canonicalTypeDescriptors. intros Hin. simpl in Hin.
  repeat (apply elem_of_cons in Hin as [->|Hin]; [by destruct char_is_signed|]).
  destruct os_rt_malloc; simpl in Hin;
    repeat (apply elem_of_cons in Hin as [->|Hin]; [by destruct char_is_signed|]);
    by apply elem_of_nil in Hin.
Qed.

(** ** Lemmas: proxies *)

Lemma refresh_body_result {T} (decode : Variant → option T) (p p' : Proxy W Variant T) ok w w' :
  refresh_body decode p w = (w', inr (p', ok)) →
  (ok = true ∧ ∃ read value, reader p = Some read ∧ read w = (w', inr (Some value)) ∧
     decode value = Some (last_value p') ∧ p' = set_last p (last_value p')) ∨
  (ok = false ∧ p' = p).
Proof.
  unfold refresh_body. destruct (reader p) as [read|] eqn:Hread; [|intros [= <- <- <-]; auto].
  unfold mbind, IO_bind. destruct (read w) as [w1 [e|[value|]]] eqn:Hr; [done| |intros [= <- <- <-]; auto].
  destruct (decode value) as [decoded|] eqn:Hd; intros [= <- <- <-]; [left|auto].
  split; [done|]. exists read, value. auto.
Qed.

Lemma catch_std_result {A} (m : IO W A) h w w' x :
  catch_std m h w = (w', inr x) →
  m w = (w', inr x) ∨ ∃ w1 what, m w = (w1, inl (std_exception what)) ∧ h what w1 = (w', inr x).
Proof. unfold catch_std. destruct (m w) as [w1 [[]|]]; naive_solver. Qed.

Lemma write_back_result {T} encoded (value : T) (p p' : Proxy W Variant T) w w' :
  write_back encoded value p w = (w', inr p') →
  match writer p with
  | None => p' = p
  | Some write => ∃ written, write encoded w = (w', inr written) ∧
      p' = if written then set_last p value else p
  end.
Proof.
  unfold write_back. destruct (writer p) as [write|]; [|by intros [=]].
  unfold mbind, IO_bind. destruct (write encoded w) as [w1 [|written]]; [done|]. intros [= <- <-]. eauto.
Qed.

(** ** Lemmas: registration *)

Lemma sameRegistration_refl (protocol : TypeProtocol) : sameRegistration protocol protocol = true.
Proof. unfold sameRegistration. by rewrite bool_decide_eq_true_2, String.eqb_refl. Qed.

Context `{EqDecision TypeInfo} `{TypeInfos TypeInfo R TypeProtocol}
  `{!TypeInfoLaws TypeInfo R TypeProtocol}.

Lemma registerTypeProtocolUnlocked_result frozen type_info protocol r error r' ok error' :
  registerTypeProtocolUnlocked frozen type_info protocol r error = (r', (ok, error')) →
  if ok then
    ∃ info p, type_info = Some info ∧ protocol = Some p ∧ registrationFingerprint p ≠ "" ∧
      registered_as r' info p ∧ (r' = r ∨ (ti_hasProtocol r info = false ∧ frozen = false ∧
        (r', true) = ti_addProtocol r info p)) ∧ error' = clearError error
  else r' = r.
Proof.
  unfold registerTypeProtocolUnlocked, fail.
  destruct type_info as [info|], protocol as [p|]; [|by intros [= <- <- <-]..].
  destruct (str_empty (registrationFingerprint p)) eqn:Hf; [by intros [= <- <- <-]|].
  apply str_empty_false in Hf.
  destruct (ti_hasProtocol r info) eqn:Hhas.
  - destruct (ti_getProtocol r info) as [existing|] eqn:Hget; [|by intros [= <- <- <-]].
    destruct (sameRegistration existing p) eqn:Hsame; [|by intros [= <- <- <-]].
    intros [= <- <- <-]. exists info, p. split_and!; eauto. by split; eauto.
  - destruct frozen; [by intros [= <- <- <-]|].
    destruct (ti_addProtocol r info p) as [r1 added] eqn:Hadd. destruct added; simpl; intros [= <- <- <-].
    + destruct (addProtocol_true _ _ _ _ Hadd) as [Hhas' Hget].
      exists info, p. split_and!; eauto. split; [done|]. eauto using sameRegistration_refl.
    + by eapply addProtocol_false.
Qed.

Lemma registered_register frozen info protocol r error :
  registered_as r info protocol → registrationFingerprint protocol ≠ "" →
  registerTypeProtocolUnlocked frozen (Some info) (Some protocol) r error = (r, (true, clearError error)).
Proof.
  intros (Hhas & existing & Hget & Hsame) Hf. unfold registerTypeProtocolUnlocked.
  apply str_empty_false in Hf. by rewrite Hf, Hhas, Hget, Hsame.
Qed.

(** ** Properties *)

(** C22: every canonical descriptor has a protocol; it refers to the descriptor's
    data type, binds to the native type of that id, and the codec it binds has
    the same id and value flag.  The codec carries every representable value of
    the RTT type unchanged, and the one of Void carries nothing. *)
Theorem canonical_codec_roundtrip descriptor native error
    (Hin : descriptor ∈ canonicalTypeDescriptors char_is_signed os_rt_malloc)
    (Hnative : native_typeId native = nodeid_datatype (data_type descriptor)) :
  ∃ (protocol : TypeProtocol) codec,
    makeCanonicalProtocol char_is_signed os_rt_malloc (rtt_name descriptor) = Some protocol ∧
    dataType protocol = ref_builtin (nodeid_datatype (data_type descriptor)) ∧
    protocol_bind protocol (nodeid_datatype (data_type descriptor)) native error =
      (Some codec, clearError error) ∧
    dataTypeNodeId codec = nodeid_datatype (data_type descriptor) ∧
    hasValue codec = has_value descriptor ∧
    match canonical_instance (rtt_name descriptor) with
    | Some kind => ∀ x, canonical_representable kind x = true →
        codec_carries codec (canonical_rtt kind) x
    | None => ∀ source value old w, toVariant codec source old w = (w, inr (false, old)) ∧
        assignVariant codec value source w = (w, inr false) ∧
        makeDataSource codec value w = (w, inr None)
    end.
Proof.
  pose proof (canonical_tables descriptor Hin) as Htables.
  unfold makeCanonicalProtocol. rewrite (proj1 (descriptorForType_spec _ _ _) Hin).
  assert (Hsame : negb (bool_decide (nodeid_datatype (data_type descriptor) =
      nodeid_datatype (data_type descriptor))) ||
    negb (bool_decide (native_typeId native = nodeid_datatype (data_type descriptor))) = false)
    by (by rewrite !bool_decide_eq_true_2).
  destruct (canonical_instance (rtt_name descriptor)) as [[t|t]|].
  - destruct Htables as [Hd Hv]. do 2 eexists. split_and!; try done.
    + simpl. unfold bind_checked. by rewrite Hsame.
    + done.
    + rewrite Hv. done.
    + rewrite Hd. intros x. apply scalar_codec_carries.
  - destruct Htables as (Hd & Ht & Hv). do 2 eexists. split_and!; try done.
    + simpl. unfold bind_checked. by rewrite Hsame.
    + done.
    + rewrite Hv. done.
    + rewrite Hd. intros x _. by apply array_codec_carries.
  - destruct Htables as (Hn & Hd & Hv). rewrite Hn, Hd in *.
    exists VoidTypeProtocol, (VoidTypeCodec (nodeid_datatype dt_BaseDataType)).
    split_and!; [done|done| |done|by rewrite Hv|done].
    simpl. unfold bind_checked. by rewrite Hsame.
Qed.

(** A variant that is not a scalar of the codec's type, or whose wire value
    is not one of the type's (a task state out of range), is rejected: nothing
    is assigned, no data source is made and a proxy does not decode it. *)
Theorem scalar_codec_rejects t id value destination w
    (Hbad : variant_isScalar value = false ∨ variant_isType value id = false ∨
      ∀ wire, variant_to_scalar (wire_of t) value = Some wire →
        isValidScalarWireValue char_is_signed t wire = false) :
  assignVariant (ScalarTypeCodec char_is_signed t id) value destination w = (w, inr false) ∧
  makeDataSource (ScalarTypeCodec char_is_signed t id) value w = (w, inr None) ∧
  decodeScalar char_is_signed t value id = None.
Proof.
  assert (scalar_decode char_is_signed t id value = None ∧
    decodeScalar char_is_signed t value id = None) as [Hnone Hnone2].
  { unfold scalar_decode, decodeScalar, scalar_isCompatible.
    destruct Hbad as [->|[->|Hbad]]; [done|by rewrite andb_false_r, orb_true_r|].
    destruct (variant_to_scalar (wire_of t) value) as [wire|]; simpl.
    - rewrite (Hbad wire eq_refl). by repeat case_match.
    - by repeat case_match. }
  split_and!; [| |done]; simpl.
  - unfold scalar_assignVariant. rewrite Hnone. by case_match.
  - unfold scalar_makeDataSource. by rewrite Hnone.
Qed.

(** [last_value_] of a scalar proxy is what was last read or written with
    success: [evaluate] replaces it exactly when the reader delivered a variant
    that decodes to the new value, [set] exactly when the value is valid and
    the writer accepted its encoding, [get] returns it after an evaluation, and
    otherwise the proxy is unchanged. *)
Theorem scalar_proxy_tracks t id (p p' : Proxy W Variant (cpp t)) w w' :
  let proxy := ScalarAssignableProxyDataSource char_is_signed t id in
  (∀ ok, class_evaluate _ proxy p w = (w', inr (p', ok)) →
     ok = true ∧ (∃ read value, reader p = Some read ∧ read w = (w', inr (Some value)) ∧
       decodeScalar char_is_signed t value id = Some (last_value p') ∧ p' = set_last p (last_value p')) ∨
     ok = false ∧ p' = p) ∧
  (∀ x, class_get _ proxy p w = (w', inr (p', x)) →
     x = last_value p' ∧ ∃ ok, class_evaluate _ proxy p w = (w', inr (p', ok))) ∧
  (∀ set x, class_set _ proxy = Some set → set x p w = (w', inr p') →
     isValidScalarValue t x = true ∧ p' = set_last p x ∧
       (∃ write, writer p = Some write ∧
          write (variant_scalar (wire_of t) (encodeScalar t x)) w = (w', inr true)) ∨
     p' = p).
Proof.
  intros proxy. split_and!.
  - intros ok [Hr|(w1 & what & _ & [= <- <- <-])]%catch_std_result; [|auto].
    by apply refresh_body_result in Hr.
  - simpl. unfold proxy_get, proxy_evaluate, mbind, IO_bind. intros x Hget.
    destruct (scalar_refresh char_is_signed t id p w) as [w1 [|[p1 ok]]]; [done|].
    injection Hget as <- <- <-. eauto.
  - intros set x [= <-] [Hs|(w1 & what & _ & [= <- <-])]%catch_std_result; [|auto].
    destruct (isValidScalarValue t x); simpl in Hs; [|injection Hs as <- <-; auto].
    apply write_back_result in Hs. destruct (writer p) as [write|]; [|auto].
    destruct Hs as ([] & Hw & ->); [left|auto]. eauto.
Qed.

(** A real-time string travels up to its first NUL only, so it is carried
    unchanged exactly when it has none. *)
Theorem rt_string_truncated (x : string) source w old
    (Hsource : ds_holds (rtt_scalar cpp_rt_string) source x w) :
  let codec := ScalarTypeCodec (DS := DS) (Port := Port) char_is_signed cpp_rt_string (nodeid_datatype dt_String) in
  ∃ value, toVariant codec (Some source) (Some old) w = (w, inr (true, Some value)) ∧
    (∃ w' ds, makeDataSource codec value w = (w', inr (Some ds)) ∧
       ds_holds (rtt_scalar cpp_rt_string) ds (c_str x) w') ∧
    (c_str x = x ↔ str_contains Ascii.zero x = false).
Proof.
  intros codec. destruct Hsource as (His & _ & Hval & Heval).
  exists (variant_scalar cpp_string (c_str x)). split_and!; [| |apply c_str_no_nul].
  - simpl. unfold scalar_toVariant, typed_source. simpl. rewrite His. simpl.
    unfold mbind, IO_bind. rewrite Heval. simpl. by rewrite Hval.
  - simpl. unfold scalar_makeDataSource.
    pose proof (scalar_decode_encode cpp_rt_string x eq_refl) as Hd. simpl in Hd.
    rewrite Hd, c_str_idemp. pose proof (ds_new_holds (rtt_scalar cpp_rt_string) (c_str x) w) as Hnew.
    destruct (ds_new (rtt_scalar cpp_rt_string) (c_str x) w) as [w' ds]. eauto.
Qed.

(** A registration that succeeds leaves the type info with a protocol of
    the same data type and fingerprint, having added the new one only if there
    was none and the registry was not frozen; a registration that fails changes
    nothing.  Repeating a successful one succeeds, frozen or not, and changes
    nothing. *)
Theorem registerTypeProtocol_correct frozen type_info (protocol : option TypeProtocol) r error r' ok error'
    (Hreg : registerTypeProtocol frozen type_info protocol r error = (r', (ok, error'))) :
  if ok then
    ∃ info p, type_info = Some info ∧ protocol = Some p ∧ registered_as r' info p ∧
      (r' = r ∨ (ti_hasProtocol r info = false ∧ frozen = false ∧ (r', true) = ti_addProtocol r info p)) ∧
      error' = clearError error ∧
      ∀ later_frozen later_error, registerTypeProtocol later_frozen type_info protocol r' later_error =
        (r', (true, clearError later_error))
  else r' = r.
Proof.
  apply registerTypeProtocolUnlocked_result in Hreg. destruct ok; [|done].
  destruct Hreg as (info & p & -> & -> & Hf & Hregd & Hcase & ->).
  exists info, p. split_and!; auto. intros. by apply registered_register.
Qed.
End codec_facts.

(** ** Witnesses *)

Lemma canonical_codec_roundtrip_witness :
  ∃ (protocol : TypeProtocol c_World c_DS c_DS (c_Variant unit) c_NodeId c_NodeId) codec,
    makeCanonicalProtocol (Wire := unit) true true "TaskState" = Some protocol ∧
    dataType protocol = ref_builtin (0%N, inl dt_Int32) ∧
    protocol_bind protocol (0%N, inl dt_Int32) (0%N, inl dt_Int32) (Some "old") =
      (Some codec, Some "") ∧
    dataTypeNodeId codec = (0%N, inl dt_Int32) ∧ hasValue codec = true ∧
    ∀ x : Z, canonical_representable (inl cpp_TaskState) x = true →
      codec_carries codec (rtt_scalar cpp_TaskState) x.
Proof.
  refine (canonical_codec_roundtrip (Wire := unit) (DataType := c_DataType) true true
    (descriptor "TaskState" dt_Int32 true) (0%N, inl dt_Int32) (Some "old") _ _); [|reflexivity].
  unfold canonicalTypeDescriptors. set_solver.
Defined.

(** A task state code of 7 is rejected. *)
Lemma scalar_codec_rejects_witness :
  let codec := ScalarTypeCodec (DS := c_DS) (Port := c_DS) (Wire := unit) true cpp_TaskState
    (0%N, inl dt_Int32) in
  assignVariant codec (cv_scalar cpp_int32 7%Z) None ∅ = (∅, inr false) ∧
  makeDataSource codec (cv_scalar cpp_int32 7%Z) ∅ = (∅, inr None) ∧
  decodeScalar (Wire := unit) true cpp_TaskState (cv_scalar cpp_int32 7%Z) (0%N, inl dt_Int32) = None.
Proof.
  refine (scalar_codec_rejects (Wire := unit) true cpp_TaskState (0%N, inl dt_Int32)
    (cv_scalar cpp_int32 7%Z) None ∅ _).
  right. right. intros wire Hw. vm_compute in Hw. injection Hw as <-. reflexivity.
Defined.

Lemma rt_string_truncated_witness :
  let x := String "a" (String Ascii.zero "b") in
  let w := (<[0 := existT (rtt_scalar cpp_rt_string) x]> ∅ : c_World) in
  let codec := ScalarTypeCodec (DS := c_DS) (Port := c_DS) (Wire := unit) true cpp_rt_string
    (0%N, inl dt_String) in
  ∃ value, toVariant codec (Some (rtt_scalar cpp_rt_string, 0)) (Some (cv_scalar cpp_bool true)) w =
      (w, inr (true, Some value)) ∧
    (∃ w' ds, makeDataSource codec value w = (w', inr (Some ds)) ∧
       ds_holds (rtt_scalar cpp_rt_string) ds (c_str x) w') ∧
    (c_str x = x ↔ str_contains Ascii.zero x = false).
Proof.
  refine (rt_string_truncated (Wire := unit) (DataType := c_DataType) true
    (String "a" (String Ascii.zero "b")) (rtt_scalar cpp_rt_string, 0) _ (cv_scalar cpp_bool true) _).
  repeat split; reflexivity.
Defined.

Lemma registerTypeProtocol_correct_witness :
  let protocol := ScalarTypeProtocol (DS := c_DS) (Port := c_DS) (Wire := unit) true cpp_bool
    (0%N, inl dt_Boolean) "v1" in
  let r : c_Repository (TypeProtocol c_World c_DS c_DS (c_Variant unit) c_NodeId c_NodeId) :=
    ({["bool" := "bool"]}, ∅) in
  let r' := ({["bool" := "bool"]}, {["bool" := protocol]}) in
  ∃ info p, Some "bool" = Some info ∧ Some protocol = Some p ∧ registered_as r' info p ∧
    (r' = r ∨ (ti_hasProtocol r info = false ∧ false = false ∧ (r', true) = ti_addProtocol r info p)) ∧
    None = clearError None ∧
    ∀ later_frozen later_error, registerTypeProtocol later_frozen (Some "bool") (Some protocol) r' later_error =
      (r', (true, clearError later_error)).
Proof.
  intros protocol r r'.
  refine (registerTypeProtocol_correct false (Some "bool") (Some protocol) r None r' true None _).
  reflexivity.
Defined.
