(* ===== verification/ConnPolicyProtocol.v ===== *)
(** The ConnPolicy codec, its data type provider and the registration of the
    canonical protocols (src/src/conn_policy_protocol.cpp and the end of
    src/src/type_protocol.cpp). *)

From S2P Require Import Prelude Native Concrete TypeDescriptor DataTypeRegistry TypeProtocol.

(** ** The wire structure *)

Record ConnPolicyWire (UaString : Type) := {
  wire_type_ : Z;
  wire_size : Z;
  wire_lock_policy : Z;
  wire_init : bool;
  wire_pull : bool;
  wire_buffer_policy : Z;
  wire_max_threads : Z;
  wire_mandatory : bool;
  wire_transport : Z;
  wire_data_size : Z;
  wire_name_id : UaString;
}.
Arguments wire_type_ {_} _.
Arguments wire_size {_} _.
Arguments wire_lock_policy {_} _.
Arguments wire_init {_} _.
Arguments wire_pull {_} _.
Arguments wire_buffer_policy {_} _.
Arguments wire_max_threads {_} _.
Arguments wire_mandatory {_} _.
Arguments wire_transport {_} _.
Arguments wire_data_size {_} _.
Arguments wire_name_id {_} _.

Definition connPolicyDataTypeId : LogicalDataTypeId :=
  {| id_namespace_uri := "urn:orocos:rtt"; type_node_id := "types/ConnPolicy";
     binary_encoding_node_id := "encodings/ConnPolicy/Binary" |}.

(** [static_cast<std::int32_t>]. *)
Definition int32_cast (value : Z) : Z := (value + 2 ^ 31) mod 2 ^ 32 - 2 ^ 31.

(** The field names given to the builder, in order. *)
Definition conn_policy_fields : list string :=
  ["type"; "size"; "lock_policy"; "init"; "pull"; "buffer_policy"; "max_threads"; "mandatory";
   "transport"; "data_size"; "name_id"].

Section conn_policy.
Context (char_is_signed os_rt_malloc : bool).
Context {W DS Port Variant NodeId UA_DataType DataType UaString TypeInfo R : Type}.
Notation Wire := (ConnPolicyWire UaString).
Context `{TaskStates} `{NodeIds NodeId} `{DataTypes NodeId UA_DataType DataType}.
Context `{UaStrings UaString} `{DataTypeBuilder NodeId DataType}.
Context `{!Variants Variant NodeId UA_DataType Wire} `{DataSources W DS Port}.

Notation VariantReader := (VariantReader W Variant).
Notation VariantWriter := (VariantWriter W Variant).
Notation Proxy := (Proxy W Variant).
Notation ProxyDataSource := (ProxyDataSource W Variant NodeId UA_DataType).
Notation TypeCodec := (TypeCodec W DS Port Variant NodeId UA_DataType).
Notation TypeProtocol := (TypeProtocol W DS Port Variant NodeId UA_DataType).
Notation RegistryState := (RegistryState UA_DataType DataType).

Definition toWire (policy : ConnPolicy) : Wire :=
  {| wire_type_ := int32_cast (cp_type policy);
     wire_size := int32_cast (cp_size policy);
     wire_lock_policy := int32_cast (cp_lock_policy policy);
     wire_init := cp_init policy;
     wire_pull := cp_pull policy;
     wire_buffer_policy := int32_cast (cp_buffer_policy policy);
     wire_max_threads := int32_cast (cp_max_threads policy);
     wire_mandatory := cp_mandatory policy;
     wire_transport := int32_cast (cp_transport policy);
     wire_data_size := int32_cast (cp_data_size policy);
     wire_name_id := ua_string (cp_name_id policy) |}.

Definition fromWire (wire : Wire) : ConnPolicy :=
  {| cp_type := wire_type_ wire;
     cp_size := wire_size wire;
     cp_lock_policy := wire_lock_policy wire;
     cp_init := wire_init wire;
     cp_pull := wire_pull wire;
     cp_buffer_policy := wire_buffer_policy wire;
     cp_max_threads := wire_max_threads wire;
     cp_mandatory := wire_mandatory wire;
     cp_transport := wire_transport wire;
     cp_data_size := wire_data_size wire;
     cp_name_id := ua_string_view (wire_name_id wire) |}.

Definition decodeConnPolicy (value : Variant) (data_type : NodeId) : option ConnPolicy :=
  if negb (variant_isScalar value) || negb (variant_isType value data_type) then None
  else fromWire <$> variant_data value.

(** ** Proxies: [refresh] has no [try], so a throwing reader is passed on *)

Definition conn_policy_refresh (data_type : NodeId) (p : Proxy ConnPolicy) :
    IO W (Proxy ConnPolicy * bool) :=
  refresh_body (λ value, decodeConnPolicy value data_type) p.

(** [native_type_] of a proxy made by a codec may be null. *)
Definition conn_policy_set (native : option UA_DataType) (value : ConnPolicy) (p : Proxy ConnPolicy) :
    IO W (Proxy ConnPolicy) :=
  catch_std
    (match writer p, native with
     | Some _, Some native => write_back (variant_structure (toWire value) native) value p
     | _, _ => mret p
     end)
    (λ _, mret p).

Definition conn_policy_updated (native : option UA_DataType) (p : Proxy ConnPolicy) :
    IO W (Proxy ConnPolicy) :=
  conn_policy_set native (last_value p) p.

(** [RTT::ConnPolicy policy;]. *)
Context (default_conn_policy : ConnPolicy).

Definition ConnPolicyProxyDataSource (data_type : NodeId) : ProxyClass ConnPolicy :=
  {| class_get := proxy_get (conn_policy_refresh data_type);
     class_value := proxy_value;
     class_evaluate := proxy_evaluate (conn_policy_refresh data_type);
     class_clone := proxy_clone default_conn_policy;
     class_copy := proxy_copy;
     class_set := None; class_set_reference := None; class_updated := None |}.

Definition ConnPolicyAssignableProxyDataSource (data_type : NodeId) (native : option UA_DataType) :
    ProxyClass (W := W) (Variant := Variant) ConnPolicy :=
  {| class_get := proxy_get (conn_policy_refresh data_type);
     class_value := proxy_value;
     class_evaluate := proxy_evaluate (conn_policy_refresh data_type);
     class_clone := proxy_clone default_conn_policy;
     class_copy := proxy_copy;
     class_set := Some (conn_policy_set native);
     class_set_reference := Some (proxy_get (conn_policy_refresh data_type));
     class_updated := Some (conn_policy_updated native) |}.

(** ** Codec *)

Definition conn_policy_toVariant (native : UA_DataType) (source : option DS) (value : option Variant) :
    IO W (bool * option Variant) :=
  match typed_source rtt_ConnPolicy source, value with
  | Some typed, Some _ =>
      catch_std
        (_ ← ds_evaluate typed;
         local_value ← io_gets (ds_value rtt_ConnPolicy typed);
         mret (true, Some (variant_structure (toWire local_value) native)))
        (λ _, mret (false, value))
  | _, _ => mret (false, value)
  end.

Definition conn_policy_assignVariant (data_type : NodeId) (value : Variant) (destination : option DS) :
    IO W bool :=
  match typed_destination rtt_ConnPolicy destination, decodeConnPolicy value data_type with
  | Some typed, Some decoded => _ ← ds_set rtt_ConnPolicy typed decoded; mret true
  | _, _ => mret false
  end.

Definition conn_policy_makeDataSource (data_type : NodeId) (value : Variant) : IO W (option DS) :=
  match decodeConnPolicy value data_type with
  | Some decoded => λ w, let '(w', ds) := ds_new rtt_ConnPolicy decoded w in (w', inr (Some ds))
  | None => mret None
  end.

Definition conn_policy_makeProxyDataSource (data_type : NodeId) (native : UA_DataType)
    (reader : option VariantReader) (writer : option VariantWriter) : option ProxyDataSource :=
  match reader with
  | None => None
  | Some read => Some (proxy_conn_policy data_type native (makeProxy default_conn_policy read writer))
  end.

Definition conn_policy_portValue (native : UA_DataType) (port : option Port) (value : option Variant)
    (w : W) : PortValueStatus * option Variant :=
  match typed_port rtt_ConnPolicy port, value with
  | Some typed, Some _ =>
      match port_last rtt_ConnPolicy typed w with
      | None => (pv_waiting_for_initial_data, value)
      | Some sample => (pv_value, Some (variant_structure (toWire sample) native))
      end
  | _, _ => (pv_error, value)
  end.

(** The codec [bind] makes, whose native type is never null. *)
Definition ConnPolicyTypeCodec (data_type : NodeId) (native : UA_DataType) : TypeCodec :=
  {| dataTypeNodeId := data_type; valueRank := vr_Scalar; hasValue := true;
     toVariant := conn_policy_toVariant native;
     assignVariant := conn_policy_assignVariant data_type;
     makeDataSource := conn_policy_makeDataSource data_type;
     makeProxyDataSource := conn_policy_makeProxyDataSource data_type native;
     portValue := conn_policy_portValue native |}.

Definition ConnPolicyTypeProtocol (data_type : LogicalDataTypeId) : TypeProtocol :=
  {| dataType := ref_logical data_type;
     registrationFingerprint := "rtt-opcua/ConnPolicy/v1";
     protocol_bind type native_type error :=
       if negb (bool_decide (native_typeId native_type = type))
       then (None, assignError error "OPC UA ConnPolicy protocol datatype mismatch")
       else (Some (ConnPolicyTypeCodec type native_type), clearError error) |}.

(** ** Provider *)

(** [DataTypeFactoryContext::nodeId]. *)
Definition factory_nodeId (context : DataTypeFactoryContext UA_DataType) (id : LogicalDataTypeId) :
    exn + NodeId :=
  match factory_namespaceIndex context (id_namespace_uri id) with
  | inl e => inl e
  | inr index => inr (nodeid_string index (type_node_id id))
  end.

Definition materializeConnPolicy (context : DataTypeFactoryContext UA_DataType) : exn + DataType :=
  match factory_nodeId context connPolicyDataTypeId, factory_namespaceIndex context "urn:orocos:rtt" with
  | inr type, inr index =>
      inr (build_structure "ConnPolicy" type (nodeid_string index "encodings/ConnPolicy/Binary")
             conn_policy_fields)
  | inl e, _ => inl e
  | _, inl e => inl e
  end.

Definition makeConnPolicyProvider : DataTypeProvider UA_DataType DataType :=
  {| provider_name := "rtt-foundation";
     provider_namespace_uri := "urn:orocos:rtt";
     dependencies := [];
     data_types :=
       [{| def_name := "ConnPolicy"; def_id := connPolicyDataTypeId; def_kind := structure;
           schema_fingerprint := "rtt-opcua/ConnPolicy/v1";
           materialize := Some materializeConnPolicy |}] |}.

(** ** Registration

    The state is that of the type repository and of the data type registry. *)
Context `{TypeInfos TypeInfo R TypeProtocol}.

Definition registerConnPolicyProtocol (type_info : option TypeInfo) (state : R * RegistryState)
    (error : option string) : R * RegistryState * (bool * option string) :=
  let '(r, registry) := state in
  match type_info with
  | None => (r, registry, fail error "invalid OPC UA ConnPolicy protocol registration")
  | Some info =>
      if negb (String.eqb (ti_getTypeName info) "ConnPolicy")
      then (r, registry, fail error "invalid OPC UA ConnPolicy protocol registration")
      else
        let '(registry, registered, error) :=
          registerDataTypeProvider registry makeConnPolicyProvider error in
        if negb registered then (r, registry, (false, error))
        else
          let '(r, result) :=
            registerTypeProtocol (dataTypeRegistryFrozen registry) type_info
              (Some (ConnPolicyTypeProtocol connPolicyDataTypeId)) r error in
          (r, registry, result)
  end.

Definition registerCanonicalTypeProtocol (type_name : string) (type_info : option TypeInfo)
    (state : R * RegistryState) (error : option string) : R * RegistryState * (bool * option string) :=
  if String.eqb type_name "ConnPolicy" then registerConnPolicyProtocol type_info state error
  else
    let '(r, registry) := state in
    let '(r, result) :=
      registerBuiltinTypeProtocol char_is_signed os_rt_malloc (dataTypeRegistryFrozen registry)
        type_name type_info r error in
    (r, registry, result).

(** The loop over the descriptors. *)
Fixpoint registerDescriptors (descriptors : list TypeDescriptor) (state : R * RegistryState)
    (error : option string) : R * RegistryState * (bool * option string) :=
  match descriptors with
  | [] => (state, (true, error))
  | descriptor :: descriptors' =>
      match registerCanonicalTypeProtocol (rtt_name descriptor) (types_type state.1 (rtt_name descriptor))
              state error with
      | (state, (false, error)) => (state, (false, error))
      | (state, (true, error)) => registerDescriptors descriptors' state error
      end
  end.

Definition registerCanonicalTypeProtocols (state : R * RegistryState) (error : option string) :
    R * RegistryState * (bool * option string) :=
  match registerDescriptors (canonicalTypeDescriptors char_is_signed os_rt_malloc) state error with
  | (state, (false, error)) => (state, (false, error))
  | (state, (true, error)) => registerConnPolicyProtocol (types_type state.1 "ConnPolicy") state error
  end.

(** The transport plugin of RTT's own types (type_transport_plugin.cpp). *)
Definition registerTransport (type_name : string) (type_info : option TypeInfo) (state : R * RegistryState) :
    R * RegistryState * bool :=
  let '(state, (registered, _)) := registerCanonicalTypeProtocol type_name type_info state None in
  (state, registered).

(** ** Specification *)

(** The members are [int]s of 32 bits. *)
Definition int32 (value : Z) : bool := (- 2 ^ 31 <=? value)%Z && (value <? 2 ^ 31)%Z.
Definition conn_policy_in_range (policy : ConnPolicy) : bool :=
  forallb int32 [cp_type policy; cp_size policy; cp_lock_policy policy; cp_buffer_policy policy;
    cp_max_threads policy; cp_transport policy; cp_data_size policy].

(** Everything [registerCanonicalTypeProtocols] is to establish. *)
Definition canonical_registered (state : R * RegistryState) : Prop :=
  (∀ descriptor, descriptor ∈ canonicalTypeDescriptors char_is_signed os_rt_malloc →
     ∃ info protocol, types_type state.1 (rtt_name descriptor) = Some info ∧ ti_getTypeName info = rtt_name descriptor ∧
       makeCanonicalProtocol char_is_signed os_rt_malloc (rtt_name descriptor) = Some protocol ∧
       registered_as state.1 info protocol) ∧
  (∃ info, types_type state.1 "ConnPolicy" = Some info ∧ ti_getTypeName info = "ConnPolicy" ∧
     registered_as state.1 info (ConnPolicyTypeProtocol connPolicyDataTypeId)) ∧
  (∃ provider, providers state.2 !! "rtt-foundation" = Some provider ∧
     sameProvider provider makeConnPolicyProvider = true).
End conn_policy.

Definition getTransportName : string := "OPCUA".
Definition getTypekitName : string := "rtt-types".
Definition transport_getName : string := "OPCUA://rtt-types".

(** ** Lemmas: the wire structure *)

Lemma int32_cast_id value : int32 value = true → int32_cast value = value.
Proof.
  unfold int32, int32_cast. intros [Hlo%Z.leb_le Hhi%Z.ltb_lt]%andb_true_iff.
  rewrite Z.mod_small by lia. lia.
Qed.

Section conn_policy_facts.
Context (char_is_signed os_rt_malloc : bool).
Context {W DS Port Variant NodeId UA_DataType DataType UaString TypeInfo R : Type}.
Notation Wire := (ConnPolicyWire UaString).
Context `{TaskStates} `{NodeIds NodeId} `{!NodeIdLaws NodeId} `{DataTypes NodeId UA_DataType DataType}.
Context `{UaStrings UaString} `{!UaStringLaws UaString} `{DataTypeBuilder NodeId DataType}.
Context `{!Variants Variant NodeId UA_DataType Wire}
  `{!VariantLaws Variant NodeId UA_DataType DataType Wire}.
Context `{DataSources W DS Port} `{!DataSourceLaws W DS Port}.
Context (default_conn_policy : ConnPolicy).
Notation TypeProtocol := (TypeProtocol W DS Port Variant NodeId UA_DataType).
Notation RegistryState := (RegistryState UA_DataType DataType).

Lemma fromWire_toWire policy : conn_policy_in_range policy = true → fromWire (toWire policy) = policy.
Proof.
  unfold conn_policy_in_range. simpl. rewrite !andb_true_iff.
  intros (? & ? & ? & ? & ? & ? & ? & _). destruct policy. unfold fromWire, toWire. simpl in *.
  by rewrite ua_string_view_ua_string, !int32_cast_id.
Qed.

Lemma decodeConnPolicy_toWire policy native id :
  conn_policy_in_range policy = true → native_typeId native = id →
  decodeConnPolicy (variant_structure (toWire policy) native) id = Some policy.
Proof.
  intros Hp Hid. unfold decodeConnPolicy.
  rewrite variant_structure_isScalar, variant_structure_isType, bool_decide_eq_true_2 by done.
  simpl. rewrite variant_structure_data. simpl. by rewrite fromWire_toWire.
Qed.

Lemma conn_policy_codec_carries policy native id :
  conn_policy_in_range policy = true → native_typeId native = id →
  codec_carries (ConnPolicyTypeCodec default_conn_policy id native) rtt_ConnPolicy policy.
Proof.
  intros Hp Hid source destination old w y (His & _ & Hval & Heval) Hdst.
  exists (variant_structure (toWire policy) native). split_and!.
  - simpl. unfold conn_policy_toVariant, typed_source. simpl. rewrite His. simpl.
    unfold catch_std, mbind, IO_bind. rewrite Heval. simpl. by rewrite Hval.
  - simpl. unfold conn_policy_assignVariant, typed_destination. simpl.
    destruct (ds_set_holds _ _ y policy w Hdst) as (w' & Hset & Hholds).
    destruct Hdst as (_ & Hass & _). rewrite Hass, decodeConnPolicy_toWire by done.
    exists w'. split; [|done]. unfold mbind, IO_bind. by rewrite Hset.
  - simpl. unfold conn_policy_makeDataSource. rewrite decodeConnPolicy_toWire by done.
    pose proof (ds_new_holds rtt_ConnPolicy policy w) as Hnew.
    destruct (ds_new rtt_ConnPolicy policy w) as [w' ds]. eauto.
Qed.

(** ** Lemmas: registration *)

Context `{EqDecision TypeInfo} `{TypeInfos TypeInfo R TypeProtocol}
  `{!TypeInfoLaws TypeInfo R TypeProtocol}.

Notation registerConnPolicyProtocol := (registerConnPolicyProtocol default_conn_policy).
Notation registerCanonicalTypeProtocol :=
  (registerCanonicalTypeProtocol char_is_signed os_rt_malloc default_conn_policy).
Notation registerCanonicalTypeProtocols :=
  (registerCanonicalTypeProtocols char_is_signed os_rt_malloc default_conn_policy).
Notation registerDescriptors := (registerDescriptors char_is_signed os_rt_malloc default_conn_policy).
Notation makeCanonicalProtocol := (makeCanonicalProtocol char_is_signed os_rt_malloc).

(** Registrations keep the names and what is registered. *)
Definition registrations_kept (r r' : R) : Prop :=
  (∀ name, types_type r' name = types_type r name) ∧
  ∀ info (protocol : TypeProtocol), registered_as r info protocol → registered_as r' info protocol.

#[global] Instance registrations_kept_preorder : PreOrder registrations_kept.
Proof.
  split; [by intros r|]. intros r1 r2 r3 [Ht1 Hr1] [Ht2 Hr2]. split; [|auto].
  intros name. by rewrite Ht2.
Qed.

Lemma register_keeps frozen type_info (protocol : option TypeProtocol) r error :
  registrations_kept r (registerTypeProtocolUnlocked frozen type_info protocol r error).1.
Proof.
  destruct (registerTypeProtocolUnlocked _ _ _ _ _) as [r' [ok error']] eqn:Hreg. simpl.
  apply registerTypeProtocolUnlocked_result in Hreg. destruct ok; [|by subst].
  destruct Hreg as (info & p & _ & _ & _ & Hinfo & [->|(Hhas & _ & Hadd)] & _); [done|].
  replace r' with (ti_addProtocol r info p).1 in * by (by rewrite <-Hadd). split.
  - intros name. apply addProtocol_types.
  - intros info' p' Hreg'. destruct (decide (info' = info)) as [->|Hne].
    { destruct Hreg' as [Hhas' _]. congruence. }
    destruct (addProtocol_other r info p info') as [Hh Hg]; [done|].
    unfold registered_as in *. by rewrite Hh, Hg.
Qed.

Lemma canonical_fingerprint_nonempty name protocol :
  makeCanonicalProtocol name = Some protocol → registrationFingerprint protocol ≠ "".
Proof. unfold makeCanonicalProtocol. intros Hp. by repeat (case_match; simplify_eq/=). Qed.

Lemma canonical_protocol_exists descriptor :
  descriptor ∈ canonicalTypeDescriptors char_is_signed os_rt_malloc →
  ∃ protocol : TypeProtocol, makeCanonicalProtocol (rtt_name descriptor) = Some protocol.
Proof.
  intros Hin. pose proof (canonical_tables char_is_signed os_rt_malloc descriptor Hin) as Ht.
  apply descriptorForType_spec in Hin. unfold makeCanonicalProtocol. rewrite Hin.
  destruct (canonical_instance _) as [[]|]; [eauto..|]. destruct Ht as [-> _]. simpl. eauto.
Qed.

Lemma not_conn_policy descriptor :
  descriptor ∈ canonicalTypeDescriptors char_is_signed os_rt_malloc →
  String.eqb (rtt_name descriptor) "ConnPolicy" = false.
Proof.
  intros Hin. apply String.eqb_neq. intros Hname.
  apply descriptorForType_spec in Hin. rewrite Hname in Hin. by destruct os_rt_malloc.
Qed.

(** One round of the loop, for the first and for a repeated registration. *)
Lemma registerDescriptor_once descriptor type_info r registry error r' registry' ok error' :
  descriptor ∈ canonicalTypeDescriptors char_is_signed os_rt_malloc →
  registerCanonicalTypeProtocol (rtt_name descriptor) type_info (r, registry) error =
    (r', registry', (ok, error')) →
  registry' = registry ∧ registrations_kept r r' ∧
  (ok = true → ∃ info protocol, type_info = Some info ∧ ti_getTypeName info = rtt_name descriptor ∧
     makeCanonicalProtocol (rtt_name descriptor) = Some protocol ∧ registered_as r' info protocol ∧
     error' = clearError error).
Proof.
  intros Hin. unfold registerCanonicalTypeProtocol. rewrite not_conn_policy by done.
  unfold registerBuiltinTypeProtocol. rewrite (proj1 (descriptorForType_spec _ _ _) Hin).
  destruct type_info as [info|]; [|by intros [= <- <- <- <-]].
  destruct (String.eqb_spec (ti_getTypeName info) (rtt_name descriptor)) as [Hname|]; cbn [negb];
    [|by intros [= <- <- <- <-]].
  pose proof (register_keeps (dataTypeRegistryFrozen registry) (Some info)
    (makeCanonicalProtocol (rtt_name descriptor)) r error) as Hkeep.
  destruct (registerTypeProtocolUnlocked _ _ _ _ _) as [r1 [ok1 error1]] eqn:Hreg.
  intros [= <- <- <- <-]. split_and!; [done|done|]. intros ->.
  apply registerTypeProtocolUnlocked_result in Hreg.
  destruct Hreg as (info' & p & [= <-] & Hp & _ & Hinfo & _ & ->). eauto 10.
Qed.

Lemma registerDescriptor_again descriptor info protocol r registry error :
  descriptor ∈ canonicalTypeDescriptors char_is_signed os_rt_malloc →
  types_type r (rtt_name descriptor) = Some info → ti_getTypeName info = rtt_name descriptor →
  makeCanonicalProtocol (rtt_name descriptor) = Some protocol → registered_as r info protocol →
  registerCanonicalTypeProtocol (rtt_name descriptor) (types_type r (rtt_name descriptor))
    (r, registry) error = (r, registry, (true, clearError error)).
Proof.
  intros Hin Hinfo Hname Hp Hreg. unfold registerCanonicalTypeProtocol. rewrite not_conn_policy by done.
  unfold registerBuiltinTypeProtocol. rewrite (proj1 (descriptorForType_spec _ _ _) Hin), Hinfo.
  rewrite Hname, String.eqb_refl, Hp. cbn [negb].
  by rewrite registered_register by eauto using canonical_fingerprint_nonempty.
Qed.

Lemma registerDescriptors_once descriptors r registry error r' registry' error' :
  descriptors ⊆ canonicalTypeDescriptors char_is_signed os_rt_malloc →
  registerDescriptors descriptors (r, registry) error = (r', registry', (true, error')) →
  registry' = registry ∧ registrations_kept r r' ∧
  (∀ descriptor, descriptor ∈ descriptors → ∃ info protocol,
     types_type r' (rtt_name descriptor) = Some info ∧ ti_getTypeName info = rtt_name descriptor ∧
     makeCanonicalProtocol (rtt_name descriptor) = Some protocol ∧ registered_as r' info protocol).
Proof.
  revert r registry error. induction descriptors as [|d ds IH]; intros r registry error Hsub; csimpl.
  { intros [= <- <- <-]. split_and!; [done|done|set_solver]. }
  destruct (registerCanonicalTypeProtocol _ _ _ _) as [[r1 registry1] [[] error1]] eqn:Hone; [|done].
  apply registerDescriptor_once in Hone as (-> & Hk1 & Hok); [|apply Hsub; left]. intros Hrest.
  destruct (Hok eq_refl) as (info & protocol & Hinfo & Hname & Hp & Hreg & ->).
  apply IH in Hrest as (-> & Hk2 & Hall); [|intros x Hx; apply Hsub; by right].
  split_and!; [done|by etransitivity|].
  intros d' [->|Hd]%elem_of_cons; [|auto]. exists info, protocol.
  split_and!; [by rewrite (proj1 Hk2), (proj1 Hk1)|done|done|by apply Hk2].
Qed.

Lemma registerDescriptors_again descriptors r registry error :
  descriptors ⊆ canonicalTypeDescriptors char_is_signed os_rt_malloc →
  (∀ descriptor, descriptor ∈ descriptors → ∃ info protocol,
     types_type r (rtt_name descriptor) = Some info ∧ ti_getTypeName info = rtt_name descriptor ∧
     makeCanonicalProtocol (rtt_name descriptor) = Some protocol ∧ registered_as r info protocol) →
  ∃ error', registerDescriptors descriptors (r, registry) error = (r, registry, (true, error')) ∧
    clearError error' = clearError error.
Proof.
  revert error. induction descriptors as [|d ds IH]; intros error Hsub Hall; csimpl; [eauto|].
  destruct (Hall d) as (info & protocol & Hinfo & Hname & Hp & Hreg); [set_solver|].
  rewrite (registerDescriptor_again d info protocol) by (try done; set_solver).
  destruct (IH (clearError error)) as (error' & -> & He); [set_solver..|].
  exists error'. by rewrite He, clearError_idemp.
Qed.

Lemma conn_policy_sorted :
  sortDependencies (makeConnPolicyProvider (UA_DataType := UA_DataType) (DataType := DataType)) =
  makeConnPolicyProvider.
Proof. done. Qed.

Lemma registerConnPolicy_once type_info r (registry : RegistryState) error r' registry' error' :
  registerConnPolicyProtocol type_info (r, registry) error = (r', registry', (true, error')) →
  registrations_kept r r' ∧ registry' = (registerDataTypeProvider registry makeConnPolicyProvider error).1.1 ∧
  (∃ info, type_info = Some info ∧ ti_getTypeName info = "ConnPolicy" ∧ registered_as r' info
     (ConnPolicyTypeProtocol default_conn_policy connPolicyDataTypeId)) ∧
  (∃ provider, providers registry' !! "rtt-foundation" = Some provider ∧
     sameProvider provider makeConnPolicyProvider = true).
Proof.
  unfold registerConnPolicyProtocol. destruct type_info as [info|]; [|done].
  destruct (String.eqb_spec (ti_getTypeName info) "ConnPolicy"); cbn [negb]; [|done].
  pose proof (registered_lookup registry makeConnPolicyProvider error) as Hlook.
  destruct (registerDataTypeProvider _ _ _) as [[registry1 registered] error1]. simpl in Hlook.
  destruct registered; cbn [negb]; [|done].
  unfold registerTypeProtocol.
  pose proof (register_keeps (dataTypeRegistryFrozen registry1) (Some info)
    (Some (ConnPolicyTypeProtocol default_conn_policy connPolicyDataTypeId)) r error1) as Hkeep.
  destruct (registerTypeProtocolUnlocked _ _ _ _ _) as [r1 [ok error2]] eqn:Hreg.
  intros [= <- <- -> ->]. apply registerTypeProtocolUnlocked_result in Hreg as
    (info' & p & [= <-] & [= <-] & _ & Hinfo & _).
  split_and!; [done|done|eauto|]. by apply Hlook.
Qed.

Lemma registerConnPolicy_again r (registry : RegistryState) error info provider :
  types_type r "ConnPolicy" = Some info → ti_getTypeName info = "ConnPolicy" →
  registered_as r info (ConnPolicyTypeProtocol default_conn_policy connPolicyDataTypeId) →
  providers registry !! "rtt-foundation" = Some provider →
  sameProvider provider makeConnPolicyProvider = true →
  registerConnPolicyProtocol (types_type r "ConnPolicy") (r, registry) error =
    (r, registry, (true, clearError error)).
Proof.
  intros Hinfo Hname Hreg Hprov Hsame. unfold registerConnPolicyProtocol.
  rewrite Hinfo, Hname, String.eqb_refl. cbn [negb].
  rewrite (register_again _ _ _ provider) by done. cbn [negb]. unfold registerTypeProtocol.
  by rewrite registered_register, clearError_idemp by done.
Qed.

Lemma canonical_protocols_once r (registry : RegistryState) error state' error' :
  registerCanonicalTypeProtocols (r, registry) error = (state', (true, error')) →
  canonical_registered char_is_signed os_rt_malloc default_conn_policy state' ∧
  (∀ name, types_type state'.1 name = types_type r name).
Proof.
  unfold registerCanonicalTypeProtocols.
  destruct (registerDescriptors _ _ _) as [[r1 registry1] [[] error1]] eqn:Hds; [|done].
  apply registerDescriptors_once in Hds as (-> & [Ht1 Hr1] & Hall); [|done].
  intros Hcp. destruct state' as [r' registry'].
  apply registerConnPolicy_once in Hcp as ([Ht2 Hr2] & _ & (info & Hinfo & Hname & Hreg) & Hprov).
  split; [|intros name; by rewrite Ht2, Ht1]. split_and!; [|exists info; by rewrite Ht2|done].
  intros descriptor Hd. destruct (Hall descriptor Hd) as (i & p & Hi & Hn & Hp & Hreg').
  exists i, p. rewrite Ht2. auto.
Qed.

(** ** Properties *)

(** C37: a connection policy whose members are 32-bit integers is carried
    unchanged by the codec bound to its data type: converting to the wire
    structure and back is the identity. *)
Theorem conn_policy_roundtrip policy native id error
    (Hpolicy : conn_policy_in_range policy = true) (Hid : native_typeId native = id) :
  fromWire (toWire policy) = policy ∧
  ∃ codec, protocol_bind (ConnPolicyTypeProtocol (DS := DS) (Port := Port) default_conn_policy
      connPolicyDataTypeId) id native error = (Some codec, clearError error) ∧
    dataTypeNodeId codec = id ∧ codec_carries codec rtt_ConnPolicy policy.
Proof.
  split; [by apply fromWire_toWire|].
  exists (ConnPolicyTypeCodec default_conn_policy id native). split_and!; [|done|].
  - simpl. by rewrite bool_decide_eq_true_2.
  - by apply conn_policy_codec_carries.
Qed.

(** When [registerCanonicalTypeProtocols] succeeds, every canonical RTT type
    and ConnPolicy have their protocols and the data type provider of
    ConnPolicy is registered.  Calling it again at any later time, the data
    type registry possibly frozen, succeeds and changes nothing. *)
Theorem canonical_registration_complete r (registry : RegistryState) error state' error'
    (Hreg : registerCanonicalTypeProtocols (r, registry) error = (state', (true, error'))) :
  canonical_registered char_is_signed os_rt_malloc default_conn_policy state' ∧
  ∀ later later_error, rtc registry_step state'.2 later →
    registerCanonicalTypeProtocols (state'.1, later) later_error =
      (state'.1, later, (true, clearError later_error)).
Proof.
  apply canonical_protocols_once in Hreg as [Hall _]. split; [done|].
  intros later later_error Hlater. destruct state' as [r' registry']. simpl in *.
  destruct Hall as (Hds & (info & Hinfo & Hname & Hcp) & (provider & Hprov & Hsame)). simpl in *.
  unfold registerCanonicalTypeProtocols.
  destruct (registerDescriptors_again (canonicalTypeDescriptors char_is_signed os_rt_malloc) r' later
    later_error) as (error2 & -> & <-); [done|done|].
  rewrite <-clearError_idemp. cbn [fst].
  rewrite (registerConnPolicy_again r' later error2 info provider); [by rewrite clearError_idemp|done|done|done| |done].
  eapply lookup_weaken; [exact Hprov|by apply providers_grow].
Qed.
End conn_policy_facts.

(** ** Witnesses *)

Lemma conn_policy_roundtrip_witness :
  let policy := {| cp_type := 1; cp_size := 32; cp_lock_policy := 2; cp_init := true; cp_pull := false;
                   cp_buffer_policy := 3; cp_max_threads := 0; cp_mandatory := true; cp_transport := 0;
                   cp_data_size := -1; cp_name_id := "stream" |} in
  fromWire (toWire (UaString := string) policy) = policy ∧
  ∃ codec, protocol_bind (ConnPolicyTypeProtocol (W := c_World) (DS := c_DS) (Port := c_DS)
      (UaString := string) default_policy connPolicyDataTypeId) (1%N, inr "types/ConnPolicy")
      (1%N, inr "types/ConnPolicy") None = (Some codec, None) ∧
    dataTypeNodeId codec = (1%N, inr "types/ConnPolicy") ∧
    codec_carries codec rtt_ConnPolicy policy.
Proof.
  intros policy.
  refine (conn_policy_roundtrip (DataType := c_DataType) default_policy policy
    (1%N, inr "types/ConnPolicy") (1%N, inr "types/ConnPolicy") None _ _); reflexivity.
Defined.

(** A repository that knows every canonical type and has no protocol yet. *)
Lemma canonical_registration_complete_witness :
  let r : c_Repository (TypeProtocol c_World c_DS c_DS (c_Variant (ConnPolicyWire string)) c_NodeId c_NodeId) :=
    (list_to_map ((λ name, (name, name)) <$>
       "ConnPolicy" :: (rtt_name <$> canonicalTypeDescriptors true true)), ∅) in
  let state' := (registerCanonicalTypeProtocols (DataType := c_DataType) true true default_policy
    (r, initial_registry) None).1 in
  canonical_registered true true default_policy state' ∧
  ∀ later later_error, rtc registry_step state'.2 later →
    registerCanonicalTypeProtocols true true default_policy (state'.1, later) later_error =
      (state'.1, later, (true, clearError later_error)).
Proof.
  intros r state'.
  refine (canonical_registration_complete true true default_policy r initial_registry None state' None _).
  unfold state'. match goal with |- ?call = _ => transitivity (call.1, call.2) end.
  - apply surjective_pairing.
  - apply (f_equal2 pair); [reflexivity|vm_compute; reflexivity].
Defined.
