(* ===== verification/EndpointTypeRegistry.v ===== *)
(** The type registry of one endpoint (src/src/endpoint_type_registry.cpp,
    include/rtt/opcua/endpoint_type_registry.hpp): the namespace table, the
    materialized data types, the bound codecs and the data type nodes. *)

From S2P Require Import Prelude Native Concrete DataTypeRegistry TypeProtocol.

(** ** State *)

Record DataTypeNode := {
  node_name : string;
  node_kind : CustomDataTypeKind;
  data_type_index : nat;
}.

(** Codecs are heap objects: [codecs] owns them by address, [codecs_by_name]
    holds plain addresses, and [codec_heap] the objects that are alive. *)
Record EndpointTypeRegistry (UA_DataType DataType TypeInfo TypeCodec : Type)
    `{Countable TypeInfo} := {
  namespace_indexes : gmap string N;
  custom_data_types : list DataType;
  custom_data_type_indexes : gmap LogicalDataTypeId nat;
  data_type_nodes : list DataTypeNode;
  codecs : gmap TypeInfo nat;
  codecs_by_name : gmap string nat;
  codec_heap : gmap nat TypeCodec;
  factory_state : FactoryState UA_DataType;
}.
Arguments namespace_indexes {_ _ _ _ _ _} _.
Arguments custom_data_types {_ _ _ _ _ _} _.
Arguments custom_data_type_indexes {_ _ _ _ _ _} _.
Arguments data_type_nodes {_ _ _ _ _ _} _.
Arguments codecs {_ _ _ _ _ _} _.
Arguments codecs_by_name {_ _ _ _ _ _} _.
Arguments codec_heap {_ _ _ _ _ _} _.
Arguments factory_state {_ _ _ _ _ _} _.

Definition kindMatches (expected : CustomDataTypeKind) (actual : DataTypeKind) : bool :=
  match expected with
  | structure => bool_decide (actual = UA_DATATYPEKIND_STRUCTURE) ||
                 bool_decide (actual = UA_DATATYPEKIND_OPTSTRUCT)
  | enumeration => bool_decide (actual = UA_DATATYPEKIND_ENUM)
  | union_type => bool_decide (actual = UA_DATATYPEKIND_UNION)
  end.

(** [std::map::emplace]: keeps an existing entry. *)
Definition emplace `{Countable K} {V} (k : K) (v : V) (m : gmap K V) : gmap K V :=
  match m !! k with
  | Some _ => m
  | None => <[k := v]> m
  end.

(** The loop over the namespace table in [create]; [None] is an invalid table. *)
Fixpoint bindNamespaces (namespaces : list (string * N)) (bound : gmap string N) (indexes : gset N) :
    option (gmap string N) :=
  match namespaces with
  | [] => Some bound
  | (uri, index) :: namespaces' =>
      if str_empty uri || str_contains Ascii.zero uri || bool_decide (is_Some (bound !! uri)) ||
         bool_decide (index ∈ indexes)
      then None
      else bindNamespaces namespaces' (<[uri := index]> bound) ({[index]} ∪ indexes)
  end.

Section endpoint.
Context {W DS Port Variant NodeId UA_DataType DataType TypeInfo R NS StatusCode : Type}.
Context `{EqDecision TypeInfo} `{!Countable TypeInfo}.
Context `{NodeIds NodeId} `{DataTypes NodeId UA_DataType DataType} `{StatusCodes StatusCode}.
Context `{DataTypeServices NS NodeId StatusCode}.
Notation TypeCodec := (TypeCodec W DS Port Variant NodeId UA_DataType).
Notation TypeProtocol := (TypeProtocol W DS Port Variant NodeId UA_DataType).
Notation RegistryState := (RegistryState UA_DataType DataType).
Notation DataTypeProvider := (DataTypeProvider UA_DataType DataType).
Notation CustomDataTypeDefinition := (CustomDataTypeDefinition UA_DataType DataType).
Notation EndpointTypeRegistry := (EndpointTypeRegistry UA_DataType DataType TypeInfo TypeCodec).
Context `{TypeInfos TypeInfo R TypeProtocol}.
Implicit Types (registry : EndpointTypeRegistry).

Definition parentDataType (kind : CustomDataTypeKind) : NodeId :=
  match kind with
  | structure => nodeid_datatype dt_Structure
  | enumeration => nodeid_datatype dt_Enumeration
  | union_type => nodeid_datatype dt_Union
  end.

Definition empty_endpoint (namespaces : gmap string N) : EndpointTypeRegistry :=
  {| namespace_indexes := namespaces; custom_data_types := []; custom_data_type_indexes := ∅;
     data_type_nodes := []; codecs := ∅; codecs_by_name := ∅; codec_heap := ∅;
     factory_state := {| factory_namespace_indexes := namespaces; factory_data_types := ∅ |} |}.

(** ** Lookups *)

Definition codecForTypeInfo registry (type_info : TypeInfo) : option nat := codecs registry !! type_info.
Definition codecForTypeName registry (type_name : string) : option nat :=
  codecs_by_name registry !! type_name.

(** [getTypeInfo] is the one library call. *)
Definition codecForDataSource (ds_typeInfo : DS → option TypeInfo) registry (source : option DS) : option nat :=
  match source with
  | Some source => match ds_typeInfo source with
                   | Some type_info => codecForTypeInfo registry type_info
                   | None => None
                   end
  | None => None
  end.

(** Following a codec pointer; [None] when the object has been destroyed. *)
Definition deref_codec registry (codec : nat) : option TypeCodec := codec_heap registry !! codec.

Definition customDataTypes registry : list DataType := custom_data_types registry.

Definition endpoint_dataType registry (id : LogicalDataTypeId) : option DataType :=
  index ← custom_data_type_indexes registry !! id; custom_data_types registry !! index.

Definition endpoint_namespaceIndex registry (namespace_uri : string) : option N :=
  namespace_indexes registry !! namespace_uri.

(** ** Binding *)

(** Effects of a materialized definition. *)
Definition addCustomDataType (definition : CustomDataTypeDefinition) (materialized : DataType)
    registry : EndpointTypeRegistry :=
  let types := custom_data_types registry ++ [materialized] in
  let index := pred (length types) in
  {| namespace_indexes := namespace_indexes registry;
     custom_data_types := types;
     custom_data_type_indexes := emplace (def_id definition) index (custom_data_type_indexes registry);
     data_type_nodes := data_type_nodes registry ++
       [{| node_name := def_name definition; node_kind := def_kind definition;
           data_type_index := index |}];
     codecs := codecs registry; codecs_by_name := codecs_by_name registry;
     codec_heap := codec_heap registry;
     factory_state :=
       {| factory_namespace_indexes := factory_namespace_indexes (factory_state registry);
          factory_data_types :=
            emplace (def_id definition) (dt_handle materialized)
              (factory_data_types (factory_state registry)) |} |}.

(** The body of the loop over the definitions: [inl] is an exception that
    escapes, [inr (inl _)] the message of a failure.  The context shares the
    state being filled.  An empty [std::function] throws [bad_function_call]. *)
Definition bindDefinition (definition : CustomDataTypeDefinition) registry :
    exn + (string + EndpointTypeRegistry) :=
  match
    match materialize definition with
    | None => inl (std_exception "bad_function_call")
    | Some create => create (Some (factory_state registry))
    end
  with
  | inl (std_exception what) =>
      inr (inl ("unable to materialize OPC UA datatype '" +:+ def_name definition +:+ "': " +:+ what))
  | inl other_exception =>
      inr (inl ("unable to materialize OPC UA datatype '" +:+ def_name definition +:+
                "': unknown exception"))
  | inr materialized =>
      match namespace_indexes registry !! id_namespace_uri (def_id definition) with
      | None => inl (std_exception "map::at")
      | Some namespace_index =>
          let expected_type := nodeid_string namespace_index (type_node_id (def_id definition)) in
          let expected_encoding :=
            nodeid_string namespace_index (binary_encoding_node_id (def_id definition)) in
          if negb (bool_decide (dt_typeId materialized = expected_type)) ||
             negb (bool_decide (dt_binaryEncodingId materialized = expected_encoding)) ||
             negb (kindMatches (def_kind definition) (dt_typeKind materialized))
          then inr (inl ("materialized OPC UA datatype does not match '" +:+ def_name definition +:+ "'"))
          else inr (inr (addCustomDataType definition materialized registry))
      end
  end.

Fixpoint bindDefinitions (definitions : list CustomDataTypeDefinition) registry :
    exn + (string + EndpointTypeRegistry) :=
  match definitions with
  | [] => inr (inr registry)
  | definition :: definitions' =>
      match bindDefinition definition registry with
      | inr (inr registry) => bindDefinitions definitions' registry
      | failure => failure
      end
  end.

(** The first provider whose namespace is not in the table. *)
Definition missingNamespace (providers : list DataTypeProvider) registry : option string :=
  head (filter (λ uri, namespace_indexes registry !! uri = None)
    (provider_namespace_uri <$> providers)).

(** The node id and native type behind a reference. *)
Definition resolveReference (name : string) (reference : DataTypeReference NodeId) registry :
    string + option (NodeId * UA_DataType) :=
  match reference with
  | ref_builtin builtin =>
      if negb (nodeid_namespaceIndex builtin =? 0)%N
      then inl ("nonzero namespace in builtin OPC UA protocol for RTT type '" +:+ name +:+ "'")
      else inr ((λ native, (builtin, native)) <$> findDataType builtin)
  | ref_logical logical =>
      inr ((λ custom, (dt_typeId custom, dt_handle custom)) <$> endpoint_dataType registry logical)
  end.

(** [codecs_.emplace(type_info, std::move(codec))] and
    [codecs_by_name_.emplace(name, codec_ptr)]: when the type info already has
    a codec, the new object is destroyed with the rejected map node, while the
    name still gets its address. *)
Definition addCodec (name : string) (type_info : TypeInfo) (codec : TypeCodec) registry :
    EndpointTypeRegistry :=
  let codec_ptr := fresh (dom (codec_heap registry) ∪
                          map_img (SA := gset nat) (codecs_by_name registry)) in
  {| namespace_indexes := namespace_indexes registry;
     custom_data_types := custom_data_types registry;
     custom_data_type_indexes := custom_data_type_indexes registry;
     data_type_nodes := data_type_nodes registry;
     codecs := emplace type_info codec_ptr (codecs registry);
     codecs_by_name := emplace name codec_ptr (codecs_by_name registry);
     codec_heap := match codecs registry !! type_info with
                   | Some _ => codec_heap registry
                   | None => <[codec_ptr := codec]> (codec_heap registry)
                   end;
     factory_state := factory_state registry |}.

(** The body of the loop over the RTT type names. *)
Definition bindType (r : R) (name : string) registry : string + EndpointTypeRegistry :=
  match types_type r name with
  | None => inr registry
  | Some type_info =>
      if negb (ti_hasProtocol r type_info) then inr registry
      else
        match ti_getProtocol r type_info with
        | None => inl ("invalid OPC UA type protocol for RTT type '" +:+ name +:+ "'")
        | Some protocol =>
            match resolveReference name (dataType protocol) registry with
            | inl message => inl message
            | inr None => inl ("unresolved OPC UA datatype for RTT type '" +:+ name +:+ "'")
            | inr (Some (node_id, native_type)) =>
                let unable bind_error :=
                  inl ("unable to bind OPC UA codec for RTT type '" +:+ name +:+ "': " +:+ bind_error) in
                match protocol_bind protocol node_id native_type (Some "") with
                | (None, bind_error) => unable (default "" bind_error)
                | (Some codec, bind_error) =>
                    if negb (bool_decide (dataTypeNodeId codec = node_id))
                    then unable (default "" bind_error)
                    else inr (addCodec name type_info codec registry)
                end
            end
        end
  end.

Fixpoint bindTypes (r : R) (names : list string) registry : string + EndpointTypeRegistry :=
  match names with
  | [] => inr registry
  | name :: names' =>
      match bindType r name registry with
      | inl message => inl message
      | inr registry => bindTypes r names' registry
      end
  end.

(** The rest of [bind] once the providers are known. *)
Definition bindProviders (r : R) (providers : list DataTypeProvider) registry :
    exn + (string + EndpointTypeRegistry) :=
  match missingNamespace providers registry with
  | Some uri => inr (inl ("missing OPC UA endpoint namespace URI: '" +:+ uri +:+ "'"))
  | None =>
      match bindDefinitions (providers ≫= data_types) registry with
      | inr (inr registry) => inr (bindTypes r (types_getTypes r) registry)
      | failure => failure
      end
  end.

(** [bind]: the data type registry, then the outcome and the error text. *)
Definition bind (r : R) (state : RegistryState) registry (error : option string) :
    RegistryState * (exn + option EndpointTypeRegistry) * option string :=
  match frozenDataTypeProviders state error with
  | (state, inl e, error) => (state, inl e, error)
  | (state, inr None, error) => (state, inr None, error)
  | (state, inr (Some providers), error) =>
      match bindProviders r providers registry with
      | inl e => (state, inl e, error)
      | inr (inl message) => (state, inr None, assignError error message)
      | inr (inr registry) => (state, inr (Some registry), clearError error)
      end
  end.

Definition namespace_zero : string := "http://opcfoundation.org/UA/".

Definition create (r : R) (state : RegistryState) (namespaces : list (string * N))
    (error : option string) : RegistryState * (exn + option EndpointTypeRegistry) * option string :=
  match bindNamespaces namespaces ∅ ∅ with
  | None => (state, inr None, assignError error "invalid OPC UA endpoint namespace table")
  | Some bound =>
      if bool_decide (bound !! namespace_zero = Some 0%N) then
        match bind r state (empty_endpoint bound) error with
        | (state, inr (Some registry), error) => (state, inr (Some registry), clearError error)
        | failure => failure
        end
      else (state, inr None, assignError error "invalid OPC UA endpoint namespace zero")
  end.

(** ** Publication of the data type nodes *)

(** The three requests for one node, with the messages of their failures. *)
Definition dataTypeRequests (node : DataTypeNode) (data_type : DataType) :
    list (DataTypeRequest NodeId * string) :=
  [(req_addDataType (parentDataType (node_kind node)) (dt_typeId data_type) (node_name node) (node_name node),
    "failed to publish OPC UA datatype node '" +:+ node_name node +:+ "': ");
   (req_addEncoding (dt_binaryEncodingId data_type) "Default Binary" "Default Binary",
    "failed to publish OPC UA binary encoding node for '" +:+ node_name node +:+ "': ");
   (req_addEncodingReference (dt_typeId data_type) (dt_binaryEncodingId data_type) true,
    "failed to link OPC UA binary encoding node for '" +:+ node_name node +:+ "': ")].

(** Sends requests until one fails. *)
Fixpoint sendRequests (requests : list (DataTypeRequest NodeId * string)) (server : NS) :
    NS * option string :=
  match requests with
  | [] => (server, None)
  | (request, message) :: requests' =>
      let '(server, status) := data_type_service request server in
      if negb (status_isGood status) then (server, Some (message +:+ status_name status))
      else sendRequests requests' server
  end.

(** [custom_data_types_[index]] is undefined out of range. *)
Fixpoint publishNodes (nodes : list DataTypeNode) registry (server : NS) : NS * option string :=
  match nodes with
  | [] => (server, None)
  | node :: nodes' =>
      match custom_data_types registry !! data_type_index node with
      | None => (server, Some "undefined")
      | Some data_type =>
          match sendRequests (dataTypeRequests node data_type) server with
          | (server, Some message) => (server, Some message)
          | (server, None) => publishNodes nodes' registry server
          end
      end
  end.

Definition publishDataTypeNodes registry (server : NS) (error : option string) :
    NS * bool * option string :=
  match publishNodes (data_type_nodes registry) registry server with
  | (server, Some message) => (server, false, assignError error message)
  | (server, None) => (server, true, clearError error)
  end.
End endpoint.

(** ** A concrete endpoint

    The provider ["ext"] depends on ["base"] and its factory looks the type of
    ["base"] up; the names ["Bool"] and ["bool"] stand for one type info. *)
Definition sample_definition (namespace : string) (required : option LogicalDataTypeId) :
    CustomDataTypeDefinition c_NodeId c_DataType :=
  {| def_name := "Type";
     def_id := {| id_namespace_uri := namespace; type_node_id := "type"; binary_encoding_node_id := "binary" |};
     def_kind := structure; schema_fingerprint := "v1";
     materialize := Some (λ context,
       match factory_namespaceIndex context namespace, required ≫= factory_dataType context with
       | inr index, found =>
           if bool_decide (is_Some required) && negb (bool_decide (is_Some found))
           then inl (std_exception "required type is missing")
           else inr {| c_typeId := (index, inr "type"); c_encodingId := (index, inr "binary");
                       c_kind := UA_DATATYPEKIND_STRUCTURE |}
       | inl e, _ => inl e
       end) |}.

Definition sample_base : DataTypeProvider c_NodeId c_DataType :=
  {| provider_name := "base"; provider_namespace_uri := "urn:base"; dependencies := [];
     data_types := [sample_definition "urn:base" None] |}.
Definition sample_ext : DataTypeProvider c_NodeId c_DataType :=
  {| provider_name := "ext"; provider_namespace_uri := "urn:ext"; dependencies := ["base"];
     data_types := [sample_definition "urn:ext" (Some (def_id (sample_definition "urn:base" None)))] |}.

Definition sample_state : RegistryState c_NodeId c_DataType :=
  (registerDataTypeProvider (registerDataTypeProvider initial_registry sample_ext None).1.1
     sample_base None).1.1.

Definition sample_codec : TypeCodec unit unit unit unit c_NodeId c_NodeId :=
  {| dataTypeNodeId := (0%N, inl dt_Boolean); valueRank := vr_Scalar; hasValue := true;
     toVariant _ value := mret (false, value); assignVariant _ _ := mret false;
     makeDataSource _ := mret None; makeProxyDataSource _ _ := None;
     portValue _ value _ := (pv_error, value) |}.
Definition sample_protocol : TypeProtocol unit unit unit unit c_NodeId c_NodeId :=
  {| dataType := ref_builtin (0%N, inl dt_Boolean); registrationFingerprint := "v1";
     protocol_bind _ _ error := (Some sample_codec, error) |}.

(** With the alias, and without. *)
Definition sample_types (alias : bool) : c_Repository (TypeProtocol unit unit unit unit c_NodeId c_NodeId) :=
  (if alias then <["bool" := "Bool"]> {["Bool" := "Bool"]} else {["Bool" := "Bool"]},
   {["Bool" := sample_protocol]}).

Definition sample_namespaces : list (string * N) :=
  [(namespace_zero, 0%N); ("urn:ext", 2%N); ("urn:base", 3%N)].

Definition sample_create (alias : bool) :=
  create (TypeInfo := string) (sample_types alias) sample_state sample_namespaces None.

Definition sample_registry (alias : bool) :
    EndpointTypeRegistry c_NodeId c_DataType string (TypeCodec unit unit unit unit c_NodeId c_NodeId) :=
  match (sample_create alias).1.2 with
  | inr (Some registry) => registry
  | _ => empty_endpoint ∅
  end.

(** A server that accepts all requests and keeps them. *)
#[global] Instance sample_status : StatusCodes bool := {
  status_isGood code := code;
  status_name code := if code then "Good" else "BadNodeIdExists";
}.
#[global] Instance sample_services : DataTypeServices (list (DataTypeRequest c_NodeId)) c_NodeId bool := {
  data_type_service request server := (server ++ [request], true);
}.

(** ** Specification *)

Section endpoint_facts.
Context {W DS Port Variant NodeId UA_DataType DataType TypeInfo R NS StatusCode : Type}.
Context `{EqDecision TypeInfo} `{!Countable TypeInfo}.
Context `{NodeIds NodeId} `{DataTypes NodeId UA_DataType DataType} `{StatusCodes StatusCode}.
Context `{DataTypeServices NS NodeId StatusCode}.
Notation TypeCodec := (TypeCodec W DS Port Variant NodeId UA_DataType).
Notation TypeProtocol := (TypeProtocol W DS Port Variant NodeId UA_DataType).
Notation RegistryState := (RegistryState UA_DataType DataType).
Notation DataTypeProvider := (DataTypeProvider UA_DataType DataType).
Notation CustomDataTypeDefinition := (CustomDataTypeDefinition UA_DataType DataType).
Notation EndpointTypeRegistry := (EndpointTypeRegistry UA_DataType DataType TypeInfo TypeCodec).
Context `{TypeInfos TypeInfo R TypeProtocol}.
Implicit Types (registry : EndpointTypeRegistry).

(** [data_type] is what [definition] asks for under the namespaces [bound]. *)
Definition matches_definition (bound : gmap string N) (definition : CustomDataTypeDefinition)
    (data_type : DataType) : Prop :=
  ∃ index, bound !! id_namespace_uri (def_id definition) = Some index ∧
    dt_typeId data_type = nodeid_string index (type_node_id (def_id definition)) ∧
    dt_binaryEncodingId data_type = nodeid_string index (binary_encoding_node_id (def_id definition)) ∧
    kindMatches (def_kind definition) (dt_typeKind data_type) = true.

(** The node entry of the definition at an index. *)
Definition definition_node (index : nat) (definition : CustomDataTypeDefinition) : DataTypeNode :=
  {| node_name := def_name definition; node_kind := def_kind definition; data_type_index := index |}.

(** The definitions [defs] have been bound, each with the earlier ones visible. *)
Record bound_definitions (bound : gmap string N) (defs : list CustomDataTypeDefinition) registry : Prop := {
  bd_namespaces : namespace_indexes registry = bound;
  bd_length : length (custom_data_types registry) = length defs;
  bd_nodes : data_type_nodes registry =
    imap definition_node defs;
  bd_fresh : ∀ id, id ∉ def_id <$> defs →
    custom_data_type_indexes registry !! id = None ∧ factory_data_types (factory_state registry) !! id = None;
  bd_types : ∀ i definition, defs !! i = Some definition → ∃ data_type create context,
    custom_data_types registry !! i = Some data_type ∧
    custom_data_type_indexes registry !! def_id definition = Some i ∧
    factory_data_types (factory_state registry) !! def_id definition = Some (dt_handle data_type) ∧
    matches_definition bound definition data_type ∧
    materialize definition = Some create ∧ create (Some context) = inr data_type ∧
    ∀ j earlier, j < i → defs !! j = Some earlier → ∃ earlier_type,
      custom_data_types registry !! j = Some earlier_type ∧
      factory_data_types context !! def_id earlier = Some (dt_handle earlier_type);
}.

(** A factory that runs in [context] finds the data type the registry has for
    [definition]. *)
Definition sees_data_type registry (context : FactoryState UA_DataType) (definition : CustomDataTypeDefinition) : Prop :=
  ∃ data_type, endpoint_dataType registry (def_id definition) = Some data_type ∧
    factory_dataType (Some context) (def_id definition) = Some (dt_handle data_type).

(** Later rounds leave the entries of processed names and live objects alone. *)
Record codecs_extended (registry registry' : EndpointTypeRegistry) : Prop := {
  ce_names : codecs_by_name registry ⊆ codecs_by_name registry';
  ce_codecs : codecs registry ⊆ codecs registry';
  ce_heap : ∀ name ptr, codecs_by_name registry !! name = Some ptr →
    codec_heap registry' !! ptr = codec_heap registry !! ptr;
}.

(** The requests for all nodes, in order. *)
Definition allRequests registry : list (DataTypeRequest NodeId * string) :=
  data_type_nodes registry ≫= λ node,
    match custom_data_types registry !! data_type_index node with
    | Some data_type => dataTypeRequests node data_type
    | None => []
    end.

(** The server and the statuses after sending requests one after the other. *)
Fixpoint serve (requests : list (DataTypeRequest NodeId * string)) (server : NS) :
    NS * list StatusCode :=
  match requests with
  | [] => (server, [])
  | (request, _) :: requests' =>
      let '(server, status) := data_type_service request server in
      let '(server, statuses) := serve requests' server in (server, status :: statuses)
  end.

(** ** Lemmas: definitions *)

Lemma emplace_fresh `{Countable K} {V} (k : K) (v : V) m : m !! k = None → emplace k v m = <[k := v]> m.
Proof. unfold emplace. by intros ->. Qed.

Lemma emplace_found `{Countable K} {V} (k : K) (v v' : V) m : m !! k = Some v' → emplace k v m = m.
Proof. unfold emplace. by intros ->. Qed.

Lemma bindDefinition_inr definition registry registry' :
  bindDefinition definition registry = inr (inr registry') →
  ∃ create data_type, materialize definition = Some create ∧
    create (Some (factory_state registry)) = inr data_type ∧
    matches_definition (namespace_indexes registry) definition data_type ∧
    registry' = addCustomDataType definition data_type registry.
Proof.
  unfold bindDefinition. destruct (materialize definition) as [create|]; [|done].
  destruct (create (Some (factory_state registry))) as [[]|data_type] eqn:Hcreate; [done..|].
  destruct (namespace_indexes registry !! _) as [index|] eqn:Hindex; [|done].
  destruct (_ || _ || _) eqn:Hmatch; [done|]. intros [= <-]. split_guards.
  exists create, data_type. split_and!; [done|done| |done]. exists index. auto.
Qed.

(** The [at] of the namespace never throws for a bound namespace. *)
Lemma bindDefinition_no_throw definition registry e :
  is_Some (namespace_indexes registry !! id_namespace_uri (def_id definition)) →
  bindDefinition definition registry ≠ inl e.
Proof.
  intros [index Hindex]. unfold bindDefinition. rewrite Hindex.
  destruct (match materialize definition with Some _ => _ | None => _ end) as [[]|]; [done..|].
  by case_match.
Qed.

Lemma bound_definitions_empty bound : bound_definitions bound [] (empty_endpoint bound).
Proof. split; simpl; try done; set_solver. Qed.

Lemma bound_definitions_snoc bound defs definition registry registry' :
  bound_definitions bound defs registry → def_id definition ∉ def_id <$> defs →
  bindDefinition definition registry = inr (inr registry') →
  bound_definitions bound (defs ++ [definition]) registry'.
Proof.
  intros [Hns Hlen Hnodes Hfresh Htypes] Hnew Hbind.
  apply bindDefinition_inr in Hbind as (create & data_type & Hcreate & Hrun & Hmatch & ->).
  destruct (Hfresh _ Hnew) as [Hi Hf]. rewrite Hns in Hmatch.
  assert (Hpred : pred (length (custom_data_types registry ++ [data_type])) = length defs)
    by (rewrite length_app; simpl; lia).
  split; simpl.
  - done.
  - rewrite !length_app. simpl. lia.
  - rewrite Hpred, Hnodes, imap_app. simpl. by rewrite Nat.add_0_r.
  - intros id Hid. rewrite fmap_app, not_elem_of_app in Hid. destruct Hid as [Hid Hid'].
    rewrite !emplace_fresh by done. rewrite !lookup_insert_ne by set_solver. auto.
  - rewrite Hpred, !emplace_fresh by done. intros i def Hdef.
    apply lookup_app_Some in Hdef as [Hdef|[Hge Hdef]].
    + destruct (Htypes i def Hdef) as (dt & c & context & Ht & Hix & Hfx & Hm & Hc & Hr & Hearlier).
      assert (def_id def ≠ def_id definition).
      { intros Heq. apply Hnew, list_elem_of_fmap. exists def. split; [done|]. by eapply list_elem_of_lookup_2. }
      exists dt, c, context. rewrite !lookup_insert_ne by done.
      split_and!; try done; [by apply lookup_app_l_Some|].
      intros j earlier Hj He. apply lookup_lt_Some in Hdef.
      rewrite lookup_app_l in He by lia. destruct (Hearlier j earlier Hj He) as (et & Het & Hcx).
      exists et. split; [by apply lookup_app_l_Some|done].
    + assert (i = length defs) as ->.
      { apply lookup_lt_Some in Hdef. simpl in Hdef. lia. }
      rewrite Nat.sub_diag in Hdef. injection Hdef as <-.
      exists data_type, create, (factory_state registry). rewrite !lookup_insert_eq.
      split_and!; try done.
      * rewrite <-Hlen. by rewrite lookup_app_r, Nat.sub_diag by lia.
      * intros j earlier Hj He. rewrite lookup_app_l in He by lia.
        destruct (Htypes j earlier He) as (dt & _ & _ & Ht & _ & Hfx & _).
        exists dt. split; [by apply lookup_app_l_Some|done].
Qed.

Lemma bound_definitions_app bound defs defs' registry registry' :
  bound_definitions bound defs registry → NoDup (def_id <$> (defs ++ defs')) →
  bindDefinitions defs' registry = inr (inr registry') →
  bound_definitions bound (defs ++ defs') registry'.
Proof.
  revert defs registry. induction defs' as [|definition defs' IH]; intros defs registry Hbd Hnodup; simpl.
  - intros [= <-]. by rewrite app_nil_r.
  - destruct (bindDefinition definition registry) as [|[|registry1]] eqn:Hone; [done..|].
    intros Hrest. rewrite cons_middle, app_assoc. apply (IH _ registry1); [|by rewrite <-app_assoc|done].
    eapply bound_definitions_snoc; [done| |done].
    rewrite fmap_app in Hnodup. apply NoDup_app in Hnodup as (_ & Hdisj & _).
    intros Hin. apply (Hdisj _ Hin). set_solver.
Qed.

Lemma bindDefinitions_no_throw defs registry e :
  (∀ def, def ∈ defs → is_Some (namespace_indexes registry !! id_namespace_uri (def_id def))) →
  bindDefinitions defs registry ≠ inl e.
Proof.
  revert registry. induction defs as [|definition defs IH]; intros registry Hall; simpl; [done|].
  destruct (bindDefinition definition registry) as [e'|[|registry1]] eqn:Hone.
  - apply bindDefinition_no_throw in Hone as []. apply Hall. set_solver.
  - done.
  - apply IH. apply bindDefinition_inr in Hone as (? & ? & _ & _ & _ & ->). simpl. set_solver.
Qed.

Lemma missingNamespace_None (found : list DataTypeProvider) registry :
  missingNamespace found registry = None →
  ∀ provider, provider ∈ found → is_Some (namespace_indexes registry !! provider_namespace_uri provider).
Proof.
  unfold missingNamespace. rewrite head_None. intros Hnil provider Hp.
  destruct (namespace_indexes registry !! _) eqn:Hns; [by eexists|]. exfalso.
  assert (Hin : provider_namespace_uri provider ∈
    filter (λ uri, namespace_indexes registry !! uri = None) (provider_namespace_uri <$> found)).
  { apply list_elem_of_filter. split; [done|]. by apply list_elem_of_fmap_2. }
  rewrite Hnil in Hin. by apply elem_of_nil in Hin.
Qed.

(** ** Lemmas: codecs *)

(** What a successful round of the loop over the type names does. *)
Lemma bindType_inr (r : R) name registry registry' :
  bindType r name registry = inr registry' →
  match types_type r name with
  | Some type_info =>
      if ti_hasProtocol r type_info then
        ∃ protocol codec native error, ti_getProtocol r type_info = Some protocol ∧
          resolveReference name (dataType protocol) registry = inr (Some (dataTypeNodeId codec, native)) ∧
          protocol_bind protocol (dataTypeNodeId codec) native (Some "") = (Some codec, error) ∧
          registry' = addCodec name type_info codec registry
      else registry' = registry
  | None => registry' = registry
  end.
Proof.
  unfold bindType. destruct (types_type r name) as [ti|]; [|by intros [= <-]].
  destruct (ti_hasProtocol r ti); simpl; [|by intros [= <-]].
  destruct (ti_getProtocol r ti) as [protocol|]; [|done].
  destruct (resolveReference name (dataType protocol) registry) as [|[[node native]|]] eqn:Href; [done| |done].
  destruct (protocol_bind protocol node native (Some "")) as [[codec|] error] eqn:Hbind; [|done].
  case_bool_decide as Hnode; simpl; [|done]. intros [= <-]. subst node. eauto 10.
Qed.

Lemma bindType_keeps (r : R) name registry registry' :
  bindType r name registry = inr registry' →
  namespace_indexes registry' = namespace_indexes registry ∧
  custom_data_types registry' = custom_data_types registry ∧
  custom_data_type_indexes registry' = custom_data_type_indexes registry ∧
  data_type_nodes registry' = data_type_nodes registry ∧
  factory_state registry' = factory_state registry.
Proof.
  intros Hbind%bindType_inr. destruct (types_type r name) as [ti|]; [|by subst].
  destruct (ti_hasProtocol r ti); [|by subst]. by destruct Hbind as (? & ? & ? & ? & _ & _ & _ & ->).
Qed.

Lemma bindTypes_keeps (r : R) names registry registry' :
  bindTypes r names registry = inr registry' →
  namespace_indexes registry' = namespace_indexes registry ∧
  custom_data_types registry' = custom_data_types registry ∧
  custom_data_type_indexes registry' = custom_data_type_indexes registry ∧
  data_type_nodes registry' = data_type_nodes registry ∧
  factory_state registry' = factory_state registry.
Proof.
  revert registry. induction names as [|name names IH]; intros registry; simpl; [by intros [= <-]|].
  destruct (bindType r name registry) as [|registry1] eqn:Hone; [done|]. intros (? & ? & ? & ? & ?)%IH.
  apply bindType_keeps in Hone as (? & ? & ? & ? & ?). split_and!; congruence.
Qed.

(** The addresses in use are allocated; a dead one stays dead. *)
Lemma addCodec_lookup name ti codec registry :
  codecs_by_name registry !! name = None →
  ∃ ptr, codec_heap registry !! ptr = None ∧
    (∀ other, codecs_by_name registry !! other ≠ Some ptr) ∧
    codecs_by_name (addCodec name ti codec registry) = <[name := ptr]> (codecs_by_name registry) ∧
    codecs (addCodec name ti codec registry) = emplace ti ptr (codecs registry) ∧
    codec_heap (addCodec name ti codec registry) =
      match codecs registry !! ti with
      | Some _ => codec_heap registry
      | None => <[ptr := codec]> (codec_heap registry)
      end.
Proof.
  intros Hname. unfold addCodec. simpl.
  set (ptr := fresh _). exists ptr.
  assert (Hptr : ptr ∉ dom (codec_heap registry) ∪ map_img (SA := gset nat) (codecs_by_name registry))
    by apply is_fresh.
  apply not_elem_of_union in Hptr as [Hheap Himg]. split_and!.
  - by apply not_elem_of_dom.
  - intros other Ho. apply Himg. by eapply elem_of_map_img_2.
  - by apply emplace_fresh.
  - done.
  - done.
Qed.

#[global] Instance codecs_extended_preorder : PreOrder codecs_extended.
Proof.
  split; [by split|]. intros r1 r2 r3 [Hn1 Hc1 Hh1] [Hn2 Hc2 Hh2].
  split; [by etransitivity..|]. intros name ptr Hp.
  rewrite (Hh2 name); [by eapply Hh1|by eapply lookup_weaken].
Qed.

Lemma bindType_extended (r : R) name registry registry' :
  bindType r name registry = inr registry' → codecs_by_name registry !! name = None →
  codecs_extended registry registry' ∧
  (∀ other, other ≠ name → codecs_by_name registry' !! other = codecs_by_name registry !! other).
Proof.
  intros Hbind Hname. apply bindType_inr in Hbind.
  destruct (types_type r name) as [ti|]; [|by subst].
  destruct (ti_hasProtocol r ti); [|by subst]. destruct Hbind as (protocol & codec & native & e & _ & _ & _ & ->).
  destruct (addCodec_lookup name ti codec registry Hname) as (ptr & Hfree & Hother & Hn & Hc & Hh).
  split.
  - split.
    + rewrite Hn. by apply insert_subseteq.
    + rewrite Hc. unfold emplace. destruct (codecs registry !! ti) eqn:Hti; [done|]. by apply insert_subseteq.
    + intros n p Hp. rewrite Hh. destruct (codecs registry !! ti); [done|].
      rewrite lookup_insert_ne; [done|]. intros ->. by apply (Hother n).
  - intros other Hne. rewrite Hn. by rewrite lookup_insert_ne.
Qed.

Lemma bindTypes_extended (r : R) names registry registry' :
  bindTypes r names registry = inr registry' → NoDup names →
  (∀ name, name ∈ names → codecs_by_name registry !! name = None) →
  codecs_extended registry registry' ∧
  (∀ other, other ∉ names → codecs_by_name registry' !! other = codecs_by_name registry !! other).
Proof.
  revert registry. induction names as [|name names IH]; intros registry; simpl; [by intros [= <-]|].
  destruct (bindType r name registry) as [|registry1] eqn:Hone; [done|].
  intros Hrest [Hnew Hnodup]%NoDup_cons Hfree.
  apply bindType_extended in Hone as [Hext Hkeep]; [|apply Hfree; set_solver].
  destruct (IH registry1) as [Hext' Hkeep']; [done|done|..].
  { intros n Hn. rewrite Hkeep by set_solver. apply Hfree. set_solver. }
  split; [by etransitivity|]. intros other Ho. rewrite Hkeep', Hkeep by set_solver. done.
Qed.

(** The loop up to a name, the round of that name and the rest. *)
Lemma bindTypes_app (r : R) names1 names2 registry :
  bindTypes r (names1 ++ names2) registry =
  match bindTypes r names1 registry with
  | inl message => inl message
  | inr registry1 => bindTypes r names2 registry1
  end.
Proof.
  revert registry. induction names1 as [|name names1 IH]; intros registry; simpl; [done|].
  by destruct (bindType r name registry).
Qed.

(** Which type infos have a codec after a prefix of the names. *)
Lemma bindTypes_codecs (r : R) names registry registry' ti :
  bindTypes r names registry = inr registry' → NoDup names →
  (∀ name, name ∈ names → codecs_by_name registry !! name = None) →
  is_Some (codecs registry' !! ti) ↔
  is_Some (codecs registry !! ti) ∨
    (ti_hasProtocol r ti = true ∧ ∃ name, name ∈ names ∧ types_type r name = Some ti).
Proof.
  revert registry. induction names as [|name names IH]; intros registry; simpl.
  { intros [= <-] _ _. set_solver. }
  destruct (bindType r name registry) as [|registry1] eqn:Hone; [done|].
  intros Hrest [Hnew Hnodup]%NoDup_cons Hfree.
  pose proof Hone as Hext. apply bindType_extended in Hext as [_ Hkeep]; [|apply Hfree; set_solver].
  rewrite (IH registry1); [|done|done|intros n Hn; rewrite Hkeep by set_solver; apply Hfree; set_solver].
  apply bindType_inr in Hone.
  assert (Hsplit : (∃ n, n ∈ name :: names ∧ types_type r n = Some ti) ↔
    types_type r name = Some ti ∨ ∃ n, n ∈ names ∧ types_type r n = Some ti).
  { split; [intros (n & [->|?]%elem_of_cons & ?); eauto|].
    intros [?|(n & ? & ?)]; [exists name|exists n]; set_solver. }
  rewrite Hsplit. clear Hsplit IH Hnew Hnodup Hfree Hkeep Hrest.
  destruct (types_type r name) as [ti'|] eqn:Hti'; [|subst; intuition congruence].
  destruct (ti_hasProtocol r ti') eqn:Hp; [|subst; intuition congruence].
  destruct Hone as (protocol & codec & native & e & _ & _ & _ & ->).
  unfold addCodec at 1. simpl. set (ptr := fresh _). destruct (decide (ti = ti')) as [->|Hne].
  - split; [intros _; right; eauto|]. intros _. left. unfold emplace.
    destruct (codecs registry !! ti') eqn:Hx; [by rewrite Hx|by rewrite lookup_insert_eq].
  - assert (emplace ti' ptr (codecs registry) !! ti = codecs registry !! ti) as ->.
    { unfold emplace. destruct (codecs registry !! ti'); [done|]. by rewrite lookup_insert_ne. }
    intuition congruence.
Qed.

(** The entry a name with a protocol gets; its object lives on exactly when the
    type info had no codec before. *)
Lemma bindTypes_entry (r : R) before name after registry registry' ti :
  bindTypes r (before ++ name :: after) registry = inr registry' → NoDup (before ++ name :: after) →
  (∀ n, codecs_by_name registry !! n = None) →
  types_type r name = Some ti → ti_hasProtocol r ti = true →
  ∃ registry1 protocol codec native error ptr, bindTypes r before registry = inr registry1 ∧
    ti_getProtocol r ti = Some protocol ∧
    resolveReference name (dataType protocol) registry1 = inr (Some (dataTypeNodeId codec, native)) ∧
    protocol_bind protocol (dataTypeNodeId codec) native (Some "") = (Some codec, error) ∧
    codecForTypeName registry' name = Some ptr ∧
    match codecs registry1 !! ti with
    | Some _ => deref_codec registry' ptr = None
    | None => deref_codec registry' ptr = Some codec ∧ codecForTypeInfo registry' ti = Some ptr
    end.
Proof.
  intros Hbind Hnodup Hfree Hti Hp. rewrite bindTypes_app in Hbind.
  destruct (bindTypes r before registry) as [|registry1] eqn:Hbefore; [done|]. simpl in Hbind.
  destruct (bindType r name registry1) as [|registry2] eqn:Hone; [done|].
  apply NoDup_app in Hnodup as (Hnd1 & Hdisj & [Hnew Hnd2]%NoDup_cons).
  destruct (bindTypes_extended _ _ _ _ Hbefore Hnd1) as [_ Hkeep1]; [auto|].
  assert (Hfree1 : ∀ n, n ∉ before → codecs_by_name registry1 !! n = None).
  { intros n Hn. by rewrite Hkeep1. }
  assert (Hname : name ∉ before) by (intros Hb; apply (Hdisj name Hb); set_solver).
  pose proof Hone as Hkeep2. apply bindType_extended in Hkeep2 as [_ Hkeep2]; [|by apply Hfree1].
  destruct (bindTypes_extended _ _ _ _ Hbind Hnd2) as [[Hn Hc Hh] _].
  { intros n Hn. rewrite Hkeep2 by set_solver. apply Hfree1. intros Hb. apply (Hdisj n Hb). set_solver. }
  apply bindType_inr in Hone. rewrite Hti, Hp in Hone.
  destruct Hone as (protocol & codec & native & error & Hprot & Href & Hb & ->).
  destruct (addCodec_lookup name ti codec registry1) as (ptr & Hfree2 & _ & Hn' & Hc' & Hh');
    [by apply Hfree1|].
  exists registry1, protocol, codec, native, error, ptr.
  assert (Hptr : codecs_by_name (addCodec name ti codec registry1) !! name = Some ptr)
    by (by rewrite Hn', lookup_insert_eq).
  split_and!; [done..| |].
  - by eapply lookup_weaken.
  - unfold deref_codec, codecForTypeInfo. rewrite (Hh _ _ Hptr), Hh'.
    destruct (codecs registry1 !! ti) eqn:Hcti; [done|]. split; [by rewrite lookup_insert_eq|].
    eapply lookup_weaken; [|exact Hc]. rewrite Hc', emplace_fresh by done. by rewrite lookup_insert_eq.
Qed.

(** ** Lemmas: [create] *)

(** A bound namespace table has no repeated URI and is bound entry by entry. *)
Lemma bindNamespaces_bound namespaces bound indexes bound' :
  bindNamespaces namespaces bound indexes = Some bound' →
  (∀ uri index, bound !! uri = Some index → bound' !! uri = Some index) ∧
  (∀ uri index, (uri, index) ∈ namespaces → bound' !! uri = Some index) ∧
  NoDup namespaces.*1 ∧ (∀ uri, uri ∈ namespaces.*1 → bound !! uri = None).
Proof.
  revert bound indexes. induction namespaces as [|[uri index] namespaces IH]; intros bound indexes; simpl.
  - intros [= <-]. split_and!; [done| |constructor|]; intros *; by rewrite elem_of_nil.
  - case_match eqn:Hguard; [done|]. split_guards. intros Hbind.
    destruct (IH _ _ Hbind) as (Hkeep & Hnew & Hnodup & Hfree).
    assert (Hfresh : bound !! uri = None) by (by apply eq_None_not_Some).
    split_and!.
    + intros uri' index' Hl. apply Hkeep. rewrite lookup_insert_ne; [done|]. intros ->. congruence.
    + intros uri' index' [Heq|Hin]%elem_of_cons; [|by apply Hnew]. simplify_eq.
      apply Hkeep, lookup_insert_eq.
    + constructor; [|done]. intros Hin%Hfree. by rewrite lookup_insert_eq in Hin.
    + intros uri' [->|Hin]%elem_of_cons; [done|]. apply Hfree in Hin.
      by apply lookup_insert_None in Hin as [? _].
Qed.

Lemma bindDefinitions_namespaces defs registry registry' :
  bindDefinitions defs registry = inr (inr registry') →
  namespace_indexes registry' = namespace_indexes registry.
Proof.
  revert registry. induction defs as [|def defs IH]; intros registry; simpl; [by intros [= ->]|].
  destruct (bindDefinition def registry) as [|[|registry1]] eqn:Hone; [done..|].
  intros ->%IH. by apply bindDefinition_inr in Hone as (? & ? & _ & _ & _ & ->).
Qed.

Lemma create_Some (r : R) (state : RegistryState) namespaces error state' registry error' :
  create r state namespaces error = (state', inr (Some registry), error') →
  ∃ bound found e registry1, bindNamespaces namespaces ∅ ∅ = Some bound ∧
    frozenDataTypeProviders state error = (state', inr (Some found), e) ∧
    missingNamespace found (empty_endpoint bound : EndpointTypeRegistry) = None ∧
    bindDefinitions (found ≫= data_types) (empty_endpoint bound) = inr (inr registry1) ∧
    bindTypes r (types_getTypes r) registry1 = inr registry.
Proof.
  unfold create, bind, bindProviders.
  destruct (bindNamespaces namespaces ∅ ∅) as [bound|] eqn:Hns; [|done].
  case_bool_decide; [|done].
  destruct (frozenDataTypeProviders state error) as [[s [e|[found|]]] e1] eqn:Hf; [done| |done].
  destruct (missingNamespace found (empty_endpoint bound)) eqn:Hm; [done|].
  destruct (bindDefinitions (found ≫= data_types) (empty_endpoint bound)) as [|[|registry1]] eqn:Hd; [done..|].
  destruct (bindTypes r (types_getTypes r) registry1) eqn:Ht; [done|].
  intros [= <- <- <-]. eauto 10.
Qed.

(** The registry knows the namespaces of its table. *)
Lemma create_namespaces (r : R) (state : RegistryState) namespaces error state' registry error' :
  create r state namespaces error = (state', inr (Some registry), error') →
  NoDup namespaces.*1 ∧
  ∀ uri index, (uri, index) ∈ namespaces → endpoint_namespaceIndex registry uri = Some index.
Proof.
  intros Hcreate. apply create_Some in Hcreate as (bound & found & e & registry1 & Hns & _ & _ & Hd & Ht).
  apply bindNamespaces_bound in Hns as (_ & Hbound & Hnodup & _). split; [done|].
  intros uri index Hin%Hbound. unfold endpoint_namespaceIndex.
  apply bindTypes_keeps in Ht as (-> & _). by apply bindDefinitions_namespaces in Hd as ->.
Qed.

(** The definitions of the providers, in order, with distinct ids. *)
Lemma create_bound (r : R) (state : RegistryState) namespaces error state' registry error' :
  registry_wf state →
  create r state namespaces error = (state', inr (Some registry), error') →
  ∃ bound found registry1, bindNamespaces namespaces ∅ ∅ = Some bound ∧
    bound_definitions bound (found ≫= data_types) registry1 ∧
    bindTypes r (types_getTypes r) registry1 = inr registry ∧ codecs registry1 = ∅ ∧
    codecs_by_name registry1 = ∅ ∧
    (∀ provider, provider ∈ found ↔ ∃ name, providers state !! name = Some provider) ∧
    (∀ provider, provider ∈ found → providers state !! provider_name provider = Some provider) ∧
    NoDup (provider_name <$> found) ∧
    topological (dependencies <$> providers state) (provider_name <$> found) ∧
    state' = {| providers := providers state; provider_order := provider_name <$> found; frozen := true |}.
Proof.
  intros Hwf Hcreate. apply create_Some in Hcreate as (bound & found & e & registry1 & Hns & Hf & Hm & Hd & Ht).
  destruct (frozenDataTypeProviders_cases state error Hwf)
    as [(e' & _ & Hf')|(order & found' & _ & Hf' & Hnames & Hin & Hperm & Htop)];
    rewrite Hf' in Hf; simplify_eq.
  exists bound, found, registry1.
  assert (Hnodup : NoDup (provider_name <$> found)) by (rewrite Hperm; apply NoDup_elements).
  assert (Hkept : codecs registry1 = ∅ ∧ codecs_by_name registry1 = ∅).
  { clear -Hd. remember (empty_endpoint bound) as registry eqn:Hreg.
    assert (He : codecs registry = ∅ ∧ codecs_by_name registry = ∅) by (by subst).
    clear Hreg. revert registry Hd He. induction (found ≫= data_types) as [|def defs IH]; intros registry; simpl.
    { by intros [= <-]. }
    destruct (bindDefinition def registry) as [|[|registry2]] eqn:Hone; [done..|].
    intros Hrest He. eapply IH; [done|]. by apply bindDefinition_inr in Hone as (? & ? & _ & _ & _ & ->). }
  destruct Hkept. split_and!; try done.
  - apply (bound_definitions_app bound [] _ (empty_endpoint bound)); [apply bound_definitions_empty| |done].
    by eapply definitions_NoDup.
  - intros provider. split; [eauto|]. intros (name & Hp).
    assert (Hn : name ∈ provider_name <$> found) by (rewrite Hperm; apply elem_of_elements, elem_of_dom; eauto).
    apply list_elem_of_fmap in Hn as (provider' & -> & Hp'). apply Hin in Hp' as Hp2. by simplify_eq.
Qed.

(** The index leads to the data type at the definition's position. *)
Lemma bound_dataType bound defs registry1 registry :
  bound_definitions bound defs registry1 →
  custom_data_types registry = custom_data_types registry1 →
  custom_data_type_indexes registry = custom_data_type_indexes registry1 →
  ∀ i definition, defs !! i = Some definition → ∃ data_type,
    custom_data_types registry1 !! i = Some data_type ∧
    endpoint_dataType registry (def_id definition) = Some data_type.
Proof.
  intros Hbd Hct Hci i definition Hi. destruct (bd_types _ _ _ Hbd i definition Hi) as (dt & _ & _ & Ht & Hix & _).
  exists dt. split; [done|]. unfold endpoint_dataType. rewrite Hci, Hix. simpl. by rewrite Hct.
Qed.

Lemma bound_dataType_ids bound defs registry1 registry id :
  bound_definitions bound defs registry1 →
  custom_data_types registry = custom_data_types registry1 →
  custom_data_type_indexes registry = custom_data_type_indexes registry1 →
  is_Some (endpoint_dataType registry id) ↔ id ∈ def_id <$> defs.
Proof.
  intros Hbd Hct Hci. split.
  - intros Hsome. destruct (decide (id ∈ def_id <$> defs)) as [|Hfresh]; [done|].
    destruct (bd_fresh _ _ _ Hbd id Hfresh) as [Hnone _]. unfold endpoint_dataType in Hsome.
    rewrite Hci, Hnone in Hsome. by destruct Hsome.
  - intros (definition & -> & [i Hi]%list_elem_of_lookup)%list_elem_of_fmap.
    destruct (bound_dataType _ _ _ _ Hbd Hct Hci i definition Hi) as (dt & _ & Hdt). eauto.
Qed.

(** Definitions of a dependency come earlier. *)
Lemma dependency_earlier (state : RegistryState) (found : list DataTypeProvider) provider dependency
    definition earlier :
  topological (dependencies <$> providers state) (provider_name <$> found) →
  (∀ p, p ∈ found → providers state !! provider_name p = Some p) →
  provider ∈ found → provider_name dependency ∈ dependencies provider → dependency ∈ found →
  NoDup (provider_name <$> found) →
  definition ∈ data_types provider → earlier ∈ data_types dependency →
  ∃ i j, j < i ∧ (found ≫= data_types) !! i = Some definition ∧ (found ≫= data_types) !! j = Some earlier.
Proof.
  intros Htop Hin Hp Hdep Hq Hnodup Hdef Hearlier.
  pose proof (Hin provider Hp) as Hlookup.
  apply list_elem_of_split in Hp as (before & after & ->).
  assert (Hbefore : provider_name dependency ∈ provider_name <$> before).
  { eapply (Htop _ (provider_name provider) (provider_name <$> after)); [by rewrite fmap_app| |exact Hdep].
    by rewrite lookup_fmap, Hlookup. }
  assert (Hq' : dependency ∈ before).
  { apply elem_of_app in Hq as [|Hq]; [done|]. exfalso.
    rewrite fmap_app in Hnodup. apply NoDup_app in Hnodup as (_ & Hdisj & _).
    apply (Hdisj _ Hbefore). by apply list_elem_of_fmap_2. }
  assert (Hearlier' : earlier ∈ before ≫= data_types) by (apply list_elem_of_bind; eauto).
  apply list_elem_of_lookup in Hearlier' as [j Hj]. apply list_elem_of_lookup in Hdef as [k Hk].
  rewrite bind_app. csimpl.
  exists (length (before ≫= data_types) + k), j. split_and!.
  - apply lookup_lt_Some in Hj. lia.
  - rewrite lookup_app_r by lia. rewrite Nat.add_comm, Nat.add_sub. by apply lookup_app_l_Some.
  - by apply lookup_app_l_Some.
Qed.

(** ** Lemmas: publication *)

Lemma created_nodes (r : R) (state : RegistryState) namespaces error state' registry error' node :
  registry_wf state →
  create r state namespaces error = (state', inr (Some registry), error') →
  node ∈ data_type_nodes registry → is_Some (custom_data_types registry !! data_type_index node).
Proof.
  intros Hwf Hcreate Hnode. apply create_bound in Hcreate as (bound & found & registry1 & _ & Hbd & Htypes & _); [|done].
  apply bindTypes_keeps in Htypes as (_ & Hct & _ & Hnodes & _).
  rewrite Hnodes, (bd_nodes _ _ _ Hbd) in Hnode. apply list_elem_of_lookup in Hnode as [i Hi].
  rewrite list_lookup_imap in Hi. apply fmap_Some in Hi as (def & Hdef & ->). simpl.
  destruct (bd_types _ _ _ Hbd i def Hdef) as (dt & _ & _ & Ht & _). rewrite Hct. eauto.
Qed.

Lemma publishNodes_requests nodes registry (server : NS) :
  (∀ node, node ∈ nodes → is_Some (custom_data_types registry !! data_type_index node)) →
  publishNodes nodes registry server =
  sendRequests (nodes ≫= λ node,
    match custom_data_types registry !! data_type_index node with
    | Some data_type => dataTypeRequests node data_type
    | None => []
    end) server.
Proof.
  assert (Hsend_app : ∀ requests1 requests2 server, sendRequests (requests1 ++ requests2) server =
    match sendRequests requests1 server with
    | (server, None) => sendRequests requests2 server
    | failure => failure
    end).
  { induction requests1 as [|[request message] requests1 IH]; intros requests2 server'; simpl; [done|].
    destruct (data_type_service request server') as [server1 status].
    destruct (negb (status_isGood status)); [done|]. apply IH. }
  revert server. induction nodes as [|node nodes IH]; intros server Hall; [done|].
  rewrite bind_cons. destruct (Hall node) as [data_type Hdt]; [set_solver|].
  rewrite Hsend_app, Hdt. cbn [publishNodes]. rewrite Hdt.
  destruct (sendRequests (dataTypeRequests node data_type) server) as [server' [message|]]; [done|].
  apply IH. set_solver.
Qed.

Lemma sendRequests_spec requests (server : NS) :
  let '(server', message) := sendRequests requests server in
  match message with
  | None => ∃ statuses, serve requests server = (server', statuses) ∧
      Forall (λ status, status_isGood status = true) statuses
  | Some text => ∃ sent request prefix rest statuses status,
      requests = sent ++ (request, prefix) :: rest ∧
      serve (sent ++ [(request, prefix)]) server = (server', statuses ++ [status]) ∧
      Forall (λ status, status_isGood status = true) statuses ∧ status_isGood status = false ∧
      text = prefix +:+ status_name status
  end.
Proof.
  revert server. induction requests as [|[request prefix] requests IH]; intros server; simpl; [eauto|].
  destruct (data_type_service request server) as [server1 status] eqn:Hone.
  destruct (status_isGood status) eqn:Hgood; simpl.
  - specialize (IH server1). destruct (sendRequests requests server1) as [server2 [text|]].
    + destruct IH as (sent & req & pre & rest & statuses & bad & -> & Hserve & Hall & Hbad & ->).
      exists ((request, prefix) :: sent), req, pre, rest, (status :: statuses), bad.
      split_and!; [done| |by constructor|done|done]. simpl. by rewrite Hone, Hserve.
    + destruct IH as (statuses & Hserve & Hall). rewrite Hserve. exists (status :: statuses).
      split; [done|by constructor].
  - exists [], request, prefix, requests, [], status. split_and!; try done. simpl. by rewrite Hone.
Qed.

(** ** Properties *)

(** C25: an endpoint registry that [create] returns has exactly one data type
    per registered definition: the definitions of all providers stand in one
    order without repetition, the vector of data types, the index from ids and
    the nodes to publish follow that order position by position, and no other id
    is known.  Each data type is what its definition's factory returned, with the
    node ids and kind the definition asks for under the endpoint's namespace
    index; when the factory ran, the data types of all definitions before it,
    those of the provider's dependencies among them, were visible in the context. *)
Theorem create_complete (r : R) (state : RegistryState) namespaces error state' registry error'
    (Hreach : registry_reachable state)
    (Hcreate : create r state namespaces error = (state', inr (Some registry), error')) :
  frozen state' = true ∧
  ∃ definitions, NoDup (def_id <$> definitions) ∧
    (∀ definition, definition ∈ definitions ↔
      ∃ name provider, providers state !! name = Some provider ∧ definition ∈ data_types provider) ∧
    length (customDataTypes registry) = length definitions ∧
    data_type_nodes registry = imap definition_node definitions ∧
    (∀ id, is_Some (endpoint_dataType registry id) ↔ id ∈ def_id <$> definitions) ∧
    ∀ i definition, definitions !! i = Some definition →
      ∃ data_type index create_type context,
        customDataTypes registry !! i = Some data_type ∧
        endpoint_dataType registry (def_id definition) = Some data_type ∧
        endpoint_namespaceIndex registry (id_namespace_uri (def_id definition)) = Some index ∧
        dt_typeId data_type = nodeid_string index (type_node_id (def_id definition)) ∧
        dt_binaryEncodingId data_type = nodeid_string index (binary_encoding_node_id (def_id definition)) ∧
        kindMatches (def_kind definition) (dt_typeKind data_type) = true ∧
        materialize definition = Some create_type ∧ create_type (Some context) = inr data_type ∧
        (∀ j earlier, j < i → definitions !! j = Some earlier →
          sees_data_type registry context earlier) ∧
        ∀ name provider dependency required, providers state !! name = Some provider →
          definition ∈ data_types provider →
          providers state !! provider_name dependency = Some dependency →
          provider_name dependency ∈ dependencies provider → required ∈ data_types dependency →
          sees_data_type registry context required.
Proof.
  apply registry_wf_reachable in Hreach as Hwf.
  destruct (create_bound r state namespaces error state' registry error' Hwf Hcreate)
    as (bound & found & registry1 & _ & Hbd & Htypes & _ & _ & Hfound & Hin & Hnodup & Htop & ->).
  apply bindTypes_keeps in Htypes as (Hns & Hct & Hci & Hnodes & _). split; [done|].
  exists (found ≫= data_types).
  assert (Hids : NoDup (def_id <$> (found ≫= data_types))) by (by eapply definitions_NoDup).
  pose proof (bound_dataType _ _ _ registry Hbd Hct Hci) as Hlook. split_and!; [done| | | | |].
  - intros definition. rewrite list_elem_of_bind. setoid_rewrite Hfound. naive_solver.
  - unfold customDataTypes. by rewrite Hct, (bd_length _ _ _ Hbd).
  - by rewrite Hnodes, (bd_nodes _ _ _ Hbd).
  - intros id. by eapply bound_dataType_ids.
  - intros i definition Hi. destruct (bd_types _ _ _ Hbd i definition Hi)
      as (dt & c & context & Ht & _ & _ & (index & Hb & Htid & Heid & Hkind) & Hm & Hc & Hearlier).
    assert (Hvisible : ∀ j earlier, j < i → (found ≫= data_types) !! j = Some earlier →
      sees_data_type registry context earlier).
    { intros j earlier Hji Hj. destruct (Hearlier j earlier Hji Hj) as (rt & Hrt & Hctx).
      destruct (Hlook j earlier Hj) as (rt' & Hrt' & Hreqt). rewrite Hrt in Hrt'. simplify_eq. by exists rt'. }
    exists dt, index, c, context. destruct (Hlook i definition Hi) as (dt' & Ht' & Hdt). rewrite Ht in Ht'. simplify_eq.
    split_and!; try done.
    + unfold customDataTypes. by rewrite Hct.
    + unfold endpoint_namespaceIndex. by rewrite Hns, (bd_namespaces _ _ _ Hbd).
    + intros name provider dependency required Hprovider Hdef Hdep Hneeds Hreq.
      destruct (dependency_earlier state found provider dependency definition required)
        as (i' & j & Hji & Hi' & Hj); [done|done|apply Hfound; eauto|done|apply Hfound; eauto|done..|].
      assert (i' = i) as ->; [|by apply (Hvisible j)].
      eapply (NoDup_lookup (def_id <$> _)); [exact Hids|..]; rewrite list_lookup_fmap; [by rewrite Hi'|by rewrite Hi].
Qed.

(** After [create], every RTT type name whose type info has an OPC UA
    protocol has an entry, and looking it up by name or by type info gives the
    same live codec, bound to the data type of its protocol, provided no other
    listed name stands for the same type info. *)
Theorem create_codecs (r : R) (state : RegistryState) namespaces error state' registry error' name type_info
    (Hreach : registry_reachable state) (Hnames : NoDup (types_getTypes r))
    (Hcreate : create r state namespaces error = (state', inr (Some registry), error'))
    (Hname : name ∈ types_getTypes r) (Hinfo : types_type r name = Some type_info)
    (Hprotocol : ti_hasProtocol r type_info = true)
    (Hunique : ∀ other, other ∈ types_getTypes r → types_type r other = Some type_info → other = name) :
  ∃ ptr codec protocol native, codecForTypeName registry name = Some ptr ∧
    codecForTypeInfo registry type_info = Some ptr ∧ deref_codec registry ptr = Some codec ∧
    ti_getProtocol r type_info = Some protocol ∧
    resolveReference name (dataType protocol) registry = inr (Some (dataTypeNodeId codec, native)).
Proof.
  apply registry_wf_reachable in Hreach as Hwf.
  destruct (create_bound r state namespaces error state' registry error' Hwf Hcreate)
    as (bound & found & registry1 & _ & _ & Htypes & Hc & Hn & _).
  pose proof Htypes as Hkept. apply bindTypes_keeps in Hkept as (Hns & Hct & Hci & _ & _).
  apply list_elem_of_split in Hname as (before & after & Heq). rewrite Heq in *.
  destruct (bindTypes_entry r before name after registry1 registry type_info)
    as (registry2 & protocol & codec & native & e & ptr & Hbefore & Hp & Href & _ & Hptr & Hlive);
    [done|done|intros n; by rewrite Hn|done|done|].
  pose proof Hbefore as Hkept. apply bindTypes_keeps in Hkept as (_ & Hct2 & Hci2 & _ & _).
  exists ptr, codec, protocol, native.
  assert (codecs registry2 !! type_info = None) as Hnone.
  { apply eq_None_not_Some. apply NoDup_app in Hnames as (Hnd & Hdisj & _).
    rewrite (bindTypes_codecs r before registry1 registry2 type_info Hbefore Hnd) by (intros; by rewrite Hn).
    rewrite Hc, lookup_empty. intros [[? ?]|(_ & other & Ho & Hti)]; [done|].
    apply (Hdisj other Ho). rewrite (Hunique other); [set_solver|set_solver|done]. }
  rewrite Hnone in Hlive. destruct Hlive as [Hderef Hinfo']. split_and!; try done.
  rewrite <-Href. unfold resolveReference, endpoint_dataType. by rewrite Hct, Hci, Hct2, Hci2.
Qed.

(** C36: when a later type name is an alias, standing for the type info of an
    earlier one, the codec made for it is destroyed with the rejected map node,
    yet the name keeps its address: the lookup by name returns a dangling
    pointer. *)
Theorem alias_codec_dangles (r : R) (state : RegistryState) namespaces error state' registry error'
    first alias before middle after type_info (Hreach : registry_reachable state)
    (Hnames : NoDup (types_getTypes r))
    (Hcreate : create r state namespaces error = (state', inr (Some registry), error'))
    (Horder : types_getTypes r = before ++ first :: middle ++ alias :: after)
    (Hfirst : types_type r first = Some type_info) (Halias : types_type r alias = Some type_info)
    (Hprotocol : ti_hasProtocol r type_info = true) :
  ∃ ptr, codecForTypeName registry alias = Some ptr ∧ deref_codec registry ptr = None.
Proof.
  apply registry_wf_reachable in Hreach as Hwf.
  destruct (create_bound r state namespaces error state' registry error' Hwf Hcreate)
    as (bound & found & registry1 & _ & _ & Htypes & Hc & Hn & _).
  rewrite app_comm_cons, app_assoc in Horder. rewrite Horder in *.
  destruct (bindTypes_entry r (before ++ first :: middle) alias after registry1 registry type_info)
    as (registry2 & protocol & codec & native & e & ptr & Hbefore & _ & _ & _ & Hptr & Hlive);
    [done|done|intros n; by rewrite Hn|done|done|].
  exists ptr. split; [done|].
  assert (is_Some (codecs registry2 !! type_info)) as [x Hx].
  { apply NoDup_app in Hnames as (Hnd & _ & _).
    rewrite (bindTypes_codecs r _ registry1 registry2 type_info Hbefore Hnd) by (intros; by rewrite Hn).
    right. split; [done|]. exists first. set_solver. }
  by rewrite Hx in Hlive.
Qed.

(** Publishing the data type nodes of a registry that [create] made sends, per data type and in order, the type node, its binary
    encoding and the reference between them, up to the first request that is
    refused: it succeeds exactly when all are accepted. *)
Theorem publishDataTypeNodes_requests (r : R) (state : RegistryState) namespaces create_error state'
    registry create_error' (server : NS) error (Hreach : registry_reachable state)
    (Hcreate : create r state namespaces create_error = (state', inr (Some registry), create_error')) :
  let '(server', ok, error') := publishDataTypeNodes registry server error in
  if ok then
    ∃ statuses, serve (allRequests registry) server = (server', statuses) ∧
      Forall (λ status, status_isGood status = true) statuses ∧ error' = clearError error
  else
    ∃ sent request message rest statuses status,
      allRequests registry = sent ++ (request, message) :: rest ∧
      serve (sent ++ [(request, message)]) server = (server', statuses ++ [status]) ∧
      Forall (λ status, status_isGood status = true) statuses ∧ status_isGood status = false ∧
      error' = assignError error (message +:+ status_name status).
Proof.
  apply registry_wf_reachable in Hreach. unfold publishDataTypeNodes.
  rewrite publishNodes_requests by (intros node; by eapply created_nodes). fold (allRequests registry).
  pose proof (sendRequests_spec (allRequests registry) server) as Hspec.
  destruct (sendRequests (allRequests registry) server) as [server' [text|]].
  - destruct Hspec as (sent & request & prefix & rest & statuses & status & ? & ? & ? & ? & ->). eauto 12.
  - destruct Hspec as (statuses & ? & ?). eauto.
Qed.
End endpoint_facts.

(** ** Witnesses *)

Lemma sample_state_reachable : registry_reachable sample_state.
Proof.
  eapply rtc_l; [apply (step_register _ sample_ext None)|].
  apply rtc_once, (step_register _ sample_base None).
Qed.

Lemma sample_create_ok alias :
  sample_create alias = ((sample_create alias).1.1, inr (Some (sample_registry alias)), None).
Proof.
  assert (Hok : match (sample_create alias).1.2 with inr (Some _) => true | _ => false end = true)
    by (destruct alias; vm_compute; reflexivity).
  assert (Herror : (sample_create alias).2 = None) by (destruct alias; vm_compute; reflexivity).
  unfold sample_registry. destruct (sample_create alias) as [[state [|[registry|]]] error]; [done| |done].
  simpl in *. by subst.
Qed.

(** Two definitions, two data types; the one of [ext] is made with the one of
    [base] in sight. *)
Lemma create_complete_witness :
  length (customDataTypes (sample_registry false)) = 2 ∧
  ∃ definitions, NoDup (def_id <$> definitions) ∧
    length (customDataTypes (sample_registry false)) = length definitions ∧
    data_type_nodes (sample_registry false) = imap definition_node definitions ∧
    ∃ i data_type context,
      definitions !! i = Some (sample_definition "urn:ext" (Some (def_id (sample_definition "urn:base" None)))) ∧
      customDataTypes (sample_registry false) !! i = Some data_type ∧
      endpoint_dataType (sample_registry false) (def_id (sample_definition "urn:ext" None)) = Some data_type ∧
      sees_data_type (sample_registry false) context (sample_definition "urn:base" None).
Proof.
  split; [vm_compute; reflexivity|].
  destruct (create_complete (sample_types false) sample_state sample_namespaces None _
    (sample_registry false) None sample_state_reachable (sample_create_ok false))
    as (_ & definitions & Hnodup & Hall & Hlength & Hnodes & _ & Htypes).
  exists definitions. split_and!; [exact Hnodup|exact Hlength|exact Hnodes|].
  assert (Hext : providers sample_state !! "ext" = Some sample_ext) by (vm_compute; reflexivity).
  assert (Hbase : providers sample_state !! "base" = Some sample_base) by (vm_compute; reflexivity).
  assert (Hdef : sample_definition "urn:ext" (Some (def_id (sample_definition "urn:base" None))) ∈ data_types sample_ext)
    by (apply list_elem_of_singleton; reflexivity).
  assert (Hin : sample_definition "urn:ext" (Some (def_id (sample_definition "urn:base" None))) ∈ definitions).
  { apply Hall. exists "ext", sample_ext. split; [exact Hext|exact Hdef]. }
  apply list_elem_of_lookup in Hin as [i Hi].
  destruct (Htypes i _ Hi) as (data_type & index & create_type & context & Hat & Hlook & _ & _ & _ & _ & _ & _ & _ & Hsees).
  exists i, data_type, context. split_and!; [exact Hi|exact Hat|exact Hlook|].
  eapply (Hsees "ext" sample_ext sample_base); [exact Hext|exact Hdef|exact Hbase| |]; apply list_elem_of_singleton; reflexivity.
Defined.

Lemma create_codecs_witness :
  ∃ ptr codec protocol native, codecForTypeName (sample_registry false) "Bool" = Some ptr ∧
    codecForTypeInfo (sample_registry false) "Bool" = Some ptr ∧
    deref_codec (sample_registry false) ptr = Some codec ∧
    ti_getProtocol (sample_types false) "Bool" = Some protocol ∧
    resolveReference "Bool" (dataType protocol) (sample_registry false) =
      inr (Some (dataTypeNodeId codec, native)).
Proof.
  refine (create_codecs (sample_types false) sample_state sample_namespaces None _
    (sample_registry false) None "Bool" "Bool" sample_state_reachable _ (sample_create_ok false) _ _ _ _).
  - apply ordered_elems_NoDup.
  - vm_compute. left.
  - reflexivity.
  - vm_compute. reflexivity.
  - intros other Hin _. vm_compute in Hin. by apply list_elem_of_singleton in Hin.
Defined.

Lemma alias_codec_dangles_witness :
  ∃ ptr, codecForTypeName (sample_registry true) "bool" = Some ptr ∧
    deref_codec (sample_registry true) ptr = None.
Proof.
  refine (alias_codec_dangles (sample_types true) sample_state sample_namespaces None _
    (sample_registry true) None "Bool" "bool" [] [] [] "Bool" sample_state_reachable _
    (sample_create_ok true) _ _ _ _).
  - apply ordered_elems_NoDup.
  - vm_compute. reflexivity.
  - reflexivity.
  - reflexivity.
  - vm_compute. reflexivity.
Defined.

(** The four nodes of the two data types and their references are accepted. *)
Lemma publishDataTypeNodes_requests_witness :
  ∃ statuses, serve (allRequests (sample_registry false)) [] =
      ((publishDataTypeNodes (sample_registry false) [] None).1.1, statuses) ∧
    Forall (λ status, status_isGood status = true) statuses ∧ None = clearError None.
Proof.
  pose proof (publishDataTypeNodes_requests (sample_types false) sample_state sample_namespaces None _
    (sample_registry false) None (NS := list (DataTypeRequest c_NodeId)) [] None sample_state_reachable
    (sample_create_ok false)) as Hpublish.
  assert (Hok : (publishDataTypeNodes (sample_registry false) [] None).1.2 = true)
    by (vm_compute; reflexivity).
  assert (Herror : (publishDataTypeNodes (sample_registry false) [] None).2 = None)
    by (vm_compute; reflexivity).
  destruct (publishDataTypeNodes (sample_registry false) [] None) as [[server' ok] error'].
  simpl in Hok, Herror. rewrite Hok, Herror in Hpublish. exact Hpublish.
Defined.
