(* ===== verification/Server.v ===== *)
(** The server (src/src/server.cpp, include/rtt/opcua/server.hpp): its life
    cycle, the server thread and the queue of tasks other threads hand to it. *)

From S2P Require Import Prelude ServerOptions.

Inductive ServerState := stopped | starting | running | stopping | failed.

#[global] Instance ServerState_eq_dec : EqDecision ServerState.
Proof. solve_decision. Defined.

Inductive QueuedTaskState := task_queued | task_running | task_cancelled.

#[global] Instance QueuedTaskState_eq_dec : EqDecision QueuedTaskState.
Proof. solve_decision. Defined.

Record Completion := {
  done_flag : bool;
  completion_error : string;
}.

(** A waiting [invoke]: in [wait_for], in the unconditional [wait] after the
    timeout lost the race, or returned with its result and error text. *)
Inductive invocation :=
  | inv_waiting
  | inv_late
  | inv_returned (result : bool) (error : string).

(** Where the server thread is in [run]. *)
Inductive run_pc :=
  | run_enter | run_initialize | run_announce | run_loop
  | run_take (final : bool)
  | run_drain (pending : list nat) (final : bool)
  | run_execute (id : nat) (pending : list nat) (final : bool)
  | run_iterate | run_stop_native | run_clear_registry | run_fail_pending | run_set_stopped
  | catch_reset (e : exn) | catch_registry (e : exn) | catch_fail_pending (e : exn)
  | catch_set_failure (e : exn)
  | run_notify | run_exited.

(** Where the thread that holds [transition_mutex] is. *)
Inductive control_pc :=
  | control_idle
  | start_joining_stale | start_waiting | start_joining_failed
  | stop_requesting | stop_joining.

Definition exceptionMessage (e : option exn) : string :=
  match e with
  | None => ""
  | Some (std_exception what) => what
  | Some other_exception => "unknown server task exception"
  end.

Section server.
(** The native server, the endpoint type registry, and what the thread does
    with them: the set-up from the options to the first [runIterate], which
    also yields the namespace index; [runIterate]; [stop]. *)
Context {native TypeRegistry : Type}.
Context (initialize : ServerOptions → exn + (native * N * TypeRegistry)).
Context (runIterate stop_native : native → exn + native).

(** [Task], when it holds a function: what it does to the native server and the
    exception it ends with. *)
Definition callback_fn : Type := native → native * option exn.

(** [completion] is null for a posted task. *)
Record QueuedTask := {
  callback : callback_fn;
  completion : option Completion;
  task_state : QueuedTaskState;
}.

(** [Server::Impl], the queued task objects by address (in order of creation),
    the threads, the invocations and the callbacks run so far with the
    exceptions they ended with. *)
Record Impl := {
  options : ServerOptions;
  current_state : ServerState;
  namespace_index : N;
  current_error : string;
  server_thread : bool;
  server_thread_id : bool;
  stop_requested : bool;
  type_registry : option TypeRegistry;
  native_server : option native;
  tasks : list nat;
  objects : list QueuedTask;
  thread : run_pc;
  control : control_pc;
  invocations : gmap nat invocation;
  executed : list (nat * option exn);
}.

Definition set_lifecycle (s : ServerState) (index : N) (error : string) (stop : bool) (w : Impl) : Impl :=
  {| options := options w; current_state := s; namespace_index := index; current_error := error;
     server_thread := server_thread w; server_thread_id := server_thread_id w; stop_requested := stop;
     type_registry := type_registry w; native_server := native_server w; tasks := tasks w;
     objects := objects w; thread := thread w; control := control w;
     invocations := invocations w; executed := executed w |}.

Definition set_state (s : ServerState) (w : Impl) : Impl :=
  set_lifecycle s (namespace_index w) (current_error w) (stop_requested w) w.

Definition set_threads (joinable : bool) (id : bool) (pc : run_pc) (c : control_pc) (w : Impl) : Impl :=
  {| options := options w; current_state := current_state w; namespace_index := namespace_index w;
     current_error := current_error w; server_thread := joinable; server_thread_id := id;
     stop_requested := stop_requested w; type_registry := type_registry w;
     native_server := native_server w; tasks := tasks w; objects := objects w;
     thread := pc; control := c; invocations := invocations w; executed := executed w |}.

Definition goto (pc : run_pc) (w : Impl) : Impl :=
  set_threads (server_thread w) (server_thread_id w) pc (control w) w.
Definition set_control (c : control_pc) (w : Impl) : Impl :=
  set_threads (server_thread w) (server_thread_id w) (thread w) c w.

Definition set_native (n : option native) (r : option TypeRegistry) (w : Impl) : Impl :=
  {| options := options w; current_state := current_state w; namespace_index := namespace_index w;
     current_error := current_error w; server_thread := server_thread w;
     server_thread_id := server_thread_id w; stop_requested := stop_requested w;
     type_registry := r; native_server := n; tasks := tasks w; objects := objects w;
     thread := thread w; control := control w; invocations := invocations w; executed := executed w |}.

Definition set_queue (queue : list nat) (objs : list QueuedTask) (invs : gmap nat invocation)
    (done : list (nat * option exn)) (w : Impl) : Impl :=
  {| options := options w; current_state := current_state w; namespace_index := namespace_index w;
     current_error := current_error w; server_thread := server_thread w;
     server_thread_id := server_thread_id w; stop_requested := stop_requested w;
     type_registry := type_registry w; native_server := native_server w; tasks := queue;
     objects := objs; thread := thread w; control := control w; invocations := invs;
     executed := done |}.

Definition Impl_init (configured_options : ServerOptions) : Impl :=
  {| options := configured_options; current_state := stopped; namespace_index := 0; current_error := "";
     server_thread := false; server_thread_id := false; stop_requested := false; type_registry := None;
     native_server := None; tasks := []; objects := []; thread := run_exited; control := control_idle;
     invocations := ∅; executed := [] |}.

(** ** Helpers *)

(** [setFailure]. *)
Definition setFailure (error : string) (w : Impl) : Impl :=
  set_lifecycle failed (namespace_index w)
    (if str_empty error then "OPC UA server failed" else error) (stop_requested w) w.

(** [complete]. *)
Definition complete_task (error : string) (task : QueuedTask) : QueuedTask :=
  {| callback := callback task;
     completion := (λ _, {| done_flag := true; completion_error := error |}) <$> completion task;
     task_state := task_state task |}.

Definition complete (id : nat) (error : string) (w : Impl) : Impl :=
  set_queue (tasks w) (alter (complete_task error) id (objects w)) (invocations w) (executed w) w.

(** [state.compare_exchange_strong(queued, desired)]; [None] when it fails. *)
Definition set_task_state (desired : QueuedTaskState) (task : QueuedTask) : QueuedTask :=
  {| callback := callback task; completion := completion task; task_state := desired |}.

Definition compare_exchange (id : nat) (desired : QueuedTaskState) (w : Impl) : option Impl :=
  task ← objects w !! id;
  if bool_decide (task_state task = task_queued) then
    Some (set_queue (tasks w) (alter (set_task_state desired) id (objects w))
            (invocations w) (executed w) w)
  else None.

(** [failPendingTasks]. *)
Definition failPendingTasks (error : string) (w : Impl) : Impl :=
  foldl (λ w id, complete id error w) (set_queue [] (objects w) (invocations w) (executed w) w) (tasks w).

(** [enqueue] and the insertion in [invoke]: the new object and its address at
    the end of the queue, provided the server runs. *)
Definition push_task (task : callback_fn) (waits : bool) (w : Impl) : Impl :=
  let id := length (objects w) in
  set_queue (tasks w ++ [id])
    (objects w ++ [{| callback := task;
                      completion := if waits then Some {| done_flag := false; completion_error := "" |}
                                    else None;
                      task_state := task_queued |}])
    (if waits then <[id := inv_waiting]> (invocations w) else invocations w) (executed w) w.

(** ** The server thread *)

(** One step of [run]; [None] when the thread has ended. *)
Definition run_step (w : Impl) : option Impl :=
  match thread w with
  | run_enter => Some (set_threads (server_thread w) true run_initialize (control w) w)
  | run_initialize =>
      match initialize (options w) with
      | inl e => Some (goto (catch_reset e) w)
      | inr (server, index, registry) =>
          Some (goto run_announce (set_native (Some server) (Some registry)
            (set_lifecycle (current_state w) index (current_error w) (stop_requested w) w)))
      end
  | run_announce =>
      Some (goto run_loop (if stop_requested w then w else set_state running w))
  | run_loop => Some (goto (run_take (stop_requested w)) w)
  | run_take final =>
      Some (goto (run_drain (tasks w) final) (set_queue [] (objects w) (invocations w) (executed w) w))
  | run_drain [] final => Some (goto (if final then run_stop_native else run_iterate) w)
  | run_drain (id :: pending) final =>
      match compare_exchange id task_running w with
      | Some w => Some (goto (run_execute id pending final) w)
      | None => Some (goto (run_drain pending final) (complete id "OPC UA server task cancelled" w))
      end
  | run_execute id pending final =>
      task ← objects w !! id;
      server ← native_server w;
      let '(server, thrown) := callback task server in
      Some (goto (run_drain pending final)
        (complete id (exceptionMessage thrown)
           (set_queue (tasks w) (objects w) (invocations w) (executed w ++ [(id, thrown)])
              (set_native (Some server) (type_registry w) w))))
  | run_iterate =>
      server ← native_server w;
      match runIterate server with
      | inl e => Some (goto (catch_reset e) w)
      | inr server => Some (goto run_loop (set_native (Some server) (type_registry w) w))
      end
  | run_stop_native =>
      server ← native_server w;
      match stop_native server with
      | inl e => Some (goto (catch_reset e) w)
      | inr _ => Some (goto run_clear_registry (set_native None (type_registry w) w))
      end
  | run_clear_registry => Some (goto run_fail_pending (set_native None None w))
  | run_fail_pending => Some (goto run_set_stopped (failPendingTasks "OPC UA server stopped" w))
  | run_set_stopped =>
      Some (goto run_notify (set_lifecycle stopped 0 (current_error w) (stop_requested w) w))
  | catch_reset e => Some (goto (catch_registry e) (set_native None (type_registry w) w))
  | catch_registry e => Some (goto (catch_fail_pending e) (set_native (native_server w) None w))
  | catch_fail_pending e =>
      Some (goto (catch_set_failure e) (failPendingTasks "OPC UA server failed" w))
  | catch_set_failure e =>
      Some (goto run_notify (setFailure (exceptionMessage (Some e))
        (set_lifecycle (current_state w) 0 (current_error w) (stop_requested w) w)))
  | run_notify => Some (set_threads (server_thread w) false run_exited (control w) w)
  | run_exited => None
  end.

(** ** Calls of other threads *)

(** [post] of a callable task: whether it was accepted. *)
Definition post (task : callback_fn) (w : Impl) : Impl * bool :=
  if bool_decide (current_state w = running) then (push_task task false w, true) else (w, false).

(** The part of [invoke] before the wait, for a callable task and a positive
    timeout on another thread; an immediate result is [inr]. *)
Definition invoke_begin (task : callback_fn) (w : Impl) : Impl * (nat + bool * string) :=
  if bool_decide (current_state w = running)
  then (push_task task true w, inl (length (objects w)))
  else (w, inr (false, "OPC UA server is not running")).

(** The arguments [invoke] refuses at once, and the direct call on the server
    thread. *)
Definition invoke_guard (task : option callback_fn) (timeout : Z) : option string :=
  match task with
  | None => Some "server task must not be empty"
  | Some _ => if (timeout <=? 0)%Z then Some "server task timeout must be positive" else None
  end.
Definition invoke_inline (task : callback_fn) (server : native) : native * (bool * string) :=
  let '(server, thrown) := task server in
  match thrown with
  | None => (server, (true, ""))
  | Some e => (server, (false, exceptionMessage (Some e)))
  end.

Definition return_invocation (id : nat) (result : invocation) (w : Impl) : Impl :=
  set_queue (tasks w) (objects w) (<[id := result]> (invocations w)) (executed w) w.

(** [wait_for] ends with the predicate false. *)
Definition invoke_timeout (id : nat) (w : Impl) : option Impl :=
  match invocations w !! id, objects w !! id ≫= completion with
  | Some inv_waiting, Some c =>
      if done_flag c then None
      else match compare_exchange id task_cancelled w with
           | Some w => Some (return_invocation id (inv_returned false "OPC UA server task timed out") w)
           | None => Some (return_invocation id inv_late w)
           end
  | _, _ => None
  end.

(** A wait ends with the predicate true. *)
Definition invoke_finish (id : nat) (w : Impl) : option Impl :=
  match invocations w !! id, objects w !! id ≫= completion with
  | Some (inv_waiting | inv_late), Some c =>
      if done_flag c
      then Some (return_invocation id
                   (inv_returned (str_empty (completion_error c)) (completion_error c)) w)
      else None
  | _, _ => None
  end.

(** ** Life cycle *)

Definition requestStop (w : Impl) : Impl :=
  set_lifecycle
    (if bool_decide (current_state w = running ∨ current_state w = starting) then stopping
     else current_state w)
    (namespace_index w) (current_error w) true w.

(** [start] once no thread is left: the new thread is created and [start] waits. *)
Definition start_thread (w : Impl) : Impl :=
  set_threads true (server_thread_id w) run_enter start_waiting (set_lifecycle starting 0 "" false w).

Definition start (w : Impl) : option Impl :=
  match control w with
  | control_idle =>
      match validateServerOptions (options w) with
      | Some validation_error => Some (setFailure validation_error w)
      | None =>
          if bool_decide (current_state w = running) then Some w
          else if server_thread w
          then Some (set_threads false (server_thread_id w) (thread w) start_joining_stale w)
          else Some (start_thread w)
      end
  | _ => None
  end.

Definition start_joined (w : Impl) : option Impl :=
  match control w, thread w with
  | start_joining_stale, run_exited => Some (start_thread w)
  | _, _ => None
  end.

(** After the wait of [start]. *)
Definition start_result (w : Impl) : Impl :=
  if bool_decide (current_state w = running) then set_control control_idle w
  else if server_thread w
  then set_threads false (server_thread_id w) (thread w) start_joining_failed w
  else set_control control_idle w.

Definition start_wake (w : Impl) : option Impl :=
  match control w with
  | start_waiting =>
      if bool_decide (current_state w = starting) then None else Some (start_result w)
  | _ => None
  end.

Definition start_timeout (w : Impl) : option Impl :=
  match control w with
  | start_waiting =>
      if bool_decide (current_state w = starting)
      then Some (start_result (set_lifecycle failed (namespace_index w)
                   "OPC UA server startup timed out" true w))
      else None
  | _ => None
  end.

Definition start_failed_joined (w : Impl) : option Impl :=
  match control w, thread w with
  | start_joining_failed, run_exited => Some (set_control control_idle w)
  | _, _ => None
  end.

(** The end of [stop]. *)
Definition stop_finish (w : Impl) : Impl :=
  let w := failPendingTasks "OPC UA server stopped" w in
  set_control control_idle (set_lifecycle stopped 0 (current_error w) (stop_requested w) w).

(** [stop] up to the end of its [requestStop], and its own critical section. *)
Definition stop (w : Impl) : option Impl :=
  match control w with
  | control_idle => Some (set_control stop_requesting (requestStop w))
  | _ => None
  end.

Definition stop_locked (w : Impl) : option Impl :=
  match control w with
  | stop_requesting =>
      if bool_decide (current_state w = stopped) && negb (server_thread w)
      then Some (set_control control_idle w)
      else
        let w := requestStop w in
        if server_thread w
        then Some (set_threads false (server_thread_id w) (thread w) stop_joining w)
        else Some (stop_finish w)
  | _ => None
  end.

Definition stop_joined (w : Impl) : option Impl :=
  match control w, thread w with
  | stop_joining, run_exited => Some (stop_finish w)
  | _, _ => None
  end.

(** ** Interleavings *)

Inductive action :=
  | act_run
  | act_post (task : callback_fn)
  | act_invoke (task : callback_fn)
  | act_timeout (id : nat)
  | act_finish (id : nat)
  | act_requestStop
  | act_start | act_start_joined | act_start_wake | act_start_timeout | act_start_failed_joined
  | act_stop | act_stop_locked | act_stop_joined.

Definition act (a : action) (w : Impl) : option Impl :=
  match a with
  | act_run => run_step w
  | act_post task => Some (post task w).1
  | act_invoke task => Some (invoke_begin task w).1
  | act_timeout id => invoke_timeout id w
  | act_finish id => invoke_finish id w
  | act_requestStop => Some (requestStop w)
  | act_start => start w
  | act_start_joined => start_joined w
  | act_start_wake => start_wake w
  | act_start_timeout => start_timeout w
  | act_start_failed_joined => start_failed_joined w
  | act_stop => stop w
  | act_stop_locked => stop_locked w
  | act_stop_joined => stop_joined w
  end.

Fixpoint acts (l : list action) (w : Impl) : option Impl :=
  match l with
  | [] => Some w
  | a :: l' => act a w ≫= acts l'
  end.

(** ** Specification *)

Definition timed_out : invocation := inv_returned false "OPC UA server task timed out".

(** The tasks the server thread has taken from the queue and not completed, and
    the one whose callback it runs. *)
Definition in_flight (pc : run_pc) : list nat :=
  match pc with
  | run_drain pending _ => pending
  | run_execute id pending _ => id :: pending
  | _ => []
  end.
Definition current_task (pc : run_pc) : option nat :=
  match pc with
  | run_execute id _ _ => Some id
  | _ => None
  end.

(** Accepted tasks that are not completed, in order of acceptance. *)
Definition open_tasks (w : Impl) : list nat := in_flight (thread w) ++ tasks w.

(** The life of a task: accepted in order, executed or dropped in order, and
    completed exactly when it is no longer open. *)
Record queue_inv (open : list nat) (current : option nat) (objs : list QueuedTask)
    (invs : gmap nat invocation) (done : list (nat * option exn)) : Prop := {
  qi_sorted : StronglySorted lt (done.*1 ++ open);
  qi_bound : ∀ id, id ∈ done.*1 ++ open → id < length objs;
  qi_current : ∀ id, current = Some id → head open = Some id;
  qi_state : ∀ id task, objs !! id = Some task →
    (task_state task = task_running ↔ id ∈ done.*1 ∨ current = Some id);
  qi_done : ∀ id task c, objs !! id = Some task → completion task = Some c →
    (done_flag c = false ↔ id ∈ open) ∧
    (done_flag c = true → (∀ thrown, (id, thrown) ∈ done → completion_error c = exceptionMessage thrown) ∧
       (id ∉ done.*1 → completion_error c ≠ ""));
  qi_invocation : ∀ id i, invs !! id = Some i → ∃ task c,
    objs !! id = Some task ∧ completion task = Some c ∧
    match i with
    | inv_waiting => task_state task ≠ task_cancelled
    | inv_late => task_state task = task_running
    | inv_returned result error =>
        (i = timed_out ∧ task_state task = task_cancelled) ∨
        (task_state task ≠ task_cancelled ∧ done_flag c = true ∧ error = completion_error c ∧
         result = str_empty error)
    end;
  qi_cancelled : ∀ id task, objs !! id = Some task → task_state task = task_cancelled →
    invs !! id = Some timed_out;
}.

Definition server_queue_inv (w : Impl) : Prop :=
  queue_inv (open_tasks w) (current_task (thread w)) (objects w) (invocations w) (executed w).

(** Whether the thread is between the announcement and the end of its work. *)
Definition may_run (pc : run_pc) : bool :=
  match pc with
  | run_loop | run_take _ | run_drain _ _ | run_execute _ _ _ | run_iterate
  | catch_reset _ | catch_registry _ | catch_fail_pending _ | catch_set_failure _ => true
  | _ => false
  end.

(** Where the thread uses the native server. *)
Definition uses_native (pc : run_pc) : bool :=
  match pc with
  | run_announce | run_loop | run_take _ | run_drain _ _ | run_execute _ _ _ | run_iterate
  | run_stop_native => true
  | _ => false
  end.

(** Where the thread is on its way to a clean end. *)
Definition ending (pc : run_pc) : bool :=
  match pc with
  | run_take final | run_drain _ final | run_execute _ _ final => final
  | run_stop_native | run_clear_registry | run_fail_pending | run_set_stopped => true
  | _ => false
  end.

Record lifecycle_inv (w : Impl) : Prop := {
  lc_native : uses_native (thread w) = true → is_Some (native_server w);
  lc_running : current_state w = running → stop_requested w = false ∧ may_run (thread w) = true;
  lc_ending : ending (thread w) = true → stop_requested w = true;
  lc_control : match control w with
    | control_idle | stop_requesting => server_thread w = false → thread w = run_exited
    | start_waiting => server_thread w = true
    | start_joining_stale | start_joining_failed | stop_joining => server_thread w = false
    end;
  lc_stopped : thread w = run_set_stopped → tasks w = [];
  lc_exited : server_thread_id w = true → thread w ≠ run_exited;
  lc_finished : current_state w = stopped →
    tasks w = [] ∧ (thread w = run_notify ∨ thread w = run_exited);
}.

Definition server_reachable (w : Impl) : Prop :=
  ∃ configured_options l, acts l (Impl_init configured_options) = Some w.
End server.

(** ** A concrete server

    Its native server is a counter that [runIterate] increments and that fails
    at 3; the endpoint registry is a placeholder. *)
Definition example_initialize (configured_options : ServerOptions) : exn + (nat * N * unit) :=
  inr (0, 2%N, tt).
Definition example_iterate (n : nat) : exn + nat :=
  if n <? 3 then inr (S n) else inl (std_exception "iterate failed").

Definition example_acts (l : list action) : option (Impl (native := nat) (TypeRegistry := unit)) :=
  acts example_initialize example_iterate (λ n, inr n) l (Impl_init default_options).
Definition example_world (l : list action) : Impl (native := nat) (TypeRegistry := unit) :=
  default (Impl_init default_options) (example_acts l).

(** The server is started and runs. *)
Definition example_start : list (action (native := nat)) :=
  [act_start; act_run; act_run; act_run; act_start_wake].
(** Three iterations, then the failing one up to the end of the handler. *)
Definition example_failure : list (action (native := nat)) :=
  replicate 12 act_run ++ [act_run; act_run; act_run; act_run; act_run; act_run; act_run].
Definition example_task : nat → nat * option exn := λ n, (n, None).
Definition example_silent_task : nat → nat * option exn := λ n, (n, Some (std_exception "")).
Definition example_two_tasks : list (action (native := nat)) :=
  example_start ++ [act_invoke example_task; act_invoke example_task; act_run; act_run; act_run].
Definition example_one_task : list (action (native := nat)) :=
  example_start ++ [act_invoke example_task; act_run; act_run; act_run; act_run; act_finish 0].
Definition example_stopping : list (action (native := nat)) :=
  example_start ++ [act_invoke example_task; act_stop; act_stop_locked] ++ replicate 10 act_run.
Definition example_runs (l : list action) : bool :=
  match example_acts l with Some _ => true | None => false end.

(** ** Lemmas: sorted lists *)

Lemma sorted_lt_NoDup (l : list nat) : StronglySorted lt l → NoDup l.
Proof.
  induction 1 as [|x l Hl IH Hx]; [constructor|]. constructor; [|done].
  intros Hin. apply (proj1 (Forall_forall _ _) Hx) in Hin. lia.
Qed.

Lemma sorted_lt_snoc (l : list nat) n :
  StronglySorted lt l → (∀ x, x ∈ l → x < n) → StronglySorted lt (l ++ [n]).
Proof.
  induction 1 as [|x l Hl IH Hx]; intros Hn; simpl; [repeat constructor|].
  constructor; [apply IH; set_solver|].
  apply Forall_app. split; [done|]. repeat constructor. apply Hn. set_solver.
Qed.

Lemma sorted_lt_remove (l1 l2 : list nat) n :
  StronglySorted lt (l1 ++ n :: l2) → StronglySorted lt (l1 ++ l2).
Proof.
  induction l1 as [|x l1 IH]; simpl; intros Hs; inversion Hs as [|?? Hs' Hx]; subst; [done|].
  constructor; [by apply IH|]. rewrite Forall_app, Forall_cons in Hx. apply Forall_app. naive_solver.
Qed.

Section server_facts.
Context {native TypeRegistry : Type}.
Context (initialize : ServerOptions → exn + (native * N * TypeRegistry)).
Context (runIterate stop_native : native → exn + native).
Notation Impl := (Impl (native := native) (TypeRegistry := TypeRegistry)).
Notation QueuedTask := (QueuedTask (native := native)).
Notation run_step := (run_step initialize runIterate stop_native).
Notation act := (act initialize runIterate stop_native).
Notation acts := (acts initialize runIterate stop_native).
Notation server_reachable := (server_reachable initialize runIterate stop_native).
Implicit Types (objs : list QueuedTask) (w : Impl).

(** ** Lemmas: the queue *)

Lemma queue_inv_push open current objs invs done task :
  queue_inv open current objs invs done →
  task_state task = task_queued →
  (∀ c, completion task = Some c → done_flag c = false) →
  queue_inv (open ++ [length objs]) current (objs ++ [task])
    (if completion task then <[length objs := inv_waiting]> invs else invs) done.
Proof.
  intros [Hs Hb Hcur Hst Hd Hi Hc] Htask Hcomp.
  assert (Hnew : length objs ∉ done.*1 ++ open).
  { intros Hin. apply Hb in Hin. lia. }
  assert (Hinvs : invs !! length objs = None).
  { destruct (invs !! length objs) as [i|] eqn:Hx; [|done].
    destruct (Hi _ _ Hx) as (t & _ & Ht & _). apply lookup_lt_Some in Ht. lia. }
  assert (Hlook : ∀ id t, (objs ++ [task]) !! id = Some t →
    (id < length objs ∧ objs !! id = Some t) ∨ (id = length objs ∧ t = task)).
  { intros id t Ht. apply lookup_app_Some in Ht as [Ht|[Hge Ht]].
    - left. split; [by apply lookup_lt_Some in Ht|done].
    - right. apply list_lookup_singleton_Some in Ht as [? ->]. split; [lia|done]. }
  split.
  - rewrite app_assoc. by apply sorted_lt_snoc.
  - intros id. rewrite app_assoc, length_app. simpl. rewrite elem_of_app.
    intros [Hin%Hb| ->%list_elem_of_singleton]; lia.
  - intros id Hid. specialize (Hcur id Hid). destruct open; simplify_eq/=. done.
  - intros id t [[_ Ht]|[-> ->]]%Hlook; [by apply Hst|]. rewrite Htask. split; [done|].
    rewrite elem_of_app in Hnew. intros [?|Hx]; [naive_solver|].
    specialize (Hcur _ Hx). destruct open; simplify_eq/=. set_solver.
  - intros id t c [[Hlt Ht]|[-> ->]]%Hlook Hcompl.
    + destruct (Hd id t c Ht Hcompl) as [Hopen Hrest]. split; [|done].
      rewrite Hopen, elem_of_app, list_elem_of_singleton. split; [by left|]. intros [?| ->]; [done|lia].
    + specialize (Hcomp c Hcompl). rewrite Hcomp. split; [|done]. split; [set_solver|done].
  - intros id i Hlk.
    assert (Hold : invs !! id = Some i ∨ (id = length objs ∧ i = inv_waiting ∧ is_Some (completion task))).
    { destruct (completion task) eqn:Hct; [|by left].
      apply lookup_insert_Some in Hlk as [[<- <-]|[_ ?]]; [right|by left]. eauto. }
    destruct Hold as [Hold|(-> & -> & [c Hct])].
    + destruct (Hi id i Hold) as (t & c & Ht & Hrest). exists t, c.
      split; [by apply lookup_app_l_Some|done].
    + exists task, c. split_and!; [by apply list_lookup_middle|done|congruence].
  - intros id t [[Hlt Ht]|[-> ->]]%Hlook Hcan; [|congruence].
    specialize (Hc id t Ht Hcan). destruct (completion task); [|done].
    rewrite lookup_insert_ne by lia. done.
Qed.

(** Completing the first open task, which was not executed, with an error. *)
Lemma queue_inv_drop open1 open2 id error objs invs done current :
  queue_inv (open1 ++ id :: open2) current objs invs done → error ≠ "" →
  (current = None ∨ open1 ≠ []) →
  queue_inv (open1 ++ open2) current (alter (complete_task error) id objs) invs done.
Proof.
  intros [Hs Hb Hcur Hst Hd Hi Hc] Herror Hhead.
  pose proof (sorted_lt_NoDup _ Hs) as Hnd.
  apply NoDup_app in Hnd as (_ & Hdisj & Hnd). apply NoDup_app in Hnd as (Hnd1 & Hdisj2 & [Hid2 _]%NoDup_cons).
  assert (Hid : id ∉ done.*1) by (intros Hin; apply (Hdisj id Hin); set_solver).
  assert (Hid1 : id ∉ open1) by (intros Hin; apply (Hdisj2 id Hin); set_solver).
  split.
  - rewrite app_assoc in *. by apply sorted_lt_remove in Hs.
  - intros x Hx. rewrite length_alter. apply Hb. set_solver.
  - intros x Hx. specialize (Hcur x Hx). destruct Hhead as [?|Hne]; [congruence|].
    destruct open1; simplify_eq/=. done.
  - intros x t Ht. rewrite list_lookup_alter in Ht. case_decide; subst; [|by apply Hst].
    apply fmap_Some in Ht as (t' & Ht' & ->). simpl. by apply Hst.
  - intros x t c Ht Hcompl. rewrite list_lookup_alter in Ht. case_decide as Hx; subst.
    + apply fmap_Some in Ht as (t' & Ht' & ->). simpl in Hcompl.
      apply fmap_Some in Hcompl as (c' & Hc' & ->). simpl. split; [set_solver|]. intros _.
      split; [|done]. intros thrown Hin. exfalso. apply Hid. apply list_elem_of_fmap. by exists (x, thrown).
    + destruct (Hd x t c Ht Hcompl) as [Hopen Hrest]. split; [|done]. rewrite Hopen. set_solver.
  - intros x i Hlk. destruct (Hi x i Hlk) as (t & c & Ht & Hcompl & Hcase).
    rewrite list_lookup_alter. case_decide as Hx; subst; [|by exists t, c].
    rewrite Ht. simpl. exists (complete_task error t). simpl. rewrite Hcompl. simpl.
    eexists. split_and!; [done|done|]. destruct i as [| |result e]; [done|done|].
    destruct Hcase as [Hcase|(Hn & Hdone & -> & ->)]; [by left|].
    exfalso. destruct (Hd x t c Ht Hcompl) as [[_ Hopen] _].
    rewrite Hopen in Hdone; [done|]. set_solver.
  - intros x t Ht Hcan. rewrite list_lookup_alter in Ht. case_decide as Hx; subst; [|by eapply Hc].
    apply fmap_Some in Ht as (t' & Ht' & ->). by eapply Hc.
Qed.

Lemma queue_inv_fail open queue error objs invs done current :
  queue_inv (open ++ queue) current objs invs done → error ≠ "" → (current = None ∨ open ≠ []) →
  queue_inv open current (foldl (λ objs id, alter (complete_task error) id objs) objs queue) invs done.
Proof.
  intros Hinv Herror Hhead. revert objs Hinv. induction queue as [|id queue IH]; intros objs Hinv; simpl.
  - by rewrite app_nil_r in Hinv.
  - apply IH. by apply queue_inv_drop.
Qed.

(** Changing the state of a task whose state is [task_queued]. *)
Lemma queue_inv_start id rest objs invs done task :
  queue_inv (id :: rest) None objs invs done → objs !! id = Some task → task_state task = task_queued →
  queue_inv (id :: rest) (Some id) (alter (set_task_state task_running) id objs) invs done.
Proof.
  intros [Hs Hb Hcur Hst Hd Hi Hc] Hid Hq. split.
  - done.
  - intros x. rewrite length_alter. apply Hb.
  - by intros x [= ->].
  - intros x t Ht. rewrite list_lookup_alter in Ht. case_decide as Hx; subst.
    + rewrite Hid in Ht. injection Ht as <-. simpl. naive_solver.
    + rewrite (Hst x t Ht). naive_solver.
  - intros x t c Ht Hcompl. rewrite list_lookup_alter in Ht. case_decide as Hx; subst; [|by eapply Hd].
    rewrite Hid in Ht. injection Ht as <-. simpl in Hcompl. by eapply Hd.
  - intros x i Hlk. destruct (Hi x i Hlk) as (t & c & Ht & Hcompl & Hcase).
    rewrite list_lookup_alter. case_decide as Hx; subst; [|by exists t, c].
    rewrite Ht. simpl. exists (set_task_state task_running t), c. split_and!; [done|done|]. simpl.
    rewrite Hid in Ht. simplify_eq. destruct i as [| |result e]; [done|done|].
    destruct Hcase as [[_ ?]|(Hn & Hrest)]; [congruence|]. right. done.
  - intros x t Ht Hcan. rewrite list_lookup_alter in Ht. case_decide as Hx; subst; [|by eapply Hc].
    apply fmap_Some in Ht as (t' & Ht' & ->). done.
Qed.

(** Recording the callback that ran and completing its task. *)
Lemma queue_inv_executed id rest objs invs done thrown :
  queue_inv (id :: rest) (Some id) objs invs done →
  queue_inv rest None (alter (complete_task (exceptionMessage thrown)) id objs) invs
    (done ++ [(id, thrown)]).
Proof.
  intros [Hs Hb Hcur Hst Hd Hi Hc].
  pose proof (sorted_lt_NoDup _ Hs) as Hnd. apply NoDup_app in Hnd as (_ & Hdisj & [Hid2 _]%NoDup_cons).
  assert (Hid : id ∉ done.*1) by (intros Hin; apply (Hdisj id Hin); set_solver).
  assert (Hlist : (done ++ [(id, thrown)]).*1 ++ rest = done.*1 ++ id :: rest)
    by (by rewrite fmap_app, <-app_assoc).
  split.
  - by rewrite Hlist.
  - intros x. rewrite Hlist, length_alter. apply Hb.
  - done.
  - intros x t Ht. rewrite fmap_app, elem_of_app, list_lookup_alter in *. simpl. case_decide as Hx; subst.
    + apply fmap_Some in Ht as (t' & Ht' & ->). simpl. rewrite (Hst x t' Ht'). set_solver.
    + rewrite (Hst x t Ht). set_solver.
  - intros x t c Ht Hcompl. rewrite list_lookup_alter in Ht. case_decide as Hx; subst.
    + apply fmap_Some in Ht as (t' & Ht' & ->). simpl in Hcompl.
      apply fmap_Some in Hcompl as (c' & Hc' & ->). simpl. split; [set_solver|]. intros _. split.
      * intros thrown'. rewrite elem_of_app, list_elem_of_singleton. intros [Hin|[= ->]]; [|done].
        exfalso. apply Hid, list_elem_of_fmap. by exists (x, thrown').
      * rewrite fmap_app. set_solver.
    + destruct (Hd x t c Ht Hcompl) as [Hopen Hrest]. split.
      * rewrite Hopen. set_solver.
      * intros Hdone. destruct (Hrest Hdone) as [Hr1 Hr2]. split; [set_solver|].
        rewrite fmap_app. set_solver.
  - intros x i Hlk. destruct (Hi x i Hlk) as (t & c & Ht & Hcompl & Hcase).
    rewrite list_lookup_alter. case_decide as Hx; subst; [|by exists t, c].
    rewrite Ht. simpl. exists (complete_task (exceptionMessage thrown) t). simpl. rewrite Hcompl. simpl.
    eexists. split_and!; [done|done|]. destruct i as [| |result e]; [done|done|].
    destruct Hcase as [Hcase|(Hn & Hdone & -> & ->)]; [by left|].
    exfalso. destruct (Hd x t c Ht Hcompl) as [[_ Hopen] _]. rewrite Hopen in Hdone; [done|]. set_solver.
  - intros x t Ht Hcan. rewrite list_lookup_alter in Ht. case_decide as Hx; subst; [|by eapply Hc].
    apply fmap_Some in Ht as (t' & Ht' & ->). by eapply Hc.
Qed.

(** A waiting invocation times out, before or after its task was started. *)
Lemma queue_inv_cancel open current objs invs done id task c :
  queue_inv open current objs invs done → invs !! id = Some inv_waiting →
  objs !! id = Some task → completion task = Some c → task_state task = task_queued →
  queue_inv open current (alter (set_task_state task_cancelled) id objs) (<[id := timed_out]> invs) done.
Proof.
  intros [Hs Hb Hcur Hst Hd Hi Hc] Hinv Hid Hcompl Hq. split.
  - done.
  - intros x. rewrite length_alter. apply Hb.
  - done.
  - intros x t Ht. rewrite list_lookup_alter in Ht. case_decide as Hx; subst; [|by apply Hst].
    rewrite Hid in Ht. injection Ht as <-. simpl. split; [done|].
    rewrite <-(Hst x task Hid). congruence.
  - intros x t c' Ht Hc'. rewrite list_lookup_alter in Ht. case_decide as Hx; subst; [|by eapply Hd].
    rewrite Hid in Ht. injection Ht as <-. simpl in Hc'. by eapply Hd.
  - intros x i Hlk. apply lookup_insert_Some in Hlk as [[<- <-]|[Hne Hlk]].
    + exists (set_task_state task_cancelled task), c. rewrite list_lookup_alter_eq, Hid. naive_solver.
    + destruct (Hi x i Hlk) as (t & c' & Ht & Hrest). exists t, c'.
      by rewrite list_lookup_alter_ne.
  - intros x t Ht Hcan. destruct (decide (x = id)) as [->|Hne]; [by rewrite lookup_insert_eq|].
    rewrite list_lookup_alter_ne in Ht by done. rewrite lookup_insert_ne by done. by eapply Hc.
Qed.

Lemma queue_inv_invocation open current objs invs done id i task c :
  queue_inv open current objs invs done →
  objs !! id = Some task → completion task = Some c → task_state task ≠ task_cancelled →
  match i with
  | inv_waiting => True
  | inv_late => task_state task = task_running
  | inv_returned result error =>
      done_flag c = true ∧ error = completion_error c ∧ result = str_empty error
  end →
  queue_inv open current objs (<[id := i]> invs) done.
Proof.
  intros [Hs Hb Hcur Hst Hd Hi Hc] Hid Hcompl Hn Hcase. split; try done.
  - intros x i' Hlk. apply lookup_insert_Some in Hlk as [[<- <-]|[Hne Hlk]]; [|by apply Hi].
    exists task, c. split_and!; [done|done|]. destruct i; naive_solver.
  - intros x t Ht Hcan. destruct (decide (x = id)) as [->|Hne]; [congruence|].
    rewrite lookup_insert_ne by done. by eapply Hc.
Qed.

Lemma failPendingTasks_eq error w :
  failPendingTasks error w =
  set_queue [] (foldl (λ objs id, alter (complete_task error) id objs) (objects w) (tasks w))
    (invocations w) (executed w) w.
Proof.
  unfold failPendingTasks.
  assert (Hgen : ∀ queue objs, foldl (λ w id, complete id error w)
      (set_queue [] objs (invocations w) (executed w) w) queue =
    set_queue [] (foldl (λ objs id, alter (complete_task error) id objs) objs queue)
      (invocations w) (executed w) w).
  { clear. induction queue as [|id queue IH]; intros objs; simpl; [done|]. by rewrite <-IH. }
  apply Hgen.
Qed.

Lemma compare_exchange_Some id desired w w' :
  compare_exchange id desired w = Some w' →
  ∃ task, objects w !! id = Some task ∧ task_state task = task_queued ∧
    w' = set_queue (tasks w) (alter (set_task_state desired) id (objects w)) (invocations w) (executed w) w.
Proof.
  unfold compare_exchange. destruct (objects w !! id) as [task|]; simpl; [|done].
  case_bool_decide; [|done]. intros [= <-]. eauto.
Qed.

Lemma compare_exchange_None id desired w task :
  compare_exchange id desired w = None → objects w !! id = Some task → task_state task ≠ task_queued.
Proof. unfold compare_exchange. intros Hc Ht. rewrite Ht in Hc. simpl in Hc. by case_bool_decide. Qed.

(** ** Lemmas: every action keeps the queue invariant *)

Lemma run_step_queue w w' : server_queue_inv w → run_step w = Some w' → server_queue_inv w'.
Proof.
  unfold server_queue_inv, open_tasks, run_step. intros Hinv Hrun.
  destruct (thread w) as [| | | |final|[|id pending] final|id pending final| | | | | |e|e|e|e| |] eqn:Hpc;
    simpl in *; try (by simplify_eq/=); try (by destruct (native_server w); simplify_eq/=; by_branches).
  - simplify_eq/=. by rewrite app_nil_r.
  - destruct (compare_exchange id task_running w) as [w1|] eqn:Hcas; injection Hrun as <-.
    + apply compare_exchange_Some in Hcas as (task & Ht & Hq & ->). simpl. by eapply queue_inv_start.
    + simpl. by apply (queue_inv_drop []); [|done|left].
  - destruct (objects w !! id) as [task|] eqn:Ht; simpl in Hrun; [|done].
    destruct (native_server w) as [server|]; simpl in Hrun; [|done].
    destruct (callback task server) as [server' thrown]. injection Hrun as <-. simpl.
    by apply queue_inv_executed.
  - injection Hrun as <-. rewrite failPendingTasks_eq. simpl. by apply (queue_inv_fail []); [|done|left].
  - injection Hrun as <-. rewrite failPendingTasks_eq. simpl. by apply (queue_inv_fail []); [|done|left].
Qed.

Lemma push_task_queue task waits w : server_queue_inv w → server_queue_inv (push_task task waits w).
Proof.
  unfold server_queue_inv, open_tasks. intros Hinv. simpl. rewrite app_assoc.
  pose proof (queue_inv_push _ _ _ _ _ {| callback := task;
    completion := if waits then Some {| done_flag := false; completion_error := "" |} else None;
    task_state := task_queued |} Hinv eq_refl) as Hpush.
  destruct waits; apply Hpush; simpl; intros; by simplify_eq/=.
Qed.

Lemma invoke_timeout_queue id w w' :
  server_queue_inv w → invoke_timeout id w = Some w' → server_queue_inv w'.
Proof.
  unfold invoke_timeout, server_queue_inv, open_tasks. intros Hinv Hstep.
  destruct (invocations w !! id) as [[| |]|] eqn:Hi; [|done..].
  destruct (objects w !! id) as [task|] eqn:Ht; simpl in Hstep; [|done].
  destruct (completion task) as [c|] eqn:Hcompl; simpl in Hstep; [|done].
  destruct (done_flag c) eqn:Hdone; [done|].
  destruct (compare_exchange id task_cancelled w) as [w1|] eqn:Hcas; injection Hstep as <-.
  - apply compare_exchange_Some in Hcas as (task' & Ht' & Hq & ->). rewrite Ht in Ht'. simplify_eq. simpl.
    by eapply queue_inv_cancel.
  - pose proof (compare_exchange_None _ _ _ _ Hcas Ht) as Hnq.
    assert (task_state task ≠ task_cancelled).
    { intros Hcan. rewrite (qi_cancelled _ _ _ _ _ Hinv id task Ht Hcan) in Hi. done. }
    simpl. eapply queue_inv_invocation; [done..|]. simpl. by destruct (task_state task).
Qed.

Lemma invoke_finish_queue id w w' :
  server_queue_inv w → invoke_finish id w = Some w' → server_queue_inv w'.
Proof.
  unfold invoke_finish, server_queue_inv, open_tasks. intros Hinv Hstep.
  destruct (invocations w !! id) as [i|] eqn:Hi; [|done].
  destruct (objects w !! id) as [task|] eqn:Ht; simpl in Hstep; [|by destruct i].
  destruct (completion task) as [c|] eqn:Hcompl; simpl in Hstep; [|by destruct i].
  assert (task_state task ≠ task_cancelled).
  { intros Hcan. rewrite (qi_cancelled _ _ _ _ _ Hinv id task Ht Hcan) in Hi. by simplify_eq. }
  destruct i; [..|done]; (destruct (done_flag c) eqn:Hdone; [|done]); injection Hstep as <-; simpl;
    by eapply queue_inv_invocation.
Qed.

Lemma start_thread_queue w :
  server_queue_inv w → thread w = run_exited → server_queue_inv (start_thread w).
Proof. unfold server_queue_inv, open_tasks. intros Hinv Hpc. rewrite Hpc in Hinv. done. Qed.

Lemma stop_finish_queue w :
  server_queue_inv w → thread w = run_exited → server_queue_inv (stop_finish w).
Proof.
  unfold server_queue_inv, open_tasks, stop_finish. intros Hinv Hpc.
  rewrite failPendingTasks_eq. simpl. rewrite Hpc in *. simpl in *.
  by apply (queue_inv_fail []); [|done|left].
Qed.

Lemma act_queue a w w' :
  server_queue_inv w → lifecycle_inv w → act a w = Some w' → server_queue_inv w'.
Proof.
  intros Hinv Hlife Hact. pose proof (lc_control _ Hlife) as Hctl. destruct a; simpl in Hact.
  - by eapply run_step_queue.
  - unfold post in Hact. case_bool_decide; simplify_eq/=; [by apply push_task_queue|done].
  - unfold invoke_begin in Hact. case_bool_decide; simplify_eq/=; [by apply push_task_queue|done].
  - by eapply invoke_timeout_queue.
  - by eapply invoke_finish_queue.
  - by simplify_eq/=.
  - unfold start in Hact. destruct (control w); [|done..].
    destruct (validateServerOptions _); [by simplify_eq/=|]. case_bool_decide; [by simplify_eq/=|].
    destruct (server_thread w) eqn:Hj; simplify_eq/=; [done|]. by apply start_thread_queue; auto.
  - unfold start_joined in Hact. destruct (control w); [done| |done..].
    destruct (thread w) eqn:Hpc; simplify_eq/=. by apply start_thread_queue.
  - unfold start_wake in Hact. destruct (control w); [done..| |done|done|done].
    case_bool_decide; simplify_eq/=. unfold start_result. by repeat case_match.
  - unfold start_timeout in Hact. destruct (control w); [done..| |done|done|done].
    case_bool_decide; simplify_eq/=. unfold start_result. by repeat case_match.
  - unfold start_failed_joined in Hact. destruct (control w); try done.
    destruct (thread w) eqn:Hpc; simplify_eq/=. exact Hinv.
  - unfold stop in Hact. destruct (control w); by simplify_eq/=.
  - unfold stop_locked in Hact. destruct (control w); [done..| |done].
    destruct (bool_decide _ && _); [by simplify_eq/=|]. simpl in Hact.
    destruct (server_thread w) eqn:Hj; simplify_eq/=; [done|]. by apply stop_finish_queue; auto.
  - unfold stop_joined in Hact. destruct (control w); try done.
    destruct (thread w) eqn:Hpc; simplify_eq/=. by apply stop_finish_queue.
Qed.

(** ** Lemmas: the life cycle *)

(** A step of the thread leaves the control part alone. *)
Lemma lc_control_kept (c : control_pc) (joinable : bool) (pc pc' : run_pc) :
  match c with
  | control_idle | stop_requesting => joinable = false → pc = run_exited
  | start_waiting => joinable = true
  | start_joining_stale | start_joining_failed | stop_joining => joinable = false
  end → pc ≠ run_exited →
  match c with
  | control_idle | stop_requesting => joinable = false → pc' = run_exited
  | start_waiting => joinable = true
  | start_joining_stale | start_joining_failed | stop_joining => joinable = false
  end.
Proof. destruct c; intros Hc Hpc; try done; intros Hj; by destruct (Hpc (Hc Hj)). Qed.

Lemma lifecycle_run_intro w w' :
  lifecycle_inv w → thread w ≠ run_exited → control w' = control w → server_thread w' = server_thread w →
  thread w' ≠ run_exited →
  (uses_native (thread w') = true → is_Some (native_server w')) →
  (current_state w' = running → stop_requested w' = false ∧ may_run (thread w') = true) →
  (ending (thread w') = true → stop_requested w' = true) →
  (thread w' = run_set_stopped → tasks w' = []) →
  (current_state w' = stopped → tasks w' = [] ∧ thread w' = run_notify) →
  lifecycle_inv w'.
Proof.
  intros [_ _ _ Hc _ _ _] Hlive Hctl Hj Hlive' Hn Hr He Hs Hf. split; try done; [|naive_solver].
  rewrite Hctl, Hj. by apply (lc_control_kept _ _ (thread w)).
Qed.

Lemma run_step_lifecycle w w' : lifecycle_inv w → run_step w = Some w' → lifecycle_inv w'.
Proof.
  intros Hinv Hrun. pose proof Hinv as [Hn Hr He Hc Hs Hx Hf].
  assert (Hlive : thread w ≠ run_exited) by (intros Hpc; unfold run_step in Hrun; by rewrite Hpc in Hrun).
  pose proof (lifecycle_run_intro w w' Hinv Hlive) as Hintro.
  unfold run_step in Hrun.
  destruct (thread w) as [| | | |final|[|id pending] final|id pending final| | | | | |e|e|e|e| |] eqn:Hpc;
    simpl in *.
  - injection Hrun as <-. apply Hintro; simpl; try done; naive_solver.
  - destruct (initialize (options w)) as [e|[[server index] registry]]; injection Hrun as <-;
      apply Hintro; simpl; try done; naive_solver.
  - injection Hrun as <-. destruct (stop_requested w) eqn:Hstop; apply Hintro; simpl; try done; naive_solver.
  - injection Hrun as <-. apply Hintro; simpl; try done; naive_solver.
  - injection Hrun as <-. apply Hintro; simpl; try done; naive_solver.
  - injection Hrun as <-. destruct final; apply Hintro; simpl; try done; naive_solver.
  - destruct (compare_exchange id task_running w) as [w1|] eqn:Hcas; injection Hrun as <-;
      [apply compare_exchange_Some in Hcas as (task & Ht & Hq & ->)|];
      apply Hintro; simpl; try done; naive_solver.
  - destruct (objects w !! id) as [task|]; simpl in Hrun; [|done].
    destruct (native_server w) as [server|] eqn:Hserver; simpl in Hrun; [|done].
    destruct (callback task server) as [server' thrown]. injection Hrun as <-.
    apply Hintro; simpl; try done; naive_solver.
  - destruct (native_server w) as [server|] eqn:Hserver; simpl in Hrun; [|done].
    destruct (runIterate server); injection Hrun as <-; apply Hintro; simpl; try done; naive_solver.
  - destruct (native_server w) as [server|] eqn:Hserver; simpl in Hrun; [|done].
    destruct (stop_native server); injection Hrun as <-; apply Hintro; simpl; try done; naive_solver.
  - injection Hrun as <-. apply Hintro; simpl; try done; naive_solver.
  - injection Hrun as <-. rewrite failPendingTasks_eq in *. apply Hintro; simpl; try done; naive_solver.
  - injection Hrun as <-. apply Hintro; simpl; try done; naive_solver.
  - injection Hrun as <-. apply Hintro; simpl; try done; naive_solver.
  - injection Hrun as <-. apply Hintro; simpl; try done; naive_solver.
  - injection Hrun as <-. rewrite failPendingTasks_eq in *. apply Hintro; simpl; try done; naive_solver.
  - injection Hrun as <-. apply Hintro; simpl; try done; naive_solver.
  - injection Hrun as <-. split; simpl; try done; [destruct (control w)|]; naive_solver.
  - done.
Qed.

(** Changes that keep the thread, the queue and the native server. *)
Lemma lifecycle_control_intro w w' :
  lifecycle_inv w → thread w' = thread w → tasks w' = tasks w → native_server w' = native_server w →
  server_thread_id w' = server_thread_id w →
  (stop_requested w = true → stop_requested w' = true) →
  (current_state w' = running → current_state w = running ∧ stop_requested w' = stop_requested w) →
  (current_state w' = stopped → current_state w = stopped) →
  match control w' with
  | control_idle | stop_requesting => server_thread w' = false → thread w' = run_exited
  | start_waiting => server_thread w' = true
  | start_joining_stale | start_joining_failed | stop_joining => server_thread w' = false
  end →
  lifecycle_inv w'.
Proof.
  intros [Hn Hr He Hc Hs Hx Hf] Ht Hq Hnat Hid Hstop Hstate Hst Hctl. split; rewrite ?Ht, ?Hq, ?Hnat, ?Hid; auto.
  - intros Hrun. destruct (Hstate Hrun) as [Hrun' ->]. auto.
  - by rewrite Ht in Hctl.
Qed.

Lemma lifecycle_queue_intro w w' :
  lifecycle_inv w → thread w' = thread w → native_server w' = native_server w →
  server_thread_id w' = server_thread_id w → stop_requested w' = stop_requested w →
  current_state w' = current_state w → control w' = control w → server_thread w' = server_thread w →
  (tasks w' = tasks w ∨ current_state w = running) → lifecycle_inv w'.
Proof.
  intros [Hn Hr He Hc Hs Hx Hf] Ht Hnat Hid Hstop Hstate Hctl Hj Hq.
  split; rewrite ?Ht, ?Hnat, ?Hid, ?Hstop, ?Hstate, ?Hctl, ?Hj; auto.
  - intros Hpc. destruct Hq as [->|Hrun]; [auto|]. destruct (Hr Hrun) as [_ Hm]. by rewrite Hpc in Hm.
  - intros Hst. destruct Hq as [->|Hrun]; [auto|congruence].
Qed.

Lemma start_thread_lifecycle w :
  lifecycle_inv w → thread w = run_exited → lifecycle_inv (start_thread w).
Proof. intros [Hn Hr He Hc Hs Hx Hf] Hpc. by split; simpl. Qed.

Lemma requestStop_lifecycle w : lifecycle_inv w → lifecycle_inv (requestStop w).
Proof.
  intros Hinv. apply (lifecycle_control_intro w); try done; [..|apply Hinv];
    simpl; case_bool_decide; naive_solver.
Qed.

Lemma stop_finish_lifecycle w : lifecycle_inv w → thread w = run_exited → lifecycle_inv (stop_finish w).
Proof.
  intros [Hn Hr He Hc Hs Hx Hf] Hpc. unfold stop_finish. rewrite failPendingTasks_eq.
  split; simpl; rewrite ?Hpc; try done; naive_solver.
Qed.

Lemma start_result_lifecycle w :
  lifecycle_inv w → control w = start_waiting → lifecycle_inv (start_result w).
Proof.
  intros Hinv Hctl. pose proof (lc_control _ Hinv) as Hc. rewrite Hctl in Hc. unfold start_result.
  case_bool_decide; [|rewrite Hc]; apply (lifecycle_control_intro w); simpl; try done; congruence.
Qed.

Lemma act_lifecycle a w w' : lifecycle_inv w → act a w = Some w' → lifecycle_inv w'.
Proof.
  intros Hinv Hact. pose proof (lc_control _ Hinv) as Hctl. destruct a; simpl in Hact.
  - by eapply run_step_lifecycle.
  - unfold post in Hact. case_bool_decide; simplify_eq/=; [|done].
    apply (lifecycle_queue_intro w); simpl; auto.
  - unfold invoke_begin in Hact. case_bool_decide; simplify_eq/=; [|done].
    apply (lifecycle_queue_intro w); simpl; auto.
  - unfold invoke_timeout in Hact. repeat (case_match; [..|done] || case_match); simplify_eq/=.
    all: try (rename select (compare_exchange _ _ _ = Some _) into Hcas;
      apply compare_exchange_Some in Hcas as (? & _ & _ & ->)).
    all: apply (lifecycle_queue_intro w); simpl; auto.
  - unfold invoke_finish in Hact. repeat case_match; simplify_eq/=;
      apply (lifecycle_queue_intro w); simpl; auto.
  - injection Hact as <-. by apply requestStop_lifecycle.
  - unfold start in Hact. destruct (control w) eqn:Hcw; [|done..].
    destruct (validateServerOptions _).
    { injection Hact as <-. apply (lifecycle_control_intro w); simpl; try done. by rewrite Hcw. }
    case_bool_decide; [by simplify_eq/=|].
    destruct (server_thread w) eqn:Hj; simplify_eq/=; [|apply start_thread_lifecycle; auto].
    apply (lifecycle_control_intro w); simpl; try done; naive_solver.
  - unfold start_joined in Hact. destruct (control w); [done| |done..].
    destruct (thread w) eqn:Hpc; simplify_eq/=. by apply start_thread_lifecycle.
  - unfold start_wake in Hact. destruct (control w) eqn:Hcw; [done..| |done|done|done].
    case_bool_decide; simplify_eq/=. by apply start_result_lifecycle.
  - unfold start_timeout in Hact. destruct (control w) eqn:Hcw; [done..| |done|done|done].
    case_bool_decide; simplify_eq/=. apply start_result_lifecycle; [|done].
    apply (lifecycle_control_intro w); simpl; try done. by rewrite Hcw.
  - unfold start_failed_joined in Hact. destruct (control w) eqn:Hcw; try done.
    destruct (thread w) eqn:Hpc; simplify_eq/=. apply (lifecycle_control_intro w); simpl; try done; naive_solver.
  - unfold stop in Hact. destruct (control w) eqn:Hcw; simplify_eq/=.
    apply (lifecycle_control_intro (requestStop w)); simpl; try done; by apply requestStop_lifecycle.
  - unfold stop_locked in Hact. destruct (control w) eqn:Hcw; [done..| |done].
    destruct (bool_decide _ && _) eqn:Hst.
    { simplify_eq/=. apply (lifecycle_control_intro w); simpl; try done; naive_solver. }
    simpl in Hact. destruct (server_thread w) eqn:Hj; simplify_eq/=.
    + apply (lifecycle_control_intro (requestStop w)); simpl; try done; by apply requestStop_lifecycle.
    + apply stop_finish_lifecycle; [by apply requestStop_lifecycle|]. simpl. auto.
  - unfold stop_joined in Hact. destruct (control w); try done.
    destruct (thread w) eqn:Hpc; simplify_eq/=. by apply stop_finish_lifecycle.
Qed.

Lemma server_reachable_inv w : server_reachable w → server_queue_inv w ∧ lifecycle_inv w.
Proof.
  intros (opts & l & Hl).
  assert (Hinit : server_queue_inv (Impl_init opts : Impl) ∧ lifecycle_inv (Impl_init opts : Impl)).
  { split; split; simpl; try done; try set_solver. constructor. }
  revert Hinit Hl. generalize (Impl_init opts : Impl). induction l as [|a l IH]; intros w0 [Hq Hlc]; simpl.
  { by intros [= <-]. }
  destruct (act a w0) as [w1|] eqn:Ha; simpl; [|done]. apply IH. split; [by eapply act_queue|].
  by eapply act_lifecycle.
Qed.

(** ** Lemmas: what is final *)

(** A completed task keeps its completion and is not executed any more; a
    returned invocation keeps its result. *)
Record settled (id : nat) (w w' : Impl) : Prop := {
  st_completion : ∀ task c, objects w !! id = Some task → completion task = Some c → done_flag c = true →
    (∃ task', objects w' !! id = Some task' ∧ completion task' = Some c) ∧
    (id ∈ (executed w').*1 → id ∈ (executed w).*1);
  st_returned : ∀ result error, invocations w !! id = Some (inv_returned result error) →
    invocations w' !! id = Some (inv_returned result error);
  st_executed : ∀ thrown, (id, thrown) ∈ executed w → (id, thrown) ∈ executed w';
}.

#[global] Instance settled_refl id : Reflexive (settled id).
Proof. intros w. split; eauto. Qed.

Lemma settled_same id w w' :
  objects w' = objects w → invocations w' = invocations w → executed w' = executed w → settled id w w'.
Proof. intros Ho Hi He. split; rewrite ?Ho, ?Hi, ?He; eauto. Qed.

Lemma settled_trans id w1 w2 w3 : settled id w1 w2 → settled id w2 w3 → settled id w1 w3.
Proof.
  intros [Hc1 Hr1 He1] [Hc2 Hr2 He2]. split; eauto.
  intros task c Ht Hcompl Hdone. destruct (Hc1 task c Ht Hcompl Hdone) as [(task' & Ht' & Hcompl') Hex].
  destruct (Hc2 task' c Ht' Hcompl' Hdone) as [? Hex']. auto.
Qed.

Lemma settled_complete id other error w :
  server_queue_inv w → other ∈ open_tasks w → settled id w (complete other error w).
Proof.
  intros Hinv Hopen. split; simpl; [|done..]. intros task c Ht Hcompl Hdone. split; [|done].
  assert (Hne : id ≠ other).
  { intros ->. destruct (qi_done _ _ _ _ _ Hinv _ _ _ Ht Hcompl) as [[_ Hx] _].
    rewrite Hx in Hdone; done. }
  exists task. by rewrite list_lookup_alter_ne.
Qed.

Lemma settled_alter_state id other desired w queue :
  settled id w (set_queue queue (alter (set_task_state desired) other (objects w)) (invocations w)
                  (executed w) w).
Proof.
  split; simpl; [|done..]. intros task c Ht Hcompl Hdone. split; [|done].
  rewrite list_lookup_alter. case_decide as Hx; [|eauto]. subst. rewrite Ht. simpl.
  exists (set_task_state desired task). auto.
Qed.

Lemma settled_invocation id other i w :
  (∀ result error, invocations w !! other ≠ Some (inv_returned result error)) →
  settled id w (return_invocation other i w).
Proof.
  intros Hnot. split; simpl; [eauto| |done]. intros result error Hi.
  rewrite lookup_insert_ne; [done|]. intros ->. by apply (Hnot result error).
Qed.

Lemma settled_push id task waits w : server_queue_inv w → settled id w (push_task task waits w).
Proof.
  intros Hinv. split; simpl.
  - intros t c Ht Hcompl Hdone. split; [|done]. exists t. split; [by apply lookup_app_l_Some|done].
  - intros result error Hi. destruct waits; [|done]. rewrite lookup_insert_ne; [done|]. intros <-.
    destruct (qi_invocation _ _ _ _ _ Hinv _ _ Hi) as (t & _ & Ht & _). apply lookup_lt_Some in Ht. lia.
  - done.
Qed.

Lemma settled_fail id error w w' :
  server_queue_inv w → in_flight (thread w) = [] → current_task (thread w) = None → error ≠ "" →
  objects w' = objects (failPendingTasks error w) → invocations w' = invocations w →
  executed w' = executed w → settled id w w'.
Proof.
  intros Hinv Hfl Hcur Herr Ho Hi He. split; rewrite ?Ho, ?Hi, ?He; [|done..].
  intros task c Ht Hcompl Hdone. split; [|done]. rewrite failPendingTasks_eq. simpl.
  assert (Hout : id ∉ tasks w).
  { intros Hin. destruct (qi_done _ _ _ _ _ Hinv _ _ _ Ht Hcompl) as [[_ Hx] _].
    rewrite Hx in Hdone; [done|]. unfold open_tasks. set_solver. }
  exists task. split; [|done]. clear -Ht Hout. revert Ht. generalize (objects w).
  induction (tasks w) as [|x queue IH]; intros objs Ht; simpl; [done|].
  apply IH; [set_solver|]. rewrite list_lookup_alter_ne; [done|set_solver].
Qed.

Lemma run_step_settled id w w' : server_queue_inv w → run_step w = Some w' → settled id w w'.
Proof.
  intros Hinv Hrun. unfold run_step in Hrun.
  destruct (thread w) as [| | | |final|[|other pending] final|other pending final| | | | | |e|e|e|e| |] eqn:Hpc;
    simpl in Hrun; try (simplify_eq/=; by apply settled_same).
  - destruct (initialize (options w)) as [e|[[server index] registry]]; simplify_eq/=; by apply settled_same.
  - simplify_eq/=. destruct (stop_requested w); by apply settled_same.
  - assert (Hopen : other ∈ open_tasks w) by (unfold open_tasks; rewrite Hpc; simpl; set_solver).
    destruct (compare_exchange other task_running w) as [w1|] eqn:Hcas; injection Hrun as <-.
    + apply compare_exchange_Some in Hcas as (task & Ht & Hq & ->).
      eapply settled_trans; [apply (settled_alter_state id other task_running w (tasks w))|].
      by apply settled_same.
    + eapply settled_trans; [by apply (settled_complete id other "OPC UA server task cancelled")|].
      by apply settled_same.
  - assert (Hopen : other ∈ open_tasks w) by (unfold open_tasks; rewrite Hpc; simpl; set_solver).
    destruct (objects w !! other) as [task|] eqn:Ht; simpl in Hrun; [|done].
    destruct (native_server w) as [server|]; simpl in Hrun; [|done].
    destruct (callback task server) as [server' thrown]. injection Hrun as <-.
    destruct (settled_complete id other (exceptionMessage thrown) w Hinv Hopen) as [Hc _ _].
    split; simpl; [|done|].
    + intros t c Ht' Hcompl Hdone. destruct (Hc t c Ht' Hcompl Hdone) as [Hsame _]. split; [done|].
      rewrite fmap_app, elem_of_app. intros [?|Hx]; [done|]. exfalso.
      apply list_elem_of_singleton in Hx. simpl in Hx. subst.
      destruct (qi_done _ _ _ _ _ Hinv _ _ _ Ht' Hcompl) as [[_ Hx] _]. rewrite Hx in Hdone; done.
    + set_solver.
  - destruct (native_server w) as [server|]; simpl in Hrun; [|done].
    destruct (runIterate server); simplify_eq/=; by apply settled_same.
  - destruct (native_server w) as [server|]; simpl in Hrun; [|done].
    destruct (stop_native server); simplify_eq/=; by apply settled_same.
  - injection Hrun as <-. eapply settled_fail; try done; rewrite ?Hpc; try done.
    all: by rewrite failPendingTasks_eq.
  - injection Hrun as <-. eapply settled_fail; try done; rewrite ?Hpc; try done.
    all: by rewrite failPendingTasks_eq.
Qed.

Lemma act_settled id a w w' :
  server_queue_inv w → lifecycle_inv w → act a w = Some w' → settled id w w'.
Proof.
  intros Hinv Hlife Hact. pose proof (lc_control _ Hlife) as Hctl. destruct a; simpl in Hact.
  - by eapply run_step_settled.
  - unfold post in Hact. case_bool_decide; simplify_eq/=; [by apply settled_push|done].
  - unfold invoke_begin in Hact. case_bool_decide; simplify_eq/=; [by apply settled_push|done].
  - unfold invoke_timeout in Hact. destruct (invocations w !! id0) as [[| |]|] eqn:Hi; [|done..].
    destruct (objects w !! id0 ≫= completion) as [c|]; [|done]. destruct (done_flag c); [done|].
    destruct (compare_exchange id0 task_cancelled w) as [w1|] eqn:Hcas; injection Hact as <-.
    + apply compare_exchange_Some in Hcas as (task & Ht & Hq & ->).
      eapply settled_trans; [apply (settled_alter_state id id0 task_cancelled w (tasks w))|].
      apply settled_invocation. simpl. congruence.
    + apply settled_invocation. congruence.
  - unfold invoke_finish in Hact. destruct (invocations w !! id0) as [i|] eqn:Hi; [|done].
    assert (∀ result error, i ≠ inv_returned result error) by (intros; by destruct i).
    assert (Hnot : ∀ result error, invocations w !! id0 ≠ Some (inv_returned result error)) by naive_solver.
    by destruct i, (objects w !! id0 ≫= completion) as [c|]; try done;
      (destruct (done_flag c); [|done]); injection Hact as <-; apply settled_invocation.
  - simplify_eq/=. by apply settled_same.
  - unfold start in Hact. repeat case_match; simplify_eq/=; by apply settled_same.
  - unfold start_joined in Hact. repeat case_match; simplify_eq/=; by apply settled_same.
  - unfold start_wake, start_result in Hact. repeat case_match; simplify_eq/=; by apply settled_same.
  - unfold start_timeout, start_result in Hact. repeat case_match; simplify_eq/=; by apply settled_same.
  - unfold start_failed_joined in Hact. repeat case_match; simplify_eq/=; by apply settled_same.
  - unfold stop in Hact. repeat case_match; simplify_eq/=; by apply settled_same.
  - unfold stop_locked in Hact. destruct (control w); [done..| |done].
    destruct (bool_decide _ && _); [simplify_eq/=; by apply settled_same|]. simpl in Hact.
    destruct (server_thread w) eqn:Hj; simplify_eq/=; [by apply settled_same|].
    eapply (settled_trans _ _ (requestStop w)); [by apply settled_same|].
    eapply settled_fail; simpl; try done; rewrite ?Hctl by done; try done.
    all: unfold stop_finish; by rewrite ?failPendingTasks_eq.
  - unfold stop_joined in Hact. destruct (control w); try done.
    destruct (thread w) eqn:Hpc; simplify_eq/=.
    eapply settled_fail; simpl; try done; rewrite ?Hpc; try done.
    all: unfold stop_finish; by rewrite ?failPendingTasks_eq.
Qed.

Lemma acts_inv l w w' :
  server_queue_inv w → lifecycle_inv w → acts l w = Some w' →
  (∀ id, settled id w w') ∧ server_queue_inv w' ∧ lifecycle_inv w'.
Proof.
  revert w. induction l as [|a l IH]; intros w Hq Hl; simpl; [by intros [= <-]|].
  destruct (act a w) as [w1|] eqn:Ha; simpl; [|done]. intros Hrest.
  assert (server_queue_inv w1) by (by eapply act_queue).
  assert (lifecycle_inv w1) by (by eapply act_lifecycle).
  destruct (IH w1) as (Hs & ? & ?); [done..|]. split_and!; try done.
  intros id. eapply settled_trans; [|apply Hs]. by eapply act_settled.
Qed.

(** ** Properties *)

(** C3: a task handed to the server runs at most once, and tasks run in the
    order in which they were accepted: what has run and what is still open
    form one strictly ascending sequence of acceptance numbers. *)
Theorem tasks_in_order w (Hreach : server_reachable w) :
  StronglySorted lt ((executed w).*1 ++ open_tasks w) ∧ NoDup (executed w).*1 ∧
  ∀ id, id ∈ (executed w).*1 ++ open_tasks w → id < length (objects w).
Proof.
  destruct (server_reachable_inv w Hreach) as [Hinv _]. split_and!; [apply Hinv| |apply Hinv].
  pose proof (sorted_lt_NoDup _ (qi_sorted _ _ _ _ _ Hinv)) as Hnd. by apply NoDup_app in Hnd as [? _].
Qed.

(** C11: the result of [invoke] is final and tells what happened to the
    callback.  A timeout means the callback has not run and never will.
    Otherwise the callback has run once and the error text is the message of
    its exception, or it was dropped with an error text and never runs.  The
    result is true exactly when the error text is empty. *)
Theorem invoke_result w w' l id result error (Hreach : server_reachable w)
    (Hreturned : invocations w !! id = Some (inv_returned result error))
    (Hlater : acts l w = Some w') :
  invocations w' !! id = Some (inv_returned result error) ∧
  (result = true ↔ error = "") ∧
  ((∃ thrown, (id, thrown) ∈ executed w' ∧ error = exceptionMessage thrown) ∨
   (id ∉ (executed w').*1 ∧ result = false)).
Proof.
  destruct (server_reachable_inv w Hreach) as [Hinv Hlife].
  destruct (acts_inv l w w' Hinv Hlife Hlater) as (Hsettled & Hinv' & _).
  pose proof (st_returned _ _ _ (Hsettled id) _ _ Hreturned) as Hreturned'. split; [done|].
  destruct (qi_invocation _ _ _ _ _ Hinv' _ _ Hreturned')
    as (task & c & Ht & Hcompl & [[Htimeout Hcan]|(Hn & Hdone & -> & ->)]).
  - unfold timed_out in Htimeout. simplify_eq. split; [done|]. right. split; [|done]. intros Hin.
    pose proof (proj2 (qi_state _ _ _ _ _ Hinv' id task Ht) (or_introl Hin)). congruence.
  - split; [apply str_empty_spec|].
    destruct (qi_done _ _ _ _ _ Hinv' id task c Ht Hcompl) as [_ Hrest].
    destruct (Hrest Hdone) as [Hran Hdropped].
    destruct (decide (id ∈ (executed w').*1)) as [Hin|Hout]; [left|right].
    + apply list_elem_of_fmap in Hin as ([x thrown] & -> & Hin). eauto.
    + split; [done|]. apply str_empty_false. auto.
Qed.

(** C26: after [stop] has returned, the server is stopped, its thread has ended,
    no task is left and every waiting [invoke] can return. *)
Theorem stop_completes w w' (Hreach : server_reachable w)
    (Hstop : stop_locked w = Some w' ∨ stop_joined w = Some w') (Hreturned : control w' = control_idle) :
  current_state w' = stopped ∧ thread w' = run_exited ∧ server_thread w' = false ∧ open_tasks w' = [] ∧
  ∀ id, invocations w' !! id = Some inv_waiting ∨ invocations w' !! id = Some inv_late →
    is_Some (invoke_finish id w').
Proof.
  destruct (server_reachable_inv w Hreach) as [Hinv Hlife].
  assert (Hact : act act_stop_locked w = Some w' ∨ act act_stop_joined w = Some w') by done.
  assert (Hinv' : server_queue_inv w') by (destruct Hact; by eapply act_queue).
  assert (Hlife' : lifecycle_inv w') by (destruct Hact; by eapply act_lifecycle).
  assert (current_state w' = stopped ∧ server_thread w' = false) as [Hst Hjoined].
  { pose proof (lc_control _ Hlife) as Hctl. destruct Hstop as [Hs|Hs].
    - unfold stop_locked in Hs. destruct (control w); [done..| |done].
      destruct (bool_decide _ && _) eqn:Hg; simplify_eq/=.
      { apply andb_true_iff in Hg as [Hg%bool_decide_eq_true Hj%negb_true_iff]. done. }
      destruct (server_thread w) eqn:Hj; simplify_eq/=. by rewrite failPendingTasks_eq.
    - unfold stop_joined in Hs. destruct (control w); try done. destruct (thread w); simplify_eq/=. by rewrite failPendingTasks_eq. }
  pose proof (lc_control _ Hlife') as Hctl'. rewrite Hreturned in Hctl'.
  destruct (lc_finished _ Hlife' Hst) as [Htasks Hpc].
  assert (Hopen : open_tasks w' = []).
  { unfold open_tasks. rewrite Htasks. destruct Hpc as [->| ->]; done. }
  split_and!; [done|by apply Hctl'|done|done|]. intros id Hid.
  assert (∃ i, invocations w' !! id = Some i ∧ (i = inv_waiting ∨ i = inv_late)) as (i & Hi & Hcase)
    by (destruct Hid; eauto).
  destruct (qi_invocation _ _ _ _ _ Hinv' _ _ Hi) as (task & c & Ht & Hcompl & _).
  unfold invoke_finish. rewrite Hi, Ht. simpl. rewrite Hcompl.
  assert (Hdone : done_flag c = true).
  { destruct (done_flag c) eqn:Hd; [done|].
    destruct (qi_done _ _ _ _ _ Hinv' _ _ _ Ht Hcompl) as [[Ho _] _]. specialize (Ho Hd).
    rewrite Hopen in Ho. by apply elem_of_nil in Ho. }
  destruct Hcase as [-> | ->]; rewrite Hdone; eauto.
Qed.

(** The server thread never gets stuck before its end: whenever it drains,
    runs a callback, iterates or stops, the native server and the task object
    it uses exist. *)
Theorem run_never_stuck w (Hreach : server_reachable w) (Hlive : thread w ≠ run_exited) :
  is_Some (run_step w).
Proof.
  destruct (server_reachable_inv w Hreach) as [Hinv Hlife].
  pose proof (lc_native _ Hlife) as Hnative. unfold run_step.
  destruct (thread w) as [| | | |final|[|id pending] final|id pending final| | | | | |e|e|e|e| |] eqn:Hpc;
    simpl in Hnative; try done; try (by destruct (Hnative eq_refl) as [server ->]; simpl; by_branches; eauto).
  - destruct (initialize (options w)) as [e|[[server index] registry]]; eauto.
  - destruct (compare_exchange id task_running w); eauto.
  - destruct (Hnative eq_refl) as [server ->].
    assert (Hb : id < length (objects w)).
    { apply (qi_bound _ _ _ _ _ Hinv). unfold open_tasks. rewrite Hpc. simpl. set_solver. }
    apply lookup_lt_is_Some in Hb as [task ->]. simpl. destruct (callback task server); eauto.
Qed.

(** When the server thread fails, it drops the queued tasks before it leaves
    the running state, so a task accepted in between stays: the thread ends
    with the server failed, the task queued and its [invoke] waiting. *)
Theorem failing_server_keeps_task w e task (Hreach : server_reachable w)
    (Hpc : thread w = catch_set_failure e) (Hrunning : current_state w = running) :
  ∃ w', acts [act_invoke task; act_run; act_run] w = Some w' ∧
    current_state w' = failed ∧ thread w' = run_exited ∧
    tasks w' = tasks w ++ [length (objects w)] ∧
    invocations w' !! length (objects w) = Some inv_waiting ∧
    invoke_finish (length (objects w)) w' = None.
Proof.
  assert (Hx : acts [act_invoke task; act_run; act_run] w =
    Some (set_threads (server_thread w) false run_exited (control w)
      (setFailure (exceptionMessage (Some e))
        (set_lifecycle (current_state w) 0 (current_error w) (stop_requested w) (push_task task true w))))).
  { simpl. unfold invoke_begin. rewrite bool_decide_eq_true_2 by done. simpl.
    unfold run_step. simpl. rewrite Hpc. done. }
  eexists. split; [exact Hx|]. simpl. split_and!; [done..| |].
  - by rewrite lookup_insert_eq.
  - unfold invoke_finish. simpl. rewrite lookup_insert_eq.
    rewrite list_lookup_middle by done. done.
Qed.

(** An exception with an empty message counts as success for a queued task
    and as failure for the same task invoked on the server thread. *)
Theorem empty_exception_message w id pending final task server c l w'
    (Hreach : server_reachable w) (Hpc : thread w = run_execute id pending final)
    (Htask : objects w !! id = Some task) (Hwaits : completion task = Some c)
    (Hwaiting : invocations w !! id = Some inv_waiting)
    (Hthrows : ∀ server, (callback task server).2 = Some (std_exception ""))
    (Hlater : acts (act_run :: act_finish id :: l) w = Some w') :
  invocations w' !! id = Some (inv_returned true "") ∧
  (invoke_inline (callback task) server).2 = (false, "").
Proof.
  destruct (server_reachable_inv w Hreach) as [Hinv Hlife]. split.
  - simpl in Hlater. destruct (run_step w) as [w1|] eqn:Hrun; simpl in Hlater; [|done].
    assert (Hinv1 : server_queue_inv w1) by (by eapply run_step_queue).
    assert (Hlife1 : lifecycle_inv w1) by (by eapply run_step_lifecycle).
    unfold run_step in Hrun. rewrite Hpc, Htask in Hrun. simpl in Hrun.
    destruct (native_server w) as [native_server|]; simpl in Hrun; [|done].
    specialize (Hthrows native_server). destruct (callback task native_server) as [server' thrown].
    simpl in Hthrows. subst thrown. injection Hrun as <-.
    unfold invoke_finish in Hlater at 1. simpl in Hlater. rewrite Hwaiting in Hlater.
    rewrite list_lookup_alter_eq, Htask in Hlater. simpl in Hlater. rewrite Hwaits in Hlater. simpl in Hlater.
    match type of Hlater with acts l ?w2 = _ => set (w2' := w2) in Hlater end.
    assert (Hinv2 : server_queue_inv w2' ∧ lifecycle_inv w2').
    { assert (Hact : act (act_finish id) (goto (run_drain pending final) (complete id (exceptionMessage (Some (std_exception "")))
        (set_queue (tasks w) (objects w) (invocations w) (executed w ++ [(id, Some (std_exception ""))])
          (set_native (Some server') (type_registry w) w)))) = Some w2').
      { simpl. unfold invoke_finish. simpl. rewrite Hwaiting, list_lookup_alter_eq, Htask. simpl.
        by rewrite Hwaits. }
      split; [by eapply act_queue|by eapply act_lifecycle]. }
    destruct Hinv2 as [Hq2 Hl2]. destruct (acts_inv l w2' w' Hq2 Hl2 Hlater) as (Hs & _).
    apply (st_returned _ _ _ (Hs id)). simpl. by rewrite lookup_insert_eq.
  - unfold invoke_inline. specialize (Hthrows server). destruct (callback task server) as [server' thrown].
    simpl in Hthrows. by subst.
Qed.
End server_facts.

(** ** Witnesses *)

Lemma acts_app {native TypeRegistry : Type} initialize runIterate stop_native
    (l1 l2 : list (action (native := native))) (w : Impl (TypeRegistry := TypeRegistry)) :
  acts initialize runIterate stop_native (l1 ++ l2) w =
  acts initialize runIterate stop_native l1 w ≫= acts initialize runIterate stop_native l2.
Proof.
  revert w. induction l1 as [|a l1 IH]; intros w; [done|].
  simpl. destruct (act _ _ _ a w); [apply IH|done].
Qed.

Lemma example_run_reachable l :
  example_runs l = true →
  server_reachable example_initialize example_iterate (λ n, inr n) (example_world l).
Proof.
  unfold example_runs, example_world. intros Hl. exists default_options, l.
  destruct (example_acts l) as [w|] eqn:Hw; [exact Hw|done].
Qed.

Lemma example_later l1 l2 :
  example_runs l1 = true → example_runs (l1 ++ l2) = true →
  acts example_initialize example_iterate (λ n, inr n) l2 (example_world l1) = Some (example_world (l1 ++ l2)).
Proof.
  unfold example_runs, example_world, example_acts. rewrite acts_app.
  destruct (acts _ _ _ l1 _) as [w|]; simpl; [|done].
  destruct (acts _ _ _ l2 w); done.
Qed.

Lemma tasks_in_order_witness :
  let w := example_world example_two_tasks in
  StronglySorted lt ((executed w).*1 ++ open_tasks w) ∧ NoDup (executed w).*1 ∧
  ∀ id, id ∈ (executed w).*1 ++ open_tasks w → id < length (objects w).
Proof.
  intros w. refine (tasks_in_order example_initialize example_iterate (λ n, inr n) w _).
  apply (example_run_reachable example_two_tasks). by vm_compute.
Defined.

(** A task runs and its invocation returns; the server then stops. *)
Lemma invoke_result_witness :
  let w := example_world example_one_task in
  let w' := example_world (example_one_task ++ [act_requestStop; act_run]) in
  invocations w' !! 0 = Some (inv_returned true "") ∧ (true = true ↔ "" = "") ∧
  ((∃ thrown, (0, thrown) ∈ executed w' ∧ "" = exceptionMessage thrown) ∨
   (0 ∉ (executed w').*1 ∧ true = false)).
Proof.
  intros w w'. refine (invoke_result example_initialize example_iterate (λ n, inr n) w w'
    [act_requestStop; act_run] 0 true "" _ _ _).
  - apply (example_run_reachable example_one_task). by vm_compute.
  - by vm_compute.
  - apply example_later; by vm_compute.
Defined.

Lemma stop_completes_witness :
  let w := example_world example_stopping in
  let w' := stop_finish w in
  current_state w' = stopped ∧ thread w' = run_exited ∧ server_thread w' = false ∧ open_tasks w' = [] ∧
  ∀ id, invocations w' !! id = Some inv_waiting ∨ invocations w' !! id = Some inv_late →
    is_Some (invoke_finish id w').
Proof.
  intros w w'. refine (stop_completes example_initialize example_iterate (λ n, inr n) w w' _ _ _);
    [|by vm_compute; auto|done].
  apply (example_run_reachable example_stopping). by vm_compute.
Defined.

Lemma run_never_stuck_witness :
  is_Some (run_step example_initialize example_iterate (λ n, inr n) (example_world example_start)).
Proof.
  refine (run_never_stuck example_initialize example_iterate (λ n, inr n) (example_world example_start) _ _).
  - apply (example_run_reachable example_start). by vm_compute.
  - by vm_compute.
Defined.

(** The native server fails in its first iteration. *)
Lemma failing_server_keeps_task_witness :
  let w := example_world (example_start ++ example_failure) in
  ∃ w', acts example_initialize example_iterate (λ n, inr n) [act_invoke example_task; act_run; act_run] w =
      Some w' ∧
    current_state w' = failed ∧ thread w' = run_exited ∧ tasks w' = tasks w ++ [length (objects w)] ∧
    invocations w' !! length (objects w) = Some inv_waiting ∧
    invoke_finish (length (objects w)) w' = None.
Proof.
  intros w. refine (failing_server_keeps_task example_initialize example_iterate (λ n, inr n) w
    (std_exception "iterate failed") example_task _ _ _); [|by vm_compute|by vm_compute].
  apply (example_run_reachable (example_start ++ example_failure)). by vm_compute.
Defined.

Lemma empty_exception_message_witness :
  let l := example_start ++ [act_invoke example_silent_task; act_run; act_run; act_run] in
  invocations (example_world (l ++ [act_run; act_finish 0])) !! 0 = Some (inv_returned true "") ∧
  (invoke_inline example_silent_task 5).2 = (false, "").
Proof.
  intros l. refine (empty_exception_message example_initialize example_iterate (λ n, inr n)
    (example_world l) 0 [] false
    {| callback := example_silent_task; completion := Some {| done_flag := false; completion_error := "" |};
       task_state := task_running |} 5 {| done_flag := false; completion_error := "" |} []
    (example_world (l ++ [act_run; act_finish 0])) _ _ _ _ _ _ _).
  - apply (example_run_reachable l). by vm_compute.
  - by vm_compute.
  - by vm_compute.
  - done.
  - by vm_compute.
  - done.
  - apply example_later; by vm_compute.
Defined.
