(* ===== verification/OperationDispatcher.v ===== *)
(** The dispatcher of operation calls (src/src/operation_dispatcher.cpp and
    .hpp): the schema of an operation, one call from the native server's thread,
    and the invocations that outlive their call. *)

From S2P Require Import Prelude Native Concrete DataTypeRegistry TypeProtocol EndpointTypeRegistry ComponentState.

(** ** What RTT provides

    [RTT::OperationInterfacePart] as the dispatcher uses it: [getArgumentType]
    and [getCollectType] count from 1, with the return type at 0, and any of the
    queries may throw. *)
Record ArgumentDescription := {
  ad_name : string;
  ad_description : string;
  ad_type : string;
}.

Record OperationInterfacePart (TypeInfo : Type) := {
  op_address : string; (* the printed address of the object *)
  op_description : string;
  op_arity : nat;
  op_collectArity : nat;
  op_getArgumentList : exn + list ArgumentDescription;
  op_getArgumentType : nat → exn + option TypeInfo;
  op_getCollectType : nat → exn + option TypeInfo;
}.
Arguments op_address {_} _.
Arguments op_description {_} _.
Arguments op_arity {_} _.
Arguments op_collectArity {_} _.
Arguments op_getArgumentList {_} _.
Arguments op_getArgumentType {_} _ _.
Arguments op_getCollectType {_} _ _.

(** [OperationCallerC] and [SendHandleC]; [caller_sends] is whether
    [getSendDataSource] is set, [caller_async] starts [call] on another thread. *)
Class OperationCallers (W DS TypeInfo Caller Handle : Type) := {
  caller_new : OperationInterfacePart TypeInfo → IO W Caller;
  caller_arg : Caller → DS → IO W unit;
  caller_check : Caller → IO W unit;
  caller_ready : Caller → W → bool;
  caller_sends : Caller → W → bool;
  caller_ret : Caller → DS → IO W unit;
  caller_async : Caller → IO W unit;
  caller_send : Caller → IO W Handle;
  handle_arg : Handle → DS → IO W unit;
  handle_check : Handle → IO W unit;
  handle_ready : Handle → W → bool;
  type_buildValue : TypeInfo → IO W (option DS);
  ds_typeInfo : DS → option TypeInfo;
}.

(** ** Names and types of arguments *)

(** [std::isspace] in the "C" locale. *)
Definition isspace (c : ascii) : bool :=
  let n := N_of_ascii c in ((n =? 32) || ((9 <=? n) && (n <=? 13)))%N.

(** [remove_prefix] and [remove_suffix] while there is a space. *)
Fixpoint trim_front (s : string) : string :=
  match s with
  | String c s' => if isspace c then trim_front s' else s
  | EmptyString => EmptyString
  end.
Fixpoint trim_back (s : string) : string :=
  match s with
  | EmptyString => EmptyString
  | String c s' =>
      let rest := trim_back s' in
      if str_empty rest && isspace c then EmptyString else String c rest
  end.

Definition isMutableReference (type : string) : bool :=
  let type := trim_back type in
  if negb (bool_decide (str_back type = Some "&"%char)) then false
  else negb (String.prefix "const " (trim_front type)).

Definition argumentName (arguments : list ArgumentDescription) (index : nat) : string :=
  match arguments !! index with
  | Some argument =>
      if negb (str_empty (ad_name argument)) then ad_name argument
      else "argument" +:+ to_string (N.of_nat (index + 1))
  | None => "argument" +:+ to_string (N.of_nat (index + 1))
  end.

Definition argumentDescription (arguments : list ArgumentDescription) (index : nat) : string :=
  match arguments !! index with
  | Some argument => ad_description argument
  | None => ""
  end.

(** ** Schemas *)

(** [opcua::Argument] with a description in the locale "en-US". *)
Record Argument (NodeId : Type) := {
  arg_name : string;
  arg_description : string;
  arg_dataType : NodeId;
  arg_valueRank : ValueRank;
}.
Arguments arg_name {_} _.
Arguments arg_description {_} _.
Arguments arg_dataType {_} _.
Arguments arg_valueRank {_} _.

Record OperationSchema (NodeId : Type) := {
  supported : bool;
  unsupported_type_name : string;
  unsupported_reason : string;
  fingerprint : string;
  schema_inputs : list (Argument NodeId);
  schema_outputs : list (Argument NodeId);
  input_type_names : list string;
  output_type_names : list string;
  output_sources : list Z;
}.
Arguments supported {_} _.
Arguments unsupported_type_name {_} _.
Arguments unsupported_reason {_} _.
Arguments fingerprint {_} _.
Arguments schema_inputs {_} _.
Arguments schema_outputs {_} _.
Arguments input_type_names {_} _.
Arguments output_type_names {_} _.
Arguments output_sources {_} _.

(** The status codes [invoke] returns. *)
Inductive CallStatus :=
  | Good | BadInternalError | BadNotConnected | BadConfigurationError | BadInvalidArgument
  | BadNotSupported | BadTimeout | BadResourceUnavailable | BadUnexpectedError.

#[global] Instance CallStatus_eq_dec : EqDecision CallStatus.
Proof. solve_decision. Defined.

(** How an operation that was started ended: [SendSuccess] or [true], another
    status or [false], an exception. *)
Inductive flight_result := flight_success | flight_failure | flight_throw.

#[global] Instance flight_result_eq_dec : EqDecision flight_result.
Proof. solve_decision. Defined.

Section dispatcher.
Context {W DS Port Variant NodeId UA_DataType DataType TypeInfo Caller Handle TaskContext : Type}.
Context `{EqDecision TypeInfo} `{!Countable TypeInfo}.
Notation TypeCodec := (TypeCodec W DS Port Variant NodeId UA_DataType).
Notation EndpointTypeRegistry := (EndpointTypeRegistry UA_DataType DataType TypeInfo TypeCodec).
Notation OperationInterfacePart := (OperationInterfacePart TypeInfo).
Notation OperationSchema := (OperationSchema NodeId).
Context (type_getTypeName : TypeInfo → string).
Context `{OperationCallers W DS TypeInfo Caller Handle}.
(** The endpoint's types, if the pointer is set, and the operation timeout in
    milliseconds. *)
Context (type_registry : option EndpointTypeRegistry) (timeout : Z).

(** [type_registry ? type_registry->codecForTypeInfo(type) : nullptr]. *)
Definition codecFor (type : option TypeInfo) : option TypeCodec :=
  match type_registry, type with
  | Some registry, Some type =>
      match codecForTypeInfo registry type with
      | Some codec => deref_codec registry codec
      | None => None
      end
  | _, _ => None
  end.

Definition codecForSource (value : DS) : option TypeCodec :=
  match type_registry with
  | Some registry =>
      match codecForDataSource ds_typeInfo registry (Some value) with
      | Some codec => deref_codec registry codec
      | None => None
      end
  | None => None
  end.

Definition empty_schema : OperationSchema :=
  {| supported := false; unsupported_type_name := ""; unsupported_reason := ""; fingerprint := "";
     schema_inputs := []; schema_outputs := []; input_type_names := []; output_type_names := [];
     output_sources := [] |}.

Definition unsupportedSchema (type : option TypeInfo) (reason : string) : OperationSchema :=
  {| supported := false;
     unsupported_type_name := match type with Some type => type_getTypeName type | None => "<unknown>" end;
     unsupported_reason := reason; fingerprint := "";
     schema_inputs := []; schema_outputs := []; input_type_names := []; output_type_names := [];
     output_sources := [] |}.

Definition unsupportedValueSchema (type : option TypeInfo) (codec : option TypeCodec) : OperationSchema :=
  match type, codec with
  | None, _ => unsupportedSchema None "has no RTT type information"
  | Some _, None => unsupportedSchema type "has no registered OPC UA protocol"
  | Some _, Some _ => unsupportedSchema type "does not support OPC UA values"
  end.

(** [inputs.emplace_back], [input_type_names.push_back]. *)
Definition add_input (name description : string) (type : TypeInfo) (codec : TypeCodec)
    (schema : OperationSchema) : OperationSchema :=
  {| supported := supported schema; unsupported_type_name := unsupported_type_name schema;
     unsupported_reason := unsupported_reason schema; fingerprint := fingerprint schema;
     schema_inputs := schema_inputs schema ++
       [{| arg_name := name; arg_description := description; arg_dataType := dataTypeNodeId codec;
           arg_valueRank := valueRank codec |}];
     schema_outputs := schema_outputs schema;
     input_type_names := input_type_names schema ++ [type_getTypeName type];
     output_type_names := output_type_names schema; output_sources := output_sources schema |}.

Definition add_output (name description : string) (source : Z) (type : TypeInfo) (codec : TypeCodec)
    (schema : OperationSchema) : OperationSchema :=
  {| supported := supported schema; unsupported_type_name := unsupported_type_name schema;
     unsupported_reason := unsupported_reason schema; fingerprint := fingerprint schema;
     schema_inputs := schema_inputs schema;
     schema_outputs := schema_outputs schema ++
       [{| arg_name := name; arg_description := description; arg_dataType := dataTypeNodeId codec;
           arg_valueRank := valueRank codec |}];
     input_type_names := input_type_names schema;
     output_type_names := output_type_names schema ++ [type_getTypeName type];
     output_sources := output_sources schema ++ [source] |}.

Definition finish_schema (text : string) (schema : OperationSchema) : OperationSchema :=
  {| supported := true; unsupported_type_name := unsupported_type_name schema;
     unsupported_reason := unsupported_reason schema; fingerprint := text;
     schema_inputs := schema_inputs schema; schema_outputs := schema_outputs schema;
     input_type_names := input_type_names schema; output_type_names := output_type_names schema;
     output_sources := output_sources schema |}.

Definition fingerprint_entry (tag name description : string) (type : TypeInfo) : string :=
  tag +:+ name +:+ ":" +:+ description +:+ ":" +:+ type_getTypeName type.

(** A value codec for [type], or the schema to return. *)
Definition valueCodec (type : option TypeInfo) : OperationSchema + (TypeInfo * TypeCodec) :=
  match type, codecFor type with
  | Some info, Some codec =>
      if hasValue codec then inr (info, codec) else inl (unsupportedValueSchema type (Some codec))
  | _, codec => inl (unsupportedValueSchema type codec)
  end.

(** The loop over the arguments, from [index]; an early return is [inl]. *)
Fixpoint describeInputs (operation : OperationInterfacePart) (arguments : list ArgumentDescription)
    (count index : nat) (schema : OperationSchema) (text : string) :
    exn + (OperationSchema + (OperationSchema * string)) :=
  match count with
  | O => inr (inr (schema, text))
  | S count' =>
      match op_getArgumentType operation (index + 1) with
      | inl e => inl e
      | inr type =>
          match valueCodec type with
          | inl unsupported => inr (inl unsupported)
          | inr (info, codec) =>
              let name := argumentName arguments index in
              let description := argumentDescription arguments index in
              describeInputs operation arguments count' (S index)
                (add_input name description info codec schema)
                (text +:+ fingerprint_entry "|in:" name description info)
          end
      end
  end.

(** [has_return_value], or the schema to return. *)
Definition describeReturn (operation : OperationInterfacePart) : exn + (OperationSchema + bool) :=
  match op_getArgumentType operation 0 with
  | inl e => inl e
  | inr return_type =>
      match return_type, codecFor return_type with
      | Some info, Some return_codec =>
          if negb (hasValue return_codec) && negb (String.eqb (type_getTypeName info) "Void")
          then inr (inl (unsupportedValueSchema return_type (Some return_codec)))
          else inr (inr (hasValue return_codec))
      | _, return_codec => inr (inl (unsupportedValueSchema return_type return_codec))
      end
  end.

(** The indexes of the arguments of mutable reference type. *)
Definition isMutableArgument (arguments : list ArgumentDescription) (index : nat) : bool :=
  match arguments !! index with
  | Some argument => isMutableReference (ad_type argument)
  | None => false
  end.
Definition mutableArguments (arguments : list ArgumentDescription) : list nat :=
  filter (λ index, isMutableArgument arguments index = true) (seq 0 (length arguments)).

(** The loop over the outputs; [mutable] are the arguments not yet used. *)
Fixpoint describeOutputs (operation : OperationInterfacePart) (arguments : list ArgumentDescription)
    (has_return_value : bool) (count index : nat) (mutable : list nat)
    (schema : OperationSchema) (text : string) : exn + (OperationSchema + (OperationSchema * string)) :=
  match count with
  | O => inr (inr (schema, text))
  | S count' =>
      match op_getCollectType operation (index + 1) with
      | inl e => inl e
      | inr type =>
          match valueCodec type with
          | inl unsupported => inr (inl unsupported)
          | inr (info, codec) =>
              if bool_decide (index = 0) && has_return_value then
                let description := op_description operation in
                describeOutputs operation arguments has_return_value count' (S index) mutable
                  (add_output "result" description (-1) info codec schema)
                  (text +:+ fingerprint_entry "|out:" "result" description info)
              else
                match mutable with
                | [] => inr (inl (unsupportedSchema type "has unsupported mutable output metadata"))
                | argument_index :: mutable' =>
                    let name := argumentName arguments argument_index in
                    let description := argumentDescription arguments argument_index in
                    describeOutputs operation arguments has_return_value count' (S index) mutable'
                      (add_output name description (Z.of_nat argument_index) info codec schema)
                      (text +:+ fingerprint_entry "|out:" name description info)
                end
          end
      end
  end.

Definition describe_body (operation : OperationInterfacePart) : exn + OperationSchema :=
  match op_getArgumentList operation with
  | inl e => inl e
  | inr arguments =>
      let text := op_address operation +:+ "|" +:+ op_description operation in
      match describeInputs operation arguments (op_arity operation) 0 empty_schema text with
      | inl e => inl e
      | inr (inl unsupported) => inr unsupported
      | inr (inr (schema, text)) =>
          match describeReturn operation with
          | inl e => inl e
          | inr (inl unsupported) => inr unsupported
          | inr (inr has_return_value) =>
              match describeOutputs operation arguments has_return_value (op_collectArity operation) 0
                      (mutableArguments arguments) schema text with
              | inl e => inl e
              | inr (inl unsupported) => inr unsupported
              | inr (inr (schema, text)) => inr (finish_schema text schema)
              end
          end
      end
  end.

Definition describe (operation : OperationInterfacePart) : OperationSchema :=
  match describe_body operation with
  | inl _ => unsupportedSchema None "could not be described for OPC UA publication"
  | inr schema => schema
  end.

(** ** One call *)

(** [encodeOutputs] past its size check: the status and the variants written.
    The outputs of a call that failed are not read. *)
Fixpoint encodeValues (values : list DS) (outputs : list Variant) : IO W (CallStatus * list Variant) :=
  match values, outputs with
  | value :: values', output :: outputs' =>
      match codecForSource value with
      | None => mret (BadInternalError, outputs)
      | Some codec =>
          '(ok, written) ← toVariant codec (Some value) (Some output);
          let output := default output written in
          if negb ok then mret (BadInternalError, output :: outputs')
          else '(status, outputs') ← encodeValues values' outputs';
               mret (status, output :: outputs')
      end
  | _, _ => mret (Good, outputs)
  end.

Definition encodeOutputs (values : list DS) (outputs : list Variant) : IO W (CallStatus * list Variant) :=
  if negb (length values =? length outputs) then mret (BadInternalError, outputs)
  else encodeValues values outputs.

(** [m] that may throw, for a query of the operation. *)
Definition io_of {A} (m : exn + A) : IO W A := λ w, (w, m).

(** The loop over the inputs, from [index]; [None] is a refused argument. *)
Fixpoint bindInputs (operation : OperationInterfacePart) (caller : Caller) (index : nat)
    (inputs : list Variant) : IO W (option (list DS)) :=
  match inputs with
  | [] => mret (Some [])
  | input :: inputs' =>
      type ← io_of (op_getArgumentType operation (index + 1));
      value ← match codecFor type with
              | None => mret None
              | Some codec => makeDataSource codec input
              end;
      match value with
      | None => mret None
      | Some value =>
          caller_arg caller value;;
          values ← bindInputs operation caller (S index) inputs';
          mret (cons value <$> values)
      end
  end.

(** [type == nullptr ? {} : type->buildValue()]. *)
Definition buildValue (type : option TypeInfo) : IO W (option DS) :=
  match type with
  | None => mret None
  | Some type => type_buildValue type
  end.

(** The values to collect of a call without a send: the result and the
    arguments it changes; [None] when one is missing. *)
Fixpoint callValues (operation : OperationInterfacePart) (caller : Caller) (input_values : list DS)
    (index : nat) (sources : list Z) : IO W (option (list DS)) :=
  match sources with
  | [] => mret (Some [])
  | source :: sources' =>
      value ← (if (source =? -1)%Z then
                 type ← io_of (op_getCollectType operation (index + 1));
                 value ← buildValue type;
                 match value with
                 | Some value => caller_ret caller value;; mret (Some value)
                 | None => mret None
                 end
               else mret (if (source >=? 0)%Z then input_values !! Z.to_nat source else None));
      match value with
      | None => mret None
      | Some value =>
          values ← callValues operation caller input_values (S index) sources';
          mret (cons value <$> values)
      end
  end.

(** The values to collect of an operation that was sent. *)
Fixpoint sendValues (operation : OperationInterfacePart) (handle : Handle) (index count : nat) :
    IO W (option (list DS)) :=
  match count with
  | O => mret (Some [])
  | S count' =>
      type ← io_of (op_getCollectType operation (index + 1));
      value ← buildValue type;
      match value with
      | None => mret None
      | Some value =>
          handle_arg handle value;;
          values ← sendValues operation handle (S index) count';
          mret (cons value <$> values)
      end
  end.

Definition sendCollect (operation : OperationInterfacePart) (handle : Handle) :
    IO W (CallStatus + list DS) :=
  values ← sendValues operation handle 0 (op_collectArity operation);
  match values with
  | None => mret (inl BadNotSupported)
  | Some values =>
      handle_check handle;;
      ready ← io_gets (handle_ready handle);
      mret (if negb ready then inl BadInternalError else inr values)
  end.

(** What [invoke] has done when it starts to poll or returns: whether the
    operation runs, and the values to collect or the status returned. *)
Record Started := {
  launched : bool;
  outcome : CallStatus + list DS;
}.

Definition callStart (operation : OperationInterfacePart) (caller : Caller) (input_values : list DS)
    (n_outputs : nat) : IO W Started :=
  let schema := describe operation in
  if negb (supported schema) || negb (length (output_sources schema) =? n_outputs)
  then mret {| launched := false; outcome := inl BadNotSupported |}
  else
    values ← callValues operation caller input_values 0 (output_sources schema);
    match values with
    | None => mret {| launched := false; outcome := inl BadNotSupported |}
    | Some values => caller_async caller;; mret {| launched := true; outcome := inr values |}
    end.

Definition sendStart (operation : OperationInterfacePart) (caller : Caller) : IO W Started :=
  handle ← caller_send caller;
  catch_all (result ← sendCollect operation handle; mret {| launched := true; outcome := result |})
    (λ _, mret {| launched := true; outcome := inl BadUnexpectedError |}).

(** [invoke] from the size checks to the polling, with a valid lease. *)
Definition invoke_try (operation : OperationInterfacePart) (inputs : list Variant) (n_outputs : nat) :
    IO W Started :=
  caller ← caller_new operation;
  input_values ← bindInputs operation caller 0 inputs;
  match input_values with
  | None => mret {| launched := false; outcome := inl BadInvalidArgument |}
  | Some input_values =>
      caller_check caller;;
      ready ← io_gets (caller_ready caller);
      if negb ready then mret {| launched := false; outcome := inl BadInternalError |}
      else
        sends ← io_gets (caller_sends caller);
        if negb sends then callStart operation caller input_values n_outputs
        else sendStart operation caller
  end.

Definition invoke_start (operation : OperationInterfacePart) (inputs : list Variant)
    (n_outputs : nat) (w : W) : W * Started :=
  if (timeout <=? 0)%Z then (w, {| launched := false; outcome := inl BadConfigurationError |})
  else if negb (length inputs =? op_arity operation) ||
          negb (n_outputs =? op_collectArity operation)
  then (w, {| launched := false; outcome := inl BadInvalidArgument |})
  else match invoke_try operation inputs n_outputs w with
       | (w, inl _) => (w, {| launched := false; outcome := inl BadUnexpectedError |})
       | (w, inr started) => (w, started)
       end.

(** What [invoke] returns once the operation has ended. *)
Definition invoke_collect (result : flight_result) (values : list DS) (outputs : list Variant) (w : W) :
    W * (CallStatus * list Variant) :=
  match result with
  | flight_success =>
      match encodeOutputs values outputs w with
      | (w, inl _) => (w, (BadUnexpectedError, outputs))
      | (w, inr written) => (w, written)
      end
  | flight_failure => (w, (BadResourceUnavailable, outputs))
  | flight_throw => (w, (BadUnexpectedError, outputs))
  end.

(** ** Concurrent calls

    The thread of a call polls, waits in [pending->wait()], or has returned: with
    [BadTimeout] while the invocation is retained, or for good. *)
Inductive invoker_pc :=
  | inv_polling
  | inv_waiting
  | inv_pending
  | inv_returned (status : CallStatus).

(** [inv_flight] is [None] before the operation was started, [Some None] while
    it runs and [Some (Some result)] when it has ended. *)
Record Invocation := {
  inv_component : nat;
  inv_pc : invoker_pc;
  inv_values : list DS;
  inv_outputs : list Variant;
  inv_flight : option (option flight_result);
}.

Inductive drain_pc := drain_none | drain_joining | drain_reaping | drain_returned.

(** [OperationDispatcher::Impl] with the threads: the data sources' heap, the
    component states with their leases (a call's lease has the number of the
    call), all calls by number, and the retained [invocations].  [reaper] is
    whether the reaper thread runs; it is asked to stop when [draining] is set. *)
Record Dispatcher := {
  heap : W;
  components : gmap nat (world TaskContext);
  calls : gmap nat Invocation;
  invocations : list nat;
  draining : bool;
  reaper : bool;
  drainer : drain_pc;
}.

Definition set_calls (h : W) (cs : gmap nat (world TaskContext)) (all : gmap nat Invocation)
    (retained : list nat) (d : Dispatcher) : Dispatcher :=
  {| heap := h; components := cs; calls := all; invocations := retained; draining := draining d;
     reaper := reaper d; drainer := drainer d |}.

Definition set_threads (stop alive : bool) (pc : drain_pc) (d : Dispatcher) : Dispatcher :=
  {| heap := heap d; components := components d; calls := calls d; invocations := invocations d;
     draining := stop; reaper := alive; drainer := pc |}.

Definition set_pc (pc : invoker_pc) (inv : Invocation) : Invocation :=
  {| inv_component := inv_component inv; inv_pc := pc; inv_values := inv_values inv;
     inv_outputs := inv_outputs inv; inv_flight := inv_flight inv |}.
Definition set_outputs (outputs : list Variant) (inv : Invocation) : Invocation :=
  {| inv_component := inv_component inv; inv_pc := inv_pc inv; inv_values := inv_values inv;
     inv_outputs := outputs; inv_flight := inv_flight inv |}.
Definition set_flight (flight : option (option flight_result)) (inv : Invocation) : Invocation :=
  {| inv_component := inv_component inv; inv_pc := inv_pc inv; inv_values := inv_values inv;
     inv_outputs := inv_outputs inv; inv_flight := flight |}.

(** The lease of call [id] is constructed and destroyed. *)
Definition lease_construct (id : nat) (component : world TaskContext) :
    world TaskContext * ComponentLease TaskContext :=
  let '(state, lease) := ComponentLease_acquire true (w_state component) in
  ({| w_state := state; w_leases := <[id := lease]> (w_leases component);
      w_waiting := w_waiting component |}, lease).

Definition lease_destroy (id : nat) (component : world TaskContext) : world TaskContext :=
  match w_leases component !! id with
  | None => component
  | Some lease =>
      {| w_state := (ComponentLease_release (w_state component) lease).1;
         w_leases := delete id (w_leases component); w_waiting := w_waiting component |}
  end.

(** The call ends: its lease is destroyed. *)
Definition call_return (id : nat) (status : CallStatus) (d : Dispatcher) : Dispatcher :=
  match calls d !! id with
  | None => d
  | Some inv =>
      set_calls (heap d) (alter (lease_destroy id) (inv_component inv) (components d))
        (<[id := set_pc (inv_returned status) inv]> (calls d)) (invocations d) d
  end.

(** The beginning of [invoke] for a component; [None] when the number is used. *)
Definition call_begin (id c : nat) (operation : OperationInterfacePart) (inputs outputs : list Variant)
    (d : Dispatcher) : option Dispatcher :=
  match calls d !! id, components d !! c with
  | None, Some component =>
      if bool_decide (w_leases component !! id = None) &&
         bool_decide (N.of_nat (size (w_leases component)) < lease_bound)%N
      then
        let '(component, lease) := lease_construct id component in
        let call pc values flight :=
          {| inv_component := c; inv_pc := pc; inv_values := values; inv_outputs := outputs;
             inv_flight := flight |} in
        let start h pc values flight :=
          set_calls h (<[c := component]> (components d)) (<[id := call pc values flight]> (calls d))
            (invocations d) d in
        if negb (ComponentLease_bool lease)
        then Some (call_return id BadNotConnected (start (heap d) inv_polling [] None))
        else
          match invoke_start operation inputs (length outputs) (heap d) with
          | (h, started) =>
              let flight := if launched started then Some None else None in
              match outcome started with
              | inl status => Some (call_return id status (start h inv_polling [] flight))
              | inr values => Some (start h inv_polling values flight)
              end
          end
      else None
  | _, _ => None
  end.

(** [retainPending] of a call whose deadline has passed. *)
Definition retainPending (id : nat) (inv : Invocation) (d : Dispatcher) : Dispatcher :=
  if draining d
  then set_calls (heap d) (components d) (<[id := set_pc inv_waiting inv]> (calls d)) (invocations d) d
  else set_calls (heap d) (components d) (<[id := set_pc inv_pending inv]> (calls d))
         (invocations d ++ [id]) d.

(** One round of the polling loop; [expired] is the comparison with the deadline. *)
Definition call_poll (id : nat) (expired : bool) (d : Dispatcher) : option Dispatcher :=
  match calls d !! id with
  | Some inv =>
      match inv_pc inv, inv_flight inv with
      | inv_polling, Some (Some result) =>
          match invoke_collect result (inv_values inv) (inv_outputs inv) (heap d) with
          | (h, (status, outputs)) =>
              Some (call_return id status
                (set_calls h (components d) (<[id := set_outputs outputs inv]> (calls d)) (invocations d) d))
          end
      | inv_polling, Some None => Some (if expired then retainPending id inv d else d)
      | _, _ => None
      end
  | None => None
  end.

(** [collectIfDone] of a pending invocation. *)
Definition collectIfDone (d : Dispatcher) (id : nat) : bool :=
  match calls d !! id with
  | Some inv => match inv_flight inv with Some (Some _) => true | _ => false end
  | None => false
  end.

(** The end of [pending->wait()]. *)
Definition call_waited (id : nat) (d : Dispatcher) : option Dispatcher :=
  match calls d !! id with
  | Some inv =>
      match inv_pc inv with
      | inv_waiting => if collectIfDone d id then Some (call_return id BadTimeout d) else None
      | _ => None
      end
  | None => None
  end.

Definition reapOnce (d : Dispatcher) : Dispatcher :=
  foldl (λ d id, call_return id BadTimeout d)
    (set_calls (heap d) (components d) (calls d)
       (filter (λ id, collectIfDone d id = false) (invocations d)) d)
    (filter (λ id, collectIfDone d id = true) (invocations d)).

(** The operation ends. *)
Definition call_complete (id : nat) (result : flight_result) (d : Dispatcher) : option Dispatcher :=
  match calls d !! id with
  | Some inv =>
      match inv_flight inv with
      | Some None => Some (set_calls (heap d) (components d)
                             (<[id := set_flight (Some (Some result)) inv]> (calls d)) (invocations d) d)
      | _ => None
      end
  | None => None
  end.

(** The rounds and the end of [runReaper]. *)
Definition reaper_round (d : Dispatcher) : option Dispatcher :=
  if reaper d && negb (draining d) then Some (reapOnce d) else None.
Definition reaper_exit (d : Dispatcher) : option Dispatcher :=
  if reaper d && draining d then Some (set_threads true false (drainer d) d) else None.

(** [drain]: the request, the join and the rounds of its loop. *)
Definition drain_begin (d : Dispatcher) : option Dispatcher :=
  match drainer d with
  | drain_none | drain_returned => Some (set_threads true (reaper d) drain_joining d)
  | _ => None
  end.
Definition drain_joined (d : Dispatcher) : option Dispatcher :=
  match drainer d with
  | drain_joining => if reaper d then None else Some (set_threads (draining d) false drain_reaping d)
  | _ => None
  end.
Definition drain_round (d : Dispatcher) : option Dispatcher :=
  match drainer d with
  | drain_reaping =>
      let d := reapOnce d in
      Some (set_threads (draining d) (reaper d)
              (if bool_decide (invocations d = []) then drain_returned else drain_reaping) d)
  | _ => None
  end.

Inductive dispatcher_action :=
  | act_call (id c : nat) (operation : OperationInterfacePart) (inputs outputs : list Variant)
  | act_complete (id : nat) (result : flight_result)
  | act_poll (id : nat) (expired : bool)
  | act_waited (id : nat)
  | act_reap | act_reaper_exit
  | act_drain | act_drain_joined | act_drain_round.

Definition dispatcher_act (a : dispatcher_action) (d : Dispatcher) : option Dispatcher :=
  match a with
  | act_call id c operation inputs outputs => call_begin id c operation inputs outputs d
  | act_complete id result => call_complete id result d
  | act_poll id expired => call_poll id expired d
  | act_waited id => call_waited id d
  | act_reap => reaper_round d
  | act_reaper_exit => reaper_exit d
  | act_drain => drain_begin d
  | act_drain_joined => drain_joined d
  | act_drain_round => drain_round d
  end.

Fixpoint dispatcher_acts (l : list dispatcher_action) (d : Dispatcher) : option Dispatcher :=
  match l with
  | [] => Some d
  | a :: l' => match dispatcher_act a d with
               | Some d => dispatcher_acts l' d
               | None => None
               end
  end.

(** A step of the dispatcher, or of the rest of the program on a component: it
    deactivates it or handles leases other than those of the calls. *)
Inductive dispatcher_step : Dispatcher → Dispatcher → Prop :=
  | step_dispatcher a d d' : dispatcher_act a d = Some d' → dispatcher_step d d'
  | step_component c component component' d :
      components d !! c = Some component → lease_step component component' →
      (∀ id, is_Some (calls d !! id) → w_leases component' !! id = w_leases component !! id) →
      dispatcher_step d (set_calls (heap d) (<[c := component']> (components d)) (calls d)
        (invocations d) d).

Definition initial_dispatcher (h : W) (cs : gmap nat (world TaskContext)) : Dispatcher :=
  {| heap := h; components := cs; calls := ∅; invocations := []; draining := false; reaper := true;
     drainer := drain_none |}.

Definition dispatcher_reachable (d : Dispatcher) : Prop :=
  ∃ h cs, map_Forall (λ _, lease_reachable) cs ∧ rtc dispatcher_step (initial_dispatcher h cs) d.

(** ** Specification *)

(** What the status of a call that has returned says about its operation. *)
Definition status_meaning (status : CallStatus) (flight : option (option flight_result)) : Prop :=
  match status with
  | Good => flight = Some (Some flight_success)
  | BadResourceUnavailable => flight = Some (Some flight_failure)
  | BadTimeout => ∃ result, flight = Some (Some result)
  | BadNotConnected | BadConfigurationError | BadInvalidArgument => flight = None
  | BadInternalError | BadNotSupported | BadUnexpectedError => True
  end.

(** The lease of call [id] keeps [component]. *)
Definition lease_holds (d : Dispatcher) (id c : nat) : Prop :=
  ∃ component lease, components d !! c = Some component ∧ w_leases component !! id = Some lease ∧
    lease_state lease = true.

Definition call_ok (d : Dispatcher) (id : nat) : Prop :=
  ∀ inv, calls d !! id = Some inv →
    match inv_pc inv with
    | inv_returned status => status_meaning status (inv_flight inv)
    | _ => is_Some (inv_flight inv) ∧ lease_holds d id (inv_component inv)
    end.

Definition is_pending (inv : Invocation) : bool :=
  match inv_pc inv with inv_pending => true | _ => false end.

(** The retained invocations are the pending calls. *)
Record retained_ok (queue : list nat) (all : gmap nat Invocation) : Prop := {
  ro_nodup : NoDup queue;
  ro_pending : ∀ id, id ∈ queue ↔ ∃ inv, all !! id = Some inv ∧ is_pending inv = true;
}.

Record dispatcher_inv (d : Dispatcher) : Prop := {
  di_components : map_Forall (λ _, lease_inv) (components d);
  di_calls : ∀ id, call_ok d id;
  di_retained : retained_ok (invocations d) (calls d);
  di_reaper : reaper d = false → draining d = true;
  di_drainer : drainer d ≠ drain_none → draining d = true;
  di_joined : drainer d = drain_reaping → reaper d = false;
  di_drained : drainer d = drain_returned → invocations d = [];
}.

(** An operation the dispatcher can describe: its argument list, the types and
    codecs of its arguments, whether it returns a value, and the types and
    codecs of its outputs. *)
Definition value_codecs (getType : nat → exn + option TypeInfo) (indexes : list nat)
    (entries : list (TypeInfo * TypeCodec)) : Prop :=
  Forall2 (λ index entry, getType (index + 1) = inr (Some entry.1) ∧
    codecFor (Some entry.1) = Some entry.2 ∧ hasValue entry.2 = true) indexes entries.

Record describable (operation : OperationInterfacePart) (arguments : list ArgumentDescription)
    (ins : list (TypeInfo * TypeCodec)) (has_return_value : bool) (outs : list (TypeInfo * TypeCodec)) : Prop := {
  ds_arguments : op_getArgumentList operation = inr arguments;
  ds_inputs : value_codecs (op_getArgumentType operation) (seq 0 (op_arity operation)) ins;
  ds_return : ∃ return_type codec, op_getArgumentType operation 0 = inr (Some return_type) ∧
    codecFor (Some return_type) = Some codec ∧ hasValue codec = has_return_value ∧
    (has_return_value = false → type_getTypeName return_type = "Void");
  ds_outputs : value_codecs (op_getCollectType operation) (seq 0 (op_collectArity operation)) outs;
  ds_sources : op_collectArity operation ≤
    (if has_return_value then 1 else 0) + length (mutableArguments arguments);
}.

Definition input_argument (arguments : list ArgumentDescription) (index : nat)
    (entry : TypeInfo * TypeCodec) : Argument NodeId :=
  {| arg_name := argumentName arguments index; arg_description := argumentDescription arguments index;
     arg_dataType := dataTypeNodeId entry.2; arg_valueRank := valueRank entry.2 |}.

Definition output_argument (operation : OperationInterfacePart) (arguments : list ArgumentDescription)
    (source : Z) (entry : TypeInfo * TypeCodec) : Argument NodeId :=
  {| arg_name := if (source =? -1)%Z then "result" else argumentName arguments (Z.to_nat source);
     arg_description := if (source =? -1)%Z then op_description operation
                        else argumentDescription arguments (Z.to_nat source);
     arg_dataType := dataTypeNodeId entry.2; arg_valueRank := valueRank entry.2 |}.

(** The result first, then the arguments of mutable reference type in order. *)
Definition expected_sources (arguments : list ArgumentDescription) (has_return_value : bool) : list Z :=
  (if has_return_value then [-1] else [])%Z ++ (Z.of_nat <$> mutableArguments arguments).
End dispatcher.

Arguments Dispatcher : clear implicits.
Arguments Invocation : clear implicits.

(** ** A concrete dispatcher

    Data sources and variants are numbers; values of the type "Int32" can be
    built, those of "Opaque" cannot. *)
#[global] Instance sample_callers : OperationCallers nat nat string unit unit := {
  caller_new _ := mret tt;
  caller_arg _ _ := mret tt;
  caller_check _ := mret tt;
  caller_ready _ _ := true;
  caller_sends _ _ := true;
  caller_ret _ _ := mret tt;
  caller_async _ := mret tt;
  caller_send _ := io_modify S;
  handle_arg _ _ := mret tt;
  handle_check _ := mret tt;
  handle_ready _ _ := true;
  type_buildValue type := mret (if String.eqb type "Int32" then Some 0 else None);
  ds_typeInfo _ := Some "Int32";
}.

Definition number_codec : TypeCodec nat nat nat nat c_NodeId c_NodeId :=
  {| dataTypeNodeId := (0%N, inl dt_Int32); valueRank := vr_Scalar; hasValue := true;
     toVariant source _ := mret (true, source); assignVariant _ _ := mret true;
     makeDataSource value := mret (Some value); makeProxyDataSource _ _ := None;
     portValue _ value _ := (pv_value, value) |}.

Definition number_registry :
    EndpointTypeRegistry c_NodeId c_DataType string (TypeCodec nat nat nat nat c_NodeId c_NodeId) :=
  {| namespace_indexes := ∅; custom_data_types := []; custom_data_type_indexes := ∅; data_type_nodes := [];
     codecs := {["Int32" := 0; "Opaque" := 0]}; codecs_by_name := {["Int32" := 0; "Opaque" := 0]};
     codec_heap := {[0 := number_codec]};
     factory_state := {| factory_namespace_indexes := ∅; factory_data_types := ∅ |} |}.

(** An operation with one argument of type [argument] and results of the given type. *)
Definition sample_operation (argument result : string) (outputs : nat) : OperationInterfacePart string :=
  {| op_address := "0x1"; op_description := "doubles"; op_arity := 1; op_collectArity := outputs;
     op_getArgumentList := inr [{| ad_name := ""; ad_description := "the number"; ad_type := argument |}];
     op_getArgumentType _ := inr (Some "Int32"); op_getCollectType _ := inr (Some result) |}.

Definition sample_start : Dispatcher nat nat nat nat :=
  initial_dispatcher 0 {[0 := initial_world 7 "component" false]}.

Definition sample_act :=
  dispatcher_act (TaskContext := nat) (Caller := unit) (Handle := unit) (λ type : string, type) (Some number_registry) 100.
Definition sample_acts :=
  dispatcher_acts (TaskContext := nat) (Caller := unit) (Handle := unit) (λ type : string, type) (Some number_registry) 100.
Definition sample_dispatcher (l : list dispatcher_action) : Dispatcher nat nat nat nat :=
  default sample_start (sample_acts l sample_start).
Definition sample_runs (l : list dispatcher_action) : bool :=
  match sample_acts l sample_start with Some _ => true | None => false end.

(** A call that times out while its operation runs. *)
Definition sample_timeout : list (dispatcher_action (Variant := nat) (TypeInfo := string)) :=
  [act_call 5 0 (sample_operation "int" "Int32" 1) [3] [0]; act_poll 5 true].
(** A call whose operation succeeds. *)
Definition sample_success : list (dispatcher_action (Variant := nat) (TypeInfo := string)) :=
  [act_call 5 0 (sample_operation "int" "Int32" 1) [3] [0]; act_complete 5 flight_success; act_poll 5 false].
(** A call whose result cannot be built. *)
Definition sample_opaque : list (dispatcher_action (Variant := nat) (TypeInfo := string)) :=
  [act_call 5 0 (sample_operation "int" "Opaque" 1) [3] [0]].
(** The operation then ends, and the pending calls are drained. *)
Definition sample_draining : list (dispatcher_action (Variant := nat) (TypeInfo := string)) :=
  sample_timeout ++ [act_complete 5 flight_success; act_drain].

Definition sample_running : Invocation nat nat :=
  {| inv_component := 0; inv_pc := inv_pending; inv_values := [0]; inv_outputs := [0];
     inv_flight := Some None |}.
Definition sample_finished : Invocation nat nat :=
  {| inv_component := 0; inv_pc := inv_returned Good; inv_values := [0]; inv_outputs := [0];
     inv_flight := Some (Some flight_success) |}.
Definition sample_component : world nat := initial_world 7 "component" false.

(** ** Lemmas: leases *)

Section lease_facts.
Context {TaskContext : Type}.
Implicit Types (component : world TaskContext).

Lemma lease_construct_spec id component component' lease :
  lease_inv component → w_leases component !! id = None →
  (N.of_nat (size (w_leases component)) < lease_bound)%N →
  lease_construct id component = (component', lease) →
  lease_inv component' ∧ w_leases component' = <[id := lease]> (w_leases component) ∧
  (ComponentLease_bool lease = true → lease_state lease = true).
Proof.
  destruct component as [state leases waiting]. intros Hinv Hfree Hbound. unfold lease_construct. simpl in *.
  destruct (ComponentLease_acquire true state) as [state' lease'] eqn:Hacq. intros Heq. simplify_eq.
  split_and!; [by eapply acquire_inv|done|].
  unfold ComponentLease_acquire in Hacq. simpl in Hacq. by case_match; simplify_eq.
Qed.

Lemma lease_destroy_inv id component : lease_inv component → lease_inv (lease_destroy id component).
Proof.
  destruct component as [state leases waiting]. intros Hinv. unfold lease_destroy. simpl in *.
  destruct (leases !! id) as [lease|] eqn:Hl; [by eapply destroy_inv|done].
Qed.

Lemma lease_destroy_other id id' component :
  id ≠ id' → w_leases (lease_destroy id component) !! id' = w_leases component !! id'.
Proof. intros Hne. unfold lease_destroy. case_match; [|done]. simpl. by rewrite lookup_delete_ne. Qed.

Lemma lease_destroy_gone id component : w_leases (lease_destroy id component) !! id = None.
Proof. unfold lease_destroy. case_match; [|done]. simpl. apply lookup_delete_eq. Qed.
End lease_facts.

(** ** Lemmas: one call *)

Section dispatcher_facts.
Context {W DS Port Variant NodeId UA_DataType DataType TypeInfo Caller Handle TaskContext : Type}.
Context `{EqDecision TypeInfo} `{!Countable TypeInfo}.
Notation TypeCodec := (TypeCodec W DS Port Variant NodeId UA_DataType).
Notation EndpointTypeRegistry := (EndpointTypeRegistry UA_DataType DataType TypeInfo TypeCodec).
Context (type_getTypeName : TypeInfo → string).
Context `{OperationCallers W DS TypeInfo Caller Handle}.
Context (type_registry : option EndpointTypeRegistry) (timeout : Z).
Notation Dispatcher := (Dispatcher W DS Variant TaskContext).
Notation Invocation := (Invocation DS Variant).
Notation dispatcher_act := (dispatcher_act (TaskContext := TaskContext) type_getTypeName type_registry timeout).
Notation dispatcher_step := (dispatcher_step (TaskContext := TaskContext) type_getTypeName type_registry timeout).
Notation dispatcher_reachable := (dispatcher_reachable (TaskContext := TaskContext) type_getTypeName type_registry timeout).
Implicit Types (d : Dispatcher) (inv : Invocation).

(** How far a call got when it returns before polling. *)
Definition started_ok (started : Started (DS := DS)) : Prop :=
  match outcome started with
  | inl status => status_meaning status (if launched started then Some None else None)
  | inr _ => launched started = true
  end.

Lemma io_bind_inr {A B} (m : IO W A) (f : A → IO W B) w w' y :
  (m ≫= f) w = (w', inr y) → ∃ x w1, m w = (w1, inr x) ∧ f x w1 = (w', inr y).
Proof. unfold mbind, IO_bind. destruct (m w) as [w1 [e|x]]; [done|]. eauto. Qed.

Lemma callStart_ok operation caller input_values n_outputs w w' started :
  callStart type_getTypeName type_registry operation caller input_values n_outputs w = (w', inr started) →
  started_ok started.
Proof.
  unfold callStart. case_match; [unfold mret, IO_ret; intros; by simplify_eq|].
  intros (values & w1 & _ & Hrest)%io_bind_inr. destruct values.
  - apply io_bind_inr in Hrest as (? & w2 & _ & Hret). unfold mret, IO_ret in Hret. by simplify_eq.
  - unfold mret, IO_ret in Hrest. by simplify_eq.
Qed.

Lemma sendCollect_ok operation handle w w' result :
  sendCollect operation handle w = (w', inr result) →
  started_ok {| launched := true; outcome := result |}.
Proof.
  unfold sendCollect. intros (values & w1 & _ & Hrest)%io_bind_inr. destruct values.
  - apply io_bind_inr in Hrest as (? & w2 & _ & Hrest).
    apply io_bind_inr in Hrest as (ready & w3 & _ & Hret). unfold mret, IO_ret in Hret. simplify_eq.
    by destruct ready.
  - unfold mret, IO_ret in Hrest. by simplify_eq.
Qed.

Lemma sendStart_ok operation caller w w' started :
  sendStart operation caller w = (w', inr started) → started_ok started.
Proof.
  unfold sendStart. intros (handle & w1 & _ & Hrest)%io_bind_inr.
  unfold catch_all in Hrest.
  destruct ((sendCollect operation handle ≫= _) w1) as [w2 [e|st]] eqn:Hs.
  - unfold mret, IO_ret in Hrest. by simplify_eq.
  - simplify_eq. apply io_bind_inr in Hs as (result & w3 & Hc & Hret).
    unfold mret, IO_ret in Hret. simplify_eq. by eapply sendCollect_ok.
Qed.

Lemma invoke_try_ok operation inputs n_outputs w w' started :
  invoke_try type_getTypeName type_registry operation inputs n_outputs w = (w', inr started) →
  started_ok started.
Proof.
  unfold invoke_try. intros (caller & w1 & _ & Hrest)%io_bind_inr.
  apply io_bind_inr in Hrest as (values & w2 & _ & Hrest). destruct values.
  - apply io_bind_inr in Hrest as (? & w3 & _ & Hrest).
    apply io_bind_inr in Hrest as (ready & w4 & _ & Hrest). destruct ready; cbn [negb] in Hrest.
    + apply io_bind_inr in Hrest as (sends & w5 & _ & Hrest). destruct sends; cbn [negb] in Hrest.
      * by eapply sendStart_ok.
      * by eapply callStart_ok.
    + unfold mret, IO_ret in Hrest. by simplify_eq.
  - unfold mret, IO_ret in Hrest. by simplify_eq.
Qed.

Lemma invoke_start_ok operation inputs n_outputs w :
  started_ok (invoke_start type_getTypeName type_registry timeout operation inputs n_outputs w).2.
Proof.
  unfold invoke_start. case_match; [done|]. case_match; [done|].
  destruct (invoke_try _ _ _ _ _ w) as [w' [e|started]] eqn:Htry; [done|]. by eapply invoke_try_ok.
Qed.

Lemma encodeValues_status values outputs w w' status outputs' :
  encodeValues type_registry values outputs w = (w', inr (status, outputs')) →
  status = Good ∨ status = BadInternalError.
Proof.
  revert outputs w w' status outputs'. induction values as [|value values IH]; intros outputs w w' status outputs'.
  - simpl. unfold mret, IO_ret. intros. simplify_eq. auto.
  - destruct outputs as [|output outputs]; [simpl; unfold mret, IO_ret; intros; simplify_eq; auto|]. simpl.
    destruct (codecForSource type_registry value) as [codec|];
      [|unfold mret, IO_ret; intros; simplify_eq; auto].
    intros ([ok written] & w1 & _ & Hrest)%io_bind_inr. destruct ok; cbn [negb] in Hrest.
    + apply io_bind_inr in Hrest as ([st outs] & w2 & Hrec & Hret). unfold mret, IO_ret in Hret.
      simplify_eq. by eapply IH.
    + unfold mret, IO_ret in Hrest. simplify_eq. auto.
Qed.

Lemma invoke_collect_ok result values outputs w :
  status_meaning (invoke_collect type_registry result values outputs w).2.1 (Some (Some result)).
Proof.
  unfold invoke_collect. destruct result; try done.
  unfold encodeOutputs. destruct (negb _); [done|].
  destruct (encodeValues type_registry values outputs w) as [w' [e|[status outputs']]] eqn:Henc; [done|].
  by apply encodeValues_status in Henc as [-> | ->].
Qed.

(** *** Lemmas: calls and their leases *)

Lemma call_ok_ext d d' id :
  calls d' !! id = calls d !! id → (∀ c, lease_holds d id c → lease_holds d' id c) →
  call_ok d id → call_ok d' id.
Proof.
  intros Hcalls Hleases Hok inv Hinv. rewrite Hcalls in Hinv. specialize (Hok inv Hinv).
  destruct (inv_pc inv); try done; destruct Hok; auto.
Qed.

Lemma lease_holds_components d d' id c :
  components d' = components d → lease_holds d id c → lease_holds d' id c.
Proof. unfold lease_holds. by intros ->. Qed.

Lemma lease_holds_other d d' id c :
  (∀ component, components d !! c = Some component →
     ∃ component', components d' !! c = Some component' ∧
       w_leases component' !! id = w_leases component !! id) →
  lease_holds d id c → lease_holds d' id c.
Proof.
  intros Hc (component & lease & Hcomp & Hlease & Hheld). destruct (Hc component Hcomp) as (component' & ? & Hsame).
  exists component', lease. by rewrite Hsame.
Qed.

Lemma call_return_calls id status d :
  calls (call_return id status d) = alter (set_pc (inv_returned status)) id (calls d).
Proof.
  unfold call_return. apply map_eq. intros j. destruct (calls d !! id) as [inv|] eqn:Hinv; simpl.
  - destruct (decide (id = j)) as [<-|Hne].
    + by rewrite lookup_insert_eq, lookup_alter_eq, Hinv.
    + by rewrite lookup_insert_ne, lookup_alter_ne by done.
  - destruct (decide (id = j)) as [<-|Hne]; [by rewrite lookup_alter_eq, Hinv|].
    by rewrite lookup_alter_ne by done.
Qed.

Lemma call_return_other id status d :
  invocations (call_return id status d) = invocations d ∧ draining (call_return id status d) = draining d ∧
  reaper (call_return id status d) = reaper d ∧ drainer (call_return id status d) = drainer d ∧
  heap (call_return id status d) = heap d.
Proof. unfold call_return. by case_match. Qed.

Lemma call_return_components id status d :
  map_Forall (λ _, lease_inv) (components d) →
  map_Forall (λ _, lease_inv) (components (call_return id status d)).
Proof.
  intros Hall. unfold call_return. case_match; [|done]. simpl. intros c component Hc.
  apply lookup_alter_Some in Hc as [(<- & component0 & Hc & ->)|[_ Hc]].
  - apply lease_destroy_inv. by eapply Hall.
  - by eapply Hall.
Qed.

(** The call returns with a status its operation justifies; the other calls keep
    their leases. *)
Lemma call_return_ok id status d :
  (∀ id', id' ≠ id → call_ok d id') →
  (∀ inv, calls d !! id = Some inv → status_meaning status (inv_flight inv)) →
  ∀ id', call_ok (call_return id status d) id'.
Proof.
  intros Hothers Hmeaning id'. destruct (decide (id' = id)) as [-> |Hne].
  - intros inv. rewrite call_return_calls, lookup_alter_eq.
    intros (inv0 & Hinv & ->)%fmap_Some_1. simpl. by apply Hmeaning.
  - eapply call_ok_ext; [| |by apply Hothers].
    + by rewrite call_return_calls, lookup_alter_ne by done.
    + intros c. apply lease_holds_other. intros component Hc. unfold call_return.
      destruct (calls d !! id) as [inv|]; [|eauto]. simpl.
      destruct (decide (inv_component inv = c)) as [-> |Hc'].
      * rewrite lookup_alter_eq, Hc. simpl. eexists. split; [done|]. by apply lease_destroy_other.
      * rewrite lookup_alter_ne by done. eauto.
Qed.

Lemma retained_set queue (all : gmap nat Invocation) id inv :
  retained_ok queue all → id ∉ queue → is_pending inv = false → retained_ok queue (<[id := inv]> all).
Proof.
  intros [Hnd Hp] Hid Hpc. split; [done|]. intros id'. destruct (decide (id = id')) as [<-|Hne].
  - split; [done|]. rewrite lookup_insert_eq. intros (? & ? & ?). simplify_eq. congruence.
  - by rewrite lookup_insert_ne.
Qed.

Lemma retained_alter queue (all : gmap nat Invocation) id f :
  retained_ok queue all → (∀ inv, all !! id = Some inv → is_pending (f inv) = is_pending inv) →
  retained_ok queue (alter f id all).
Proof.
  intros [Hnd Hp] Hf. split; [done|]. intros id'. rewrite Hp. destruct (decide (id = id')) as [<-|Hne].
  - rewrite lookup_alter_eq. split.
    + intros (inv & Hinv & ?). exists (f inv). rewrite Hinv. split; [done|]. by rewrite Hf.
    + intros (inv & (inv0 & Hinv & ->)%fmap_Some_1 & ?). exists inv0. rewrite Hf in * by done. done.
  - by rewrite lookup_alter_ne.
Qed.

Lemma retained_push queue (all : gmap nat Invocation) id inv :
  retained_ok queue all → id ∉ queue → is_pending inv = true →
  retained_ok (queue ++ [id]) (<[id := inv]> all).
Proof.
  intros [Hnd Hp] Hid Hpc. split.
  - apply NoDup_app. split_and!; [done| |apply NoDup_singleton]. intros x Hx ->%list_elem_of_singleton. done.
  - intros id'. rewrite elem_of_app, list_elem_of_singleton. destruct (decide (id' = id)) as [-> |Hne].
    + rewrite lookup_insert_eq. split; eauto.
    + rewrite lookup_insert_ne, Hp by done. split; [|by left]. by intros [?|?].
Qed.

(** *** Lemmas: reaping *)

Lemma foldl_return_calls l d id :
  calls (foldl (λ d id, call_return id BadTimeout d) d l) !! id =
  if decide (id ∈ l) then set_pc (inv_returned BadTimeout) <$> calls d !! id else calls d !! id.
Proof.
  revert d. induction l as [|x l IH]; intros d; cbn [foldl].
  - destruct (decide (id ∈ [])) as [Hin|]; [by apply elem_of_nil in Hin|done].
  - rewrite IH, call_return_calls. destruct (decide (x = id)) as [-> |Hne].
    + rewrite lookup_alter_eq. destruct (decide (id ∈ id :: l)) as [_|Hout]; [|set_solver].
      case_decide; [|done]. by destruct (calls d !! id).
    + rewrite lookup_alter_ne by done.
      destruct (decide (id ∈ l)), (decide (id ∈ x :: l)); set_solver.
Qed.

Lemma foldl_return_other l d :
  let d' := foldl (λ d id, call_return id BadTimeout d) d l in
  invocations d' = invocations d ∧ draining d' = draining d ∧ reaper d' = reaper d ∧
  drainer d' = drainer d ∧ heap d' = heap d.
Proof.
  revert d. induction l as [|x l IH]; intros d; simpl; [done|].
  destruct (IH (call_return x BadTimeout d)) as (-> & -> & -> & -> & ->). apply call_return_other.
Qed.

Lemma foldl_return_ok l d :
  map_Forall (λ _, lease_inv) (components d) → (∀ id, call_ok d id) →
  (∀ id, id ∈ l → collectIfDone d id = true) →
  let d' := foldl (λ d id, call_return id BadTimeout d) d l in
  map_Forall (λ _, lease_inv) (components d') ∧ ∀ id, call_ok d' id.
Proof.
  revert d. induction l as [|x l IH]; intros d Hcomp Hok Hdone; simpl; [done|].
  apply IH.
  - by apply call_return_components.
  - apply call_return_ok; [auto|]. intros inv Hinv.
    specialize (Hdone x (list_elem_of_here _ _)). unfold collectIfDone in Hdone. rewrite Hinv in Hdone.
    simpl. destruct (inv_flight inv) as [[result|]|]; try done. eauto.
  - intros id Hid. specialize (Hdone id (list_elem_of_further _ _ _ Hid)).
    unfold collectIfDone in *. rewrite call_return_calls. destruct (decide (x = id)) as [-> |Hne].
    + rewrite lookup_alter_eq. by destruct (calls d !! id).
    + by rewrite lookup_alter_ne.
Qed.

Lemma reapOnce_inv d :
  map_Forall (λ _, lease_inv) (components d) → (∀ id, call_ok d id) → retained_ok (invocations d) (calls d) →
  let d' := reapOnce d in
  map_Forall (λ _, lease_inv) (components d') ∧ (∀ id, call_ok d' id) ∧
  retained_ok (invocations d') (calls d') ∧
  invocations d' = filter (λ id, collectIfDone d id = false) (invocations d) ∧
  draining d' = draining d ∧ reaper d' = reaper d ∧ drainer d' = drainer d.
Proof.
  intros Hcomp Hok [Hnd Hp] d'. unfold d', reapOnce.
  set (d0 := set_calls _ _ _ (filter _ _) d). set (l := filter _ (invocations d)).
  destruct (foldl_return_other l d0) as (Hq & Hdr & Hre & Hdn & _).
  destruct (foldl_return_ok l d0) as [Hcomp' Hok'].
  { done. }
  { intros id. eapply call_ok_ext; [| |apply Hok]; [done|]. intros c. by apply lease_holds_components. }
  { by intros id [? ?]%list_elem_of_filter. }
  split_and!; [done..| |by rewrite Hq|by rewrite Hdr|by rewrite Hre|by rewrite Hdn].
  rewrite Hq. simpl. split; [by apply NoDup_filter|]. intros id.
  rewrite foldl_return_calls, list_elem_of_filter. unfold l. simpl. rewrite Hp. split.
  - intros [Hdone (inv & Hinv & Hpend)]. exists inv. split; [|done].
    rewrite decide_False; [done|]. rewrite list_elem_of_filter. intros [? _]. congruence.
  - destruct (decide (id ∈ filter _ _)) as [Hin|Hout].
    + intros (inv & (inv0 & _ & ->)%fmap_Some_1 & ?). done.
    + rewrite list_elem_of_filter, Hp in Hout. intros (inv & Hinv & Hpend). split; [|eauto].
      destruct (collectIfDone d id) eqn:Hdone; [|done]. destruct Hout. eauto.
Qed.

(** *** Lemmas: the invariant *)

(** The call [id], which is not retained, is replaced and returns. *)
Lemma call_return_inv id status inv cs h d :
  dispatcher_inv d → id ∉ invocations d → is_pending inv = false →
  map_Forall (λ _, lease_inv) cs →
  (∀ id' c, id' ≠ id → is_Some (calls d !! id') → lease_holds d id' c →
     lease_holds (set_calls h cs (calls d) (invocations d) d) id' c) →
  status_meaning status (inv_flight inv) →
  dispatcher_inv (call_return id status (set_calls h cs (<[id := inv]> (calls d)) (invocations d) d)).
Proof.
  intros [Hcomp Hok Hret ????] Hid Hpend Hcs Hothers Hmeaning.
  set (d1 := set_calls h cs _ _ d).
  destruct (call_return_other id status d1) as (Hq & Hdr & Hre & Hdn & _).
  split; rewrite ?Hq, ?Hdr, ?Hre, ?Hdn; try done.
  - by apply call_return_components.
  - apply call_return_ok.
    + intros id' Hne inv' Hinv'. unfold d1 in Hinv'. simpl in Hinv'. rewrite lookup_insert_ne in Hinv' by done.
      specialize (Hok id' inv' Hinv').
      assert (Hl : lease_holds d id' (inv_component inv') → lease_holds d1 id' (inv_component inv')).
      { intros Hl. apply (Hothers id' (inv_component inv')) in Hl; [|done|eauto].
        by eapply lease_holds_components; [|exact Hl]. }
      destruct (inv_pc inv'); try done; destruct Hok; auto.
    + intros inv' Hinv'. unfold d1 in Hinv'. simpl in Hinv'. rewrite lookup_insert_eq in Hinv'. by simplify_eq.
  - rewrite call_return_calls. apply retained_alter.
    + by apply retained_set.
    + unfold d1. simpl. intros inv'. rewrite lookup_insert_eq. intros ?. by simplify_eq.
Qed.

Lemma not_retained d id :
  retained_ok (invocations d) (calls d) →
  (∀ inv, calls d !! id = Some inv → is_pending inv = false) → id ∉ invocations d.
Proof. intros [_ Hp] Hpend (inv & Hinv & Hpending)%Hp. apply Hpend in Hinv. congruence. Qed.

Lemma call_begin_inv id c operation inputs outputs d d' :
  dispatcher_inv d →
  call_begin type_getTypeName type_registry timeout id c operation inputs outputs d = Some d' →
  dispatcher_inv d'.
Proof.
  intros Hinv Hbegin. pose proof Hinv as [Hcomp Hok Hret Hre Hdr Hjo Hdone].
  unfold call_begin in Hbegin.
  destruct (calls d !! id) eqn:Hfresh; [done|]. destruct (components d !! c) as [component|] eqn:Hc; [|done].
  case_bool_decide as Hfree; [|done]. case_bool_decide as Hbound; [|done]. simpl in Hbegin.
  destruct (lease_construct id component) as [component' lease] eqn:Hcons.
  destruct (lease_construct_spec id component component' lease) as (Hcinv & Hleases & Hstate); try done.
  { by eapply Hcomp. }
  assert (Hid : id ∉ invocations d).
  { apply not_retained; [done|]. intros inv. by rewrite Hfresh. }
  assert (Hcs : map_Forall (λ _, lease_inv) (<[c := component']> (components d))).
  { by apply map_Forall_insert_2. }
  assert (Hothers : ∀ h id' c', id' ≠ id → is_Some (calls d !! id') → lease_holds d id' c' →
    lease_holds (set_calls h (<[c := component']> (components d)) (calls d) (invocations d) d) id' c').
  { intros h id' c' Hne _. apply lease_holds_other. intros component0 Hc0. simpl.
    destruct (decide (c = c')) as [<-|Hcc].
    - rewrite lookup_insert_eq. exists component'. split; [done|]. simplify_eq. by rewrite Hleases, lookup_insert_ne.
    - rewrite lookup_insert_ne by done. eauto. }
  destruct (ComponentLease_bool lease) eqn:Hlease; cbn [negb] in Hbegin.
  2: { injection Hbegin as <-. apply (call_return_inv id BadNotConnected _ _ _ d Hinv); try done. apply Hothers. }
  pose proof (invoke_start_ok operation inputs (length outputs) (heap d)) as Hstarted.
  destruct (invoke_start _ _ _ operation inputs (length outputs) (heap d)) as [h started]. simpl in Hstarted.
  unfold started_ok in Hstarted. destruct (outcome started) as [status|values]; injection Hbegin as <-.
  - apply (call_return_inv id status _ _ _ d Hinv); try done. apply Hothers.
  - rewrite Hstarted. split; simpl; try done.
    + intros id' inv' Hinv'. simpl in Hinv'. destruct (decide (id = id')) as [<-|Hne].
      * rewrite lookup_insert_eq in Hinv'. simplify_eq. simpl. split; [eauto|].
        exists component', lease. simpl. rewrite Hleases, !lookup_insert_eq. auto.
      * rewrite lookup_insert_ne in Hinv' by done. specialize (Hok id' inv' Hinv').
        assert (Hl : ∀ c', lease_holds d id' c' → lease_holds (set_calls h (<[c := component']> (components d))
          (<[id := {| inv_component := c; inv_pc := inv_polling; inv_values := values; inv_outputs := outputs;
             inv_flight := Some None |}]> (calls d)) (invocations d) d) id' c').
        { intros c' Hl. apply (Hothers h id' c') in Hl; [|done|eauto].
          by eapply lease_holds_components; [|exact Hl]. }
        destruct (inv_pc inv'); try done; destruct Hok; auto.
    + by apply retained_set.
Qed.

(** A change of one call that keeps its state of return and the queue in step. *)
Lemma set_call_inv id inv inv' queue h d :
  dispatcher_inv d → calls d !! id = Some inv →
  (match inv_pc inv' with
   | inv_returned status => status_meaning status (inv_flight inv')
   | _ => is_Some (inv_flight inv') ∧ lease_holds d id (inv_component inv')
   end) →
  retained_ok queue (<[id := inv']> (calls d)) → (draining d = true → queue = invocations d) →
  dispatcher_inv (set_calls h (components d) (<[id := inv']> (calls d)) queue d).
Proof.
  intros [Hcomp Hok Hret Hre Hdr Hjo Hdone] Hinv Hnew Hqueue Hdrain. split; simpl; try done.
  - intros id' inv0 Hinv0. simpl in Hinv0. destruct (decide (id = id')) as [<-|Hne].
    + rewrite lookup_insert_eq in Hinv0. by simplify_eq.
    + rewrite lookup_insert_ne in Hinv0 by done. by apply Hok.
  - intros Hreturned. rewrite Hdrain by (apply Hdr; by rewrite Hreturned). auto.
Qed.

Lemma lease_holds_same h d id c :
  lease_holds d id c → ∀ all, lease_holds (set_calls h (components d) all (invocations d) d) id c.
Proof. intros Hl all. by eapply lease_holds_components; [|exact Hl]. Qed.

Lemma call_poll_inv id expired d d' :
  dispatcher_inv d → call_poll type_registry id expired d = Some d' → dispatcher_inv d'.
Proof.
  intros Hinv Hpoll. unfold call_poll in Hpoll.
  destruct (calls d !! id) as [inv|] eqn:Hcall; [|done].
  destruct (inv_pc inv) eqn:Hpc; try done.
  destruct (inv_flight inv) as [[result|]|] eqn:Hflight; try done.
  - pose proof (invoke_collect_ok result (inv_values inv) (inv_outputs inv) (heap d)) as Hstatus.
    destruct (invoke_collect type_registry result (inv_values inv) (inv_outputs inv) (heap d)) as [h [status outputs]].
    injection Hpoll as <-. apply (call_return_inv id status _ _ _ d Hinv).
    + apply not_retained; [apply Hinv|]. intros inv' ?. simplify_eq. unfold is_pending. by rewrite Hpc.
    + unfold is_pending, set_outputs. simpl. by rewrite Hpc.
    + apply Hinv.
    + intros id' c _ _ Hl. by apply lease_holds_same.
    + simpl. by rewrite Hflight.
  - injection Hpoll as <-. destruct expired; [|done].
    pose proof (di_calls _ Hinv id inv Hcall) as Hok. rewrite Hpc in Hok.
    assert (Hid : id ∉ invocations d).
    { apply not_retained; [apply Hinv|]. intros inv' ?. simplify_eq. unfold is_pending. by rewrite Hpc. }
    unfold retainPending. destruct (draining d) eqn:Hdrain; apply (set_call_inv id inv); try done.
    + apply retained_set; [apply Hinv|done|done].
    + apply retained_push; [apply Hinv|done|done].
    + congruence.
Qed.

Lemma call_waited_inv id d d' :
  dispatcher_inv d → call_waited id d = Some d' → dispatcher_inv d'.
Proof.
  intros Hinv Hwaited. unfold call_waited in Hwaited.
  destruct (calls d !! id) as [inv|] eqn:Hcall; [|done].
  destruct (inv_pc inv) eqn:Hpc; try done. destruct (collectIfDone d id) eqn:Hdone; [|done].
  injection Hwaited as <-.
  assert (Hsame : d = set_calls (heap d) (components d) (<[id := inv]> (calls d)) (invocations d) d).
  { rewrite insert_id by done. by destruct d. }
  rewrite Hsame. apply (call_return_inv id BadTimeout _ _ _ d Hinv).
  - apply not_retained; [apply Hinv|]. intros inv' ?. simplify_eq. unfold is_pending. by rewrite Hpc.
  - unfold is_pending. by rewrite Hpc.
  - apply Hinv.
  - intros id' c _ _ Hl. by apply lease_holds_same.
  - unfold collectIfDone in Hdone. rewrite Hcall in Hdone. simpl.
    destruct (inv_flight inv) as [[result|]|]; try done. eauto.
Qed.

Lemma call_complete_inv id result d d' :
  dispatcher_inv d → call_complete id result d = Some d' → dispatcher_inv d'.
Proof.
  intros Hinv Hcomplete. unfold call_complete in Hcomplete.
  destruct (calls d !! id) as [inv|] eqn:Hcall; [|done].
  destruct (inv_flight inv) as [[?|]|] eqn:Hflight; try done. injection Hcomplete as <-.
  pose proof (di_calls _ Hinv id inv Hcall) as Hok. apply (set_call_inv id inv); try done.
  - simpl. destruct (inv_pc inv) as [| | |status]; try by (split; [eauto|]; apply Hok).
    rewrite Hflight in Hok. by destruct status; simpl in *; try done; eauto; naive_solver.
  - assert (Halter : <[id := set_flight (Some (Some result)) inv]> (calls d) =
      alter (set_flight (Some (Some result))) id (calls d)).
    { apply map_eq. intros j. destruct (decide (id = j)) as [<-|Hne].
      - by rewrite lookup_insert_eq, lookup_alter_eq, Hcall.
      - by rewrite lookup_insert_ne, lookup_alter_ne by done. }
    rewrite Halter. apply retained_alter; [apply Hinv|done].
Qed.

(** Reaping, with the drain state it leaves. *)
Lemma reap_inv d stop alive pc :
  dispatcher_inv d → stop = draining d → alive = reaper d →
  (drainer d = drain_none → pc = drain_none) → (pc = drain_reaping → alive = false) →
  (pc = drain_returned → invocations (reapOnce d) = []) →
  dispatcher_inv (set_threads stop alive pc (reapOnce d)).
Proof.
  intros [Hcomp Hok Hret Hre Hdr Hjo Hdone] -> -> Hnone Hreaping Hempty.
  destruct (reapOnce_inv d Hcomp Hok Hret) as (Hcomp' & Hok' & Hret' & _).
  split; simpl; try done.
  intros Hpc. apply Hdr. intros Heq. by apply Hpc, Hnone.
Qed.

Lemma set_threads_same d : set_threads (draining d) (reaper d) (drainer d) d = d.
Proof. by destruct d. Qed.

Lemma dispatcher_act_inv a d d' : dispatcher_inv d → dispatcher_act a d = Some d' → dispatcher_inv d'.
Proof.
  intros Hinv. destruct a; simpl.
  - by apply call_begin_inv.
  - by apply call_complete_inv.
  - by apply call_poll_inv.
  - by apply call_waited_inv.
  - unfold reaper_round. destruct (reaper d) eqn:Hre, (draining d) eqn:Hdr; try done. intros [= <-].
    destruct (reapOnce_inv d) as (_ & _ & _ & Hq & Hd & Hr & Hn); [apply Hinv..|].
    rewrite <-(set_threads_same (reapOnce d)). apply reap_inv; try done.
    + by rewrite Hn.
    + rewrite Hn. intros Hj. rewrite Hr. by apply Hinv.
    + rewrite Hn. intros Hj. by rewrite Hq, (di_drained _ Hinv Hj).
  - unfold reaper_exit. destruct (reaper d) eqn:Hre, (draining d) eqn:Hdr; try done. intros [= <-].
    by destruct Hinv.
  - unfold drain_begin. intros Hd. destruct Hinv. by destruct (drainer d) eqn:Hpc; simplify_eq; split.
  - unfold drain_joined. intros Hd. destruct Hinv. destruct (drainer d) eqn:Hpc; try done.
    destruct (reaper d) eqn:Hre; [done|]. simplify_eq. split; simpl; try done. intros _. by apply di_reaper0.
  - unfold drain_round. intros Hd. destruct (drainer d) eqn:Hpc; try done. injection Hd as <-.
    destruct (reapOnce_inv d) as (_ & _ & _ & _ & Hdr & Hr & _); [apply Hinv..|].
    rewrite Hdr, Hr. apply reap_inv; try done.
    + by rewrite Hpc.
    + intros _. by apply (di_joined _ Hinv).
    + case_bool_decide; done.
Qed.

Lemma dispatcher_step_inv d d' : dispatcher_inv d → dispatcher_step d d' → dispatcher_inv d'.
Proof.
  intros Hinv Hstep. destruct Hstep as [a d d' Hact|c component component' d Hc Hlease Hkeep].
  - by eapply dispatcher_act_inv.
  - destruct Hinv as [Hcomp Hok Hret ????]. split; simpl; try done.
    + apply map_Forall_insert_2; [|done]. eapply lease_step_inv; [|done]. by eapply Hcomp.
    + intros id inv Hinv. simpl in Hinv. specialize (Hok id inv Hinv).
      assert (Hl : ∀ c', lease_holds d id c' →
        lease_holds (set_calls (heap d) (<[c := component']> (components d)) (calls d) (invocations d) d) id c').
      { intros c'. apply lease_holds_other. intros component0 Hc0. simpl.
        destruct (decide (c = c')) as [<-|Hcc].
        - rewrite lookup_insert_eq. exists component'. split; [done|]. simplify_eq. apply Hkeep. eauto.
        - rewrite lookup_insert_ne by done. eauto. }
      destruct (inv_pc inv); try done; destruct Hok; auto.
Qed.

Lemma dispatcher_reachable_inv d : dispatcher_reachable d → dispatcher_inv d.
Proof.
  intros (h & cs & Hcs & Hsteps).
  assert (Hinit : dispatcher_inv (initial_dispatcher (DS := DS) (Variant := Variant) h cs)).
  { split; simpl; try done.
    - intros c component Hc. apply lease_reachable_inv. by eapply Hcs.
    - split; [constructor|]. intros id. simpl. split; [intros Hin; by apply elem_of_nil in Hin|].
      intros (? & Hl & _). by rewrite lookup_empty in Hl. }
  revert Hinit. induction Hsteps; [done|]. intros Hinit. eauto using dispatcher_step_inv.
Qed.

Lemma filter_none_done d l :
  (∀ id, id ∈ l → collectIfDone d id = true) → filter (λ id, collectIfDone d id = false) l = [].
Proof.
  intros Hall. apply elem_of_nil_inv. intros id [Hfalse Hin]%list_elem_of_filter.
  rewrite Hall in Hfalse by done. done.
Qed.

(** A component without users can be dropped whatever the calls do. *)
Lemma drop_component d c state leases waiting :
  components d !! c = Some {| w_state := state; w_leases := leases; w_waiting := waiting |} →
  deactivate_condition state = true →
  ∃ d' component', rtc dispatcher_step d d' ∧ calls d' = calls d ∧ components d' !! c = Some component' ∧
    ComponentState.component (w_state component') = None.
Proof.
  intros Hc Hidle.
  set (c1 := {| w_state := deactivate_begin state; w_leases := leases; w_waiting := S waiting |}).
  set (c2 := {| w_state := deactivate_end (deactivate_begin state); w_leases := leases; w_waiting := waiting |}).
  set (d1 := set_calls (heap d) (<[c := c1]> (components d)) (calls d) (invocations d) d).
  set (d2 := set_calls (heap d1) (<[c := c2]> (components d1)) (calls d1) (invocations d1) d1).
  exists d2, c2. split_and!; [|done|by unfold d2; simpl; rewrite lookup_insert_eq|done].
  apply rtc_l with d1.
  - eapply step_component; [exact Hc|apply step_deactivate_begin|done].
  - apply rtc_once. eapply step_component; [apply lookup_insert_eq|by apply step_deactivate_end|done].
Qed.

(** *** Lemmas: schemas *)

Notation codecFor := (codecFor (DS := DS) type_registry).
Notation value_codecs := (value_codecs type_registry).
Notation describeInputs := (describeInputs type_getTypeName type_registry).
Notation describeOutputs := (describeOutputs type_getTypeName type_registry).

Lemma valueCodec_inr type info codec :
  valueCodec type_getTypeName type_registry type = inr (info, codec) ↔
  type = Some info ∧ codecFor (Some info) = Some codec ∧ hasValue codec = true.
Proof.
  unfold valueCodec. destruct type as [info'|]; [|naive_solver].
  destruct (codecFor (Some info')) as [codec'|] eqn:Hcodec; [|naive_solver].
  destruct (hasValue codec') eqn:Hvalue; (split; [intros|intros (? & ? & ?)]); simplify_eq; auto; congruence.
Qed.

Lemma describeInputs_done operation arguments count index schema text ins :
  value_codecs (op_getArgumentType operation) (seq index count) ins →
  ∃ schema' text', describeInputs operation arguments count index schema text = inr (inr (schema', text')) ∧
    schema_inputs schema' = schema_inputs schema ++ zip_with (input_argument arguments) (seq index count) ins ∧
    schema_outputs schema' = schema_outputs schema ∧ output_sources schema' = output_sources schema ∧
    input_type_names schema' = input_type_names schema ++ (type_getTypeName <$> ins.*1) ∧
    output_type_names schema' = output_type_names schema.
Proof.
  revert index schema text ins. induction count as [|count IH]; intros index schema text ins Hins.
  - exists schema, text. apply Forall2_nil_inv_l in Hins as ->. simpl. by rewrite !app_nil_r.
  - simpl in Hins. apply Forall2_cons_inv_l in Hins as ([info codec] & ins' & (Htype & Hcodec & Hvalue) & Hins & ->).
    simpl in *. rewrite Htype.
    rewrite (proj2 (valueCodec_inr (Some info) info codec)) by done.
    destruct (IH (S index) (add_input type_getTypeName (argumentName arguments index)
        (argumentDescription arguments index) info codec schema)
      (text +:+ fingerprint_entry type_getTypeName "|in:" (argumentName arguments index)
        (argumentDescription arguments index) info) ins' Hins)
      as (schema' & text' & Hrec & Hin & Hout & Hsrc & Hinn & Houtn).
    exists schema', text'. split; [exact Hrec|]. rewrite Hin, Hout, Hsrc, Hinn, Houtn. simpl.
    by rewrite <-!app_assoc.
Qed.

Lemma describeInputs_inv operation arguments count index schema text schema' text' :
  describeInputs operation arguments count index schema text = inr (inr (schema', text')) →
  ∃ ins, value_codecs (op_getArgumentType operation) (seq index count) ins.
Proof.
  revert index schema text. induction count as [|count IH]; intros index schema text; simpl.
  - intros _. exists []. constructor.
  - destruct (op_getArgumentType operation (index + 1)) as [|type] eqn:Htype; [done|].
    destruct (valueCodec type_getTypeName type_registry type) as [|[info codec]] eqn:Hvc; [done|].
    intros [ins Hins]%IH. apply valueCodec_inr in Hvc as (-> & Hcodec & Hvalue).
    exists ((info, codec) :: ins). by constructor.
Qed.

(** The sources the outputs from [index] on can still take. *)
Definition sources_from (has_return_value : bool) (index : nat) (mutable : list nat) : list Z :=
  (if bool_decide (index = 0) && has_return_value then [(-1)%Z] else []) ++ (Z.of_nat <$> mutable).

Lemma describeOutputs_done operation arguments ret count index mutable schema text outs :
  value_codecs (op_getCollectType operation) (seq index count) outs →
  count ≤ length (sources_from ret index mutable) →
  ∃ schema' text', describeOutputs operation arguments ret count index mutable schema text =
      inr (inr (schema', text')) ∧
    schema_inputs schema' = schema_inputs schema ∧
    schema_outputs schema' = schema_outputs schema ++
      zip_with (output_argument operation arguments) (take count (sources_from ret index mutable)) outs ∧
    output_sources schema' = output_sources schema ++ take count (sources_from ret index mutable) ∧
    input_type_names schema' = input_type_names schema ∧
    output_type_names schema' = output_type_names schema ++ (type_getTypeName <$> outs.*1).
Proof.
  revert index mutable schema text outs.
  induction count as [|count IH]; intros index mutable schema text outs Houts Hlen.
  - exists schema, text. apply Forall2_nil_inv_l in Houts as ->. simpl. by rewrite !app_nil_r.
  - simpl in Houts. apply Forall2_cons_inv_l in Houts as ([info codec] & outs' & (Htype & Hcodec & Hvalue) & Houts & ->).
    simpl in Htype, Hcodec, Hvalue. simpl. rewrite Htype.
    rewrite (proj2 (valueCodec_inr (Some info) info codec)) by done.
    assert (Hnext : ∀ mutable', sources_from ret (S index) mutable' = Z.of_nat <$> mutable') by done.
    destruct (bool_decide (index = 0) && ret) eqn:Hfirst.
    + assert (Hcur : sources_from ret index mutable = (-1)%Z :: (Z.of_nat <$> mutable)).
      { unfold sources_from. by rewrite Hfirst. }
      rewrite Hcur in *. destruct (IH (S index) mutable
          (add_output type_getTypeName "result" (op_description operation) (-1) info codec schema)
          (text +:+ fingerprint_entry type_getTypeName "|out:" "result" (op_description operation) info) outs' Houts)
        as (schema' & text' & Hrec & Hin & Hout & Hsrc & Hinn & Houtn).
      { rewrite Hnext. cbn [length] in Hlen. rewrite ?length_fmap in *. simpl in Hlen. lia. }
      rewrite Hnext in *. exists schema', text'. split; [exact Hrec|].
      rewrite Hin, Hout, Hsrc, Hinn, Houtn. simpl. by rewrite <-!app_assoc.
    + assert (Hcur : sources_from ret index mutable = Z.of_nat <$> mutable).
      { unfold sources_from. by rewrite Hfirst. }
      rewrite Hcur in *. destruct mutable as [|argument mutable]; [simpl in Hlen; lia|].
      destruct (IH (S index) mutable
          (add_output type_getTypeName (argumentName arguments argument) (argumentDescription arguments argument)
             (Z.of_nat argument) info codec schema)
          (text +:+ fingerprint_entry type_getTypeName "|out:" (argumentName arguments argument)
             (argumentDescription arguments argument) info) outs' Houts)
        as (schema' & text' & Hrec & Hin & Hout & Hsrc & Hinn & Houtn).
      { rewrite Hnext. cbn [length] in Hlen. rewrite ?length_fmap in *. simpl in Hlen. lia. }
      rewrite Hnext in *. exists schema', text'. split; [exact Hrec|].
      rewrite Hin, Hout, Hsrc, Hinn, Houtn. simpl.
      rewrite <-!app_assoc. split_and!; try done. unfold output_argument at 2.
      rewrite (proj2 (Z.eqb_neq (Z.of_nat argument) (-1))) by lia. by rewrite Nat2Z.id.
Qed.

Lemma valueCodec_unsupported type schema :
  valueCodec type_getTypeName type_registry type = inl schema → supported schema = false.
Proof.
  unfold valueCodec. destruct type as [info|]; [|intros [= <-]; by destruct (codecFor None)].
  destruct (codecFor (Some info)) as [codec|]; [destruct (hasValue codec)|]; by intros [= <-].
Qed.

Lemma describeInputs_unsupported operation arguments count index schema text unsupported :
  describeInputs operation arguments count index schema text = inr (inl unsupported) →
  supported unsupported = false.
Proof.
  revert index schema text. induction count as [|count IH]; intros index schema text; simpl; [done|].
  destruct (op_getArgumentType operation (index + 1)) as [|type]; [done|].
  destruct (valueCodec type_getTypeName type_registry type) as [|[info codec]] eqn:Hvc.
  - intros [= <-]. by eapply valueCodec_unsupported.
  - by intros ?%IH.
Qed.

Lemma describeReturn_unsupported operation unsupported :
  describeReturn type_getTypeName type_registry operation = inr (inl unsupported) →
  supported unsupported = false.
Proof.
  unfold describeReturn. destruct (op_getArgumentType operation 0) as [|[info|]]; [done| |].
  - destruct (codecFor (Some info)) as [codec|]; [|by intros [= <-]].
    destruct (negb (hasValue codec) && _); [by intros [= <-]|done].
  - by intros [= <-].
Qed.

Lemma describeOutputs_unsupported operation arguments ret count index mutable schema text unsupported :
  describeOutputs operation arguments ret count index mutable schema text = inr (inl unsupported) →
  supported unsupported = false.
Proof.
  revert index mutable schema text. induction count as [|count IH]; intros index mutable schema text; simpl; [done|].
  destruct (op_getCollectType operation (index + 1)) as [|type]; [done|].
  destruct (valueCodec type_getTypeName type_registry type) as [|[info codec]] eqn:Hvc.
  - intros [= <-]. by eapply valueCodec_unsupported.
  - destruct (bool_decide (index = 0) && ret); [by intros ?%IH|].
    destruct mutable; [by intros [= <-]|by intros ?%IH].
Qed.

Lemma describeOutputs_inv operation arguments ret count index mutable schema text schema' text' :
  describeOutputs operation arguments ret count index mutable schema text = inr (inr (schema', text')) →
  ∃ outs, value_codecs (op_getCollectType operation) (seq index count) outs ∧
    count ≤ length (sources_from ret index mutable).
Proof.
  revert index mutable schema text. induction count as [|count IH]; intros index mutable schema text; simpl.
  - intros _. exists []. split; [constructor|lia].
  - destruct (op_getCollectType operation (index + 1)) as [|type] eqn:Htype; [done|].
    destruct (valueCodec type_getTypeName type_registry type) as [|[info codec]] eqn:Hvc; [done|].
    apply valueCodec_inr in Hvc as (-> & Hcodec & Hvalue). unfold sources_from.
    destruct (bool_decide (index = 0) && ret).
    + intros (outs & Houts & Hlen)%IH. exists ((info, codec) :: outs). split; [by constructor|].
      unfold sources_from in Hlen. rewrite ?length_app, ?length_fmap in *. simpl in *. lia.
    + destruct mutable as [|argument mutable]; [done|]. intros (outs & Houts & Hlen)%IH.
      exists ((info, codec) :: outs). split; [by constructor|]. unfold sources_from in Hlen. rewrite ?length_app, ?length_fmap in *. simpl in *. lia.
Qed.

Lemma describeReturn_spec operation ret :
  describeReturn type_getTypeName type_registry operation = inr (inr ret) ↔
  ∃ return_type codec, op_getArgumentType operation 0 = inr (Some return_type) ∧
    codecFor (Some return_type) = Some codec ∧ hasValue codec = ret ∧
    (ret = false → type_getTypeName return_type = "Void").
Proof.
  unfold describeReturn.
  destruct (op_getArgumentType operation 0) as [|[info|]];
    [split; [done|by intros (? & ? & ? & _)]| |split; [done|by intros (? & ? & ? & _)]].
  destruct (codecFor (Some info)) as [codec|] eqn:Hcodec.
  2: { split; [done|]. intros (? & ? & [= <-] & ? & _). congruence. }
  destruct (hasValue codec) eqn:Hvalue; simpl.
  - split; [intros [= <-]; by exists info, codec|].
    intros (info' & codec' & [= <-] & Hcodec' & <- & _). simplify_eq. by rewrite Hvalue.
  - destruct (String.eqb_spec (type_getTypeName info) "Void") as [Hvoid|Hvoid]; simpl.
    + split; [intros [= <-]; by exists info, codec|].
      intros (info' & codec' & [= <-] & Hcodec' & <- & _). simplify_eq. by rewrite Hvalue.
    + split; [done|]. intros (info' & codec' & [= <-] & Hcodec' & <- & Hv). simplify_eq. by apply Hv in Hvalue.
Qed.

(** ** Properties *)

(** C5: as long as an operation that was started runs, the component it belongs
    to is not dropped, also when its call has timed out: the lease is held.  The
    exceptions are the calls that failed after the operation was sent. *)
Theorem lease_covers_operation d id inv (Hreach : dispatcher_reachable d)
    (Hcall : calls d !! id = Some inv) (Hruns : inv_flight inv = Some None) :
  (∃ component, components d !! inv_component inv = Some component ∧
     is_Some (ComponentState.component (w_state component)) ∧
     deactivate_condition (w_state component) = false) ∨
  ∃ status, inv_pc inv = inv_returned status ∧
    status ∈ [BadInternalError; BadNotSupported; BadUnexpectedError].
Proof.
  apply dispatcher_reachable_inv in Hreach. pose proof (di_calls _ Hreach id inv Hcall) as Hok.
  assert (Hheld : lease_holds d id (inv_component inv) → ∃ component,
    components d !! inv_component inv = Some component ∧
    is_Some (ComponentState.component (w_state component)) ∧
    deactivate_condition (w_state component) = false).
  { intros (component & lease & Hc & Hlease & Hstate). exists component. split; [done|].
    pose proof (di_components _ Hreach _ _ Hc) as Hinv. simpl in Hinv.
    pose proof (li_held _ Hinv id lease Hlease) as Hkeeps. rewrite Hstate in Hkeeps. destruct Hkeeps as [Hsome <-].
    split; [done|]. unfold deactivate_condition. rewrite (li_users _ Hinv), (held_delete _ id lease), Hstate by done.
    apply N.eqb_neq. lia. }
  destruct (inv_pc inv) as [| | |status] eqn:Hpc; [left; apply Hheld, Hok..|right].
  exists status. split; [done|]. rewrite Hruns in Hok. destruct status; simpl in Hok; try done; set_solver.
Qed.

(** C12: what the status of a call means: [Good] that the operation ran and
    succeeded, [BadResourceUnavailable] that it failed, the refusals that it was
    not started, and after [BadTimeout] the lease is only given back when the
    operation has ended. *)
Theorem invoke_status d id inv status (Hreach : dispatcher_reachable d)
    (Hcall : calls d !! id = Some inv) (Hreturned : inv_pc inv = inv_returned status) :
  status_meaning status (inv_flight inv).
Proof.
  apply dispatcher_reachable_inv in Hreach. pose proof (di_calls _ Hreach id inv Hcall) as Hok.
  by rewrite Hreturned in Hok.
Qed.

(** C34: once [drain] has returned no invocation is retained, now or later; and
    [drain] can return as soon as the retained operations have ended. *)
Theorem drain_completes d (Hreach : dispatcher_reachable d) :
  (drainer d = drain_returned → ∀ id inv, calls d !! id = Some inv → is_pending inv = false) ∧
  (drainer d = drain_joining ∨ drainer d = drain_reaping →
   (∀ id, id ∈ invocations d → collectIfDone d id = true) →
   ∃ l d', dispatcher_acts type_getTypeName type_registry timeout l d = Some d' ∧
     drainer d' = drain_returned ∧
     ∀ id, id ∈ invocations d → calls d' !! id = set_pc (inv_returned BadTimeout) <$> calls d !! id).
Proof.
  apply dispatcher_reachable_inv in Hreach. pose proof Hreach as [Hcomp Hok Hret Hre Hdr Hjo Hdone]. split.
  - intros Hreturned id inv Hcall. destruct (is_pending inv) eqn:Hpend; [|done]. exfalso.
    assert (Hin : id ∈ invocations d) by (apply (ro_pending _ _ Hret); eauto).
    rewrite Hdone in Hin by done. by apply elem_of_nil in Hin.
  - intros Hdrain Hended.
    assert (Hround : ∀ d0, invocations d0 = invocations d → calls d0 = calls d → drainer d0 = drain_reaping →
      ∃ d', drain_round d0 = Some d' ∧ drainer d' = drain_returned ∧
        ∀ id, id ∈ invocations d → calls d' !! id = set_pc (inv_returned BadTimeout) <$> calls d !! id).
    { intros d0 Hq Hcalls Hpc. unfold drain_round. rewrite Hpc. eexists. split; [done|].
      assert (Hall : ∀ id, id ∈ invocations d → collectIfDone d0 id = true).
      { intros id Hid. unfold collectIfDone. rewrite Hcalls. by apply Hended. }
      unfold reapOnce. split.
      - simpl. rewrite bool_decide_eq_true_2; [done|].
        rewrite (proj1 (foldl_return_other _ _)). simpl. rewrite Hq. by apply filter_none_done.
      - intros id Hid. simpl. rewrite foldl_return_calls. simpl. rewrite Hcalls.
        rewrite decide_True; [done|]. rewrite list_elem_of_filter, Hq. auto. }
    assert (Hlast : drainer d = drain_reaping → ∃ d', drain_round d = Some d' ∧ drainer d' = drain_returned ∧
        ∀ id, id ∈ invocations d → calls d' !! id = set_pc (inv_returned BadTimeout) <$> calls d !! id) by auto.
    destruct Hdrain as [Hpc|Hpc].
    + destruct (reaper d) eqn:Halive.
      * destruct (Hround (set_threads (draining d) false drain_reaping (set_threads true false drain_joining d)))
          as (d' & Hd' & ? & ?); [done..|].
        exists [act_reaper_exit; act_drain_joined; act_drain_round], d'. split; [|done]. simpl.
        unfold reaper_exit. rewrite Halive, Hdr by (by rewrite Hpc). simpl. unfold drain_joined. simpl.
        rewrite Hpc. simpl. rewrite Hdr in Hd' by (by rewrite Hpc). exact Hd'.
      * destruct (Hround (set_threads (draining d) false drain_reaping d)) as (d' & Hd' & ? & ?); [done..|].
        exists [act_drain_joined; act_drain_round], d'. split; [|done]. simpl.
        unfold drain_joined. rewrite Hpc, Halive. exact Hd'.
    + destruct (Hlast Hpc) as (d' & Hd' & ? & ?). exists [act_drain_round], d'. simpl. by rewrite Hd'.
Qed.

(** C35: a call that fails after the operation was sent, because the results
    cannot be collected, gives its lease back at once: the component can be
    dropped while the operation runs. *)
Theorem send_failure_drops_lease d id c component operation inputs outputs d' h status
    (Hreach : dispatcher_reachable d) (Hc : components d !! c = Some component)
    (Hactive : isActive true (w_state component) = true)
    (Hidle : deactivate_condition (w_state component) = true)
    (Hbegin : dispatcher_act (act_call id c operation inputs outputs) d = Some d')
    (Hstart : invoke_start type_getTypeName type_registry timeout operation inputs (length outputs) (heap d) =
      (h, {| launched := true; outcome := inl status |})) :
  ∃ d'' inv component'', rtc dispatcher_step d' d'' ∧ calls d'' !! id = Some inv ∧
    inv_flight inv = Some None ∧ inv_pc inv = inv_returned status ∧
    components d'' !! c = Some component'' ∧ ComponentState.component (w_state component'') = None.
Proof.
  apply dispatcher_reachable_inv in Hreach. simpl in Hbegin. unfold call_begin in Hbegin.
  destruct (calls d !! id) eqn:Hfresh; [done|]. rewrite Hc in Hbegin.
  case_bool_decide as Hfree; [|done]. case_bool_decide as Hbound; [|done]. simpl in Hbegin.
  destruct component as [state leases waiting]. simpl in *.
  unfold isActive in Hactive. simpl in Hactive. split_guards.
  unfold lease_construct in Hbegin. simpl in Hbegin. unfold ComponentLease_acquire in Hbegin. simpl in Hbegin.
  rename select (is_Some _) into Hsome. destruct Hsome as [component Hcomponent].
  rename select (admission_closed _ = _) into Hopen. rename select (is_active _ = _) into Hact.
  rewrite Hopen, Hact, Hcomponent in Hbegin. simpl in Hbegin. rewrite Hstart in Hbegin. simpl in Hbegin.
  injection Hbegin as <-.
  match goal with |- ∃ d'' _ _, rtc _ (call_return id status ?d0) _ ∧ _ => set (d1 := d0) end.
  destruct (drop_component (call_return id status d1) c (set_users state (users state)) leases waiting)
    as (d'' & component'' & Hsteps & Hcalls & Hc'' & Hnone).
  - unfold call_return, d1. simpl. rewrite lookup_insert_eq. simpl.
    rewrite lookup_alter_eq, lookup_insert_eq. simpl. f_equal. unfold lease_destroy. simpl.
    rewrite lookup_insert_eq. simpl. f_equal; [|by apply delete_insert_id].
    unfold ComponentLease_release. simpl. unfold set_users. simpl. f_equal.
    apply N.eqb_eq in Hidle. by rewrite Hidle.
  - done.
  - eexists d'', _, component''. split_and!; [exact Hsteps| | | |done|done].
    + rewrite Hcalls, call_return_calls, lookup_alter_eq. unfold d1. simpl. by rewrite lookup_insert_eq.
    + done.
    + done.
Qed.

(** The schema of an operation that can be described. *)
Lemma describe_done operation arguments ins ret outs :
  describable type_getTypeName type_registry operation arguments ins ret outs →
  let schema := describe type_getTypeName type_registry operation in
  supported schema = true ∧
  schema_inputs schema = zip_with (input_argument arguments) (seq 0 (op_arity operation)) ins ∧
  output_sources schema = take (op_collectArity operation) (expected_sources arguments ret) ∧
  schema_outputs schema = zip_with (output_argument operation arguments) (output_sources schema) outs ∧
  input_type_names schema = type_getTypeName <$> ins.*1 ∧
  output_type_names schema = type_getTypeName <$> outs.*1.
Proof.
  intros [Hargs Hins Hret Houts Hsources]. unfold describe, describe_body. rewrite Hargs.
  destruct (describeInputs_done operation arguments _ 0 (empty_schema (NodeId := NodeId))
    (op_address operation +:+ "|" +:+ op_description operation) ins Hins)
    as (schema & text & -> & Hin & Hout & Hsrc & Hinn & Houtn).
  apply describeReturn_spec in Hret as ->.
  destruct (describeOutputs_done operation arguments ret (op_collectArity operation) 0
    (mutableArguments arguments) schema text outs Houts) as (schema' & text' & -> & Hin' & Hout' & Hsrc' & Hinn' & Houtn').
  { unfold sources_from. rewrite length_app, length_fmap. by destruct ret. }
  simpl. rewrite Hin', Hout', Hsrc', Hinn', Houtn', Hin, Hout, Hsrc, Hinn, Houtn. simpl.
  unfold sources_from, expected_sources. by destruct ret.
Qed.

(** [describe] supports exactly the operations whose arguments and results
    all have value codecs and whose outputs are the result and the first
    arguments of mutable reference type; the schema then lists them in order. *)
Theorem describe_supported operation :
  (supported (describe type_getTypeName type_registry operation) = true →
   ∃ arguments ins ret outs, describable type_getTypeName type_registry operation arguments ins ret outs) ∧
  ∀ arguments ins ret outs, describable type_getTypeName type_registry operation arguments ins ret outs →
    let schema := describe type_getTypeName type_registry operation in
    supported schema = true ∧
    schema_inputs schema = zip_with (input_argument arguments) (seq 0 (op_arity operation)) ins ∧
    output_sources schema = take (op_collectArity operation) (expected_sources arguments ret) ∧
    schema_outputs schema = zip_with (output_argument operation arguments) (output_sources schema) outs.
Proof.
  split.
  - unfold describe, describe_body. destruct (op_getArgumentList operation) as [|arguments] eqn:Hargs; [done|].
    destruct (describeInputs _ _ _ _ _ _) as [|[unsupported|[schema text]]] eqn:Hin; [done| |].
    { intros Hs. apply describeInputs_unsupported in Hin. congruence. }
    destruct (describeReturn _ _ _) as [|[unsupported|ret]] eqn:Hret; [done| |].
    { intros Hs. apply describeReturn_unsupported in Hret. congruence. }
    destruct (describeOutputs _ _ _ _ _ _ _ _) as [|[unsupported|[schema' text']]] eqn:Hout; [done| |].
    { intros Hs. apply describeOutputs_unsupported in Hout. congruence. }
    intros _. apply describeInputs_inv in Hin as [ins Hins]. apply describeReturn_spec in Hret.
    apply describeOutputs_inv in Hout as (outs & Houts & Hlen). exists arguments, ins, ret, outs.
    split; try done. unfold sources_from in Hlen. rewrite length_app, length_fmap in Hlen.
    rewrite bool_decide_eq_true_2 in Hlen by done. by destruct ret.
  - intros arguments ins ret outs Hdescribable.
    destruct (describe_done _ _ _ _ _ Hdescribable) as (? & ? & ? & ? & _). by split_and!.
Qed.
End dispatcher_facts.

(** ** Witnesses *)

Notation sample_reachable :=
  (dispatcher_reachable (TaskContext := nat) (Caller := unit) (Handle := unit) (λ type : string, type)
     (Some number_registry) 100).

Lemma sample_run_reachable l : sample_runs l = true → sample_reachable (sample_dispatcher l).
Proof.
  intros Hruns. exists 0, {[0 := initial_world 7 "component" false]}. split.
  - apply map_Forall_singleton. by exists 7, "component", false.
  - unfold sample_runs, sample_dispatcher in *. destruct (sample_acts l sample_start) as [d|] eqn:Hl; [|done].
    clear Hruns. simpl. unfold sample_acts in Hl. fold sample_start. revert Hl. generalize sample_start.
    induction l as [|a l IH]; intros d0; simpl; [intros [= <-]; constructor|].
    destruct (dispatcher_act _ _ _ a d0) as [d1|] eqn:Ha; [|done]. intros Hl.
    eapply rtc_l; [by eapply step_dispatcher|by apply IH].
Qed.

Lemma lease_covers_operation_witness :
  (∃ component, components (sample_dispatcher sample_timeout) !! 0 = Some component ∧
     is_Some (ComponentState.component (w_state component)) ∧
     deactivate_condition (w_state component) = false) ∨
  ∃ status, inv_pending = inv_returned status ∧ status ∈ [BadInternalError; BadNotSupported; BadUnexpectedError].
Proof.
  refine (lease_covers_operation (λ type : string, type) (Some number_registry) 100
    (sample_dispatcher sample_timeout) 5 sample_running _ _ _).
  - apply sample_run_reachable. by vm_compute.
  - by vm_compute.
  - done.
Defined.

Lemma invoke_status_witness : status_meaning Good (Some (Some flight_success)).
Proof.
  refine (invoke_status (λ type : string, type) (Some number_registry) 100
    (sample_dispatcher sample_success) 5 sample_finished Good _ _ _).
  - apply sample_run_reachable. by vm_compute.
  - by vm_compute.
  - done.
Defined.

Lemma drain_completes_witness :
  ∃ l d', sample_acts l (sample_dispatcher sample_draining) = Some d' ∧
    drainer d' = drain_returned ∧
    ∀ id, id ∈ invocations (sample_dispatcher sample_draining) →
      calls d' !! id = set_pc (inv_returned BadTimeout) <$> calls (sample_dispatcher sample_draining) !! id.
Proof.
  refine (proj2 (drain_completes (λ type : string, type) (Some number_registry) 100
    (sample_dispatcher sample_draining) _) _ _).
  - apply sample_run_reachable. by vm_compute.
  - left. by vm_compute.
  - intros id Hid. assert (invocations (sample_dispatcher sample_draining) = [5]) as Hq by by vm_compute.
    rewrite Hq in Hid. apply list_elem_of_singleton in Hid as ->. by vm_compute.
Defined.

(** The result cannot be built, and the component is dropped. *)
Lemma send_failure_drops_lease_witness :
  ∃ d'' inv component'', rtc (dispatcher_step (TaskContext := nat) (Caller := unit) (Handle := unit)
      (λ type : string, type) (Some number_registry) 100) (sample_dispatcher sample_opaque) d'' ∧
    calls d'' !! 5 = Some inv ∧ inv_flight inv = Some None ∧ inv_pc inv = inv_returned BadNotSupported ∧
    components d'' !! 0 = Some component'' ∧ ComponentState.component (w_state component'') = None.
Proof.
  refine (send_failure_drops_lease (λ type : string, type) (Some number_registry) 100
    sample_start 5 0 sample_component (sample_operation "int" "Opaque" 1) [3] [0] _ 1 BadNotSupported _ _ _ _ _ _).
  - apply (sample_run_reachable []). by vm_compute.
  - by vm_compute.
  - by vm_compute.
  - by vm_compute.
  - by vm_compute.
  - by vm_compute.
Defined.

Lemma describe_supported_witness :
  supported (describe (λ type : string, type) (Some number_registry) (sample_operation "int &" "Int32" 2)) = true ∧
  output_sources (describe (λ type : string, type) (Some number_registry) (sample_operation "int &" "Int32" 2)) =
    [-1; 0]%Z.
Proof.
  set (entry := ("Int32", number_codec)).
  assert (describable (λ type : string, type) (Some number_registry) (sample_operation "int &" "Int32" 2)
    [{| ad_name := ""; ad_description := "the number"; ad_type := "int &" |}] [entry] true [entry; entry]) as Hd.
  { split; [done| | | |].
    - constructor; [|constructor]. by vm_compute.
    - exists "Int32", number_codec. by vm_compute.
    - constructor; [|constructor; [|constructor]]; by vm_compute.
    - vm_compute. lia. }
  destruct (proj2 (describe_supported (λ type : string, type) (Some number_registry)
    (sample_operation "int &" "Int32" 2)) _ _ _ _ Hd) as (Hs & _ & Hsrc & _).
  split; [exact Hs|]. etransitivity; [exact Hsrc|]. by vm_compute.
Defined.
