(* ===== verification/ServerSetup.v ===== *)
(** The set-up of the native server at the start of [Server::Impl::run]
    (src/src/server.cpp): its configuration, the namespace table and the type
    registry of the endpoint. *)

From S2P Require Import Prelude NodeId Native Concrete DataTypeRegistry ServerOptions TypeProtocol.
From S2P Require Import EndpointTypeRegistry Server.

(** [opcua::ServerConfig] as far as it is set; [logger] is whether the silent
    logger is installed. *)
Record ServerConfig := {
  config_port : N;
  logger : bool;
  applicationName : string;
  applicationUri : string;
  productUri : string;
  serverUrls : list string;
}.

(** The native server: [opcua::Server(config)], [registerNamespace],
    [namespaceArray], [config().addCustomDataTypes] and [runIterate]. *)
Class NativeServers (NS DataType : Type) := {
  ns_create : ServerConfig → exn + NS;
  registerNamespace : string → NS → NS * N;
  namespaceArray : NS → exn + list string;
  addCustomDataTypes : list DataType → NS → NS;
  ns_runIterate : NS → exn + NS;
}.

(** [registerNamespace] appends a URI that the table lacks and returns its
    index; the table of a new server can be read. *)
Class NativeServerLaws (NS DataType : Type) `{NativeServers NS DataType} := {
  ns_create_table config server : ns_create config = inr server → ∃ table, namespaceArray server = inr table;
  registerNamespace_table uri server table : namespaceArray server = inr table →
    ∃ table', namespaceArray (registerNamespace uri server).1 = inr table' ∧ table `prefix_of` table' ∧
      table' !! N.to_nat (registerNamespace uri server).2 = Some uri;
}.

(** [setServerUrl]; [array_allocated] and [url_allocated] tell whether the two
    allocations succeed. *)
Definition setServerUrl (array_allocated url_allocated : bool) (config : ServerConfig) (url : string) :
    ServerConfig * (exn + unit) :=
  let set urls :=
    {| config_port := config_port config; logger := logger config; applicationName := applicationName config;
       applicationUri := applicationUri config; productUri := productUri config; serverUrls := urls |} in
  if negb array_allocated then (set [], inl (std_exception "std::bad_alloc"))
  else if negb url_allocated && negb (str_empty url) then (set [], inl (std_exception "std::bad_alloc"))
  else (set [url], inr tt).

(** [namespaceTable] of the array the server returns. *)
Definition namespaceTable (namespace_array : list string) : exn + list (string * N) :=
  if (65536 <? N.of_nat (length namespace_array))%N
  then inl (std_exception "OPC UA server namespace table is too large")
  else inr (imap (λ index uri, (uri, N.of_nat index)) namespace_array).

Section setup.
Context {W DS Port Variant NodeId UA_DataType DataType TypeInfo R NS StatusCode : Type}.
Context `{EqDecision TypeInfo} `{!Countable TypeInfo}.
Context `{NodeIds NodeId} `{DataTypes NodeId UA_DataType DataType} `{StatusCodes StatusCode}.
Context `{DataTypeServices NS NodeId StatusCode} `{NativeServers NS DataType}.
Notation TypeCodec := (TypeCodec W DS Port Variant NodeId UA_DataType).
Notation TypeProtocol := (TypeProtocol W DS Port Variant NodeId UA_DataType).
Notation RegistryState := (RegistryState UA_DataType DataType).
Notation EndpointTypeRegistry := (EndpointTypeRegistry UA_DataType DataType TypeInfo TypeCodec).
Context `{TypeInfos TypeInfo R TypeProtocol}.

Definition server_config (options : ServerOptions) : ServerConfig :=
  {| config_port := port options; logger := true; applicationName := application_name options;
     applicationUri := "urn:orocos:rtt:server"; productUri := "urn:orocos:rtt"; serverUrls := [] |}.

Definition registerNamespaces (uris : list string) (server : NS) : NS :=
  foldl (λ server uri, (registerNamespace uri server).1) server uris.

(** [runtime_error(registry_error)]. *)
Definition registry_failure (registry_error : option string) : exn :=
  std_exception (default "" registry_error).

(** From the endpoint's registry to the first iteration. *)
Definition publish_registry (registry : EndpointTypeRegistry) (registry_error : option string) (server : NS) :
    exn + (NS * EndpointTypeRegistry) :=
  let server := if bool_decide (customDataTypes registry = []) then server
                else addCustomDataTypes (customDataTypes registry) server in
  let '(server, published, registry_error) := publishDataTypeNodes registry server registry_error in
  if negb published then inl (registry_failure registry_error)
  else match ns_runIterate server with
       | inl e => inl e
       | inr server => inr (server, registry)
       end.

(** From the frozen providers on: their namespaces, and the registry. *)
Definition setup_registry (r : R) (state : RegistryState) (server : NS) :
    RegistryState * (exn + (NS * EndpointTypeRegistry)) :=
  match frozenDataTypeProviders state (Some "") with
  | (state, inl e, _) => (state, inl e)
  | (state, inr None, registry_error) => (state, inl (registry_failure registry_error))
  | (state, inr (Some providers), registry_error) =>
      let provider_uris := unique_adj (merge_sort String.le (provider_namespace_uri <$> providers)) in
      let server := registerNamespaces provider_uris server in
      match namespaceArray server with
      | inl e => (state, inl e)
      | inr namespace_array =>
          match namespaceTable namespace_array with
          | inl e => (state, inl e)
          | inr namespaces =>
              match create r state namespaces registry_error with
              | (state, inl e, _) => (state, inl e)
              | (state, inr None, registry_error) => (state, inl (registry_failure registry_error))
              | (state, inr (Some registry), registry_error) =>
                  (state, publish_registry registry registry_error server)
              end
          end
      end
  end.

(** The whole set-up: the [initialize] of the server thread. *)
Definition setup (array_allocated url_allocated : bool) (r : R) (state : RegistryState)
    (options : ServerOptions) : RegistryState * (exn + (NS * N * EndpointTypeRegistry)) :=
  match setServerUrl array_allocated url_allocated (server_config options) (endpointUrl options) with
  | (_, inl e) => (state, inl e)
  | (config, inr _) =>
      match ns_create config with
      | inl e => (state, inl e)
      | inr server =>
          let '(server, registered) := registerNamespace kNamespaceUri server in
          let server := registerNamespaces (additional_namespace_uris options) server in
          match setup_registry r state server with
          | (state, inl e) => (state, inl e)
          | (state, inr (server, registry)) => (state, inr (server, registered, registry))
          end
      end
  end.

(** What the server thread of Server.v is started with, when memory lasts. *)
Definition initialize (r : R) (state : RegistryState) (options : ServerOptions) :
    exn + (NS * N * EndpointTypeRegistry) := (setup true true r state options).2.
End setup.

(** ** A concrete native server

    Its namespace table and the requests and data types it was given. *)
Definition table_server : Type := list string * list (DataTypeRequest c_NodeId).

#[global] Instance table_services : DataTypeServices table_server c_NodeId bool := {
  data_type_service request server := ((server.1, server.2 ++ [request]), true);
}.

#[global] Instance table_servers : NativeServers table_server c_DataType := {
  ns_create config := inr ([namespace_zero; applicationUri config], []);
  registerNamespace uri server :=
    match list_find (λ uri', uri' = uri) server.1 with
    | Some (index, _) => (server, N.of_nat index)
    | None => ((server.1 ++ [uri], server.2), N.of_nat (length server.1))
    end;
  namespaceArray server := inr server.1;
  addCustomDataTypes _ server := server;
  ns_runIterate server := inr server;
}.

Definition sample_options : ServerOptions :=
  {| bind_address := "127.0.0.1"; port := 4840; endpoint_path := "/rtt"; application_name := "example";
     additional_namespace_uris := ["urn:more"] |}.

Definition sample_setup :
    RegistryState c_NodeId c_DataType *
    (exn + (table_server * N * EndpointTypeRegistry c_NodeId c_DataType string
                                 (TypeCodec unit unit unit unit c_NodeId c_NodeId))) :=
  setup true true (sample_types false) sample_state sample_options.

Definition sample_outcome := default (([], []), 0%N, sample_registry false)
  (match sample_setup.2 with inr outcome => Some outcome | inl _ => None end).

(** ** Lemmas *)

#[global] Instance table_server_laws : NativeServerLaws table_server c_DataType.
Proof.
  split; [by intros ? ? [= <-]; eexists|]. intros uri [table requests] table' [= <-]. simpl.
  destruct (list_find (λ uri', uri' = uri) table) as [[index uri']|] eqn:Hfind; simpl.
  - exists table. split_and!; [done|done|]. apply list_find_Some in Hfind as (Hl & -> & _). by rewrite Nat2N.id.
  - exists (table ++ [uri]). split_and!; [done|by apply prefix_app_r|]. rewrite Nat2N.id.
    by rewrite lookup_app_r, Nat.sub_diag by lia.
Qed.

Section setup_facts.
Context {W DS Port Variant NodeId UA_DataType DataType TypeInfo R NS StatusCode : Type}.
Context `{EqDecision TypeInfo} `{!Countable TypeInfo}.
Context `{NodeIds NodeId} `{DataTypes NodeId UA_DataType DataType} `{StatusCodes StatusCode}.
Context `{DataTypeServices NS NodeId StatusCode} `{NativeServers NS DataType} `{!NativeServerLaws NS DataType}.
Notation TypeCodec := (TypeCodec W DS Port Variant NodeId UA_DataType).
Notation TypeProtocol := (TypeProtocol W DS Port Variant NodeId UA_DataType).
Notation RegistryState := (RegistryState UA_DataType DataType).
Notation EndpointTypeRegistry := (EndpointTypeRegistry UA_DataType DataType TypeInfo TypeCodec).
Context `{TypeInfos TypeInfo R TypeProtocol}.

(** Registering keeps the table and adds what is asked for. *)
Lemma registerNamespaces_table uris (server : NS) table :
  namespaceArray server = inr table →
  ∃ table', namespaceArray (registerNamespaces uris server) = inr table' ∧ table `prefix_of` table' ∧
    ∀ uri, uri ∈ uris → uri ∈ table'.
Proof.
  revert server table. induction uris as [|uri uris IH]; intros server table Htable; simpl.
  - exists table. split_and!; [done..|]. intros uri Hin. by apply elem_of_nil in Hin.
  - destruct (registerNamespace_table uri server table Htable) as (table1 & Htable1 & Hp1 & Hat).
    destruct (IH _ table1 Htable1) as (table' & Htable' & Hp & Hall). exists table'.
    split_and!; [done|by transitivity table1|]. intros uri' [-> |Hin]%elem_of_cons; [|by apply Hall].
    apply list_elem_of_lookup_2 in Hat. destruct Hp as [rest ->]. set_solver.
Qed.

Lemma namespaceTable_elem array namespaces index uri :
  namespaceTable array = inr namespaces → array !! index = Some uri →
  (uri, N.of_nat index) ∈ namespaces ∧ (N.of_nat index < 65536)%N.
Proof.
  unfold namespaceTable. destruct (N.ltb_spec 65536 (N.of_nat (length array))) as [|Hlen]; [done|].
  intros [= <-] Hl. split.
  - apply list_elem_of_lookup. exists index. rewrite list_lookup_imap, Hl. done.
  - apply lookup_lt_Some in Hl. lia.
Qed.

(** What [setup_registry] binds. *)
Lemma setup_registry_bound (r : R) (state : RegistryState) server state' server' registry table :
  registry_wf state → namespaceArray server = inr table →
  setup_registry r state server = (state', inr (server', registry)) →
  (∀ index uri, table !! index = Some uri →
     endpoint_namespaceIndex registry uri = Some (N.of_nat index) ∧ (N.of_nat index < 65536)%N) ∧
  (∀ name provider, providers state' !! name = Some provider →
     is_Some (endpoint_namespaceIndex registry (provider_namespace_uri provider))).
Proof.
  intros Hwf Htable. unfold setup_registry.
  destruct (frozenDataTypeProviders_cases state (Some "") Hwf)
    as [(e & _ & ->)|(order & found & Hfreeze & -> & Hnames & Hin & Hperm & Htop)]; [done|].
  set (uris := unique_adj _). set (state1 := {| providers := providers state; provider_order := order; frozen := true |}).
  destruct (registerNamespaces_table uris server table Htable) as (array & -> & Hprefix & Hall).
  destruct (namespaceTable array) as [|namespaces] eqn:Hns; [done|].
  destruct (create r state1 namespaces _) as [[state2 [|[registry2|]]] e] eqn:Hcreate; try done.
  unfold publish_registry. intros Hpublish.
  assert (state2 = state' ∧ registry2 = registry) as [-> ->].
  { destruct (publishDataTypeNodes _ _ _) as [[server2 [|]] e2]; simpl in Hpublish; [|by simplify_eq].
    destruct (ns_runIterate server2); by simplify_eq. }
  assert (Hwf1 : registry_wf state1).
  { apply (registry_wf_freeze state (Some "")) in Hwf. by rewrite Hfreeze in Hwf. }
  destruct (create_bound r state1 namespaces _ state' registry e Hwf1 Hcreate)
    as (bound & found' & registry1 & Hbound & Hbd & Htypes & _ & _ & _ & _ & _ & _ & ->).
  apply bindTypes_keeps in Htypes as (Hnames' & _). apply bindNamespaces_bound in Hbound as (_ & Hbound & _).
  assert (Hindex : ∀ index uri, array !! index = Some uri →
    endpoint_namespaceIndex registry uri = Some (N.of_nat index) ∧ (N.of_nat index < 65536)%N).
  { intros index uri Hl. destruct (namespaceTable_elem array namespaces index uri Hns Hl) as [Hin' Hlt].
    split; [|done]. unfold endpoint_namespaceIndex. rewrite Hnames', (bd_namespaces _ _ _ Hbd). by apply Hbound. }
  split.
  - intros index uri Hl. apply Hindex. by eapply prefix_lookup_Some.
  - simpl. intros name provider Hp.
    assert (Huri : provider_namespace_uri provider ∈ array).
    { apply Hall. unfold uris. rewrite elem_of_unique_adj, merge_sort_Permutation. apply list_elem_of_fmap.
      exists provider. split; [done|].
      assert (Hname : name ∈ provider_name <$> found).
      { rewrite Hnames, Hperm. apply elem_of_elements, elem_of_dom. eauto. }
      apply list_elem_of_fmap in Hname as (provider' & -> & Hfound). apply Hin in Hfound as Hp'. by simplify_eq. }
    apply list_elem_of_lookup in Huri as [index Hl]. destruct (Hindex index _ Hl) as [-> _]. eauto.
Qed.

(** ** Properties *)

(** When the set-up succeeds, the endpoint's registry knows the library's
    namespace under the index the server publishes, which fits 16 bits, and
    every additional namespace of the options and every provider's namespace. *)
Theorem setup_namespaces array_allocated url_allocated (r : R) (state : RegistryState) options state' server
    index registry (Hreach : registry_reachable state)
    (Hsetup : setup array_allocated url_allocated r state options = (state', inr (server, index, registry))) :
  endpoint_namespaceIndex registry kNamespaceUri = Some index ∧ (index < 65536)%N ∧
  (∀ uri, uri ∈ additional_namespace_uris options → is_Some (endpoint_namespaceIndex registry uri)) ∧
  (∀ name provider, providers state' !! name = Some provider →
     is_Some (endpoint_namespaceIndex registry (provider_namespace_uri provider))).
Proof.
  apply registry_wf_reachable in Hreach. unfold setup in Hsetup.
  destruct (setServerUrl _ _ _ _) as [config [|]]; [done|].
  destruct (ns_create config) as [|server0] eqn:Hserver; [done|].
  destruct (ns_create_table config server0 Hserver) as [table0 Htable0].
  destruct (registerNamespace_table kNamespaceUri server0 table0 Htable0) as (table1 & Htable1 & _ & Hat).
  destruct (registerNamespace kNamespaceUri server0) as [server1 registered]. simpl in Htable1, Hat.
  destruct (registerNamespaces_table (additional_namespace_uris options) server1 table1 Htable1)
    as (table2 & Htable2 & Hprefix & Hall).
  destruct (setup_registry r state _) as [state2 [|[server2 registry2]]] eqn:Hregistry; [done|]. simplify_eq.
  destruct (setup_registry_bound _ _ _ _ _ _ _ Hreach Htable2 Hregistry) as [Hindex Hproviders].
  destruct (Hindex (N.to_nat index) kNamespaceUri) as [Hk Hlt]; [by eapply prefix_lookup_Some|].
  rewrite N2Nat.id in Hk, Hlt. split_and!; [done..| |done].
  intros uri Hin. apply Hall in Hin as [i Hi]%list_elem_of_lookup. destruct (Hindex i uri Hi) as [-> _]. eauto.
Qed.
End setup_facts.

(** ** Witnesses *)

Lemma sample_setup_ok :
  sample_setup = (sample_setup.1, inr (sample_outcome.1.1, sample_outcome.1.2, sample_outcome.2)).
Proof.
  assert (Hok : match sample_setup.2 with inr _ => true | inl _ => false end = true) by (vm_compute; reflexivity).
  unfold sample_outcome. destruct sample_setup as [state [|[[server index] registry]]]; [done|reflexivity].
Qed.

Lemma setup_namespaces_witness :
  endpoint_namespaceIndex sample_outcome.2 kNamespaceUri = Some sample_outcome.1.2 ∧
  (sample_outcome.1.2 < 65536)%N ∧
  (∀ uri, uri ∈ additional_namespace_uris sample_options → is_Some (endpoint_namespaceIndex sample_outcome.2 uri)) ∧
  (∀ name provider, providers sample_setup.1 !! name = Some provider →
     is_Some (endpoint_namespaceIndex sample_outcome.2 (provider_namespace_uri provider))).
Proof.
  refine (setup_namespaces true true (sample_types false) sample_state sample_options sample_setup.1
    sample_outcome.1.1 sample_outcome.1.2 sample_outcome.2 _ _).
  - exact sample_state_reachable.
  - exact sample_setup_ok.
Defined.
