(* ===== verification/PortDataSources.v ===== *)
(** The variables of the address space: the port bridge (src/src/port_bridge.cpp
    and .hpp) and the native data sources of properties, attributes and ports
    (the three DataSource classes of src/src/object_model.cpp). *)

From S2P Require Import Prelude Native Concrete DataTypeRegistry TypeProtocol EndpointTypeRegistry ComponentState.

(** ** What RTT and open62541pp provide *)

Inductive WriteStatus := WriteSuccess | WriteFailure | NotConnected.

(** Ports: [antiClone], the two dynamic casts, [getTypeInfo],
    [output.createConnection(input, policy)], [disconnect], [write] of a data
    source, and the destruction of a port. *)
Class RttPorts (W DS Port TypeInfo : Type) := {
  antiClone : Port → IO W (option Port);
  is_OutputPort : Port → bool;
  is_InputPort : Port → bool;
  port_typeInfo : Port → option TypeInfo;
  createConnection : Port → Port → option ConnPolicy → IO W bool;
  disconnect : Port → IO W unit;
  port_write : Port → DS → IO W WriteStatus;
  destroyPort : Port → W → W;
  data_policy : ConnPolicy; (* [ConnPolicy::data(LOCK_FREE, false)] *)
}.

Inductive VariableStatus :=
  | vs_Good | vs_BadNotConnected | vs_BadTypeMismatch | vs_BadResourceUnavailable | vs_BadUnexpectedError
  | vs_BadIndexRangeInvalid | vs_BadNotWritable | vs_BadWaitingForInitialData.

#[global] Instance VariableStatus_eq_dec : EqDecision VariableStatus.
Proof. solve_decision. Defined.

(** [opcua::DataValue]: [setValue] and [setStatus]. *)
Record DataValue (Variant : Type) := {
  dv_value : option Variant;
  dv_status : option VariableStatus;
}.
Arguments dv_value {_} _.
Arguments dv_status {_} _.
Definition empty_value {Variant} : DataValue Variant := {| dv_value := None; dv_status := None |}.
Definition setValue {Variant} (v : Variant) (value : DataValue Variant) : DataValue Variant :=
  {| dv_value := Some v; dv_status := dv_status value |}.
Definition setStatus {Variant} (status : VariableStatus) (value : DataValue Variant) : DataValue Variant :=
  {| dv_value := dv_value value; dv_status := Some status |}.

Section variables.
Context {W DS Port Variant NodeId UA_DataType DataType TypeInfo TaskContext : Type}.
Context `{EqDecision TypeInfo} `{!Countable TypeInfo} `{RttPorts W DS Port TypeInfo}.
Notation TypeCodec := (TypeCodec W DS Port Variant NodeId UA_DataType).
Notation EndpointTypeRegistry := (EndpointTypeRegistry UA_DataType DataType TypeInfo TypeCodec).
Notation ComponentState := (ComponentState TaskContext).
(** [opcua::Variant encoded]. *)
Context (empty_variant : Variant).

(** ** The bridge *)

Record PortBridge := {
  type_registry : option EndpointTypeRegistry;
  peer : option Port;
}.

(** The codec of a type, through a registry that is set. *)
Definition bridge_codec (registry : EndpointTypeRegistry) (type : option TypeInfo) : option TypeCodec :=
  match type with
  | Some type => match codecForTypeInfo registry type with
                 | Some codec => deref_codec registry codec
                 | None => None
                 end
  | None => None
  end.

(** [~PortBridge]. *)
Definition PortBridge_destroy (bridge : PortBridge) : W → W := λ w,
  match peer bridge with
  | None => w
  | Some port => destroyPort port (disconnect port w).1
  end.

Definition create (port : Port) (registry : option EndpointTypeRegistry) (error : option string) :
    IO W (option PortBridge * option string) :=
  match registry with
  | Some types =>
      if bool_decide (is_Some (port_typeInfo port)) &&
         bool_decide (is_Some (bridge_codec types (port_typeInfo port)))
      then
        anti ← antiClone port;
        match anti with
        | None => mret (None, assignError error "failed to create an RTT anti-port")
        | Some anti =>
            connected ← (if is_OutputPort anti then createConnection anti port None else mret false);
            if negb connected then
              io_modify (destroyPort anti);;
              mret (None, assignError error "failed to connect the RTT OPC UA anti-port")
            else mret (Some {| type_registry := registry; peer := Some anti |}, clearError error)
        end
      else mret (None, assignError error "OPC UA port type is not transportable")
  | None => mret (None, assignError error "OPC UA port type is not transportable")
  end.

Definition observe (port : Port) (error : option string) : IO W (option PortBridge * option string) :=
  anti ← antiClone port;
  match anti with
  | None => mret (None, assignError error "failed to create an RTT anti-port")
  | Some anti =>
      connected ← (if is_InputPort anti then createConnection port anti (Some data_policy) else mret false);
      if negb connected then
        io_modify (destroyPort anti);;
        mret (None, assignError error "failed to connect the RTT OPC UA anti-port")
      else mret (Some {| type_registry := None; peer := Some anti |}, clearError error)
  end.

(** [write], noexcept; a bridge made by [observe] has no registry, and following
    its null pointer is undefined. *)
Definition bridge_write (bridge : PortBridge) (encoded : Variant) (w : W) : W * VariableStatus :=
  match peer bridge with
  | Some output =>
      if negb (is_OutputPort output) || bool_decide (port_typeInfo output = None) then (w, vs_BadNotConnected)
      else
        match type_registry bridge with
        | None => (w, vs_BadUnexpectedError)
        | Some registry =>
            match (value ← match bridge_codec registry (port_typeInfo output) with
                           | None => mret None
                           | Some codec => makeDataSource codec encoded
                           end;
                   match value with
                   | None => mret vs_BadTypeMismatch
                   | Some value =>
                       status ← port_write output value;
                       mret match status with
                            | WriteSuccess => vs_Good
                            | NotConnected => vs_BadNotConnected
                            | WriteFailure => vs_BadResourceUnavailable
                            end
                   end : IO W VariableStatus) w with
            | (w, inl _) => (w, vs_BadUnexpectedError)
            | (w, inr status) => (w, status)
            end
        end
  | None => (w, vs_BadNotConnected)
  end.

(** ** Leases of one call

    [ComponentLease lease(state)] until the end of the call; [state] is what the
    weak pointer yields.  [body] runs when the lease is valid. *)
Definition with_lease {A} (state : option ComponentState) (refused : A) (body : W → W * A) (w : W) :
    W * A * option ComponentState :=
  match state with
  | None => (w, refused, None)
  | Some state =>
      let '(state, lease) := ComponentLease_acquire true state in
      let '(w, result) := if ComponentLease_bool lease then body w else (w, refused) in
      (w, result, Some (ComponentLease_release state lease).1)
  end.

(** ** Properties and attributes *)

(** [GuardedValueDataSource]. *)
Record GuardedValue := {
  source : option DS;
  gv_codec : option TypeCodec;
  writable : bool;
}.

(** The outcome of a callback: an exception, or the status and the value. *)
Definition read_result : Type := exn + (VariableStatus * DataValue Variant).

Definition refuse (status : VariableStatus) (value : DataValue Variant) : read_result :=
  inr (status, setStatus status value).

Definition guarded_read (gv : GuardedValue) (state : option ComponentState) (range : bool)
    (value : DataValue Variant) (w : W) : W * read_result * option ComponentState :=
  if range then (w, refuse vs_BadIndexRangeInvalid value, state)
  else with_lease state (refuse vs_BadNotConnected value)
    (λ w, match gv_codec gv with
          | None => (w, refuse vs_BadTypeMismatch value)
          | Some codec =>
              match toVariant codec (source gv) (Some empty_variant) w with
              | (w, inl e) => (w, inl e)
              | (w, inr (true, encoded)) => (w, inr (vs_Good, setValue (default empty_variant encoded) value))
              | (w, inr (false, _)) => (w, refuse vs_BadTypeMismatch value)
              end
          end) w.

Definition guarded_write (gv : GuardedValue) (state : option ComponentState) (range : bool)
    (value : DataValue Variant) (w : W) : W * (exn + VariableStatus) * option ComponentState :=
  if range then (w, inr vs_BadIndexRangeInvalid, state)
  else if negb (writable gv) then (w, inr vs_BadNotWritable, state)
  else match dv_value value with
       | None => (w, inr vs_BadTypeMismatch, state)
       | Some v =>
           with_lease state (inr vs_BadNotConnected)
             (λ w, match gv_codec gv with
                   | None => (w, inr vs_BadTypeMismatch)
                   | Some codec =>
                       match assignVariant codec v (source gv) w with
                       | (w, inl e) => (w, inl e)
                       | (w, inr true) => (w, inr vs_Good)
                       | (w, inr false) => (w, inr vs_BadTypeMismatch)
                       end
                   end) w
       end.

(** ** Input ports *)

(** [InputPortValueDataSource]; [last_value] is set when [has_last_value_] is. *)
Record InputPortValue := {
  bridge : option PortBridge;
  last_value : option Variant;
}.

Definition input_read (port : InputPortValue) (state : option ComponentState) (range : bool)
    (value : DataValue Variant) (w : W) : W * read_result * option ComponentState :=
  if range then (w, refuse vs_BadIndexRangeInvalid value, state)
  else with_lease state (refuse vs_BadNotConnected value)
    (λ w, match bridge port with
          | None => (w, refuse vs_BadNotConnected value)
          | Some _ =>
              match last_value port with
              | None => (w, refuse vs_BadWaitingForInitialData value)
              | Some v => (w, inr (vs_Good, setValue v value))
              end
          end) w.

Definition input_write (port : InputPortValue) (state : option ComponentState) (range : bool)
    (value : DataValue Variant) (w : W) : W * (VariableStatus * InputPortValue) * option ComponentState :=
  if range then (w, (vs_BadIndexRangeInvalid, port), state)
  else match dv_value value with
       | None => (w, (vs_BadTypeMismatch, port), state)
       | Some v =>
           with_lease state (vs_BadNotConnected, port)
             (λ w, match bridge port with
                   | None => (w, (vs_BadNotConnected, port))
                   | Some b =>
                       let '(w, status) := bridge_write b v w in
                       (w, (status, if bool_decide (status = vs_Good)
                                    then {| bridge := bridge port; last_value := Some v |} else port))
                   end) w
       end.

(** ** Output ports *)

(** [OutputPortValueDataSource]; the observer only keeps the port's last value. *)
Record OutputPortValue := {
  out_port : option Port;
  out_codec : option TypeCodec;
  observer : option PortBridge;
}.

Definition output_read (port : OutputPortValue) (state : option ComponentState) (range : bool)
    (value : DataValue Variant) (w : W) : W * read_result * option ComponentState :=
  if range then (w, refuse vs_BadIndexRangeInvalid value, state)
  else with_lease state (refuse vs_BadNotConnected value)
    (λ w, match out_port port with
          | None => (w, refuse vs_BadNotConnected value)
          | Some p =>
              match out_codec port with
              | None => (w, refuse vs_BadTypeMismatch value)
              | Some codec =>
                  match portValue codec (Some p) (Some empty_variant) w with
                  | (pv_value, encoded) => (w, inr (vs_Good, setValue (default empty_variant encoded) value))
                  | (pv_waiting_for_initial_data, _) => (w, refuse vs_BadWaitingForInitialData value)
                  | (pv_error, _) => (w, refuse vs_BadTypeMismatch value)
                  end
              end
          end) w.

Definition output_write (port : OutputPortValue) (state : option ComponentState) (range : bool)
    (value : DataValue Variant) (w : W) : W * VariableStatus * option ComponentState :=
  (w, vs_BadNotWritable, state).

(** ** Histories of an input port

    The reads and writes of one input port variable, each with the component it
    finds, and what they return. *)
Inductive port_request :=
  | request_read (state : option ComponentState) (range : bool) (value : DataValue Variant)
  | request_write (state : option ComponentState) (range : bool) (value : DataValue Variant).

Inductive port_reply :=
  | reply_read (result : read_result)
  | reply_write (written : option Variant) (status : VariableStatus).

Fixpoint serve_port (requests : list port_request) (port : InputPortValue) (w : W) :
    W * InputPortValue * list port_reply :=
  match requests with
  | [] => (w, port, [])
  | request_read state range value :: requests' =>
      let '(w, result, _) := input_read port state range value w in
      let '(w, port, replies) := serve_port requests' port w in
      (w, port, reply_read result :: replies)
  | request_write state range value :: requests' =>
      let '(w, (status, port), _) := input_write port state range value w in
      let '(w, port, replies) := serve_port requests' port w in
      (w, port, reply_write (dv_value value) status :: replies)
  end.

(** ** Specification *)

(** The values of the writes that were accepted. *)
Definition accepted (reply : port_reply) : option Variant :=
  match reply with
  | reply_write written status => if bool_decide (status = vs_Good) then written else None
  | reply_read _ => None
  end.

(** The component can be used by callbacks. *)
Definition usable (state : option ComponentState) : bool :=
  match state with
  | Some state => isActive true state
  | None => false
  end.

(** The state is that of a component with room for one more user. *)
Definition lease_room (state : option ComponentState) : Prop :=
  match state with Some state => (users state + 1 < 2 ^ 64)%N | None => True end.

(** A callback gives its lease back, and without a usable component it touches
    nothing and does not succeed. *)
Definition guarded_callback {A} (good : A → bool) (state : option ComponentState) (w : W)
    (result : W * A * option ComponentState) : Prop :=
  result.2 = state ∧ (usable state = false → result.1.1 = w ∧ good result.1.2 = false).

Definition good_read (result : read_result) : bool :=
  match result with inr (status, _) => bool_decide (status = vs_Good) | inl _ => false end.
Definition good_write (result : exn + VariableStatus) : bool :=
  match result with inr status => bool_decide (status = vs_Good) | inl _ => false end.
End variables.

(** ** A concrete port

    Its peer accepts every number up to 9. *)
#[global] Instance number_ports : RttPorts (list nat) nat nat string := {
  antiClone port := mret (Some port);
  is_OutputPort _ := true;
  is_InputPort _ := true;
  port_typeInfo _ := Some "Int32";
  createConnection _ _ _ := mret true;
  disconnect _ := mret tt;
  port_write _ value := if 9 <? value then mret WriteFailure else (io_modify (cons value);; mret WriteSuccess);
  destroyPort _ w := w;
  data_policy := default_policy;
}.

Definition port_codec : TypeCodec (list nat) nat nat nat c_NodeId c_NodeId :=
  {| dataTypeNodeId := (0%N, inl dt_Int32); valueRank := vr_Scalar; hasValue := true;
     toVariant source _ := mret (true, source); assignVariant _ _ := mret true;
     makeDataSource value := mret (Some value); makeProxyDataSource _ _ := None;
     portValue _ value _ := (pv_value, value) |}.

Definition port_registry :
    EndpointTypeRegistry c_NodeId c_DataType string (TypeCodec (list nat) nat nat nat c_NodeId c_NodeId) :=
  {| namespace_indexes := ∅; custom_data_types := []; custom_data_type_indexes := ∅; data_type_nodes := [];
     codecs := {["Int32" := 0]}; codecs_by_name := {["Int32" := 0]}; codec_heap := {[0 := port_codec]};
     factory_state := {| factory_namespace_indexes := ∅; factory_data_types := ∅ |} |}.

Definition number_component : option (ComponentState nat) := Some (makeComponentState 7 "component" false).
Definition number_bridge := {| type_registry := Some port_registry; peer := Some 1 |}.
Definition number_value (n : nat) : DataValue nat := setValue n empty_value.
(** The second write is refused by the port. *)
Definition number_requests : list (port_request (TaskContext := nat)) :=
  [request_write number_component false (number_value 4); request_write number_component false (number_value 12)].

Section variable_facts.
Context {W DS Port Variant NodeId UA_DataType DataType TypeInfo TaskContext : Type}.
Context `{EqDecision TypeInfo} `{!Countable TypeInfo} `{RttPorts W DS Port TypeInfo}.
Context (empty_variant : Variant).
Notation TypeCodec := (TypeCodec W DS Port Variant NodeId UA_DataType).
Notation EndpointTypeRegistry := (EndpointTypeRegistry UA_DataType DataType TypeInfo TypeCodec).
Notation PortBridge := (PortBridge (DataType := DataType) (TypeInfo := TypeInfo) (NodeId := NodeId)
  (UA_DataType := UA_DataType) (W := W) (DS := DS) (Port := Port) (Variant := Variant)).
Notation InputPortValue := (InputPortValue (DataType := DataType) (TypeInfo := TypeInfo) (NodeId := NodeId)
  (UA_DataType := UA_DataType) (W := W) (DS := DS) (Port := Port) (Variant := Variant)).
Implicit Types (state : option (ComponentState TaskContext)) (port : InputPortValue).

(** ** Lemmas *)

Lemma with_lease_usable {A} state (refused : A) (body : W → W * A) (w : W) :
  usable state = true → (with_lease state refused body w).1 = body w.
Proof.
  destruct state as [state|]; [|done]. simpl. unfold isActive, with_lease, ComponentLease_acquire. simpl.
  intros Husable. split_guards. rename select (is_Some _) into Hsome. destruct Hsome as [c Hc].
  rename select (admission_closed _ = _) into Hopen. rename select (is_active _ = _) into Hact.
  rewrite Hopen, Hact, Hc. simpl. by destruct (body w).
Qed.

Lemma with_lease_unusable {A} state (refused : A) (body : W → W * A) (w : W) :
  usable state = false → (with_lease state refused body w).1 = (w, refused).
Proof.
  destruct state as [state|]; [|done]. simpl. unfold isActive, with_lease, ComponentLease_acquire. simpl.
  destruct (admission_closed state), (is_active state), (component state) eqn:Hc; by rewrite ?Hc.
Qed.

(** The lease of a call is given back. *)
Lemma with_lease_users {A} state (refused : A) (body : W → W * A) (w : W) :
  lease_room state → (with_lease state refused body w).2 = state.
Proof.
  destruct state as [state|]; [|done]. unfold lease_room, with_lease, ComponentLease_acquire. simpl. intros Hroom.
  destruct (admission_closed state || _ || _); [done|]. simpl.
  destruct (if ComponentLease_bool _ then _ else _) as [w' result]. simpl. unfold ComponentLease_release. simpl.
  f_equal. destruct state as [c n ac ia u]. unfold set_users, size_increment, size_decrement. simpl in *. f_equal.
  rewrite N.mod_small by lia. destruct (N.eqb_spec (u + 1) 0); lia.
Qed.

Lemma input_write_accepted port state range value w :
  let '(_, (status, port'), _) := input_write port state range value w in
  bridge port' = bridge port ∧
  last_value port' = match accepted (reply_write (dv_value value) status) with
                     | Some v => Some v
                     | None => last_value port
                     end.
Proof.
  unfold input_write. destruct range; [done|]. destruct (dv_value value) as [v|]; [|done].
  destruct (with_lease state _ _ w) as [[w' [status port']] state'] eqn:Hlease.
  apply (f_equal fst) in Hlease. simpl in Hlease. destruct (usable state) eqn:Husable.
  - rewrite with_lease_usable in Hlease by done. destruct (bridge port) as [b|] eqn:Hb.
    + destruct (bridge_write b v w) as [w2 status2]. simplify_eq. simpl. by case_bool_decide.
    + by simplify_eq.
  - rewrite with_lease_unusable in Hlease by done. by simplify_eq.
Qed.

Lemma serve_port_last (requests : list (port_request (TaskContext := TaskContext))) port w :
  let '(_, port', replies) := serve_port requests port w in
  bridge port' = bridge port ∧
  last_value port' = match last (omap accepted replies) with Some v => Some v | None => last_value port end.
Proof.
  revert port w. induction requests as [|request requests IH]; intros port w; [done|]. destruct request as [state range value|state range value]; simpl.
  - destruct (input_read port state range value w) as [[w1 result] state1].
    specialize (IH port w1). destruct (serve_port requests port w1) as [[w2 port'] replies]. done.
  - pose proof (input_write_accepted port state range value w) as Hwrite.
    destruct (input_write port state range value w) as [[w1 [status port1]] state1]. destruct Hwrite as [Hb Hlast].
    specialize (IH port1 w1). destruct (serve_port requests port1 w1) as [[w2 port'] replies].
    destruct IH as [-> ->]. split; [done|]. cbn [omap list_omap].
    destruct (accepted (reply_write (dv_value value) status)) as [v|]; [|by rewrite Hlast].
    rewrite last_cons. by destruct (last (omap accepted replies)).
Qed.

Lemma refused_callback {A} (good : A → bool) state (refused : A) (body : W → W * A) (w : W) :
  lease_room state → good refused = false →
  guarded_callback good state w (with_lease state refused body w).
Proof.
  intros Hroom Hgood. split; [by apply with_lease_users|]. intros Hunusable.
  by rewrite with_lease_unusable.
Qed.

(** ** Properties *)

(** Reading an input port variable of a usable component yields the value of
    the last write the port accepted, however reads, failed writes and changes
    of the component came in between, and "waiting for initial data" before the
    first. *)
Theorem input_port_reads_last_write (requests : list (port_request (TaskContext := TaskContext))) (b : PortBridge) state value w (Husable : usable state = true) :
  let '(w', port', replies) := serve_port requests {| bridge := Some b; last_value := None |} w in
  (input_read port' state false value w').1 =
  (w', match last (omap accepted replies) with
       | Some v => inr (vs_Good, setValue v value)
       | None => refuse vs_BadWaitingForInitialData value
       end).
Proof.
  pose proof (serve_port_last requests {| bridge := Some b; last_value := None |} w) as Hlast.
  destruct (serve_port requests _ w) as [[w' port'] replies]. destruct Hlast as [Hb Hl].
  unfold input_read. rewrite with_lease_usable, Hb, Hl by done. by destruct (last (omap accepted replies)).
Qed.

(** The callbacks of all variables give their lease back, and for a component
    that is dropped, deactivated or shut down they leave the data sources and
    ports alone and report a failure. *)
Theorem callbacks_guarded (gv : GuardedValue (W := W) (DS := DS) (Port := Port) (Variant := Variant)
      (NodeId := NodeId) (UA_DataType := UA_DataType)) (port : InputPortValue)
    (out : OutputPortValue (DataType := DataType) (TypeInfo := TypeInfo) (W := W) (DS := DS) (Port := Port)
      (Variant := Variant) (NodeId := NodeId) (UA_DataType := UA_DataType)) state range value (w : W)
    (Hroom : lease_room state) :
  guarded_callback good_read state w (guarded_read empty_variant gv state range value w) ∧
  guarded_callback good_write state w (guarded_write gv state range value w) ∧
  guarded_callback good_read state w (input_read port state range value w) ∧
  guarded_callback (λ result, bool_decide (result.1 = vs_Good)) state w (input_write port state range value w) ∧
  guarded_callback good_read state w (output_read empty_variant out state range value w) ∧
  guarded_callback (λ status, bool_decide (status = vs_Good)) state w (output_write out state range value w).
Proof.
  unfold guarded_read, guarded_write, input_read, input_write, output_read, output_write.
  destruct range; [done|]. split_and!; try by apply refused_callback.
  - destruct (negb (writable gv)); [done|]. destruct (dv_value value); [|done]. by apply refused_callback.
  - destruct (dv_value value); [|done]. by apply refused_callback.
  - done.
Qed.
End variable_facts.

(** ** Witnesses *)

Lemma input_port_reads_last_write_witness :
  let '(w', port', replies) := serve_port number_requests {| bridge := Some number_bridge; last_value := None |} [] in
  (input_read port' number_component false empty_value w').1 = (w', inr (vs_Good, number_value 4)).
Proof.
  pose proof (input_port_reads_last_write number_requests number_bridge number_component empty_value []
    ltac:(by vm_compute)) as Hread.
  exact Hread.
Defined.

Lemma callbacks_guarded_witness :
  guarded_callback good_read (Some (deactivate_begin (makeComponentState 7 "component" false))) [1]
    (input_read {| bridge := Some number_bridge; last_value := Some 4 |}
       (Some (deactivate_begin (makeComponentState 7 "component" false))) false empty_value [1]).
Proof.
  refine (proj1 (proj2 (proj2 (callbacks_guarded 0 {| source := Some 1; gv_codec := Some port_codec; writable := true |}
    {| bridge := Some number_bridge; last_value := Some 4 |}
    {| out_port := Some 1; out_codec := Some port_codec; observer := None |}
    (Some (deactivate_begin (makeComponentState 7 "component" false))) false empty_value [1] _)))).
  by vm_compute.
Defined.
