(* ===== verification/Inventory.v ===== *)
(** The inventory of an RTT component and its publication plan
    (src/src/object_model.cpp, include/rtt/opcua/object_model.hpp): the
    diagnostics, the bounded discovery of a service graph that may be cyclic,
    the canonical resource paths, and the set of resources a full or a selective
    publication makes visible. *)

From S2P Require Import Prelude NodeId Selector.

(** ** Diagnostics *)

Record UnsupportedResource := {
  un_component : string;
  un_path : string;
  un_kind : string;
  un_type_name : string;
  un_reason : string;
}.

Inductive PublicationDiagnosticKind :=
  | malformed_selector
  | unmatched_selector
  | inventory_failure
  | unsupported_resource
  | mandatory_resource
  | publication_conflict.

Record PublicationDiagnostic := {
  diag_kind : PublicationDiagnosticKind;
  diag_component : string;
  diag_selector : string;
  diag_resource_path : string;
  diag_reason : string;
}.

#[global] Instance UnsupportedResource_eq_dec : EqDecision UnsupportedResource.
Proof. solve_decision. Defined.
#[global] Instance PublicationDiagnosticKind_eq_dec : EqDecision PublicationDiagnosticKind.
Proof. solve_decision. Defined.
#[global] Instance PublicationDiagnostic_eq_dec : EqDecision PublicationDiagnostic.
Proof. solve_decision. Defined.

(** [auto operator<=>(const UnsupportedResource &) const = default]. *)
#[global] Program Instance UnsupportedResource_three_way : ThreeWay UnsupportedResource := {
  members u := [un_component u; un_path u; un_kind u; un_type_name u; un_reason u];
}.
Next Obligation. intros [] []; simpl; congruence. Qed.

Definition PublicationDiagnosticKind_member (k : PublicationDiagnosticKind) : string :=
  match k with
  | malformed_selector => "0"
  | unmatched_selector => "1"
  | inventory_failure => "2"
  | unsupported_resource => "3"
  | mandatory_resource => "4"
  | publication_conflict => "5"
  end.

#[global] Program Instance PublicationDiagnostic_three_way : ThreeWay PublicationDiagnostic := {
  members d := [PublicationDiagnosticKind_member (diag_kind d); diag_component d;
                diag_selector d; diag_resource_path d; diag_reason d];
}.
Next Obligation. intros [[] ????] [[] ????]; simpl; congruence. Qed.

(** [UnsupportedResource::message]. *)
Definition UnsupportedResource_message (u : UnsupportedResource) : string :=
  "OPC UA: component '" +:+ un_component u +:+ "' rejected " +:+ un_kind u +:+ " '" +:+
  un_path u +:+ "' because RTT type '" +:+ un_type_name u +:+ "' " +:+ un_reason u +:+ ".".

(** [while (stable_reason.ends_with('.')) stable_reason.pop_back()]. *)
Fixpoint strip_stops (reason : string) : string :=
  match reason with
  | EmptyString => EmptyString
  | String c rest =>
      let rest' := strip_stops rest in
      if str_empty rest' && Ascii.eqb c "." then EmptyString else String c rest'
  end.

(** [PublicationDiagnostic::message]. *)
Definition PublicationDiagnostic_message (d : PublicationDiagnostic) : string :=
  let stable_reason := strip_stops (diag_reason d) in
  match diag_kind d with
  | malformed_selector =>
      "OPC UA publication: component '" +:+ diag_component d +:+ "' rejected selector '" +:+
      diag_selector d +:+ "': " +:+ stable_reason +:+ "."
  | unmatched_selector =>
      "OPC UA publication: component '" +:+ diag_component d +:+ "' selector '" +:+
      diag_selector d +:+ "' matched no RTT resource."
  | inventory_failure =>
      "OPC UA publication: component '" +:+ diag_component d +:+ "' inventory failed: " +:+
      stable_reason +:+ "."
  | unsupported_resource =>
      "OPC UA publication: component '" +:+ diag_component d +:+ "' rejected resource '" +:+
      diag_resource_path d +:+ "': " +:+ stable_reason +:+ "."
  | mandatory_resource =>
      "OPC UA publication: component '" +:+ diag_component d +:+ "' requires resource '" +:+
      diag_resource_path d +:+ "': " +:+ stable_reason +:+ "."
  | publication_conflict =>
      "OPC UA publication: component '" +:+ diag_component d +:+
      "' conflicts with its existing publication: " +:+ stable_reason +:+ "."
  end.

(** ** Resources *)

Definition kMaximumServiceDepth : nat := 32.

Definition kResourceCategories : list (string * string) :=
  [("operations", "Operations"); ("properties", "Properties"); ("attributes", "Attributes");
   ("ports", "Ports"); ("services", "Services")].

Definition kMandatoryOperations : list (string * string) :=
  [("getTaskState", "TaskState"); ("getTargetState", "TaskState"); ("isConfigured", "Bool");
   ("isActive", "Bool"); ("isRunning", "Bool"); ("inFatalError", "Bool");
   ("inException", "Bool"); ("inRunTimeError", "Bool")].

(** [ResourceKind]; the enumerators carry a prefix of their own. *)
Inductive ResourceKind := kind_operation | kind_property | kind_attribute | kind_port | kind_service.

#[global] Instance ResourceKind_eq_dec : EqDecision ResourceKind.
Proof. solve_decision. Defined.

Definition resourceCategory (kind : ResourceKind) : string :=
  match kind with
  | kind_operation => "operations"
  | kind_property => "properties"
  | kind_attribute => "attributes"
  | kind_port => "ports"
  | kind_service => "services"
  end.

Definition resourceKindName (kind : ResourceKind) : string :=
  match kind with
  | kind_operation => "operation"
  | kind_property => "property"
  | kind_attribute => "attribute"
  | kind_port => "port"
  | kind_service => "service"
  end.

Definition resourcePath (owner_path : string) (kind : ResourceKind) (name : string) : string :=
  let path := if negb (str_empty owner_path) then owner_path +:+ "/" else owner_path in
  appendNodeSegment (path +:+ resourceCategory kind) name.

Definition appendDiagnosticSegment (path segment : string) : string :=
  if str_empty path then segment else path +:+ "." +:+ segment.

(** What RTT provides: a view of the service graph at one moment.  A service is
    its address; the lookups return the null pointer as [None]. *)
Record ServiceView (Service Operation Property Attribute Port : Type) := {
  getOperationNames : Service → list string;
  getPropertyNames : Service → list string;
  getAttributeNames : Service → list string;
  getPortNames : Service → list string;
  getProviderNames : Service → list string;
  getOperation : Service → string → option Operation;
  getProperty : Service → string → option Property;
  getValue : Service → string → option Attribute;
  getPort : Service → string → option Port;
  getService : Service → string → option Service;
  service_doc : Service → string;
}.
Arguments getOperationNames {_ _ _ _ _} _ _.
Arguments getPropertyNames {_ _ _ _ _} _ _.
Arguments getAttributeNames {_ _ _ _ _} _ _.
Arguments getPortNames {_ _ _ _ _} _ _.
Arguments getProviderNames {_ _ _ _ _} _ _.
Arguments getOperation {_ _ _ _ _} _ _ _.
Arguments getProperty {_ _ _ _ _} _ _ _.
Arguments getValue {_ _ _ _ _} _ _ _.
Arguments getPort {_ _ _ _ _} _ _ _.
Arguments getService {_ _ _ _ _} _ _ _.
Arguments service_doc {_ _ _ _ _} _ _.

Record ResourceRecord (Service : Type) := {
  rec_kind : ResourceKind;
  rec_path : string;
  owner_path : string;
  legacy_path : string;
  rec_name : string;
  rec_owner : option Service;
  rec_service : option Service;
  discovery_error : string;
}.
Arguments rec_kind {_} _.
Arguments rec_path {_} _.
Arguments owner_path {_} _.
Arguments legacy_path {_} _.
Arguments rec_name {_} _.
Arguments rec_owner {_} _.
Arguments rec_service {_} _.
Arguments discovery_error {_} _.

Record ComponentInventory (Service : Type) := {
  resources : gmap string (ResourceRecord Service);
  fatal_diagnostics : list PublicationDiagnostic;
}.
Arguments resources {_} _.
Arguments fatal_diagnostics {_} _.

Inductive PublicationMode := mode_full | mode_selected.

#[global] Instance PublicationMode_eq_dec : EqDecision PublicationMode.
Proof. solve_decision. Defined.

Record PublicationPlan := {
  plan_mode : PublicationMode;
  effective_resources : gset string;
  plan_diagnostics : list PublicationDiagnostic;
}.

(** A loop whose body may run out of fuel. *)
Fixpoint foldM {A B : Type} (f : A → B → option A) (a : A) (l : list B) : option A :=
  match l with
  | [] => Some a
  | b :: l' => a' ← f a b; foldM f a' l'
  end.

Section inventory.
Context {Service Operation Property Attribute Port : Type}.
Context `{EqDecision Service} `{!Countable Service}.
Notation ServiceView := (ServiceView Service Operation Property Attribute Port).
Notation ResourceRecord := (ResourceRecord Service).
Notation ComponentInventory := (ComponentInventory Service).
Implicit Types (view : ServiceView) (service : Service) (inventory : ComponentInventory)
  (record : ResourceRecord) (ancestry : gset Service).

(** ** Discovery *)

Definition addInventoryRecord (component : string) inventory record : ComponentInventory :=
  let path := rec_path record in
  match resources inventory !! path with
  | None =>
      {| resources := <[path := record]> (resources inventory);
         fatal_diagnostics := fatal_diagnostics inventory |}
  | Some _ =>
      {| resources := resources inventory;
         fatal_diagnostics := fatal_diagnostics inventory ++
           [{| diag_kind := inventory_failure; diag_component := component;
               diag_selector := ""; diag_resource_path := "";
               diag_reason := "duplicate canonical resource path '" +:+ path +:+ "'" |}] |}
  end.

(** The names a service lists for the resources of one kind, and whether the
    lookup of a name that is not a service finds it. *)
Definition listed_names view service (kind : ResourceKind) : list string :=
  match kind with
  | kind_operation => getOperationNames view service
  | kind_property => getPropertyNames view service
  | kind_attribute => getAttributeNames view service
  | kind_port => getPortNames view service
  | kind_service => getProviderNames view service
  end.

Definition available view service (kind : ResourceKind) (name : string) : bool :=
  match kind with
  | kind_operation => bool_decide (is_Some (getOperation view service name))
  | kind_property => bool_decide (is_Some (getProperty view service name))
  | kind_attribute => bool_decide (is_Some (getValue view service name))
  | kind_port => bool_decide (is_Some (getPort view service name))
  | kind_service => bool_decide (is_Some (getService view service name))
  end.

(** The record that the loops over operations, properties, attributes and ports
    add for one name. *)
Definition leafRecord view service (owner legacy : string) (kind : ResourceKind)
    (name : string) : ResourceRecord :=
  {| rec_kind := kind;
     rec_path := resourcePath owner kind name;
     owner_path := owner;
     legacy_path := appendDiagnosticSegment legacy name;
     rec_name := name;
     rec_owner := Some service;
     rec_service := None;
     discovery_error :=
       if available view service kind name then ""
       else "RTT " +:+ resourceKindName kind +:+ " is unavailable during inventory discovery" |}.

(** The four loops. *)
Definition discoverLeaves view (component : string) inventory service (owner legacy : string)
    : ComponentInventory :=
  foldl (λ inventory kind,
      foldl (λ inventory name,
          addInventoryRecord component inventory
            (leafRecord view service owner legacy kind name))
        inventory (listed_names view service kind))
    inventory [kind_operation; kind_property; kind_attribute; kind_port].

(** The error of a child service; [ancestry] holds the services being walked. *)
Definition child_error (child : option Service) ancestry (depth : nat) : string :=
  match child with
  | None => "RTT service is unavailable during inventory discovery"
  | Some child =>
      if bool_decide (child ∈ ancestry) then "forms a cycle in the RTT service graph"
      else if kMaximumServiceDepth <=? depth
      then "exceeds the maximum supported service depth of " +:+
           to_string (N.of_nat kMaximumServiceDepth)
      else ""
  end.

Definition serviceRecord view service (owner legacy : string) ancestry (depth : nat)
    (name : string) : ResourceRecord :=
  let child := getService view service name in
  {| rec_kind := kind_service;
     rec_path := resourcePath owner kind_service name;
     owner_path := owner;
     legacy_path := appendDiagnosticSegment legacy name;
     rec_name := name;
     rec_owner := Some service;
     rec_service := child;
     discovery_error := child_error child ancestry depth |}.

(** [discoverService]: the inventory and the [ancestry] that the walk shares are
    the state; [None] is out of fuel. *)
Fixpoint discoverService (fuel : nat) view (component : string) inventory service
    (owner legacy : string) ancestry (depth : nat)
    : option (ComponentInventory * gset Service) :=
  match fuel with
  | O => None
  | S fuel' =>
      let ancestry := {[service]} ∪ ancestry in
      let inventory := discoverLeaves view component inventory service owner legacy in
      state ← foldM (λ state name,
          if String.eqb name "this" then Some state
          else
            let record := serviceRecord view service owner legacy state.2 depth name in
            let inventory := addInventoryRecord component state.1 record in
            match rec_service record with
            | Some child =>
                if str_empty (discovery_error record) then
                  discoverService fuel' view component inventory child (rec_path record)
                    (legacy_path record) state.2 (depth + 1)
                else Some (inventory, state.2)
            | None => Some (inventory, state.2)
            end)
        (inventory, ancestry) (getProviderNames view service);
      Some (state.1, state.2 ∖ {[service]})
  end.

Definition empty_inventory : ComponentInventory :=
  {| resources := ∅; fatal_diagnostics := [] |}.

(** [discoverComponent]; [root] is [component.provides()].  The fuel is one more
    than the deepest service. *)
Definition discoverComponent view (component : string) (root : option Service)
    : ComponentInventory :=
  match root with
  | None =>
      {| resources := ∅;
         fatal_diagnostics :=
           [{| diag_kind := inventory_failure; diag_component := component;
               diag_selector := ""; diag_resource_path := "";
               diag_reason := "RTT component root service is unavailable" |}] |}
  | Some root =>
      let inventory :=
        default empty_inventory
          (fst <$> discoverService (S kMaximumServiceDepth) view component empty_inventory
                     root "" "" ∅ 0) in
      {| resources := resources inventory;
         fatal_diagnostics := sort_unique (fatal_diagnostics inventory) |}
  end.
End inventory.

(** ** Plans *)

(** The loop of [addServiceAncestors]: [begun] is [owner_path.substr(0, begin)]
    and the segments are those of [owner_path.substr(begin)]; a lone segment has
    no ['/'] after it. *)
Fixpoint ancestorsLoop (begun : string) (segments : list string) (effective : gset string)
    : gset string :=
  match segments with
  | category :: name :: segments' =>
      if negb (String.eqb category "services") then effective
      else
        let ancestor := begun +:+ category +:+ "/" +:+ name in
        ancestorsLoop (ancestor +:+ "/") segments' ({[ancestor]} ∪ effective)
  | _ => effective
  end.

Definition addServiceAncestors (owner : string) (effective : gset string) : gset string :=
  ancestorsLoop "" (splitPath owner) effective.

Section plan.
Context {Service : Type}.
Implicit Types (inventory : ComponentInventory Service).

(** One turn of the loop over the mandatory operations. *)
Definition addMandatory (component : string) inventory (plan : PublicationPlan)
    (mandatory : string * string) : PublicationPlan :=
  let path := resourcePath "" kind_operation mandatory.1 in
  if bool_decide (path ∈ dom (resources inventory)) then
    {| plan_mode := plan_mode plan;
       effective_resources := {[path]} ∪ effective_resources plan;
       plan_diagnostics := plan_diagnostics plan |}
  else
    {| plan_mode := plan_mode plan;
       effective_resources := effective_resources plan;
       plan_diagnostics := plan_diagnostics plan ++
         [{| diag_kind := mandatory_resource; diag_component := component;
             diag_selector := ""; diag_resource_path := path;
             diag_reason := "mandatory RTT proxy operation is unavailable" |}] |}.

Definition issue_diagnostic (component : string) (issue : SelectorIssue) : PublicationDiagnostic :=
  {| diag_kind := match issue_kind issue with
                  | malformed => malformed_selector
                  | unmatched => unmatched_selector
                  end;
     diag_component := component;
     diag_selector := issue_selector issue;
     diag_resource_path := "";
     diag_reason := issue_reason issue |}.

Definition selectResources (component : string) inventory (selectors : list string)
    (fatal : list PublicationDiagnostic) : PublicationPlan :=
  let m := matchPublicationSelectors selectors (ordered_elems (dom (resources inventory))) in
  {| plan_mode := mode_selected;
     effective_resources :=
       foldl (λ effective path,
           match resources inventory !! path with
           | Some record => addServiceAncestors (owner_path record) effective
           | None => effective
           end)
         (match_resource_paths m) (ordered_elems (match_resource_paths m));
     plan_diagnostics := fatal ++ (issue_diagnostic component <$> match_issues m) |}.

Definition buildPublicationPlan (mode : PublicationMode) inventory (component : string)
    (selectors : list string) : PublicationPlan :=
  let plan :=
    match mode, selectors with
    | mode_full, _ =>
        {| plan_mode := mode;
           effective_resources := dom (resources inventory);
           plan_diagnostics := fatal_diagnostics inventory |}
    | mode_selected, [] =>
        {| plan_mode := mode;
           effective_resources := ∅;
           plan_diagnostics := fatal_diagnostics inventory ++
             [{| diag_kind := malformed_selector; diag_component := component;
                 diag_selector := ""; diag_resource_path := "";
                 diag_reason := "at least one publication selector is required" |}] |}
    | mode_selected, _ :: _ =>
        selectResources component inventory selectors (fatal_diagnostics inventory)
    end in
  foldl (addMandatory component inventory) plan kMandatoryOperations.
End plan.

(** ** Reference definitions *)

Section reference.
Context {Service Operation Property Attribute Port : Type}.
Context `{EqDecision Service} `{!Countable Service}.
Notation ServiceView := (ServiceView Service Operation Property Attribute Port).
Notation ResourceRecord := (ResourceRecord Service).
Notation ComponentInventory := (ComponentInventory Service).
Implicit Types (view : ServiceView) (service : Service) (inventory : ComponentInventory)
  (record : ResourceRecord) (ancestry above : gset Service).

(** The records of the operations, properties, attributes and ports of a
    service. *)
Definition leaf_records view service (owner legacy : string) : list ResourceRecord :=
  [kind_operation; kind_property; kind_attribute; kind_port] ≫=
    λ kind, leafRecord view service owner legacy kind <$> listed_names view service kind.

(** The records a service contributes itself; [above] are the services on the
    way to it. *)
Definition own_records view service (owner legacy : string) above (depth : nat)
    : list ResourceRecord :=
  leaf_records view service owner legacy ++
  (serviceRecord view service owner legacy ({[service]} ∪ above) depth <$>
     filter (.≠ "this") (getProviderNames view service)).

(** The records of a child service, when the walk goes on there. *)
Definition descend (walk : Service → list ResourceRecord) record : list ResourceRecord :=
  match rec_service record with
  | Some child => if str_empty (discovery_error record) then walk child else []
  | None => []
  end.

(** The whole walk without shared state: every record in the order of its
    discovery. *)
Fixpoint service_records (fuel : nat) view service (owner legacy : string) above (depth : nat)
    : list ResourceRecord :=
  match fuel with
  | O => []
  | S fuel' =>
      leaf_records view service owner legacy ++
      (filter (.≠ "this") (getProviderNames view service) ≫= λ name,
         let record := serviceRecord view service owner legacy ({[service]} ∪ above) depth name in
         record ::
         descend (λ child,
             service_records fuel' view child (rec_path record) (legacy_path record)
               ({[service]} ∪ above) (depth + 1))
           record)
  end.

(** [names] leads from a service at depth [depth] to another one: each step is a
    listed provider other than [this], none of the services repeats one on the
    way, and no step leaves a service at the maximum depth. *)
Inductive ServiceWalk view above service (depth : nat)
    : list string → gset Service → Service → Prop :=
  | walk_here : ServiceWalk view above service depth [] above service
  | walk_child name names child above' service' :
      name ∈ getProviderNames view service → name ≠ "this" →
      getService view service name = Some child →
      child ∉ {[service]} ∪ above → depth < kMaximumServiceDepth →
      ServiceWalk view ({[service]} ∪ above) child (depth + 1) names above' service' →
      ServiceWalk view above service depth (name :: names) above' service'.

(** The resource and the diagnostic path of the service that [names] leads to. *)
Definition walk_path (owner : string) (names : list string) : string :=
  foldl (λ path name, resourcePath path kind_service name) owner names.
Definition walk_legacy (legacy : string) (names : list string) : string :=
  foldl appendDiagnosticSegment legacy names.

(** [record] is what the component offers at the end of some walk. *)
Definition offered view (root : Service) record : Prop :=
  ∃ names above service,
    ServiceWalk view ∅ root 0 names above service ∧
    record ∈ own_records view service (walk_path "" names) (walk_legacy "" names) above
      (length names).

(** The names of a resource path. *)
Definition walk_segments (names : list string) : list string :=
  names ≫= λ name, ["services"; name].
Definition resource_segments_of (names : list string) (kind : ResourceKind) (name : string)
    : list string :=
  walk_segments names ++ [resourceCategory kind; name].

(** The paths of the services above the service that [names] leads to, and its
    own. *)
Definition walk_ancestors (names : list string) : list string :=
  (λ n, walk_path "" (take n names)) <$> seq 1 (length names).

(** RTT keeps each kind of resource of a service in a map: no name twice, and
    (for the escaping to be injective) none of them empty. *)
Definition distinct_names view : Prop :=
  ∀ service kind,
    NoDup (listed_names view service kind) ∧ Forall (.≠ "") (listed_names view service kind).
End reference.

(** ** Lemmas: loops *)

Lemma foldl_bind {A B C} (f : A → B → A) (g : C → list B) a l :
  foldl (λ a c, foldl f a (g c)) a l = foldl f a (l ≫= g).
Proof. revert a. induction l as [|c l IH]; intros a; csimpl; [done|]. by rewrite IH, foldl_app. Qed.

Lemma foldl_fmap {A B C} (f : A → B → A) (g : C → B) a l :
  foldl f a (g <$> l) = foldl (λ a c, f a (g c)) a l.
Proof. revert a. induction l as [|c l IH]; intros a; csimpl; auto. Qed.

Lemma fmap_list_bind {A B C} (f : B → C) (g : A → list B) l :
  f <$> (l ≫= g) = l ≫= λ a, f <$> g a.
Proof. induction l as [|a l IH]; csimpl; [done|]. by rewrite fmap_app, IH. Qed.

(** A loop whose body always succeeds is a plain fold; [R] is what the turns
    preserve. *)
Lemma foldM_foldl {A B} (f : A → B → option A) (g : A → B → A) (R : A → Prop) a l :
  (∀ a b, b ∈ l → R a → f a b = Some (g a b) ∧ R (g a b)) → R a →
  foldM f a l = Some (foldl g a l).
Proof.
  revert a. induction l as [|b l IH]; intros a Hstep HR; csimpl; [done|].
  destruct (Hstep a b) as [-> ?]; [set_solver|done|]. simpl. apply IH; [|done].
  intros a' b' ??. apply Hstep; set_solver.
Qed.

(** ** Lemmas: discovery *)

Section descend.
Context {Service Operation Property Attribute Port : Type}.
Context `{EqDecision Service} `{!Countable Service}.
Notation ServiceView := (ServiceView Service Operation Property Attribute Port).
Notation ResourceRecord := (ResourceRecord Service).
Notation ComponentInventory := (ComponentInventory Service).
Implicit Types (view : ServiceView) (service : Service) (inventory : ComponentInventory)
  (record : ResourceRecord) (ancestry above : gset Service).

Lemma child_error_spec (child : option Service) ancestry depth :
  child_error child ancestry depth = "" ↔
  ∃ c, child = Some c ∧ c ∉ ancestry ∧ depth < kMaximumServiceDepth.
Proof.
  unfold child_error. destruct child as [c|]; [|naive_solver].
  case_bool_decide; [naive_solver|].
  destruct (Nat.leb_spec kMaximumServiceDepth depth).
  - split; [done|]. intros (? & ? & ? & ?). lia.
  - split; [|done]. intros _. by exists c.
Qed.

Lemma descend_cases walk view service owner legacy ancestry depth name :
  descend walk (serviceRecord view service owner legacy ancestry depth name) = [] ∨
  ∃ child, getService view service name = Some child ∧ child ∉ ancestry ∧
    depth < kMaximumServiceDepth ∧
    descend walk (serviceRecord view service owner legacy ancestry depth name) = walk child.
Proof.
  unfold descend. cbn [serviceRecord rec_service discovery_error].
  destruct (getService view service name) as [child|]; [|by left].
  destruct (str_empty _) eqn:Herr; [|by left].
  apply str_empty_spec, child_error_spec in Herr as (c & [= <-] & ? & ?). right. by exists child.
Qed.

Lemma descend_child walk view service owner legacy ancestry depth name child :
  getService view service name = Some child → child ∉ ancestry → depth < kMaximumServiceDepth →
  descend walk (serviceRecord view service owner legacy ancestry depth name) = walk child.
Proof.
  intros Hchild ??. unfold descend. cbn [serviceRecord rec_service discovery_error]. rewrite Hchild.
  rewrite (proj2 (str_empty_spec _)); [done|]. apply child_error_spec. by exists child.
Qed.

End descend.

(** Goes through the ways a walk may continue below a provider. *)
Ltac case_descend :=
  match goal with
  | |- context [descend ?walk (serviceRecord ?view ?service ?owner ?legacy ?anc ?depth ?name)] =>
      let child := fresh "child" in
      destruct (descend_cases walk view service owner legacy anc depth name)
        as [->|(child & ? & ? & ? & ->)]
  end.

Section discovery.
Context {Service Operation Property Attribute Port : Type}.
Context `{EqDecision Service} `{!Countable Service}.
Notation ServiceView := (ServiceView Service Operation Property Attribute Port).
Notation ResourceRecord := (ResourceRecord Service).
Notation ComponentInventory := (ComponentInventory Service).
Implicit Types (view : ServiceView) (service : Service) (inventory : ComponentInventory)
  (record : ResourceRecord) (ancestry above : gset Service).

Lemma discoverLeaves_records view component inventory service owner legacy :
  discoverLeaves view component inventory service owner legacy =
  foldl (addInventoryRecord component) inventory
    (leaf_records view service owner legacy).
Proof.
  unfold discoverLeaves, leaf_records. rewrite <-foldl_bind. simpl. by rewrite !foldl_fmap.
Qed.

(** The discovery with its shared state is the fold of the reference walk, and
    leaves the ancestry as it found it; fuel [33 - depth] is enough. *)
Lemma discoverService_records fuel view component inventory service owner legacy above depth :
  service ∉ above → depth ≤ kMaximumServiceDepth → kMaximumServiceDepth < fuel + depth →
  discoverService fuel view component inventory service owner legacy above depth =
  Some (foldl (addInventoryRecord component) inventory
          (service_records fuel view service owner legacy above depth), above).
Proof.
  revert inventory service owner legacy above depth.
  induction fuel as [|fuel IH]; intros inventory service owner legacy above depth Hs Hd Hf; [lia|].
  cbn [discoverService service_records]. rewrite discoverLeaves_records, foldl_app.
  set (leaves := foldl _ inventory _). set (anc := {[service]} ∪ above).
  set (sub name := let record := serviceRecord view service owner legacy anc depth name in
         record :: descend (λ child, service_records fuel view child (rec_path record)
                                       (legacy_path record) anc (depth + 1)) record).
  rewrite (foldM_foldl _ (λ (state : ComponentInventory * gset Service) name,
      if String.eqb name "this" then state
      else (foldl (addInventoryRecord component) state.1 (sub name), state.2))
    (λ state, state.2 = anc)); [| |done].
  - simpl. f_equal. assert (Hfold : ∀ names inv,
      foldl (λ (state : ComponentInventory * gset Service) name,
          if String.eqb name "this" then state
          else (foldl (addInventoryRecord component) state.1 (sub name), state.2))
        (inv, anc) names =
      (foldl (addInventoryRecord component) inv (filter (.≠ "this") names ≫= sub), anc)).
    { induction names as [|name names IHn]; intros inv; [done|]. cbn [foldl].
      rewrite filter_cons. destruct (String.eqb_spec name "this") as [->|Hne].
      - rewrite decide_False by (intros H; by apply H). apply IHn.
      - rewrite decide_True by done. rewrite IHn. csimpl. by rewrite foldl_app. }
    rewrite Hfold. simpl. f_equal. unfold anc. apply set_eq. set_solver.
  - intros [inv anc'] name _ Hanc. simpl in Hanc. subst anc'.
    destruct (String.eqb_spec name "this") as [->|Hne]; [done|]. split; [|done].
    unfold sub, descend.
    cbn [fst snd foldl serviceRecord rec_service discovery_error rec_path legacy_path].
    destruct (getService view service name) as [child|] eqn:Hchild; [|done].
    destruct (str_empty (child_error (Some child) anc depth)) eqn:Herr; [|done].
    apply str_empty_spec, child_error_spec in Herr as (c & [= <-] & ? & ?).
    by rewrite IH by (done || lia).
Qed.

Lemma service_records_own fuel view service owner legacy above depth record :
  record ∈ service_records (S fuel) view service owner legacy above depth ↔
  record ∈ own_records view service owner legacy above depth ∨
  ∃ name child, name ∈ getProviderNames view service ∧ name ≠ "this" ∧
    getService view service name = Some child ∧ child ∉ {[service]} ∪ above ∧
    depth < kMaximumServiceDepth ∧
    record ∈ service_records fuel view child (resourcePath owner kind_service name)
      (appendDiagnosticSegment legacy name) ({[service]} ∪ above) (depth + 1).
Proof.
  cbn [service_records]. unfold own_records. rewrite !elem_of_app, list_elem_of_bind, list_elem_of_fmap.
  setoid_rewrite list_elem_of_filter. split.
  - intros [?|(name & Hr & Hne & Hname)]; [by left; left|].
    apply elem_of_cons in Hr as [->|Hr]; [left; right; naive_solver|]. right.
    revert Hr. case_descend; [by intros ?%elem_of_nil|].
    intros Hr. by exists name, child.
  - intros [[?|(name & -> & Hne & Hname)]|(name & child & Hname & Hne & Hchild & Hnew & Hd & Hr)].
    + by left.
    + right. exists name. split; [left|done].
    + right. exists name. split; [|done]. apply elem_of_cons. right. by erewrite descend_child.
Qed.

(** The reference walk lists what is offered at the end of the walks. *)
Lemma elem_of_service_records fuel view service owner legacy above depth record :
  depth ≤ kMaximumServiceDepth → kMaximumServiceDepth < fuel + depth →
  record ∈ service_records fuel view service owner legacy above depth ↔
  ∃ names above' service', ServiceWalk view above service depth names above' service' ∧
    record ∈ own_records view service' (walk_path owner names) (walk_legacy legacy names) above'
      (depth + length names).
Proof.
  intros Hd Hf. split.
  - revert service owner legacy above depth Hd Hf.
    induction fuel as [|fuel IH]; intros service owner legacy above depth Hd Hf; [lia|].
    rewrite service_records_own.
    intros [Hr|(name & child & ? & ? & ? & ? & ? & Hr)].
    + exists [], above, service. split; [constructor|]. by rewrite Nat.add_0_r.
    + apply IH in Hr as (names & above' & service' & Hwalk & Hr); [|lia..].
      exists (name :: names), above', service'. split; [by eapply walk_child|].
      simpl in *. by rewrite <-Nat.add_assoc in Hr.
  - intros (names & above' & service' & Hwalk & Hr). revert fuel owner legacy Hd Hf Hr.
    induction Hwalk as [|above service depth name names child above' service' ???? Hlt Hwalk IH];
      intros fuel owner legacy Hd Hf Hr; (destruct fuel as [|fuel]; [lia|]);
      apply service_records_own.
    + left. by rewrite Nat.add_0_r in Hr.
    + right. exists name, child. split_and!; try done. apply IH; [lia..|].
      simpl in Hr. by rewrite <-Nat.add_assoc.
Qed.

(** What a run of [addInventoryRecord] leaves behind. *)
Lemma add_records_lookup component records inventory path :
  resources (foldl (addInventoryRecord component) inventory records) !! path =
  match resources inventory !! path with
  | Some record => Some record
  | None => List.find (λ record, String.eqb (rec_path record) path) records
  end.
Proof.
  revert inventory. induction records as [|record records IH]; intros inventory; csimpl.
  { by destruct (resources inventory !! path). }
  rewrite IH. unfold addInventoryRecord.
  destruct (resources inventory !! rec_path record) as [old|] eqn:Hold; csimpl.
  - destruct (resources inventory !! path) eqn:Hpath; [done|].
    destruct (String.eqb_spec (rec_path record) path); [congruence|done].
  - destruct (String.eqb_spec (rec_path record) path) as [<-|Hne].
    + by rewrite lookup_insert_eq, Hold.
    + by rewrite lookup_insert_ne by done.
Qed.

Lemma add_records_dom component records inventory path :
  is_Some (resources (foldl (addInventoryRecord component) inventory records) !! path) ↔
  is_Some (resources inventory !! path) ∨ path ∈ rec_path <$> records.
Proof.
  revert inventory. induction records as [|record records IH]; intros inventory; csimpl.
  { rewrite elem_of_nil. naive_solver. }
  rewrite IH, elem_of_cons. unfold addInventoryRecord.
  destruct (resources inventory !! rec_path record) as [old|] eqn:Hold; csimpl.
  - split; [naive_solver|]. intros [?|[->|?]]; [by left| |by right]. left. by rewrite Hold.
  - destruct (decide (path = rec_path record)) as [->|Hne].
    + rewrite lookup_insert_eq, Hold. naive_solver.
    + rewrite lookup_insert_ne by done. naive_solver.
Qed.
End discovery.

(** ** Lemmas: canonical resource paths *)

Lemma concat_snoc (l : list string) (x : string) :
  String.concat "/" (l ++ [x]) =
  match l with [] => x | _ => String.concat "/" l +:+ "/" +:+ x end.
Proof.
  induction l as [|y l IH]; [done|].
  destruct l as [|z l]; [done|].
  change ((y :: z :: l) ++ [x]) with (y :: (z :: l) ++ [x]).
  change (String.concat "/" (y :: z :: l)) with (y +:+ "/" +:+ String.concat "/" (z :: l)).
  change (String.concat "/" (y :: (z :: l) ++ [x])) with
    (y +:+ "/" +:+ String.concat "/" ((z :: l) ++ [x])).
  by rewrite IH, !str_app_assoc.
Qed.

Lemma canonicalPath_snoc names name :
  canonicalPath (names ++ [name]) =
  match names with
  | [] => escapeNodeIdSegment name
  | _ => appendNodeSegment (canonicalPath names) name
  end.
Proof. unfold canonicalPath. rewrite fmap_app. csimpl. rewrite concat_snoc. by destruct names. Qed.

Lemma category_escaped kind : escapeNodeIdSegment (resourceCategory kind) = resourceCategory kind.
Proof. by destruct kind. Qed.

Lemma category_nonempty kind : resourceCategory kind ≠ "".
Proof. by destruct kind. Qed.

#[global] Instance resourceCategory_inj : Inj (=) (=) resourceCategory.
Proof. intros [] []; done. Qed.

Lemma resourcePath_canonical names kind name :
  resourcePath (canonicalPath names) kind name =
  canonicalPath (names ++ [resourceCategory kind; name]).
Proof.
  change (names ++ [resourceCategory kind; name]) with
    (names ++ [resourceCategory kind] ++ [name]).
  rewrite app_assoc, canonicalPath_snoc. unfold resourcePath.
  destruct (names ++ [resourceCategory kind]) eqn:Hn; [by destruct names|]. rewrite <-Hn.
  f_equal. rewrite canonicalPath_snoc.
  destruct names as [|n names].
  - by rewrite category_escaped.
  - rewrite (proj2 (str_empty_false _)) by (by apply canonicalPath_nonempty).
    unfold appendNodeSegment. rewrite category_escaped; cbn [negb]; rewrite str_app_assoc; done.
Qed.

Lemma walk_segments_snoc names name :
  walk_segments (names ++ [name]) = walk_segments names ++ ["services"; name].
Proof. unfold walk_segments. by rewrite bind_app. Qed.

Lemma walk_path_canonical names : walk_path "" names = canonicalPath (walk_segments names).
Proof.
  induction names as [|name names IH] using rev_ind; [done|].
  unfold walk_path in *. rewrite foldl_app. cbn [foldl]. rewrite IH.
  by rewrite resourcePath_canonical, walk_segments_snoc.
Qed.

Lemma walk_path_app owner names1 names2 :
  walk_path owner (names1 ++ names2) = walk_path (walk_path owner names1) names2.
Proof. apply foldl_app. Qed.

Lemma walk_segments_length names : length (walk_segments names) = 2 * length names.
Proof. unfold walk_segments. induction names as [|n names IH]; csimpl; lia. Qed.

Lemma walk_segments_nonempty names : Forall (.≠ "") names → Forall (.≠ "") (walk_segments names).
Proof. unfold walk_segments. induction 1; csimpl; repeat constructor; auto. Qed.

Lemma resource_segments_nonempty names kind name :
  Forall (.≠ "") names → name ≠ "" → Forall (.≠ "") (resource_segments_of names kind name).
Proof.
  intros ??. unfold resource_segments_of. apply Forall_app. split; [by apply walk_segments_nonempty|].
  repeat constructor; auto using category_nonempty.
Qed.

Lemma resource_segments_inj names1 kind1 name1 names2 kind2 name2 :
  resource_segments_of names1 kind1 name1 = resource_segments_of names2 kind2 name2 →
  names1 = names2 ∧ kind1 = kind2 ∧ name1 = name2.
Proof.
  unfold resource_segments_of, walk_segments. revert names2.
  induction names1 as [|n1 names1 IH]; intros [|n2 names2] Heq; csimpl in *.
  - injection Heq as Hk ->. by apply (inj resourceCategory) in Hk as ->.
  - injection Heq as _ _ Heq. apply (f_equal length) in Heq. rewrite length_app in Heq. simpl in Heq. lia.
  - injection Heq as _ _ Heq. apply (f_equal length) in Heq. rewrite length_app in Heq. simpl in Heq. lia.
  - injection Heq as -> Heq. apply IH in Heq as (-> & -> & ->). done.
Qed.

Lemma pathDepth_app s t : pathDepth (s +:+ t) = pathDepth s + pathDepth t.
Proof. induction s as [|c s IH]; [done|]. rewrite str_app_cons. cbn [pathDepth]. rewrite IH. lia. Qed.

Lemma pathDepth_no_slash s : str_contains "/" s = false → pathDepth s = 0.
Proof.
  rewrite str_contains_false. induction s as [|c s IH]; [done|]. simpl.
  intros [Hc ?]%andb_true_iff. apply negb_true_iff in Hc. by rewrite Hc, IH.
Qed.

Lemma pathDepth_append path name : pathDepth (appendNodeSegment path name) = S (pathDepth path).
Proof.
  unfold appendNodeSegment. rewrite !pathDepth_app.
  rewrite (pathDepth_no_slash (escapeNodeIdSegment name)) by apply escapeNodeIdSegment_no_slash.
  simpl. lia.
Qed.

Lemma pathDepth_canonical names : pathDepth (canonicalPath names) = length names - 1.
Proof.
  induction names as [|name names IH] using rev_ind; [done|].
  rewrite canonicalPath_snoc, length_app. destruct names as [|n names].
  - by rewrite pathDepth_no_slash by apply escapeNodeIdSegment_no_slash.
  - rewrite pathDepth_append, IH. simpl. lia.
Qed.

(** ** Lemmas: what is offered *)

Section offered.
Context {Service Operation Property Attribute Port : Type}.
Context `{EqDecision Service} `{!Countable Service}.
Notation ServiceView := (ServiceView Service Operation Property Attribute Port).
Notation ResourceRecord := (ResourceRecord Service).
Notation ComponentInventory := (ComponentInventory Service).
Implicit Types (view : ServiceView) (service : Service) (inventory : ComponentInventory)
  (record : ResourceRecord) (above : gset Service).

Lemma elem_of_own_records view service owner legacy above depth record :
  record ∈ own_records view service owner legacy above depth ↔
  ∃ kind name, name ∈ listed_names view service kind ∧
    ((kind ≠ kind_service ∧ record = leafRecord view service owner legacy kind name) ∨
     (kind = kind_service ∧ name ≠ "this" ∧
      record = serviceRecord view service owner legacy ({[service]} ∪ above) depth name)).
Proof.
  unfold own_records, leaf_records.
  rewrite elem_of_app, list_elem_of_bind, list_elem_of_fmap. setoid_rewrite list_elem_of_filter.
  setoid_rewrite list_elem_of_fmap. split.
  - intros [(kind & (name & -> & Hname) & Hkind)|(name & -> & Hne & Hname)].
    + exists kind, name. split; [done|]. left. split; [|done]. intros ->. set_solver.
    + exists kind_service, name. split; [done|]. by right.
  - intros (kind & name & Hname & [[Hkind ->]|(-> & Hne & ->)]).
    + left. exists kind. split; [by exists name|]. destruct kind; set_solver.
    + right. by exists name.
Qed.

Lemma own_record_fields view service names legacy above depth record :
  record ∈ own_records view service (walk_path "" names) legacy above depth →
  rec_name record ∈ listed_names view service (rec_kind record) ∧
  (rec_kind record = kind_service → rec_name record ≠ "this") ∧
  rec_owner record = Some service ∧
  owner_path record = walk_path "" names ∧
  rec_path record = canonicalPath (resource_segments_of names (rec_kind record) (rec_name record)).
Proof.
  rewrite elem_of_own_records.
  intros (kind & name & Hname & [[Hkind ->]|(-> & Hne & ->)]); split_and!; try done; simpl;
    by rewrite walk_path_canonical, resourcePath_canonical.
Qed.

Lemma listed_nonempty view service kind name :
  distinct_names view → name ∈ listed_names view service kind → name ≠ "".
Proof. intros Hv Hname. destruct (Hv service kind) as [_ Hall]. by eapply Forall_forall in Hall. Qed.

Lemma listed_NoDup view service kind :
  distinct_names view → NoDup (listed_names view service kind).
Proof. intros Hv. by destruct (Hv service kind). Qed.

Lemma walk_nonempty view above service depth names above' service' :
  distinct_names view → ServiceWalk view above service depth names above' service' →
  Forall (.≠ "") names.
Proof.
  intros Hv. induction 1; constructor; [|done].
  by apply (listed_nonempty view service kind_service).
Qed.

Lemma walk_depth view above service depth names above' service' :
  depth ≤ kMaximumServiceDepth →
  ServiceWalk view above service depth names above' service' →
  depth + length names ≤ kMaximumServiceDepth.
Proof. intros Hd. induction 1; simpl in *; [lia|]. unfold kMaximumServiceDepth in *. lia. Qed.

Lemma walk_snoc view above service depth names above' service' name child :
  ServiceWalk view above service depth names above' service' →
  name ∈ getProviderNames view service' → name ≠ "this" →
  getService view service' name = Some child → child ∉ {[service']} ∪ above' →
  depth + length names < kMaximumServiceDepth →
  ServiceWalk view above service depth (names ++ [name]) ({[service']} ∪ above') child.
Proof.
  induction 1 as [|above service depth n names c above' service' ????? Hwalk IH];
    intros Hname Hne Hchild Hnew Hd.
  - simpl in *. eapply walk_child; [done..|lia|constructor].
  - simpl in *. eapply walk_child; [done..|]. apply IH; try done. lia.
Qed.

(** The paths of a walk below the service that [pre] leads to. *)
Lemma record_path fuel view service pre legacy above depth record :
  distinct_names view →
  depth ≤ kMaximumServiceDepth → kMaximumServiceDepth < fuel + depth →
  record ∈ service_records fuel view service (walk_path "" pre) legacy above depth →
  ∃ names kind name, Forall (.≠ "") names ∧ name ≠ "" ∧
    rec_path record = canonicalPath (walk_segments pre ++ resource_segments_of names kind name).
Proof.
  intros Hv Hd Hf. rewrite elem_of_service_records by done.
  intros (names & above' & service' & Hwalk & Hr). rewrite <-walk_path_app in Hr.
  apply own_record_fields in Hr as (Hname & _ & _ & _ & Hpath).
  exists names, (rec_kind record), (rec_name record). split_and!.
  - by eapply walk_nonempty.
  - by eapply listed_nonempty.
  - rewrite Hpath. unfold resource_segments_of, walk_segments.
    by rewrite bind_app, <-app_assoc.
Qed.

Lemma canonical_segments_inj pre l1 l2 :
  Forall (.≠ "") pre → l1 ≠ [] → l2 ≠ [] → Forall (.≠ "") l1 → Forall (.≠ "") l2 →
  canonicalPath (walk_segments pre ++ l1) = canonicalPath (walk_segments pre ++ l2) → l1 = l2.
Proof.
  intros Hpre ???? Heq. apply (app_inv_head (walk_segments pre)), canonicalPath_inj; try done.
  1,2: by intros [? ?]%app_nil.
  all: apply Forall_app; auto using walk_segments_nonempty.
Qed.

Lemma pair_nonempty kind name : name ≠ "" → Forall (.≠ "") [resourceCategory kind; name].
Proof. intros ?. repeat constructor; auto using category_nonempty. Qed.

Lemma resource_segments_below names kind name :
  resource_segments_of names kind name ≠ [].
Proof. unfold resource_segments_of. by intros [? ?]%app_nil. Qed.
Lemma leaf_records_NoDup view service pre legacy :
  distinct_names view → Forall (.≠ "") pre →
  NoDup (rec_path <$> leaf_records view service (walk_path "" pre) legacy).
Proof.
  intros Hv Hpre. unfold leaf_records. rewrite fmap_list_bind.
  assert (Hinj : ∀ kind1 kind2 name1 name2,
    name1 ∈ listed_names view service kind1 → name2 ∈ listed_names view service kind2 →
    resourcePath (walk_path "" pre) kind1 name1 = resourcePath (walk_path "" pre) kind2 name2 →
    kind1 = kind2 ∧ name1 = name2).
  { intros kind1 kind2 name1 name2 Hn1 Hn2. rewrite walk_path_canonical, !resourcePath_canonical.
    intros Heq. apply canonical_segments_inj in Heq;
      [|by eauto using listed_nonempty, pair_nonempty..].
    injection Heq as Hk ->. by apply (inj resourceCategory) in Hk. }
  apply NoDup_bind.
  - intros kind1 kind2 path _ _. rewrite <-!list_fmap_compose, !list_elem_of_fmap.
    intros (name1 & -> & ?) (name2 & Heq & ?). by apply Hinj in Heq as [-> _].
  - intros kind _. rewrite <-list_fmap_compose. apply NoDup_fmap_2_strong; [|by apply listed_NoDup].
    intros name1 name2 ?? Heq. by apply Hinj in Heq as [??].
  - repeat constructor; set_solver.
Qed.

(** What a listed provider adds to the walk: its own record and what is below. *)
Definition provider_records (fuel : nat) view service owner legacy above (depth : nat)
    (name : string) : list ResourceRecord :=
  let record := serviceRecord view service owner legacy ({[service]} ∪ above) depth name in
  record :: descend (λ child, service_records fuel view child (rec_path record)
                                (legacy_path record) ({[service]} ∪ above) (depth + 1)) record.

Lemma provider_record_below fuel view service pre legacy above depth name record :
  distinct_names view → depth ≤ kMaximumServiceDepth → kMaximumServiceDepth < S fuel + depth →
  record ∈ tail (provider_records fuel view service (walk_path "" pre) legacy above depth name) →
  ∃ rest, rest ≠ [] ∧ Forall (.≠ "") rest ∧
    rec_path record = canonicalPath (walk_segments pre ++ "services" :: name :: rest).
Proof.
  intros Hv Hd Hf. cbn [provider_records tail].
  case_descend; [by intros ?%elem_of_nil|].
  cbn [serviceRecord rec_path legacy_path].
  change (resourcePath (walk_path "" pre) kind_service name) with
    (walk_path (walk_path "" pre) [name]). rewrite <-walk_path_app.
  intros (names & kind & n & ? & ? & ->)%record_path; [|done|lia..].
  exists (resource_segments_of names kind n). split_and!.
  - apply resource_segments_below.
  - by apply resource_segments_nonempty.
  - by rewrite walk_segments_snoc, <-app_assoc.
Qed.

Lemma provider_record_path fuel view service pre legacy above depth name path :
  distinct_names view → depth ≤ kMaximumServiceDepth → kMaximumServiceDepth < S fuel + depth →
  path ∈ rec_path <$> provider_records fuel view service (walk_path "" pre) legacy above depth name →
  ∃ rest, Forall (.≠ "") rest ∧
    path = canonicalPath (walk_segments pre ++ "services" :: name :: rest).
Proof.
  intros Hv Hd Hf (record & -> & [->|Hr]%elem_of_cons)%list_elem_of_fmap.
  - exists []. split; [constructor|]. simpl. by rewrite walk_path_canonical, resourcePath_canonical.
  - destruct (provider_record_below fuel view service pre legacy above depth name record)
      as (rest & _ & ? & ?); eauto.
Qed.

Lemma provider_nonempty view service name :
  distinct_names view → name ∈ filter (.≠ "this") (getProviderNames view service) → name ≠ "".
Proof.
  intros Hv [_ Hname]%list_elem_of_filter. by apply (listed_nonempty view service kind_service).
Qed.

(** Two resources of the same component never share a path. *)
Lemma service_records_NoDup fuel view service pre legacy above depth :
  distinct_names view → Forall (.≠ "") pre →
  depth ≤ kMaximumServiceDepth → kMaximumServiceDepth < fuel + depth →
  NoDup (rec_path <$> service_records fuel view service (walk_path "" pre) legacy above depth).
Proof.
  intros Hv. revert service pre legacy above depth.
  induction fuel as [|fuel IH]; intros service pre legacy above depth Hpre Hd Hf; [lia|].
  cbn [service_records].
  change (λ name, _ :: _) with
    (provider_records fuel view service (walk_path "" pre) legacy above depth).
  rewrite fmap_app, fmap_list_bind. apply NoDup_app. split_and!.
  - by apply leaf_records_NoDup.
  - intros path (r & -> & Hr)%list_elem_of_fmap (name & Hpath & Hname)%list_elem_of_bind.
    apply provider_nonempty in Hname; [|done].
    apply provider_record_path in Hpath as (rest & ? & Heq); [|done..].
    unfold leaf_records in Hr. apply list_elem_of_bind in Hr as (kind & Hr & Hkind).
    apply list_elem_of_fmap in Hr as (n & -> & Hn). simpl in Heq.
    rewrite walk_path_canonical, resourcePath_canonical in Heq.
    apply canonical_segments_inj in Heq; [|by eauto using listed_nonempty, pair_nonempty..|].
    + injection Heq as Hk _. apply (inj resourceCategory _ kind_service) in Hk as ->. set_solver.
    + repeat constructor; auto.
  - apply NoDup_bind; [| |apply NoDup_filter, (listed_NoDup view service kind_service Hv)].
    + intros n1 n2 path ?%provider_nonempty ?%provider_nonempty
        (rest1 & ? & ->)%provider_record_path (rest2 & ? & Heq)%provider_record_path; try done.
      apply canonical_segments_inj in Heq; [by injection Heq|done|done|done|..];
        repeat constructor; auto.
    + intros name Hname%provider_nonempty; [|done]. cbn [provider_records fmap list_fmap].
      apply NoDup_cons. split.
      * intros (r & Heq & Hr)%list_elem_of_fmap.
        apply (provider_record_below fuel) in Hr as (rest & Hrest & ? & Hr); [|done..].
        rewrite Hr in Heq. simpl in Heq. rewrite walk_path_canonical, resourcePath_canonical in Heq.
        apply canonical_segments_inj in Heq; [|done..|by apply pair_nonempty|repeat constructor; auto].
        injection Heq as Heq. by destruct Hrest.
      * case_descend; [constructor|].
        cbn [serviceRecord rec_path legacy_path].
        change (resourcePath (walk_path "" pre) kind_service name) with
          (walk_path (walk_path "" pre) [name]). rewrite <-walk_path_app.
        apply IH; [|lia..]. apply Forall_app. auto.
Qed.
End offered.

(** ** Lemmas: the inventory *)

Section contents.
Context {Service Operation Property Attribute Port : Type}.
Context `{EqDecision Service} `{!Countable Service}.
Notation ServiceView := (ServiceView Service Operation Property Attribute Port).
Notation ResourceRecord := (ResourceRecord Service).
Notation ComponentInventory := (ComponentInventory Service).
Implicit Types (view : ServiceView) (service root : Service) (inventory : ComponentInventory)
  (record : ResourceRecord) (above : gset Service).

(** Every record of the component in the order of its discovery. *)
Definition component_records view root : list ResourceRecord :=
  service_records (S kMaximumServiceDepth) view root "" "" ∅ 0.

Lemma resources_empty path : resources (empty_inventory (Service := Service)) !! path = None.
Proof. apply lookup_empty. Qed.

Lemma discoverComponent_fold view component root :
  discoverComponent view component (Some root) =
  let inventory := foldl (addInventoryRecord component) empty_inventory
                     (component_records view root) in
  {| resources := resources inventory;
     fatal_diagnostics := sort_unique (fatal_diagnostics inventory) |}.
Proof.
  unfold discoverComponent, component_records.
  by rewrite discoverService_records by (set_solver || unfold kMaximumServiceDepth; lia).
Qed.

Lemma elem_of_component_records view root record :
  record ∈ component_records view root ↔ offered view root record.
Proof.
  unfold component_records, offered.
  rewrite (elem_of_service_records (S kMaximumServiceDepth) view root "" "")
    by (unfold kMaximumServiceDepth; lia). done.
Qed.

Lemma find_path (records : list ResourceRecord) path :
  match List.find (λ record, String.eqb (rec_path record) path) records with
  | Some record => record ∈ records ∧ rec_path record = path
  | None => path ∉ rec_path <$> records
  end.
Proof.
  induction records as [|record records IH]; csimpl; [apply not_elem_of_nil|].
  destruct (String.eqb_spec (rec_path record) path) as [<-|Hne]; [set_solver|].
  destruct (List.find _ records); set_solver.
Qed.

Lemma find_path_NoDup (records : list ResourceRecord) record :
  NoDup (rec_path <$> records) → record ∈ records →
  List.find (λ r, String.eqb (rec_path r) (rec_path record)) records = Some record.
Proof.
  induction records as [|r records IH]; csimpl; [by intros _ ?%elem_of_nil|].
  intros [Hr Hnd]%NoDup_cons [->|Hin]%elem_of_cons; [by rewrite String.eqb_refl|].
  destruct (String.eqb_spec (rec_path r) (rec_path record)) as [Heq|]; [|by apply IH].
  destruct Hr. rewrite Heq. by apply list_elem_of_fmap_2.
Qed.

(** A path is in the inventory when it is offered, with a record that is offered
    at that path. *)
Lemma inventory_lookup_sound view component root path record :
  resources (discoverComponent view component (Some root)) !! path = Some record →
  offered view root record ∧ rec_path record = path.
Proof.
  rewrite discoverComponent_fold. cbn [resources]. rewrite add_records_lookup, resources_empty.
  intros Hfind. pose proof (find_path (component_records view root) path) as Hspec.
  rewrite Hfind, elem_of_component_records in Hspec. done.
Qed.

Lemma inventory_dom view component root path :
  path ∈ dom (resources (discoverComponent view component (Some root))) ↔
  ∃ record, offered view root record ∧ rec_path record = path.
Proof.
  rewrite discoverComponent_fold, elem_of_dom. cbn [resources].
  rewrite add_records_dom, resources_empty, list_elem_of_fmap.
  setoid_rewrite elem_of_component_records. split.
  - intros [[? [=]]|(r & -> & ?)]. by exists r.
  - intros (r & ? & <-). right. by exists r.
Qed.

(** Duplicates are exactly what is fatal. *)
Lemma add_records_fatal component records inventory :
  ∃ extra, fatal_diagnostics (foldl (addInventoryRecord component) inventory records) =
    fatal_diagnostics inventory ++ extra ∧
  (extra = [] ↔ NoDup (rec_path <$> records) ∧
     ∀ path, path ∈ rec_path <$> records → resources inventory !! path = None).
Proof.
  revert inventory. induction records as [|record records IH]; intros inventory; csimpl.
  { exists []. rewrite app_nil_r. split; [done|]. split; [|done]. intros _.
    split; [constructor|]. by intros ? ?%elem_of_nil. }
  destruct (IH (addInventoryRecord component inventory record)) as (extra & -> & Hextra).
  unfold addInventoryRecord in *.
  destruct (resources inventory !! rec_path record) as [old|] eqn:Hold;
    cbn [fatal_diagnostics resources] in *.
  - eexists. rewrite <-app_assoc. split; [done|]. split; [done|].
    intros [_ Hnone]. rewrite Hnone in Hold by set_solver. done.
  - exists extra. split; [done|]. rewrite Hextra, NoDup_cons. clear -Hold. split.
    + intros [Hnd Hnone]. split_and!; [|done|].
      * intros Hin. specialize (Hnone _ Hin). by rewrite lookup_insert_eq in Hnone.
      * intros path [->|Hin]%elem_of_cons; [done|].
        specialize (Hnone _ Hin). by apply lookup_insert_None in Hnone as [? _].
    + intros [[Hnot Hnd] Hnone]. split; [done|]. intros path Hin.
      apply lookup_insert_None. split; [apply Hnone; set_solver|]. congruence.
Qed.

Lemma no_fatal_NoDup view component root :
  fatal_diagnostics (discoverComponent view component (Some root)) = [] ↔
  NoDup (rec_path <$> component_records view root).
Proof.
  rewrite discoverComponent_fold. cbn [fatal_diagnostics].
  destruct (add_records_fatal component (component_records view root) empty_inventory)
    as (extra & -> & Hextra). cbn [empty_inventory fatal_diagnostics app] in *.
  rewrite sort_unique_nil_iff, Hextra. split; [by intros [? _]|]. intros ?. split; [done|].
  intros. apply resources_empty.
Qed.

Lemma inventory_lookup view component root path record :
  fatal_diagnostics (discoverComponent view component (Some root)) = [] →
  resources (discoverComponent view component (Some root)) !! path = Some record ↔
  offered view root record ∧ rec_path record = path.
Proof.
  intros Hnd%no_fatal_NoDup. split; [apply inventory_lookup_sound|]. intros [Hr <-].
  rewrite discoverComponent_fold. cbn [resources]. rewrite add_records_lookup, resources_empty.
  apply find_path_NoDup; [done|]. by apply elem_of_component_records.
Qed.

Lemma distinct_no_fatal view component root :
  distinct_names view → fatal_diagnostics (discoverComponent view component (Some root)) = [].
Proof.
  intros Hv. apply no_fatal_NoDup.
  apply (service_records_NoDup _ view root []); [done|constructor|unfold kMaximumServiceDepth; lia..].
Qed.

Lemma offered_fields view root record :
  offered view root record →
  ∃ names above service, ServiceWalk view ∅ root 0 names above service ∧
    length names ≤ kMaximumServiceDepth ∧
    rec_name record ∈ listed_names view service (rec_kind record) ∧
    (rec_kind record = kind_service → rec_name record ≠ "this") ∧
    rec_owner record = Some service ∧ owner_path record = walk_path "" names ∧
    rec_path record = canonicalPath (resource_segments_of names (rec_kind record) (rec_name record)).
Proof.
  intros (names & above & service & Hwalk & Hr).
  apply own_record_fields in Hr as (? & ? & ? & ? & ?). exists names, above, service. split_and!; try done.
  apply walk_depth in Hwalk; unfold kMaximumServiceDepth in *; lia.
Qed.
End contents.

(** ** Lemmas: ancestors *)

Lemma splitPath_walk names :
  splitPath (walk_path "" names) =
  match names with [] => [""] | _ => escapeNodeIdSegment <$> walk_segments names end.
Proof.
  rewrite walk_path_canonical. destruct names as [|name names]; [done|].
  by rewrite splitPath_canonicalPath.
Qed.

Lemma walk_ancestors_cons name names :
  walk_ancestors (name :: names) =
  walk_path "" [name] :: ((λ n, walk_path "" (name :: take n names)) <$> seq 1 (length names)).
Proof.
  unfold walk_ancestors. cbn [length seq]. csimpl. f_equal. rewrite <-(fmap_S_seq 1), <-list_fmap_compose. done.
Qed.

Lemma elem_of_walk_ancestors names path :
  path ∈ walk_ancestors names ↔
  ∃ pre rest, pre ≠ [] ∧ names = pre ++ rest ∧ path = walk_path "" pre.
Proof.
  unfold walk_ancestors. rewrite list_elem_of_fmap. setoid_rewrite elem_of_seq. split.
  - intros (n & -> & Hn). exists (take n names), (drop n names). rewrite take_drop.
    split_and!; [|done..]. intros Hnil%(f_equal length). rewrite length_take in Hnil. simpl in Hnil. lia.
  - intros (pre & rest & Hpre & -> & ->). exists (length pre). rewrite take_app_length, length_app.
    split; [done|]. destruct pre; simpl in *; [done|lia].
Qed.

Lemma walk_path_snoc names name :
  walk_path "" (names ++ [name]) = resourcePath (walk_path "" names) kind_service name.
Proof. apply walk_path_app. Qed.

Lemma walk_path_empty names : str_empty (walk_path "" names) = match names with [] => true | _ => false end.
Proof.
  rewrite walk_path_canonical. destruct names as [|name names]; [done|].
  apply str_empty_false, canonicalPath_nonempty. done.
Qed.

(** [owner_path.substr(0, begin)] once the services [pre] have been read. *)
Definition begun_path (pre : list string) : string :=
  match pre with [] => "" | _ => walk_path "" pre +:+ "/" end.

Lemma ancestorsLoop_walk pre names effective path :
  path ∈ ancestorsLoop (begun_path pre) (escapeNodeIdSegment <$> walk_segments names) effective ↔
  path ∈ effective ∨
  ∃ n rest, n ≠ [] ∧ names = n ++ rest ∧ path = walk_path "" (pre ++ n).
Proof.
  revert pre effective. induction names as [|name names IH]; intros pre effective.
  { simpl. split; [by left|]. intros [?|(n & rest & ? & [-> ->]%symmetry%app_nil & _)]; done. }
  change (walk_segments (name :: names)) with ("services" :: name :: walk_segments names).
  cbn [fmap list_fmap ancestorsLoop].
  change (escapeNodeIdSegment "services") with "services". rewrite String.eqb_refl. cbn [negb].
  assert (Hanc : begun_path pre +:+ "services" +:+ "/" +:+ escapeNodeIdSegment name =
                 walk_path "" (pre ++ [name])).
  { rewrite walk_path_snoc. unfold resourcePath. rewrite walk_path_empty. unfold begun_path.
    destruct pre; [done|]. cbn [negb]. unfold appendNodeSegment. by rewrite !str_app_assoc. }
  rewrite Hanc.
  assert (walk_path "" (pre ++ [name]) +:+ "/" = begun_path (pre ++ [name])) as ->.
  { unfold begun_path. by destruct pre. }
  rewrite IH, elem_of_union, elem_of_singleton. split.
  - intros [[->|?]|(n & rest & ? & -> & ->)].
    + right. by exists [name], names.
    + by left.
    + right. exists (name :: n), rest. by rewrite <-app_assoc.
  - intros [?|(n & rest & Hn & Heq & ->)]; [by left; right|].
    destruct n as [|n1 n]; [done|]. injection Heq as <- ->.
    destruct n as [|n2 n]; [left; by left|]. right. exists (n2 :: n), rest.
    by rewrite <-app_assoc.
Qed.

Lemma addServiceAncestors_walk names effective path :
  path ∈ addServiceAncestors (walk_path "" names) effective ↔
  path ∈ effective ∨ path ∈ walk_ancestors names.
Proof.
  unfold addServiceAncestors. rewrite splitPath_walk, elem_of_walk_ancestors.
  destruct names as [|name names].
  - simpl. split; [by left|]. intros [?|(pre & rest & ? & [-> ->]%symmetry%app_nil & _)]; done.
  - apply (ancestorsLoop_walk []).
Qed.

(** ** Lemmas: plans *)

Section plans.
Context {Service Operation Property Attribute Port : Type}.
Context `{EqDecision Service} `{!Countable Service}.
Notation ServiceView := (ServiceView Service Operation Property Attribute Port).
Notation ResourceRecord := (ResourceRecord Service).
Notation ComponentInventory := (ComponentInventory Service).
Implicit Types (view : ServiceView) (service root : Service) (inventory : ComponentInventory)
  (record : ResourceRecord) (above : gset Service).

Lemma walk_app_inv view above service depth names1 names2 above2 service2 :
  ServiceWalk view above service depth (names1 ++ names2) above2 service2 →
  ∃ above1 service1, ServiceWalk view above service depth names1 above1 service1 ∧
    ServiceWalk view above1 service1 (depth + length names1) names2 above2 service2.
Proof.
  revert above service depth. induction names1 as [|n names1 IH]; intros above service depth Hwalk.
  { exists above, service. split; [constructor|]. by rewrite Nat.add_0_r. }
  inversion Hwalk; subst. destruct (IH _ _ _ ltac:(eassumption)) as (above1 & service1 & ? & Hrest).
  exists above1, service1. split; [by eapply walk_child|].
  by rewrite <-Nat.add_assoc in Hrest.
Qed.

(** A service on a walk is offered, without an error, by the one before it. *)
Lemma walk_offered view root names name above service :
  ServiceWalk view ∅ root 0 (names ++ [name]) above service →
  ∃ record, offered view root record ∧ rec_path record = walk_path "" (names ++ [name]) ∧
    rec_kind record = kind_service ∧ discovery_error record = "" ∧
    rec_service record = Some service ∧ owner_path record = walk_path "" names ∧
    ∃ above1 service1, ServiceWalk view ∅ root 0 names above1 service1 ∧
      rec_owner record = Some service1.
Proof.
  intros (above1 & service1 & Hwalk & Hlast)%walk_app_inv.
  inversion Hlast as [|? ? child ? ? Hname Hthis Hchild Hnew Hdepth Hend]; subst.
  inversion Hend; subst.
  exists (serviceRecord view service1 (walk_path "" names) (walk_legacy "" names)
            ({[service1]} ∪ above1) (length names) name). split_and!; try done.
  - exists names, above1, service1. split; [done|]. apply elem_of_own_records.
    exists kind_service, name. split; [done|]. by right.
  - simpl. by rewrite walk_path_snoc.
  - simpl. apply child_error_spec. by exists service.
  - by exists above1, service1.
Qed.

(** Every effective resource is in the inventory, and a service it belongs to is
    effective too. *)
Definition closed_in inventory (effective : gset string) : Prop :=
  ∀ path, path ∈ effective → ∃ record, resources inventory !! path = Some record ∧
    (owner_path record = "" ∨
     owner_path record ∈ effective ∧
     ∃ owner, resources inventory !! owner_path record = Some owner ∧
       rec_kind owner = kind_service ∧ discovery_error owner = "" ∧
       rec_service owner = rec_owner record).

(** The resource at [path] is in the inventory, and the services on the way to
    its owner are effective. *)
Definition covered view root inventory (effective : gset string) (path : string) : Prop :=
  ∃ record names above service,
    resources inventory !! path = Some record ∧ rec_owner record = Some service ∧
    ServiceWalk view ∅ root 0 names above service ∧ owner_path record = walk_path "" names ∧
    ∀ path', path' ∈ walk_ancestors names → path' ∈ effective.

Lemma closed_paths view component root (effective : gset string) :
  let inventory := discoverComponent view component (Some root) in
  fatal_diagnostics inventory = [] →
  (∀ path, path ∈ effective → covered view root inventory effective path) →
  closed_in inventory effective.
Proof.
  intros inventory Hfatal Heff path Hpath.
  destruct (Heff path Hpath) as (record & names & above & service & Hr & Hs & Hwalk & Howner & Hanc).
  exists record. split; [done|]. rewrite Howner.
  destruct (decide (names = [])) as [->|Hne]; [by left|]. right. split.
  { apply Hanc, elem_of_walk_ancestors. exists names, []. by rewrite app_nil_r. }
  destruct (exists_last Hne) as (pre & name & ->).
  apply walk_offered in Hwalk as (owner & Hoff & Hop & ? & ? & Hserv & _).
  exists owner. split; [|by rewrite Hserv, Hs]. apply inventory_lookup; [done|]. done.
Qed.

Lemma inventory_record_walk view component root path record :
  resources (discoverComponent view component (Some root)) !! path = Some record →
  ∃ names above service, rec_owner record = Some service ∧
    ServiceWalk view ∅ root 0 names above service ∧ owner_path record = walk_path "" names ∧
    rec_path record = path.
Proof.
  intros [Hoff <-]%inventory_lookup_sound.
  destruct (offered_fields view root record Hoff) as (names & above & service & ? & _ & _ & _ & ? & ? & _).
  by exists names, above, service.
Qed.

Lemma mandatory_effective component inventory plan mandatory path :
  path ∈ effective_resources (foldl (addMandatory component inventory) plan mandatory) ↔
  path ∈ effective_resources plan ∨
  path ∈ dom (resources inventory) ∧ ∃ m, m ∈ mandatory ∧ path = resourcePath "" kind_operation m.1.
Proof.
  revert plan. induction mandatory as [|m mandatory IH]; intros plan; cbn [foldl].
  { split; [by left|]. intros [?|(_ & m & Hm & _)]; [done|]. by apply elem_of_nil in Hm. }
  rewrite IH. unfold addMandatory. case_bool_decide as Hdom; cbn [effective_resources].
  - rewrite elem_of_union, elem_of_singleton. split.
    + intros [[->|?]|(? & m' & ? & ?)]; [right|by left|right].
      * split; [done|]. exists m. split; [left|done].
      * split; [done|]. exists m'. by split; [right|].
    + intros [?|(? & m' & [->|?]%elem_of_cons & ->)]; [left; by right|left; by left|].
      right. split; [done|]. by exists m'.
  - split.
    + intros [?|(? & m' & ? & ?)]; [by left|right]. split; [done|]. exists m'. by split; [right|].
    + intros [?|(? & m' & [->|?]%elem_of_cons & ->)]; [by left|done|].
      right. split; [done|]. by exists m'.
Qed.

Lemma mandatory_diagnostics component inventory plan mandatory :
  plan_diagnostics (foldl (addMandatory component inventory) plan mandatory) = [] ↔
  plan_diagnostics plan = [] ∧
  ∀ m, m ∈ mandatory → resourcePath "" kind_operation m.1 ∈ dom (resources inventory).
Proof.
  revert plan. induction mandatory as [|m mandatory IH]; intros plan; cbn [foldl].
  { split; [|by intros [? _]]. intros ?. split; [done|]. by intros ? ?%elem_of_nil. }
  rewrite IH. unfold addMandatory. case_bool_decide as Hdom; cbn [plan_diagnostics].
  - split; intros [? Hm]; (split; [done|]); intros m' Hm'; [|set_solver].
    apply elem_of_cons in Hm' as [->|?]; auto.
  - split; [by intros [[_ ?]%app_nil _]|]. intros [_ Hm]. destruct Hdom. apply Hm. left.
Qed.

Lemma ancestorsLoop_union begun segments effective :
  ancestorsLoop begun segments effective = effective ∪ ancestorsLoop begun segments ∅.
Proof.
  cut (∀ n begun segments effective, length segments ≤ n →
    ancestorsLoop begun segments effective = effective ∪ ancestorsLoop begun segments ∅).
  { intros Hcut. by apply (Hcut (length segments)). }
  clear. induction n as [|n IH]; intros begun [|category [|name segments]] effective Hn;
    simpl in *; try lia; try (apply set_eq; set_solver).
  destruct (negb (String.eqb category "services")); [apply set_eq; set_solver|].
  rewrite IH by lia. rewrite (IH _ _ ({[_]} ∪ ∅)) by lia. apply set_eq. set_solver.
Qed.

Lemma elem_of_addServiceAncestors owner effective path :
  path ∈ addServiceAncestors owner effective ↔
  path ∈ effective ∨ path ∈ addServiceAncestors owner ∅.
Proof. unfold addServiceAncestors. rewrite ancestorsLoop_union. set_solver. Qed.

(** The ancestors that a selective publication adds to the matched paths. *)
Lemma selected_fold inventory paths effective path :
  path ∈ foldl (λ effective path,
           match resources inventory !! path with
           | Some record => addServiceAncestors (owner_path record) effective
           | None => effective
           end) effective paths ↔
  path ∈ effective ∨
  ∃ p record, p ∈ paths ∧ resources inventory !! p = Some record ∧
    path ∈ addServiceAncestors (owner_path record) ∅.
Proof.
  revert effective. induction paths as [|p paths IH]; intros effective; cbn [foldl].
  { split; [by left|]. intros [?|(p & r & Hp & _)]; [done|]. by apply elem_of_nil in Hp. }
  rewrite IH. setoid_rewrite elem_of_cons. destruct (resources inventory !! p) as [r|] eqn:Hr.
  - rewrite elem_of_addServiceAncestors. naive_solver.
  - naive_solver.
Qed.

(** What a plan publishes, before the mandatory operations are added. *)
Definition requested (mode : PublicationMode) inventory (selectors : list string) (path : string)
    : Prop :=
  match mode with
  | mode_full => path ∈ dom (resources inventory)
  | mode_selected =>
      path ∈ dom (resources inventory) ∧ ∃ selector, selector ∈ selectors ∧ selects selector path
  end.

Lemma plan_effective mode inventory component selectors path :
  path ∈ effective_resources (buildPublicationPlan mode inventory component selectors) ↔
  requested mode inventory selectors path ∨
  (mode = mode_selected ∧ ∃ p record, requested mode inventory selectors p ∧
     resources inventory !! p = Some record ∧ path ∈ addServiceAncestors (owner_path record) ∅) ∨
  (path ∈ dom (resources inventory) ∧
     ∃ m, m ∈ kMandatoryOperations ∧ path = resourcePath "" kind_operation m.1).
Proof.
  unfold buildPublicationPlan. rewrite mandatory_effective, (assoc or). f_equiv.
  destruct mode; cbn [requested].
  { cbn [effective_resources]. naive_solver. }
  destruct selectors as [|selector selectors].
  { cbn [effective_resources]. setoid_rewrite elem_of_nil. set_solver. }
  unfold selectResources. cbn [effective_resources]. rewrite selected_fold.
  setoid_rewrite elem_of_ordered_elems. setoid_rewrite match_paths_spec.
  setoid_rewrite elem_of_ordered_elems. naive_solver.
Qed.

Lemma plan_accepted mode inventory component selectors :
  plan_diagnostics (buildPublicationPlan mode inventory component selectors) = [] ↔
  fatal_diagnostics inventory = [] ∧
  (mode = mode_selected → selectors ≠ [] ∧
     ∀ issue, issue_selector issue ∈ selectors →
       ¬ selector_issue_spec (ordered_elems (dom (resources inventory))) issue) ∧
  ∀ m, m ∈ kMandatoryOperations →
    resourcePath "" kind_operation m.1 ∈ dom (resources inventory).
Proof.
  unfold buildPublicationPlan. rewrite mandatory_diagnostics, (assoc and). f_equiv.
  destruct mode; [cbn [plan_diagnostics]; naive_solver|].
  destruct selectors as [|selector selectors].
  { cbn [plan_diagnostics]. split; [by intros [_ ?]%app_nil|naive_solver]. }
  unfold selectResources. cbn [plan_diagnostics]. split.
  - intros [Hfatal Hissues]%app_nil. split; [done|]. intros _. split; [done|].
    intros issue Hsel Hspec. apply fmap_nil_inv in Hissues.
    assert (Hin : issue ∈ match_issues (matchPublicationSelectors (selector :: selectors)
      (ordered_elems (dom (resources inventory))))) by (by apply match_issues_spec).
    rewrite Hissues in Hin. by apply elem_of_nil in Hin.
  - intros [-> Hissues]. destruct (Hissues eq_refl) as [_ Hno]. cbn [app].
    destruct (match_issues _) as [|issue issues] eqn:Hm; [done|].
    assert (Hin : issue ∈ match_issues (matchPublicationSelectors (selector :: selectors)
      (ordered_elems (dom (resources inventory))))) by (rewrite Hm; left).
    apply match_issues_spec in Hin as [Hsel Hspec]. by destruct (Hno issue Hsel).
Qed.

Lemma covered_root view component root effective path record :
  resources (discoverComponent view component (Some root)) !! path = Some record →
  owner_path record = "" →
  covered view root (discoverComponent view component (Some root)) effective path.
Proof.
  intros Hr Hroot. pose proof Hr as (names & above & service & ? & ? & Howner & _)%inventory_record_walk.
  exists record, names, above, service. split_and!; try done. intros path' Hpath'.
  assert (names = []) as ->; [|by apply elem_of_nil in Hpath'].
  apply str_empty_spec in Hroot. rewrite Howner, walk_path_empty in Hroot. by destruct names.
Qed.

Lemma covered_ancestor view component root effective names above service path :
  fatal_diagnostics (discoverComponent view component (Some root)) = [] →
  ServiceWalk view ∅ root 0 names above service →
  (∀ path', path' ∈ walk_ancestors names → path' ∈ effective) → path ∈ walk_ancestors names →
  covered view root (discoverComponent view component (Some root)) effective path.
Proof.
  intros Hfatal Hwalk Hanc (pre & rest & Hpre & -> & ->)%elem_of_walk_ancestors.
  destruct (exists_last Hpre) as (pre' & name & ->).
  apply walk_app_inv in Hwalk as (above1 & service1 & Hwalk & _).
  apply walk_offered in Hwalk as (owner & Hoff & Hop & _ & _ & _ & Hoo & above2 & service2 & ? & ?).
  exists owner, pre', above2, service2. split_and!; try done.
  - by apply inventory_lookup.
  - intros path' (pre1 & rest1 & ? & -> & ->)%elem_of_walk_ancestors.
    apply Hanc, elem_of_walk_ancestors. exists pre1, (rest1 ++ [name] ++ rest).
    by rewrite <-!app_assoc.
Qed.

Lemma covered_requested view component root mode selectors path :
  let inventory := discoverComponent view component (Some root) in
  requested mode inventory selectors path →
  covered view root inventory
    (effective_resources (buildPublicationPlan mode inventory component selectors)) path.
Proof.
  intros inventory Hreq.
  assert (path ∈ dom (resources inventory)) as [record Hr]%elem_of_dom
    by (destruct mode; by apply Hreq).
  pose proof Hr as (names & above & service & ? & Hwalk & Howner & _)%inventory_record_walk.
  exists record, names, above, service. split_and!; try done.
  intros path' Hpath'. apply plan_effective. destruct mode.
  - left. apply elem_of_walk_ancestors in Hpath' as (pre & rest & Hpre & -> & ->).
    destruct (exists_last Hpre) as (pre' & name & ->).
    apply walk_app_inv in Hwalk as (a1 & s1 & Hwalk & _).
    apply walk_offered in Hwalk as (owner & Hoff & <- & _). apply inventory_dom. by exists owner.
  - right. left. split; [done|]. exists path, record. split_and!; [done..|].
    rewrite Howner. apply addServiceAncestors_walk. by right.
Qed.

Lemma root_resource view component root kind name record :
  resources (discoverComponent view component (Some root)) !! resourcePath "" kind name = Some record →
  owner_path record = "".
Proof.
  intros [Hoff Hpath]%inventory_lookup_sound.
  apply offered_fields in Hoff as (names & _ & _ & _ & _ & _ & _ & _ & Howner & Hrec).
  rewrite Hrec in Hpath. apply (f_equal pathDepth) in Hpath.
  change (resourcePath "" kind name) with (resourcePath (canonicalPath []) kind name) in Hpath.
  rewrite resourcePath_canonical, !pathDepth_canonical in Hpath.
  unfold resource_segments_of in Hpath. rewrite length_app, walk_segments_length in Hpath.
  simpl in Hpath. rewrite Howner. by destruct names; [|simpl in Hpath; lia].
Qed.

Lemma plan_closed_in view component root mode selectors :
  let inventory := discoverComponent view component (Some root) in
  fatal_diagnostics inventory = [] →
  closed_in inventory
    (effective_resources (buildPublicationPlan mode inventory component selectors)).
Proof.
  intros inventory Hfatal. apply closed_paths; [done|]. fold inventory. intros path Hpath.
  apply plan_effective in Hpath as [Hreq|[(-> & p & record & Hreq & Hr & Hp)|(Hdom & m & Hm & ->)]].
  - by apply covered_requested.
  - pose proof (covered_requested view component root mode_selected selectors p Hreq)
      as (r & names & above & service & Hr' & _ & Hwalk & Howner & Hanc).
    assert (r = record) as -> by exact (inj Some _ _ (eq_trans (eq_sym Hr') Hr)).
    rewrite Howner in Hp.
    apply addServiceAncestors_walk in Hp as [[]%not_elem_of_empty|Hp].
    by eapply covered_ancestor.
  - apply elem_of_dom in Hdom as [record Hr]. apply (covered_root _ component _ _ _ record); [done|].
    by eapply root_resource.
Qed.
End plans.

(** ** Properties *)

Section properties.
Context {Service Operation Property Attribute Port : Type}.
Context `{EqDecision Service} `{!Countable Service}.
Notation ServiceView := (ServiceView Service Operation Property Attribute Port).
Notation ResourceRecord := (ResourceRecord Service).
Notation ComponentInventory := (ComponentInventory Service).
Implicit Types (view : ServiceView) (root : Service) (inventory : ComponentInventory)
  (record : ResourceRecord).

(** C14: the discovery terminates on every service graph, cyclic ones included:
    33 nested calls are enough.  It leaves the shared ancestry empty again, and
    its effect on the inventory is that of adding, one after the other, the
    records of a reference walk without shared state, which are exactly the
    records that some repetition-free path of at most 32 services offers. *)
Theorem discovery_equivalent view component inventory root :
  discoverService (S kMaximumServiceDepth) view component inventory root "" "" ∅ 0 =
    Some (foldl (addInventoryRecord component) inventory (component_records view root), ∅) ∧
  ∀ record, record ∈ component_records view root ↔ offered view root record.
Proof.
  split; [|intros; apply elem_of_component_records].
  apply discoverService_records; [set_solver|unfold kMaximumServiceDepth; lia..].
Qed.

(** A path is in the inventory exactly when it is the canonical path of a
    listed name of some kind at the end of a walk from the root service. *)
Theorem inventory_paths view component root path :
  path ∈ dom (resources (discoverComponent view component (Some root))) ↔
  ∃ names above service kind name,
    ServiceWalk view ∅ root 0 names above service ∧ name ∈ listed_names view service kind ∧
    (kind = kind_service → name ≠ "this") ∧
    path = canonicalPath (resource_segments_of names kind name).
Proof.
  rewrite inventory_dom. split.
  - intros (record & Hoff & <-). apply offered_fields in Hoff
      as (names & above & service & ? & _ & ? & ? & _ & _ & ?). by eexists _, _, _, _, _.
  - intros (names & above & service & kind & name & Hwalk & Hname & Hthis & ->).
    set (record := if decide (kind = kind_service)
      then serviceRecord view service (walk_path "" names) (walk_legacy "" names)
             ({[service]} ∪ above) (length names) name
      else leafRecord view service (walk_path "" names) (walk_legacy "" names) kind name).
    exists record. split.
    + exists names, above, service. split; [done|]. apply elem_of_own_records.
      exists kind, name. split; [done|]. unfold record. case_decide; [right|left]; auto.
    + unfold record. case_decide; subst; simpl; by rewrite walk_path_canonical, resourcePath_canonical.
Qed.

(** The size of what a component publishes is bounded in depth however its
    services refer to each other: no resource path has more than 66 segments. *)
Theorem inventory_depth_bounded view component root path
    (Hpath : path ∈ dom (resources (discoverComponent view component (Some root)))) :
  pathDepth path ≤ 2 * kMaximumServiceDepth + 1.
Proof.
  apply inventory_dom in Hpath as (record & Hoff & <-).
  apply offered_fields in Hoff as (names & _ & _ & _ & Hlen & _ & _ & _ & _ & ->).
  rewrite pathDepth_canonical. unfold resource_segments_of.
  rewrite length_app, walk_segments_length. unfold kMaximumServiceDepth in *. simpl. lia.
Qed.

(** When RTT lists every name of a kind once and none is empty, canonical
    paths are unambiguous: the inventory has no fatal diagnostic, and holds at a
    path exactly the one record that is offered there. *)
Theorem inventory_unambiguous view component root (Hview : distinct_names view) :
  fatal_diagnostics (discoverComponent view component (Some root)) = [] ∧
  ∀ path record,
    resources (discoverComponent view component (Some root)) !! path = Some record ↔
    offered view root record ∧ rec_path record = path.
Proof.
  pose proof (distinct_no_fatal view component root Hview) as Hfatal.
  split; [done|]. intros path record. by apply inventory_lookup.
Qed.

(** Without fatal diagnostics a publication plan is closed: every effective
    resource is in the inventory, and the service it belongs to is effective as
    well, was discovered without an error, and is the one that owns it. *)
Theorem plan_closed view component root mode selectors
    (Hfatal : fatal_diagnostics (discoverComponent view component (Some root)) = []) :
  closed_in (discoverComponent view component (Some root))
    (effective_resources (buildPublicationPlan mode
       (discoverComponent view component (Some root)) component selectors)).
Proof. by apply plan_closed_in. Qed.

(** A full plan publishes the whole inventory.  A selective plan publishes
    what a selector matches, the services above a match, and the mandatory proxy
    operations, and nothing else.  A plan is free of diagnostics exactly when the
    inventory is, the mandatory operations are there, and (in a selective plan)
    there is a selector and none of them is malformed or unmatched. *)
Theorem plan_resources mode inventory component selectors :
  let plan := buildPublicationPlan mode inventory component selectors in
  (∀ path, path ∈ effective_resources plan ↔
     requested mode inventory selectors path ∨
     (mode = mode_selected ∧ ∃ p record, requested mode inventory selectors p ∧
        resources inventory !! p = Some record ∧ path ∈ addServiceAncestors (owner_path record) ∅) ∨
     (path ∈ dom (resources inventory) ∧
        ∃ m, m ∈ kMandatoryOperations ∧ path = resourcePath "" kind_operation m.1)) ∧
  (plan_diagnostics plan = [] ↔
     fatal_diagnostics inventory = [] ∧
     (mode = mode_selected → selectors ≠ [] ∧
        ∀ issue, issue_selector issue ∈ selectors →
          ¬ selector_issue_spec (ordered_elems (dom (resources inventory))) issue) ∧
     ∀ m, m ∈ kMandatoryOperations →
       resourcePath "" kind_operation m.1 ∈ dom (resources inventory)).
Proof. split; [intros path; apply plan_effective|apply plan_accepted]. Qed.
End properties.

(** ** Witnesses

    A root service 0 with the mandatory operations and a provider [sub] (1) that
    refers back to the root. *)
Definition example_view : ServiceView nat unit unit unit unit :=
  {| getOperationNames s := if s =? 0 then kMandatoryOperations.*1 else ["echo"];
     getPropertyNames s := if s =? 0 then [] else ["gain"];
     getAttributeNames _ := [];
     getPortNames _ := [];
     getProviderNames s := if s =? 0 then ["this"; "sub"] else ["loop"];
     getOperation _ _ := Some tt;
     getProperty _ _ := Some tt;
     getValue _ _ := None;
     getPort _ _ := None;
     getService s name := if s =? 0 then Some 1 else Some 0;
     service_doc _ := "" |}.

Lemma example_view_distinct : distinct_names example_view.
Proof.
  intros s kind. unfold listed_names, example_view.
  destruct kind; simpl; try destruct (s =? 0); split;
    try (apply bool_decide_unpack; vm_compute; exact I); repeat constructor; set_solver.
Qed.

Example example_inventory_paths :
  ordered_elems (dom (resources (discoverComponent example_view "c" (Some 0)))) =
  ["operations/getTargetState"; "operations/getTaskState"; "operations/inException";
   "operations/inFatalError"; "operations/inRunTimeError"; "operations/isActive";
   "operations/isConfigured"; "operations/isRunning"; "services/sub";
   "services/sub/operations/echo"; "services/sub/properties/gain"; "services/sub/services/loop"].
Proof. vm_compute. reflexivity. Qed.

Lemma inventory_depth_bounded_witness :
  pathDepth "services/sub/services/loop" ≤ 65.
Proof.
  refine (inventory_depth_bounded example_view "c" 0 "services/sub/services/loop" _).
  apply elem_of_dom. vm_compute. eexists. reflexivity.
Defined.

Lemma inventory_unambiguous_witness :
  fatal_diagnostics (discoverComponent example_view "c" (Some 0)) = [] ∧
  ∀ path record,
    resources (discoverComponent example_view "c" (Some 0)) !! path = Some record ↔
    offered example_view 0 record ∧ rec_path record = path.
Proof. exact (inventory_unambiguous example_view "c" 0 example_view_distinct). Defined.

Lemma plan_closed_witness :
  closed_in (discoverComponent example_view "c" (Some 0))
    (effective_resources (buildPublicationPlan mode_selected
       (discoverComponent example_view "c" (Some 0)) "c" ["services/*/properties/**"])).
Proof.
  refine (plan_closed example_view "c" 0 mode_selected ["services/*/properties/**"] _).
  vm_compute. reflexivity.
Defined.
