(* ===== verification/AddressSpace.v ===== *)
(** The native address space as src/src/object_model.cpp uses it: the node
    management, view and attribute services of open62541pp, the laws of theirs
    that the publication relies on, and the checks the code makes of their
    results. *)

From S2P Require Import Prelude Native TypeProtocol OperationDispatcher.

(** ** Attributes *)

(** The texts carry the locale "en-US". *)
Record ObjectAttributes := {
  oa_displayName : string;
  oa_description : option string;
}.

(** [AccessLevel] is a bit mask. *)
Definition CurrentRead : N := 1.
Definition CurrentWrite : N := 2.

Record VariableAttributes (NodeId Variant : Type) := {
  va_displayName : string;
  va_description : option string;
  va_value : option Variant;
  va_dataType : NodeId;
  va_valueRank : ValueRank;
  va_arrayDimensions : option (list N);
  va_accessLevel : N;
  va_userAccessLevel : N;
}.
Arguments va_displayName {_ _} _.
Arguments va_description {_ _} _.
Arguments va_value {_ _} _.
Arguments va_dataType {_ _} _.
Arguments va_valueRank {_ _} _.
Arguments va_arrayDimensions {_ _} _.
Arguments va_accessLevel {_ _} _.
Arguments va_userAccessLevel {_ _} _.

Record MethodAttributes := {
  ma_displayName : string;
  ma_description : option string;
  ma_executable : bool;
  ma_userExecutable : bool;
}.

Inductive ReferenceTypeId := ref_Organizes | ref_HasComponent | ref_HasProperty | ref_other (type : N).

#[global] Instance ReferenceTypeId_eq_dec : EqDecision ReferenceTypeId.
Proof. solve_decision. Defined.

Inductive NodeClass := class_Object | class_Variable | class_Method | class_other.

#[global] Instance NodeClass_eq_dec : EqDecision NodeClass.
Proof. solve_decision. Defined.

(** The fields of a [ReferenceDescription] the code reads. *)
Record ReferenceDescription (NodeId : Type) := {
  rd_nodeId : NodeId;
  rd_isLocal : bool;
  rd_nodeClass : NodeClass;
  rd_browseNamespace : N;
  rd_browseName : string;
  rd_referenceTypeId : ReferenceTypeId;
}.
Arguments rd_nodeId {_} _.
Arguments rd_isLocal {_} _.
Arguments rd_nodeClass {_} _.
Arguments rd_browseNamespace {_} _.
Arguments rd_browseName {_} _.
Arguments rd_referenceTypeId {_} _.

(** An [Argument] read back from the server; the value rank as its number. *)
Record NativeArgument (NodeId : Type) := {
  na_name : string;
  na_dataType : NodeId;
  na_valueRank : Z;
  na_arrayDimensions : list N;
}.
Arguments na_name {_} _.
Arguments na_dataType {_} _.
Arguments na_valueRank {_} _.
Arguments na_arrayDimensions {_} _.

Definition rank_number (rank : ValueRank) : Z :=
  match rank with vr_Scalar => -1 | vr_OneDimension => 1 end.

(** The arguments of a schema are built without array dimensions. *)
Definition native_argument {NodeId} (argument : Argument NodeId) : NativeArgument NodeId :=
  {| na_name := arg_name argument;
     na_dataType := arg_dataType argument;
     na_valueRank := rank_number (arg_valueRank argument);
     na_arrayDimensions := [] |}.

(** ** Services *)

(** The browses of the code: forward with subtypes, of [HasProperty] to
    variables or of the hierarchical references. *)
Inductive BrowseKind := browse_properties | browse_hierarchical.

(** [NS] is the native server.  A service returns a [Result] or a status code;
    [setVariableNodeValueBackend] returns nothing and may throw. *)
Class NodeServices (NS NodeId StatusCode Variant Backend Callback : Type) := {
  status_isBad : StatusCode → bool;
  status_text : StatusCode → string; (* [StatusCode::name()] *)
  status_nodeIdExists : StatusCode → bool; (* [== UA_STATUSCODE_BADNODEIDEXISTS] *)
  status_nodeIdUnknown : StatusCode → bool; (* [== UA_STATUSCODE_BADNODEIDUNKNOWN] *)
  objects_folder : NodeId;
  argument_type : NodeId; (* [DataTypeId::Argument] *)
  srv_addObject : NodeId → NodeId → string → ObjectAttributes → ReferenceTypeId →
    NS → NS * (StatusCode + NodeId);
  srv_addVariable : NodeId → NodeId → string → VariableAttributes NodeId Variant →
    ReferenceTypeId → NS → NS * (StatusCode + NodeId);
  srv_addMethod : NodeId → NodeId → string → Callback → list (Argument NodeId) →
    list (Argument NodeId) → MethodAttributes → ReferenceTypeId →
    NS → NS * (StatusCode + NodeId);
  srv_setBackend : NodeId → Backend → IO NS unit;
  srv_browseAll : NodeId → BrowseKind → NS → StatusCode + list (ReferenceDescription NodeId);
  srv_deleteNode : NodeId → NS → NS * StatusCode;
  srv_deleteReference : NodeId → NodeId → ReferenceTypeId → NS → NS * StatusCode;
  srv_readDataType : NodeId → NS → StatusCode + NodeId;
  srv_readValueRank : NodeId → NS → StatusCode + Z;
  srv_readValue : NodeId → NS → StatusCode + Variant;
  srv_writeValue : NodeId → Variant → NS → NS * StatusCode;
  (** [Variant::to<std::vector<Argument>>], which throws a [std::exception]. *)
  variant_to_arguments : Variant → string + list (NativeArgument NodeId);
  (** A bound on the number of nodes, for the walks over references. *)
  srv_nodeCount : NS → nat;
}.

(** What the code relies on: the nodes and the hierarchical references between
    them. *)
Class AddressSpaces (NS NodeId : Type) `{Countable NodeId} := {
  node_ids : NS → gset NodeId;
  hierarchical : NS → NodeId → NodeId → ReferenceTypeId → Prop;
}.

(** [target] can be reached from [source] along hierarchical references. *)
Definition descends_to `{AddressSpaces NS NodeId} (ns : NS) : NodeId → NodeId → Prop :=
  rtc (λ source target, ∃ type, hierarchical ns source target type).

Definition isMethodArgument {NodeId} (reference : ReferenceDescription NodeId) : bool :=
  bool_decide (rd_nodeClass reference = class_Variable) &&
  (rd_browseNamespace reference =? 0)%N &&
  (String.eqb (rd_browseName reference) "InputArguments" ||
   String.eqb (rd_browseName reference) "OutputArguments").

(** The documented behaviour of the services.  Adding a node fails without an
    effect or adds a node that was not there; a method comes with argument nodes,
    which a browse of its properties lists.  Deleting a node removes at most what
    hangs below it. *)
Class NodeServiceLaws (NS NodeId StatusCode Variant Backend Callback : Type)
    `{Countable NodeId} `{!NodeServices NS NodeId StatusCode Variant Backend Callback}
    `{!AddressSpaces NS NodeId} := {
  nodeIdUnknown_bad code : status_nodeIdUnknown code = true → status_isBad code = true;
  nodeCount_bound ns : size (node_ids ns) ≤ srv_nodeCount ns;
  hierarchical_target ns source target type :
    hierarchical ns source target type → target ∈ node_ids ns;
  addObject_spec parent id name attributes type ns :
    match srv_addObject parent id name attributes type ns with
    | (ns', inl _) => node_ids ns' = node_ids ns
    | (ns', inr _) => id ∉ node_ids ns ∧ node_ids ns' = {[id]} ∪ node_ids ns
    end;
  addVariable_spec parent id name attributes type ns :
    match srv_addVariable parent id name attributes type ns with
    | (ns', inl _) => node_ids ns' = node_ids ns
    | (ns', inr _) => id ∉ node_ids ns ∧ node_ids ns' = {[id]} ∪ node_ids ns
    end;
  addMethod_spec parent id name callback inputs outputs attributes type ns :
    match srv_addMethod parent id name callback inputs outputs attributes type ns with
    | (ns', inl _) => node_ids ns' = node_ids ns
    | (ns', inr _) => id ∉ node_ids ns ∧ ∃ arguments,
        arguments ## node_ids ns ∧ id ∉ arguments ∧
        node_ids ns' = {[id]} ∪ arguments ∪ node_ids ns ∧
        ∀ references, srv_browseAll id browse_properties ns' = inr references →
          ∀ target, target ∈ arguments ↔ ∃ reference, reference ∈ references ∧
            rd_nodeId reference = target ∧ rd_isLocal reference = true ∧
            isMethodArgument reference = true
    end;
  setBackend_nodes id backend ns : node_ids (srv_setBackend id backend ns).1 = node_ids ns;
  writeValue_nodes id value ns : node_ids (srv_writeValue id value ns).1 = node_ids ns;
  browse_hierarchical_spec id ns references :
    srv_browseAll id browse_hierarchical ns = inr references →
    ∀ target type, hierarchical ns id target type ↔ ∃ reference, reference ∈ references ∧
      rd_nodeId reference = target ∧ rd_referenceTypeId reference = type ∧
      rd_isLocal reference = true;
  deleteReference_spec source target type ns ns' code :
    srv_deleteReference source target type ns = (ns', code) →
    node_ids ns' = node_ids ns ∧
    (∀ s t ty, hierarchical ns' s t ty → hierarchical ns s t ty) ∧
    (status_isBad code = false → ¬ hierarchical ns' source target type);
  deleteNode_spec id ns ns' code :
    srv_deleteNode id ns = (ns', code) →
    node_ids ns' ⊆ node_ids ns ∧
    (∀ s t ty, hierarchical ns' s t ty → hierarchical ns s t ty) ∧
    (∀ node, node ∈ node_ids ns → node ∉ node_ids ns' → descends_to ns id node) ∧
    (status_isBad code = false ∨ status_nodeIdUnknown code = true → id ∉ node_ids ns');
}.

(** ** Results of the services *)

Section results.
Context {NS NodeId StatusCode Variant Backend Callback : Type}.
Context `{!NodeServices NS NodeId StatusCode Variant Backend Callback}.

Definition sharedRootEnsured (result : StatusCode + NodeId) (path : string) (error : option string)
    : bool * option string :=
  match result with
  | inr _ => (true, error)
  | inl code =>
      if status_nodeIdExists code then (true, error)
      else (false,
            assignError error ("failed to ensure OPC UA root node '" +:+ path +:+ "': " +:+
                               status_text code))
  end.

Definition readOnlyAccess : N := CurrentRead.
Definition readWriteAccess : N := N.lor CurrentRead CurrentWrite.
End results.
