(* ===== verification/ConcreteServer.v ===== *)
(** A concrete native server, which shows that the laws of AddressSpace.v can
    hold; the witnesses of the publication run on it. *)

From S2P Require Import Prelude Native Concrete TypeProtocol OperationDispatcher AddressSpace.

#[global] Instance DataTypeId_countable : Countable DataTypeId.
Proof.
  refine (inj_countable'
    (λ d, match d with
          | dt_Boolean => 0 | dt_SByte => 1 | dt_Byte => 2 | dt_Int16 => 3 | dt_UInt16 => 4
          | dt_Int32 => 5 | dt_UInt32 => 6 | dt_Int64 => 7 | dt_UInt64 => 8 | dt_Float => 9
          | dt_Double => 10 | dt_String => 11 | dt_BaseDataType => 12 | dt_Structure => 13
          | dt_Enumeration => 14 | dt_Union => 15
          end)
    (λ n, match n with
          | 0 => dt_Boolean | 1 => dt_SByte | 2 => dt_Byte | 3 => dt_Int16 | 4 => dt_UInt16
          | 5 => dt_Int32 | 6 => dt_UInt32 | 7 => dt_Int64 | 8 => dt_UInt64 | 9 => dt_Float
          | 10 => dt_Double | 11 => dt_String | 12 => dt_BaseDataType | 13 => dt_Structure
          | 14 => dt_Enumeration | _ => dt_Union
          end) _).
  by intros [].
Defined.
#[global] Instance c_NodeId_eq_dec : EqDecision c_NodeId := _.
#[global] Instance c_NodeId_countable : Countable c_NodeId := _.

(** ** Nodes and references *)

Record c_Node := {
  cn_class : NodeClass;
  cn_namespace : N;
  cn_name : string;
  cn_arguments : list (NativeArgument c_NodeId); (* the value of an argument node *)
}.

Record c_Space := {
  sp_nodes : gmap c_NodeId c_Node;
  sp_references : list (c_NodeId * c_NodeId * ReferenceTypeId);
}.

Inductive c_Status := cs_Good | cs_NodeIdExists | cs_NodeIdUnknown | cs_ParentInvalid.

Notation c_Value := (c_Variant (list (NativeArgument c_NodeId))).

Definition c_objects : c_NodeId := (0%N, inr "Objects").
Definition c_argument : c_NodeId := (0%N, inr "Argument").

Definition c_empty_space : c_Space :=
  {| sp_nodes := {[c_objects := {| cn_class := class_Object; cn_namespace := 0; cn_name := "Objects";
                                   cn_arguments := [] |}]};
     sp_references := [] |}.

Definition c_add (parent id : c_NodeId) (node : c_Node) (type : ReferenceTypeId) (space : c_Space)
    : c_Space * (c_Status + c_NodeId) :=
  if bool_decide (id ∈ dom (sp_nodes space)) then (space, inl cs_NodeIdExists)
  else if bool_decide (parent ∉ dom (sp_nodes space)) then (space, inl cs_ParentInvalid)
  else ({| sp_nodes := <[id := node]> (sp_nodes space);
           sp_references := (parent, id, type) :: sp_references space |}, inr id).

Definition c_argument_id (id : c_NodeId) (name : string) : c_NodeId :=
  match id with
  | (n, inr path) => (n, inr (path +:+ "#" +:+ name))
  | (n, inl _) => (n, inr name)
  end.

(** The argument nodes of a method: one for a list that is not empty. *)
Definition c_argument_nodes (id : c_NodeId) (inputs outputs : list (Argument c_NodeId))
    : list (c_NodeId * c_Node) :=
  let node name arguments :=
    (c_argument_id id name, {| cn_class := class_Variable; cn_namespace := 0; cn_name := name;
                               cn_arguments := native_argument <$> arguments |}) in
  (if bool_decide (inputs = []) then [] else [node "InputArguments" inputs]) ++
  (if bool_decide (outputs = []) then [] else [node "OutputArguments" outputs]).

Definition c_addMethod (parent id : c_NodeId) (name : string)
    (inputs outputs : list (Argument c_NodeId)) (type : ReferenceTypeId) (space : c_Space)
    : c_Space * (c_Status + c_NodeId) :=
  let arguments := c_argument_nodes id inputs outputs in
  if negb (forallb (λ entry, bool_decide (entry.1 ∉ dom (sp_nodes space))) arguments) ||
     existsb (λ reference, bool_decide (reference.1.1 = id)) (sp_references space)
  then (space, inl cs_NodeIdExists)
  else if bool_decide (id ∈ arguments.*1) then (space, inl cs_NodeIdExists)
  else
    match c_add parent id {| cn_class := class_Method; cn_namespace := id.1; cn_name := name;
                             cn_arguments := [] |} type space with
    | (space', inl code) => (space, inl code)
    | (space', inr id) =>
        ({| sp_nodes := list_to_map arguments ∪ sp_nodes space';
            sp_references := ((λ entry, (id, entry.1, ref_HasProperty)) <$> arguments) ++
                             sp_references space' |}, inr id)
    end.

Definition c_describe (space : c_Space) (reference : c_NodeId * c_NodeId * ReferenceTypeId)
    : option (ReferenceDescription c_NodeId) :=
  node ← sp_nodes space !! reference.1.2;
  Some {| rd_nodeId := reference.1.2; rd_isLocal := true; rd_nodeClass := cn_class node;
          rd_browseNamespace := cn_namespace node; rd_browseName := cn_name node;
          rd_referenceTypeId := reference.2 |}.

Definition c_browse (id : c_NodeId) (kind : BrowseKind) (space : c_Space)
    : c_Status + list (ReferenceDescription c_NodeId) :=
  let references := filter (λ reference, reference.1.1 = id) (sp_references space) in
  match kind with
  | browse_hierarchical => inr (omap (c_describe space) references)
  | browse_properties =>
      inr (filter (λ description, rd_nodeClass description = class_Variable)
             (omap (c_describe space) (filter (λ reference, reference.2 = ref_HasProperty) references)))
  end.

Definition c_deleteNode (id : c_NodeId) (space : c_Space) : c_Space * c_Status :=
  if bool_decide (id ∈ dom (sp_nodes space)) then
    ({| sp_nodes := delete id (sp_nodes space);
        sp_references := filter (λ reference, reference.1.1 ≠ id ∧ reference.1.2 ≠ id)
                           (sp_references space) |}, cs_Good)
  else (space, cs_NodeIdUnknown).

#[global] Instance c_NodeServices Backend Callback :
    NodeServices c_Space c_NodeId c_Status c_Value Backend Callback := {
  status_isBad code := match code with cs_Good => false | _ => true end;
  status_text code :=
    match code with
    | cs_Good => "Good" | cs_NodeIdExists => "BadNodeIdExists"
    | cs_NodeIdUnknown => "BadNodeIdUnknown" | cs_ParentInvalid => "BadParentNodeIdInvalid"
    end;
  status_nodeIdExists code := match code with cs_NodeIdExists => true | _ => false end;
  status_nodeIdUnknown code := match code with cs_NodeIdUnknown => true | _ => false end;
  objects_folder := c_objects;
  argument_type := c_argument;
  srv_addObject parent id name _ type :=
    c_add parent id {| cn_class := class_Object; cn_namespace := id.1; cn_name := name;
                       cn_arguments := [] |} type;
  srv_addVariable parent id name _ type :=
    c_add parent id {| cn_class := class_Variable; cn_namespace := id.1; cn_name := name;
                       cn_arguments := [] |} type;
  srv_addMethod parent id name _ inputs outputs _ type := c_addMethod parent id name inputs outputs type;
  srv_setBackend _ _ := mret tt;
  srv_browseAll := c_browse;
  srv_deleteNode := c_deleteNode;
  srv_deleteReference source target type space :=
    ({| sp_nodes := sp_nodes space;
        sp_references := filter (.≠ (source, target, type)) (sp_references space) |}, cs_Good);
  srv_readDataType _ _ := inr c_argument;
  srv_readValueRank _ _ := inr 1%Z;
  srv_readValue id space :=
    match sp_nodes space !! id with
    | Some node => inr (cv_structure (cn_arguments node) c_argument)
    | None => inl cs_NodeIdUnknown
    end;
  srv_writeValue _ _ space := (space, cs_Good);
  variant_to_arguments value :=
    match value with cv_structure arguments _ => inr arguments | _ => inl "BadVariantAccess" end;
  srv_nodeCount space := size (sp_nodes space);
}.

#[global] Instance c_AddressSpaces : AddressSpaces c_Space c_NodeId := {
  node_ids space := dom (sp_nodes space);
  hierarchical space source target type :=
    (source, target, type) ∈ sp_references space ∧ target ∈ dom (sp_nodes space);
}.

(** ** Laws *)

Lemma c_add_spec parent id node type space :
  match c_add parent id node type space with
  | (space', inl _) => space' = space
  | (space', inr id') => id' = id ∧ id ∉ dom (sp_nodes space) ∧
      sp_nodes space' = <[id := node]> (sp_nodes space) ∧
      sp_references space' = (parent, id, type) :: sp_references space
  end.
Proof. unfold c_add. repeat case_bool_decide; naive_solver. Qed.

Lemma c_add_nodes parent id node type space :
  match c_add parent id node type space with
  | (space', inl _) => dom (sp_nodes space') = dom (sp_nodes space)
  | (space', inr _) => id ∉ dom (sp_nodes space) ∧
      dom (sp_nodes space') = {[id]} ∪ dom (sp_nodes space)
  end.
Proof.
  pose proof (c_add_spec parent id node type space) as Hspec.
  destruct (c_add _ _ _ _ _) as [space' [code|id']]; [by rewrite Hspec|].
  destruct Hspec as (-> & ? & Hn & _). split; [done|]. by rewrite Hn, dom_insert_L.
Qed.

Lemma elem_of_c_browse_properties id space references target :
  c_browse id browse_properties space = inr references →
  (∃ reference, reference ∈ references ∧ rd_nodeId reference = target ∧
     rd_isLocal reference = true ∧ isMethodArgument reference = true) ↔
  (id, target, ref_HasProperty) ∈ sp_references space ∧
  ∃ node, sp_nodes space !! target = Some node ∧ cn_class node = class_Variable ∧
    cn_namespace node = 0%N ∧ (cn_name node = "InputArguments" ∨ cn_name node = "OutputArguments").
Proof.
  unfold c_browse. intros [= <-]. split.
  - intros (r & Hr & <- & _ & Harg). apply list_elem_of_filter in Hr as [_ Hr].
    apply list_elem_of_omap in Hr as ([[s t] ty] & Href & Hd).
    apply list_elem_of_filter in Href as [Hty Href]. apply list_elem_of_filter in Href as [Hs Href].
    simpl in Hty, Hs. subst. unfold c_describe in Hd. simpl in Hd.
    destruct (sp_nodes space !! t) as [node|] eqn:Hnode; [|done]. simplify_eq/=.
    split; [done|]. exists node. unfold isMethodArgument in Harg. simpl in Harg. split_guards.
    split_and!; [done|done|by apply N.eqb_eq|]. rename select (orb _ _ = true) into Hname.
    apply orb_true_iff in Hname as [?%String.eqb_eq|?%String.eqb_eq]; auto.
  - intros (Href & node & Hnode & Hclass & Hns & Hname).
    exists {| rd_nodeId := target; rd_isLocal := true; rd_nodeClass := cn_class node;
              rd_browseNamespace := cn_namespace node; rd_browseName := cn_name node;
              rd_referenceTypeId := ref_HasProperty |}. split_and!; try done.
    + apply list_elem_of_filter. split; [done|]. apply list_elem_of_omap.
      exists (id, target, ref_HasProperty). split.
      * apply list_elem_of_filter. split; [done|]. by apply list_elem_of_filter.
      * unfold c_describe. simpl. by rewrite Hnode.
    + unfold isMethodArgument. simpl. rewrite Hclass, Hns. by destruct Hname as [-> | ->].
Qed.

Lemma c_argument_nodes_spec id inputs outputs target node :
  (target, node) ∈ c_argument_nodes id inputs outputs →
  cn_class node = class_Variable ∧ cn_namespace node = 0%N ∧
  (cn_name node = "InputArguments" ∨ cn_name node = "OutputArguments").
Proof.
  unfold c_argument_nodes. intros [Hin|Hin]%elem_of_app;
    (case_bool_decide; [by apply elem_of_nil in Hin|]);
    apply list_elem_of_singleton in Hin; simplify_eq/=; auto.
Qed.

Lemma c_addMethod_spec parent id name inputs outputs type space :
  match c_addMethod parent id name inputs outputs type space with
  | (space', inl _) => space' = space
  | (space', inr _) => id ∉ dom (sp_nodes space) ∧
      let arguments := c_argument_nodes id inputs outputs in
      (∀ target, target ∈ arguments.*1 → target ∉ dom (sp_nodes space)) ∧ id ∉ arguments.*1 ∧
      (∃ node, cn_class node = class_Method ∧
         sp_nodes space' = list_to_map arguments ∪ <[id := node]> (sp_nodes space)) ∧
      ∀ target ty, (id, target, ty) ∈ sp_references space' ↔
        target ∈ arguments.*1 ∧ ty = ref_HasProperty
  end.
Proof.
  unfold c_addMethod. set (arguments := c_argument_nodes id inputs outputs).
  destruct (negb _ || _) eqn:Hguard; [done|]. split_guards.
  rename select (forallb _ _ = true) into Hfresh. rename select (existsb _ _ = false) into Hout.
  case_bool_decide as Hid; [done|].
  set (node := {| cn_class := class_Method; cn_namespace := _; cn_name := _; cn_arguments := _ |}).
  pose proof (c_add_spec parent id node type space) as Hadd.
  destruct (c_add parent id node type space) as [space1 [code|id']] eqn:Hc; [done|].
  destruct Hadd as (-> & Hnew & Hn & Hr). cbn [sp_nodes sp_references].
  split_and!; [done| |done|by exists node; rewrite Hn|].
  - intros target Ht. apply list_elem_of_fmap in Ht as (entry & -> & He).
    apply forallb_forall with (x := entry) in Hfresh; [by apply bool_decide_eq_true in Hfresh|].
    by apply list_elem_of_In.
  - intros target ty. rewrite elem_of_app, list_elem_of_fmap, Hr, elem_of_cons. split.
    + intros [(entry & [= -> ->] & ?)|[[= <- <- <-]|Hold]].
      * split; [|done]. by apply list_elem_of_fmap_2.
      * unfold c_add in Hc. repeat case_bool_decide; simplify_eq. set_solver.
      * rewrite <-not_true_iff_false, existsb_exists in Hout. destruct Hout.
        exists (id, target, ty). split; [by apply list_elem_of_In|]. by apply bool_decide_eq_true.
    + intros [[entry [-> ?]]%list_elem_of_fmap ->]. left. by exists entry.
Qed.

#[global] Instance c_NodeServiceLaws Backend Callback :
  NodeServiceLaws c_Space c_NodeId c_Status c_Value Backend Callback.
Proof.
  split; simpl.
  - by intros [].
  - intros space. by rewrite size_dom.
  - by intros space source target type [_ ?].
  - intros. apply c_add_nodes.
  - intros. apply c_add_nodes.
  - intros parent id name callback inputs outputs attributes type space.
    pose proof (c_addMethod_spec parent id name inputs outputs type space) as Hspec.
    destruct (c_addMethod _ _ _ _ _ _ _) as [space' [code|id']]; [by rewrite Hspec|].
    destruct Hspec as (Hnew & Hfresh & Hid & (node & Hnode & Hn) & Hrefs). split; [done|].
    set (arguments := c_argument_nodes id inputs outputs) in *.
    exists (list_to_set arguments.*1). split_and!.
    + intros t. rewrite elem_of_list_to_set. by apply Hfresh.
    + by rewrite elem_of_list_to_set.
    + rewrite Hn, dom_union_L, dom_list_to_map_L, dom_insert_L. apply set_eq. set_solver.
    + intros references Hbrowse target. rewrite elem_of_list_to_set.
      rewrite (elem_of_c_browse_properties _ _ _ target Hbrowse), Hrefs. split; [|naive_solver].
      intros Ht. split; [done|].
      assert (∃ n, (list_to_map arguments : gmap _ _) !! target = Some n) as [n Hlookup].
      { apply elem_of_dom. by rewrite dom_list_to_map_L, elem_of_list_to_set. }
      exists n. split; [by rewrite Hn; apply lookup_union_Some_l|].
      eapply c_argument_nodes_spec. by apply elem_of_list_to_map_2.
  - done.
  - done.
  - intros id space references [= <-] target type. split.
    + intros [Href [node Hnode]%elem_of_dom].
      eexists. split; [|split_and!]; [apply list_elem_of_omap; exists (id, target, type); split|..].
      * by apply list_elem_of_filter.
      * unfold c_describe. simpl. by rewrite Hnode.
      * done.
      * done.
      * done.
    + intros (r & Hr & <- & <- & _). apply list_elem_of_omap in Hr as ([[s t] ty] & Href & Hd).
      apply list_elem_of_filter in Href as [Hs Href]. simpl in Hs. subst.
      unfold c_describe in Hd. simpl in Hd.
      destruct (sp_nodes space !! t) eqn:Ht; [|done]. simplify_eq/=.
      split; [done|]. by eapply elem_of_dom_2.
  - intros source target type space space' code [= <- <-]. cbn [sp_nodes sp_references].
    split_and!; [done| |].
    + by intros s t ty [[_ ?]%list_elem_of_filter ?].
    + intros _ [[Hne _]%list_elem_of_filter _]. done.
  - intros id space space' code. unfold c_deleteNode. case_bool_decide as Hid; intros [= <- <-];
      cbn [sp_nodes sp_references].
    + rewrite dom_delete_L. split_and!; [set_solver| | |set_solver].
      * intros s t ty [[_ ?]%list_elem_of_filter ?]. set_solver.
      * intros node Hin Hout. destruct (decide (node = id)) as [->|Hne]; [apply rtc_refl|].
        destruct Hout. apply elem_of_difference. by rewrite elem_of_singleton.
    + split_and!; [done|done|done|]. by intros [|].
Qed.
