(* ===== verification/NodeSpecs.v ===== *)
(** The nodes of a component (src/src/object_model.cpp): for every kind of node
    its [NodeSpec], whose [create] adds the node to the native server and
    attaches the data source or the method callback behind it. *)

From S2P Require Import Prelude NodeId Native Concrete DataTypeRegistry TypeProtocol.
From S2P Require Import EndpointTypeRegistry ComponentState OperationDispatcher PortDataSources Inventory AddressSpace.

(** ** What RTT provides

    Properties and attributes with their data sources, the casts and texts of a
    port, the local operation behind an operation, and printed addresses. *)
Class RttResources (DS Port Property Attribute TypeInfo LocalOperation : Type) := {
  LocalOperation_eq_dec :: EqDecision LocalOperation;
  property_source : Property → option DS;
  property_description : Property → string;
  attribute_source : Attribute → option DS;
  source_isAssignable : DS → bool;
  source_typeInfo : DS → option TypeInfo;
  source_address : DS → string;
  port_isInput : Port → bool;  (* [dynamic_cast<InputPortInterface *>] *)
  port_isOutput : Port → bool; (* [dynamic_cast<OutputPortInterface *>] *)
  port_description : Port → string;
  port_keepsLastWrittenValue : Port → bool;
  port_address : Port → string;
  getLocalOperation : OperationInterfacePart TypeInfo → option LocalOperation;
}.

Inductive NodeKind := node_object | node_variable | node_method.

#[global] Instance NodeKind_eq_dec : EqDecision NodeKind.
Proof. solve_decision. Defined.

Inductive PortDirection := direction_input | direction_output.

(** [static_cast<std::int32_t>(direction)]. *)
Definition direction_number (direction : PortDirection) : Z :=
  match direction with direction_input => 0 | direction_output => 1 end.

(** ** Creating a node

    What a creator works on: the native server, the RTT heap, the component state
    behind the weak pointer, and the two out-parameters. *)
Record creation (NS W TaskContext : Type) := {
  c_native : NS;
  c_rtt : W;
  c_state : option (ComponentState TaskContext);
  c_created : bool;
  c_error : option string;
}.
Arguments c_native {_ _ _} _.
Arguments c_rtt {_ _ _} _.
Arguments c_state {_ _ _} _.
Arguments c_created {_ _ _} _.
Arguments c_error {_ _ _} _.

Section creation.
Context {NS W TaskContext : Type}.
Notation creation := (creation NS W TaskContext).

Definition on_native {A} (f : NS → NS * A) : IO creation A := λ c,
  let '(ns, result) := f (c_native c) in
  ({| c_native := ns; c_rtt := c_rtt c; c_state := c_state c;
      c_created := c_created c; c_error := c_error c |}, inr result).

Definition on_native_io {A} (f : IO NS A) : IO creation A := λ c,
  let '(ns, result) := f (c_native c) in
  ({| c_native := ns; c_rtt := c_rtt c; c_state := c_state c;
      c_created := c_created c; c_error := c_error c |}, result).

Definition on_rtt {A} (f : IO W A) : IO creation A := λ c,
  let '(w, result) := f (c_rtt c) in
  ({| c_native := c_native c; c_rtt := w; c_state := c_state c;
      c_created := c_created c; c_error := c_error c |}, result).

(** [*created = true] and [assignError(error, message)]. *)
Definition report_created : IO creation unit := io_modify (λ c,
  {| c_native := c_native c; c_rtt := c_rtt c; c_state := c_state c;
     c_created := true; c_error := c_error c |}).

Definition report_error (message : string) : IO creation unit := io_modify (λ c,
  {| c_native := c_native c; c_rtt := c_rtt c; c_state := c_state c;
     c_created := c_created c; c_error := assignError (c_error c) message |}).

Definition with_state (state : option (ComponentState TaskContext)) (c : creation) : creation :=
  {| c_native := c_native c; c_rtt := c_rtt c; c_state := state;
     c_created := c_created c; c_error := c_error c |}.

(** [ComponentLease lease(weak_state.lock())] until the end of [body], which
    learns whether the lease is valid. *)
Definition leased {A} (body : bool → IO creation A) : IO creation A := λ c,
  match c_state c with
  | None => body false c
  | Some state =>
      let '(state, lease) := ComponentLease_acquire true state in
      let '(c, result) := body (ComponentLease_bool lease) (with_state (Some state) c) in
      (with_state ((λ state, (ComponentLease_release state lease).1) <$> c_state c) c, result)
  end.
End creation.

Section specs.
Context {NS W DS Port Variant NodeId StatusCode UA_DataType DataType Wire TypeInfo : Type}.
Context {Service Property Attribute LocalOperation TaskContext : Type}.
Context `{EqDecision TypeInfo} `{!Countable TypeInfo}.
Notation TypeCodec := (TypeCodec W DS Port Variant NodeId UA_DataType).
Notation EndpointTypeRegistry := (EndpointTypeRegistry UA_DataType DataType TypeInfo TypeCodec).
Notation Operation := (OperationInterfacePart TypeInfo).
Notation ServiceView := (ServiceView Service Operation Property Attribute Port).
Notation creation := (creation NS W TaskContext).

(** What stands behind a variable: one of the three data sources; and behind a
    method: the captures of its callback. *)
Inductive Backend :=
  | backend_value (value : @GuardedValue W DS Port Variant NodeId UA_DataType)
  | backend_input (value : @InputPortValue W DS Port Variant NodeId UA_DataType DataType TypeInfo _ _)
  | backend_output (port : Port) (registry : option EndpointTypeRegistry)
      (codec : option TypeCodec) (observer : option (@PortBridge W DS Port Variant NodeId UA_DataType DataType TypeInfo _ _)).

Record MethodCallback := {
  mc_service : option Service;
  mc_name : string;
  mc_operation : option LocalOperation;
}.

Context `{NodeIds NodeId} `{!Variants Variant NodeId UA_DataType Wire}.
Context `{!NodeServices NS NodeId StatusCode Variant Backend MethodCallback}.
Context `{!RttPorts W DS Port TypeInfo}.
Context `{!RttResources DS Port Property Attribute TypeInfo LocalOperation}.
Context (empty_variant : Variant).

Record NodeSpec := {
  spec_kind : NodeKind;
  spec_path : string;
  parent_path : string;
  browse_name : string;
  spec_fingerprint : string;
  expects_input_arguments : bool;
  expects_output_arguments : bool;
  expected_input_arguments : list (Argument NodeId);
  expected_output_arguments : list (Argument NodeId);
  spec_create : N → IO creation bool;
}.

Definition componentNodeCreated (result : StatusCode + NodeId) (path : string) : IO creation bool :=
  match result with
  | inr _ => report_created;; mret true
  | inl code =>
      report_error ("failed to create OPC UA component node '" +:+ path +:+ "': " +:+
                    status_text code);;
      mret false
  end.

(** [if (!description.empty()) attributes.setDescription(...)]. *)
Definition some_description (description : string) : option string :=
  if str_empty description then None else Some description.

(** ** Objects *)

Definition addObjectNode (namespace_index : N) (parent path name description : string)
    : IO creation bool :=
  let attributes := {| oa_displayName := name; oa_description := some_description description |} in
  result ← on_native (srv_addObject (nodeid_string namespace_index parent)
    (nodeid_string namespace_index path) name attributes ref_HasComponent);
  componentNodeCreated result path.

Definition objectSpec (path parent name description : string) : NodeSpec :=
  {| spec_kind := node_object;
     spec_path := path;
     parent_path := parent;
     browse_name := name;
     spec_fingerprint := "object|" +:+ parent +:+ "|" +:+ name +:+ "|" +:+ description;
     expects_input_arguments := false;
     expects_output_arguments := false;
     expected_input_arguments := [];
     expected_output_arguments := [];
     spec_create := λ namespace_index, addObjectNode namespace_index parent path name description |}.

(** ** Variables *)

(** Read-only attributes with a value. *)
Definition static_attributes (name : string) (description : option string) (value : Variant)
    (data_type : NodeId) (rank : ValueRank) : VariableAttributes NodeId Variant :=
  {| va_displayName := name;
     va_description := description;
     va_value := Some value;
     va_dataType := data_type;
     va_valueRank := rank;
     va_arrayDimensions := match rank with vr_OneDimension => Some [0%N] | vr_Scalar => None end;
     va_accessLevel := readOnlyAccess;
     va_userAccessLevel := readOnlyAccess |}.

Definition variableSpec (path parent name fingerprint : string)
    (create : N → IO creation bool) : NodeSpec :=
  {| spec_kind := node_variable;
     spec_path := path;
     parent_path := parent;
     browse_name := name;
     spec_fingerprint := fingerprint;
     expects_input_arguments := false;
     expects_output_arguments := false;
     expected_input_arguments := [];
     expected_output_arguments := [];
     spec_create := create |}.

Definition addStaticStringVariable (namespace_index : N)
    (parent path name description value : string) (property : bool) : IO creation bool :=
  let attributes := static_attributes name (some_description description)
    (variant_scalar cpp_string value) (nodeid_datatype dt_String) vr_Scalar in
  result ← on_native (srv_addVariable (nodeid_string namespace_index parent)
    (nodeid_string namespace_index path) name attributes
    (if property then ref_HasProperty else ref_HasComponent));
  componentNodeCreated result path.

Definition staticStringSpec (path parent name description value : string) (property : bool)
    : NodeSpec :=
  variableSpec path parent name
    ("string|" +:+ parent +:+ "|" +:+ name +:+ "|" +:+ description +:+ "|" +:+ value +:+
     (if property then "|property" else "|component"))
    (λ namespace_index,
       addStaticStringVariable namespace_index parent path name description value property).

Definition portDirectionSpec (port_path : string) (direction : PortDirection) : NodeSpec :=
  let path := appendNodeSegment port_path "direction" in
  let value := direction_number direction in
  variableSpec path port_path "direction"
    ("port-direction|" +:+ port_path +:+ "|" +:+ "direction" +:+ "|" +:+ to_string_Z value)
    (λ namespace_index,
       let attributes := static_attributes "direction" (Some "RTT port direction.")
         (variant_scalar cpp_int32 value) (nodeid_datatype dt_Int32) vr_Scalar in
       result ← on_native (srv_addVariable (nodeid_string namespace_index port_path)
         (nodeid_string namespace_index path) "direction" attributes ref_HasComponent);
       componentNodeCreated result path).

(** [staticArrayPropertySpec<T>]; [stream] is [operator<<] of [T]. *)
Definition staticArrayPropertySpec (t : CppType) (stream : cpp t → string)
    (path parent name description : string) (values : list (cpp t)) (data_type : NodeId) : NodeSpec :=
  variableSpec path parent name
    (foldl (λ text value, text +:+ "|" +:+ stream value)
       ("array-property|" +:+ parent +:+ "|" +:+ name +:+ "|" +:+ description) values)
    (λ namespace_index,
       let encoded := variant_array t values in
       if negb (variant_isType encoded data_type) then
         report_error ("RTT metadata Variant type mismatch for '" +:+ path +:+ "'");; mret false
       else
         let attributes :=
           static_attributes name (Some description) encoded data_type vr_OneDimension in
         result ← on_native (srv_addVariable (nodeid_string namespace_index parent)
           (nodeid_string namespace_index path) name attributes ref_HasProperty);
         componentNodeCreated result path).

(** Attributes of a variable with a codec. *)
Definition codec_attributes (name : string) (description : option string) (value : option Variant)
    (codec : TypeCodec) (access : N) : VariableAttributes NodeId Variant :=
  {| va_displayName := name;
     va_description := description;
     va_value := value;
     va_dataType := dataTypeNodeId codec;
     va_valueRank := valueRank codec;
     va_arrayDimensions :=
       match valueRank codec with vr_OneDimension => Some [0%N] | vr_Scalar => None end;
     va_accessLevel := access;
     va_userAccessLevel := access |}.

(** [addVariable], [componentNodeCreated] and [setVariableNodeValueBackend]. *)
Definition addBackedVariable (namespace_index : N) (parent path name : string)
    (attributes : VariableAttributes NodeId Variant) (backend : Backend) : IO creation bool :=
  result ← on_native (srv_addVariable (nodeid_string namespace_index parent)
    (nodeid_string namespace_index path) name attributes ref_HasComponent);
  created ← componentNodeCreated result path;
  if negb created then mret false
  else
    on_native_io (srv_setBackend (nodeid_string namespace_index path) backend);;
    mret true.

Definition source_codec (registry : option EndpointTypeRegistry) (source : DS) : option TypeCodec :=
  match registry with
  | Some registry =>
      codec ← codecForDataSource source_typeInfo registry (Some source);
      deref_codec registry codec
  | None => None
  end.

Definition dataSourceSpec (parent name description : string) (source : DS)
    (registry : option EndpointTypeRegistry) : NodeSpec :=
  let path := appendNodeSegment parent name in
  let codec := source_codec registry source in
  let writable := source_isAssignable source in
  let refused : IO creation bool :=
    report_error ("failed to encode RTT value for OPC UA node '" +:+ path +:+ "'");; mret false in
  variableSpec path parent name
    ("rtt-value|" +:+ source_address source +:+ "|" +:+ (if writable then "rw|" else "ro|") +:+
     description)
    (λ namespace_index,
       leased (λ lease,
         match lease, codec with
         | true, Some codec =>
             encoded ← on_rtt (toVariant codec (Some source) (Some empty_variant));
             if negb encoded.1 then refused
             else
               addBackedVariable namespace_index parent path name
                 (codec_attributes name (some_description description)
                    (Some (default empty_variant encoded.2)) codec
                    (if writable then readWriteAccess else readOnlyAccess))
                 (backend_value {| source := Some source; gv_codec := Some codec;
                                   PortDataSources.writable := writable |})
         | _, _ => refused
         end)).

(** The common beginning of the two port creators: the codec of the port's type,
    or an error. *)
Definition port_codec (registry : option EndpointTypeRegistry) (port : Port) : option TypeCodec :=
  match registry with
  | Some registry => bridge_codec registry (port_typeInfo port)
  | None => None
  end.

Definition inputPortValueSpec (port_path : string) (port : Port)
    (registry : option EndpointTypeRegistry) : NodeSpec :=
  let path := appendNodeSegment port_path "value" in
  variableSpec path port_path "value" ("input-port-value|" +:+ port_address port)
    (λ namespace_index,
       leased (λ lease,
         if negb lease || bool_decide (port_typeInfo port = None) then
           report_error "RTT input port became unavailable while creating OPC UA value";; mret false
         else
           match port_codec registry port with
           | Some codec =>
               if negb (hasValue codec) then
                 report_error "RTT input port type has no OPC UA protocol";; mret false
               else
                 made ← on_rtt (PortDataSources.create port registry (Some ""));
                 match made.1 with
                 | None => report_error (default "" made.2);; mret false
                 | Some bridge =>
                     addBackedVariable namespace_index port_path path "value"
                       (codec_attributes "value" (Some "Write one sample to the RTT input port.")
                          None codec readWriteAccess)
                       (backend_input {| PortDataSources.bridge := Some bridge; last_value := None |})
                 end
           | None => report_error "RTT input port type has no OPC UA protocol";; mret false
           end)).

Definition outputPortValueSpec (port_path : string) (port : Port)
    (registry : option EndpointTypeRegistry) : NodeSpec :=
  let path := appendNodeSegment port_path "value" in
  variableSpec path port_path "value" ("port-value|" +:+ port_address port)
    (λ namespace_index,
       leased (λ lease,
         if negb lease || bool_decide (port_typeInfo port = None) then
           report_error "RTT output port became unavailable while creating OPC UA value";; mret false
         else
           match port_codec registry port with
           | Some codec =>
               if negb (hasValue codec) then
                 report_error "RTT output port type has no OPC UA protocol";; mret false
               else
                 made ← on_rtt (observe port (Some ""));
                 match made.1 with
                 | None => report_error (default "" made.2);; mret false
                 | Some observer =>
                     addBackedVariable namespace_index port_path path "value"
                       (codec_attributes "value" (Some "Current RTT output-port value.")
                          None codec readOnlyAccess)
                       (backend_output port registry (Some codec) (Some observer))
                 end
           | None => report_error "RTT output port type has no OPC UA protocol";; mret false
           end)).

(** ** Methods *)

(** The callback up to [dispatcher->invoke]: the operation to invoke, or
    [BADNOTCONNECTED]; [has_state] is whether the component state still exists. *)
Definition method_target (view : ServiceView) (callback : MethodCallback) (has_state : bool)
    : option Operation :=
  let current :=
    match mc_service callback with
    | Some service => getOperation view service (mc_name callback)
    | None => None
    end in
  match has_state, mc_operation callback, current with
  | true, Some expected, Some current =>
      if bool_decide (getLocalOperation current = Some expected) then Some current else None
  | _, _, _ => None
  end.

Definition operationSpec (parent name description : string) (service : option Service)
    (operation : Operation) (schema : OperationSchema NodeId) : NodeSpec :=
  let path := appendNodeSegment parent name in
  {| spec_kind := node_method;
     spec_path := path;
     parent_path := parent;
     browse_name := name;
     spec_fingerprint := "method|" +:+ parent +:+ "|" +:+ name +:+ "|" +:+ description +:+ "|" +:+
                         fingerprint schema;
     expects_input_arguments := negb (bool_decide (schema_inputs schema = []));
     expects_output_arguments := negb (bool_decide (schema_outputs schema = []));
     expected_input_arguments := schema_inputs schema;
     expected_output_arguments := schema_outputs schema;
     spec_create := λ namespace_index,
       let attributes :=
         {| ma_displayName := name; ma_description := some_description description;
            ma_executable := true; ma_userExecutable := true |} in
       result ← on_native (srv_addMethod (nodeid_string namespace_index parent)
         (nodeid_string namespace_index path) name
         {| mc_service := service; mc_name := name; mc_operation := getLocalOperation operation |}
         (schema_inputs schema) (schema_outputs schema) attributes ref_HasComponent);
       componentNodeCreated result path |}.

(** [createNode], noexcept; the two out-parameters are in the state. *)
Definition createNode (namespace_index : N) (spec : NodeSpec) : creation → creation * bool := λ c,
  let c := {| c_native := c_native c; c_rtt := c_rtt c; c_state := c_state c;
              c_created := false; c_error := c_error c |} in
  match spec_create spec namespace_index c with
  | (c, inr ready) => (c, ready)
  | (c, inl (std_exception what)) =>
      ((report_error ("OPC UA node creator threw for '" +:+ spec_path spec +:+ "': " +:+ what) c).1,
       false)
  | (c, inl other_exception) =>
      ((report_error ("OPC UA node creator threw for '" +:+ spec_path spec +:+ "'") c).1, false)
  end.

(** ** The nodes of a component *)

(** [std::map<std::string, NodeSpec>]. *)
Notation NodeMap := (gmap string NodeSpec).

Definition insertNode (nodes : NodeMap) (spec : NodeSpec) : NodeMap :=
  <[spec_path spec := spec]> nodes.
End specs.
