(* ===== verification/Snapshot.v ===== *)
(** The snapshot of a component (src/src/object_model.cpp): the bundle of nodes
    each resource contributes, the diagnostics of what cannot be mapped, and the
    whole tree of nodes that a publication creates. *)

From S2P Require Import Prelude NodeId Selector Native Concrete DataTypeRegistry.
From S2P Require Import TypeProtocol EndpointTypeRegistry ComponentState OperationDispatcher PortDataSources Inventory.
From S2P Require Import AddressSpace NodeSpecs ConcreteServer.

Definition resourceNodePath (component_path resource_path : string) : string :=
  component_path +:+ "/" +:+ resource_path.

(** [UnsupportedResource] with the defaults of the second [appendUnsupported]. *)
Definition unsupportedText (component path kind type_name reason : string) : UnsupportedResource :=
  {| un_component := component;
     un_path := path;
     un_kind := kind;
     un_type_name := if str_empty type_name then "<unknown>" else type_name;
     un_reason := if str_empty reason then "is not supported by OPC UA" else reason |}.

(** The output type a mandatory operation of the root service must have; empty
    when the record is not one. *)
Definition mandatoryOutputType {Service} (record : ResourceRecord Service) : string :=
  if negb (bool_decide (rec_kind record = kind_operation)) || negb (str_empty (owner_path record))
  then ""
  else
    match List.find (λ mandatory, String.eqb mandatory.1 (rec_name record)) kMandatoryOperations with
    | Some mandatory => mandatory.2
    | None => ""
    end.

Section snapshot.
Context {NS W DS Port Variant NodeId StatusCode UA_DataType DataType Wire TypeInfo : Type}.
Context {Service Property Attribute LocalOperation TaskContext : Type}.
Context `{EqDecision TypeInfo} `{!Countable TypeInfo} `{EqDecision Service} `{!Countable Service}.
Notation TypeCodec := (TypeCodec W DS Port Variant NodeId UA_DataType).
Notation EndpointTypeRegistry := (EndpointTypeRegistry UA_DataType DataType TypeInfo TypeCodec).
Notation Operation := (OperationInterfacePart TypeInfo).
Notation ServiceView := (ServiceView Service Operation Property Attribute Port).
Notation ResourceRecord := (ResourceRecord Service).
Notation Backend := (@Backend W DS Port Variant NodeId UA_DataType DataType TypeInfo _ _).
Notation MethodCallback := (@MethodCallback Service LocalOperation).
Notation NodeSpec := (@NodeSpec NS W NodeId TaskContext).
Notation NodeMap := (gmap string NodeSpec).
Context `{NodeIds NodeId} `{!Variants Variant NodeId UA_DataType Wire}.
Context `{!NodeServices NS NodeId StatusCode Variant Backend MethodCallback}.
Context `{!RttPorts W DS Port TypeInfo}.
Context `{!RttResources DS Port Property Attribute TypeInfo LocalOperation}.
Context (empty_variant : Variant) (type_getTypeName : TypeInfo → string).
(** The type registry, and the view of the service graph during the mapping. *)
Context (registry : EndpointTypeRegistry) (view : ServiceView).
Implicit Types (record : ResourceRecord).

(** ** Texts *)

Definition typeName (type : option TypeInfo) : string :=
  match type with None => "<unknown>" | Some type => type_getTypeName type end.

Definition unsupportedValueReason (type : option TypeInfo) (codec : option TypeCodec) : string :=
  match type, codec with
  | None, _ => "has no RTT type information"
  | Some _, None => "has no registered OPC UA protocol"
  | Some _, Some _ => "does not support OPC UA values"
  end.

(** The first [appendUnsupported]. *)
Definition unsupportedValue (component path kind : string) (type : option TypeInfo)
    (codec : option TypeCodec) : UnsupportedResource :=
  {| un_component := component; un_path := path; un_kind := kind;
     un_type_name := typeName type; un_reason := unsupportedValueReason type codec |}.

(** ** The snapshot *)

Record ComponentSnapshot := {
  snap_nodes : NodeMap;
  snap_effective : gset string;
  snap_unsupported : list UnsupportedResource;
  snap_diagnostics : list PublicationDiagnostic;
  snap_component : string;
  snap_fingerprint : string;
}.
Implicit Types (snapshot : ComponentSnapshot).

Definition add_node snapshot (spec : NodeSpec) : ComponentSnapshot :=
  {| snap_nodes := insertNode (snap_nodes snapshot) spec;
     snap_effective := snap_effective snapshot;
     snap_unsupported := snap_unsupported snapshot;
     snap_diagnostics := snap_diagnostics snapshot;
     snap_component := snap_component snapshot;
     snap_fingerprint := snap_fingerprint snapshot |}.

Definition add_diagnostic snapshot (diagnostic : PublicationDiagnostic) : ComponentSnapshot :=
  {| snap_nodes := snap_nodes snapshot;
     snap_effective := snap_effective snapshot;
     snap_unsupported := snap_unsupported snapshot;
     snap_diagnostics := snap_diagnostics snapshot ++ [diagnostic];
     snap_component := snap_component snapshot;
     snap_fingerprint := snap_fingerprint snapshot |}.

Definition add_unsupported snapshot (unsupported : UnsupportedResource) : ComponentSnapshot :=
  {| snap_nodes := snap_nodes snapshot;
     snap_effective := snap_effective snapshot;
     snap_unsupported := snap_unsupported snapshot ++ [unsupported];
     snap_diagnostics := snap_diagnostics snapshot;
     snap_component := snap_component snapshot;
     snap_fingerprint := snap_fingerprint snapshot |}.

Definition appendMappingFailure snapshot record (unsupported : UnsupportedResource)
    : ComponentSnapshot :=
  add_unsupported
    (add_diagnostic snapshot
       {| diag_kind := unsupported_resource;
          diag_component := un_component unsupported;
          diag_selector := "";
          diag_resource_path := rec_path record;
          diag_reason := un_kind unsupported +:+ " uses RTT type '" +:+ un_type_name unsupported +:+
                         "' which " +:+ un_reason unsupported |})
    unsupported.

Definition appendMandatorySchemaFailure snapshot record (reason : string) : ComponentSnapshot :=
  add_diagnostic snapshot
    {| diag_kind := mandatory_resource; diag_component := snap_component snapshot;
       diag_selector := ""; diag_resource_path := rec_path record; diag_reason := reason |}.

Definition appendDiscoveryFailure snapshot record (component reason : string) : ComponentSnapshot :=
  appendMappingFailure snapshot record
    {| un_component := component;
       un_path := legacy_path record;
       un_kind := resourceKindName (rec_kind record);
       un_type_name :=
         if bool_decide (rec_kind record = kind_service) then "RTT::Service" else "<unknown>";
       un_reason := reason |}.

Definition owner_node_path record (component_path : string) : string :=
  if str_empty (owner_path record) then component_path
  else resourceNodePath component_path (owner_path record).

Definition appendCategoryNode snapshot record (component_path : string) : ComponentSnapshot :=
  let category := resourceCategory (rec_kind record) in
  let title :=
    match List.find (λ entry, String.eqb entry.1 category) kResourceCategories with
    | Some entry => entry.2
    | None => category
    end in
  add_node snapshot
    (objectSpec (appendNodeSegment (owner_node_path record component_path) category)
       (owner_node_path record component_path) title
       (match rec_owner record with Some owner => service_doc view owner | None => "" end)).

(** The path of the category node, as the bundles spell it. *)
Definition category_path record (component_path category : string) : string :=
  resourceNodePath component_path
    (if str_empty (owner_path record) then category else owner_path record +:+ "/" +:+ category).

(** ** Bundles

    [component] is [state->component_name]. *)

(** The schema that a proxy's mandatory operation must have. *)
Definition incompatible_schema (schema : OperationSchema NodeId) (mandatory_type : string) : bool :=
  negb (bool_decide (schema_inputs schema = [])) ||
  negb (bool_decide (input_type_names schema = [])) ||
  negb (length (schema_outputs schema) =? 1) ||
  negb (length (output_type_names schema) =? 1) ||
  negb (bool_decide (head (output_type_names schema) = Some mandatory_type)) ||
  negb (bool_decide (output_sources schema = [(-1)%Z])).

(** The nodes of an operation with a supported schema. *)
Definition addOperationNodes snapshot record (component_path : string) (operation : Operation)
    (schema : OperationSchema NodeId) : ComponentSnapshot :=
  let snapshot := appendCategoryNode snapshot record component_path in
  let operation_path := resourceNodePath component_path (rec_path record) in
  let snapshot :=
    if bool_decide (input_type_names schema = []) then snapshot
    else
      add_node snapshot
        (staticArrayPropertySpec cpp_string (λ s, s) (appendNodeSegment operation_path "rttInputTypes")
           operation_path "rttInputTypes" "Canonical RTT input argument types."
           (input_type_names schema) (nodeid_datatype dt_String)) in
  let snapshot :=
    if bool_decide (output_type_names schema = []) then snapshot
    else
      add_node
        (add_node snapshot
           (staticArrayPropertySpec cpp_string (λ s, s)
              (appendNodeSegment operation_path "rttOutputTypes") operation_path "rttOutputTypes"
              "Canonical RTT output argument types." (output_type_names schema)
              (nodeid_datatype dt_String)))
        (staticArrayPropertySpec cpp_int32 to_string_Z
           (appendNodeSegment operation_path "rttOutputSources") operation_path "rttOutputSources"
           "Return value (-1) or mutable input index for each output." (output_sources schema)
           (nodeid_datatype dt_Int32)) in
  add_node snapshot
    (operationSpec (category_path record component_path "operations") (rec_name record)
       (op_description operation) (rec_owner record) operation schema).

Definition appendOperationBundle snapshot record (component_path component : string)
    : ComponentSnapshot :=
  let mandatory_type := mandatoryOutputType record in
  if negb (str_empty (discovery_error record)) then
    if negb (str_empty mandatory_type) then
      appendMandatorySchemaFailure snapshot record "mandatory RTT proxy operation is unavailable"
    else appendDiscoveryFailure snapshot record component (discovery_error record)
  else
    match owner ← rec_owner record; getOperation view owner (rec_name record) with
    | None =>
        if negb (str_empty mandatory_type) then
          appendMandatorySchemaFailure snapshot record "mandatory RTT proxy operation is unavailable"
        else
          appendDiscoveryFailure snapshot record component
            "RTT operation became unavailable during mapping"
    | Some operation =>
        let schema := describe type_getTypeName (Some registry) operation in
        if negb (supported schema) then
          let unsupported := unsupportedText component (legacy_path record) "operation"
                               (unsupported_type_name schema) (unsupported_reason schema) in
          if negb (str_empty mandatory_type) then
            appendMandatorySchemaFailure (add_unsupported snapshot unsupported) record
              "mandatory RTT proxy operation has an unsupported schema"
          else appendMappingFailure snapshot record unsupported
        else if negb (str_empty mandatory_type) && incompatible_schema schema mandatory_type then
          appendMandatorySchemaFailure snapshot record
            "mandatory RTT proxy operation has an incompatible input/output schema"
        else addOperationNodes snapshot record component_path operation schema
    end.

(** The data source and the description behind a property or an attribute; the
    outer option is the null lookup. *)
Definition configuration_source record : option (option DS * string) :=
  match rec_kind record with
  | kind_property =>
      owner ← rec_owner record;
      property ← getProperty view owner (rec_name record);
      Some (property_source property, property_description property)
  | _ =>
      owner ← rec_owner record;
      attribute ← getValue view owner (rec_name record);
      Some (attribute_source attribute, "")
  end.

Definition appendConfigurationBundle snapshot record (component_path component : string)
    : ComponentSnapshot :=
  if negb (str_empty (discovery_error record)) then
    appendDiscoveryFailure snapshot record component (discovery_error record)
  else
    match configuration_source record with
    | None =>
        appendDiscoveryFailure snapshot record component
          ("RTT " +:+ resourceKindName (rec_kind record) +:+ " became unavailable during mapping")
    | Some (source, description) =>
        let type := source ≫= source_typeInfo in
        let codec := source ≫= source_codec (Some registry) in
        match source, codec with
        | Some value, Some value_codec =>
            if negb (hasValue value_codec) then
              appendMappingFailure snapshot record
                (unsupportedValue component (legacy_path record)
                   (resourceKindName (rec_kind record)) type codec)
            else
              let snapshot := appendCategoryNode snapshot record component_path in
              let snapshot := add_node snapshot
                (dataSourceSpec empty_variant
                   (category_path record component_path (resourceCategory (rec_kind record)))
                   (rec_name record) description value (Some registry)) in
              let value_path := resourceNodePath component_path (rec_path record) in
              add_node snapshot
                (staticStringSpec (appendNodeSegment value_path "rttType") value_path "rttType"
                   "Canonical RTT value type." (typeName type) true)
        | _, _ =>
            appendMappingFailure snapshot record
              (unsupportedValue component (legacy_path record)
                 (resourceKindName (rec_kind record)) type codec)
        end
    end.

(** The nodes of a port with a value codec. *)
Definition addPortNodes snapshot record (component_path : string) (port : Port) (is_input : bool)
    : ComponentSnapshot :=
  let port_path := resourceNodePath component_path (rec_path record) in
  let snapshot := appendCategoryNode snapshot record component_path in
  let snapshot := add_node snapshot
    (objectSpec port_path (category_path record component_path "ports") (rec_name record)
       (port_description port)) in
  let snapshot := add_node snapshot
    (staticStringSpec (appendNodeSegment port_path "type") port_path "type"
       "Canonical RTT port type." (typeName (port_typeInfo port)) false) in
  let snapshot := add_node snapshot
    (portDirectionSpec port_path (if is_input then direction_input else direction_output)) in
  let snapshot := add_node snapshot
    (staticStringSpec (appendNodeSegment port_path "description") port_path "description"
       "RTT port description." (port_description port) false) in
  if is_input then add_node snapshot (inputPortValueSpec port_path port (Some registry))
  else if port_keepsLastWrittenValue port then
    add_node snapshot (outputPortValueSpec port_path port (Some registry))
  else snapshot.

Definition appendPortBundle snapshot record (component_path component : string) : ComponentSnapshot :=
  if negb (str_empty (discovery_error record)) then
    appendDiscoveryFailure snapshot record component (discovery_error record)
  else
    match owner ← rec_owner record; getPort view owner (rec_name record) with
    | None =>
        appendDiscoveryFailure snapshot record component
          "RTT port became unavailable during mapping"
    | Some port =>
        let type := port_typeInfo port in
        let codec := bridge_codec registry type in
        let is_input := port_isInput port in
        let is_output := port_isOutput port in
        if Bool.eqb is_input is_output then
          appendMappingFailure snapshot record
            {| un_component := component; un_path := legacy_path record; un_kind := "port";
               un_type_name := typeName type;
               un_reason := if is_input then "matches both RTT input and output interfaces"
                            else "matches neither RTT input nor output interface" |}
        else
          match codec with
          | Some value_codec =>
              if negb (hasValue value_codec) then
                appendMappingFailure snapshot record
                  (unsupportedValue component (legacy_path record)
                     (if is_input then "input port" else "output port") type codec)
              else addPortNodes snapshot record component_path port is_input
          | None =>
              appendMappingFailure snapshot record
                (unsupportedValue component (legacy_path record)
                   (if is_input then "input port" else "output port") type codec)
          end
    end.

Definition appendServiceBundle snapshot record (component_path : string) : ComponentSnapshot :=
  match negb (str_empty (discovery_error record)), rec_owner record, rec_service record with
  | false, Some _, Some service =>
      add_node (appendCategoryNode snapshot record component_path)
        (objectSpec (resourceNodePath component_path (rec_path record))
           (category_path record component_path "services") (rec_name record)
           (service_doc view service))
  | _, _, _ =>
      appendDiscoveryFailure snapshot record (snap_component snapshot)
        (if negb (str_empty (discovery_error record)) then discovery_error record
         else "RTT service became unavailable during mapping")
  end.

(** The [switch] of [snapshotComponent]. *)
Definition appendBundle snapshot record (component_path component : string) : ComponentSnapshot :=
  match rec_kind record with
  | kind_operation => appendOperationBundle snapshot record component_path component
  | kind_property | kind_attribute => appendConfigurationBundle snapshot record component_path component
  | kind_port => appendPortBundle snapshot record component_path component
  | kind_service => appendServiceBundle snapshot record component_path
  end.

Definition components_path : string := appendNodeSegment "rtt" "components".

Definition component_root (component : string) : string := appendNodeSegment components_path component.

Definition node_fingerprint (nodes : NodeMap) : string :=
  foldl (λ text (node : string * NodeSpec),
      text +:+ to_string (N.of_nat (String.length node.1)) +:+ ":" +:+ node.1 +:+
      to_string (N.of_nat (String.length (spec_fingerprint node.2))) +:+ ":" +:+
      spec_fingerprint node.2)
    "" (ordered_items nodes).

(** The snapshot of a plan, before it is sorted. *)
Definition mapResources (inventory : ComponentInventory Service) (plan : PublicationPlan)
    (component : string) (root : Service) : ComponentSnapshot :=
  let start :=
    {| snap_nodes := ∅; snap_effective := effective_resources plan; snap_unsupported := [];
       snap_diagnostics := plan_diagnostics plan; snap_component := component;
       snap_fingerprint := "" |} in
  foldl (λ snapshot path,
      match resources inventory !! path with
      | None => snapshot
      | Some record => appendBundle snapshot record (component_root component) component
      end)
    (add_node start
       (objectSpec (component_root component) components_path component (service_doc view root)))
    (ordered_elems (effective_resources plan)).

(** The forms of the nodes: what the functions of NodeSpecs.v build. *)
Inductive built : NodeSpec → Prop :=
  | built_object path parent name description : built (objectSpec path parent name description)
  | built_string path parent name description value property :
      built (staticStringSpec path parent name description value property)
  | built_direction port_path direction : built (portDirectionSpec port_path direction)
  | built_array t stream path parent name description values data_type :
      built (staticArrayPropertySpec t stream path parent name description values data_type)
  | built_value parent name description value :
      built (dataSourceSpec empty_variant parent name description value (Some registry))
  | built_input port_path port : built (inputPortValueSpec port_path port (Some registry))
  | built_output port_path port : built (outputPortValueSpec port_path port (Some registry))
  | built_operation parent name description service operation schema :
      built (operationSpec parent name description service operation schema).

(** The diagnostics sorted and without duplicates, and the fingerprint. *)
Definition finish_snapshot snapshot : ComponentSnapshot :=
  {| snap_nodes := snap_nodes snapshot;
     snap_effective := snap_effective snapshot;
     snap_unsupported := sort_unique (snap_unsupported snapshot);
     snap_diagnostics := sort_unique (snap_diagnostics snapshot);
     snap_component := snap_component snapshot;
     snap_fingerprint := node_fingerprint (snap_nodes snapshot) |}.

(** [snapshotComponent]; [discovered] is the view of the service graph during the
    discovery, and [root] is [component.provides()], which the code follows. *)
Definition snapshotComponent (discovered : ServiceView) (component : string) (root : option Service)
    (mode : PublicationMode) (selectors : list string) : option ComponentSnapshot :=
  let inventory := discoverComponent discovered component root in
  let plan := buildPublicationPlan mode inventory component selectors in
  match root with
  | None => None
  | Some root => Some (finish_snapshot (mapResources inventory plan component root))
  end.
End snapshot.

(** ** Lemmas: paths *)

Lemma resourceNodePath_resource croot owner kind name :
  resourceNodePath croot (resourcePath owner kind name) =
  appendNodeSegment
    ((if str_empty owner then croot else resourceNodePath croot owner) +:+ "/" +:+
     resourceCategory kind) name.
Proof.
  unfold resourceNodePath, resourcePath, appendNodeSegment.
  destruct (str_empty owner) eqn:Howner; cbn [negb].
  - apply str_empty_spec in Howner as ->. by rewrite !str_app_assoc.
  - by rewrite !str_app_assoc.
Qed.

Lemma pathDepth_below path s t :
  pathDepth s < pathDepth (appendNodeSegment (s +:+ "/" +:+ t) path).
Proof. rewrite pathDepth_append, !pathDepth_app. lia. Qed.

(** What the bundles assume of a record: its path is that of its name. *)
Definition well_formed {Service} (record : ResourceRecord Service) : Prop :=
  rec_path record = resourcePath (owner_path record) (rec_kind record) (rec_name record).

Lemma inventory_well_formed {Service Operation Property Attribute Port : Type}
    `{EqDecision Service} `{!Countable Service}
    (view : ServiceView Service Operation Property Attribute Port) component root path record :
  resources (discoverComponent view component root) !! path = Some record →
  well_formed record ∧ rec_path record = path.
Proof.
  destruct root as [root|]; [|simpl; by rewrite lookup_empty].
  intros [Hoff Hpath]%inventory_lookup_sound. split; [|done].
  apply offered_fields in Hoff as (names & _ & _ & _ & _ & _ & _ & _ & Howner & Hrec).
  unfold well_formed. by rewrite Howner, walk_path_canonical, resourcePath_canonical, Hrec.
Qed.

Section facts.
Context {NS W DS Port Variant NodeId StatusCode UA_DataType DataType Wire TypeInfo : Type}.
Context {Service Property Attribute LocalOperation TaskContext : Type}.
Context `{EqDecision TypeInfo} `{!Countable TypeInfo} `{EqDecision Service} `{!Countable Service}.
Notation TypeCodec := (TypeCodec W DS Port Variant NodeId UA_DataType).
Notation EndpointTypeRegistry := (EndpointTypeRegistry UA_DataType DataType TypeInfo TypeCodec).
Notation Operation := (OperationInterfacePart TypeInfo).
Notation ServiceView := (ServiceView Service Operation Property Attribute Port).
Notation ResourceRecord := (ResourceRecord Service).
Notation Backend := (@Backend W DS Port Variant NodeId UA_DataType DataType TypeInfo _ _).
Notation MethodCallback := (@MethodCallback Service LocalOperation).
Notation NodeSpec := (@NodeSpec NS W NodeId TaskContext).
Notation NodeMap := (gmap string NodeSpec).
Notation ComponentSnapshot := (@ComponentSnapshot NS W NodeId TaskContext).
Context `{NodeIds NodeId} `{!Variants Variant NodeId UA_DataType Wire}.
Context `{!NodeServices NS NodeId StatusCode Variant Backend MethodCallback}.
Context `{!RttPorts W DS Port TypeInfo}.
Context `{!RttResources DS Port Property Attribute TypeInfo LocalOperation}.
Context (empty_variant : Variant) (type_getTypeName : TypeInfo → string).
Context (registry : EndpointTypeRegistry) (view : ServiceView).
Implicit Types (record : ResourceRecord) (snapshot : ComponentSnapshot) (specs : list NodeSpec)
  (nodes : NodeMap).

Lemma category_path_owner record croot kind :
  category_path record croot (resourceCategory kind) =
  owner_node_path record croot +:+ "/" +:+ resourceCategory kind.
Proof.
  unfold category_path, owner_node_path, resourceNodePath.
  destruct (str_empty _); [done|]. by rewrite !str_app_assoc.
Qed.

Lemma resource_node_path record croot :
  well_formed record →
  resourceNodePath croot (rec_path record) =
  appendNodeSegment (owner_node_path record croot +:+ "/" +:+ resourceCategory (rec_kind record))
    (rec_name record).
Proof. intros ->. apply resourceNodePath_resource. Qed.

(** ** Lemmas: bundles *)

Definition spec_paths specs : list string := (λ spec : NodeSpec, spec_path spec) <$> specs.

(** A group of nodes that hangs below [anchor]. *)
Definition rooted (anchor : string) specs : Prop :=
  ∀ spec, spec ∈ specs →
    pathDepth (parent_path spec) < pathDepth (spec_path spec) ∧
    (parent_path spec = anchor ∨ parent_path spec ∈ spec_paths specs).

(** Every node of the group has one of the forms. *)
Definition all_built specs : Prop := ∀ spec, spec ∈ specs → built empty_variant registry spec.

(** Either all nodes of the resource are added, or none and a diagnostic. *)
Inductive bundle_outcome snapshot record (croot : string) snapshot' : Prop :=
  | bundle_mapped specs :
      snapshot' = foldl add_node snapshot specs →
      rooted (owner_node_path record croot) specs → all_built specs →
      resourceNodePath croot (rec_path record) ∈ spec_paths specs →
      bundle_outcome snapshot record croot snapshot'
  | bundle_rejected diagnostic :
      snap_nodes snapshot' = snap_nodes snapshot →
      snap_component snapshot' = snap_component snapshot →
      snap_effective snapshot' = snap_effective snapshot →
      snap_diagnostics snapshot' = snap_diagnostics snapshot ++ [diagnostic] →
      diag_resource_path diagnostic = rec_path record →
      bundle_outcome snapshot record croot snapshot'.

Lemma mapping_failure_outcome snapshot record croot unsupported :
  bundle_outcome snapshot record croot (appendMappingFailure snapshot record unsupported).
Proof. by eapply bundle_rejected. Qed.

Lemma discovery_failure_outcome snapshot record croot component reason :
  bundle_outcome snapshot record croot (appendDiscoveryFailure snapshot record component reason).
Proof. by eapply bundle_rejected. Qed.

Lemma mandatory_failure_outcome snapshot record croot reason :
  bundle_outcome snapshot record croot (appendMandatorySchemaFailure snapshot record reason).
Proof. by eapply bundle_rejected. Qed.

Lemma mandatory_unsupported_outcome snapshot record croot unsupported reason :
  bundle_outcome snapshot record croot
    (appendMandatorySchemaFailure (add_unsupported snapshot unsupported) record reason).
Proof. by eapply bundle_rejected. Qed.

(** A list of nodes is rooted when each node is one level or more below the
    anchor or below another node of the list. *)
Lemma rooted_nil anchor : rooted anchor [].
Proof. intros spec Hspec. by apply elem_of_nil in Hspec. Qed.

Lemma rooted_cons anchor spec specs :
  parent_path spec = anchor → pathDepth anchor < pathDepth (spec_path spec) →
  (∀ s, s ∈ specs → pathDepth (parent_path s) < pathDepth (spec_path s) ∧
     parent_path s ∈ spec_paths (spec :: specs)) →
  rooted anchor (spec :: specs).
Proof.
  intros Hparent Hdepth Hrest s [->|Hs]%elem_of_cons; [rewrite Hparent; by split; [|left]|].
  destruct (Hrest s Hs). by split; [|right].
Qed.

(** The category node of a record, and where the node of the record hangs. *)
Definition category_spec record (croot : string) : NodeSpec :=
  objectSpec (appendNodeSegment (owner_node_path record croot) (resourceCategory (rec_kind record)))
    (owner_node_path record croot)
    (match List.find (λ entry, String.eqb entry.1 (resourceCategory (rec_kind record)))
             kResourceCategories with
     | Some entry => entry.2
     | None => resourceCategory (rec_kind record)
     end)
    (match rec_owner record with Some owner => service_doc view owner | None => "" end).

Lemma category_spec_path record croot kind :
  rec_kind record = kind →
  spec_path (category_spec record croot) = category_path record croot (resourceCategory kind).
Proof.
  intros <-. rewrite category_path_owner. cbn [category_spec objectSpec spec_path].
  unfold appendNodeSegment. by rewrite category_escaped.
Qed.

Lemma resource_below_category record croot kind :
  well_formed record → rec_kind record = kind →
  appendNodeSegment (category_path record croot (resourceCategory kind)) (rec_name record) =
  resourceNodePath croot (rec_path record).
Proof. intros Hwf <-. by rewrite category_path_owner, resource_node_path. Qed.

(** A bundle of nodes: the category, the node of the record below it, and nodes
    directly below that node, in any order. *)
Lemma bundle_rooted record croot kind specs :
  well_formed record → rec_kind record = kind →
  (∃ spec, spec ∈ specs ∧ spec_path spec = resourceNodePath croot (rec_path record)) →
  (∀ spec, spec ∈ specs →
     (spec_path spec = resourceNodePath croot (rec_path record) ∧
      parent_path spec = category_path record croot (resourceCategory kind)) ∨
     (parent_path spec = resourceNodePath croot (rec_path record) ∧
      ∃ name, spec_path spec = appendNodeSegment (parent_path spec) name)) →
  rooted (owner_node_path record croot) (category_spec record croot :: specs) ∧
  resourceNodePath croot (rec_path record) ∈ spec_paths (category_spec record croot :: specs).
Proof.
  intros Hwf Hkind (node & Hnode & Hpath) Hall.
  assert (Hin : resourceNodePath croot (rec_path record) ∈ spec_paths specs).
  { rewrite <-Hpath. by apply (list_elem_of_fmap_2 (λ spec : NodeSpec, spec_path spec)). }
  split; [|by right]. apply rooted_cons; [done| |].
  { cbn [category_spec objectSpec spec_path]. rewrite pathDepth_append. lia. }
  intros spec [[Hsp Hpp]|[Hpp [name Hsp]]]%Hall.
  - rewrite Hsp, Hpp. split.
    + rewrite <-(resource_below_category record croot kind) by done. rewrite pathDepth_append. lia.
    + rewrite <-(category_spec_path record croot kind) by done. left.
  - rewrite Hsp, pathDepth_append. split; [lia|]. rewrite Hpp. by right.
Qed.

Lemma all_built_category record croot specs :
  all_built specs → all_built (category_spec record croot :: specs).
Proof. intros Hspecs spec [->|?]%elem_of_cons; [constructor|auto]. Qed.

Lemma operation_nodes_outcome snapshot record croot operation schema :
  well_formed record → rec_kind record = kind_operation →
  bundle_outcome snapshot record croot
    (addOperationNodes view snapshot record croot operation schema).
Proof.
  intros Hwf Hkind. unfold addOperationNodes.
  pose proof (resource_below_category record croot kind_operation Hwf Hkind) as Hbelow.
  change (resourceCategory kind_operation) with "operations" in Hbelow.
  set (op := operationSpec _ _ _ _ _ _). set (opath := resourceNodePath croot (rec_path record)).
  set (ins := staticArrayPropertySpec _ _ (appendNodeSegment opath "rttInputTypes") _ _ _ _ _).
  set (outs := staticArrayPropertySpec _ _ (appendNodeSegment opath "rttOutputTypes") _ _ _ _ _).
  set (sources := staticArrayPropertySpec _ _ (appendNodeSegment opath "rttOutputSources") _ _ _ _ _).
  set (specs := (if bool_decide (input_type_names schema = []) then [] else [ins]) ++
                (if bool_decide (output_type_names schema = []) then [] else [outs; sources]) ++ [op]).
  assert (Hcases : ∀ spec, spec ∈ specs → spec = op ∨ spec = ins ∨ spec = outs ∨ spec = sources).
  { intros spec Hspec. unfold specs in Hspec. clear -Hspec. clearbody op ins outs sources.
    repeat case_bool_decide; set_solver. }
  destruct (bundle_rooted record croot kind_operation specs) as [Hrooted Hpath]; [done|done|..].
  - exists op. split; [unfold specs; set_solver|]. exact Hbelow.
  - intros spec [->|[->|[->| ->]]]%Hcases; [by left; split|..];
      right; (split; [done|]); by eexists.
  - apply (bundle_mapped _ _ _ _ (category_spec record croot :: specs)); [|done| |done].
    + unfold specs. by repeat case_bool_decide.
    + apply all_built_category. intros spec [->|[->|[->| ->]]]%Hcases; constructor.
Qed.

Lemma operation_outcome snapshot record croot component :
  well_formed record → rec_kind record = kind_operation →
  bundle_outcome snapshot record croot
    (appendOperationBundle type_getTypeName registry view snapshot record croot component).
Proof.
  intros Hwf Hkind. unfold appendOperationBundle.
  repeat case_match; eauto using mapping_failure_outcome, discovery_failure_outcome,
    mandatory_failure_outcome, mandatory_unsupported_outcome, operation_nodes_outcome.
Qed.

Lemma configuration_outcome snapshot record croot component :
  well_formed record → 
  bundle_outcome snapshot record croot
    (appendConfigurationBundle empty_variant type_getTypeName registry view snapshot record croot
       component).
Proof.
  intros Hwf. unfold appendConfigurationBundle.
  repeat case_match; eauto using mapping_failure_outcome, discovery_failure_outcome.
  set (value := dataSourceSpec _ _ _ _ _ _).
  set (type := staticStringSpec _ _ _ _ _ _).
  destruct (bundle_rooted record croot (rec_kind record) [value; type]) as [Hrooted Hpath];
    [done|done|..].
  - exists value. split; [set_solver|]. by apply resource_below_category.
  - intros spec Hspec. apply elem_of_cons in Hspec as [->|Hspec].
    + left. split; [by apply resource_below_category|done].
    + apply elem_of_cons in Hspec as [->|Hspec]; [|by apply elem_of_nil in Hspec].
      right. split; [done|]. by eexists.
  - apply (bundle_mapped _ _ _ _ (category_spec record croot :: [value; type])); [done..| |done].
    apply all_built_category. intros spec [->|[->|?%elem_of_nil]%elem_of_cons]%elem_of_cons;
      [constructor..|done].
Qed.

Lemma port_nodes_outcome snapshot record croot port is_input :
  well_formed record → rec_kind record = kind_port →
  bundle_outcome snapshot record croot
    (addPortNodes type_getTypeName registry view snapshot record croot port is_input).
Proof.
  intros Hwf Hkind. unfold addPortNodes.
  set (ppath := resourceNodePath croot (rec_path record)).
  set (node := objectSpec ppath _ _ _). set (type := staticStringSpec (appendNodeSegment ppath "type") _ _ _ _ _).
  set (direction := portDirectionSpec _ _).
  set (text := staticStringSpec (appendNodeSegment ppath "description") _ _ _ _ _).
  set (value := (if is_input then [inputPortValueSpec ppath port (Some registry)]
                 else if port_keepsLastWrittenValue port
                 then [outputPortValueSpec ppath port (Some registry)] else []) : list NodeSpec).
  destruct (bundle_rooted record croot kind_port ([node; type; direction; text] ++ value))
    as [Hrooted Hpath]; [done|done|..].
  - exists node. split; [set_solver|done].
  - intros spec [Hspec|Hspec]%elem_of_app.
    + repeat (apply elem_of_cons in Hspec as [->|Hspec]); [by left|..|by apply elem_of_nil in Hspec];
        right; (split; [done|]); by eexists.
    + right. unfold value in Hspec. repeat case_match; try (by apply elem_of_nil in Hspec);
        apply list_elem_of_singleton in Hspec as ->; (split; [done|]); by eexists.
  - apply (bundle_mapped _ _ _ _ (category_spec record croot :: [node; type; direction; text] ++ value));
      [|done| |done].
    + unfold value. by repeat case_match.
    + apply all_built_category. intros spec [Hspec|Hspec]%elem_of_app.
      * repeat (apply elem_of_cons in Hspec as [->|Hspec]); [constructor..|by apply elem_of_nil in Hspec].
      * unfold value in Hspec. repeat case_match; try (by apply elem_of_nil in Hspec);
          apply list_elem_of_singleton in Hspec as ->; constructor.
Qed.

Lemma port_outcome snapshot record croot component :
  well_formed record → rec_kind record = kind_port →
  bundle_outcome snapshot record croot
    (appendPortBundle type_getTypeName registry view snapshot record croot component).
Proof.
  intros Hwf Hkind. unfold appendPortBundle.
  repeat case_match; eauto using mapping_failure_outcome, discovery_failure_outcome,
    port_nodes_outcome.
Qed.

Lemma service_outcome snapshot record croot :
  well_formed record → rec_kind record = kind_service →
  bundle_outcome snapshot record croot (appendServiceBundle view snapshot record croot).
Proof.
  intros Hwf Hkind. unfold appendServiceBundle.
  repeat case_match; eauto using discovery_failure_outcome.
  set (node := objectSpec (resourceNodePath _ _) _ _ _).
  destruct (bundle_rooted record croot kind_service [node]) as [Hrooted Hpath]; [done|done|..].
  - exists node. split; [set_solver|done].
  - intros spec ->%list_elem_of_singleton. by left.
  - apply (bundle_mapped _ _ _ _ (category_spec record croot :: [node])); [done..| |done].
    apply all_built_category. intros spec ->%list_elem_of_singleton. constructor.
Qed.

Lemma appendBundle_outcome snapshot record croot component :
  well_formed record →
  bundle_outcome snapshot record croot
    (appendBundle empty_variant type_getTypeName registry view snapshot record croot component).
Proof.
  intros Hwf. unfold appendBundle. destruct (rec_kind record) eqn:Hkind;
    eauto using operation_outcome, configuration_outcome, port_outcome, service_outcome.
Qed.

(** ** Lemmas: the tree *)

Lemma add_nodes_fields snapshot specs :
  snap_nodes (foldl add_node snapshot specs) = foldl insertNode (snap_nodes snapshot) specs ∧
  snap_diagnostics (foldl add_node snapshot specs) = snap_diagnostics snapshot ∧
  snap_component (foldl add_node snapshot specs) = snap_component snapshot ∧
  snap_effective (foldl add_node snapshot specs) = snap_effective snapshot.
Proof. revert snapshot. induction specs as [|spec specs IH]; intros snapshot; [done|]. apply IH. Qed.

Lemma insert_nodes_lookup nodes specs path spec :
  foldl insertNode nodes specs !! path = Some spec →
  nodes !! path = Some spec ∨ (spec ∈ specs ∧ spec_path spec = path).
Proof.
  revert nodes. induction specs as [|s specs IH]; intros nodes; cbn [foldl]; [by left|].
  intros [Hin|[? ?]]%IH; [|by right; split; [right|]].
  unfold insertNode in Hin. apply lookup_insert_Some in Hin as [[<- <-]|[_ ?]]; [|by left].
  right. split; [left|done].
Qed.

Lemma insert_nodes_dom nodes specs path :
  path ∈ dom (foldl insertNode nodes specs) ↔ path ∈ dom nodes ∨ path ∈ spec_paths specs.
Proof.
  revert nodes. induction specs as [|s specs IH]; intros nodes; cbn [foldl spec_paths fmap list_fmap].
  { rewrite elem_of_nil. naive_solver. }
  rewrite IH. unfold insertNode. rewrite dom_insert, elem_of_union, elem_of_singleton, elem_of_cons.
  unfold spec_paths. naive_solver.
Qed.

(** Every node has one of the forms, and is the root of the component or hangs,
    one level or more deeper, below a node of the map or below an anchor. *)
Definition linked (croot : string) (anchors : string → Prop) nodes : Prop :=
  ∀ path spec, nodes !! path = Some spec →
    built empty_variant registry spec ∧
    spec_path spec = path ∧ pathDepth (parent_path spec) < pathDepth path ∧
    ((path = croot ∧ parent_path spec = components_path) ∨
     parent_path spec ∈ dom nodes ∨ anchors (parent_path spec)).

Lemma linked_insert croot (anchors : string → Prop) nodes anchor specs :
  linked croot anchors nodes → rooted anchor specs → all_built specs → anchors anchor →
  linked croot anchors (foldl insertNode nodes specs).
Proof.
  intros Hlinked Hrooted Hbuilt Hanchor path spec [Hin|[Hin <-]]%insert_nodes_lookup.
  - destruct (Hlinked path spec Hin) as (? & ? & ? & Hp). split_and!; [done..|].
    destruct Hp as [?|[?|?]]; [by left|right; left|by right; right].
    apply insert_nodes_dom. by left.
  - destruct (Hrooted spec Hin) as [? [Hp|Hp]]; split_and!; try done; try by apply Hbuilt.
    + right. right. by rewrite Hp.
    + right. left. apply insert_nodes_dom. by right.
Qed.

(** The conditions on a snapshot's nodes that make them a tree below the
    component's root node, of nodes of the known forms. *)
Definition node_tree (component : string) nodes : Prop :=
  component_root component ∈ dom (nodes) ∧
  ∀ path spec, nodes !! path = Some spec →
    built empty_variant registry spec ∧
    spec_path spec = path ∧ pathDepth (parent_path spec) < pathDepth path ∧
    ((path = component_root component ∧ parent_path spec = components_path) ∨
     parent_path spec ∈ dom (nodes)).

Context (inventory : ComponentInventory Service) (component : string).
Hypothesis inventory_wf : ∀ path record, resources inventory !! path = Some record →
  well_formed record ∧ rec_path record = path.

Let croot := component_root component.

(** The body of the loop over the effective resources. *)
Definition map_resource snapshot (path : string) : ComponentSnapshot :=
  match resources inventory !! path with
  | None => snapshot
  | Some record => appendBundle empty_variant type_getTypeName registry view snapshot record croot component
  end.

Definition resource_anchor (effective : gset string) (anchor : string) : Prop :=
  ∃ path record, path ∈ effective ∧ resources inventory !! path = Some record ∧
    anchor = owner_node_path record croot.

(** What is known of the snapshot after the resources [seen] have been mapped. *)
Record mapped_so_far (effective : gset string) (seen : list string) snapshot : Prop := {
  ms_linked : linked croot (resource_anchor effective) (snap_nodes snapshot);
  ms_root : croot ∈ dom (snap_nodes snapshot);
  ms_effective : snap_effective snapshot = effective;
  ms_accounted : ∀ path record, path ∈ seen → resources inventory !! path = Some record →
    resourceNodePath croot path ∈ dom (snap_nodes snapshot) ∨
    ∃ diagnostic, diagnostic ∈ snap_diagnostics snapshot ∧ diag_resource_path diagnostic = path;
}.

Lemma map_resource_step effective seen snapshot path :
  path ∈ effective → mapped_so_far effective seen snapshot →
  mapped_so_far effective (seen ++ [path]) (map_resource snapshot path) ∧
  (snap_diagnostics (map_resource snapshot path) = snap_diagnostics snapshot ∧
     (∀ record, resources inventory !! path = Some record →
        resourceNodePath croot path ∈ dom (snap_nodes (map_resource snapshot path))) ∨
   ∃ diagnostic, diag_resource_path diagnostic = path ∧
     snap_diagnostics (map_resource snapshot path) = snap_diagnostics snapshot ++ [diagnostic]).
Proof.
  intros Heff [Hlinked Hroot Heffective Hacc]. unfold map_resource.
  destruct (resources inventory !! path) as [record|] eqn:Hr.
  2: { split; [|by left]. split; [done..|]. intros p r [?| ->%list_elem_of_singleton]%elem_of_app ?; [eauto|congruence]. }
  destruct (inventory_wf path record Hr) as [Hwf Hpath].
  destruct (appendBundle_outcome snapshot record croot component Hwf)
    as [specs Heq Hrooted Hbuilt Hnode|diagnostic Hnodes Hcomp Heffs Hdiag Hdp].
  - rewrite Heq. destruct (add_nodes_fields snapshot specs) as (Hn & Hd & _ & He).
    assert (Hin : resourceNodePath croot path ∈ dom (snap_nodes (foldl add_node snapshot specs)))
      by (rewrite Hn; apply insert_nodes_dom; right; by rewrite <-Hpath).
    split; [|left; split; [by rewrite Hd|done]]. split.
    + rewrite Hn. eapply linked_insert; [done..|]. by exists path, record.
    + rewrite Hn. apply insert_nodes_dom. by left.
    + by rewrite He.
    + intros p r [Hp| ->%list_elem_of_singleton]%elem_of_app Hl; [|by left].
      rewrite Hd. destruct (Hacc p r Hp Hl) as [?|?]; [left|by right].
      rewrite Hn. apply insert_nodes_dom. by left.
  - split; [|right; exists diagnostic; by rewrite Hdp, Hpath]. split; rewrite ?Hnodes, ?Heffs; try done.
    intros p r [Hp| ->%list_elem_of_singleton]%elem_of_app Hl; rewrite Hdiag.
    + destruct (Hacc p r Hp Hl) as [?|(d & ? & ?)]; [by left|right]. exists d. set_solver.
    + right. exists diagnostic. split; [set_solver|]. by rewrite Hdp.
Qed.

Lemma map_resources_fold effective paths seen snapshot :
  (∀ path, path ∈ paths → path ∈ effective) → mapped_so_far effective seen snapshot →
  mapped_so_far effective (seen ++ paths) (foldl map_resource snapshot paths) ∧
  ∃ extra, snap_diagnostics (foldl map_resource snapshot paths) = snap_diagnostics snapshot ++ extra.
Proof.
  revert seen snapshot. induction paths as [|path paths IH]; intros seen snapshot Hpaths Hm; cbn [foldl].
  { rewrite app_nil_r. split; [done|]. exists []. by rewrite app_nil_r. }
  destruct (map_resource_step effective seen snapshot path) as [Hm' Hstep]; [set_solver|done|].
  destruct (IH (seen ++ [path]) (map_resource snapshot path)) as [Hm'' [extra Hextra]];
    [set_solver|done|].
  rewrite <-app_assoc in Hm''. split; [done|]. rewrite Hextra.
  destruct Hstep as [[-> _]|(d & _ & ->)]; [by exists extra|].
  exists ([d] ++ extra). by rewrite app_assoc.
Qed.

Lemma mapResources_fold plan (root : Service) :
  let snapshot : ComponentSnapshot :=
    mapResources empty_variant type_getTypeName registry view inventory plan component root in
  mapped_so_far (effective_resources plan) (ordered_elems (effective_resources plan)) snapshot ∧
  ∃ extra, snap_diagnostics snapshot = plan_diagnostics plan ++ extra.
Proof.
  unfold mapResources. set (start := add_node _ _). cbv zeta.
  apply (map_resources_fold (effective_resources plan) (ordered_elems (effective_resources plan)) [] start).
  { intros path. by rewrite elem_of_ordered_elems. }
  split.
  - intros path spec. unfold start. cbn [add_node snap_nodes]. unfold insertNode.
    intros [[<- <-]|[_ ?]]%lookup_insert_Some; [|by rewrite lookup_empty in *].
    split_and!; [constructor|done| |by left]. cbn [objectSpec spec_path parent_path]. unfold component_root.
    rewrite pathDepth_append. lia.
  - unfold start. cbn [add_node snap_nodes]. unfold insertNode. rewrite dom_insert. set_solver.
  - done.
  - by intros path record ?%elem_of_nil.
Qed.

Lemma mapped_tree plan (root : Service) :
  let snapshot : ComponentSnapshot :=
    mapResources empty_variant type_getTypeName registry view inventory plan component root in
  closed_in inventory (effective_resources plan) → snap_diagnostics snapshot = [] →
  node_tree component (snap_nodes snapshot) ∧ snap_effective snapshot = effective_resources plan ∧
  ∀ path, path ∈ effective_resources plan → resourceNodePath croot path ∈ dom (snap_nodes snapshot).
Proof.
  intros snapshot Hclosed Hdiag.
  destruct (mapResources_fold plan root) as [[Hlinked Hroot Heff Hacc] _].
  fold snapshot in Hlinked, Hroot, Heff, Hacc. clearbody snapshot.
  assert (Hnode : ∀ path record, path ∈ effective_resources plan →
    resources inventory !! path = Some record →
    resourceNodePath croot path ∈ dom (snap_nodes snapshot)).
  { intros path record Hpath Hr.
    destruct (Hacc path record) as [?|(d & Hd & _)]; [by apply elem_of_ordered_elems|done|done|].
    rewrite Hdiag in Hd. by apply elem_of_nil in Hd. }
  split_and!; [split; [done|]|done|].
  - intros path spec (Hbuilt & Hsp & Hdepth & Hparent)%Hlinked. split_and!; [done..|].
    destruct Hparent as [?|[?|(p & record & Hp & Hr & Hparent)]]; [by left|by right|right].
    rewrite Hparent. unfold owner_node_path.
    destruct (Hclosed p Hp) as (record' & Hr' & Howner).
    assert (record' = record) as -> by exact (inj Some _ _ (eq_trans (eq_sym Hr') Hr)).
    destruct (str_empty (owner_path record)) eqn:Hempty; [done|].
    destruct Howner as [Howner|(Howner & owner & Hlookup & _)]; [|by eapply Hnode].
    apply str_empty_spec in Howner. congruence.
  - intros path Hpath. destruct (Hclosed path Hpath) as (record & Hr & _). by eapply Hnode.
Qed.

Lemma finished_tree plan (root : Service) :
  let snapshot : ComponentSnapshot := finish_snapshot
    (mapResources empty_variant type_getTypeName registry view inventory plan component root) in
  (plan_diagnostics plan = [] → closed_in inventory (effective_resources plan)) →
  snap_diagnostics snapshot = [] →
  node_tree component (snap_nodes snapshot) ∧
  ∀ path, path ∈ snap_effective snapshot → resourceNodePath croot path ∈ dom (snap_nodes snapshot).
Proof.
  unfold finish_snapshot. cbn [snap_nodes snap_diagnostics snap_effective].
  rewrite sort_unique_nil_iff. intros Hclosed Hdiag.
  destruct (mapResources_fold plan root) as [_ [extra Hextra]]. rewrite Hdiag in Hextra.
  symmetry in Hextra. apply app_nil in Hextra as [Hplan _].
  destruct (mapped_tree plan root (Hclosed Hplan) Hdiag) as (Htree & Heff & Hnodes).
  split; [done|]. intros path. rewrite Heff. apply Hnodes.
Qed.

Lemma finished_accepted plan (root : Service) :
  let snapshot : ComponentSnapshot := finish_snapshot
    (mapResources empty_variant type_getTypeName registry view inventory plan component root) in
  (plan_diagnostics plan = [] → closed_in inventory (effective_resources plan)) →
  snap_diagnostics snapshot = [] →
  plan_diagnostics plan = [] ∧ snap_effective snapshot = effective_resources plan.
Proof.
  unfold finish_snapshot. cbn [snap_nodes snap_diagnostics snap_effective].
  rewrite sort_unique_nil_iff. intros Hclosed Hdiag.
  destruct (mapResources_fold plan root) as [_ [extra Hextra]]. rewrite Hdiag in Hextra.
  symmetry in Hextra. apply app_nil in Hextra as [Hplan _]. split; [done|].
  by destruct (mapped_tree plan root (Hclosed Hplan) Hdiag) as (_ & Heff & _).
Qed.

Lemma mapped_accounts plan (root : Service) :
  let snapshot : ComponentSnapshot :=
    mapResources empty_variant type_getTypeName registry view inventory plan component root in
  (∀ path, path ∈ effective_resources plan → path ∈ dom (resources inventory) →
     resourceNodePath croot path ∈ dom (snap_nodes snapshot) ∨
     ∃ diagnostic, diagnostic ∈ snap_diagnostics snapshot ∧ diag_resource_path diagnostic = path) ∧
  ∀ diagnostic, diagnostic ∈ plan_diagnostics plan → diagnostic ∈ snap_diagnostics snapshot.
Proof.
  intros snapshot. destruct (mapResources_fold plan root) as [[_ _ _ Hacc] [extra Hextra]].
  fold snapshot in Hacc, Hextra. clearbody snapshot. split.
  - intros path Hpath [record Hr]%elem_of_dom. apply (Hacc path record); [|done].
    by apply elem_of_ordered_elems.
  - intros d Hd. rewrite Hextra. apply elem_of_app. by left.
Qed.

Lemma finished_accounts plan (root : Service) :
  let snapshot : ComponentSnapshot := finish_snapshot
    (mapResources empty_variant type_getTypeName registry view inventory plan component root) in
  (∀ path, path ∈ effective_resources plan → path ∈ dom (resources inventory) →
     resourceNodePath croot path ∈ dom (snap_nodes snapshot) ∨
     ∃ diagnostic, diagnostic ∈ snap_diagnostics snapshot ∧ diag_resource_path diagnostic = path) ∧
  ∀ diagnostic, diagnostic ∈ plan_diagnostics plan → diagnostic ∈ snap_diagnostics snapshot.
Proof.
  destruct (mapped_accounts plan root) as [Hnodes Hplan].
  unfold finish_snapshot. cbn [snap_nodes snap_diagnostics]. split.
  - intros path Hpath Hin. destruct (Hnodes path Hpath Hin) as [?|(d & ? & ?)]; [by left|right].
    exists d. by rewrite elem_of_sort_unique.
  - intros d Hd. by apply elem_of_sort_unique, Hplan.
Qed.
End facts.

(** ** Properties *)

Section properties.
Context {NS W DS Port Variant NodeId StatusCode UA_DataType DataType Wire TypeInfo : Type}.
Context {Service Property Attribute LocalOperation TaskContext : Type}.
Context `{EqDecision TypeInfo} `{!Countable TypeInfo} `{EqDecision Service} `{!Countable Service}.
Notation TypeCodec := (TypeCodec W DS Port Variant NodeId UA_DataType).
Notation EndpointTypeRegistry := (EndpointTypeRegistry UA_DataType DataType TypeInfo TypeCodec).
Notation Operation := (OperationInterfacePart TypeInfo).
Notation ServiceView := (ServiceView Service Operation Property Attribute Port).
Notation Backend := (@Backend W DS Port Variant NodeId UA_DataType DataType TypeInfo _ _).
Notation MethodCallback := (@MethodCallback Service LocalOperation).
Notation ComponentSnapshot := (@ComponentSnapshot NS W NodeId TaskContext).
Context `{NodeIds NodeId} `{!Variants Variant NodeId UA_DataType Wire}.
Context `{!NodeServices NS NodeId StatusCode Variant Backend MethodCallback}.
Context `{!RttPorts W DS Port TypeInfo}.
Context `{!RttResources DS Port Property Attribute TypeInfo LocalOperation}.
Context (empty_variant : Variant) (type_getTypeName : TypeInfo → string).
Context (registry : EndpointTypeRegistry) (discovered view : ServiceView).

Lemma snapshotComponent_some component (root : Service) mode selectors (snapshot : ComponentSnapshot) :
  snapshotComponent empty_variant type_getTypeName registry view discovered component (Some root)
    mode selectors = Some snapshot →
  snapshot = finish_snapshot
    (mapResources empty_variant type_getTypeName registry view
       (discoverComponent discovered component (Some root))
       (buildPublicationPlan mode (discoverComponent discovered component (Some root)) component
          selectors) component root).
Proof. intros Hs. apply (inj Some). rewrite <-Hs. reflexivity. Qed.

(** A snapshot without diagnostics: the plan is accepted, and every resource of it
    has its node in a tree. *)
Lemma snapshot_accepted component provides mode selectors (snapshot : ComponentSnapshot) :
  snapshotComponent empty_variant type_getTypeName registry view discovered component provides mode
    selectors = Some snapshot →
  snap_diagnostics snapshot = [] →
  let plan := buildPublicationPlan mode (discoverComponent discovered component provides) component
    selectors in
  plan_diagnostics plan = [] ∧ snap_effective snapshot = effective_resources plan ∧
  node_tree empty_variant registry component (snap_nodes snapshot) ∧
  (∀ path, path ∈ snap_effective snapshot →
     resourceNodePath (component_root component) path ∈ dom (snap_nodes snapshot)) ∧
  ∀ mandatory, mandatory ∈ kMandatoryOperations →
    resourcePath "" kind_operation mandatory.1 ∈ snap_effective snapshot.
Proof.
  destruct provides as [root|]; [|done]. intros Hs Hdiag plan.
  assert (Hclosed : plan_diagnostics plan = [] →
    closed_in (discoverComponent discovered component (Some root)) (effective_resources plan)).
  { intros [Hfatal _]%plan_accepted. by apply plan_closed_in. }
  pose proof (inventory_well_formed discovered component (Some root)) as Hwell.
  apply snapshotComponent_some in Hs. subst snapshot.
  destruct (finished_accepted _ _ _ _ _ _ Hwell plan root Hclosed Hdiag) as [Hplan Heff].
  destruct (finished_tree _ _ _ _ _ _ Hwell plan root Hclosed Hdiag) as [Htree Hnodes].
  refine (conj Hplan (conj Heff (conj Htree (conj Hnodes _)))). intros m Hm.
  refine (eq_ind_r (λ effective, _ ∈ effective) _ Heff). apply plan_effective. right. right.
  apply plan_accepted in Hplan as (_ & _ & Hmandatory). eauto.
Qed.

(** C13: a snapshot without diagnostics is a tree of nodes of eight known forms:
    every node is stored under its own path, and its parent, fewer segments long, is a node of the snapshot (for
    the root node: the folder of all components).  Every effective resource has
    its node. *)
Theorem snapshot_tree component (root : Service) mode selectors (snapshot : ComponentSnapshot)
    (Hsnapshot : snapshotComponent empty_variant type_getTypeName registry view discovered component
       (Some root) mode selectors = Some snapshot)
    (Hdiagnostics : snap_diagnostics snapshot = []) :
  node_tree empty_variant registry component (snap_nodes snapshot) ∧
  ∀ path, path ∈ snap_effective snapshot →
    resourceNodePath (component_root component) path ∈ dom (snap_nodes snapshot).
Proof. by destruct (snapshot_accepted _ _ _ _ _ Hsnapshot Hdiagnostics) as (_ & _ & ? & ? & _). Qed.

(** Publication is strict: an effective resource of the inventory either
    has its node in the snapshot or a diagnostic that names its path, and no
    diagnostic of the plan is lost. *)
Theorem snapshot_accounts component (root : Service) mode selectors (snapshot : ComponentSnapshot)
    (Hsnapshot : snapshotComponent empty_variant type_getTypeName registry view discovered component
       (Some root) mode selectors = Some snapshot) :
  let inventory := discoverComponent discovered component (Some root) in
  let plan := buildPublicationPlan mode inventory component selectors in
  (∀ path, path ∈ effective_resources plan → path ∈ dom (resources inventory) →
     resourceNodePath (component_root component) path ∈ dom (snap_nodes snapshot) ∨
     ∃ diagnostic, diagnostic ∈ snap_diagnostics snapshot ∧ diag_resource_path diagnostic = path) ∧
  ∀ diagnostic, diagnostic ∈ plan_diagnostics plan → diagnostic ∈ snap_diagnostics snapshot.
Proof.
  cbv zeta. apply snapshotComponent_some in Hsnapshot as ->. apply finished_accounts.
  intros. by eapply inventory_well_formed.
Qed.
End properties.

(** ** Witnesses

    A component with the mandatory operations and a service [sub] with a property
    and a port; its service refers back to the root. *)
Definition sample_codec : TypeCodec (list nat) nat nat c_Value c_NodeId c_NodeId :=
  {| dataTypeNodeId := (0%N, inl dt_Int32); valueRank := vr_Scalar; hasValue := true;
     toVariant source _ := mret (true, (λ n, cv_scalar cpp_int32 (Z.of_nat n)) <$> source);
     assignVariant _ _ := mret true; makeDataSource _ := mret (Some 0);
     makeProxyDataSource _ _ := None;
     portValue _ value _ := (pv_value, value) |}.

Definition sample_registry :
    EndpointTypeRegistry c_NodeId c_DataType string (TypeCodec (list nat) nat nat c_Value c_NodeId c_NodeId) :=
  {| namespace_indexes := ∅; custom_data_types := []; custom_data_type_indexes := ∅;
     data_type_nodes := [];
     codecs := {["Int32" := 0; "Bool" := 0; "TaskState" := 0]};
     codecs_by_name := {["Int32" := 0; "Bool" := 0; "TaskState" := 0]};
     codec_heap := {[0 := sample_codec]};
     factory_state := {| factory_namespace_indexes := ∅; factory_data_types := ∅ |} |}.

#[global] Instance sample_resources : RttResources nat nat nat nat string nat := {
  property_source property := Some property;
  property_description _ := "";
  attribute_source attribute := Some attribute;
  source_isAssignable _ := true;
  source_typeInfo _ := Some "Int32";
  source_address source := to_string (N.of_nat source);
  port_isInput _ := true;
  port_isOutput _ := false;
  port_description _ := "";
  port_keepsLastWrittenValue _ := false;
  port_address port := to_string (N.of_nat port);
  getLocalOperation operation := Some (String.length (op_address operation));
}.

(** An operation without arguments and with a result. *)
Definition sample_operation (type : string) : OperationInterfacePart string :=
  {| op_address := "0x1"; op_description := ""; op_arity := 0; op_collectArity := 1;
     op_getArgumentList := inr []; op_getArgumentType _ := inr (Some type);
     op_getCollectType _ := inr (Some type) |}.

Definition sample_view : ServiceView nat (OperationInterfacePart string) nat nat nat :=
  {| getOperationNames service := if service =? 0 then kMandatoryOperations.*1 else [];
     getPropertyNames service := if service =? 0 then [] else ["gain"];
     getAttributeNames _ := [];
     getPortNames service := if service =? 0 then [] else ["in"];
     getProviderNames service := if service =? 0 then ["this"; "sub"] else [];
     getOperation _ name :=
       (λ mandatory, sample_operation mandatory.2) <$>
         List.find (λ mandatory, String.eqb mandatory.1 name) kMandatoryOperations;
     getProperty _ _ := Some 1;
     getValue _ _ := None;
     getPort _ _ := Some 1;
     getService service _ := if service =? 0 then Some 1 else None;
     service_doc _ := "" |}.

Definition sample_snapshot (mode : PublicationMode) (selectors : list string) :=
  snapshotComponent (NS := c_Space) (TaskContext := nat) (cv_scalar cpp_int32 0%Z) (λ type : string, type)
    sample_registry sample_view sample_view "c" (Some 0) mode selectors.

(** The paths of the nodes and the number of diagnostics. *)
Definition snapshot_summary (mode : PublicationMode) (selectors : list string)
    : option (list string * nat) :=
  (λ snapshot, (ordered_elems (dom (snap_nodes snapshot)), length (snap_diagnostics snapshot))) <$>
    sample_snapshot mode selectors.

Example sample_selected :
  snapshot_summary mode_selected ["services/*/properties/**"] =
  Some (["rtt/components/c"; "rtt/components/c/operations"] ++
        (["getTargetState"; "getTaskState"; "inException"; "inFatalError"; "inRunTimeError";
          "isActive"; "isConfigured"; "isRunning"] ≫= λ name,
           ["rtt/components/c/operations/" +:+ name;
            "rtt/components/c/operations/" +:+ name +:+ "/rttOutputSources";
            "rtt/components/c/operations/" +:+ name +:+ "/rttOutputTypes"]) ++
        ["rtt/components/c/services"; "rtt/components/c/services/sub";
         "rtt/components/c/services/sub/properties"; "rtt/components/c/services/sub/properties/gain";
         "rtt/components/c/services/sub/properties/gain/rttType"], 0).
Proof. vm_compute. reflexivity. Qed.

Lemma snapshot_tree_witness :
  match sample_snapshot mode_full [] with
  | Some snapshot =>
      node_tree (Service := nat) (Property := nat) (Attribute := nat) (LocalOperation := nat)
        (cv_scalar cpp_int32 0%Z) sample_registry "c" (snap_nodes snapshot) ∧
      ∀ path, path ∈ snap_effective snapshot →
        resourceNodePath (component_root "c") path ∈ dom (snap_nodes snapshot)
  | None => False
  end.
Proof.
  destruct (sample_snapshot mode_full []) as [snapshot|] eqn:Hs.
  - refine (snapshot_tree (cv_scalar cpp_int32 0%Z) (λ type : string, type) sample_registry sample_view
      sample_view "c" 0 mode_full [] snapshot Hs _).
    assert (Hd : (λ s, length (snap_diagnostics s)) <$> sample_snapshot mode_full [] = Some 0)
      by (vm_compute; reflexivity).
    rewrite Hs in Hd. simpl in Hd. destruct (snap_diagnostics snapshot); [reflexivity|discriminate].
  - assert (Hd : bool_decide (is_Some (sample_snapshot mode_full [])) = true)
      by (vm_compute; reflexivity).
    rewrite Hs in Hd. discriminate.
Defined.

Lemma snapshot_accounts_witness :
  match sample_snapshot mode_selected [] with
  | Some snapshot =>
      let inventory := discoverComponent sample_view "c" (Some 0) in
      let plan := buildPublicationPlan mode_selected inventory "c" [] in
      (∀ path, path ∈ effective_resources plan → path ∈ dom (resources inventory) →
         resourceNodePath (component_root "c") path ∈ dom (snap_nodes snapshot) ∨
         ∃ diagnostic, diagnostic ∈ snap_diagnostics snapshot ∧ diag_resource_path diagnostic = path) ∧
      ∀ diagnostic, diagnostic ∈ plan_diagnostics plan → diagnostic ∈ snap_diagnostics snapshot
  | None => False
  end.
Proof.
  destruct (sample_snapshot mode_selected []) as [snapshot|] eqn:Hs.
  - exact (snapshot_accounts (cv_scalar cpp_int32 0%Z) (λ type : string, type) sample_registry sample_view
      sample_view "c" 0 mode_selected [] snapshot Hs).
  - assert (Hd : bool_decide (is_Some (sample_snapshot mode_selected [])) = true)
      by (vm_compute; reflexivity).
    rewrite Hs in Hd. discriminate.
Defined.
