(* ===== verification/Transaction.v ===== *)
(** Creating and taking back the nodes of a component (src/src/object_model.cpp):
    the ledger of created nodes, the check of a method's argument nodes, the
    rollback of a ledger, and the shared roots of the address space. *)

From S2P Require Import Prelude NodeId Selector Native Concrete DataTypeRegistry.
From S2P Require Import TypeProtocol EndpointTypeRegistry ComponentState OperationDispatcher PortDataSources Inventory.
From S2P Require Import AddressSpace ConcreteServer NodeSpecs Snapshot.

Record CreatedNode (NodeId : Type) := {
  created_id : NodeId;
  recursive_root : bool;
}.
Arguments created_id {_} _.
Arguments recursive_root {_} _.

Record ForeignHierarchicalReference (NodeId : Type) := {
  foreign_source : NodeId;
  foreign_target : NodeId;
  foreign_type : ReferenceTypeId;
}.
Arguments foreign_source {_} _.
Arguments foreign_target {_} _.
Arguments foreign_type {_} _.

(** [vector::max_size()] of the ledger divided by three. *)
Definition ledger_limit (max_size : N) : N := (max_size / 3)%N.

Section transaction.
Context {NS W Variant NodeId StatusCode TaskContext Backend Callback UA_DataType Wire : Type}.
Context `{NodeIds NodeId} `{!Countable NodeId} `{!Variants Variant NodeId UA_DataType Wire}.
Context `{!NodeServices NS NodeId StatusCode Variant Backend Callback}.
Notation creation := (creation NS W TaskContext).
Notation NodeSpec := (@NodeSpec NS W NodeId TaskContext).
Notation CreatedNode := (CreatedNode NodeId).

(** ** The arguments of a method *)

Definition argumentsMatch (actual : NativeArgument NodeId) (expected : Argument NodeId) : bool :=
  String.eqb (na_name actual) (arg_name expected) &&
  bool_decide (na_dataType actual = arg_dataType expected) &&
  bool_decide (na_valueRank actual = rank_number (arg_valueRank expected)) &&
  bool_decide (na_arrayDimensions actual = []).

(** [std::ranges::equal] of two ranges of the same size. *)
Fixpoint allMatch (actual : list (NativeArgument NodeId)) (expected : list (Argument NodeId)) : bool :=
  match actual, expected with
  | [], [] => true
  | a :: actual', e :: expected' => argumentsMatch a e && allMatch actual' expected'
  | _, _ => false
  end.

Definition validateMethodArguments (native : NS) (id : NodeId) (expected : list (Argument NodeId))
    (path : string) (error : option string) : bool * option string :=
  match srv_readDataType id native, srv_readValueRank id native, srv_readValue id native with
  | inr data_type, inr value_rank, inr value =>
      if negb (bool_decide (data_type = argument_type)) ||
         negb (value_rank =? rank_number vr_OneDimension)%Z
      then (false, assignError error ("invalid OPC UA method argument schema for '" +:+ path +:+ "'"))
      else
        match variant_to_arguments value with
        | inl what =>
            (false, assignError error ("invalid OPC UA method argument schema for '" +:+ path +:+
                                       "': " +:+ what))
        | inr actual =>
            if negb (length actual =? length expected) || negb (allMatch actual expected)
            then (false, assignError error ("unexpected OPC UA method argument schema for '" +:+
                                            path +:+ "'"))
            else (true, error)
        end
  | _, _, _ =>
      (false, assignError error ("invalid OPC UA method argument schema for '" +:+ path +:+ "'"))
  end.

(** The first loop: argument nodes go to the ledger, anything else is unexpected. *)
Definition record_argument (state : list CreatedNode * bool)
    (reference : ReferenceDescription NodeId) : list CreatedNode * bool :=
  if negb (rd_isLocal reference) || negb (isMethodArgument reference)
  then (state.1, true)
  else (state.1 ++ [{| created_id := rd_nodeId reference; recursive_root := false |}], state.2).

Definition record_arguments (references : list (ReferenceDescription NodeId))
    (ledger : list CreatedNode) : list CreatedNode * bool :=
  foldl record_argument (ledger, false) references.

Definition unexpected_property_error (path : string) : string :=
  "unexpected OPC UA method property while recording '" +:+ path +:+ "'".

(** The second loop: each argument once and with its schema. *)
Fixpoint check_arguments (native : NS) (spec : NodeSpec)
    (references : list (ReferenceDescription NodeId)) (arguments : gmap string NodeId)
    (error : option string) : bool * gmap string NodeId * option string :=
  match references with
  | [] => (true, arguments, error)
  | reference :: references' =>
      let name := rd_browseName reference in
      let expected :=
        if String.eqb name "InputArguments" && expects_input_arguments spec
        then Some (expected_input_arguments spec)
        else if String.eqb name "OutputArguments" && expects_output_arguments spec
        then Some (expected_output_arguments spec)
        else None in
      let '(accepted, arguments, error) :=
        match expected with
        | None => (false, arguments, error)
        | Some expected =>
            match arguments !! name with
            | Some _ => (false, arguments, error)
            | None =>
                let '(valid, error) :=
                  validateMethodArguments native (rd_nodeId reference) expected (spec_path spec) error in
                (valid, <[name := rd_nodeId reference]> arguments, error)
            end
        end in
      if negb accepted then
        (false, arguments,
         if bool_decide (error = Some "")
         then assignError error (unexpected_property_error (spec_path spec))
         else error)
      else check_arguments native spec references' arguments error
  end.

Definition recordMethodArgumentNodes (native : NS) (namespace_index : N) (spec : NodeSpec)
    (ledger : list CreatedNode) (error : option string)
    : bool * list CreatedNode * option string :=
  match srv_browseAll (nodeid_string namespace_index (spec_path spec)) browse_properties native with
  | inl code =>
      (false, ledger,
       assignError error ("failed to inspect OPC UA method arguments for '" +:+ spec_path spec +:+
                          "': " +:+ status_text code))
  | inr references =>
      let '(ledger, unexpected_property) := record_arguments references ledger in
      if unexpected_property then
        (false, ledger, assignError error (unexpected_property_error (spec_path spec)))
      else
        let '(valid, arguments, error) := check_arguments native spec references ∅ error in
        if negb valid then (false, ledger, error)
        else
          let expected_count :=
            (if expects_input_arguments spec then 1 else 0) +
            (if expects_output_arguments spec then 1 else 0) in
          if negb (size arguments =? expected_count) then
            (false, ledger,
             assignError error ("missing OPC UA method argument property while recording '" +:+
                                spec_path spec +:+ "'"))
          else (true, ledger, error)
  end.

(** ** Creating the nodes *)

(** The order of creation: by depth, then by path. *)
Definition spec_le (left right : NodeSpec) : Prop :=
  let left_depth := pathDepth (spec_path left) in
  let right_depth := pathDepth (spec_path right) in
  left_depth < right_depth ∨
  left_depth = right_depth ∧ String.le (spec_path left) (spec_path right).

#[global] Instance spec_le_dec : RelDecision spec_le.
Proof. intros left right. unfold spec_le. apply _. Defined.

Definition sorted_specs (nodes : gmap string NodeSpec) : list NodeSpec :=
  merge_sort spec_le (snd <$> ordered_items nodes).

Definition set_error (error : option string) (c : creation) : creation :=
  {| c_native := c_native c; c_rtt := c_rtt c; c_state := c_state c;
     c_created := c_created c; c_error := error |}.

(** The loop over the sorted nodes. *)
Fixpoint createNodes (namespace_index : N) (root : string) (specs : list NodeSpec)
    (ledger : list CreatedNode) (c : creation) : creation * list CreatedNode * bool :=
  match specs with
  | [] => (c, ledger, true)
  | spec :: specs' =>
      let primary :=
        {| created_id := nodeid_string namespace_index (spec_path spec);
           recursive_root := String.eqb (spec_path spec) root ||
                             bool_decide (spec_kind spec = node_method) |} in
      let '(c, ready) := createNode namespace_index spec c in
      let ledger := if c_created c then ledger ++ [primary] else ledger in
      let '(recorded, ledger, error) :=
        if c_created c && bool_decide (spec_kind spec = node_method)
        then recordMethodArgumentNodes (c_native c) namespace_index spec ledger (c_error c)
        else (true, ledger, c_error c) in
      let c := set_error error c in
      if negb recorded then (c, ledger, false)
      else if negb ready then (c, ledger, false)
      else if negb (c_created c) then
        (set_error (assignError error ("OPC UA node creator did not report ownership for '" +:+
                                       spec_path spec +:+ "'")) c, ledger, false)
      else createNodes namespace_index root specs' ledger c
  end.

Definition createCandidate (max_size : N) (namespace_index : N) (component : string)
    (nodes : gmap string NodeSpec) (c : creation) : creation * list CreatedNode * bool :=
  if (ledger_limit max_size <? N.of_nat (size nodes))%N then
    (set_error (assignError (c_error c) "OPC UA component snapshot is too large to publish") c, [], false)
  else createNodes namespace_index (component_root component) (sorted_specs nodes) [] c.

(** ** Rolling back *)

(** The walk of [collectDescendantNodeIds]; the head of [pending] is its back,
    and [None] is out of fuel. *)
Fixpoint collectLoop (fuel : nat) (native : NS) (pending : list NodeId) (descendants : gset NodeId)
    (error : option string) : option (bool * gset NodeId * option string) :=
  match pending with
  | [] => Some (true, descendants, error)
  | current :: pending =>
      match fuel with
      | O => None
      | S fuel' =>
          match srv_browseAll current browse_hierarchical native with
          | inl code =>
              Some (false, descendants,
                    appendError error ("failed to inspect an OPC UA rollback subtree: " +:+
                                       status_text code))
          | inr references =>
              let '(pending, descendants) :=
                foldl (λ '(pending, descendants) reference,
                    if negb (rd_isLocal reference) then (pending, descendants)
                    else if bool_decide (rd_nodeId reference ∈ descendants) then (pending, descendants)
                    else (rd_nodeId reference :: pending, {[rd_nodeId reference]} ∪ descendants))
                  (pending, descendants) references in
              collectLoop fuel' native pending descendants error
          end
      end
  end.

(** Each node is pending once, the root perhaps twice. *)
Definition collect_fuel (native : NS) : nat := S (srv_nodeCount native).

Definition collectDescendantNodeIds (native : NS) (root : NodeId) (error : option string)
    : bool * gset NodeId * option string :=
  match collectLoop (collect_fuel native) native [root] ∅ error with
  | Some (true, descendants, error) => (true, descendants ∖ {[root]}, error)
  | Some (false, descendants, error) => (false, descendants, error)
  | None => (false, ∅, error)
  end.

(** The references from created nodes to others; [inl] is the error. *)
Fixpoint foreignReferences (native : NS) (created_ids : gset NodeId) (sources : list NodeId)
    : string + list (ForeignHierarchicalReference NodeId) :=
  match sources with
  | [] => inr []
  | source :: sources' =>
      match srv_browseAll source browse_hierarchical native with
      | inl code => inl ("failed to inspect OPC UA rollback references: " +:+ status_text code)
      | inr references =>
          match foreignReferences native created_ids sources' with
          | inl message => inl message
          | inr foreign =>
              inr (((λ reference,
                       {| foreign_source := source; foreign_target := rd_nodeId reference;
                          foreign_type := rd_referenceTypeId reference |}) <$>
                      filter (λ reference, rd_isLocal reference = true ∧
                                           rd_nodeId reference ∉ created_ids) references) ++
                   foreign)
          end
      end
  end.

Fixpoint deleteReferences (foreign : list (ForeignHierarchicalReference NodeId)) (native : NS)
    (error : option string) : NS * bool * option string :=
  match foreign with
  | [] => (native, true, error)
  | reference :: foreign' =>
      let '(native, result) :=
        srv_deleteReference (foreign_source reference) (foreign_target reference)
          (foreign_type reference) native in
      if status_isBad result then
        (native, false,
         appendError error ("failed to detach a foreign OPC UA rollback reference: " +:+
                            status_text result))
      else deleteReferences foreign' native error
  end.

Definition detachForeignHierarchicalReferences (native : NS) (created_ids : gset NodeId)
    (error : option string) : NS * bool * option string :=
  match foreignReferences native created_ids (elements created_ids) with
  | inl message => (native, false, appendError error message)
  | inr foreign => deleteReferences foreign native error
  end.

(** What the rollback loop carries along. *)
Record rollback_state := {
  rb_native : NS;
  rb_removed : gset NodeId; (* [recursively_removed] *)
  rb_complete : bool;
  rb_error : option string;
}.

Definition rb_fail (message : string) (native : NS) (rb : rollback_state) : rollback_state :=
  {| rb_native := native; rb_removed := rb_removed rb; rb_complete := false;
     rb_error := appendError (rb_error rb) message |}.

(** The inner loop, for one descendant. *)
Definition deleteDescendant (created_ids : gset NodeId) (rb : rollback_state) (descendant : NodeId)
    : rollback_state :=
  if bool_decide (descendant ∉ created_ids) then rb
  else
    let '(native, result) := srv_deleteNode descendant (rb_native rb) in
    if status_isBad result && negb (status_nodeIdUnknown result) then
      rb_fail ("failed to delete an OPC UA rollback descendant: " +:+ status_text result) native rb
    else
      {| rb_native := native; rb_removed := {[descendant]} ∪ rb_removed rb;
         rb_complete := rb_complete rb; rb_error := rb_error rb |}.

(** The body of the loop over the ledger. *)
Definition rollbackNode (created_ids : gset NodeId) (rb : rollback_state) (created : CreatedNode)
    : rollback_state :=
  let '(descendants, rb) :=
    if recursive_root created then
      let '(collected, descendants, error) :=
        collectDescendantNodeIds (rb_native rb) (created_id created) (rb_error rb) in
      (descendants,
       {| rb_native := rb_native rb; rb_removed := rb_removed rb;
          rb_complete := if collected then rb_complete rb else false; rb_error := error |})
    else (∅, rb) in
  let rb := foldl (deleteDescendant created_ids) rb (elements descendants) in
  let '(native, result) := srv_deleteNode (created_id created) (rb_native rb) in
  if status_nodeIdUnknown result then
    if bool_decide (created_id created ∈ rb_removed rb) then
      {| rb_native := native; rb_removed := rb_removed rb; rb_complete := rb_complete rb;
         rb_error := rb_error rb |}
    else rb_fail "an OPC UA rollback node disappeared before deletion" native rb
  else if status_isBad result then
    rb_fail ("failed to delete an OPC UA rollback node: " +:+ status_text result) native rb
  else
    {| rb_native := native; rb_removed := rb_removed rb; rb_complete := rb_complete rb;
       rb_error := rb_error rb |}.

Definition ledger_ids (ledger : list CreatedNode) : gset NodeId :=
  list_to_set ((λ created : CreatedNode, created_id created) <$> ledger).

Definition rollbackCreatedNodes (native : NS) (ledger : list CreatedNode) (error : option string)
    : NS * bool * option string :=
  let created_ids := ledger_ids ledger in
  let '(native, detached, error) := detachForeignHierarchicalReferences native created_ids error in
  if negb detached then (native, false, error)
  else
    let rb := foldl (rollbackNode created_ids)
      {| rb_native := native; rb_removed := ∅; rb_complete := true; rb_error := error |}
      (reverse ledger) in
    (rb_native rb, rb_complete rb, rb_error rb).

(** [closeAndRollback] after [deactivate(state)]; the services do not throw. *)
Definition rollback (native : NS) (ledger : list CreatedNode) (error : option string)
    : NS * bool * option string :=
  let '(native, complete, rollback_error) := rollbackCreatedNodes native ledger (Some "") in
  (native, complete,
   if complete then error
   else appendError error ("rollback failed: " +:+ default "" rollback_error)).

(** ** The shared roots *)

Definition model_path : string := appendNodeSegment "rtt" "model".
Definition revision_path : string := appendNodeSegment model_path "revision".

(** [ensure_object]. *)
Definition ensure_object (namespace_index : N) (path browse_name description : string) (native : NS)
    (error : option string) : NS * bool * option string :=
  let '(native, result) :=
    srv_addObject (nodeid_string namespace_index "rtt") (nodeid_string namespace_index path)
      browse_name {| oa_displayName := browse_name; oa_description := Some description |}
      ref_HasComponent native in
  let '(ensured, error) := sharedRootEnsured result path error in
  (native, ensured, error).

(** The [ulong] value of the revision variable. *)
Definition revision_value (revision : N) : Variant := variant_scalar cpp_uint64 (Z.of_N revision).

Definition ensureRoots (namespace_index revision : N) (roots_ready : bool) (native : NS)
    (error : option string) : NS * bool * option string :=
  if roots_ready then (native, true, error)
  else
    let '(native, root_result) :=
      srv_addObject objects_folder (nodeid_string namespace_index "rtt") "RTT"
        {| oa_displayName := "RTT"; oa_description := Some "Orocos RTT remote object model." |}
        ref_Organizes native in
    let '(ensured, error) := sharedRootEnsured root_result "rtt" error in
    if negb ensured then (native, false, error)
    else
      let '(native, ensured, error) :=
        ensure_object namespace_index components_path "Components" "Published RTT components."
          native error in
      if negb ensured then (native, false, error)
      else
        let '(native, ensured, error) :=
          ensure_object namespace_index model_path "Model" "RTT model metadata." native error in
        if negb ensured then (native, false, error)
        else
          let '(native, revision_result) :=
            srv_addVariable (nodeid_string namespace_index model_path)
              (nodeid_string namespace_index revision_path) "revision"
              (static_attributes "revision" (Some "Monotonic RTT model schema revision.")
                 (revision_value revision) (nodeid_datatype dt_UInt64) vr_Scalar)
              ref_HasComponent native in
          let '(ensured, error) := sharedRootEnsured revision_result revision_path error in
          (native, ensured, error).

(** The write of [advanceRevision]. *)
Definition write_revision (namespace_index revision : N) (native : NS) : NS :=
  (srv_writeValue (nodeid_string namespace_index revision_path) (revision_value revision) native).1.
End transaction.

(** ** Lemmas: descendants *)

Section facts.
Context {NS W Variant NodeId StatusCode TaskContext Backend Callback UA_DataType Wire : Type}.
Context `{NodeIds NodeId} `{!Countable NodeId} `{!Variants Variant NodeId UA_DataType Wire}.
Context `{!NodeServices NS NodeId StatusCode Variant Backend Callback}.
Context `{!AddressSpaces NS NodeId}.
Context `{!NodeServiceLaws NS NodeId StatusCode Variant Backend Callback}.
Notation creation := (creation NS W TaskContext).
Notation NodeSpec := (@NodeSpec NS W NodeId TaskContext).
Notation CreatedNode := (CreatedNode NodeId).
Implicit Types (native ns : NS) (id : NodeId) (ledger : list CreatedNode) (descendants : gset NodeId).

Lemma push_references (references : list (ReferenceDescription NodeId)) pending descendants :
  ∃ new, foldl (λ '(pending, descendants) reference,
      if negb (rd_isLocal reference) then (pending, descendants)
      else if bool_decide (rd_nodeId reference ∈ descendants) then (pending, descendants)
      else (rd_nodeId reference :: pending, {[rd_nodeId reference]} ∪ descendants))
    (pending, descendants) references = (new ++ pending, list_to_set new ∪ descendants) ∧
  NoDup new ∧ list_to_set new ## descendants ∧
  ∀ id, id ∈ new ∨ id ∈ descendants ↔
    id ∈ descendants ∨ ∃ reference, reference ∈ references ∧ rd_nodeId reference = id ∧
      rd_isLocal reference = true.
Proof.
  revert pending descendants. induction references as [|r references IH]; intros pending descendants.
  { exists []. split_and!; [cbn; by rewrite (left_id_L ∅ (∪))|constructor|set_solver|].
    intros id. split; [intros [?%elem_of_nil|?]; [done|by left]|].
    intros [?|(r & ?%elem_of_nil & _)]; [by right|done]. }
  assert (Hcons : ∀ id, (∃ reference, reference ∈ r :: references ∧ rd_nodeId reference = id ∧
      rd_isLocal reference = true) ↔ (rd_nodeId r = id ∧ rd_isLocal r = true) ∨
      ∃ reference, reference ∈ references ∧ rd_nodeId reference = id ∧ rd_isLocal reference = true)
    by (intros id; setoid_rewrite elem_of_cons; naive_solver).
  cbn [foldl].
  destruct (rd_isLocal r) eqn:Hlocal; cbn [negb]; [case_bool_decide as Hin|].
  1,3: destruct (IH pending descendants) as (new & -> & Hnd & Hdisj & Hids); exists new;
    split_and!; [done..|]; intros id; rewrite Hids, Hcons; naive_solver.
  destruct (IH (rd_nodeId r :: pending) ({[rd_nodeId r]} ∪ descendants))
    as (new & -> & Hnd & Hdisj & Hids).
  exists (new ++ [rd_nodeId r]). split_and!.
  - rewrite <-app_assoc, list_to_set_app_L. f_equal. apply set_eq. set_solver.
  - apply NoDup_app. split_and!; [done| |apply NoDup_singleton]. set_solver.
  - set_solver.
  - intros id. specialize (Hids id). rewrite elem_of_union, elem_of_singleton in Hids.
    rewrite Hcons, elem_of_app, list_elem_of_singleton. naive_solver.
Qed.

(** What is collected so far hangs below the root, and everything whose
    references have been followed has its targets collected. *)
Record collecting native (root : NodeId) (pending : list NodeId) descendants : Prop := {
  co_pending : ∀ id, id ∈ pending → id = root ∨ id ∈ descendants;
  co_sound : ∀ id, id ∈ descendants → descends_to native root id ∧ id ∈ node_ids native;
  co_closed : ∀ id, id = root ∨ id ∈ descendants → id ∈ pending ∨
    ∀ target type, hierarchical native id target type → target ∈ descendants;
}.

Lemma collect_step native root current pending descendants references new :
  srv_browseAll current browse_hierarchical native = inr references →
  collecting native root (current :: pending) descendants →
  (∀ id, id ∈ new ∨ id ∈ descendants ↔ id ∈ descendants ∨ ∃ reference,
     reference ∈ references ∧ rd_nodeId reference = id ∧ rd_isLocal reference = true) →
  collecting native root (new ++ pending) (list_to_set new ∪ descendants).
Proof.
  intros Hbrowse [Hpending Hsound Hclosed] Hnew.
  pose proof (browse_hierarchical_spec current native references Hbrowse) as Hrefs.
  assert (Hcurrent : descends_to native root current).
  { destruct (Hpending current) as [->|?]; [left|apply rtc_refl|by apply Hsound]. }
  split.
  - intros id [?|?]%elem_of_app; [set_solver|]. destruct (Hpending id); [by right|by left|set_solver].
  - intros id [Hin%elem_of_list_to_set|?]%elem_of_union; [|by apply Hsound].
    destruct (proj1 (Hnew id)) as [?|(r & Hr & <- & Hlocal)]; [by left|by apply Hsound|].
    assert (hierarchical native current (rd_nodeId r) (rd_referenceTypeId r)) as Hh
      by (apply Hrefs; by exists r).
    split; [|by eapply hierarchical_target]. eapply rtc_r; [done|]. by eexists.
  - intros id Hid. destruct (decide (id ∈ new ++ pending)) as [?|Hout]; [by left|right].
    destruct (decide (id = current)) as [->|Hne].
    + intros target type Hh. apply Hrefs in Hh as (r & Hr & <- & _ & Hlocal).
      rewrite elem_of_union, elem_of_list_to_set. apply Hnew. right. by exists r.
    + destruct (Hclosed id) as [Hp|Ht]; [set_solver| |].
      * exfalso. apply Hout, elem_of_app. right. set_solver.
      * intros target type Hh. apply elem_of_union. right. by eapply Ht.
Qed.

Lemma collectLoop_spec fuel native root pending descendants error :
  collecting native root pending descendants →
  length pending + (size (node_ids native) - size descendants) ≤ fuel →
  ∃ collected descendants' error',
    collectLoop fuel native pending descendants error = Some (collected, descendants', error') ∧
    (collected = true → collecting native root [] descendants').
Proof.
  revert pending descendants. induction fuel as [|fuel IH]; intros [|current pending] descendants Hco Hf.
  1,3: by eexists _, _, _.
  { simpl in Hf. lia. }
  cbn [collectLoop]. destruct (srv_browseAll current browse_hierarchical native) as [code|references] eqn:Hb.
  { eexists _, _, _. by split. }
  destruct (push_references references pending descendants) as (new & -> & Hnd & Hdisj & Hnew).
  pose proof (collect_step native root current pending descendants references new Hb Hco Hnew) as Hco'.
  apply IH; [done|].
  assert (Hsub : list_to_set new ∪ descendants ⊆ node_ids native).
  { intros id Hid. by apply Hco'. }
  apply subseteq_size in Hsub.
  rewrite size_union, size_list_to_set in * by done. rewrite length_app. simpl in Hf. lia.
Qed.

Lemma collecting_descends native root descendants id :
  collecting native root [] descendants → descends_to native root id → id = root ∨ id ∈ descendants.
Proof.
  intros [_ _ Hclosed]. revert id.
  refine (rtc_ind_r (λ id, id = root ∨ id ∈ descendants) root _ _); [by left|].
  intros id id' _ [type Hh] IH. right. destruct (Hclosed id IH) as [?%elem_of_nil|Ht]; [done|]. by eapply Ht.
Qed.

Lemma collect_descendants native root error :
  match collectDescendantNodeIds native root error with
  | (true, descendants, _) => ∀ id, id ∈ descendants ↔ descends_to native root id ∧ id ≠ root
  | (false, _, _) => ∃ id code, srv_browseAll id browse_hierarchical native = inl code
  end.
Proof.
  unfold collectDescendantNodeIds, collect_fuel.
  destruct (collectLoop_spec (S (srv_nodeCount native)) native root [root] ∅ error)
    as (collected & descendants & error' & Hloop & Hco).
  { split; [set_solver|set_solver|]. intros id [->|?]; [left; left|set_solver]. }
  { cbn [length]. pose proof (nodeCount_bound native). lia. }
  rewrite Hloop. destruct collected.
  - intros id. specialize (Hco eq_refl). rewrite elem_of_difference, elem_of_singleton. split.
    + intros [Hin ?]. split; [by apply (co_sound _ _ _ _ Hco)|done].
    + intros [Hdesc ?]. destruct (collecting_descends _ _ _ _ Hco Hdesc); done.
  - clear -Hloop. revert Hloop.
    generalize (S (srv_nodeCount native)), [root], (∅ : gset NodeId). intros fuel.
    induction fuel as [|fuel IH]; intros [|current pending] d; cbn [collectLoop]; try done.
    destruct (srv_browseAll current browse_hierarchical native) as [code|references] eqn:Hb; [eauto|].
    destruct (foldl _ _ _) as [pending' d']. apply IH.
Qed.

(** ** Lemmas: rolling back *)

(** No hierarchical reference leads out of [ids]. *)
Definition self_contained native (ids : gset NodeId) : Prop :=
  ∀ source target type, source ∈ ids → hierarchical native source target type → target ∈ ids.

Lemma self_contained_descends native ids source target :
  self_contained native ids → source ∈ ids → descends_to native source target → target ∈ ids.
Proof. intros Hself Hs Hd. induction Hd as [|x y z [type Hh] _ IH]; [done|]. eauto. Qed.

Lemma foreignReferences_spec native ids sources foreign :
  foreignReferences native ids sources = inr foreign →
  ∀ source target type, source ∈ sources → hierarchical native source target type →
    target ∈ ids ∨ {| foreign_source := source; foreign_target := target; foreign_type := type |} ∈ foreign.
Proof.
  revert foreign. induction sources as [|s sources IH]; intros foreign; cbn [foreignReferences].
  { by intros _ ? ? ? ?%elem_of_nil. }
  destruct (srv_browseAll s browse_hierarchical native) as [code|references] eqn:Hb; [done|].
  destruct (foreignReferences native ids sources) as [message|foreign'] eqn:Hf; [done|].
  intros [= <-] source target type [->|Hin]%elem_of_cons Hh.
  - apply (browse_hierarchical_spec _ _ _ Hb) in Hh as (r & Hr & <- & <- & Hlocal).
    destruct (decide (rd_nodeId r ∈ ids)) as [?|Hout]; [by left|right].
    apply elem_of_app. left. apply list_elem_of_fmap. exists r. split; [done|].
    by apply list_elem_of_filter.
  - destruct (IH foreign' eq_refl source target type Hin Hh) as [?|?]; [by left|right].
    apply elem_of_app. by right.
Qed.

Lemma deleteReferences_spec foreign native error :
  let '(native', detached, _) := deleteReferences foreign native error in
  node_ids native' = node_ids native ∧
  (∀ s t ty, hierarchical native' s t ty → hierarchical native s t ty) ∧
  (detached = true → ∀ reference, reference ∈ foreign →
     ¬ hierarchical native' (foreign_source reference) (foreign_target reference) (foreign_type reference)).
Proof.
  revert native. induction foreign as [|reference foreign IH]; intros native; cbn [deleteReferences].
  { split_and!; [done|done|]. by intros _ ? ?%elem_of_nil. }
  destruct (srv_deleteReference _ _ _ native) as [native1 code] eqn:Hd.
  destruct (deleteReference_spec _ _ _ _ _ _ Hd) as (Hn & Hh & Hgone).
  destruct (status_isBad code) eqn:Hbad; [by split_and!|].
  specialize (IH native1). destruct (deleteReferences foreign native1 error) as [[native' detached] ?].
  destruct IH as (Hn' & Hh' & Hgone'). split_and!; [congruence|eauto|].
  intros Hdet r [->|Hr]%elem_of_cons; [|by apply Hgone'].
  intros Hbadref. by apply (Hgone eq_refl), Hh'.
Qed.

Lemma detach_spec native ids error :
  let '(native', detached, _) := detachForeignHierarchicalReferences native ids error in
  node_ids native' = node_ids native ∧ (detached = true → self_contained native' ids).
Proof.
  unfold detachForeignHierarchicalReferences.
  destruct (foreignReferences native ids (elements ids)) as [message|foreign] eqn:Hf; [done|].
  pose proof (deleteReferences_spec foreign native error) as Hspec.
  destruct (deleteReferences foreign native error) as [[native' detached] ?].
  destruct Hspec as (Hn & Hh & Hgone). split; [done|].
  intros Hdet source target type Hs Hh'.
  destruct (foreignReferences_spec _ _ _ _ Hf source target type) as [?|Hin]; auto.
  - by apply elem_of_elements.
  - by destruct (Hgone Hdet _ Hin).
Qed.

(** While a ledger with the ids [ids] is rolled back, starting from [native]. *)
Record rolling native (ids : gset NodeId) (current : NS) : Prop := {
  ro_subset : node_ids current ⊆ node_ids native;
  ro_kept : node_ids native ∖ ids ⊆ node_ids current;
  ro_self : self_contained current ids;
}.

Lemma rolling_delete native ids current id current' code :
  rolling native ids current → id ∈ ids → srv_deleteNode id current = (current', code) →
  rolling native ids current' ∧ node_ids current' ⊆ node_ids current ∧
  (status_isBad code = false ∨ status_nodeIdUnknown code = true → id ∉ node_ids current').
Proof.
  intros [Hsub Hkept Hself] Hid Hdel.
  destruct (deleteNode_spec _ _ _ _ Hdel) as (Hsub' & Hh & Hremoved & Hgone).
  split; [|done]. split.
  - set_solver.
  - intros node Hnode. destruct (decide (node ∈ node_ids current')) as [?|Hout]; [done|].
    pose proof (Hkept node Hnode) as Hcur. apply elem_of_difference in Hnode as [_ Hnot].
    destruct Hnot. eapply self_contained_descends; [done..|]. by apply Hremoved.
  - intros s t ty Hs Hst. eapply Hself; eauto.
Qed.

(** One step of the rollback: nodes only go, and completeness is never regained. *)
Definition rb_later (native : NS) (ids : gset NodeId) (rb rb' : rollback_state) : Prop :=
  rolling native ids (rb_native rb) →
  rolling native ids (rb_native rb') ∧ node_ids (rb_native rb') ⊆ node_ids (rb_native rb) ∧
  (rb_complete rb' = true → rb_complete rb = true).

Lemma rb_later_refl native ids rb : rb_later native ids rb rb.
Proof. by intros ?. Qed.

Lemma rb_later_trans native ids rb1 rb2 rb3 :
  rb_later native ids rb1 rb2 → rb_later native ids rb2 rb3 → rb_later native ids rb1 rb3.
Proof.
  intros H12 H23 H1. destruct (H12 H1) as (H2 & ? & ?). destruct (H23 H2) as (? & ? & ?).
  split_and!; [done|set_solver|auto].
Qed.

Lemma rb_later_foldl {A} native ids (f : rollback_state → A → rollback_state) rb (l : list A) :
  (∀ rb x, rb_later native ids rb (f rb x)) → rb_later native ids rb (foldl f rb l).
Proof.
  intros Hf. revert rb. induction l as [|x l IH]; intros rb; [apply rb_later_refl|].
  eapply rb_later_trans; [apply Hf|apply IH].
Qed.

Lemma deleteDescendant_later native ids rb descendant :
  rb_later native ids rb (deleteDescendant ids rb descendant).
Proof.
  unfold deleteDescendant. case_bool_decide as Hin; [apply rb_later_refl|]. intros Hrolling.
  destruct (srv_deleteNode descendant (rb_native rb)) as [current code] eqn:Hd.
  destruct (rolling_delete _ _ _ _ _ _ Hrolling Hin Hd) as (? & ? & _).
  case_match; cbn [rb_native rb_complete rb_fail]; split_and!; done.
Qed.

Lemma rollbackNode_later native ids rb created :
  created_id created ∈ ids →
  rb_later native ids rb (rollbackNode ids rb created) ∧
  (rolling native ids (rb_native rb) → rb_complete (rollbackNode ids rb created) = true →
   created_id created ∉ node_ids (rb_native (rollbackNode ids rb created))).
Proof.
  intros Hid. unfold rollbackNode.
  set (collected := if recursive_root created then _ else _).
  assert (Hc : rb_later native ids rb collected.2).
  { unfold collected. destruct (recursive_root created); [|apply rb_later_refl].
    destruct (collectDescendantNodeIds _ _ _) as [[ok descendants] error]. intros Hrolling. simpl.
    split_and!; [done|done|]. by destruct ok. }
  destruct collected as [descendants rb1]. simpl in Hc.
  set (rb2 := foldl (deleteDescendant ids) rb1 (elements descendants)).
  assert (H12 : rb_later native ids rb rb2).
  { eapply rb_later_trans; [done|]. apply rb_later_foldl. intros. apply deleteDescendant_later. }
  clearbody rb2. clear Hc.
  destruct (srv_deleteNode (created_id created) (rb_native rb2)) as [current code] eqn:Hd.
  assert (Hstep : rolling native ids (rb_native rb) → rolling native ids current ∧
    node_ids current ⊆ node_ids (rb_native rb) ∧ (rb_complete rb2 = true → rb_complete rb = true) ∧
    (status_isBad code = false ∨ status_nodeIdUnknown code = true →
     created_id created ∉ node_ids current)).
  { intros Hrolling. destruct (H12 Hrolling) as (Hrolling2 & Hsub & ?).
    destruct (rolling_delete _ _ _ _ _ _ Hrolling2 Hid Hd) as (? & ? & ?).
    split_and!; [done|set_solver|done|done]. }
  split.
  - intros Hrolling. destruct (Hstep Hrolling) as (? & ? & ? & _). by repeat case_match.
  - intros Hrolling. destruct (Hstep Hrolling) as (_ & _ & _ & Hgone).
    repeat case_match; cbn [rb_complete rb_native rb_fail]; try done; intros _; auto.
Qed.

Lemma rollback_loop native ids ledger rb :
  (∀ created, created ∈ ledger → created_id created ∈ ids) →
  rolling native ids (rb_native rb) →
  rb_later native ids rb (foldl (rollbackNode ids) rb ledger) ∧
  (rb_complete (foldl (rollbackNode ids) rb ledger) = true →
   ∀ created, created ∈ ledger →
     created_id created ∉ node_ids (rb_native (foldl (rollbackNode ids) rb ledger))).
Proof.
  revert rb. induction ledger as [|created ledger IH]; intros rb Hids Hrolling; cbn [foldl].
  { split; [apply rb_later_refl|]. by intros _ ? ?%elem_of_nil. }
  destruct (rollbackNode_later native ids rb created) as [Hlater Hgone]; [set_solver|].
  destruct (Hlater Hrolling) as (Hrolling' & _ & _).
  destruct (IH (rollbackNode ids rb created)) as [Hlater' Hgone']; [set_solver|done|].
  split; [by eapply rb_later_trans|]. intros Hcomplete c [->|Hc]%elem_of_cons; [|by apply Hgone'].
  destruct (Hlater' Hrolling') as (_ & Hsub & Hcomplete'). intros Hin.
  by apply (Hgone Hrolling (Hcomplete' Hcomplete)), Hsub.
Qed.

Lemma elem_of_ledger_ids ledger id :
  id ∈ ledger_ids ledger ↔ ∃ created, created ∈ ledger ∧ created_id created = id.
Proof.
  unfold ledger_ids. rewrite elem_of_list_to_set, list_elem_of_fmap. naive_solver.
Qed.

(** A rollback deletes nothing but the nodes of the ledger; a complete one
    deletes all of them. *)
Lemma rollback_nodes native ledger error :
  let '(native', complete, _) := rollbackCreatedNodes native ledger error in
  node_ids native' ⊆ node_ids native ∧ node_ids native ∖ ledger_ids ledger ⊆ node_ids native' ∧
  (complete = true → node_ids native' = node_ids native ∖ ledger_ids ledger).
Proof.
  unfold rollbackCreatedNodes. set (ids := ledger_ids ledger).
  pose proof (detach_spec native ids error) as Hdetach.
  destruct (detachForeignHierarchicalReferences native ids error) as [[native1 detached] error1].
  destruct Hdetach as [Hnodes Hself].
  destruct detached; cbn [negb]; [|by rewrite Hnodes; set_solver].
  set (rb := {| rb_native := native1; rb_removed := ∅; rb_complete := true; rb_error := error1 |}).
  assert (Hrolling : rolling native ids (rb_native rb)).
  { split; simpl; rewrite ?Hnodes; [done|set_solver|by apply Hself]. }
  destruct (rollback_loop native ids (reverse ledger) rb) as [Hlater Hgone]; [|done|].
  { intros created Hin. apply elem_of_ledger_ids. exists created. split; [|done].
    by rewrite elem_of_reverse in Hin. }
  destruct (Hlater Hrolling) as ([Hsub Hkept _] & _ & _).
  split_and!; [done|done|]. intros Hcomplete. apply (anti_symm (⊆)); [|done].
  intros id Hin. apply elem_of_difference. split; [by apply Hsub|].
  intros (created & Hc & <-)%elem_of_ledger_ids. apply (Hgone Hcomplete created); [|done].
  by apply elem_of_reverse.
Qed.
End facts.

(** ** Lemmas: what a creator does *)

Section creators.
Context {NS W DS Port Variant NodeId StatusCode UA_DataType DataType Wire TypeInfo : Type}.
Context {Service Property Attribute LocalOperation TaskContext : Type}.
Context `{EqDecision TypeInfo} `{!Countable TypeInfo}.
Notation TypeCodec := (TypeCodec W DS Port Variant NodeId UA_DataType).
Notation EndpointTypeRegistry := (EndpointTypeRegistry UA_DataType DataType TypeInfo TypeCodec).
Notation Backend := (@Backend W DS Port Variant NodeId UA_DataType DataType TypeInfo _ _).
Notation MethodCallback := (@MethodCallback Service LocalOperation).
Notation creation := (creation NS W TaskContext).
Notation NodeSpec := (@NodeSpec NS W NodeId TaskContext).
Context `{NodeIds NodeId} `{!Countable NodeId} `{!Variants Variant NodeId UA_DataType Wire}.
Context `{!NodeServices NS NodeId StatusCode Variant Backend MethodCallback}.
Context `{!AddressSpaces NS NodeId}.
Context `{!NodeServiceLaws NS NodeId StatusCode Variant Backend MethodCallback}.
Context `{!RttPorts W DS Port TypeInfo}.
Context `{!RttResources DS Port Property Attribute TypeInfo LocalOperation}.
Context (empty_variant : Variant) (registry : EndpointTypeRegistry).
Implicit Types (c : creation) (id : NodeId) (spec : NodeSpec).

(** Nothing is added, or the node [id] with [arguments] below it; the component
    state is as it was. *)
Definition creates id (arguments : NS → gset NodeId → Prop) c (outcome : creation * (exn + bool)) : Prop :=
  let c' := outcome.1 in
  c_state c' = c_state c ∧
  ((c_created c' = c_created c ∧ node_ids (c_native c') = node_ids (c_native c)) ∨
   (c_created c' = true ∧ id ∉ node_ids (c_native c) ∧ ∃ nodes,
      arguments (c_native c') nodes ∧ nodes ## node_ids (c_native c) ∧ id ∉ nodes ∧
      node_ids (c_native c') = {[id]} ∪ nodes ∪ node_ids (c_native c))).

Definition no_arguments (native : NS) (nodes : gset NodeId) : Prop := nodes = ∅.

(** The nodes that a browse of the method's properties lists as arguments. *)
Definition method_arguments id (native : NS) (nodes : gset NodeId) : Prop :=
  ∀ references, srv_browseAll id browse_properties native = inr references →
    ∀ target, target ∈ nodes ↔ ∃ reference, reference ∈ references ∧
      rd_nodeId reference = target ∧ rd_isLocal reference = true ∧ isMethodArgument reference = true.

Lemma creates_nothing id arguments c c' r :
  c_state c' = c_state c → c_created c' = c_created c → c_native c' = c_native c →
  creates id arguments c (c', r).
Proof. intros ?? Hn. split; [done|]. left. simpl. by rewrite Hn. Qed.

(** A call of [addObject] or [addVariable] and the check of its result. *)
Lemma add_creates id (add : NS → NS * (StatusCode + NodeId)) path c :
  (∀ ns, match add ns with
         | (ns', inl _) => node_ids ns' = node_ids ns
         | (ns', inr _) => id ∉ node_ids ns ∧ node_ids ns' = {[id]} ∪ node_ids ns
         end) →
  creates id no_arguments c ((result ← on_native add; componentNodeCreated result path) c).
Proof.
  intros Hadd. unfold mbind, IO_bind, on_native. specialize (Hadd (c_native c)).
  destruct (add (c_native c)) as [ns [code|id']]; (split; [done|]); simpl; [by left|right].
  destruct Hadd as [? ->]. split_and!; [done..|]. exists ∅. split_and!; [done|set_solver|set_solver|].
  by rewrite (right_id_L ∅ (∪)).
Qed.

Lemma add_method_creates id parent path name callback inputs outputs attributes type c :
  creates id (method_arguments id) c
    ((result ← on_native (srv_addMethod parent id name callback inputs outputs attributes type);
      componentNodeCreated result path) c).
Proof.
  unfold mbind, IO_bind, on_native.
  pose proof (addMethod_spec parent id name callback inputs outputs attributes type (c_native c)) as Hadd.
  destruct (srv_addMethod _ _ _ _ _ _ _ _ _) as [ns [code|id']]; (split; [done|]); simpl; [by left|right].
  destruct Hadd as (? & nodes & ? & ? & ? & ?). split_and!; [done..|]. by exists nodes.
Qed.

(** The lease of a creator is given back. *)
Lemma leased_creates id arguments (body : bool → IO creation bool) c :
  lease_room (c_state c) →
  (∀ lease c, creates id arguments c (body lease c)) → creates id arguments c (leased body c).
Proof.
  intros Hroom Hbody. unfold leased. destruct (c_state c) as [state|] eqn:Hstate; [|apply Hbody].
  unfold ComponentLease_acquire. cbn [negb].
  destruct (admission_closed state || _ || _) eqn:Hguard.
  - specialize (Hbody (ComponentLease_bool (null_lease (TaskContext := TaskContext))) (with_state (Some state) c)).
    destruct (body _ _) as [c' r]. destruct Hbody as [Hs Hc]. split; [|exact Hc].
    simpl in Hs |- *. rewrite Hs, Hstate. done.
  - set (lease := {| lease_state := true; lease_component := component state |}).
    set (held := set_users state (size_increment (users state))).
    specialize (Hbody (ComponentLease_bool lease) (with_state (Some held) c)).
    destruct (body _ _) as [c' r]. destruct Hbody as [Hs Hc]. split; [|exact Hc].
    simpl in Hs |- *. rewrite Hs, Hstate. simpl. f_equal.
    unfold held, set_users, size_increment, size_decrement. simpl in *.
    rewrite N.mod_small by done. destruct (N.eqb_spec (users state + 1) 0); [lia|].
    replace (users state + 1 - 1)%N with (users state) by lia. by destruct state.
Qed.

Lemma on_rtt_creates {A} id arguments (m : IO W A) (k : A → IO creation bool) c :
  (∀ x c, creates id arguments c (k x c)) → creates id arguments c ((x ← on_rtt m; k x) c).
Proof.
  intros Hk. unfold mbind, IO_bind, on_rtt. destruct (m (c_rtt c)) as [w [e|x]].
  - by apply creates_nothing.
  - specialize (Hk x {| c_native := c_native c; c_rtt := w; c_state := c_state c;
                        c_created := c_created c; c_error := c_error c |}).
    destruct (k x _). exact Hk.
Qed.

Lemma report_creates id arguments message c :
  creates id arguments c ((report_error message;; mret false) c).
Proof. by apply creates_nothing. Qed.

Lemma addBackedVariable_creates namespace_index parent path name attributes backend c :
  creates (nodeid_string namespace_index path) no_arguments c
    (addBackedVariable namespace_index parent path name attributes backend c).
Proof.
  unfold addBackedVariable.
  pose proof (add_creates (nodeid_string namespace_index path)
    (srv_addVariable (nodeid_string namespace_index parent) (nodeid_string namespace_index path)
       name attributes ref_HasComponent) path c (addVariable_spec _ _ _ _ _)) as Hadd.
  unfold mbind, IO_bind in *. destruct (on_native _ c) as [c1 [e|result]]; [done|].
  destruct (componentNodeCreated result path c1) as [c2 [e|created]]; [done|].
  destruct created; cbn [negb]; [|exact Hadd].
  unfold on_native_io.
  pose proof (setBackend_nodes (nodeid_string namespace_index path) backend (c_native c2)) as Hback.
  destruct (srv_setBackend _ _ _) as [ns r]. simpl in Hback.
  destruct Hadd as [Hs Hc]. destruct r as [e|[]]; (split; [exact Hs|]); simpl in *; rewrite Hback; done.
Qed.

(** Every node of a snapshot is created under its own id. *)
Lemma built_creates namespace_index spec c :
  built empty_variant registry spec → lease_room (c_state c) →
  creates (nodeid_string namespace_index (spec_path spec))
    (if decide (spec_kind spec = node_method)
     then method_arguments (nodeid_string namespace_index (spec_path spec)) else no_arguments)
    c (spec_create spec namespace_index c).
Proof.
  intros Hbuilt Hroom.
  destruct Hbuilt; cbn [spec_kind spec_path spec_create objectSpec variableSpec staticStringSpec
    portDirectionSpec staticArrayPropertySpec dataSourceSpec inputPortValueSpec outputPortValueSpec
    operationSpec]; first [rewrite decide_True by done | rewrite decide_False by done].
  - apply add_creates. intros. apply addObject_spec.
  - apply add_creates. intros. apply addVariable_spec.
  - apply add_creates. intros. apply addVariable_spec.
  - destruct (negb _); [apply report_creates|]. apply add_creates. intros. apply addVariable_spec.
  - apply leased_creates; [done|]. intros lease c'. destruct lease; [|apply report_creates].
    destruct (source_codec _ _) as [codec|]; [|apply report_creates].
    apply on_rtt_creates. intros encoded c''. destruct (negb _); [apply report_creates|].
    apply addBackedVariable_creates.
  - apply leased_creates; [done|]. intros lease c'. destruct (negb lease || _); [apply report_creates|].
    destruct (NodeSpecs.port_codec _ _) as [codec|]; [|apply report_creates].
    destruct (negb _); [apply report_creates|].
    apply on_rtt_creates. intros [[bridge|] ?] c''; [apply addBackedVariable_creates|apply report_creates].
  - apply leased_creates; [done|]. intros lease c'. destruct (negb lease || _); [apply report_creates|].
    destruct (NodeSpecs.port_codec _ _) as [codec|]; [|apply report_creates].
    destruct (negb _); [apply report_creates|].
    apply on_rtt_creates. intros [[bridge|] ?] c''; [apply addBackedVariable_creates|apply report_creates].
  - apply add_method_creates.
Qed.

(** ** Lemmas: creating the nodes of a component *)

Definition spec_arguments namespace_index spec : NS → gset NodeId → Prop :=
  if decide (spec_kind spec = node_method)
  then method_arguments (nodeid_string namespace_index (spec_path spec)) else no_arguments.

Lemma createNode_effect namespace_index spec c :
  built empty_variant registry spec → lease_room (c_state c) →
  let id := nodeid_string namespace_index (spec_path spec) in
  let c' := (createNode namespace_index spec c).1 in
  c_state c' = c_state c ∧
  if c_created c' then
    id ∉ node_ids (c_native c) ∧ ∃ nodes, spec_arguments namespace_index spec (c_native c') nodes ∧
      nodes ## node_ids (c_native c) ∧ id ∉ nodes ∧
      node_ids (c_native c') = {[id]} ∪ nodes ∪ node_ids (c_native c)
  else node_ids (c_native c') = node_ids (c_native c).
Proof.
  intros Hbuilt Hroom id c'. unfold c', createNode.
  set (c0 := {| c_native := c_native c; c_rtt := _; c_state := _; c_created := _; c_error := _ |}).
  pose proof (built_creates namespace_index spec c0 Hbuilt Hroom) as [Hstate Hcases].
  destruct (spec_create spec namespace_index c0) as [c1 [[what|]|ready]]; simpl in *;
    (split; [exact Hstate|]);
    destruct Hcases as [[-> ?]|(-> & ? & ?)]; by simpl.
Qed.

Lemma record_arguments_ledger references (ledger : list (CreatedNode NodeId)) :
  ∃ new, (record_arguments references ledger).1 = ledger ++ new ∧
    ∀ id, id ∈ ledger_ids new ↔ ∃ reference, reference ∈ references ∧
      rd_nodeId reference = id ∧ rd_isLocal reference = true ∧ isMethodArgument reference = true.
Proof.
  unfold record_arguments. cut (∀ state : list (CreatedNode NodeId) * bool,
    ∃ new, (foldl record_argument state references).1 = state.1 ++ new ∧
    ∀ id, id ∈ ledger_ids new ↔ ∃ reference, reference ∈ references ∧
      rd_nodeId reference = id ∧ rd_isLocal reference = true ∧ isMethodArgument reference = true).
  { intros Hcut. apply (Hcut (ledger, false)). }
  clear ledger. induction references as [|r references IH]; intros state; cbn [foldl].
  { exists []. rewrite app_nil_r. split; [done|]. intros id. rewrite elem_of_ledger_ids.
    split; [intros (? & ?%elem_of_nil & _)|intros (? & ?%elem_of_nil & _)]; done. }
  assert (Hcons : ∀ id, (∃ reference, reference ∈ r :: references ∧ rd_nodeId reference = id ∧
      rd_isLocal reference = true ∧ isMethodArgument reference = true) ↔
    (rd_nodeId r = id ∧ rd_isLocal r = true ∧ isMethodArgument r = true) ∨
    ∃ reference, reference ∈ references ∧ rd_nodeId reference = id ∧ rd_isLocal reference = true ∧
      isMethodArgument reference = true) by (intros id; setoid_rewrite elem_of_cons; naive_solver).
  destruct (IH (record_argument state r)) as (new & Hnew & Hids). rewrite Hnew. unfold record_argument.
  destruct (negb (rd_isLocal r) || negb (isMethodArgument r)) eqn:Hskip; cbn [fst].
  - exists new. split; [done|]. intros id. rewrite Hids, Hcons.
    apply orb_true_iff in Hskip as [?%negb_true_iff|?%negb_true_iff]; naive_solver congruence.
  - exists ({| created_id := rd_nodeId r; recursive_root := false |} :: new).
    rewrite <-app_assoc. split; [done|]. intros id.
    apply orb_false_iff in Hskip as [?%negb_false_iff ?%negb_false_iff].
    rewrite Hcons, <-Hids. unfold ledger_ids. cbn [fmap list_fmap list_to_set created_id].
    rewrite elem_of_union, elem_of_singleton. naive_solver.
Qed.

Lemma recordMethodArgumentNodes_ledger (native : NS) namespace_index spec ledger error :
  let id := nodeid_string namespace_index (spec_path spec) in
  let '(recorded, ledger', _) :=
    recordMethodArgumentNodes native namespace_index spec ledger error in
  (∃ code, srv_browseAll id browse_properties native = inl code ∧ recorded = false ∧ ledger' = ledger) ∨
  (∃ references new, srv_browseAll id browse_properties native = inr references ∧
     ledger' = ledger ++ new ∧ ∀ target, target ∈ ledger_ids new ↔ ∃ reference,
       reference ∈ references ∧ rd_nodeId reference = target ∧ rd_isLocal reference = true ∧
       isMethodArgument reference = true).
Proof.
  intros id. unfold recordMethodArgumentNodes. fold id.
  destruct (srv_browseAll id browse_properties native) as [code|references]; [left; by exists code|].
  destruct (record_arguments_ledger references ledger) as (new & Hnew & Hids).
  destruct (record_arguments references ledger) as [ledger' unexpected]. simpl in Hnew. subst ledger'.
  assert (Hdone : ∃ references' new', inr references = inr (A := StatusCode) references' ∧
     ledger ++ new = ledger ++ new' ∧ ∀ target, target ∈ ledger_ids new' ↔ ∃ reference,
       reference ∈ references' ∧ rd_nodeId reference = target ∧ rd_isLocal reference = true ∧
       isMethodArgument reference = true) by (by exists references, new).
  destruct unexpected; [by right|].
  destruct (check_arguments _ _ _ _ _) as [[valid arguments] error'].
  destruct (negb valid); [by right|]. destruct (negb _); by right.
Qed.

(** Method nodes can always be inspected. *)
Definition inspectable : Prop :=
  ∀ id (native : NS), id ∈ node_ids native →
    ∃ references, srv_browseAll id browse_properties native = inr references.

Lemma ledger_ids_app (l1 l2 : list (CreatedNode NodeId)) :
  ledger_ids (l1 ++ l2) = ledger_ids l1 ∪ ledger_ids l2.
Proof. unfold ledger_ids. by rewrite fmap_app, list_to_set_app_L. Qed.

(** The nodes added since [native], and the entries [new] of the ledger for them. *)
Record ledgered (native native' : NS) (new : list (CreatedNode NodeId)) (exact : Prop) : Prop := {
  le_added : node_ids native ⊆ node_ids native';
  le_new : ledger_ids new ## node_ids native;
  le_subset : ledger_ids new ⊆ node_ids native';
  le_exact : exact → node_ids native' = ledger_ids new ∪ node_ids native;
}.

Lemma ledgered_nil native native' exact :
  node_ids native' = node_ids native → ledgered native native' [] exact.
Proof. intros Hn. split; rewrite ?Hn; cbn; set_solver. Qed.

Lemma ledgered_app native1 native2 native3 new1 new2 (exact1 exact2 : Prop) :
  ledgered native1 native2 new1 exact1 → ledgered native2 native3 new2 exact2 →
  (exact2 → exact1) → ledgered native1 native3 (new1 ++ new2) exact2.
Proof.
  intros [Ha1 Hn1 Hs1 He1] [Ha2 Hn2 Hs2 He2] Hex. split; rewrite ?ledger_ids_app.
  - set_solver.
  - set_solver.
  - set_solver.
  - intros Hexact. rewrite (He2 Hexact), (He1 (Hex Hexact)).
    by rewrite (assoc_L (∪)), (comm_L (∪) (ledger_ids new1)).
Qed.

(** What one turn of [createNodes] adds to the ledger. *)
Lemma create_step (namespace_index : N) root spec (ledger : list (CreatedNode NodeId)) c :
  built empty_variant registry spec → lease_room (c_state c) →
  let id := nodeid_string namespace_index (spec_path spec) in
  let c1 := (createNode namespace_index spec c).1 in
  let primary := {| created_id := id;
                    recursive_root := String.eqb (spec_path spec) root ||
                                      bool_decide (spec_kind spec = node_method) |} in
  let ledger1 := if c_created c1 then ledger ++ [primary] else ledger in
  let '(recorded, ledger2, _) :=
    if c_created c1 && bool_decide (spec_kind spec = node_method)
    then recordMethodArgumentNodes (c_native c1) namespace_index spec ledger1 (c_error c1)
    else (true, ledger1, c_error c1) in
  c_state c1 = c_state c ∧ ∃ new, ledger2 = ledger ++ new ∧
    ledgered (c_native c) (c_native c1) new (recorded = true ∨ inspectable) ∧
    (c_created c1 = true → id ∈ ledger_ids new).
Proof.
  intros Hbuilt Hroom id c1 primary ledger1.
  pose proof (createNode_effect namespace_index spec c Hbuilt Hroom) as [Hstate Heffect].
  fold c1 in Hstate, Heffect. unfold ledger1. clearbody c1. unfold spec_arguments in Heffect. fold id in Heffect.
  assert (Hprimary : ledger_ids [primary] = {[id]}) by (cbn; apply (right_id_L ∅ (∪))).
  destruct (c_created c1) eqn:Hcreated; cbn [andb].
  2: { split; [done|]. exists []. rewrite app_nil_r. split_and!; [done|by apply ledgered_nil|done]. }
  destruct Heffect as (Hid & nodes & Hargs & Hfresh & Hid' & Hnodes).
  destruct (decide (spec_kind spec = node_method)) as [Hkind|Hkind].
  - rewrite bool_decide_eq_true_2 by done.
    pose proof (recordMethodArgumentNodes_ledger (c_native c1) namespace_index spec
      (ledger ++ [primary]) (c_error c1)) as Hrec.
    destruct (recordMethodArgumentNodes _ _ _ _ _) as [[recorded ledger2] error2].
    fold id in Hrec. split; [done|].
    destruct Hrec as [(code & Hb & -> & ->)|(references & new & Hb & -> & Hnew)].
    + exists [primary]. split_and!; [done| |intros _; rewrite Hprimary; set_solver].
      split; rewrite ?Hprimary, ?Hnodes; [set_solver..|].
      intros [?|Hinspect]; [done|]. destruct (Hinspect id (c_native c1)) as [refs Hrefs].
      * rewrite Hnodes. set_solver.
      * congruence.
    + exists ([primary] ++ new). rewrite <-app_assoc.
      assert (Heq : ledger_ids new = nodes).
      { apply set_eq. intros target. rewrite Hnew. by rewrite (Hargs references Hb target). }
      assert (Hids : ledger_ids ([primary] ++ new) = {[id]} ∪ nodes)
        by (by rewrite ledger_ids_app, Hprimary, Heq).
      split_and!; [done| |intros _; rewrite Hids; set_solver].
      split; rewrite ?Hids, ?Hnodes; [set_solver..|done].
  - rewrite bool_decide_eq_false_2 by done. unfold no_arguments in Hargs. subst nodes.
    rewrite (right_id_L ∅ (∪)) in Hnodes. split; [done|].
    exists [primary]. split_and!; [done| |intros _; rewrite Hprimary; set_solver].
    split; rewrite ?Hprimary, ?Hnodes; [set_solver..|done].
Qed.

Lemma ledgered_weaken native native' new (exact1 exact2 : Prop) :
  ledgered native native' new exact1 → (exact2 → exact1) → ledgered native native' new exact2.
Proof. intros [???He] Hex. split; auto. Qed.

(** The ledger holds the nodes that were added, each one if all went well. *)
Lemma createNodes_effect (namespace_index : N) root specs (ledger : list (CreatedNode NodeId)) c :
  (∀ spec, spec ∈ specs → built empty_variant registry spec) → lease_room (c_state c) →
  let '(c', ledger', ok) := createNodes namespace_index root specs ledger c in
  c_state c' = c_state c ∧ ∃ new, ledger' = ledger ++ new ∧
    ledgered (c_native c) (c_native c') new (ok = true ∨ inspectable) ∧
    (ok = true → ∀ spec, spec ∈ specs →
       nodeid_string namespace_index (spec_path spec) ∈ ledger_ids new).
Proof.
  revert ledger c. induction specs as [|spec specs IH]; intros ledger c Hbuilt Hroom; cbn [createNodes].
  { split; [done|]. exists []. rewrite app_nil_r. split_and!; [done|by apply ledgered_nil|].
    by intros _ ? ?%elem_of_nil. }
  pose proof (create_step namespace_index root spec ledger c (Hbuilt spec ltac:(left)) Hroom) as Hstep.
  cbv zeta in Hstep. destruct (createNode namespace_index spec c) as [c1 ready]. cbn [fst] in Hstep.
  destruct (if c_created c1 && _ then _ else _) as [[recorded ledger2] error2].
  destruct Hstep as (Hstate & new & -> & Hledger & Hin).
  assert (Hearly : ∀ error, c_state (set_error error c1) = c_state c ∧
    ∃ new', ledger ++ new = ledger ++ new' ∧
      ledgered (c_native c) (c_native (set_error error c1)) new' (false = true ∨ inspectable) ∧
      (false = true → ∀ s, s ∈ spec :: specs →
         nodeid_string namespace_index (spec_path s) ∈ ledger_ids new')).
  { intros error. split; [done|]. exists new. split_and!; [done| |done].
    eapply ledgered_weaken; [exact Hledger|]. intros [?|?]; [done|by right]. }
  destruct recorded; cbn [negb]; [|apply Hearly].
  destruct ready; cbn [negb]; [|apply Hearly].
  destruct (c_created (set_error error2 c1)) eqn:Hcreated; cbn [negb]; [|apply Hearly].
  clear Hearly. change (c_created (set_error error2 c1)) with (c_created c1) in Hcreated.
  specialize (IH (ledger ++ new) (set_error error2 c1)).
  destruct (createNodes _ _ _ _ _) as [[c2 ledger3] ok].
  destruct IH as (Hstate2 & new2 & -> & Hledger2 & Hall).
  { intros s Hs. apply Hbuilt. by right. }
  { cbn [set_error c_state]. by rewrite Hstate. }
  split; [by rewrite Hstate2|]. exists (new ++ new2). rewrite app_assoc. split_and!; [done| |].
  - eapply ledgered_app; [exact Hledger|exact Hledger2|]. intros _. by left.
  - intros Hok s [->|Hs]%elem_of_cons; rewrite ledger_ids_app; apply elem_of_union; [left|right]; auto.
Qed.
End creators.

(** ** Lemmas: the order of creation *)

Section order.
Context {NS W NodeId TaskContext : Type}.
Notation NodeSpec := (@NodeSpec NS W NodeId TaskContext).
Implicit Types (nodes : gmap string NodeSpec) (spec : NodeSpec).

#[export] Instance spec_le_trans : Transitive (spec_le (NS := NS) (W := W) (NodeId := NodeId) (TaskContext := TaskContext)).
Proof.
  intros x y z. unfold spec_le. intros [?|[? ?]] [?|[? ?]]; [left; lia..|right].
  split; [lia|]. by transitivity (spec_path y).
Qed.

#[export] Instance spec_le_total : Total (spec_le (NS := NS) (W := W) (NodeId := NodeId) (TaskContext := TaskContext)).
Proof.
  intros x y. unfold spec_le.
  destruct (Nat.lt_total (pathDepth (spec_path x)) (pathDepth (spec_path y))) as [?|[?|?]]; [auto| |auto].
  destruct (total String.le (spec_path x) (spec_path y)); auto.
Qed.

Lemma elem_of_sorted_specs nodes spec :
  spec ∈ sorted_specs nodes ↔ ∃ path, nodes !! path = Some spec.
Proof.
  unfold sorted_specs. rewrite merge_sort_Permutation, list_elem_of_fmap. split.
  - intros ([path spec'] & Hs & Hin). simpl in Hs. subst spec'. exists path.
    by apply elem_of_ordered_items in Hin.
  - intros [path Hspec]. exists (path, spec). by rewrite elem_of_ordered_items.
Qed.

Lemma sorted_before nodes before spec after other :
  sorted_specs nodes = before ++ spec :: after → other ∈ sorted_specs nodes →
  pathDepth (spec_path other) < pathDepth (spec_path spec) → other ∈ before.
Proof.
  intros Hsplit Hin Hdepth.
  pose proof (StronglySorted_merge_sort spec_le (snd <$> ordered_items nodes)) as Hsorted.
  fold (sorted_specs nodes) in Hsorted. rewrite Hsplit in Hin, Hsorted.
  apply StronglySorted_app_1_r in Hsorted. apply StronglySorted_inv in Hsorted as [_ Hall].
  apply elem_of_app in Hin as [?|[->|Hin]%elem_of_cons]; [done|lia|].
  rewrite Forall_forall in Hall. destruct (Hall other Hin) as [?|[? ?]]; lia.
Qed.
End order.

(** ** Properties *)

Section properties.
Context {NS W DS Port Variant NodeId StatusCode UA_DataType DataType Wire TypeInfo : Type}.
Context {Service Property Attribute LocalOperation TaskContext : Type}.
Context `{EqDecision TypeInfo} `{!Countable TypeInfo}.
Notation TypeCodec := (TypeCodec W DS Port Variant NodeId UA_DataType).
Notation EndpointTypeRegistry := (EndpointTypeRegistry UA_DataType DataType TypeInfo TypeCodec).
Notation Backend := (@Backend W DS Port Variant NodeId UA_DataType DataType TypeInfo _ _).
Notation MethodCallback := (@MethodCallback Service LocalOperation).
Notation creation := (creation NS W TaskContext).
Notation NodeSpec := (@NodeSpec NS W NodeId TaskContext).
Context `{NodeIds NodeId} `{!Countable NodeId} `{!Variants Variant NodeId UA_DataType Wire}.
Context `{!NodeServices NS NodeId StatusCode Variant Backend MethodCallback}.
Context `{!AddressSpaces NS NodeId}.
Context `{!NodeServiceLaws NS NodeId StatusCode Variant Backend MethodCallback}.
Context `{!RttPorts W DS Port TypeInfo}.
Context `{!RttResources DS Port Property Attribute TypeInfo LocalOperation}.
Context (empty_variant : Variant) (registry : EndpointTypeRegistry).
Implicit Types (c : creation) (spec : NodeSpec) (nodes : gmap string NodeSpec).

(** C8: creating the nodes of a component and taking them back restores the
    address space: whatever fails, the rollback of the ledger deletes only nodes
    that this creation added, and one that reports to be complete deletes all of
    them, the argument nodes of the methods included, provided methods can be
    browsed. *)
Theorem rollback_exact max_size (namespace_index : N) component nodes c error
    (Hbuilt : ∀ path spec, nodes !! path = Some spec → built empty_variant registry spec)
    (Hroom : lease_room (c_state c)) :
  let '(c', ledger, ok) := createCandidate max_size namespace_index component nodes c in
  let '(native, complete, _) := rollbackCreatedNodes (c_native c') ledger error in
  node_ids (c_native c) ⊆ node_ids native ∧ node_ids native ⊆ node_ids (c_native c') ∧
  (ok = true ∨ inspectable (NS := NS) → complete = true → node_ids native = node_ids (c_native c)).
Proof.
  assert (Hledger : let '(c', ledger, ok) := createCandidate max_size namespace_index component nodes c in
    ledgered (c_native c) (c_native c') ledger (ok = true ∨ inspectable)).
  { unfold createCandidate. destruct (_ <? _)%N; [by apply ledgered_nil|].
    pose proof (createNodes_effect empty_variant registry namespace_index (component_root component)
      (sorted_specs nodes) [] c) as Heffect.
    destruct (createNodes _ _ _ _ _) as [[c' ledger] ok].
    destruct Heffect as (_ & new & -> & Hledger & _); [|done|done].
    intros spec [path Hspec]%elem_of_sorted_specs. by eapply Hbuilt. }
  destruct (createCandidate _ _ _ _ _) as [[c' ledger] ok].
  destruct Hledger as [Hadded Hnew Hsub Hexact].
  pose proof (rollback_nodes (c_native c') ledger error) as Hroll.
  destruct (rollbackCreatedNodes _ _ _) as [[native complete] error'].
  destruct Hroll as (Hless & Hkept & Hcomplete). split_and!; [|done|].
  - clear -Hadded Hnew Hkept. set_solver.
  - intros Hex Hc. rewrite (Hcomplete Hc), (Hexact Hex). clear -Hnew. set_solver.
Qed.

(** The walk over the references below a node ends within its fuel, cycles
    included, and it collects exactly the nodes that can be reached, unless a
    browse fails. *)
Theorem collect_descendants_exact (native : NS) root error :
  (∃ outcome, collectLoop (collect_fuel native) native [root] ∅ error = Some outcome) ∧
  match collectDescendantNodeIds native root error with
  | (true, descendants, _) => ∀ id, id ∈ descendants ↔ descends_to native root id ∧ id ≠ root
  | (false, _, _) => ∃ id code, srv_browseAll id browse_hierarchical native = inl code
  end.
Proof.
  split; [|apply collect_descendants].
  destruct (collectLoop_spec (collect_fuel native) native root [root] ∅ error) as (? & ? & ? & ? & _).
  - split; [set_solver|set_solver|]. intros id [->|?]; [left; left|set_solver].
  - unfold collect_fuel. cbn [length]. pose proof (nodeCount_bound native). lia.
  - by eexists.
Qed.

(** The nodes of a component are created in an order in which the parent
    comes first: every node but the root is preceded by the node it hangs below. *)
Theorem parents_first component nodes before spec after
    (Htree : node_tree empty_variant registry component nodes)
    (Hsplit : sorted_specs nodes = before ++ spec :: after) :
  (spec_path spec = component_root component ∧ parent_path spec = components_path) ∨
  ∃ parent, parent ∈ before ∧ spec_path parent = parent_path spec.
Proof.
  assert (Hin : spec ∈ sorted_specs nodes) by (rewrite Hsplit; set_solver).
  destruct Htree as [_ Htree]. apply elem_of_sorted_specs in Hin as [path Hspec].
  destruct (Htree path spec Hspec) as (_ & Hpath & Hdepth & [[Hr ?]|[parent Hparent]%elem_of_dom]).
  { left. by rewrite Hpath. }
  right. destruct (Htree _ parent Hparent) as (_ & Hpp & _). exists parent. split; [|done].
  apply (sorted_before nodes before spec after); [done|apply elem_of_sorted_specs; eauto|].
  by rewrite Hpp, Hpath.
Qed.
End properties.

(** ** Witnesses

    The sample component of Snapshot.v on a server that has the shared roots. *)
Definition sample_value : c_Value := cv_scalar cpp_int32 0%Z.

Definition sample_nodes : gmap string (@NodeSpec c_Space (list nat) c_NodeId nat) :=
  match sample_snapshot mode_full [] with Some snapshot => snap_nodes snapshot | None => ∅ end.

Notation sample_Backend := (Backend (W := list nat) (DS := nat) (Port := nat) (Variant := c_Value)
  (NodeId := c_NodeId) (UA_DataType := c_NodeId) (DataType := c_DataType) (TypeInfo := string)).
Notation sample_Callback := (MethodCallback (Service := nat) (LocalOperation := nat)).

Definition sample_roots : c_Space :=
  (ensureRoots (Backend := sample_Backend) (Callback := sample_Callback) 1 0 false c_empty_space
     (Some "")).1.1.

Definition sample_creation (native : c_Space) : creation c_Space (list nat) nat :=
  {| c_native := native; c_rtt := []; c_state := Some (makeComponentState 7 "c" false);
     c_created := false; c_error := Some "" |}.

Definition sample_candidate (native : c_Space) :=
  createCandidate (Backend := sample_Backend) (Callback := sample_Callback) 1000 1 "c" sample_nodes
    (sample_creation native).

(** A node of the component is there already, with a reference back to the root. *)
Definition sample_occupied : c_Space :=
  {| sp_nodes := <[(1%N, inr "rtt/components/c/services") :=
       {| cn_class := class_Object; cn_namespace := 1; cn_name := "services"; cn_arguments := [] |}]>
       (sp_nodes sample_roots);
     sp_references := (c_objects, (1%N, inr "rtt/components/c/services"), ref_Organizes) ::
       ((1%N, inr "rtt/components/c/services"), c_objects, ref_Organizes) :: sp_references sample_roots |}.

(** The creation stops at the occupied node, after the root and the folders
    before it, and is taken back. *)
Example sample_rollback :
  let '(c, ledger, ok) := sample_candidate sample_occupied in
  let '(native, complete, _) :=
    rollbackCreatedNodes (Backend := sample_Backend) (Callback := sample_Callback) (c_native c) ledger
      (Some "") in
  (ok, length ledger, complete, bool_decide (dom (sp_nodes native) = dom (sp_nodes sample_occupied))) =
  (false, 2, true, true).
Proof. vm_compute. reflexivity. Qed.

Lemma sample_nodes_tree :
  node_tree (Service := nat) (Property := nat) (Attribute := nat) (LocalOperation := nat)
    sample_value sample_registry "c" sample_nodes.
Proof.
  unfold sample_nodes. destruct (sample_snapshot mode_full []) as [snapshot|] eqn:Hs.
  - assert (Hd : (λ s, length (snap_diagnostics s)) <$> sample_snapshot mode_full [] = Some 0)
      by (vm_compute; reflexivity).
    rewrite Hs in Hd. simpl in Hd.
    assert (Hnil : snap_diagnostics snapshot = [])
      by (destruct (snap_diagnostics snapshot); [reflexivity|discriminate]).
    by destruct (snapshot_accepted _ _ _ _ _ _ _ _ _ _ Hs Hnil) as (_ & _ & Htree & _).
  - assert (Hd : bool_decide (is_Some (sample_snapshot mode_full [])) = true)
      by (vm_compute; reflexivity).
    rewrite Hs in Hd. discriminate.
Qed.

Lemma sample_inspectable :
  inspectable (NS := c_Space) (W := list nat) (DS := nat) (Port := nat) (Variant := c_Value)
    (NodeId := c_NodeId) (UA_DataType := c_NodeId) (DataType := c_DataType) (TypeInfo := string)
    (Service := nat) (LocalOperation := nat).
Proof. intros id native _. by eexists. Qed.

Lemma rollback_exact_witness :
  let '(c', ledger, ok) := sample_candidate sample_occupied in
  let '(native, complete, _) := rollbackCreatedNodes (Backend := sample_Backend)
    (Callback := sample_Callback) (c_native c') ledger (Some "") in
  node_ids sample_occupied ⊆ node_ids native ∧ node_ids native ⊆ node_ids (c_native c') ∧
  (complete = true → node_ids native = node_ids sample_occupied).
Proof.
  assert (Hbuilt : ∀ path spec, sample_nodes !! path = Some spec →
    built (Service := nat) (Property := nat) (Attribute := nat) (LocalOperation := nat)
      sample_value sample_registry spec).
  { intros path spec Hspec. destruct sample_nodes_tree as [_ Htree].
    by destruct (Htree path spec Hspec) as [? _]. }
  pose proof (rollback_exact sample_value sample_registry 1000 1 "c" sample_nodes
    (sample_creation sample_occupied) (Some "") Hbuilt ltac:(done)) as Hexact.
  unfold sample_candidate. destruct (createCandidate _ _ _ _ _) as [[c' ledger] ok].
  destruct (rollbackCreatedNodes _ _ _) as [[native complete] error].
  destruct Hexact as (Hkept & Hless & Hexact). refine (conj Hkept (conj Hless _)). apply Hexact. right.
  apply sample_inspectable.
Defined.

Lemma collect_descendants_exact_witness :
  (∃ outcome, collectLoop (NS := c_Space) (Backend := sample_Backend) (Callback := sample_Callback)
     (collect_fuel (Backend := sample_Backend) (Callback := sample_Callback) sample_occupied)
     sample_occupied [c_objects] ∅ (Some "") = Some outcome) ∧
  match collectDescendantNodeIds (Backend := sample_Backend) (Callback := sample_Callback)
          sample_occupied c_objects (Some "") with
  | (true, descendants, _) =>
      ∀ id, id ∈ descendants ↔ descends_to sample_occupied c_objects id ∧ id ≠ c_objects
  | (false, _, _) => ∃ id code, srv_browseAll (Backend := sample_Backend) (Callback := sample_Callback)
      id browse_hierarchical sample_occupied = inl code
  end.
Proof. exact (collect_descendants_exact sample_occupied c_objects (Some "")). Defined.

Lemma parents_first_witness :
  ∃ before spec after, sorted_specs sample_nodes = before ++ spec :: after ∧ length before = 1 ∧
    ((spec_path spec = component_root "c" ∧ parent_path spec = components_path) ∨
     ∃ parent, parent ∈ before ∧ spec_path parent = parent_path spec).
Proof.
  destruct (sorted_specs sample_nodes) as [|first [|second rest]] eqn:Hsorted.
  1,2: assert (Hlength : 1 < length (sorted_specs sample_nodes)) by (vm_compute; lia);
       rewrite Hsorted in Hlength; simpl in Hlength; lia.
  exists [first], second, rest. split; [reflexivity|]. split; [reflexivity|].
  exact (parents_first sample_value sample_registry "c" sample_nodes [first] second rest
    sample_nodes_tree Hsorted).
Defined.
