(* ===== verification/Publication.v ===== *)
(** The object model (src/src/object_model.cpp, ObjectModelImpl): publishing a
    component as a transaction on the native server, conflicts with an earlier
    publication, what is remembered of failures, and the shutdown. *)

From S2P Require Import Prelude NodeId Selector Native Concrete DataTypeRegistry.
From S2P Require Import TypeProtocol EndpointTypeRegistry ComponentState OperationDispatcher PortDataSources Inventory.
From S2P Require Import AddressSpace ConcreteServer NodeSpecs Snapshot Transaction.

(** What [server.invoke] does with a callback that does not throw: it runs once
    and the result is true, or it is dropped with an error text. *)
Inductive InvokeOutcome := invoke_ran | invoke_dropped (error : string).

(** [deactivate(state)] as a whole, its wait for the leases included. *)
Definition deactivate {TaskContext} (state : ComponentState TaskContext) : ComponentState TaskContext :=
  deactivate_end (deactivate_begin state).

(** [fetch_add(1) + 1] on [std::uint64_t]. *)
Definition next_revision (revision : N) : N := ((revision + 1) mod 2 ^ 64)%N.

Section publication.
Context {NS W DS Port Variant NodeId StatusCode UA_DataType DataType Wire TypeInfo : Type}.
Context {Service Property Attribute LocalOperation TaskContext : Type}.
Context `{EqDecision TypeInfo} `{!Countable TypeInfo} `{EqDecision Service} `{!Countable Service}.
Context `{EqDecision TaskContext}.
Notation TypeCodec := (TypeCodec W DS Port Variant NodeId UA_DataType).
Notation EndpointTypeRegistry := (EndpointTypeRegistry UA_DataType DataType TypeInfo TypeCodec).
Notation Operation := (OperationInterfacePart TypeInfo).
Notation ServiceView := (ServiceView Service Operation Property Attribute Port).
Notation Backend := (@Backend W DS Port Variant NodeId UA_DataType DataType TypeInfo _ _).
Notation MethodCallback := (@MethodCallback Service LocalOperation).
Notation NodeSpec := (@NodeSpec NS W NodeId TaskContext).
Notation NodeMap := (gmap string NodeSpec).
Notation creation := (creation NS W TaskContext).
Notation ComponentState := (ComponentState TaskContext).
Notation ComponentSnapshot := (@ComponentSnapshot NS W NodeId TaskContext).
Context `{NodeIds NodeId} `{!Countable NodeId} `{!Variants Variant NodeId UA_DataType Wire}.
Context `{!NodeServices NS NodeId StatusCode Variant Backend MethodCallback}.
Context `{!RttPorts W DS Port TypeInfo}.
Context `{!RttResources DS Port Property Attribute TypeInfo LocalOperation}.
Context (empty_variant : Variant) (type_getTypeName : TypeInfo → string).
(** [type_registry], [options.operation_timeout] in milliseconds, and the largest
    size of a vector of created nodes. *)
Context (type_registry : option EndpointTypeRegistry) (operation_timeout : Z) (max_size : N).

(** ** The state *)

(** [std::shared_ptr<ComponentState>] is a key of the heap of states. *)
Record PublishedComponent := {
  pub_component : TaskContext;
  pub_mode : PublicationMode;
  pub_effective_resources : gset string;
  pub_state : nat;
  pub_nodes : NodeMap;
  pub_fingerprint : string;
}.

Record AbandonedResources := {
  closed_state : nat;
  abandoned_nodes : NodeMap;
  abandoned_fingerprint : string;
}.

(** The members of [ObjectModelImpl] that change. *)
Record ObjectModel := {
  components : gmap string PublishedComponent;
  abandoned : list AbandonedResources;
  failed_publications : gmap string (list UnsupportedResource);
  publication_diagnostics : gmap string (list PublicationDiagnostic);
  roots_ready : bool;
  revision : N;
  last_error : string;
  model_closed : bool; (* [*admission_closed] *)
  shutdown_once : bool;
}.

Record model_world := {
  m_model : ObjectModel;
  m_native : NS;
  m_rtt : W;
  m_states : gmap nat ComponentState;
}.

(** The caller's component and out-parameters, and what the call finds: the views
    of its services, the state and the namespace of the server, and how the
    server takes the callback. *)
Record publish_call := {
  call_component : TaskContext;
  call_name : string; (* [component.getName()] *)
  call_provides : option Service;
  call_discovered : ServiceView;
  call_view : ServiceView;
  call_mode : PublicationMode;
  call_selectors : list string;
  call_error : option string;
  call_isRunning : bool;
  call_namespaceIndex : option N;
  call_invoke : InvokeOutcome;
}.

(** The result: what is returned and stored through the pointers ([None]: not
    written), and the messages that go to the warning sink or the log. *)
Record publish_result := {
  res_ok : bool;
  res_error : option string;
  res_unsupported : list UnsupportedResource;
  res_diagnostics : list PublicationDiagnostic;
  res_emitted : list string;
}.

Implicit Types (model : ObjectModel) (w : model_world) (call : publish_call).

Definition set_model model w : model_world :=
  {| m_model := model; m_native := m_native w; m_rtt := m_rtt w; m_states := m_states w |}.

Definition set_last_error (text : string) model : ObjectModel :=
  {| components := components model; abandoned := abandoned model;
     failed_publications := failed_publications model;
     publication_diagnostics := publication_diagnostics model;
     roots_ready := roots_ready model; revision := revision model; last_error := text;
     model_closed := model_closed model; shutdown_once := shutdown_once model |}.

(** [failed_publications] and [publication_diagnostics] of one component. *)
Definition set_failures (failed : gmap string (list UnsupportedResource))
    (diagnostics : gmap string (list PublicationDiagnostic)) model : ObjectModel :=
  {| components := components model; abandoned := abandoned model;
     failed_publications := failed; publication_diagnostics := diagnostics;
     roots_ready := roots_ready model; revision := revision model; last_error := last_error model;
     model_closed := model_closed model; shutdown_once := shutdown_once model |}.

Definition erase_failures (name : string) model : ObjectModel :=
  set_failures (delete name (failed_publications model))
    (delete name (publication_diagnostics model)) model.

(** ** The ends of a call *)

Definition setFailure (failure : string) call w : model_world * publish_result :=
  (set_model (set_last_error failure (m_model w)) w,
   {| res_ok := false; res_error := assignError (call_error call) failure; res_unsupported := [];
      res_diagnostics := []; res_emitted := [] |}).

Definition setSuccess call w : model_world * publish_result :=
  (set_model (set_last_error "" (m_model w)) w,
   {| res_ok := true; res_error := assignError (call_error call) ""; res_unsupported := [];
      res_diagnostics := []; res_emitted := [] |}).

(** A failure with diagnostics: [emitDiagnostics] sends their messages. *)
Definition failWith (failure : string) (unsupported : list UnsupportedResource)
    (diagnostics : list PublicationDiagnostic) call w : model_world * publish_result :=
  (set_model (set_last_error failure (m_model w)) w,
   {| res_ok := false; res_error := assignError (call_error call) failure;
      res_unsupported := unsupported; res_diagnostics := diagnostics;
      res_emitted := PublicationDiagnostic_message <$> diagnostics |}).

Definition rejectPublicationConflict (reason : string) call w : model_world * publish_result :=
  let name := call_name call in
  let diagnostics :=
    [{| diag_kind := publication_conflict; diag_component := name; diag_selector := "";
        diag_resource_path := ""; diag_reason := reason |}] in
  let model := set_failures (failed_publications (m_model w))
                 (<[name := diagnostics]> (publication_diagnostics (m_model w))) (m_model w) in
  failWith ("RTT component publication conflict for '" +:+ name +:+ "': " +:+ reason) [] diagnostics
    call (set_model model w).

Definition rejection_text (mode : PublicationMode) (name : string) (count : nat) : string :=
  match mode with
  | mode_full => "strict OPC UA publication rejected component '" +:+ name +:+ "'"
  | mode_selected =>
      "selective OPC UA publication rejected component '" +:+ name +:+ "' with " +:+
      to_string (N.of_nat count) +:+ " diagnostic(s)"
  end.

(** ** A component that is already published *)

Definition republish (existing : PublishedComponent) call w : model_world * publish_result :=
  let name := call_name call in
  let accept :=
    setSuccess call (set_model (erase_failures name (m_model w)) w) in
  if negb (bool_decide (pub_component existing = call_component call)) then
    rejectPublicationConflict "already published by a different RTT component instance" call w
  else if negb (bool_decide (pub_mode existing = call_mode call)) then
    rejectPublicationConflict "publication mode differs from the first successful publication" call w
  else
    match call_mode call with
    | mode_full => accept
    | mode_selected =>
        let inventory := discoverComponent (call_discovered call) name (call_provides call) in
        let plan := buildPublicationPlan mode_selected inventory name (call_selectors call) in
        if negb (bool_decide (pub_effective_resources existing = effective_resources plan)) then
          rejectPublicationConflict "selection resolves to a different effective resource set" call w
        else if negb (bool_decide (plan_diagnostics plan = [])) then
          let model := set_failures (delete name (failed_publications (m_model w)))
            (<[name := plan_diagnostics plan]> (publication_diagnostics (m_model w))) (m_model w) in
          failWith (rejection_text mode_selected name (length (plan_diagnostics plan))) []
            (plan_diagnostics plan) call (set_model model w)
        else accept
    end.

(** ** The transaction *)

(** What the callback leaves behind. *)
Record transaction := {
  tx_native : NS;
  tx_rtt : W;
  tx_state : ComponentState;
  tx_roots_ready : bool;
  tx_committed : bool;
  tx_complete : bool; (* [rollback_complete] *)
  tx_error : string;  (* [transaction_error] *)
}.

(** [closeAndRollback(native, candidate.state, ledger, ...)]. *)
Definition tx_rollback (c : creation) (state : ComponentState) (ready : bool)
    (ledger : list (CreatedNode NodeId)) : transaction :=
  let '(native, complete, error) := rollback (c_native c) ledger (c_error c) in
  {| tx_native := native; tx_rtt := c_rtt c;
     tx_state := deactivate (default state (c_state c)); tx_roots_ready := ready;
     tx_committed := false; tx_complete := complete; tx_error := default "" error |}.

(** The callback given to [server.invoke]; [taken] is whether the name is already
    a key of [components], and [state] the component's new state. *)
Definition transact (namespaceIndex : option N) (ready : bool) (number : N) (taken : bool)
    (name : string) (nodes : NodeMap) (state : ComponentState) (native : NS) (rtt : W) : transaction :=
  let start (native : NS) (error : option string) : creation :=
    {| c_native := native; c_rtt := rtt; c_state := Some state; c_created := false; c_error := error |} in
  match namespaceIndex with
  | None => tx_rollback (start native (Some "")) state ready []
  | Some namespace_index =>
      let '(native, ensured, error) := ensureRoots namespace_index number ready native (Some "") in
      if negb ensured then tx_rollback (start native error) state ready []
      else
        let '(c, ledger, created) :=
          createCandidate max_size namespace_index name nodes (start native error) in
        if negb created then tx_rollback c state true ledger
        else if taken then
          tx_rollback (set_error (assignError (c_error c)
                         "RTT component publication changed during commit") c) state true ledger
        else
          {| tx_native := write_revision namespace_index (next_revision number) (c_native c);
             tx_rtt := c_rtt c; tx_state := default state (c_state c); tx_roots_ready := true;
             tx_committed := true; tx_complete := true; tx_error := default "" (c_error c) |}
  end.

(** [publishComponentInternal] from the snapshot without diagnostics on. *)
Definition commit (snapshot : ComponentSnapshot) (state : ComponentState) call w
    : model_world * publish_result :=
  let name := call_name call in
  let model := m_model w in
  let id := fresh (dom (m_states w)) in
  let dropped (server_error : string) (tx : transaction) :=
    let model :=
      {| components := components model;
         abandoned := abandoned model ++
           (if tx_complete tx then []
            else [{| closed_state := id; abandoned_nodes := snap_nodes snapshot;
                     abandoned_fingerprint := snap_fingerprint snapshot |}]);
         failed_publications := failed_publications model;
         publication_diagnostics := publication_diagnostics model;
         roots_ready := tx_roots_ready tx; revision := revision model;
         last_error := last_error model; model_closed := model_closed model;
         shutdown_once := shutdown_once model |} in
    let failure := if str_empty server_error then tx_error tx else server_error in
    setFailure (if str_empty failure then "failed to publish the OPC UA component" else failure) call
      {| m_model := model; m_native := tx_native tx; m_rtt := tx_rtt tx;
         m_states := <[id := deactivate (tx_state tx)]> (m_states w) |} in
  match call_invoke call with
  | invoke_dropped error =>
      dropped error
        {| tx_native := m_native w; tx_rtt := m_rtt w; tx_state := state;
           tx_roots_ready := roots_ready model; tx_committed := false; tx_complete := true;
           tx_error := "" |}
  | invoke_ran =>
      let tx := transact (call_namespaceIndex call) (roots_ready model) (revision model)
        (bool_decide (is_Some (components model !! name))) name (snap_nodes snapshot) state
        (m_native w) (m_rtt w) in
      if negb (tx_committed tx) then dropped "" tx
      else
        let published :=
          {| pub_component := call_component call; pub_mode := call_mode call;
             pub_effective_resources := snap_effective snapshot; pub_state := id;
             pub_nodes := snap_nodes snapshot; pub_fingerprint := snap_fingerprint snapshot |} in
        let model :=
          {| components := <[name := published]> (components model); abandoned := abandoned model;
             failed_publications := failed_publications model;
             publication_diagnostics := publication_diagnostics model;
             roots_ready := tx_roots_ready tx; revision := next_revision (revision model);
             last_error := last_error model; model_closed := model_closed model;
             shutdown_once := shutdown_once model |} in
        setSuccess call
          {| m_model := erase_failures name model; m_native := tx_native tx; m_rtt := tx_rtt tx;
             m_states := <[id := tx_state tx]> (m_states w) |}
  end.

(** [publishComponentInternal]; [None] is the null pointer that
    [snapshotComponent] follows when the component provides no service. *)
Definition publishComponentInternal call w : option (model_world * publish_result) :=
  let name := call_name call in
  if model_closed (m_model w) then
    Some (setFailure "OPC UA object model is shutting down" call w)
  else
    match components (m_model w) !! name with
    | Some existing => Some (republish existing call w)
    | None =>
        if negb (call_isRunning call) then
          Some (setFailure "OPC UA server must be running before components are published" call w)
        else
          match type_registry with
          | None => Some (setFailure "OPC UA server type registry is unavailable" call w)
          | Some registry =>
              if (operation_timeout <=? 0)%Z then
                Some (setFailure "object model operation timeout must be positive" call w)
              else
                let state := makeComponentState (call_component call) name false in
                match snapshotComponent empty_variant type_getTypeName registry (call_view call)
                        (call_discovered call) name (call_provides call) (call_mode call)
                        (call_selectors call) with
                | None => None
                | Some snapshot =>
                    if negb (bool_decide (snap_diagnostics snapshot = [])) then
                      let model := set_failures
                        (<[name := snap_unsupported snapshot]> (failed_publications (m_model w)))
                        (<[name := snap_diagnostics snapshot]> (publication_diagnostics (m_model w)))
                        (m_model w) in
                      Some (failWith
                        (rejection_text (call_mode call) name (length (snap_diagnostics snapshot)))
                        (snap_unsupported snapshot) (snap_diagnostics snapshot) call
                        {| m_model := model; m_native := m_native w; m_rtt := m_rtt w;
                           m_states := <[fresh (dom (m_states w)) := deactivate state]> (m_states w) |})
                    else Some (commit snapshot state call w)
                end
          end
    end.

(** The two ways to publish. *)
Definition publishComponent call w : option (model_world * publish_result) :=
  publishComponentInternal
    {| call_component := call_component call; call_name := call_name call;
       call_provides := call_provides call; call_discovered := call_discovered call;
       call_view := call_view call; call_mode := mode_full; call_selectors := [];
       call_error := call_error call; call_isRunning := call_isRunning call;
       call_namespaceIndex := call_namespaceIndex call; call_invoke := call_invoke call |} w.

Definition publishComponentSelected (selectors : list string) call w
    : option (model_world * publish_result) :=
  publishComponentInternal
    {| call_component := call_component call; call_name := call_name call;
       call_provides := call_provides call; call_discovered := call_discovered call;
       call_view := call_view call; call_mode := mode_selected; call_selectors := selectors;
       call_error := call_error call; call_isRunning := call_isRunning call;
       call_namespaceIndex := call_namespaceIndex call; call_invoke := call_invoke call |} w.

(** ** Queries *)

Definition currentRevision model : N := revision model.
Definition componentCount model : nat := size (components model).
Definition unsupportedResources model (name : string) : list UnsupportedResource :=
  default [] (failed_publications model !! name).
Definition publicationDiagnostics model (name : string) : list PublicationDiagnostic :=
  default [] (publication_diagnostics model !! name).
Definition lastError model : string := last_error model.

(** ** Shutdown *)

(** The flag is shared with every component state. *)
Definition beginShutdown w : model_world :=
  {| m_model :=
       {| components := components (m_model w); abandoned := abandoned (m_model w);
          failed_publications := failed_publications (m_model w);
          publication_diagnostics := publication_diagnostics (m_model w);
          roots_ready := roots_ready (m_model w); revision := revision (m_model w);
          last_error := last_error (m_model w); model_closed := true;
          shutdown_once := shutdown_once (m_model w) |};
     m_native := m_native w; m_rtt := m_rtt w; m_states := closeAdmission <$> m_states w |}.

Definition deactivate_states (ids : list nat) (states : gmap nat ComponentState)
    : gmap nat ComponentState :=
  foldl (λ states id, alter deactivate id states) states ids.

(** [shutdown], when its waits are over: [call_once], the two swaps, and the
    deactivation of what was published or abandoned. *)
Definition shutdown w : model_world :=
  let w := beginShutdown w in
  if shutdown_once (m_model w) then w
  else
    let model := m_model w in
    {| m_model :=
         {| components := ∅; abandoned := []; failed_publications := ∅; publication_diagnostics := ∅;
            roots_ready := roots_ready model; revision := revision model;
            last_error := last_error model; model_closed := model_closed model;
            shutdown_once := true |};
       m_native := m_native w; m_rtt := m_rtt w;
       m_states := deactivate_states
         (((λ entry, pub_state entry.2) <$> ordered_items (components model)) ++
          (closed_state <$> abandoned model)) (m_states w) |}.

(** [ObjectModelImpl(server, options)]. *)
Definition new_model : ObjectModel :=
  {| components := ∅; abandoned := []; failed_publications := ∅; publication_diagnostics := ∅;
     roots_ready := false; revision := 0; last_error := ""; model_closed := false;
     shutdown_once := false |}.
End publication.

(** ** Lemmas: the transaction *)

Section facts.
Context {NS W DS Port Variant NodeId StatusCode UA_DataType DataType Wire TypeInfo : Type}.
Context {Service Property Attribute LocalOperation TaskContext : Type}.
Context `{EqDecision TypeInfo} `{!Countable TypeInfo} `{EqDecision Service} `{!Countable Service}.
Context `{EqDecision TaskContext}.
Notation TypeCodec := (TypeCodec W DS Port Variant NodeId UA_DataType).
Notation EndpointTypeRegistry := (EndpointTypeRegistry UA_DataType DataType TypeInfo TypeCodec).
Notation Operation := (OperationInterfacePart TypeInfo).
Notation ServiceView := (ServiceView Service Operation Property Attribute Port).
Notation Backend := (@Backend W DS Port Variant NodeId UA_DataType DataType TypeInfo _ _).
Notation MethodCallback := (@MethodCallback Service LocalOperation).
Notation NodeSpec := (@NodeSpec NS W NodeId TaskContext).
Notation NodeMap := (gmap string NodeSpec).
Notation creation := (creation NS W TaskContext).
Notation ComponentState := (ComponentState TaskContext).
Notation ComponentSnapshot := (@ComponentSnapshot NS W NodeId TaskContext).
Context `{NodeIds NodeId} `{!Countable NodeId} `{!Variants Variant NodeId UA_DataType Wire}.
Context `{!NodeServices NS NodeId StatusCode Variant Backend MethodCallback}.
Context `{!AddressSpaces NS NodeId}.
Context `{!NodeServiceLaws NS NodeId StatusCode Variant Backend MethodCallback}.
Context `{!RttPorts W DS Port TypeInfo}.
Context `{!RttResources DS Port Property Attribute TypeInfo LocalOperation}.
Context (empty_variant : Variant) (type_getTypeName : TypeInfo → string).
Context (registry : EndpointTypeRegistry) (operation_timeout : Z) (max_size : N).
Implicit Types (nodes : NodeMap) (state : ComponentState) (c : creation) (native : NS).

(** The nodes that all components share. *)
Definition root_ids (namespace_index : N) : gset NodeId :=
  list_to_set (nodeid_string namespace_index <$> ["rtt"; components_path; model_path; revision_path]).

Lemma root_ids_elem namespace_index path :
  path ∈ ["rtt"; components_path; model_path; revision_path] →
  nodeid_string namespace_index path ∈ root_ids namespace_index.
Proof. intros Hpath. unfold root_ids. by apply elem_of_list_to_set, list_elem_of_fmap_2. Qed.

(** A call that adds [id], if anything. *)
Definition grows_by (ids : gset NodeId) native native' : Prop :=
  node_ids native ⊆ node_ids native' ∧ node_ids native' ⊆ node_ids native ∪ ids.

Lemma grows_by_refl ids native : grows_by ids native native.
Proof. unfold grows_by. set_solver. Qed.

Lemma grows_by_trans ids native1 native2 native3 :
  grows_by ids native1 native2 → grows_by ids native2 native3 → grows_by ids native1 native3.
Proof. unfold grows_by. set_solver. Qed.

Lemma added_grows id ids native native' (result : StatusCode + NodeId) :
  match result with
  | inl _ => node_ids native' = node_ids native
  | inr _ => id ∉ node_ids native ∧ node_ids native' = {[id]} ∪ node_ids native
  end → id ∈ ids → grows_by ids native native'.
Proof. unfold grows_by. destruct result as [|]; [intros ->|intros [_ ->]]; set_solver. Qed.

Lemma ensure_object_grows namespace_index path name description native error :
  path ∈ ["rtt"; components_path; model_path; revision_path] →
  grows_by (root_ids namespace_index) native
    (ensure_object namespace_index path name description native error).1.1.
Proof.
  intros Hpath. unfold ensure_object.
  set (attributes := {| oa_displayName := _; oa_description := _ |}).
  pose proof (addObject_spec (nodeid_string namespace_index "rtt") (nodeid_string namespace_index path)
    name attributes ref_HasComponent native) as Hadd.
  destruct (srv_addObject _ _ _ _ _ native) as [native' result].
  destruct (sharedRootEnsured result path error) as [ensured error']. simpl.
  eapply (added_grows _ _ _ _ result); [exact Hadd|]. by apply root_ids_elem.
Qed.

Lemma ensureRoots_grows namespace_index number ready native error :
  grows_by (root_ids namespace_index) native
    (ensureRoots namespace_index number ready native error).1.1.
Proof.
  unfold ensureRoots. destruct ready; [apply grows_by_refl|].
  set (attributes := {| oa_displayName := _; oa_description := _ |}).
  pose proof (addObject_spec objects_folder (nodeid_string namespace_index "rtt")
    "RTT" attributes ref_Organizes native) as Hadd.
  destruct (srv_addObject _ _ _ _ _ native) as [native1 result1].
  assert (H1 : grows_by (root_ids namespace_index) native native1).
  { eapply (added_grows _ _ _ _ result1); [exact Hadd|]. apply root_ids_elem. set_solver. }
  clear Hadd. destruct (sharedRootEnsured result1 "rtt" error) as [[|] error1]; cbn [negb]; [|exact H1].
  pose proof (ensure_object_grows namespace_index components_path "Components"
    "Published RTT components." native1 error1 ltac:(set_solver)) as H2.
  destruct (ensure_object _ components_path _ _ _ _) as [[native2 [|]] error2]; cbn [negb];
    [|by eapply grows_by_trans].
  pose proof (ensure_object_grows namespace_index model_path "Model"
    "RTT model metadata." native2 error2 ltac:(set_solver)) as H3.
  destruct (ensure_object _ model_path _ _ _ _) as [[native3 [|]] error3]; cbn [negb];
    [|by eapply grows_by_trans; [|eapply grows_by_trans]].
  pose proof (addVariable_spec (nodeid_string namespace_index model_path)
    (nodeid_string namespace_index revision_path) "revision"
    (static_attributes "revision" (Some "Monotonic RTT model schema revision.")
       (revision_value number) (nodeid_datatype dt_UInt64) vr_Scalar) ref_HasComponent native3) as Hadd.
  destruct (srv_addVariable _ _ _ _ _ native3) as [native4 result4].
  destruct (sharedRootEnsured result4 revision_path error3) as [ensured error4].
  eapply grows_by_trans; [exact H1|]. eapply grows_by_trans; [exact H2|].
  eapply grows_by_trans; [exact H3|]. eapply (added_grows _ _ _ _ result4); [exact Hadd|].
  apply root_ids_elem. set_solver.
Qed.

(** The nodes of a snapshot have the known forms and are stored by their path. *)
Definition known_nodes nodes : Prop :=
  ∀ path spec, nodes !! path = Some spec → built empty_variant registry spec ∧ spec_path spec = path.

Lemma tree_known component nodes : node_tree empty_variant registry component nodes → known_nodes nodes.
Proof. intros [_ Htree] path spec Hspec. by destruct (Htree path spec Hspec) as (? & ? & _). Qed.

Lemma createCandidate_effect (namespace_index : N) component nodes c :
  known_nodes nodes → lease_room (c_state c) →
  let '(c', ledger, ok) := createCandidate max_size namespace_index component nodes c in
  c_state c' = c_state c ∧ ledgered (c_native c) (c_native c') ledger (ok = true ∨ inspectable) ∧
  (ok = true → ∀ path, path ∈ dom nodes → nodeid_string namespace_index path ∈ ledger_ids ledger).
Proof.
  intros Hknown Hroom. unfold createCandidate. destruct (_ <? _)%N.
  { split_and!; [done|by apply ledgered_nil|done]. }
  pose proof (createNodes_effect empty_variant registry namespace_index (component_root component)
    (sorted_specs nodes) [] c) as Heffect.
  destruct (createNodes _ _ _ _ _) as [[c' ledger] ok].
  destruct Heffect as (Hstate & new & -> & Hledger & Hall); [|done|].
  { intros spec [path Hspec]%elem_of_sorted_specs. by eapply Hknown. }
  split_and!; [done|done|]. intros Hok path [spec Hspec]%elem_of_dom.
  destruct (Hknown path spec Hspec) as [_ <-]. apply Hall; [done|]. apply elem_of_sorted_specs.
  by eexists.
Qed.

(** Rolling back what a ledger holds returns to the nodes there were. *)
Lemma tx_rollback_effect native c state ready ledger exact :
  ledgered native (c_native c) ledger exact →
  let tx := tx_rollback c state ready ledger in
  tx_committed tx = false ∧ node_ids native ⊆ node_ids (tx_native tx) ∧
  (exact → tx_complete tx = true → node_ids (tx_native tx) = node_ids native) ∧
  tx_state tx = deactivate (default state (c_state c)) ∧ tx_roots_ready tx = ready.
Proof.
  intros [Hadded Hnew Hsub Hexact]. unfold tx_rollback, rollback.
  pose proof (rollback_nodes (c_native c) ledger (Some "")) as Hroll.
  destruct (rollbackCreatedNodes _ _ _) as [[native' complete] error]. simpl.
  destruct Hroll as (Hless & Hkept & Hcomplete). split_and!; [done|set_solver| |done|done].
  intros Hex Hc. rewrite (Hcomplete Hc), (Hexact Hex). set_solver.
Qed.

(** The effect of the transaction on the nodes: shared roots stay, and the nodes
    of the component are all added or none. *)
Lemma transact_effect (namespaceIndex : option N) ready number taken name nodes state native (rtt : W) :
  known_nodes nodes → lease_room (Some state) →
  let tx := transact max_size namespaceIndex ready number taken name nodes state native rtt in
  if tx_committed tx then
    taken = false ∧ tx_complete tx = true ∧ tx_state tx = state ∧
    ∃ namespace_index shared added, namespaceIndex = Some namespace_index ∧
      shared ⊆ root_ids namespace_index ∧ added ## node_ids native ∪ shared ∧
      node_ids (tx_native tx) = added ∪ (node_ids native ∪ shared) ∧
      ∀ path, path ∈ dom nodes → nodeid_string namespace_index path ∈ added
  else
    tx_state tx = deactivate state ∧ node_ids native ⊆ node_ids (tx_native tx) ∧
    (inspectable → tx_complete tx = true →
       ∃ shared, node_ids (tx_native tx) = node_ids native ∪ shared ∧
         ∀ namespace_index, namespaceIndex = Some namespace_index → shared ⊆ root_ids namespace_index).
Proof.
  intros Hknown Hroom. unfold transact.
  assert (Hstop : ∀ native' error ready', node_ids native ⊆ node_ids native' →
    (∃ shared, node_ids native' = node_ids native ∪ shared ∧
       ∀ namespace_index, namespaceIndex = Some namespace_index → shared ⊆ root_ids namespace_index) →
    let tx := tx_rollback {| c_native := native'; c_rtt := rtt; c_state := Some state;
      c_created := false; c_error := error |} state ready' [] in
    tx_committed tx = false ∧ tx_state tx = deactivate state ∧
    node_ids native ⊆ node_ids (tx_native tx) ∧ (inspectable → tx_complete tx = true →
       ∃ shared, node_ids (tx_native tx) = node_ids native ∪ shared ∧
         ∀ namespace_index, namespaceIndex = Some namespace_index → shared ⊆ root_ids namespace_index)).
  { intros native' error ready' Hsub Hshared.
    destruct (tx_rollback_effect native' {| c_native := native'; c_rtt := rtt; c_state := Some state;
      c_created := false; c_error := error |} state ready' [] True) as (? & ? & Hback & ? & _);
      [by apply ledgered_nil|]. split_and!; [done|done|set_solver|].
    intros _ Hcomplete. by rewrite (Hback I Hcomplete). }
  destruct namespaceIndex as [namespace_index|].
  2: { destruct (Hstop native (Some "") ready) as (-> & ? & ? & ?); [done| |done].
       exists ∅. split; [set_solver|done]. }
  pose proof (ensureRoots_grows namespace_index number ready native (Some "")) as [Hsub Hsup].
  destruct (ensureRoots _ _ _ _ _) as [[native1 ensured] error1]. cbn [fst] in Hsub, Hsup.
  assert (Hshared : ∃ shared, node_ids native1 = node_ids native ∪ shared ∧
    shared ⊆ root_ids namespace_index).
  { exists (node_ids native1 ∖ node_ids native). split; [|set_solver].
    by rewrite union_comm_L, difference_union_L, union_comm_L, subseteq_union_1_L. }
  destruct ensured; cbn [negb].
  2: { destruct (Hstop native1 error1 ready) as (-> & ? & ? & ?); [done| |done].
       destruct Hshared as (shared & ? & ?). exists shared. split; [done|]. by intros ? [= <-]. }
  set (start := {| c_native := native1; c_rtt := rtt; c_state := Some state; c_created := false;
                   c_error := error1 |}).
  pose proof (createCandidate_effect namespace_index name nodes start Hknown Hroom) as Hcand.
  destruct (createCandidate _ _ _ _ _) as [[c ledger] created].
  destruct Hcand as (Hstate & Hledger & Hall). cbn [start c_native c_state] in Hstate, Hledger.
  assert (Hback : ∀ error, let tx := tx_rollback (set_error error c) state true ledger in
    tx_committed tx = false ∧ tx_state tx = deactivate state ∧
    node_ids native ⊆ node_ids (tx_native tx) ∧ (inspectable → tx_complete tx = true →
       ∃ shared, node_ids (tx_native tx) = node_ids native ∪ shared ∧
         ∀ index, Some namespace_index = Some index → shared ⊆ root_ids index)).
  { intros error. destruct (tx_rollback_effect native1 (set_error error c) state true ledger _ Hledger)
      as (? & ? & Hnodes & Htx & _). split_and!; [done| |set_solver|].
    - rewrite Htx. cbn [set_error c_state]. by rewrite Hstate.
    - intros Hinspect Hcomplete. rewrite (Hnodes (or_intror Hinspect) Hcomplete).
      destruct Hshared as (shared & ? & ?). exists shared. split; [done|]. by intros ? [= <-]. }
  destruct created; cbn [negb].
  2: { specialize (Hback (c_error c)). assert (Hsame : set_error (c_error c) c = c) by (by destruct c).
       rewrite Hsame in Hback. by destruct Hback as (-> & ? & ? & ?). }
  destruct taken; [by destruct (Hback (assignError (c_error c)
    "RTT component publication changed during commit")) as (-> & ? & ? & ?)|].
  cbn [tx_committed tx_complete tx_state tx_native]. split_and!; [done|done|by rewrite Hstate|].
  destruct Hshared as (shared & Hn1 & Hsh).
  exists namespace_index, shared, (ledger_ids ledger). split_and!; [done|done| | |by apply Hall].
  - rewrite <-Hn1. apply Hledger.
  - unfold write_revision. rewrite writeValue_nodes, <-Hn1. apply Hledger. by left.
Qed.
End facts.
