(* ===== verification/PublicationSpec.v ===== *)
(** What the object model promises: an abstract machine of published components
    and address-space nodes which the publication implements, the invariant of
    the model and its component states, the reports of a call, and the shutdown. *)

From S2P Require Import Prelude NodeId Selector Native Concrete DataTypeRegistry.
From S2P Require Import TypeProtocol EndpointTypeRegistry ComponentState OperationDispatcher PortDataSources Inventory.
From S2P Require Import AddressSpace ConcreteServer NodeSpecs Snapshot Transaction Publication.

(** ** The abstract machine *)

Section abstract.
Context {NodeId TaskContext : Type} `{NodeIds NodeId} `{!Countable NodeId}.

(** What is published under a name: the component, the mode and the resources. *)
Definition Part : Type := TaskContext * PublicationMode * gset string.

Record AbstractModel := {
  abs_parts : gmap string Part;
  abs_nodes : gset NodeId;
  abs_open : bool;
  abs_leaks : nat; (* publications that could not be taken back *)
}.

(** The node of every published resource, and of the mandatory operations. *)
Definition exposes (namespace_index : N) (name : string) (effective : gset string)
    (nodes : gset NodeId) : Prop :=
  nodeid_string namespace_index (component_root name) ∈ nodes ∧
  (∀ path, path ∈ effective →
     nodeid_string namespace_index (resourceNodePath (component_root name) path) ∈ nodes) ∧
  ∀ mandatory, mandatory ∈ kMandatoryOperations → resourcePath "" kind_operation mandatory.1 ∈ effective.

(** Publishing [component] as [name]: the result and the next state.  Only the
    shared roots outlive a refusal that leaks nothing. *)
Inductive abs_publish (name : string) (component : TaskContext) (mode : PublicationMode)
    (namespaceIndex : option N) : AbstractModel → bool → AbstractModel → Prop :=
  | abs_refused a shared :
      (∀ namespace_index, namespaceIndex = Some namespace_index → shared ⊆ root_ids namespace_index) →
      abs_publish name component mode namespaceIndex a false
        {| abs_parts := abs_parts a; abs_nodes := abs_nodes a ∪ shared; abs_open := abs_open a;
           abs_leaks := abs_leaks a |}
  | abs_leaked a nodes :
      abs_open a = true → abs_parts a !! name = None → abs_nodes a ⊆ nodes →
      abs_publish name component mode namespaceIndex a false
        {| abs_parts := abs_parts a; abs_nodes := nodes; abs_open := abs_open a;
           abs_leaks := S (abs_leaks a) |}
  | abs_confirmed a effective :
      abs_open a = true → abs_parts a !! name = Some (component, mode, effective) →
      abs_publish name component mode namespaceIndex a true a
  | abs_published a namespace_index shared added effective :
      abs_open a = true → abs_parts a !! name = None →
      namespaceIndex = Some namespace_index → shared ⊆ root_ids namespace_index →
      added ## abs_nodes a ∪ shared → exposes namespace_index name effective added →
      abs_publish name component mode namespaceIndex a true
        {| abs_parts := <[name := (component, mode, effective)]> (abs_parts a);
           abs_nodes := added ∪ (abs_nodes a ∪ shared); abs_open := abs_open a;
           abs_leaks := abs_leaks a |}.
End abstract.
Arguments Part : clear implicits.
Arguments AbstractModel _ _ {_ _}.

Section spec.
Context {NS W DS Port Variant NodeId StatusCode UA_DataType DataType Wire TypeInfo : Type}.
Context {Service Property Attribute LocalOperation TaskContext : Type}.
Context `{EqDecision TypeInfo} `{!Countable TypeInfo} `{EqDecision Service} `{!Countable Service}.
Context `{EqDecision TaskContext}.
Notation TypeCodec := (TypeCodec W DS Port Variant NodeId UA_DataType).
Notation EndpointTypeRegistry := (EndpointTypeRegistry UA_DataType DataType TypeInfo TypeCodec).
Notation Operation := (OperationInterfacePart TypeInfo).
Notation Backend := (@Backend W DS Port Variant NodeId UA_DataType DataType TypeInfo _ _).
Notation MethodCallback := (@MethodCallback Service LocalOperation).
Notation ComponentState := (ComponentState TaskContext).
Notation ComponentSnapshot := (@ComponentSnapshot NS W NodeId TaskContext).
Notation PublishedComponent := (@PublishedComponent NS W NodeId TaskContext).
Notation publish_call := (@publish_call Port TypeInfo Service Property Attribute TaskContext).
Notation model_world := (@model_world NS W NodeId TaskContext).
Context `{NodeIds NodeId} `{!Countable NodeId} `{!Variants Variant NodeId UA_DataType Wire}.
Context `{!NodeServices NS NodeId StatusCode Variant Backend MethodCallback}.
Context `{!AddressSpaces NS NodeId}.
Context `{!NodeServiceLaws NS NodeId StatusCode Variant Backend MethodCallback}.
Context `{!RttPorts W DS Port TypeInfo}.
Context `{!RttResources DS Port Property Attribute TypeInfo LocalOperation}.
Context (empty_variant : Variant) (type_getTypeName : TypeInfo → string).
Context (type_registry : option EndpointTypeRegistry) (operation_timeout : Z) (max_size : N).
Implicit Types (w : model_world) (call : publish_call) (state : ComponentState).

Definition part (published : PublishedComponent) : Part TaskContext :=
  (pub_component published, pub_mode published, pub_effective_resources published).

Definition abstraction w : AbstractModel NodeId TaskContext :=
  {| abs_parts := part <$> components (m_model w); abs_nodes := node_ids (m_native w);
     abs_open := negb (model_closed (m_model w)); abs_leaks := length (abandoned (m_model w)) |}.

Notation publish := (publishComponentInternal empty_variant type_getTypeName type_registry
  operation_timeout max_size).

(** ** The transitions of the model

    A publication, the two calls of the shutdown, and the callbacks, which take
    and give back leases.  The shutdown waits until the states that it closes
    have no users. *)
Definition drained w : Prop :=
  ∀ id state, m_states w !! id = Some state →
    ((∃ name published, components (m_model w) !! name = Some published ∧ pub_state published = id) ∨
     ∃ resources, resources ∈ abandoned (m_model w) ∧ closed_state resources = id) →
    deactivate_condition state = true.

Definition set_state (id : nat) state w : model_world :=
  {| m_model := m_model w; m_native := m_native w; m_rtt := m_rtt w;
     m_states := <[id := state]> (m_states w) |}.

Inductive model_step : model_world → model_world → Prop :=
  | step_publish call w w' result :
      publish call w = Some (w', result) → model_step w w'
  | step_beginShutdown w : model_step w (beginShutdown w)
  | step_shutdown w : drained w → model_step w (shutdown w)
  | step_lease id state w :
      m_states w !! id = Some state →
      model_step w (set_state id (ComponentLease_acquire true state).1 w)
  | step_return id state w lease :
      m_states w !! id = Some state →
      model_step w (set_state id (ComponentLease_release state lease).1 w).

Definition model_reachable w : Prop :=
  ∃ native rtt, rtc model_step
    {| m_model := new_model; m_native := native; m_rtt := rtt; m_states := ∅ |} w.

(** ** The invariant *)

(** Nobody can use the component through this state any more. *)
Definition detached state : Prop := is_active state = false ∧ component state = None.

Record model_inv w : Prop := {
  mi_published : ∀ name published, components (m_model w) !! name = Some published →
    ∃ state, m_states w !! pub_state published = Some state ∧
      component state = Some (pub_component published) ∧ component_name state = name ∧
      is_active state = true ∧ admission_closed state = model_closed (m_model w);
  mi_nodes : ∀ name published, components (m_model w) !! name = Some published →
    ∃ registry, type_registry = Some registry ∧
      node_tree empty_variant registry name (pub_nodes published) ∧
      ∀ path, path ∈ pub_effective_resources published →
        resourceNodePath (component_root name) path ∈ dom (pub_nodes published);
  mi_exposed : ∀ name published, components (m_model w) !! name = Some published →
    ∃ namespace_index, ∀ path, path ∈ dom (pub_nodes published) →
      nodeid_string namespace_index path ∈ node_ids (m_native w);
  mi_detached : ∀ id state, m_states w !! id = Some state → detached state ∨
    ∃ name published, components (m_model w) !! name = Some published ∧ pub_state published = id;
  mi_abandoned : ∀ resources, resources ∈ abandoned (m_model w) →
    ∃ state, m_states w !! closed_state resources = Some state ∧ detached state;
  mi_accepted : ∀ name, name ∈ dom (components (m_model w)) →
    failed_publications (m_model w) !! name = None;
  mi_revision : shutdown_once (m_model w) = false →
    revision (m_model w) = (N.of_nat (size (components (m_model w))) mod 2 ^ 64)%N;
  mi_shutdown : shutdown_once (m_model w) = true →
    components (m_model w) = ∅ ∧ abandoned (m_model w) = [] ∧ model_closed (m_model w) = true;
}.

(** ** What a publication does *)

(** The members that only a new publication or the shutdown changes. *)
Record kept w w' : Prop := {
  kept_components : components (m_model w') = components (m_model w);
  kept_revision : revision (m_model w') = revision (m_model w);
  kept_closed : model_closed (m_model w') = model_closed (m_model w);
  kept_once : shutdown_once (m_model w') = shutdown_once (m_model w);
}.

Inductive publish_effect call w w' : bool → Prop :=
  | effect_none (ok : bool) :
      kept w w' → abandoned (m_model w') = abandoned (m_model w) →
      m_native w' = m_native w → m_states w' = m_states w →
      (failed_publications (m_model w') = failed_publications (m_model w) ∨
       failed_publications (m_model w') = delete (call_name call) (failed_publications (m_model w))) →
      (ok = true → model_closed (m_model w) = false ∧ ∃ existing,
         components (m_model w) !! call_name call = Some existing ∧
         pub_component existing = call_component call ∧ pub_mode existing = call_mode call) →
      publish_effect call w w' ok
  | effect_rejected state :
      kept w w' → abandoned (m_model w') = abandoned (m_model w) → m_native w' = m_native w →
      m_states w' = <[fresh (dom (m_states w)) := state]> (m_states w) → detached state →
      components (m_model w) !! call_name call = None →
      (∃ unsupported, failed_publications (m_model w') =
         <[call_name call := unsupported]> (failed_publications (m_model w))) →
      publish_effect call w w' false
  | effect_dropped state (complete : bool) nodes fingerprint :
      kept w w' → model_closed (m_model w) = false →
      components (m_model w) !! call_name call = None →
      abandoned (m_model w') = abandoned (m_model w) ++
        (if complete then []
         else [{| closed_state := fresh (dom (m_states w)); abandoned_nodes := nodes;
                  abandoned_fingerprint := fingerprint |}]) →
      failed_publications (m_model w') = failed_publications (m_model w) →
      m_states w' = <[fresh (dom (m_states w)) := state]> (m_states w) → detached state →
      node_ids (m_native w) ⊆ node_ids (m_native w') →
      (inspectable (NS := NS) → complete = true →
         ∃ shared, node_ids (m_native w') = node_ids (m_native w) ∪ shared ∧
           ∀ index, call_namespaceIndex call = Some index → shared ⊆ root_ids index) →
      publish_effect call w w' false
  | effect_committed registry published namespace_index shared added :
      type_registry = Some registry → model_closed (m_model w) = false →
      components (m_model w) !! call_name call = None →
      components (m_model w') = <[call_name call := published]> (components (m_model w)) →
      revision (m_model w') = next_revision (revision (m_model w)) →
      model_closed (m_model w') = model_closed (m_model w) →
      shutdown_once (m_model w') = shutdown_once (m_model w) →
      abandoned (m_model w') = abandoned (m_model w) →
      failed_publications (m_model w') = delete (call_name call) (failed_publications (m_model w)) →
      m_states w' = <[fresh (dom (m_states w)) :=
        makeComponentState (call_component call) (call_name call) false]> (m_states w) →
      pub_component published = call_component call → pub_mode published = call_mode call →
      pub_state published = fresh (dom (m_states w)) →
      node_tree empty_variant registry (call_name call) (pub_nodes published) →
      (∀ path, path ∈ pub_effective_resources published →
         resourceNodePath (component_root (call_name call)) path ∈ dom (pub_nodes published)) →
      (∀ mandatory, mandatory ∈ kMandatoryOperations →
         resourcePath "" kind_operation mandatory.1 ∈ pub_effective_resources published) →
      call_namespaceIndex call = Some namespace_index → shared ⊆ root_ids namespace_index →
      added ## node_ids (m_native w) ∪ shared →
      node_ids (m_native w') = added ∪ (node_ids (m_native w) ∪ shared) →
      (∀ path, path ∈ dom (pub_nodes published) → nodeid_string namespace_index path ∈ added) →
      publish_effect call w w' true.

(** ** Lemmas *)

Lemma deactivate_detached state : detached (deactivate state).
Proof. done. Qed.

(** Calls that end before a state is made. *)
Lemma no_effect call w (ok : bool) model failed diagnostics text :
  model = m_model w ∨ model = set_failures failed diagnostics (m_model w) →
  (failed = failed_publications (m_model w) ∨
   failed = delete (call_name call) (failed_publications (m_model w))) →
  (ok = true → model_closed (m_model w) = false ∧ ∃ existing,
     components (m_model w) !! call_name call = Some existing ∧
     pub_component existing = call_component call ∧ pub_mode existing = call_mode call) →
  publish_effect call w (set_model (set_last_error text model) (set_model model w)) ok.
Proof.
  intros Hmodel Hfailed Hok. apply effect_none; [|..|exact Hok]; [split|..]; simpl;
    destruct Hmodel as [-> | ->]; simpl; auto.
Qed.

Lemma republish_effect existing call w :
  model_closed (m_model w) = false → components (m_model w) !! call_name call = Some existing →
  publish_effect call w (republish existing call w).1 (res_ok (republish existing call w).2).
Proof.
  intros Hopen Hexisting. unfold republish, rejectPublicationConflict, failWith, setSuccess.
  case_bool_decide as Hcomponent; cbn [negb fst snd res_ok]; [|eapply no_effect; [by right|by left|done]].
  case_bool_decide as Hmode; cbn [negb fst snd res_ok]; [|eapply no_effect; [by right|by left|done]].
  assert (Haccept : publish_effect call w
    (set_model (set_last_error "" (erase_failures (call_name call) (m_model w)))
       (set_model (erase_failures (call_name call) (m_model w)) w)) true).
  { eapply no_effect; [by right|by right|]. intros _. split; [done|]. by exists existing. }
  destruct (call_mode call); [exact Haccept|].
  case_bool_decide; cbn [negb fst snd res_ok]; [|eapply no_effect; [by right|by left|done]].
  case_bool_decide; cbn [negb fst snd res_ok]; [exact Haccept|]. eapply no_effect; [by right|by right|done].
Qed.

Lemma commit_effect registry (snapshot : ComponentSnapshot) call w :
  type_registry = Some registry → model_closed (m_model w) = false →
  components (m_model w) !! call_name call = None →
  node_tree empty_variant registry (call_name call) (snap_nodes snapshot) →
  (∀ path, path ∈ snap_effective snapshot →
     resourceNodePath (component_root (call_name call)) path ∈ dom (snap_nodes snapshot)) →
  (∀ mandatory, mandatory ∈ kMandatoryOperations →
     resourcePath "" kind_operation mandatory.1 ∈ snap_effective snapshot) →
  let state := makeComponentState (call_component call) (call_name call) false in
  let '(w', result) := commit max_size snapshot state call w in
  publish_effect call w w' (res_ok result).
Proof.
  intros Hregistry Hopen Hnone Htree Hnodes Hmandatory state. unfold commit.
  destruct (call_invoke call) as [|error].
  2: { unfold setFailure. cbn [res_ok]. eapply (effect_dropped call w _ _ true ∅ "");
         cbn; try done.
       intros _ _. exists ∅. split; [by rewrite (right_id_L ∅ (∪))|]. intros. apply empty_subseteq. }
  rewrite Hnone. rewrite bool_decide_eq_false_2 by (by intros [? ?]).
  pose proof (transact_effect empty_variant registry max_size (call_namespaceIndex call)
    (roots_ready (m_model w)) (revision (m_model w)) false (call_name call) (snap_nodes snapshot) state
    (m_native w) (m_rtt w) (tree_known _ _ _ _ Htree) ltac:(done)) as Heffect.
  cbv zeta in Heffect. set (tx := transact _ _ _ _ _ _ _ _ _ _) in *. clearbody tx.
  destruct (tx_committed tx) eqn:Hcommitted; cbn [negb].
  - destruct Heffect as (_ & _ & Hstate & namespace_index & shared & added & Hns & Hshared & Hdisj &
      Hadded & Hall). unfold setSuccess. cbn [res_ok].
    eapply (effect_committed call w _ registry); cbn; try done. by rewrite Hstate.
  - destruct Heffect as (Hstate & Hsub & Hclean). unfold setFailure. cbn [res_ok].
    eapply (effect_dropped call w _ _ (tx_complete tx)); cbn; done.
Qed.

(** The ways a call can go, once for all properties of its result. *)
Lemma publish_cases (P : model_world * publish_result → Prop) call w :
  let name := call_name call in
  let state := makeComponentState (call_component call) name false in
  (∀ failure, failure ≠ "" → P (setFailure failure call w)) →
  (∀ existing, model_closed (m_model w) = false → components (m_model w) !! name = Some existing →
     P (republish existing call w)) →
  (∀ registry (snapshot : ComponentSnapshot), type_registry = Some registry →
     model_closed (m_model w) = false → components (m_model w) !! name = None →
     snapshotComponent empty_variant type_getTypeName registry (call_view call) (call_discovered call)
       name (call_provides call) (call_mode call) (call_selectors call) = Some snapshot →
     (snap_diagnostics snapshot ≠ [] →
        P (failWith (rejection_text (call_mode call) name (length (snap_diagnostics snapshot)))
             (snap_unsupported snapshot) (snap_diagnostics snapshot) call
             {| m_model := set_failures
                  (<[name := snap_unsupported snapshot]> (failed_publications (m_model w)))
                  (<[name := snap_diagnostics snapshot]> (publication_diagnostics (m_model w)))
                  (m_model w);
                m_native := m_native w; m_rtt := m_rtt w;
                m_states := <[fresh (dom (m_states w)) := deactivate state]> (m_states w) |})) ∧
     (snap_diagnostics snapshot = [] → P (commit max_size snapshot state call w))) →
  ∀ outcome, publish call w = Some outcome → P outcome.
Proof.
  intros name state Hrefuse Hrepublish Hnew outcome. unfold publishComponentInternal.
  fold name state.
  destruct (model_closed (m_model w)) eqn:Hopen; [intros [= <-]; by apply Hrefuse|].
  destruct (components (m_model w) !! name) as [existing|] eqn:Hexisting;
    [intros [= <-]; by apply Hrepublish|].
  destruct (call_isRunning call); cbn [negb]; [|intros [= <-]; by apply Hrefuse].
  destruct type_registry as [registry|] eqn:Hregistry; [|intros [= <-]; by apply Hrefuse].
  destruct (operation_timeout <=? 0)%Z; [intros [= <-]; by apply Hrefuse|].
  destruct (snapshotComponent _ _ _ _ _ _ _ _ _) as [snapshot|] eqn:Hsnapshot; [|done].
  destruct (Hnew registry snapshot eq_refl eq_refl eq_refl Hsnapshot) as [Hrejected Hcommit].
  clear Hsnapshot Hnew. case_bool_decide as Hdiagnostics; cbn [negb]; intros Heq;
    apply (inj Some) in Heq; subst outcome; auto.
Qed.

Lemma publish_effects call w w' result :
  publish call w = Some (w', result) → publish_effect call w w' (res_ok result).
Proof.
  intros Hpublish. refine (publish_cases (λ outcome, publish_effect call w outcome.1 (res_ok outcome.2))
    call w _ _ _ (w', result) Hpublish).
  - intros failure _. eapply (no_effect call w false (m_model w) _ ∅); [by left|by left|done].
  - intros existing; apply republish_effect.
  - intros registry snapshot Hregistry Hopen Hnone Hsnapshot.
    pose proof (snapshot_accepted _ _ _ _ _ _ _ _ _ _ Hsnapshot) as Haccepted. clear Hsnapshot. split.
    + intros _. eapply (effect_rejected call w); cbn; try done. by eexists.
    + intros Hdiagnostics. destruct (Haccepted Hdiagnostics) as (_ & _ & Htree & Hnodes & Hmandatory).
      pose proof (commit_effect registry snapshot call w Hregistry Hopen Hnone Htree Hnodes Hmandatory)
        as Heffect. cbv zeta in Heffect. by destruct (commit _ _ _ _ _).
Qed.

Lemma abstraction_eq w parts nodes opened leaks :
  part <$> components (m_model w) = parts → node_ids (m_native w) = nodes →
  negb (model_closed (m_model w)) = opened → length (abandoned (m_model w)) = leaks →
  abstraction w = {| abs_parts := parts; abs_nodes := nodes; abs_open := opened; abs_leaks := leaks |}.
Proof. by intros <- <- <- <-. Qed.

Lemma refines_effect call w w' ok :
  inspectable (NS := NS) → publish_effect call w w' ok →
  abs_publish (call_name call) (call_component call) (call_mode call) (call_namespaceIndex call)
    (abstraction w) ok (abstraction w').
Proof.
  intros Hinspect Heffect.
  destruct Heffect as [ok [Hc Hr Hcl Ho] Hab Hn Hs _ Hok|state [Hc Hr Hcl Ho] Hab Hn Hs Hd Hnone _
    |state complete nodes fingerprint [Hc Hr Hcl Ho] Hopen Hnone Hab Hf Hs Hd Hsub Hclean
    |registry published ns shared added Hreg Hopen Hnone Hc Hr Hcl Ho Hab Hf Hs Hpc Hpm Hps Htree
       Hnodes Hman Hns Hsh Hdisj Hadded Hall].
  - destruct ok.
    + assert (abstraction w' = abstraction w) as ->.
      { apply abstraction_eq; [by rewrite Hc|by rewrite Hn|by rewrite Hcl|by rewrite Hab]. }
      destruct (Hok eq_refl) as (Hopen & existing & Hexisting & Hcomponent & Hmode).
      apply (abs_confirmed _ _ _ _ _ (pub_effective_resources existing)).
      * simpl. by rewrite Hopen.
      * simpl. rewrite lookup_fmap, Hexisting. unfold part. simpl. by rewrite Hcomponent, Hmode.
    + erewrite (abstraction_eq w');
        [apply (abs_refused _ _ _ _ (abstraction w) ∅); intros; apply empty_subseteq|..]; simpl.
      * by rewrite Hc.
      * by rewrite Hn, (right_id_L ∅ (∪)).
      * by rewrite Hcl.
      * by rewrite Hab.
  - erewrite (abstraction_eq w');
      [apply (abs_refused _ _ _ _ (abstraction w) ∅); intros; apply empty_subseteq|..]; simpl.
    + by rewrite Hc.
    + by rewrite Hn, (right_id_L ∅ (∪)).
    + by rewrite Hcl.
    + by rewrite Hab.
  - destruct complete.
    + destruct (Hclean Hinspect eq_refl) as (shared & Hn & Hshared).
      erewrite (abstraction_eq w'); [apply (abs_refused _ _ _ _ (abstraction w) shared Hshared)|..]; simpl.
      * by rewrite Hc.
      * done.
      * by rewrite Hcl.
      * by rewrite Hab, app_nil_r.
    + erewrite (abstraction_eq w');
        [apply (abs_leaked _ _ _ _ (abstraction w) (node_ids (m_native w')))|..]; simpl.
      * by rewrite Hopen.
      * by rewrite lookup_fmap, Hnone.
      * done.
      * by rewrite Hc.
      * done.
      * by rewrite Hcl.
      * rewrite Hab, length_app. simpl. lia.
  - erewrite (abstraction_eq w');
      [apply (abs_published _ _ _ _ (abstraction w) ns shared added (pub_effective_resources published))|..];
      simpl; try done.
    + by rewrite Hopen.
    + by rewrite lookup_fmap, Hnone.
    + destruct Htree as [Hroot _]. split_and!; auto.
    + rewrite Hc, fmap_insert. unfold part at 1. by rewrite Hpc, Hpm.
    + by rewrite Hcl.
    + by rewrite Hab.
Qed.

(** ** Lemmas: the invariant *)

Lemma fresh_state (states : gmap nat ComponentState) : states !! fresh (dom states) = None.
Proof. apply not_elem_of_dom, is_fresh. Qed.

(** The parts of the invariant that carry over when the published components stay
    and states are only added. *)
Lemma inv_kept w w' :
  model_inv w → kept w w' → m_states w ⊆ m_states w' → node_ids (m_native w) ⊆ node_ids (m_native w') →
  (∀ id state, m_states w' !! id = Some state → m_states w !! id = Some state ∨ detached state) →
  (∀ name, failed_publications (m_model w) !! name = None → name ∈ dom (components (m_model w)) →
     failed_publications (m_model w') !! name = None) →
  (∀ resources, resources ∈ abandoned (m_model w') → resources ∈ abandoned (m_model w) ∨
     model_closed (m_model w) = false ∧
     ∃ state, m_states w' !! closed_state resources = Some state ∧ detached state) →
  (model_closed (m_model w) = true → abandoned (m_model w') = abandoned (m_model w)) →
  model_inv w'.
Proof.
  intros [Hpub Hnodes Hexp Hdet Habn Hacc Hrev Hshut] [Hc Hr Hcl Ho] Hsub Hgrow Hnew Hfailed Hab Hclosed.
  split.
  - intros name published Hp. rewrite Hc in Hp. destruct (Hpub name published Hp) as (state & Hs & ?).
    exists state. rewrite Hcl. split; [|done]. by eapply lookup_weaken.
  - intros name published Hp. rewrite Hc in Hp. eauto.
  - intros name published Hp. rewrite Hc in Hp. destruct (Hexp name published Hp) as [ns Hall].
    exists ns. auto.
  - intros id state Hs. rewrite Hc. destruct (Hnew id state Hs) as [Hold|?]; [eauto|by left].
  - intros resources [Hin|[_ ?]]%Hab; [|done]. destruct (Habn resources Hin) as (state & Hs & ?).
    exists state. split; [|done]. by eapply lookup_weaken.
  - intros name Hin. rewrite Hc in Hin. apply Hfailed; [by apply Hacc|done].
  - rewrite Ho, Hr, Hc. apply Hrev.
  - rewrite Ho, Hc, Hcl. intros Honce. destruct (Hshut Honce) as (? & Hnil & Hclose).
    split_and!; [done| |done]. by rewrite (Hclosed Hclose).
Qed.

Lemma inv_committed call w w' registry published namespace_index :
  model_inv w → type_registry = Some registry → model_closed (m_model w) = false →
  components (m_model w) !! call_name call = None →
  components (m_model w') = <[call_name call := published]> (components (m_model w)) →
  revision (m_model w') = next_revision (revision (m_model w)) →
  model_closed (m_model w') = model_closed (m_model w) →
  shutdown_once (m_model w') = shutdown_once (m_model w) →
  abandoned (m_model w') = abandoned (m_model w) →
  failed_publications (m_model w') = delete (call_name call) (failed_publications (m_model w)) →
  m_states w' = <[fresh (dom (m_states w)) :=
    makeComponentState (call_component call) (call_name call) false]> (m_states w) →
  pub_component published = call_component call → pub_state published = fresh (dom (m_states w)) →
  node_tree empty_variant registry (call_name call) (pub_nodes published) →
  (∀ path, path ∈ pub_effective_resources published →
     resourceNodePath (component_root (call_name call)) path ∈ dom (pub_nodes published)) →
  node_ids (m_native w) ⊆ node_ids (m_native w') →
  (∀ path, path ∈ dom (pub_nodes published) →
     nodeid_string namespace_index path ∈ node_ids (m_native w')) →
  model_inv w'.
Proof.
  intros [Hpub Hnodes Hexp Hdet Habn Hacc Hrev Hshut] Hreg Hopen Hnone Hc Hr Hcl Ho Hab Hf Hs Hpc Hps
    Htree Hpaths Hgrow Hadded.
  pose proof (fresh_state (m_states w)) as Hfresh.
  assert (Hold : ∀ id state, m_states w !! id = Some state → m_states w' !! id = Some state).
  { intros id state Hid. rewrite Hs. rewrite lookup_insert_ne; [done|]. congruence. }
  split.
  - intros name other. rewrite Hc, Hcl. intros [[<- <-]|[Hne Hp]]%lookup_insert_Some.
    + eexists. rewrite Hps, Hs, lookup_insert. rewrite decide_True by done. split_and!; [done| |done..].
      by rewrite Hpc.
    + destruct (Hpub name other Hp) as (state & ? & ?). exists state. split; [by apply Hold|done].
  - intros name other. rewrite Hc. intros [[<- <-]|[Hne Hp]]%lookup_insert_Some; eauto.
  - intros name other. rewrite Hc. intros [[<- <-]|[Hne Hp]]%lookup_insert_Some; [eauto|].
    destruct (Hexp name other Hp) as [ns Hall]. exists ns. auto.
  - intros id state. rewrite Hs. intros [[<- <-]|[Hne Hid]]%lookup_insert_Some.
    + right. exists (call_name call), published. rewrite Hc, lookup_insert, decide_True by done. done.
    + destruct (Hdet id state Hid) as [?|(name & other & Hp & ?)]; [by left|right]. exists name, other.
      split; [|done]. rewrite Hc, lookup_insert_ne; [done|]. congruence.
  - intros resources Hin. rewrite Hab in Hin. destruct (Habn resources Hin) as (state & ? & ?).
    exists state. split; [by apply Hold|done].
  - intros name. rewrite Hc, dom_insert_L, Hf. intros Hin.
    destruct (decide (name = call_name call)) as [->|Hne]; [apply lookup_delete_eq|].
    rewrite lookup_delete_ne by done. apply Hacc. set_solver.
  - rewrite Ho, Hr, Hc. intros Honce. rewrite map_size_insert_None by done. unfold next_revision.
    rewrite (Hrev Honce), Nat2N.inj_succ, N.Div0.add_mod_idemp_l. f_equal. lia.
  - rewrite Ho. intros Honce. destruct (Hshut Honce) as (_ & _ & ?). congruence.
Qed.

Lemma inv_effect call w w' ok : model_inv w → publish_effect call w w' ok → model_inv w'.
Proof.
  intros Hinv Heffect. pose proof (fresh_state (m_states w)) as Hfresh.
  assert (Hinsert : ∀ state, m_states w ⊆ <[fresh (dom (m_states w)) := state]> (m_states w))
    by (intros; by apply insert_subseteq).
  assert (Hnew : ∀ state, detached state → ∀ id other,
    <[fresh (dom (m_states w)) := state]> (m_states w) !! id = Some other →
    m_states w !! id = Some other ∨ detached other).
  { intros state Hd id other [[_ <-]|[_ ?]]%lookup_insert_Some; auto. }
  destruct Heffect as [ok Hk Hab Hn Hs Hf Hok|state Hk Hab Hn Hs Hd Hnone [unsupported Hf]
    |state complete nodes fingerprint Hk Hopen Hnone Hab Hf Hs Hd Hsub Hclean
    |registry published namespace_index shared added].
  - apply (inv_kept w w' Hinv Hk); rewrite ?Hs, ?Hab, ?Hn; [done|done|by left| |by left|done].
    intros name Hname _. destruct Hf as [-> | ->]; [done|]. apply lookup_delete_None. by right.
  - apply (inv_kept w w' Hinv Hk); rewrite ?Hs, ?Hab, ?Hn; [done|done|by apply Hnew| |by left|done].
    intros name Hname Hin. rewrite Hf, lookup_insert_ne; [done|]. intros <-.
    by apply not_elem_of_dom in Hnone.
  - apply (inv_kept w w' Hinv Hk); rewrite ?Hs, ?Hf; [done|done|by apply Hnew|done| |congruence].
    intros resources. rewrite Hab, elem_of_app. intros [?|Hin]; [by left|right]. split; [done|].
    destruct complete; [by apply elem_of_nil in Hin|]. apply list_elem_of_singleton in Hin as ->.
    exists state. simpl. by rewrite lookup_insert, decide_True by done.
  - rename select (node_ids (m_native w') = _) into Hnodes.
    eapply (inv_committed call w w' registry published namespace_index); try done; rewrite Hnodes.
    + clear. set_solver.
    + intros path Hpath. apply elem_of_union. left. auto.
Qed.

Lemma inv_new_model native rtt :
  model_inv {| m_model := new_model; m_native := native; m_rtt := rtt; m_states := ∅ |}.
Proof.
  split; simpl; try done; [by intros ? ? ?%lookup_empty_Some..|by intros ? ?%elem_of_nil].
Qed.

Lemma inv_beginShutdown w : model_inv w → model_inv (beginShutdown w).
Proof.
  intros [Hpub Hnodes Hexp Hdet Habn Hacc Hrev Hshut].
  assert (Hstates : ∀ id state, m_states (beginShutdown w) !! id = Some state →
    ∃ old, m_states w !! id = Some old ∧ state = closeAdmission old).
  { intros id state Hs. simpl in Hs. rewrite lookup_fmap in Hs.
    apply fmap_Some in Hs as (old & ? & ->). by exists old. }
  assert (Hold : ∀ id state, m_states w !! id = Some state →
    m_states (beginShutdown w) !! id = Some (closeAdmission state)).
  { intros id state Hs. simpl. by rewrite lookup_fmap, Hs. }
  split; simpl; [|done|done| | |done|done|].
  - intros name published Hp. destruct (Hpub name published Hp) as (state & Hs & ? & ? & ? & _).
    exists (closeAdmission state). split; [by apply Hold|done].
  - intros id state Hs. destruct (Hstates id state Hs) as (old & Ho & ->). by destruct (Hdet id old Ho); [left|right].
  - intros resources Hin. destruct (Habn resources Hin) as (state & Hs & ?).
    exists (closeAdmission state). split; [by apply Hold|done].
  - intros Honce. by destruct (Hshut Honce) as (? & ? & _).
Qed.

Lemma deactivate_states_lookup ids (states : gmap nat ComponentState) id :
  deactivate_states ids states !! id =
    (λ state, if bool_decide (id ∈ ids) then deactivate state else state) <$> states !! id.
Proof.
  unfold deactivate_states. revert states. induction ids as [|i ids IH]; intros states; cbn [foldl].
  { rewrite bool_decide_eq_false_2 by (by intros ?%elem_of_nil). by destruct (states !! id). }
  rewrite IH. destruct (decide (i = id)) as [->|Hne].
  - rewrite lookup_alter_eq. rewrite (bool_decide_eq_true_2 (id ∈ id :: ids)) by left.
    destruct (states !! id); [|done]. simpl. f_equal. by case_bool_decide.
  - rewrite lookup_alter_ne by done.
    rewrite (bool_decide_ext (id ∈ i :: ids) (id ∈ ids)); [done|]. rewrite elem_of_cons. naive_solver.
Qed.

(** Closing: every state is detached afterwards. *)
Lemma shutdown_states w :
  model_inv w → shutdown_once (m_model w) = false → ∀ id state,
  m_states (shutdown w) !! id = Some state → detached state.
Proof.
  intros Hinv Honce id state. pose proof (inv_beginShutdown w Hinv) as [_ _ _ Hdet _ _ _ _].
  unfold shutdown. set (v := beginShutdown w) in *.
  assert (Hv : shutdown_once (m_model v) = false) by done. rewrite Hv. cbn [m_states].
  rewrite deactivate_states_lookup. clearbody v.
  intros (old & Hold & ->)%fmap_Some. case_bool_decide as Hin; [done|].
  destruct (Hdet id old Hold) as [?|(name & published & Hp & Hid)]; [done|].
  destruct Hin. apply elem_of_app. left. apply list_elem_of_fmap. exists (name, published).
  split; [done|]. by apply elem_of_ordered_items.
Qed.

Lemma inv_shutdown w : model_inv w → model_inv (shutdown w).
Proof.
  intros Hinv. destruct (shutdown_once (m_model w)) eqn:Honce.
  { unfold shutdown. cbn [beginShutdown m_model shutdown_once]. rewrite Honce.
    by apply inv_beginShutdown. }
  pose proof (shutdown_states w Hinv Honce) as Hdet. revert Hdet. unfold shutdown.
  cbn [beginShutdown m_model shutdown_once]. rewrite Honce. cbn [m_states m_model]. intros Hdet.
  split; cbn [m_model components abandoned failed_publications revision shutdown_once model_closed];
    try done; [|by intros ? ?%elem_of_nil].
  intros id state Hs. left. by eapply Hdet.
Qed.

(** A callback changes nothing but the number of users of a state. *)
Lemma inv_set_users id state count w :
  model_inv w → m_states w !! id = Some state → model_inv (set_state id (set_users state count) w).
Proof.
  intros [Hpub Hnodes Hexp Hdet Habn Hacc Hrev Hshut] Hid.
  assert (Hlook : ∀ i old, m_states w !! i = Some old → ∃ state',
    m_states (set_state id (set_users state count) w) !! i = Some state' ∧ state' = set_users old (users state')).
  { intros i old Hi. simpl. destruct (decide (i = id)) as [->|Hne].
    - eexists. rewrite lookup_insert, decide_True by done. split; [done|]. by simplify_eq.
    - exists old. rewrite lookup_insert_ne by done. by destruct old. }
  split; simpl; [|done|done| | |done..].
  - intros name published Hp. destruct (Hpub name published Hp) as (old & Hs & ?).
    destruct (Hlook _ _ Hs) as (state' & ? & Heq). exists state'. split; [done|]. by rewrite Heq.
  - intros i other. intros [[<- <-]|[_ Hi]]%lookup_insert_Some; [|by eapply Hdet].
    by destruct (Hdet id state Hid); [left|right].
  - intros resources Hin. destruct (Habn resources Hin) as (old & Hs & ?).
    destruct (Hlook _ _ Hs) as (state' & ? & Heq). exists state'. split; [done|]. by rewrite Heq.
Qed.

Lemma inv_step w w' : model_inv w → model_step w w' → model_inv w'.
Proof.
  intros Hinv Hstep. destruct Hstep as [call w w' result Hp|w|w _|id state w Hs|id state w lease Hs].
  - by eapply inv_effect, publish_effects.
  - by apply inv_beginShutdown.
  - by apply inv_shutdown.
  - unfold ComponentLease_acquire. cbn [negb].
    destruct (_ || _); [|by apply inv_set_users]. replace state with (set_users state (users state))
      by (by destruct state). by apply inv_set_users.
  - unfold ComponentLease_release. destruct (negb _); [|by apply inv_set_users].
    replace state with (set_users state (users state)) by (by destruct state). by apply inv_set_users.
Qed.

Lemma inv_reachable w : model_reachable w → model_inv w.
Proof.
  intros (native & rtt & Hsteps). pose proof (inv_new_model native rtt) as Hinv.
  induction Hsteps as [|w1 w2 w3 Hstep _ IH]; [done|]. by eapply IH, inv_step.
Qed.

(** ** Lemmas: what a call reports *)

(** The records of the other components are left alone. *)
Definition same_records (name : string) w w' : Prop :=
  ∀ other, other ≠ name →
    unsupportedResources (m_model w') other = unsupportedResources (m_model w) other ∧
    publicationDiagnostics (m_model w') other = publicationDiagnostics (m_model w) other.

Definition reported call w w' (result : publish_result) : Prop :=
  let model := m_model w' in
  res_error result = assignError (call_error call) (lastError model) ∧
  res_emitted result = PublicationDiagnostic_message <$> res_diagnostics result ∧
  same_records (call_name call) w w' ∧
  if res_ok result then
    lastError model = "" ∧ unsupportedResources model (call_name call) = [] ∧
    publicationDiagnostics model (call_name call) = [] ∧ res_diagnostics result = []
  else
    lastError model ≠ "" ∧
    (res_diagnostics result ≠ [] → publicationDiagnostics model (call_name call) = res_diagnostics result) ∧
    (res_unsupported result ≠ [] → unsupportedResources model (call_name call) = res_unsupported result).

Lemma reported_failure call w v failure :
  failure ≠ "" → failed_publications (m_model v) = failed_publications (m_model w) →
  publication_diagnostics (m_model v) = publication_diagnostics (m_model w) →
  reported call w (setFailure failure call v).1 (setFailure failure call v).2.
Proof.
  intros Hfailure Hf Hd. unfold reported, same_records, unsupportedResources, publicationDiagnostics. simpl.
  by rewrite Hf, Hd.
Qed.

Lemma reported_success call w v :
  failed_publications (m_model v) = failed_publications (m_model w) →
  publication_diagnostics (m_model v) = publication_diagnostics (m_model w) →
  let v' := set_model (erase_failures (call_name call) (m_model v)) v in
  reported call w (setSuccess call v').1 (setSuccess call v').2.
Proof.
  intros Hf Hd. unfold reported, same_records, unsupportedResources, publicationDiagnostics. simpl.
  rewrite Hf, Hd, !lookup_delete_eq. split_and!; [done|done| |done..].
  intros other Hne. by rewrite !lookup_delete_ne.
Qed.

Lemma reported_diagnostics call w v failure unsupported diagnostics failed :
  failure ≠ "" →
  (∀ other, other ≠ call_name call → failed !! other = failed_publications (m_model w) !! other) →
  (unsupported ≠ [] → failed !! call_name call = Some unsupported) →
  m_model v = set_failures failed (<[call_name call := diagnostics]> (publication_diagnostics (m_model w)))
                (m_model w) →
  let outcome := failWith failure unsupported diagnostics call v in
  reported call w outcome.1 outcome.2.
Proof.
  intros Hfailure Hother Hfailed Hv. unfold reported, same_records, unsupportedResources,
    publicationDiagnostics. cbn [failWith fst snd res_ok res_error res_emitted res_diagnostics
    res_unsupported set_model m_model set_last_error last_error lastError failed_publications
    publication_diagnostics]. rewrite Hv. cbn [set_failures failed_publications publication_diagnostics].
  split_and!; [done|done| |done| |].
  - intros other Hne. rewrite lookup_insert_ne by done. by rewrite Hother.
  - by rewrite lookup_insert, decide_True by done.
  - intros Hu. by rewrite (Hfailed Hu).
Qed.

Lemma commit_reported snapshot state call w :
  reported call w (commit max_size snapshot state call w).1 (commit max_size snapshot state call w).2.
Proof.
  unfold commit.
  assert (Htext : ∀ text, (if str_empty text then "failed to publish the OPC UA component" else text) ≠ "").
  { intros text. destruct (str_empty text) eqn:He; [done|]. intros ->. done. }
  destruct (call_invoke call) as [|error]; [|by apply reported_failure].
  set (tx := transact _ _ _ _ _ _ _ _ _ _). clearbody tx.
  destruct (negb (tx_committed tx)); [by apply reported_failure|].
  set (model := {| components := _ |}). eapply (reported_success call w
    {| m_model := model; m_native := tx_native tx; m_rtt := tx_rtt tx;
       m_states := <[fresh (dom (m_states w)) := tx_state tx]> (m_states w) |}); done.
Qed.

Lemma republish_reported existing call w :
  reported call w (republish existing call w).1 (republish existing call w).2.
Proof.
  assert (Hconflict : ∀ reason, reported call w (rejectPublicationConflict reason call w).1
    (rejectPublicationConflict reason call w).2).
  { intros reason. by eapply reported_diagnostics. }
  assert (Haccept : let v := set_model (erase_failures (call_name call) (m_model w)) w in
    reported call w (setSuccess call v).1 (setSuccess call v).2) by by apply reported_success.
  unfold republish. case_bool_decide; cbn [negb]; [|apply Hconflict].
  case_bool_decide; cbn [negb]; [|apply Hconflict].
  destruct (call_mode call); [exact Haccept|].
  case_bool_decide; cbn [negb]; [|apply Hconflict].
  case_bool_decide as Hdiag; cbn [negb]; [exact Haccept|]. eapply reported_diagnostics; [done| |done|done].
  intros other Hne. by apply lookup_delete_ne.
Qed.

Lemma publish_reported call w w' result :
  publish call w = Some (w', result) → reported call w w' result.
Proof.
  intros Hpublish. refine (publish_cases (λ outcome, reported call w outcome.1 outcome.2)
    call w _ _ _ (w', result) Hpublish).
  - intros failure Hfailure. by apply reported_failure.
  - intros existing _ _. apply republish_reported.
  - intros registry snapshot _ _ _ _. split; intros _; [|apply commit_reported].
    eapply reported_diagnostics; [by destruct (call_mode call)| |
      by intros _; rewrite lookup_insert, decide_True by done|done].
    intros other Hne. by apply lookup_insert_ne.
Qed.

(** ** Lemmas: publishing again *)

(** What [republish] checks. *)
Definition confirms call (published : PublishedComponent) : Prop :=
  pub_component published = call_component call ∧ pub_mode published = call_mode call ∧
  (call_mode call = mode_selected →
   let plan := buildPublicationPlan mode_selected
     (discoverComponent (call_discovered call) (call_name call) (call_provides call))
     (call_name call) (call_selectors call) in
   pub_effective_resources published = effective_resources plan ∧ plan_diagnostics plan = []).

(** A model in which the call has succeeded. *)
Record settled call w (result : publish_result) : Prop := {
  se_open : model_closed (m_model w) = false;
  se_published : ∃ published, components (m_model w) !! call_name call = Some published ∧
    confirms call published;
  se_failed : failed_publications (m_model w) !! call_name call = None;
  se_diagnostics : publication_diagnostics (m_model w) !! call_name call = None;
  se_error : last_error (m_model w) = "";
  se_result : result = {| res_ok := true; res_error := assignError (call_error call) "";
                          res_unsupported := []; res_diagnostics := []; res_emitted := [] |};
}.

Lemma settled_success call v published :
  model_closed (m_model v) = false → components (m_model v) !! call_name call = Some published →
  confirms call published →
  let v' := set_model (erase_failures (call_name call) (m_model v)) v in
  settled call (setSuccess call v').1 (setSuccess call v').2.
Proof.
  intros Hopen Hp Hconfirms. split; simpl; [done|by exists published|apply lookup_delete_eq..|done|done].
Qed.

Lemma republish_confirmed existing call w :
  confirms call existing → republish existing call w =
    setSuccess call (set_model (erase_failures (call_name call) (m_model w)) w).
Proof.
  intros (Hcomponent & Hmode & Hselected). unfold republish.
  rewrite !bool_decide_eq_true_2 by done. cbn [negb].
  destruct (call_mode call); [done|]. destruct (Hselected eq_refl) as [Heff Hdiag].
  rewrite Heff, Hdiag. by rewrite !bool_decide_eq_true_2 by done.
Qed.

Lemma republish_settled existing call w :
  model_closed (m_model w) = false → components (m_model w) !! call_name call = Some existing →
  res_ok (republish existing call w).2 = true →
  settled call (republish existing call w).1 (republish existing call w).2.
Proof.
  intros Hopen Hexisting Hok. cut (confirms call existing).
  { intros Hconfirms. rewrite republish_confirmed by done. by eapply settled_success. }
  revert Hok. unfold republish, confirms.
  case_bool_decide as Hcomponent; cbn [negb]; [|done].
  case_bool_decide as Hmode; cbn [negb]; [|done]. destruct (call_mode call); [done|].
  case_bool_decide as Heff; cbn [negb]; [|done].
  case_bool_decide as Hdiag; cbn [negb]; [|done]. done.
Qed.

Lemma commit_settled (snapshot : ComponentSnapshot) state call w :
  model_closed (m_model w) = false →
  (call_mode call = mode_selected →
   let plan := buildPublicationPlan mode_selected
     (discoverComponent (call_discovered call) (call_name call) (call_provides call))
     (call_name call) (call_selectors call) in
   snap_effective snapshot = effective_resources plan ∧ plan_diagnostics plan = []) →
  res_ok (commit max_size snapshot state call w).2 = true →
  settled call (commit max_size snapshot state call w).1 (commit max_size snapshot state call w).2.
Proof.
  intros Hopen Hplan. unfold commit. destruct (call_invoke call) as [|error]; [|done].
  set (tx := transact _ _ _ _ _ _ _ _ _ _). clearbody tx.
  destruct (negb (tx_committed tx)); [done|]. intros _.
  set (published := {| pub_component := _ |}). set (model := {| components := _ |}).
  refine (settled_success call {| m_model := model; m_native := tx_native tx; m_rtt := tx_rtt tx;
    m_states := <[fresh (dom (m_states w)) := tx_state tx]> (m_states w) |} published _ _ _); simpl.
  - done.
  - by rewrite lookup_insert, decide_True by done.
  - done.
Qed.

Lemma publish_settled call w w' result :
  publish call w = Some (w', result) → res_ok result = true → settled call w' result.
Proof.
  intros Hpublish. refine (publish_cases (λ outcome, res_ok outcome.2 = true →
    settled call outcome.1 outcome.2) call w _ _ _ (w', result) Hpublish).
  - done.
  - intros existing. apply republish_settled.
  - intros registry snapshot _ Hopen _ Hsnapshot. split; [done|]. intros Hdiagnostics.
    apply commit_settled; [done|].
    destruct (snapshot_accepted _ _ _ _ _ _ _ _ _ _ Hsnapshot Hdiagnostics) as (Hplan & Heff & _).
    intros Hmode. rewrite Hmode in Hplan, Heff. done.
Qed.

Lemma settled_again call w result :
  settled call w result → publish call w = Some (w, result).
Proof.
  intros [Hopen (published & Hp & Hconfirms) Hf Hd He ->]. unfold publishComponentInternal.
  rewrite Hopen, Hp, republish_confirmed by done. unfold setSuccess, erase_failures, set_failures, set_model,
    set_last_error. cbn [m_model components abandoned failed_publications publication_diagnostics roots_ready
    revision model_closed shutdown_once m_native m_rtt m_states last_error].
  rewrite !delete_id by done. rewrite <-He. by destruct w as [[] ? ? ?].
Qed.

(** A component without a root service: the discovery has a diagnostic for it, but
    the snapshot follows the null pointer first. *)
Lemma null_root_dereferenced registry call w :
  type_registry = Some registry → model_closed (m_model w) = false →
  components (m_model w) !! call_name call = None → call_isRunning call = true →
  (0 < operation_timeout)%Z → call_provides call = None →
  fatal_diagnostics (discoverComponent (call_discovered call) (call_name call) (call_provides call)) ≠ [] ∧
  publish call w = None.
Proof.
  intros -> Hopen Hnone Hrunning Htimeout Hroot. rewrite Hroot. split; [done|].
  unfold publishComponentInternal. rewrite Hopen, Hnone, Hrunning, Hroot. cbn [negb].
  by destruct (Z.leb_spec operation_timeout 0); [lia|].
Qed.

(** ** Properties *)

(** C1: a publication implements the abstract machine: it refuses and leaves at
    most the shared roots behind, fails and remembers what it could not take back,
    confirms an earlier publication of the same component in the same mode, or adds
    the component with a new node for each of its resources and for the mandatory
    operations. *)
Theorem publish_refines call w w' result (Hinspect : inspectable (NS := NS))
    (Hpublish : publish call w = Some (w', result)) :
  abs_publish (call_name call) (call_component call) (call_mode call) (call_namespaceIndex call)
    (abstraction w) (res_ok result) (abstraction w').
Proof. apply refines_effect; [done|]. by apply publish_effects. Qed.

(** C4: in every model that can be reached by publications, callbacks and
    shutdowns, a published component has its own active state and a complete tree
    of nodes, all of them in the address space, every other state is detached from its component, no failure is on
    record for a published component, the revision counts the publications modulo
    [2^64], and nothing is published after the shutdown. *)
Theorem model_invariant w (Hreach : model_reachable w) : model_inv w.
Proof. by apply inv_reachable. Qed.

(** A call reports what happened: success clears the error and the records of
    the component and leaves it published by this instance in this mode; failure
    leaves an error text, the same one in [last_error] and through the pointer, the
    diagnostics that are returned are on record and emitted, and the published
    components and the revision are as before.  Other components' records are
    untouched. *)
Theorem publish_reports call w w' result (Hpublish : publish call w = Some (w', result)) :
  reported call w w' result ∧
  if res_ok result then
    ∃ published, components (m_model w') !! call_name call = Some published ∧
      pub_component published = call_component call ∧ pub_mode published = call_mode call
  else kept w w'.
Proof.
  split; [by apply publish_reported|]. destruct (res_ok result) eqn:Hok.
  - destruct (publish_settled _ _ _ _ Hpublish Hok) as [_ (published & ? & ? & ? & _) _ _ _ _]. eauto.
  - apply publish_effects in Hpublish. rewrite Hok in Hpublish. by inversion Hpublish.
Qed.

(** Publishing is idempotent: the same call after a success succeeds with the
    same result and changes nothing. *)
Theorem republish_idempotent call w w' result
    (Hpublish : publishComponentInternal empty_variant type_getTypeName type_registry operation_timeout
       max_size call w = Some (w', result))
    (Hok : res_ok result = true) :
  publishComponentInternal empty_variant type_getTypeName type_registry operation_timeout max_size call
    w' = Some (w', result).
Proof. by apply settled_again, (publish_settled call w). Qed.

(** C24: after a shutdown no component is published, every component state is
    detached, so that a callback gets no lease, and every publication is refused. *)
Theorem shutdown_releases w (Hreach : model_reachable w) :
  components (m_model (shutdown w)) = ∅ ∧
  (∀ id state, m_states (shutdown w) !! id = Some state →
     component state = None ∧ ComponentLease_acquire true state = (state, null_lease)) ∧
  ∀ call, publish call (shutdown w) =
    Some (setFailure "OPC UA object model is shutting down" call (shutdown w)).
Proof.
  pose proof (inv_shutdown w (inv_reachable w Hreach)) as [_ _ _ Hdet _ _ _ Hshut].
  assert (Honce : shutdown_once (m_model (shutdown w)) = true).
  { unfold shutdown. by destruct (shutdown_once (m_model (beginShutdown w))) eqn:Honce. }
  destruct (Hshut Honce) as (Hnone & _ & Hclosed). split_and!; [done| |].
  - intros id state Hs. destruct (Hdet id state Hs) as [[Hactive Hcomponent]|(name & p & Hp & _)].
    + split; [done|]. unfold ComponentLease_acquire. by rewrite Hactive, orb_true_r.
    + rewrite Hnone in Hp. by apply lookup_empty_Some in Hp.
  - intros call. unfold publishComponentInternal. by rewrite Hclosed.
Qed.
End spec.

(** ** Witnesses

    The sample component of Snapshot.v, published on a server without the shared
    roots. *)
Definition sample_call (mode : PublicationMode) (selectors : list string) :
    publish_call (Port := nat) (TypeInfo := string) (Service := nat) (Property := nat)
      (Attribute := nat) (TaskContext := nat) :=
  {| call_component := 7; call_name := "c"; call_provides := Some 0; call_discovered := sample_view;
     call_view := sample_view; call_mode := mode; call_selectors := selectors; call_error := Some "";
     call_isRunning := true; call_namespaceIndex := Some 1%N; call_invoke := invoke_ran |}.

Definition sample_world : model_world (NS := c_Space) (W := list nat) (NodeId := c_NodeId)
    (TaskContext := nat) :=
  {| m_model := new_model; m_native := c_empty_space; m_rtt := []; m_states := ∅ |}.

Definition sample_publish (mode : PublicationMode) (selectors : list string) :=
  publishComponentInternal sample_value (λ type : string, type) (Some sample_registry) 1000 1000
    (sample_call mode selectors).

(** The outcome of the first call, which publishes the properties of a service. *)
Definition sample_outcome := sample_publish mode_selected ["services/*/properties/**"] sample_world.

Definition outcome_summary
    (outcome : option (model_world (NS := c_Space) (W := list nat) (NodeId := c_NodeId)
                         (TaskContext := nat) * publish_result)) : option (bool * nat * N * nat * string) :=
  (λ outcome, (res_ok outcome.2, componentCount (m_model outcome.1), currentRevision (m_model outcome.1),
               size (sp_nodes (m_native outcome.1)), lastError (m_model outcome.1))) <$> outcome.

Example sample_published : outcome_summary sample_outcome = Some (true, 1, 1%N, 44, "").
Proof. vm_compute. reflexivity. Qed.

Example sample_other_mode :
  outcome_summary (outcome ← sample_outcome; sample_publish mode_full [] outcome.1) =
  Some (false, 1, 1%N, 44, "RTT component publication conflict for 'c': publication mode differs " +:+
                           "from the first successful publication").
Proof. vm_compute. reflexivity. Qed.

Example sample_after_shutdown :
  outcome_summary (outcome ← sample_outcome; sample_publish mode_full [] (shutdown outcome.1)) =
  Some (false, 0, 1%N, 44, "OPC UA object model is shutting down").
Proof. vm_compute. reflexivity. Qed.

Lemma publish_refines_witness :
  match sample_outcome with
  | Some (w', result) =>
      res_ok result = true ∧
      abs_publish "c" 7 mode_selected (Some 1%N) (abstraction sample_world) (res_ok result)
        (abstraction w')
  | None => False
  end.
Proof.
  pose proof sample_published as Hsummary. destruct sample_outcome as [[w' result]|] eqn:Ho; [|discriminate].
  split; [unfold outcome_summary in Hsummary; simpl in Hsummary; congruence|].
  exact (publish_refines sample_value (λ type : string, type) (Some sample_registry) 1000 1000
    (sample_call mode_selected ["services/*/properties/**"]) sample_world w' result sample_inspectable Ho).
Defined.

Lemma sample_reachable w' result :
  sample_outcome = Some (w', result) →
  model_reachable (Service := nat) (Property := nat) (Attribute := nat) (LocalOperation := nat)
    sample_value (λ type : string, type) (Some sample_registry) 1000 1000 w'.
Proof. intros Ho. exists c_empty_space, []. by eapply rtc_once, step_publish. Qed.

Lemma model_invariant_witness :
  match sample_outcome with
  | Some (w', result) =>
      model_inv (Service := nat) (Property := nat) (Attribute := nat) (LocalOperation := nat)
        sample_value (Some sample_registry) w'
  | None => False
  end.
Proof.
  pose proof sample_published as Hsummary. destruct sample_outcome as [[w' result]|] eqn:Ho; [|discriminate].
  exact (model_invariant sample_value (λ type : string, type) (Some sample_registry) 1000 1000 w'
    (sample_reachable w' result Ho)).
Defined.

Lemma publish_reports_witness :
  match sample_outcome with
  | Some (w, _) =>
      match sample_publish mode_full [] w with
      | Some (w', result) =>
          reported (sample_call mode_full []) w w' result ∧
          if res_ok result then
            ∃ published, components (m_model w') !! "c" = Some published ∧
              pub_component published = 7 ∧ pub_mode published = mode_full
          else kept w w'
      | None => False
      end
  | None => False
  end.
Proof.
  pose proof sample_other_mode as Hsummary. destruct sample_outcome as [[w result]|]; [|discriminate].
  cbn [mbind option_bind fst] in Hsummary.
  destruct (sample_publish mode_full [] w) as [[w' result']|] eqn:Ho; [|discriminate].
  exact (publish_reports sample_value (λ type : string, type) (Some sample_registry) 1000 1000
    (sample_call mode_full []) w w' result' Ho).
Defined.

Lemma republish_idempotent_witness :
  match sample_outcome with
  | Some (w', result) =>
      sample_publish mode_selected ["services/*/properties/**"] w' = Some (w', result)
  | None => False
  end.
Proof.
  pose proof sample_published as Hsummary. destruct sample_outcome as [[w' result]|] eqn:Ho; [|discriminate].
  refine (republish_idempotent sample_value (λ type : string, type) (Some sample_registry) 1000 1000
    (sample_call mode_selected ["services/*/properties/**"]) sample_world w' result Ho _).
  unfold outcome_summary in Hsummary. simpl in Hsummary. congruence.
Defined.

Lemma shutdown_releases_witness :
  match sample_outcome with
  | Some (w', result) =>
      components (m_model (shutdown w')) = ∅ ∧
      (∀ id state, m_states (shutdown w') !! id = Some state →
         component state = None ∧ ComponentLease_acquire true state = (state, null_lease)) ∧
      sample_publish mode_full [] (shutdown w') =
        Some (setFailure "OPC UA object model is shutting down" (sample_call mode_full []) (shutdown w'))
  | None => False
  end.
Proof.
  pose proof sample_published as Hsummary. destruct sample_outcome as [[w' result]|] eqn:Ho; [|discriminate].
  destruct (shutdown_releases sample_value (λ type : string, type) (Some sample_registry) 1000 1000 w'
    (sample_reachable w' result Ho)) as (Hnone & Hstates & Hrefused).
  exact (conj Hnone (conj Hstates (Hrefused (sample_call mode_full [])))).
Defined.
