(* ===== verification/Client.v ===== *)
(** The session of a client with one endpoint (src/src/client_session.cpp,
    client_session.hpp): its connection state, the requests for values, ports
    and operations, and what a failed request does to the session.  A call holds
    the session's mutex from its first line to its last, so it is one step. *)

From S2P Require Import Prelude NodeId Native Concrete DataTypeRegistry TypeProtocol EndpointTypeRegistry.

Inductive ProxyConnectionState := disconnected | connecting | connected | stale.

#[global] Instance ProxyConnectionState_eq_dec : EqDecision ProxyConnectionState.
Proof. solve_decision. Defined.

(** ** The native client *)

(** The [UA_STATUSCODE_...] constants the client compares. *)
Inductive UaStatus :=
  | BADNODEIDINVALID | BADNODEIDUNKNOWN | BADNOTFOUND | BADMETHODINVALID
  | BADSESSIONIDINVALID | BADSESSIONCLOSED | BADSESSIONNOTACTIVATED
  | BADSECURECHANNELIDINVALID | BADSECURECHANNELCLOSED | BADSECURECHANNELTOKENUNKNOWN
  | BADCONNECTIONREJECTED | BADCONNECTIONCLOSED | BADSERVERNOTCONNECTED | BADNOTCONNECTED
  | BADCOMMUNICATIONERROR | BADTIMEOUT | BADTYPEMISMATCH | BADINVALIDARGUMENT
  | BADWAITINGFORINITIALDATA.

#[global] Instance UaStatus_eq_dec : EqDecision UaStatus.
Proof. solve_decision. Defined.

Class StatusConstants (StatusCode : Type) := {
  StatusCode_eq_dec :: EqDecision StatusCode;
  status_constant : UaStatus → StatusCode;
}.

Class StatusConstantLaws (StatusCode : Type) `{StatusCodes StatusCode} `{!StatusConstants StatusCode} := {
  status_constant_inj c d : status_constant c = status_constant d → c = d;
  status_constant_bad c : status_isGood (status_constant c) = false;
}.

(** [opcua::Client] with the services the session calls; [CN] is the network
    with everything behind it.  A [Result] is [StatusCode + _]; a service may
    also throw. *)
Class ClientServices (CN Client NodeId Variant DataType StatusCode : Type) := {
  client_new : N → list DataType → IO CN Client; (* timeout, custom data types *)
  client_delete : Client → CN → CN;              (* the destructor *)
  client_connect : Client → string → IO CN unit;
  client_disconnect : Client → IO CN unit;
  client_namespaceArray : Client → IO CN (list string);
  client_isConnected : Client → CN → bool;
  cs_readValue : Client → NodeId → IO CN (StatusCode + Variant);
  cs_writeValue : Client → NodeId → Variant → IO CN StatusCode;
  cs_call : Client → NodeId → NodeId → list Variant → IO CN (StatusCode * list Variant);
}.

(** ** Results *)

Record RemoteCallResult (Variant : Type) := {
  rcr_success : bool;
  rcr_outputs : list Variant;
  rcr_error : string;
}.
Arguments rcr_success {_} _.
Arguments rcr_outputs {_} _.
Arguments rcr_error {_} _.

Inductive RemotePortReadStatus := read_value | read_waiting | read_failed.

#[global] Instance RemotePortReadStatus_eq_dec : EqDecision RemotePortReadStatus.
Proof. solve_decision. Defined.

(** [rpr_value] is [None] for the empty variant. *)
Record RemotePortReadResult (Variant : Type) := {
  rpr_status : RemotePortReadStatus;
  rpr_value : option Variant;
  rpr_error : string;
}.
Arguments rpr_status {_} _.
Arguments rpr_value {_} _.
Arguments rpr_error {_} _.

(** [static_cast<std::uint32_t>(request_timeout_.count())]. *)
Definition timeout_count (milliseconds : Z) : N := Z.to_N (milliseconds mod 2 ^ 32).

(** ** State *)

Section session.
Context {W DS Port Variant NodeId UA_DataType DataType TypeInfo R CN Client StatusCode : Type}.
Context `{EqDecision TypeInfo} `{!Countable TypeInfo}.
Context `{NodeIds NodeId} `{DataTypes NodeId UA_DataType DataType}.
Context `{StatusCodes StatusCode} `{!StatusConstants StatusCode}.
Context `{!ClientServices CN Client NodeId Variant DataType StatusCode}.
Notation TypeCodec := (TypeCodec W DS Port Variant NodeId UA_DataType).
Notation TypeProtocol := (TypeProtocol W DS Port Variant NodeId UA_DataType).
Notation RegistryState := (RegistryState UA_DataType DataType).
Notation EndpointTypeRegistry := (EndpointTypeRegistry UA_DataType DataType TypeInfo TypeCodec).
Context `{TypeInfos TypeInfo R TypeProtocol}.

Record ClientSession := {
  endpoint_url_ : string;
  request_timeout_ : Z;
  type_registry_ : option EndpointTypeRegistry;
  client_ : option Client;
  namespace_index_ : N;
  state_ : ProxyConnectionState;
  interface_access_enabled_ : bool;
  last_error_ : string;
}.

(** The session, the network and the library's data type registry. *)
Record world := {
  w_session : ClientSession;
  w_net : CN;
  w_types : RegistryState;
}.

Definition new_session (endpoint_url : string) (request_timeout : Z) : ClientSession :=
  {| endpoint_url_ := endpoint_url; request_timeout_ := request_timeout; type_registry_ := None;
     client_ := None; namespace_index_ := 0; state_ := disconnected;
     interface_access_enabled_ := false; last_error_ := "" |}.

(** Assignments to the members. *)
Definition with_type_registry registry (s : ClientSession) : ClientSession :=
  {| endpoint_url_ := endpoint_url_ s; request_timeout_ := request_timeout_ s;
     type_registry_ := registry; client_ := client_ s; namespace_index_ := namespace_index_ s;
     state_ := state_ s; interface_access_enabled_ := interface_access_enabled_ s;
     last_error_ := last_error_ s |}.
Definition with_client client (s : ClientSession) : ClientSession :=
  {| endpoint_url_ := endpoint_url_ s; request_timeout_ := request_timeout_ s;
     type_registry_ := type_registry_ s; client_ := client; namespace_index_ := namespace_index_ s;
     state_ := state_ s; interface_access_enabled_ := interface_access_enabled_ s;
     last_error_ := last_error_ s |}.
Definition with_namespace_index index (s : ClientSession) : ClientSession :=
  {| endpoint_url_ := endpoint_url_ s; request_timeout_ := request_timeout_ s;
     type_registry_ := type_registry_ s; client_ := client_ s; namespace_index_ := index;
     state_ := state_ s; interface_access_enabled_ := interface_access_enabled_ s;
     last_error_ := last_error_ s |}.
Definition with_connection_state state (s : ClientSession) : ClientSession :=
  {| endpoint_url_ := endpoint_url_ s; request_timeout_ := request_timeout_ s;
     type_registry_ := type_registry_ s; client_ := client_ s; namespace_index_ := namespace_index_ s;
     state_ := state; interface_access_enabled_ := interface_access_enabled_ s;
     last_error_ := last_error_ s |}.
Definition with_interface_access enabled (s : ClientSession) : ClientSession :=
  {| endpoint_url_ := endpoint_url_ s; request_timeout_ := request_timeout_ s;
     type_registry_ := type_registry_ s; client_ := client_ s; namespace_index_ := namespace_index_ s;
     state_ := state_ s; interface_access_enabled_ := enabled; last_error_ := last_error_ s |}.
Definition with_last_error error (s : ClientSession) : ClientSession :=
  {| endpoint_url_ := endpoint_url_ s; request_timeout_ := request_timeout_ s;
     type_registry_ := type_registry_ s; client_ := client_ s; namespace_index_ := namespace_index_ s;
     state_ := state_ s; interface_access_enabled_ := interface_access_enabled_ s;
     last_error_ := error |}.

Definition update (f : ClientSession → ClientSession) : IO world unit := io_modify (λ w,
  {| w_session := f (w_session w); w_net := w_net w; w_types := w_types w |}).

Definition get {A} (f : ClientSession → A) : IO world A := io_gets (λ w, f (w_session w)).

Definition on_net {A} (f : IO CN A) : IO world A := λ w,
  let '(net, result) := f (w_net w) in
  ({| w_session := w_session w; w_net := net; w_types := w_types w |}, result).

(** ** Helpers *)

Definition statusMessage (operation : string) (status : StatusCode) : string :=
  operation +:+ ": " +:+ status_name status.

Definition invalidatesInterface (status : StatusCode) : bool :=
  existsb (λ constant, bool_decide (status = status_constant constant))
    [BADNODEIDINVALID; BADNODEIDUNKNOWN; BADNOTFOUND; BADMETHODINVALID; BADSESSIONIDINVALID;
     BADSESSIONCLOSED; BADSESSIONNOTACTIVATED; BADSECURECHANNELIDINVALID; BADSECURECHANNELCLOSED;
     BADSECURECHANNELTOKENUNKNOWN; BADCONNECTIONREJECTED; BADCONNECTIONCLOSED;
     BADSERVERNOTCONNECTED; BADNOTCONNECTED; BADCOMMUNICATIONERROR; BADTIMEOUT; BADTYPEMISMATCH;
     BADINVALIDARGUMENT].

Definition invalidateInterfaceLocked : IO world unit :=
  update (with_interface_access false) ;; update (with_connection_state stale).

(** [!client_->isConnected()]. *)
Definition lost (client : Client) : IO world bool :=
  io_gets (λ w, negb (client_isConnected client (w_net w))).

(** ** Construction and connection *)

(** [~ClientSession]. *)
Definition destroy : IO world unit :=
  client ← get client_;
  (match client with
   | Some client => catch_all (on_net (client_disconnect client)) (λ _, mret tt)
   | None => mret tt
   end) ;;
  update (with_connection_state disconnected).

(** [client_.reset()]. *)
Definition reset_client : IO world unit :=
  client ← get client_;
  update (with_client None) ;;
  match client with
  | Some client => on_net (io_modify (client_delete client))
  | None => mret tt
  end.

(** The connection that [connect] finds. *)
Definition close_connection : IO world unit :=
  client ← get client_;
  match client with
  | Some client => on_net (client_disconnect client) ;; reset_client
  | None => mret tt
  end.

(** The scope of [discovery_client], which is destroyed on every way out. *)
Definition discover_namespaces : IO world (list string) :=
  timeout ← get request_timeout_;
  url ← get endpoint_url_;
  client ← on_net (client_new (timeout_count timeout) []);
  namespaces ← catch_all
    (on_net (client_connect client url) ;;
     namespaces ← on_net (client_namespaceArray client);
     on_net (client_disconnect client) ;;
     mret namespaces)
    (λ e, on_net (io_modify (client_delete client)) ;; io_throw e);
  on_net (io_modify (client_delete client)) ;;
  mret namespaces.

(** [last_error_ = message], [state_.store(disconnected)] and the report. *)
Definition refuse_connection (error : option string) (message : string) : IO world (bool * option string) :=
  update (with_last_error message) ;;
  update (with_connection_state disconnected) ;;
  mret (false, assignError error message).

Definition namespace_table (namespaces : list string) : list (string * N) :=
  imap (λ position uri, (uri, N.of_nat position mod 65536)%N) namespaces.

(** [EndpointTypeRegistry::create(namespace_table, &registry_error)]. *)
Definition bind_registry (r : R) (table : list (string * N)) :
    IO world (option EndpointTypeRegistry * string) := λ w,
  let '(types, outcome, registry_error) := create r (w_types w) table (Some "") in
  ({| w_session := w_session w; w_net := w_net w; w_types := types |},
   match outcome with
   | inl e => inl e
   | inr registry => inr (registry, default "" registry_error)
   end).

(** From the bound registry to the end of the [try] block. *)
Definition open_connection (registry : EndpointTypeRegistry) (error : option string) :
    IO world (bool * option string) :=
  timeout ← get request_timeout_;
  url ← get endpoint_url_;
  update (with_type_registry (Some registry)) ;;
  client ← on_net (client_new (timeout_count timeout) (customDataTypes registry));
  update (with_client (Some client)) ;;
  on_net (client_connect client url) ;;
  update (with_connection_state connected) ;;
  mret (true, error).

Definition try_connect (r : R) (error : option string) : IO world (bool * option string) :=
  close_connection ;;
  update (with_type_registry None) ;;
  namespaces ← discover_namespaces;
  match list_find (λ uri, uri = kNamespaceUri) namespaces with
  | None => refuse_connection error "server does not expose the Orocos RTT OPC UA namespace"
  | Some (index, _) =>
      if (index =? 0) || (65535 <? N.of_nat index)%N
      then refuse_connection error "server returned an invalid Orocos RTT namespace index"
      else
        update (with_namespace_index (N.of_nat index mod 65536)%N) ;;
        '(registry, registry_error) ← bind_registry r (namespace_table namespaces);
        match registry with
        | None =>
            update (with_namespace_index 0%N) ;;
            refuse_connection error ("failed to bind local OPC UA datatypes: " +:+ registry_error)
        | Some registry => open_connection registry error
        end
  end.

Definition connect (r : R) (error : option string) : IO world (bool * option string) :=
  update (with_connection_state connecting) ;;
  update (with_last_error "") ;;
  catch_std (try_connect r error) (λ what,
    url ← get endpoint_url_;
    update (with_last_error ("failed to connect to '" +:+ url +:+ "': " +:+ what)) ;;
    reset_client ;;
    update (with_type_registry None) ;;
    update (with_namespace_index 0%N) ;;
    update (with_connection_state disconnected) ;;
    error_text ← get last_error_;
    mret (false, assignError error error_text)).

(** ** Requests *)

(** The guards of a request: the message of the first that fails. *)
Definition refused (require_interface_access : bool) (stale_message : string) (s : ClientSession) :
    option string :=
  if require_interface_access && negb (interface_access_enabled_ s) then Some stale_message
  else match client_ s with
       | Some _ => if bool_decide (state_ s = connected) then None
                   else Some "OPC UA client is not connected"
       | None => Some "OPC UA client is not connected"
       end.

(** A failed status: [if (cond || !client_->isConnected()) invalidate]. *)
Definition invalidate_if (client : Client) (invalidating : bool) : IO world unit :=
  disconnected ← lost client;
  if invalidating || disconnected then invalidateInterfaceLocked else mret tt.

(** [value] is the destination: [None] the null pointer. *)
Definition readValue (node_id : NodeId) (value : option (option Variant)) :
    IO world (bool * option (option Variant)) :=
  match value with
  | None => update (with_last_error "remote RTT value destination must not be null") ;; mret (false, None)
  | Some _ =>
      guard ← get (refused true
        "remote RTT interface is stale; synchronize it before reading values");
      client ← get client_;
      match guard, client with
      | None, Some client =>
          catch_std
            (result ← on_net (cs_readValue client node_id);
             match result with
             | inl status =>
                 update (with_last_error (statusMessage "failed to read remote RTT value" status)) ;;
                 invalidate_if client (invalidatesInterface status) ;;
                 mret (false, value)
             | inr read => update (with_last_error "") ;; mret (true, Some (Some read))
             end)
            (λ what,
             update (with_last_error ("failed to read remote RTT value: " +:+ what)) ;;
             invalidateInterfaceLocked ;;
             mret (false, value))
      | message, _ => update (with_last_error (default "" message)) ;; mret (false, value)
      end
  end.

Definition writeValue (node_id : NodeId) (value : Variant) : IO world bool :=
  guard ← get (refused true
    "remote RTT interface is stale; synchronize it before writing values");
  client ← get client_;
  match guard, client with
  | None, Some client =>
      catch_std
        (status ← on_net (cs_writeValue client node_id value);
         if negb (status_isGood status) then
           update (with_last_error (statusMessage "failed to write remote RTT value" status)) ;;
           invalidate_if client (invalidatesInterface status) ;;
           mret false
         else update (with_last_error "") ;; mret true)
        (λ what,
         update (with_last_error ("failed to write remote RTT value: " +:+ what)) ;;
         invalidateInterfaceLocked ;;
         mret false)
  | message, _ => update (with_last_error (default "" message)) ;; mret false
  end.

(** A port keeps the interface when its component is not active. *)
Definition invalidatesPort (status : StatusCode) : bool :=
  negb (bool_decide (status = status_constant BADNOTCONNECTED)) && invalidatesInterface status.

Definition read_failure (message : string) : RemotePortReadResult Variant :=
  {| rpr_status := read_failed; rpr_value := None; rpr_error := message |}.

Definition readPortValue (node_id : NodeId) : IO world (RemotePortReadResult Variant) :=
  guard ← get (refused true
    "remote RTT interface is stale; synchronize it before reading ports");
  client ← get client_;
  match guard, client with
  | None, Some client =>
      catch_std
        (result ← on_net (cs_readValue client node_id);
         match result with
         | inl status =>
             if bool_decide (status = status_constant BADWAITINGFORINITIALDATA) then
               update (with_last_error "") ;;
               mret {| rpr_status := read_waiting; rpr_value := None; rpr_error := "" |}
             else
               let message := statusMessage "failed to read remote RTT output port" status in
               update (with_last_error message) ;;
               invalidate_if client (invalidatesPort status) ;;
               mret (read_failure message)
         | inr read =>
             update (with_last_error "") ;;
             mret {| rpr_status := read_value; rpr_value := Some read; rpr_error := "" |}
         end)
        (λ what,
         let message := "failed to read remote RTT output port: " +:+ what in
         update (with_last_error message) ;;
         invalidateInterfaceLocked ;;
         mret (read_failure message))
  | message, _ =>
      update (with_last_error (default "" message)) ;; mret (read_failure (default "" message))
  end.

Definition writePortValue (node_id : NodeId) (value : Variant) : IO world bool :=
  guard ← get (refused true
    "remote RTT interface is stale; synchronize it before writing ports");
  client ← get client_;
  match guard, client with
  | None, Some client =>
      catch_std
        (status ← on_net (cs_writeValue client node_id value);
         if negb (status_isGood status) then
           update (with_last_error (statusMessage "failed to write remote RTT input port" status)) ;;
           invalidate_if client (invalidatesPort status) ;;
           mret false
         else update (with_last_error "") ;; mret true)
        (λ what,
         update (with_last_error ("failed to write remote RTT input port: " +:+ what)) ;;
         invalidateInterfaceLocked ;;
         mret false)
  | message, _ => update (with_last_error (default "" message)) ;; mret false
  end.

Definition call_failure (message : string) : RemoteCallResult Variant :=
  {| rcr_success := false; rcr_outputs := []; rcr_error := message |}.

Definition callLocked (object_id method_id : NodeId) (inputs : list Variant)
    (require_interface_access : bool) : IO world (RemoteCallResult Variant) :=
  guard ← get (refused require_interface_access
    "remote RTT interface is stale; synchronize it before calling operations");
  client ← get client_;
  match guard, client with
  | None, Some client =>
      catch_std
        ('(status, outputs) ← on_net (cs_call client object_id method_id inputs);
         if negb (status_isGood status) then
           let message := statusMessage "remote RTT operation failed" status in
           update (with_last_error message) ;;
           invalidate_if client (invalidatesInterface status) ;;
           mret (call_failure message)
         else
           update (with_last_error "") ;;
           mret {| rcr_success := true; rcr_outputs := outputs; rcr_error := "" |})
        (λ what,
         let message := "remote RTT operation call failed: " +:+ what in
         update (with_last_error message) ;;
         invalidateInterfaceLocked ;;
         mret (call_failure message))
  | message, _ =>
      update (with_last_error (default "" message)) ;; mret (call_failure (default "" message))
  end.

Definition call (object_id method_id : NodeId) (inputs : list Variant) :
    IO world (RemoteCallResult Variant) := callLocked object_id method_id inputs true.

Definition callOperation (component_name : string) (service_path : RemoteServicePath)
    (operation_name : string) (inputs : list Variant) : IO world (RemoteCallResult Variant) :=
  index ← get namespace_index_;
  callLocked (nodeid_string index (modelPath component_name service_path ["operations"]))
    (nodeid_string index (modelPath component_name service_path ["operations"; operation_name]))
    inputs false.

(** [setInterfaceAccessEnabled]: access is withdrawn before the mutex is taken,
    possibly while another call runs. *)
Definition revoke_access : IO world unit := update (with_interface_access false).

Definition setInterfaceAccessEnabled (enabled : bool) : IO world unit :=
  (if enabled then mret tt else revoke_access) ;;
  update (with_interface_access enabled) ;;
  if enabled then update (with_last_error "") else mret tt.

(** ** Accessors *)

Definition session_state (s : ClientSession) : ProxyConnectionState := state_ s.
Definition session_endpointUrl (s : ClientSession) : string := endpoint_url_ s.
Definition session_typeRegistry (s : ClientSession) : option EndpointTypeRegistry := type_registry_ s.
Definition session_lastError (s : ClientSession) : string := last_error_ s.

End session.

(** ** Specification *)

(** Runs a computation of the code on a world that is a constructor. *)
Ltac io_cbn := cbn -[refused invalidatesInterface invalidatesPort modelPath String.append].

Ltac run_io :=
  unfold update, get, on_net, lost, io_modify, io_gets, io_throw, catch_std, catch_all, mbind, mret,
    IO_bind, IO_ret; io_cbn.

(** Failure texts are not empty: each starts or ends in a literal. *)
Ltac nonempty_text :=
  repeat match goal with
  | |- (_ +:+ _) ≠ "" => let Hl := fresh in let Hr := fresh in intros [Hl Hr]%str_app_eq_nil; done
  | |- statusMessage _ _ ≠ "" => unfold statusMessage
  end; try done.

(** Sequencing, one bind at a time. *)
Lemma io_bind_inv {World A B} (m : IO World A) (f : A → IO World B) w w' o :
  (m ≫= f) w = (w', o) →
  (∃ w1 x, m w = (w1, inr x) ∧ f x w1 = (w', o)) ∨ (∃ e, m w = (w', inl e) ∧ o = inl e).
Proof.
  unfold mbind, IO_bind. destruct (m w) as [w1 [e|x]]; intros Hm; simplify_eq; eauto.
Qed.

Lemma catch_std_inv {World A} (m : IO World A) h w w' o :
  catch_std m h w = (w', o) →
  (∃ w1 what, m w = (w1, inl (std_exception what)) ∧ h what w1 = (w', o)) ∨
  m w = (w', o) ∧ ∀ what, o ≠ inl (std_exception what).
Proof.
  unfold catch_std. destruct (m w) as [w1 [[what|]|x]]; intros Hm; simplify_eq; naive_solver.
Qed.

Section session_facts.
Context {W DS Port Variant NodeId UA_DataType DataType TypeInfo R CN Client StatusCode : Type}.
Context `{EqDecision TypeInfo} `{!Countable TypeInfo}.
Context `{NodeIds NodeId} `{DataTypes NodeId UA_DataType DataType}.
Context `{StatusCodes StatusCode} `{!StatusConstants StatusCode}.
Context `{!ClientServices CN Client NodeId Variant DataType StatusCode}.
Notation TypeCodec := (TypeCodec W DS Port Variant NodeId UA_DataType).
Notation TypeProtocol := (TypeProtocol W DS Port Variant NodeId UA_DataType).
Notation RegistryState := (RegistryState UA_DataType DataType).
Notation EndpointTypeRegistry := (EndpointTypeRegistry UA_DataType DataType TypeInfo TypeCodec).
Context `{TypeInfos TypeInfo R TypeProtocol}.
Notation ClientSession :=
  (@ClientSession W DS Port Variant NodeId UA_DataType DataType TypeInfo Client _ _).
Notation world := (@world W DS Port Variant NodeId UA_DataType DataType TypeInfo CN Client _ _).
Implicit Types (s : ClientSession) (w : world).

(** The requests of a session. *)
Inductive Request :=
  | request_read (node_id : NodeId)
  | request_write (node_id : NodeId) (value : Variant)
  | request_readPort (node_id : NodeId)
  | request_writePort (node_id : NodeId) (value : Variant)
  | request_call (object_id method_id : NodeId) (inputs : list Variant)
  | request_operation (component_name : string) (service_path : RemoteServicePath)
      (operation_name : string) (inputs : list Variant).

(** What the caller learns: values, that a port has none yet, or the text of a
    failure. *)
Inductive Reply :=
  | reply_values (values : list Variant)
  | reply_waiting
  | reply_failed (message : string).

(** The reply of a call of the code; where it returns [false] only, the text is
    the one [lastError()] gives. *)
Definition reply_of_flag (ok : bool) : IO world Reply :=
  message ← get last_error_;
  mret (if ok : bool then reply_values [] else reply_failed message).

Definition reply_of_call (result : RemoteCallResult Variant) : Reply :=
  if rcr_success result then reply_values (rcr_outputs result) else reply_failed (rcr_error result).

Definition reply_of_port (result : RemotePortReadResult Variant) : Reply :=
  match rpr_status result, rpr_value result with
  | read_value, Some value => reply_values [value]
  | read_value, None => reply_values []
  | read_waiting, _ => reply_waiting
  | read_failed, _ => reply_failed (rpr_error result)
  end.

Definition perform (request : Request) : IO world Reply :=
  match request with
  | request_read node_id =>
      '(ok, read) ← readValue node_id (Some None);
      match ok : bool, read with
      | true, Some (Some value) => mret (reply_values [value])
      | _, _ => reply_of_flag false
      end
  | request_write node_id value => ok ← writeValue node_id value; reply_of_flag ok
  | request_readPort node_id => result ← readPortValue node_id; mret (reply_of_port result)
  | request_writePort node_id value => ok ← writePortValue node_id value; reply_of_flag ok
  | request_call object_id method_id inputs =>
      result ← call object_id method_id inputs; mret (reply_of_call result)
  | request_operation component_name service_path operation_name inputs =>
      result ← callOperation component_name service_path operation_name inputs;
      mret (reply_of_call result)
  end.

(** Whether the request needs a synchronized interface. *)
Definition needs_access (request : Request) : bool :=
  match request with request_operation _ _ _ _ => false | _ => true end.

Definition is_port_request (request : Request) : bool :=
  match request with request_readPort _ | request_writePort _ _ => true | _ => false end.

(** What the messages call the request. *)
Definition purpose (request : Request) : string :=
  match request with
  | request_read _ => "reading values"
  | request_write _ _ => "writing values"
  | request_readPort _ => "reading ports"
  | request_writePort _ _ => "writing ports"
  | request_call _ _ _ | request_operation _ _ _ _ => "calling operations"
  end.

Definition status_label (request : Request) : string :=
  match request with
  | request_read _ => "failed to read remote RTT value"
  | request_write _ _ => "failed to write remote RTT value"
  | request_readPort _ => "failed to read remote RTT output port"
  | request_writePort _ _ => "failed to write remote RTT input port"
  | request_call _ _ _ | request_operation _ _ _ _ => "remote RTT operation failed"
  end.

Definition exception_label (request : Request) : string :=
  match request with
  | request_call _ _ _ | request_operation _ _ _ _ => "remote RTT operation call failed"
  | _ => status_label request
  end.

(** The one service call a request makes; a status is a failure. *)
Definition service (request : Request) (client : Client) (index : N) : IO CN (StatusCode + Reply) :=
  let written (status : StatusCode) : StatusCode + Reply :=
    if status_isGood status then inr (reply_values []) else inl status in
  let called (result : StatusCode * list Variant) : StatusCode + Reply :=
    if status_isGood result.1 then inr (reply_values result.2) else inl result.1 in
  match request with
  | request_read node_id =>
      result ← cs_readValue client node_id;
      mret (match result with inl status => inl status | inr value => inr (reply_values [value]) end)
  | request_write node_id value | request_writePort node_id value =>
      status ← cs_writeValue client node_id value; mret (written status)
  | request_readPort node_id =>
      result ← cs_readValue client node_id;
      mret (match result with
            | inl status =>
                if bool_decide (status = status_constant BADWAITINGFORINITIALDATA)
                then inr reply_waiting else inl status
            | inr value => inr (reply_values [value])
            end)
  | request_call object_id method_id inputs =>
      result ← cs_call client object_id method_id inputs; mret (called result)
  | request_operation component_name service_path operation_name inputs =>
      result ← cs_call client
        (nodeid_string index (modelPath component_name service_path ["operations"]))
        (nodeid_string index (modelPath component_name service_path ["operations"; operation_name]))
        inputs;
      mret (called result)
  end.

(** The interface after a failure that invalidates it. *)
Definition invalidated (invalid : bool) (s : ClientSession) : ClientSession :=
  if invalid then with_connection_state stale (with_interface_access false s) else s.

(** What a request comes to: refused without a word to the network, or one
    service call, after which the session is as before or, when the status says
    so, the connection is lost or the service threw, stale. *)
Definition request_spec (request : Request) (w : world) : world * (exn + Reply) :=
  let s := w_session w in
  let after s net := {| w_session := s; w_net := net; w_types := w_types w |} in
  match refused (needs_access request)
          ("remote RTT interface is stale; synchronize it before " +:+ purpose request) s, client_ s with
  | None, Some client =>
      match service request client (namespace_index_ s) (w_net w) with
      | (net, inr (inr reply)) => (after (with_last_error "" s) net, inr reply)
      | (net, inr (inl status)) =>
          let message := statusMessage (status_label request) status in
          let invalid :=
            (if is_port_request request then invalidatesPort status else invalidatesInterface status) ||
            negb (client_isConnected client net) in
          (after (invalidated invalid (with_last_error message s)) net, inr (reply_failed message))
      | (net, inl (std_exception what)) =>
          let message := exception_label request +:+ ": " +:+ what in
          (after (invalidated true (with_last_error message s)) net, inr (reply_failed message))
      | (net, inl other_exception) => (after s net, inl other_exception)
      end
  | message, _ =>
      let message := default "" message in
      (after (with_last_error message s) (w_net w), inr (reply_failed message))
  end.

(** What a request may change: the session goes stale or stays as it is, but
    for the last error. *)
Record request_frame (s s' : ClientSession) : Prop := {
  rf_url : endpoint_url_ s' = endpoint_url_ s;
  rf_timeout : request_timeout_ s' = request_timeout_ s;
  rf_registry : type_registry_ s' = type_registry_ s;
  rf_client : client_ s' = client_ s;
  rf_index : namespace_index_ s' = namespace_index_ s;
  rf_state : state_ s' = state_ s ∨ state_ s = connected ∧ state_ s' = stale;
  rf_access : interface_access_enabled_ s' = interface_access_enabled_ s ∨
              interface_access_enabled_ s' = false;
}.

(** A session that is connected, or was until it went stale, has a client and a
    registry and knows the library's namespace by a 16-bit index other than
    that of namespace zero; a disconnected one has neither. *)
Definition session_ok (s : ClientSession) : Prop :=
  match state_ s with
  | connected | stale => ∃ client registry,
      client_ s = Some client ∧ type_registry_ s = Some registry ∧
      (0 < namespace_index_ s < 65536)%N ∧
      endpoint_namespaceIndex registry kNamespaceUri = Some (namespace_index_ s)
  | disconnected => client_ s = None ∧ type_registry_ s = None
  | connecting => True
  end.

(** The server's namespaces as the discovery client read them. *)
Definition read_namespaces (namespaces : list string) : Prop :=
  ∃ client net net', client_namespaceArray client net = (net', inr namespaces).

(** What [connect] leaves when it returns [true]. *)
Record connection (s : ClientSession) (namespaces : list string) : Prop := {
  cn_state : state_ s = connected;
  cn_error : last_error_ s = "";
  cn_read : read_namespaces namespaces;
  cn_index : ∃ index, list_find (λ uri, uri = kNamespaceUri) namespaces = Some (index, kNamespaceUri) ∧
    namespace_index_ s = N.of_nat index ∧ (0 < N.of_nat index < 65536)%N;
  cn_bound : ∃ registry, type_registry_ s = Some registry ∧ ∀ position uri,
    namespaces !! position = Some uri →
    endpoint_namespaceIndex registry uri = Some (N.of_nat position mod 65536)%N;
  cn_client : is_Some (client_ s);
}.

(** ** Lemmas: requests *)

#[global] Instance request_frame_refl : Reflexive request_frame.
Proof. intros s. split; auto. Qed.

Lemma with_last_error_idemp a b s : with_last_error a (with_last_error b s) = with_last_error a s.
Proof. done. Qed.

Lemma refused_None require message s :
  refused require message s = None →
  (∃ client, client_ s = Some client) ∧ state_ s = connected ∧
  (require = true → interface_access_enabled_ s = true).
Proof.
  unfold refused. intros Hr. destruct require, (interface_access_enabled_ s); simpl in *; try done;
    destruct (client_ s); try done; case_bool_decide; naive_solver.
Qed.

(** The six requests are the one of the specification. *)
Lemma perform_spec request w : perform request w = request_spec request w.
Proof.
  destruct w as [s net types]. unfold request_spec.
  destruct request; unfold perform, readValue, writeValue, readPortValue, writePortValue, call, callOperation,
    callLocked, reply_of_flag, invalidate_if, invalidateInterfaceLocked, service; run_io;
    destruct (refused _ _ s) as [message|] eqn:Hrefused, (client_ s) as [client|] eqn:Hclient; try done;
    try (apply refused_None in Hrefused as [[? ?] _]; congruence); io_cbn.
  all: match goal with
       | |- context [cs_readValue ?c ?id ?n] => destruct (cs_readValue c id n) as [net' [[what|]|[status|value]]]
       | |- context [cs_writeValue ?c ?id ?v ?n] => destruct (cs_writeValue c id v n) as [net' [[what|]|status]]
       | |- context [cs_call ?c ?o ?m ?i ?n] => destruct (cs_call c o m i n) as [net' [[what|]|[status outputs]]]
       end; io_cbn; try reflexivity.
  all: repeat (match goal with
       | |- context [status_isGood ?c] => destruct (status_isGood c)
       | |- context [bool_decide ?P] => destruct (bool_decide P)
       | |- context [invalidatesPort ?c || ?b] => destruct (invalidatesPort c || b)
       | |- context [invalidatesInterface ?c || ?b] => destruct (invalidatesInterface c || b)
       end; io_cbn); reflexivity.
Qed.

(** What the two port requests exchange with the network. *)
Lemma writePortValue_net node_id (value : Variant) w w' o :
  writePortValue node_id value w = (w', o) →
  (w_net w' = w_net w ∧ o = inr false) ∨
  ∃ client result, cs_writeValue client node_id value (w_net w) = (w_net w', result) ∧
    (o = inr true ↔ ∃ status, result = inr status ∧ status_isGood status = true).
Proof.
  destruct w as [s net types]. unfold writePortValue, invalidate_if, invalidateInterfaceLocked. run_io.
  destruct (refused _ _ s) as [message|] eqn:Hrefused, (client_ s) as [client|] eqn:Hclient; io_cbn;
    try (intros [= <- <-]; by left).
  intros Hrun. right. exists client. revert Hrun. simpl.
  destruct (cs_writeValue client node_id value net) as [net1 [[what|]|status]]; io_cbn.
  - intros [= <- <-]. simpl. exists (inl (std_exception what)). split; [done|]. split; [done|naive_solver].
  - intros [= <- <-]. simpl. exists (inl other_exception). split; [done|]. split; [done|naive_solver].
  - destruct (status_isGood status) eqn:Hgood; io_cbn;
      [|destruct (invalidatesPort status || _); io_cbn]; intros [= <- <-]; simpl; exists (inr status);
      (split; [done|]); split; naive_solver congruence.
Qed.

Lemma readPortValue_net node_id w w' (o : exn + RemotePortReadResult Variant) :
  readPortValue node_id w = (w', o) →
  (w_net w' = w_net w ∧ ∃ message, o = inr (read_failure message)) ∨
  ∃ client result, cs_readValue client node_id (w_net w) = (w_net w', result) ∧
    match result with
    | inr (inr value) => o = inr {| rpr_status := read_value; rpr_value := Some value; rpr_error := "" |}
    | _ => ∀ read, o = inr read → rpr_status read ≠ read_value
    end.
Proof.
  destruct w as [s net types]. unfold readPortValue, invalidate_if, invalidateInterfaceLocked. run_io.
  destruct (refused _ _ s) as [message|] eqn:Hrefused, (client_ s) as [client|] eqn:Hclient; io_cbn;
    try (intros [= <- <-]; left; eauto).
  intros Hrun. right. exists client. revert Hrun. simpl.
  destruct (cs_readValue client node_id net) as [net1 [[what|]|[status|value]]]; io_cbn.
  - intros [= <- <-]. eexists. split; [done|]. simpl. by intros ? [= <-].
  - intros [= <- <-]. eexists. split; [done|]. simpl. by intros ? [=].
  - case_bool_decide; io_cbn; [|destruct (invalidatesPort status || _); io_cbn];
      intros [= <- <-]; (eexists; split; [done|]); simpl; by intros ? [= <-].
  - intros [= <- <-]. eexists. by split.
Qed.

(** ** Lemmas: connecting *)

Lemma discover_namespaces_inv w w' o :
  discover_namespaces w = (w', o) →
  w_session w' = w_session w ∧ ∀ namespaces, o = inr namespaces → read_namespaces namespaces.
Proof.
  destruct w as [s net types]. unfold discover_namespaces. run_io.
  destruct (client_new _ _ net) as [net1 [e|client]]; io_cbn; [intros; by simplify_eq|].
  destruct (client_connect client _ net1) as [net2 [e|[]]]; io_cbn; [intros; by simplify_eq|].
  destruct (client_namespaceArray client net2) as [net3 [e|namespaces]] eqn:Hread; io_cbn;
    [intros; by simplify_eq|].
  destruct (client_disconnect client net3) as [net4 [e|[]]]; io_cbn; [intros; by simplify_eq|].
  intros; simplify_eq. split; [done|]. intros ? [= <-]. by exists client, net2, net3.
Qed.

(** The namespace index of a list of namespaces that was bound as a table. *)
Lemma bound_table (r : R) (types : RegistryState) namespaces types' registry registry_error :
  create r types (namespace_table namespaces) (Some "") = (types', inr (Some registry), registry_error) →
  ∀ position uri, namespaces !! position = Some uri →
  endpoint_namespaceIndex registry uri = Some (N.of_nat position mod 65536)%N.
Proof.
  intros Hcreate position uri Hl. apply create_namespaces in Hcreate as [_ Hbound]. apply Hbound.
  apply list_elem_of_lookup. exists position. unfold namespace_table. by rewrite list_lookup_imap, Hl.
Qed.

(** The outcomes of the [try] block, which starts with an empty error text. *)
Lemma open_connection_inv registry error w w' o :
  open_connection registry error w = (w', o) →
  (o = inr (true, error) ∧ ∃ client, w_session w' = with_connection_state connected
     (with_client (Some client) (with_type_registry (Some registry) (w_session w)))) ∨
  ∃ e, o = inl e ∧ state_ (w_session w') = state_ (w_session w).
Proof.
  destruct w as [s net types]. unfold open_connection. run_io.
  destruct (client_new _ _ net) as [net1 [e|client]]; io_cbn; [intros; simplify_eq; eauto|].
  destruct (client_connect client _ net1) as [net2 [e|[]]]; io_cbn; intros; simplify_eq; eauto.
Qed.

Lemma close_connection_inv w w' o :
  close_connection w = (w', o) →
  (o = inr tt ∧ w_session w' = with_client None (w_session w)) ∨
  ∃ e, o = inl e ∧ state_ (w_session w') = state_ (w_session w).
Proof.
  destruct w as [s net types]. unfold close_connection, reset_client. run_io.
  destruct (client_ s) as [client|] eqn:Hclient; io_cbn.
  - destruct (client_disconnect client net) as [net1 [e|[]]]; io_cbn; [intros; simplify_eq; eauto|].
    rewrite Hclient. io_cbn. intros; simplify_eq. auto.
  - intros; simplify_eq. left. split; [done|]. destruct s; simpl in *; by subst.
Qed.

Lemma try_connect_inv (r : R) error w w' o :
  try_connect r error w = (w', o) → last_error_ (w_session w) = "" →
  (o = inr (true, error) ∧ ∃ namespaces, connection (w_session w') namespaces) ∨
  (∃ message, o = inr (false, assignError error message) ∧ message ≠ "" ∧
     last_error_ (w_session w') = message ∧ state_ (w_session w') = disconnected ∧
     client_ (w_session w') = None ∧ type_registry_ (w_session w') = None) ∨
  ∃ e, o = inl e ∧ state_ (w_session w') = state_ (w_session w).
Proof.
  intros Htry Herror. unfold try_connect in Htry.
  apply io_bind_inv in Htry as [(w1 & [] & Hclose & Htry)|(e & Hclose & ->)];
    apply close_connection_inv in Hclose as [[[=] Hw1]|(e' & [=] & Hw1)]; [|subst; eauto].
  apply io_bind_inv in Htry as [(w2 & [] & [= <-] & Htry)|(e & [=] & _)].
  apply io_bind_inv in Htry as [(w3 & namespaces & Hread & Htry)|(e & Hread & ->)];
    apply discover_namespaces_inv in Hread as [Hw3 Hread]; simpl in Hw3; [specialize (Hread _ eq_refl)|].
  2: { right. right. exists e. split; [done|]. by rewrite Hw3, Hw1. }
  assert (Hs : client_ (w_session w3) = None ∧ type_registry_ (w_session w3) = None ∧
    last_error_ (w_session w3) = "" ∧ state_ (w_session w3) = state_ (w_session w)).
  { rewrite Hw3, Hw1. by simpl. }
  clear Hw1 Hw3. destruct Hs as (Hclient & Hregistry & Herror3 & Hstate3).
  destruct (list_find _ namespaces) as [[index uri]|] eqn:Hfind.
  2: { right. left. eexists. split_and!; [by inversion Htry|done|by inversion Htry..| |]; inversion Htry; done. }
  pose proof Hfind as (_ & Huri & _)%list_find_Some.
  destruct (_ || _) eqn:Hindex.
  { right. left. eexists. split_and!; [by inversion Htry|done|by inversion Htry..| |]; inversion Htry; done. }
  apply orb_false_iff in Hindex as [Hpos%Nat.eqb_neq Hmax%N.ltb_ge].
  apply io_bind_inv in Htry as [(w4 & [] & [= <-] & Htry)|(e & [=] & _)].
  apply io_bind_inv in Htry as [(w5 & [registry registry_error] & Hbind & Htry)|(e & Hbind & ->)];
    unfold bind_registry in Hbind; simpl in Hbind;
    destruct (create r _ _ _) as [[types [e'|found]] text] eqn:Hcreate; simplify_eq/=; [|by eauto].
  destruct registry as [registry|].
  - apply open_connection_inv in Htry as [[-> [client Hw']]|(e & -> & Hstate)]; [|simpl in Hstate; rewrite Hstate3 in Hstate; eauto]. left. split; [done|].
    exists namespaces. rewrite Hw'. split; simpl; try done.
    + exists index. split_and!; [by subst| |lia..]. rewrite N.mod_small; [done|lia].
    + exists registry. split; [done|]. by eapply bound_table.
  - right. left. eexists. split_and!; [by inversion Htry|done|by inversion Htry..| |]; inversion Htry; done.
Qed.
End session_facts.
