(* ===== verification/ClientDiscovery.v ===== *)
(** How a session browses the model of a remote component
    (src/src/client_session.cpp): the discovery of its operations, properties,
    attributes, services and ports with their metadata. *)

From S2P Require Import Prelude NodeId Native Concrete DataTypeRegistry TypeProtocol EndpointTypeRegistry.
From S2P Require Import OperationDispatcher AddressSpace NodeSpecs Client.

(** ** Descriptions *)

Record RemoteOperationDescription (NodeId : Type) := {
  rod_name : string;
  rod_description : string;
  rod_object_id : NodeId;
  rod_method_id : NodeId;
  rod_input_types : list string;
  rod_input_names : list string;
  rod_input_descriptions : list string;
  rod_output_types : list string;
  rod_output_sources : list Z;
}.
Arguments rod_name {_} _.
Arguments rod_description {_} _.
Arguments rod_object_id {_} _.
Arguments rod_method_id {_} _.
Arguments rod_input_types {_} _.
Arguments rod_input_names {_} _.
Arguments rod_input_descriptions {_} _.
Arguments rod_output_types {_} _.
Arguments rod_output_sources {_} _.

Inductive RemoteValueCategory := category_properties | category_attributes.

Record RemoteValueDescription (NodeId : Type) := {
  rvd_name : string;
  rvd_description : string;
  rvd_type_name : string;
  rvd_node_id : NodeId;
  rvd_writable : bool;
}.
Arguments rvd_name {_} _.
Arguments rvd_description {_} _.
Arguments rvd_type_name {_} _.
Arguments rvd_node_id {_} _.
Arguments rvd_writable {_} _.

Record RemoteServiceDescription := {
  rsd_name : string;
  rsd_description : string;
}.

Record RemotePortDescription (NodeId : Type) := {
  rpd_name : string;
  rpd_description : string;
  rpd_type_name : string;
  rpd_service_path : RemoteServicePath;
  rpd_direction : PortDirection;
  rpd_value_id : NodeId;
}.
Arguments rpd_name {_} _.
Arguments rpd_description {_} _.
Arguments rpd_type_name {_} _.
Arguments rpd_service_path {_} _.
Arguments rpd_direction {_} _.
Arguments rpd_value_id {_} _.

#[global] Instance PortDirection_eq_dec : EqDecision PortDirection.
Proof. solve_decision. Defined.

Definition categorySegment (category : RemoteValueCategory) : string :=
  match category with
  | category_properties => "properties"
  | category_attributes => "attributes"
  end.

(** ** The services of discovery *)

(** A forward browse for all references of a type to nodes of a class. *)
Record BrowseDescription (NodeId : Type) := {
  browse_node : NodeId;
  browse_type : ReferenceTypeId;
  browse_subtypes : bool;
  browse_class : NodeClass;
}.
Arguments browse_node {_} _.
Arguments browse_type {_} _.
Arguments browse_subtypes {_} _.
Arguments browse_class {_} _.

(** [browseAll] returns references or a status, or throws: a [BadStatus], which
    carries a code, or another exception. *)
Inductive BrowseOutcome (NodeId StatusCode : Type) :=
  | browse_references (references : list (ReferenceDescription NodeId))
  | browse_status (status : StatusCode)
  | browse_bad_status (status : StatusCode) (what : string)
  | browse_throws (e : exn).
Arguments browse_references {_ _} _.
Arguments browse_status {_ _} _.
Arguments browse_bad_status {_ _} _ _.
Arguments browse_throws {_ _} _.

(** [variant_access_error] is what the exception of a failed [to<T>()] says. *)
Class DiscoveryServices (CN Client NodeId Variant StatusCode : Type) := {
  cs_browseAll : Client → BrowseDescription NodeId → CN → CN * BrowseOutcome NodeId StatusCode;
  cs_readDisplayName : Client → NodeId → IO CN (StatusCode + string);
  cs_readDescription : Client → NodeId → IO CN (StatusCode + string);
  cs_readNodeClass : Client → NodeId → IO CN (StatusCode + NodeClass);
  cs_readDataType : Client → NodeId → IO CN (StatusCode + NodeId);
  cs_readValueRank : Client → NodeId → IO CN (StatusCode + Z);
  cs_readAccessLevel : Client → NodeId → IO CN (StatusCode + N);
  cs_readUserAccessLevel : Client → NodeId → IO CN (StatusCode + N);
  (** [to<std::vector<Argument>>()]: names and descriptions. *)
  variant_to_named_arguments : Variant → string + list (string * string);
  variant_access_error : Variant → string;
}.

(** How a discovery ends before its last line: with an error text, or because
    the folder of the category does not exist. *)
Inductive Early := early_failed (message : string) | early_missing.

(** [level.anyOf(flag)]. *)
Definition anyOf (level flag : N) : bool := negb (N.land level flag =? 0)%N.

Section discovery.
Context {W DS Port Variant NodeId UA_DataType DataType TypeInfo R CN Client StatusCode Wire : Type}.
Context `{EqDecision TypeInfo} `{!Countable TypeInfo}.
Context `{NodeIds NodeId} `{DataTypes NodeId UA_DataType DataType}.
Context `{StatusCodes StatusCode} `{!StatusConstants StatusCode}.
Context `{!Variants Variant NodeId UA_DataType Wire}.
Context `{!ClientServices CN Client NodeId Variant DataType StatusCode}.
Context `{!DiscoveryServices CN Client NodeId Variant StatusCode}.
Notation TypeCodec := (TypeCodec W DS Port Variant NodeId UA_DataType).
Notation EndpointTypeRegistry := (EndpointTypeRegistry UA_DataType DataType TypeInfo TypeCodec).
Notation ClientSession :=
  (@ClientSession W DS Port Variant NodeId UA_DataType DataType TypeInfo Client _ _).
Notation world := (@world W DS Port Variant NodeId UA_DataType DataType TypeInfo CN Client _ _).
Notation ReferenceDescription := (ReferenceDescription NodeId).
Notation RemoteOperationDescription := (RemoteOperationDescription NodeId).
Notation RemoteValueDescription := (RemoteValueDescription NodeId).
Notation RemotePortDescription := (RemotePortDescription NodeId).

(** Code that may leave the discovery early. *)
#[local] Notation Attempt A := (IO world (Early + A)).

Definition attempt_bind {A B} (m : Attempt A) (f : A → Attempt B) : Attempt B :=
  result ← m;
  match result with
  | inl early => mret (inl early)
  | inr x => f x
  end.

Definition leave {A} (early : Early) : Attempt A := mret (inl early).
Definition proceed {A} (x : A) : Attempt A := mret (inr x).

#[local] Notation "'let!' x ':=' m 'in' f" := (attempt_bind m (λ x, f))
  (at level 200, x name, m at level 100, f at level 200).

Definition isMissingCategory (status : StatusCode) : bool :=
  bool_decide (status = status_constant BADNODEIDUNKNOWN).

(** The first service call that fails ends the discovery. *)
Definition required {A} (service : IO CN (StatusCode + A)) (label : string) : Attempt A :=
  result ← on_net service;
  match result with
  | inl status => leave (early_failed (statusMessage label status))
  | inr x => proceed x
  end.

(** ** Metadata *)

(** [T] is [std::string] or [std::int32_t]; a node that does not exist stands
    for the empty array. *)
Definition readOptionalArray (client : Client) (node_id : NodeId) (T : CppType) : Attempt (list (cpp T)) :=
  result ← on_net (cs_readValue client node_id);
  match result with
  | inl status =>
      if bool_decide (status = status_constant BADNODEIDUNKNOWN) then proceed []
      else leave (early_failed (statusMessage "failed to read RTT method metadata" status))
  | inr value =>
      match variant_to_array T value with
      | Some values => proceed values
      | None => leave (early_failed ("invalid RTT method metadata: " +:+ variant_access_error value))
      end
  end.

Definition readStringValue (client : Client) (node_id : NodeId) (label : string) : Attempt string :=
  let! value := required (cs_readValue client node_id) ("failed to read " +:+ label) in
  match variant_to_scalar cpp_string value with
  | Some text => proceed text
  | None => leave (early_failed ("invalid " +:+ label +:+ ": " +:+ variant_access_error value))
  end.

(** The cast of the checked scalar cannot fail in the code; the exception it
    would throw ends the discovery. *)
Definition readPortDirection (client : Client) (node_id : NodeId) (port_name : string) : Attempt PortDirection :=
  let! value := required (cs_readValue client node_id) "failed to read RTT port direction metadata" in
  if negb (variant_isScalar value) || negb (variant_isType value (nodeid_datatype dt_Int32))
  then leave (early_failed ("remote port '" +:+ port_name +:+
         "' has invalid direction metadata: expected scalar Int32"))
  else match variant_to_scalar cpp_int32 value with
       | None => io_throw (std_exception (variant_access_error value))
       | Some code =>
           if (code =? direction_number direction_input)%Z then proceed direction_input
           else if (code =? direction_number direction_output)%Z then proceed direction_output
           else leave (early_failed ("remote port '" +:+ port_name +:+
                  "' has unsupported direction code " +:+ to_string_Z code))
       end.

(** One reference of [readMethodArguments]: the argument list it stands for
    replaces one that is not there yet. *)
Definition read_arguments (client : Client) (reference : ReferenceDescription)
    (found : option (list (string * string))) : Attempt (option (list (string * string))) :=
  match found with
  | Some _ => leave (early_failed ("RTT method exposes duplicate " +:+ rd_browseName reference +:+ " metadata"))
  | None =>
      let! value := required (cs_readValue client (rd_nodeId reference)) "failed to read RTT method arguments" in
      match variant_to_named_arguments value with
      | inl what => leave (early_failed ("invalid RTT method argument metadata: " +:+ what))
      | inr arguments => proceed (Some arguments)
      end
  end.

Fixpoint scan_arguments (client : Client) (references : list ReferenceDescription)
    (inputs outputs : option (list (string * string))) :
    Attempt (option (list (string * string)) * option (list (string * string))) :=
  match references with
  | [] => proceed (inputs, outputs)
  | reference :: references' =>
      if negb (rd_isLocal reference) then scan_arguments client references' inputs outputs
      else if String.eqb (rd_browseName reference) "InputArguments" then
        let! inputs := read_arguments client reference inputs in
        scan_arguments client references' inputs outputs
      else if String.eqb (rd_browseName reference) "OutputArguments" then
        let! outputs := read_arguments client reference outputs in
        scan_arguments client references' inputs outputs
      else scan_arguments client references' inputs outputs
  end.

Definition readMethodArguments (client : Client) (method_id : NodeId) :
    Attempt (list (string * string) * list (string * string)) :=
  outcome ← on_net (λ net, let '(net, outcome) := cs_browseAll client
      {| browse_node := method_id; browse_type := ref_HasProperty; browse_subtypes := true;
         browse_class := class_Variable |} net in (net, inr outcome));
  match outcome with
  | browse_status status =>
      leave (early_failed (statusMessage "failed to browse RTT method arguments" status))
  | browse_bad_status _ what => io_throw (std_exception what)
  | browse_throws e => io_throw e
  | browse_references references =>
      let! found := scan_arguments client references None None in
      proceed (default [] found.1, default [] found.2)
  end.

(** The names and the descriptions of the inputs. *)
Definition readInputDescriptions (client : Client) (method_id : NodeId) : Attempt (list string * list string) :=
  let! arguments := readMethodArguments client method_id in
  proceed (arguments.1.*1, arguments.1.*2).

Definition is_error {A} (result : StatusCode + A) : bool :=
  match result with inl _ => true | inr _ => false end.

Definition result_is {A} (P : A → bool) (result : StatusCode + A) : bool :=
  match result with inl _ => false | inr x => P x end.

(** [accessMatches]: every port can be read, an input port can be written. *)
Definition accessMatches (direction : PortDirection) (level : N) : bool :=
  Bool.eqb (anyOf level CurrentRead) true &&
  Bool.eqb (anyOf level CurrentWrite) (bool_decide (direction = direction_input)).

(** Whether the value variable is missing. *)
Definition validatePortValue (client : Client) (type_registry : EndpointTypeRegistry)
    (port : RemotePortDescription) : Attempt bool :=
  let codec := codec ← codecForTypeName type_registry (rpd_type_name port); deref_codec type_registry codec in
  match codec with
  | Some codec =>
      if negb (hasValue codec)
      then leave (early_failed ("remote port '" +:+ rpd_name port +:+ "' uses unsupported RTT type '" +:+
             rpd_type_name port +:+ "'"))
      else
        node_class ← on_net (cs_readNodeClass client (rpd_value_id port));
        match node_class with
        | inl status =>
            if bool_decide (status = status_constant BADNODEIDUNKNOWN) then proceed true
            else leave (early_failed (statusMessage
                   ("failed to read value metadata for remote port '" +:+ rpd_name port +:+ "'") status))
        | inr node_class =>
            data_type ← on_net (cs_readDataType client (rpd_value_id port));
            value_rank ← on_net (cs_readValueRank client (rpd_value_id port));
            access ← on_net (cs_readAccessLevel client (rpd_value_id port));
            user_access ← on_net (cs_readUserAccessLevel client (rpd_value_id port));
            if is_error data_type || is_error value_rank || is_error access || is_error user_access
            then leave (early_failed ("failed to read value metadata for remote port '" +:+
                   rpd_name port +:+ "'"))
            else if bool_decide (node_class = class_Variable) &&
                    result_is (λ id, bool_decide (id = dataTypeNodeId codec)) data_type &&
                    result_is (λ rank, (rank =? rank_number (valueRank codec))%Z) value_rank &&
                    result_is (accessMatches (rpd_direction port)) access &&
                    result_is (accessMatches (rpd_direction port)) user_access
                 then proceed false
                 else leave (early_failed ("remote port '" +:+ rpd_name port +:+
                        "' exposes an incompatible value Variable"))
        end
  | None => leave (early_failed ("remote port '" +:+ rpd_name port +:+ "' uses unsupported RTT type '" +:+
              rpd_type_name port +:+ "'"))
  end.

(** ** The parts every discovery has *)

(** The browse of a category's folder with its inner [try] block. *)
Definition browse_category (client : Client) (folder_id : NodeId) (node_class : NodeClass) (label : string) :
    Attempt (list ReferenceDescription) :=
  outcome ← on_net (λ net, let '(net, outcome) := cs_browseAll client
      {| browse_node := folder_id; browse_type := ref_HasComponent; browse_subtypes := false;
         browse_class := node_class |} net in (net, inr outcome));
  match outcome with
  | browse_references references => proceed references
  | browse_status status =>
      if isMissingCategory status then leave early_missing
      else leave (early_failed (statusMessage label status))
  | browse_bad_status status what =>
      if isMissingCategory status then leave early_missing else io_throw (std_exception what)
  | browse_throws e => io_throw e
  end.

(** The loop over the references; [describe] returns [None] for [continue]. *)
Fixpoint describe_all {A} (describe : ReferenceDescription → Attempt (option A))
    (references : list ReferenceDescription) : Attempt (list A) :=
  match references with
  | [] => proceed []
  | reference :: references' =>
      if negb (rd_isLocal reference) then describe_all describe references'
      else
        let! found := describe reference in
        let! rest := describe_all describe references' in
        proceed (option_list found ++ rest)
  end.

(** [std::sort] by name and the test for duplicates. *)
Definition by_name {A} (name : A → string) (x y : A) : Prop := String.le (name x) (name y).

#[global] Instance by_name_dec {A} (name : A → string) : RelDecision (by_name name).
Proof. intros x y. unfold by_name. apply _. Defined.

Definition sort_named {A} (name : A → string) (found : list A) (duplicate : string) : Attempt (list A) :=
  let sorted := merge_sort (by_name name) found in
  if has_adjacent_equal (name <$> sorted) then leave (early_failed duplicate) else proceed sorted.

(** The guard at the start, the [try] block and the [catch] clause.
    [clears] tells whether success clears the caller's error text. *)
Definition discover {A} (clears : bool) (label : string) (body : Client → Attempt (list A))
    (error : option string) : IO world (list A * option string) :=
  let report message : IO world (list A * option string) :=
    update (with_last_error message) ;; mret ([], assignError error message) in
  connected_state ← get (λ s, bool_decide (state_ s = connected));
  client ← get client_;
  match client, connected_state : bool with
  | Some client, true =>
      catch_std
        (result ← body client;
         match result with
         | inl (early_failed message) => report message
         | inl early_missing => update (with_last_error "") ;; mret ([], assignError error "")
         | inr found =>
             update (with_last_error "") ;;
             mret (found, if clears then assignError error "" else error)
         end)
        (λ what,
         update (with_last_error (label +:+ ": " +:+ what)) ;;
         disconnected ← lost client;
         (if disconnected : bool then update (with_connection_state stale) else mret tt) ;;
         mret ([], assignError error (label +:+ ": " +:+ what)))
  | _, _ => report "OPC UA client is not connected"
  end.

(** ** Operations *)

(** The node id of a resource below the component's service. *)
Definition model_id (component_name : string) (service_path : RemoteServicePath)
    (trailing_segments : list string) : IO world NodeId :=
  index ← get namespace_index_;
  mret (nodeid_string index (modelPath component_name service_path trailing_segments)).

Definition inconsistent_inputs (input_names input_descriptions input_types : list string) : bool :=
  (negb (bool_decide (input_names = [])) || negb (bool_decide (input_descriptions = []))) &&
  (negb (length input_names =? length input_types) ||
   negb (length input_descriptions =? length input_types)).

Definition describe_operation (client : Client) (component_name : string) (service_path : RemoteServicePath)
    (operations_id : NodeId) (reference : ReferenceDescription) : Attempt (option RemoteOperationDescription) :=
  let name := rd_browseName reference in
  let method_id := rd_nodeId reference in
  if str_empty name then proceed None
  else
    input_metadata ← model_id component_name service_path ["operations"; name; "rttInputTypes"];
    output_metadata ← model_id component_name service_path ["operations"; name; "rttOutputTypes"];
    source_metadata ← model_id component_name service_path ["operations"; name; "rttOutputSources"];
    let! input_types := readOptionalArray client input_metadata cpp_string in
    let! output_types := readOptionalArray client output_metadata cpp_string in
    let! output_sources := readOptionalArray client source_metadata cpp_int32 in
    if negb (length output_types =? length output_sources)
    then leave (early_failed ("remote operation '" +:+ name +:+ "' has inconsistent RTT output metadata"))
    else
      let! inputs := readInputDescriptions client method_id in
      if inconsistent_inputs inputs.1 inputs.2 input_types
      then leave (early_failed ("remote operation '" +:+ name +:+ "' has inconsistent RTT input metadata"))
      else
        description ← on_net (cs_readDescription client method_id);
        proceed (Some
          {| rod_name := name;
             rod_description := match description with inl _ => "" | inr text => text end;
             rod_object_id := operations_id; rod_method_id := method_id;
             rod_input_types := input_types; rod_input_names := inputs.1;
             rod_input_descriptions := inputs.2; rod_output_types := output_types;
             rod_output_sources := output_sources |}).

Definition discoverOperations (component_name : string) (service_path : RemoteServicePath)
    (error : option string) : IO world (list RemoteOperationDescription * option string) :=
  discover false "failed to discover remote RTT operations" (λ client,
    index ← get namespace_index_;
    let component_id := nodeid_string index (makeNodePath ["components"; component_name]) in
    let! _ := required (cs_readDisplayName client component_id)
                ("remote RTT component '" +:+ component_name +:+ "' was not found") in
    operations_id ← model_id component_name service_path ["operations"];
    let! references := browse_category client operations_id class_Method
                         "failed to discover remote RTT operations" in
    let! operations := describe_all (describe_operation client component_name service_path operations_id)
                         references in
    sort_named rod_name operations "remote component exposes duplicate operation names") error.

(** ** Properties and attributes *)

Definition describe_value (client : Client) (component_name : string) (service_path : RemoteServicePath)
    (category_name : string) (reference : ReferenceDescription) : Attempt (option RemoteValueDescription) :=
  let name := rd_browseName reference in
  let node_id := rd_nodeId reference in
  if str_empty name then proceed None
  else
    type_id ← model_id component_name service_path [category_name; name; "rttType"];
    let! type_value := required (cs_readValue client type_id)
                         ("failed to read RTT type metadata for '" +:+ name +:+ "'") in
    match variant_to_scalar cpp_string type_value with
    | None => leave (early_failed ("invalid RTT type metadata for '" +:+ name +:+ "': " +:+
                variant_access_error type_value))
    | Some type_name =>
        let! description := required (cs_readDescription client node_id)
          ("failed to read description for remote " +:+ category_name +:+ " '" +:+ name +:+ "'") in
        let! access := required (cs_readUserAccessLevel client node_id)
          ("failed to read access level for remote " +:+ category_name +:+ " '" +:+ name +:+ "'") in
        proceed (Some
          {| rvd_name := name; rvd_description := description; rvd_type_name := type_name;
             rvd_node_id := node_id; rvd_writable := anyOf access CurrentWrite |})
    end.

Definition discoverValues (component_name : string) (service_path : RemoteServicePath)
    (category : RemoteValueCategory) (error : option string) :
    IO world (list RemoteValueDescription * option string) :=
  let category_name := categorySegment category in
  discover true ("failed to discover remote RTT " +:+ category_name) (λ client,
    folder_id ← model_id component_name service_path [category_name];
    let! references := browse_category client folder_id class_Variable
                         ("failed to discover remote RTT " +:+ category_name) in
    let! values := describe_all (describe_value client component_name service_path category_name) references in
    sort_named rvd_name values ("remote component exposes duplicate " +:+ category_name +:+ " names")) error.

(** ** Services *)

(** [description] is the destination: [None] the null pointer. *)
Definition readServiceDescription (component_name : string) (service_path : RemoteServicePath)
    (description : option string) (error : option string) : IO world (bool * option string * option string) :=
  let report message : IO world (bool * option string * option string) :=
    update (with_last_error message) ;; mret (false, description, assignError error message) in
  match description with
  | None => report "remote RTT service description destination must not be null"
  | Some _ =>
      connected_state ← get (λ s, bool_decide (state_ s = connected));
      client ← get client_;
      match client, connected_state : bool with
      | Some client, true =>
          catch_std
            (service_id ← model_id component_name service_path [];
             result ← on_net (cs_readDescription client service_id);
             match result with
             | inl status => report (statusMessage "failed to read remote RTT service description" status)
             | inr text =>
                 update (with_last_error "") ;; mret (true, Some text, assignError error "")
             end)
            (λ what,
             let message := "failed to read remote RTT service description: " +:+ what in
             update (with_last_error message) ;;
             disconnected ← lost client;
             (if disconnected : bool then update (with_connection_state stale) else mret tt) ;;
             mret (false, description, assignError error message))
      | _, _ => report "OPC UA client is not connected"
      end
  end.

Definition describe_service (client : Client) (reference : ReferenceDescription) :
    Attempt (option RemoteServiceDescription) :=
  let name := rd_browseName reference in
  if str_empty name || String.eqb name "this" then proceed None
  else
    let! description := required (cs_readDescription client (rd_nodeId reference))
      ("failed to read description for remote service '" +:+ name +:+ "'") in
    proceed (Some {| rsd_name := name; rsd_description := description |}).

Definition discoverServices (component_name : string) (service_path : RemoteServicePath)
    (error : option string) : IO world (list RemoteServiceDescription * option string) :=
  discover true "failed to discover remote RTT services" (λ client,
    folder_id ← model_id component_name service_path ["services"];
    let! references := browse_category client folder_id class_Object
                         "failed to discover remote RTT services" in
    let! services := describe_all (describe_service client) references in
    sort_named rsd_name services "remote component exposes duplicate service names") error.

(** ** Ports *)

Definition describe_port (client : Client) (component_name : string) (service_path : RemoteServicePath)
    (reference : ReferenceDescription) : Attempt (option RemotePortDescription) :=
  let name := rd_browseName reference in
  let object_id := rd_nodeId reference in
  if str_empty name then proceed None
  else
    type_id ← model_id component_name service_path ["ports"; name; "type"];
    direction_id ← model_id component_name service_path ["ports"; name; "direction"];
    let! type_name := readStringValue client type_id "RTT port type metadata" in
    let! direction := readPortDirection client direction_id name in
    let! description := required (cs_readDescription client object_id)
      ("failed to read description for remote port '" +:+ name +:+ "'") in
    value_id ← model_id component_name service_path ["ports"; name; "value"];
    registry ← get type_registry_;
    let port := {| rpd_name := name; rpd_description := description; rpd_type_name := type_name;
                   rpd_service_path := service_path; rpd_direction := direction;
                   rpd_value_id := value_id |} in
    match registry with
    | None => last ← get last_error_; leave (early_failed last)
    | Some registry =>
        let! missing_value := validatePortValue client registry port in
        if missing_value : bool then
          match direction with
          | direction_input => leave (early_failed ("remote port '" +:+ name +:+
                                 "' does not expose its value Variable"))
          | direction_output => proceed None
          end
        else proceed (Some port)
    end.

Definition discoverPorts (component_name : string) (service_path : RemoteServicePath)
    (error : option string) : IO world (list RemotePortDescription * option string) :=
  discover true "failed to discover remote RTT ports" (λ client,
    folder_id ← model_id component_name service_path ["ports"];
    let! references := browse_category client folder_id class_Object "failed to discover remote RTT ports" in
    let! ports := describe_all (describe_port client component_name service_path) references in
    sort_named rpd_name ports "remote component exposes duplicate port names") error.

(** ** Specification *)

(** What a discovery may do before it ends: it talks to the network and leaves
    the session [s] alone; a failure has a text; only under [M] does it end
    because a category is missing; a result satisfies [P]. *)
Definition attempts {A} (M : Prop) (s : ClientSession) (m : IO world (Early + A)) (P : A → Prop) : Prop :=
  ∀ w w' o, m w = (w', o) → w_session w = s →
    w_session w' = s ∧ w_types w' = w_types w ∧
    match o with
    | inl _ => True
    | inr (inl (early_failed message)) => message ≠ ""
    | inr (inl early_missing) => M
    | inr (inr x) => P x
    end.

(** The same for code that cannot leave early. *)
Definition quietly {A} (s : ClientSession) (m : IO world A) (P : A → Prop) : Prop :=
  ∀ w w' o, m w = (w', o) → w_session w = s →
    w_session w' = s ∧ w_types w' = w_types w ∧ ∀ x, o = inr x → P x.

(** What the server answered to a browse. *)
Definition answered (folder : BrowseDescription NodeId) (references : list ReferenceDescription) : Prop :=
  ∃ (client : Client) (net net' : CN), cs_browseAll client folder net = (net', browse_references references).

(** The server said that the folder does not exist. *)
Definition missing (folder : BrowseDescription NodeId) : Prop :=
  ∃ (client : Client) (net net' : CN),
    let unknown := status_constant BADNODEIDUNKNOWN in
    cs_browseAll client folder net = (net', browse_status unknown) ∨
    ∃ what, cs_browseAll client folder net = (net', browse_bad_status unknown what).

(** The names of the local references. *)
Definition local_names (references : list ReferenceDescription) : list string :=
  rd_browseName <$> filter (λ reference, rd_isLocal reference = true) references.

(** Distinct names in ascending order. *)
Definition ascending (names : list string) : Prop := StronglySorted String.le names ∧ NoDup names.

(** The names [l] came from a browse of [folder]: in order, without those that
    are [skipped]; [exact] when no other was left out. *)
Definition listing (folder : BrowseDescription NodeId) (skipped : string → bool) (exact : bool)
    (names : list string) : Prop :=
  ascending names ∧ ∃ references, answered folder references ∧
    let expected := filter (λ name, skipped name = false) (local_names references) in
    if exact then names ≡ₚ expected else names ⊆+ expected.

(** The discoveries, and the names of what they found. *)
Inductive Discovery :=
  | discovery_operations (component_name : string) (service_path : RemoteServicePath)
  | discovery_values (component_name : string) (service_path : RemoteServicePath) (category : RemoteValueCategory)
  | discovery_services (component_name : string) (service_path : RemoteServicePath)
  | discovery_ports (component_name : string) (service_path : RemoteServicePath).

Definition found_names {A} (name : A → string) (m : IO world (list A * option string)) :
    IO world (list string * option string) :=
  '(found, error) ← m; mret (name <$> found, error).

Definition run_discovery (discovery : Discovery) (error : option string) :
    IO world (list string * option string) :=
  match discovery with
  | discovery_operations component_name service_path =>
      found_names rod_name (discoverOperations component_name service_path error)
  | discovery_values component_name service_path category =>
      found_names rvd_name (discoverValues component_name service_path category error)
  | discovery_services component_name service_path =>
      found_names rsd_name (discoverServices component_name service_path error)
  | discovery_ports component_name service_path =>
      found_names rpd_name (discoverPorts component_name service_path error)
  end.

(** The folder a discovery browses, under the namespace [index]. *)
Definition folder_of (discovery : Discovery) (index : N) : BrowseDescription NodeId :=
  let folder component_name service_path segment node_class :=
    {| browse_node := nodeid_string index (modelPath component_name service_path [segment]);
       browse_type := ref_HasComponent; browse_subtypes := false; browse_class := node_class |} in
  match discovery with
  | discovery_operations component_name service_path => folder component_name service_path "operations" class_Method
  | discovery_values component_name service_path category =>
      folder component_name service_path (categorySegment category) class_Variable
  | discovery_services component_name service_path => folder component_name service_path "services" class_Object
  | discovery_ports component_name service_path => folder component_name service_path "ports" class_Object
  end.

(** Names that are never listed. *)
Definition skipped_by (discovery : Discovery) (name : string) : bool :=
  match discovery with
  | discovery_services _ _ => str_empty name || String.eqb name "this"
  | _ => str_empty name
  end.

(** Ports also leave out an output without a value variable. *)
Definition exact_by (discovery : Discovery) : bool :=
  match discovery with discovery_ports _ _ => false | _ => true end.

(** What holds of every operation that was found. *)
Definition operation_consistent (operation : RemoteOperationDescription) : Prop :=
  length (rod_output_types operation) = length (rod_output_sources operation) ∧
  length (rod_input_names operation) = length (rod_input_descriptions operation) ∧
  (rod_input_names operation = [] ∨
   length (rod_input_names operation) = length (rod_input_types operation)).

(** How a discovery of a session [s] ends: the session after it and its result. *)
Inductive discovery_ends {A} (clears : bool) (error : option string) (s : ClientSession) (M : Prop)
    (P : list A → Prop) : ClientSession → exn + (list A * option string) → Prop :=
  | discovery_found l : state_ s = connected → P l →
      discovery_ends clears error s M P (with_last_error "" s)
        (inr (l, if clears then assignError error "" else error))
  | discovery_missing : state_ s = connected → M →
      discovery_ends clears error s M P (with_last_error "" s) (inr ([], assignError error ""))
  | discovery_failed message : message ≠ "" →
      discovery_ends clears error s M P (with_last_error message s) (inr ([], assignError error message))
  | discovery_lost message : state_ s = connected → message ≠ "" →
      discovery_ends clears error s M P (with_connection_state stale (with_last_error message s))
        (inr ([], assignError error message))
  | discovery_escapes : discovery_ends clears error s M P s (inl other_exception).

(** ** Lemmas: attempts *)

Lemma attempts_leave {A} M s (early : Early) (P : A → Prop) :
  match early with early_failed message => message ≠ "" | early_missing => M end →
  attempts M s (leave early) P.
Proof. intros Hearly w w' o [= <- <-]. destruct early; auto. Qed.

Lemma attempts_proceed {A} M s (x : A) (P : A → Prop) : P x → attempts M s (proceed x) P.
Proof. intros Hx w w' o [= <- <-]. auto. Qed.

Lemma attempts_throw {A} M s e (P : A → Prop) : attempts M s (io_throw e) P.
Proof. intros w w' o [= <- <-]. auto. Qed.

Lemma attempts_bind {A B} M s (m : IO world A) (f : A → IO world (Early + B)) Q P :
  quietly s m Q → (∀ x, Q x → attempts M s (f x) P) → attempts M s (m ≫= f) P.
Proof.
  intros Hm Hf w w' o Hrun Hs. apply io_bind_inv in Hrun as [(w1 & x & Hm1 & Hm2)|(e & Hm1 & ->)].
  - destruct (Hm _ _ _ Hm1 Hs) as (Hs1 & Ht1 & Hx). destruct (Hf x (Hx x eq_refl) _ _ _ Hm2 Hs1) as (? & Ht & ?).
    split_and!; [done|congruence|done].
  - destruct (Hm _ _ _ Hm1 Hs) as (? & ? & _). auto.
Qed.

Lemma attempts_attempt_bind {A B} M s (m : IO world (Early + A)) (f : A → IO world (Early + B)) Q P :
  attempts M s m Q → (∀ x, Q x → attempts M s (f x) P) → attempts M s (attempt_bind m f) P.
Proof.
  intros Hm Hf w w' o Hrun Hs. unfold attempt_bind in Hrun.
  apply io_bind_inv in Hrun as [(w1 & [early|x] & Hm1 & Hm2)|(e & Hm1 & ->)];
    destruct (Hm _ _ _ Hm1 Hs) as (Hs1 & Ht1 & Hx); [|clear Hm|auto].
  - injection Hm2 as <- <-. auto.
  - destruct (Hf x Hx _ _ _ Hm2 Hs1) as (? & Ht & ?). split_and!; [done|congruence|done].
Qed.

Lemma quietly_on_net {A} s (m : IO CN A) : quietly s (on_net m) (λ _, True).
Proof. intros [s' net types] w' o. unfold on_net. simpl. destruct (m net). intros [= <- <-] ->. auto. Qed.

Lemma quietly_get {A} s (f : ClientSession → A) : quietly s (get f) (λ x, x = f s).
Proof. intros w w' o [= <- <-] <-. naive_solver. Qed.

Lemma quietly_model_id s component_name service_path trailing :
  quietly s (model_id component_name service_path trailing) (λ id,
    id = nodeid_string (namespace_index_ s) (modelPath component_name service_path trailing)).
Proof. intros w w' o [= <- <-] <-. naive_solver. Qed.

Lemma quietly_browse s (client : Client) folder :
  quietly s (on_net (λ net, let '(net, outcome) := cs_browseAll client folder net in (net, inr outcome)))
    (λ outcome, ∃ net net', cs_browseAll client folder net = (net', outcome)).
Proof.
  intros [s' net types] w' o. unfold on_net. simpl.
  destruct (cs_browseAll client folder net) as [net' outcome] eqn:Hbrowse. simpl. intros [= <- <-] ->.
  split_and!; [done..|]. intros x [= <-]. eauto.
Qed.

Lemma attempts_required {A} M s (service : IO CN (StatusCode + A)) label :
  attempts M s (required service label) (λ _, True).
Proof.
  eapply attempts_bind; [apply quietly_on_net|]. intros [status|x] _; [|by apply attempts_proceed].
  apply attempts_leave. unfold statusMessage. by intros [_ [=]]%str_app_eq_nil.
Qed.

(** One step through the code of an attempt. *)
Ltac attempt_step :=
  match goal with
  | |- attempts _ _ (attempt_bind (required _ _) _) _ =>
      eapply attempts_attempt_bind; [apply attempts_required|]; intros ? _
  | |- attempts _ _ (on_net _ ≫= _) _ =>
      let Hx := fresh "Hx" in
      eapply attempts_bind; [first [apply quietly_browse|apply quietly_on_net]|]; intros ? Hx; cbv beta in Hx
  | |- attempts _ _ (get _ ≫= _) _ =>
      eapply attempts_bind; [apply quietly_get|]; intros ? ->
  | |- attempts _ _ (model_id _ _ _ ≫= _) _ =>
      eapply attempts_bind; [apply quietly_model_id|]; intros ? ->
  | |- attempts _ _ (leave _) _ => apply attempts_leave; nonempty_text
  | |- attempts _ _ (proceed _) _ => apply attempts_proceed
  | |- attempts _ _ (io_throw _) _ => apply attempts_throw
  | |- attempts _ _ (required _ _) _ => apply attempts_required
  end.

(** ** Lemmas: metadata *)

Lemma attempts_readOptionalArray M s client node_id T :
  attempts M s (readOptionalArray client node_id T) (λ _, True).
Proof. unfold readOptionalArray. attempt_step. repeat (case_match || attempt_step); done. Qed.

Lemma attempts_readStringValue M s client node_id label :
  attempts M s (readStringValue client node_id label) (λ _, True).
Proof. unfold readStringValue. attempt_step. by case_match; attempt_step. Qed.

Lemma attempts_readPortDirection M s client node_id port_name :
  attempts M s (readPortDirection client node_id port_name) (λ _, True).
Proof. unfold readPortDirection. attempt_step. by repeat (case_match || attempt_step). Qed.

Lemma attempts_read_arguments M s client reference found :
  attempts M s (read_arguments client reference found) (λ _, True).
Proof. unfold read_arguments. case_match; [attempt_step|]. attempt_step. by case_match; attempt_step. Qed.

Lemma attempts_scan_arguments M s client references inputs outputs :
  attempts M s (scan_arguments client references inputs outputs) (λ _, True).
Proof.
  revert inputs outputs. induction references as [|reference references IH]; intros inputs outputs; simpl.
  - by attempt_step.
  - case_match; [apply IH|].
    repeat (case_match; [eapply attempts_attempt_bind; [apply attempts_read_arguments|]; intros; apply IH|]).
    apply IH.
Qed.

Lemma attempts_readInputDescriptions M s client method_id :
  attempts M s (readInputDescriptions client method_id) (λ inputs, length inputs.1 = length inputs.2).
Proof.
  eapply attempts_attempt_bind with (Q := λ _, True).
  - unfold readMethodArguments. attempt_step. case_match; try attempt_step.
    eapply attempts_attempt_bind; [apply attempts_scan_arguments|]. intros ? _. by attempt_step.
  - intros ? _. attempt_step. simpl. by rewrite !length_fmap.
Qed.

Lemma attempts_browse_category s client folder node_class label :
  label ≠ "" →
  attempts (missing {| browse_node := folder; browse_type := ref_HasComponent; browse_subtypes := false;
                       browse_class := node_class |}) s (browse_category client folder node_class label)
    (answered {| browse_node := folder; browse_type := ref_HasComponent; browse_subtypes := false;
                 browse_class := node_class |}).
Proof.
  intros Hlabel. unfold browse_category. attempt_step.
  match goal with Hb : ∃ _ _, _ |- _ => destruct Hb as (net & net' & Hbrowse) end.
  case_match; subst; try attempt_step.
  - by exists client, net, net'.
  - case_match; attempt_step. unfold isMissingCategory in *. split_guards. subst.
    exists client, net, net'. auto.
  - case_match; attempt_step. unfold isMissingCategory in *. split_guards. subst.
    exists client, net, net'. eauto.
Qed.

(** The codec behind a type name. *)
Definition named_codec (registry : EndpointTypeRegistry) (type_name : string) : option TypeCodec :=
  codec ← codecForTypeName registry type_name; deref_codec registry codec.

Lemma attempts_validatePortValue M s client registry port :
  attempts M s (validatePortValue client registry port) (λ _, ∃ codec,
    named_codec registry (rpd_type_name port) = Some codec ∧ hasValue codec = true).
Proof.
  unfold validatePortValue. fold (named_codec registry (rpd_type_name port)).
  destruct (named_codec registry (rpd_type_name port)) as [codec|]; [|attempt_step].
  destruct (hasValue codec) eqn:Hvalue; simpl; [|attempt_step].
  attempt_step. case_match; [case_match; attempt_step; eauto|].
  do 4 attempt_step. case_match; [attempt_step|]. case_match; attempt_step. eauto.
Qed.

(** ** Lemmas: one reference *)

Lemma attempts_describe_operation M s client component_name service_path operations_id reference :
  attempts M s (describe_operation client component_name service_path operations_id reference) (λ found,
    match found with
    | None => str_empty (rd_browseName reference) = true
    | Some operation =>
        str_empty (rd_browseName reference) = false ∧
        rod_name operation = rd_browseName reference ∧ rod_method_id operation = rd_nodeId reference ∧
        rod_object_id operation = operations_id ∧
        length (rod_output_types operation) = length (rod_output_sources operation) ∧
        length (rod_input_names operation) = length (rod_input_descriptions operation) ∧
        (rod_input_names operation = [] ∨
         length (rod_input_names operation) = length (rod_input_types operation))
    end).
Proof.
  unfold describe_operation. destruct (str_empty (rd_browseName reference)) eqn:Hempty; [by attempt_step|].
  do 3 attempt_step.
  do 3 (eapply attempts_attempt_bind; [apply attempts_readOptionalArray|]; intros ? _).
  case_match eqn:Houtputs; [attempt_step|].
  eapply attempts_attempt_bind; [apply attempts_readInputDescriptions|]. intros [names texts] Hlength. simpl in *.
  case_match eqn:Hinputs; [attempt_step|]. attempt_step. attempt_step. simpl.
  apply negb_false_iff, Nat.eqb_eq in Houtputs. split_and!; [done..|].
  unfold inconsistent_inputs in Hinputs. destruct names as [|name names]; [by left|]. right.
  simpl in Hinputs. split_guards. by apply Nat.eqb_eq.
Qed.

Lemma attempts_describe_value M s client component_name service_path category_name reference :
  attempts M s (describe_value client component_name service_path category_name reference) (λ found,
    match found with
    | None => str_empty (rd_browseName reference) = true
    | Some value => str_empty (rd_browseName reference) = false ∧
        rvd_name value = rd_browseName reference ∧ rvd_node_id value = rd_nodeId reference
    end).
Proof.
  unfold describe_value. destruct (str_empty (rd_browseName reference)) eqn:Hempty; [by attempt_step|].
  do 2 attempt_step. case_match; [|attempt_step]. by do 3 attempt_step.
Qed.

Lemma attempts_describe_service M s client reference :
  attempts M s (describe_service client reference) (λ found,
    match found with
    | None => str_empty (rd_browseName reference) || String.eqb (rd_browseName reference) "this" = true
    | Some service =>
        str_empty (rd_browseName reference) || String.eqb (rd_browseName reference) "this" = false ∧
        rsd_name service = rd_browseName reference
    end).
Proof. unfold describe_service. case_match; [by attempt_step|]. by do 2 attempt_step. Qed.

(** A registry is there when the session is connected. *)
Lemma attempts_describe_port M s registry client component_name service_path reference :
  type_registry_ s = Some registry →
  attempts M s (describe_port client component_name service_path reference) (λ found,
    match found with
    | None => True
    | Some port => str_empty (rd_browseName reference) = false ∧
        rpd_name port = rd_browseName reference ∧ rpd_service_path port = service_path ∧
        rpd_value_id port = nodeid_string (namespace_index_ s)
          (modelPath component_name service_path ["ports"; rpd_name port; "value"]) ∧
        ∃ codec, named_codec registry (rpd_type_name port) = Some codec ∧ hasValue codec = true
    end).
Proof.
  intros Hregistry. unfold describe_port.
  destruct (str_empty (rd_browseName reference)) eqn:Hempty; [by attempt_step|]. do 2 attempt_step.
  eapply attempts_attempt_bind; [apply attempts_readStringValue|]. intros type_name _.
  eapply attempts_attempt_bind; [apply attempts_readPortDirection|]. intros direction _.
  do 3 attempt_step. rewrite Hregistry.
  eapply attempts_attempt_bind; [apply attempts_validatePortValue|]. simpl. intros missing_value Hcodec.
  destruct missing_value; [destruct direction; by attempt_step|]. attempt_step. by split_and!.
Qed.

(** ** Lemmas: all references *)

Lemma attempts_describe_all {A} M s describe Q references :
  (∀ reference, attempts M s (describe reference) (Q reference)) →
  attempts M s (describe_all describe references) (λ found : list A,
    ∃ outcomes, Forall2 Q (filter (λ reference, rd_isLocal reference = true) references) outcomes ∧
      found = outcomes ≫= option_list).
Proof.
  intros Hdescribe. induction references as [|reference references IH]; simpl.
  { attempt_step. exists []. split; [constructor|done]. }
  destruct (rd_isLocal reference) eqn:Hlocal; simpl.
  - rewrite filter_cons_True by done. eapply attempts_attempt_bind; [apply Hdescribe|]. intros found Hfound.
    eapply attempts_attempt_bind; [apply IH|]. intros rest (outcomes & Hrest & ->). attempt_step.
    exists (found :: outcomes). split; [by constructor|done].
  - rewrite filter_cons_False by congruence. apply IH.
Qed.

(** The outcomes name the references that were not skipped. *)
Lemma outcomes_names {A} (name : A → string) (skipped : string → bool) references (outcomes : list (option A)) :
  Forall2 (λ reference found, match found with
    | None => skipped (rd_browseName reference) = true
    | Some x => skipped (rd_browseName reference) = false ∧ name x = rd_browseName reference
    end) references outcomes →
  name <$> (outcomes ≫= option_list) =
  filter (λ name, skipped name = false) ((rd_browseName (NodeId := NodeId)) <$> references).
Proof.
  induction 1 as [|reference [x|] references outcomes Hone _ IH]; [done|..];
    rewrite fmap_cons, bind_cons, fmap_app, IH.
  - destruct Hone as [Hskip Hname]. rewrite filter_cons_True by done. simpl. by rewrite Hname.
  - by rewrite filter_cons_False by congruence.
Qed.

Lemma outcomes_names_submseteq {A} (name : A → string) (skipped : string → bool) references
    (outcomes : list (option A)) :
  Forall2 (λ reference found, match found with
    | None => True
    | Some x => skipped (rd_browseName reference) = false ∧ name x = rd_browseName reference
    end) references outcomes →
  name <$> (outcomes ≫= option_list) ⊆+
  filter (λ name, skipped name = false) ((rd_browseName (NodeId := NodeId)) <$> references).
Proof.
  induction 1 as [|reference [x|] references outcomes Hone _ IH]; [done|..];
    rewrite fmap_cons, bind_cons, fmap_app.
  - destruct Hone as [Hskip Hname]. rewrite filter_cons_True by done. simpl. rewrite Hname. by constructor.
  - rewrite filter_cons. simpl. destruct (decide _); [by apply submseteq_cons|done].
Qed.

Lemma by_name_sorted {A} (name : A → string) (l : list A) :
  StronglySorted String.le (name <$> merge_sort (by_name name) l).
Proof.
  apply (StronglySorted_fmap name (by_name name)); [done|].
  apply StronglySorted_merge_sort.
  - intros x y z. unfold by_name. apply transitivity.
  - intros x y. apply (total String.le).
Qed.

Lemma attempts_sort_named {A} M s (name : A → string) found duplicate :
  duplicate ≠ "" →
  attempts M s (sort_named name found duplicate) (λ l, l ≡ₚ found ∧ ascending (name <$> l)).
Proof.
  intros Hduplicate. unfold sort_named. case_match eqn:Hadj; attempt_step. split.
  - apply merge_sort_Permutation.
  - split; [apply by_name_sorted|]. eapply has_adjacent_equal_false; [done|apply by_name_sorted].
Qed.

(** ** Lemmas: discoveries *)

Lemma discover_ends {A} clears label body error M (P : list A → Prop) w w' o :
  label ≠ "" →
  (∀ client, client_ (w_session w) = Some client → state_ (w_session w) = connected →
     attempts M (w_session w) (body client) P) →
  discover clears label body error w = (w', o) →
  discovery_ends clears error (w_session w) M P (w_session w') o ∧ w_types w' = w_types w ∧
  (state_ (w_session w) ≠ connected → w_net w' = w_net w).
Proof.
  intros Hlabel Hbody Hrun. unfold discover in Hrun.
  apply io_bind_inv in Hrun as [(w1 & up & [= <- <-] & Hrun)|(? & [=] & _)].
  apply io_bind_inv in Hrun as [(w1 & client & [= <- <-] & Hrun)|(? & [=] & _)].
  assert (Hnot : update (with_last_error "OPC UA client is not connected") w = (w', inr tt) →
    o = inr ([], assignError error "OPC UA client is not connected") →
    discovery_ends clears error (w_session w) M P (w_session w') o ∧ w_types w' = w_types w ∧
    (state_ (w_session w) ≠ connected → w_net w' = w_net w)).
  { intros [= <-] ->. split_and!; try done. by apply discovery_failed. }
  destruct (client_ (w_session w)) as [client|]; [|by injection Hrun as <- <-; apply Hnot].
  case_bool_decide as Hup; [|by injection Hrun as <- <-; apply Hnot]. clear Hnot.
  specialize (Hbody client eq_refl Hup).
  apply catch_std_inv in Hrun as [(w1 & what & Hthrow & Hrun)|[Hrun Hno]].
  - assert (Hw1 : w_session w1 = w_session w ∧ w_types w1 = w_types w).
    { apply io_bind_inv in Hthrow as [(w2 & [[message|]|l] & Hm1 & Hm2)|(e & Hm1 & _)].
      1-3: by inversion Hm2. by destruct (Hbody _ _ _ Hm1 eq_refl) as (? & ? & _). }
    destruct Hw1 as [Hs1 Ht1]. destruct w1 as [s1 net1 types1]. simpl in Hs1, Ht1. subst s1 types1.
    revert Hrun. run_io. destruct (client_isConnected client net1); io_cbn; intros [= <- <-]; simpl;
      (split_and!; [|done|done]).
    + apply (discovery_failed clears error (w_session w) M P). nonempty_text.
    + apply discovery_lost; [done|]. nonempty_text.
  - apply io_bind_inv in Hrun as [(w1 & [[message|]|l] & Hm1 & Hm2)|(e & Hm1 & ->)];
      destruct (Hbody _ _ _ Hm1 eq_refl) as (Hs1 & Ht1 & Hx).
    + injection Hm2 as <- <-. simpl. rewrite Hs1. split_and!; [by apply discovery_failed|done|done].
    + injection Hm2 as <- <-. simpl. rewrite Hs1. split_and!; [by apply discovery_missing|done|done].
    + injection Hm2 as <- <-. simpl. rewrite Hs1. split_and!; [by apply discovery_found|done|done].
    + destruct e as [what|]; [by destruct (Hno what)|]. rewrite Hs1. split_and!; [apply discovery_escapes|done|done].
Qed.

Lemma outcomes_Forall {A} (E : A → Prop) (references : list ReferenceDescription) (outcomes : list (option A)) :
  Forall2 (λ _ found, ∀ x, found = Some x → E x) references outcomes →
  Forall E (outcomes ≫= option_list).
Proof.
  induction 1 as [|reference [x|] references outcomes Hone _ IH]; [constructor|..]; rewrite bind_cons; simpl;
    [constructor; auto|done].
Qed.

(** From the browse to the sorted list. *)
Lemma attempts_list {A} (s : ClientSession) (client : Client) (name : A → string) describe Q folder_id
    node_class label duplicate (skipped : string → bool) (exact : bool) (E : A → Prop) :
  let folder := {| browse_node := folder_id; browse_type := ref_HasComponent; browse_subtypes := false;
                   browse_class := node_class |} in
  label ≠ "" → duplicate ≠ "" →
  (∀ reference, attempts (missing folder) s (describe reference) (Q reference)) →
  (∀ reference found, Q reference found → match found with
     | None => exact = true → skipped (rd_browseName reference) = true
     | Some x => skipped (rd_browseName reference) = false ∧ name x = rd_browseName reference ∧ E x
     end) →
  attempts (missing folder) s
    (attempt_bind (browse_category client folder_id node_class label) (λ references,
     attempt_bind (describe_all describe references) (λ found, sort_named name found duplicate)))
    (λ l, listing folder skipped exact (name <$> l) ∧ Forall E l).
Proof.
  intros folder Hlabel Hduplicate Hdescribe HQ.
  eapply attempts_attempt_bind; [by apply attempts_browse_category|]. intros references Hanswered.
  eapply attempts_attempt_bind; [by apply attempts_describe_all|]. simpl. intros found (outcomes & Hall & ->).
  intros w w' o Hrun Hs. destruct (attempts_sort_named (missing folder) s name _ _ Hduplicate _ _ _ Hrun Hs)
    as (Hs' & Ht' & Hsorted). split_and!; [done..|].
  destruct o as [|[[]|l]]; try done. destruct Hsorted as [Hperm Hasc]. split.
  - split; [done|]. exists references. split; [done|]. apply (fmap_Permutation name) in Hperm.
    unfold local_names. destruct exact.
    + rewrite <-(outcomes_names name skipped _ outcomes); [done|]. eapply Forall2_impl; [exact Hall|].
      intros reference [x|] Hx%HQ; naive_solver.
    + trans (name <$> (outcomes ≫= option_list)); [by apply Permutation_submseteq|].
      apply outcomes_names_submseteq. eapply Forall2_impl; [exact Hall|].
      intros reference [x|] Hx%HQ; naive_solver.
  - rewrite Hperm. eapply outcomes_Forall, Forall2_impl; [exact Hall|].
    intros reference found Hx%HQ x ->. naive_solver.
Qed.

(** ** Lemmas: the four discoveries *)

Lemma discoverOperations_ends component_name service_path error w w' o :
  let discovery := discovery_operations component_name service_path in
  let folder := folder_of discovery (namespace_index_ (w_session w)) in
  discoverOperations component_name service_path error w = (w', o) →
  discovery_ends false error (w_session w) (missing folder) (λ l,
    listing folder (skipped_by discovery) (exact_by discovery) (rod_name <$> l) ∧
    Forall operation_consistent l) (w_session w') o ∧ w_types w' = w_types w ∧
  (state_ (w_session w) ≠ connected → w_net w' = w_net w).
Proof.
  apply discover_ends; [done|]. intros client _ _. cbv beta.
  attempt_step. cbv zeta. attempt_step. attempt_step.
  eapply attempts_list; [done..| |].
  - intros reference. eapply attempts_describe_operation.
  - intros reference [operation|]; [|done]. intros (? & ? & _ & _ & ? & ? & ?). by split_and!.
Qed.

Lemma discoverValues_ends component_name service_path category error w w' o :
  let discovery := discovery_values component_name service_path category in
  let folder := folder_of discovery (namespace_index_ (w_session w)) in
  discoverValues component_name service_path category error w = (w', o) →
  discovery_ends true error (w_session w) (missing folder) (λ l,
    listing folder (skipped_by discovery) (exact_by discovery) (rvd_name <$> l) ∧
    Forall (λ _, True) l) (w_session w') o ∧ w_types w' = w_types w ∧
  (state_ (w_session w) ≠ connected → w_net w' = w_net w).
Proof.
  apply discover_ends; [done|]. intros client _ _. cbv beta. attempt_step.
  eapply attempts_list; [done..| |].
  - intros reference. eapply attempts_describe_value.
  - intros reference [value|]; [|done]. by intros (? & ? & _).
Qed.

Lemma discoverServices_ends component_name service_path error w w' o :
  let discovery := discovery_services component_name service_path in
  let folder := folder_of discovery (namespace_index_ (w_session w)) in
  discoverServices component_name service_path error w = (w', o) →
  discovery_ends true error (w_session w) (missing folder) (λ l,
    listing folder (skipped_by discovery) (exact_by discovery) (rsd_name <$> l) ∧
    Forall (λ _, True) l) (w_session w') o ∧ w_types w' = w_types w ∧
  (state_ (w_session w) ≠ connected → w_net w' = w_net w).
Proof.
  apply discover_ends; [done|]. intros client _ _. cbv beta. attempt_step.
  eapply attempts_list; [done..| |].
  - intros reference. eapply attempts_describe_service.
  - intros reference [service|]; [|done]. by intros (? & ?).
Qed.

(** A port that was found has a codec for its values and the node the server
    publishes under its name. *)
Definition port_usable (registry : EndpointTypeRegistry) (component_name : string)
    (service_path : RemoteServicePath) (index : N) (port : RemotePortDescription) : Prop :=
  rpd_service_path port = service_path ∧
  rpd_value_id port = nodeid_string index
    (modelPath component_name service_path ["ports"; rpd_name port; "value"]) ∧
  ∃ codec, named_codec registry (rpd_type_name port) = Some codec ∧ hasValue codec = true.

Lemma discoverPorts_ends component_name service_path error w w' o :
  let discovery := discovery_ports component_name service_path in
  let folder := folder_of discovery (namespace_index_ (w_session w)) in
  (state_ (w_session w) = connected → is_Some (type_registry_ (w_session w))) →
  discoverPorts component_name service_path error w = (w', o) →
  discovery_ends true error (w_session w) (missing folder) (λ l,
    listing folder (skipped_by discovery) (exact_by discovery) (rpd_name <$> l) ∧
    Forall (λ port, ∃ registry, type_registry_ (w_session w) = Some registry ∧
      port_usable registry component_name service_path (namespace_index_ (w_session w)) port) l)
    (w_session w') o ∧ w_types w' = w_types w ∧
  (state_ (w_session w) ≠ connected → w_net w' = w_net w).
Proof.
  intros discovery folder Hregistry. apply discover_ends; [done|]. intros client _ Hup. cbv beta. attempt_step.
  destruct (Hregistry Hup) as [registry Hreg].
  eapply attempts_list; [done..| |].
  - intros reference. by eapply attempts_describe_port.
  - intros reference [port|]; [|done]. intros (? & ? & ? & ? & codec & ? & ?).
    split_and!; [done..|]. exists registry. split; [done|]. by split_and!; [| |exists codec].
Qed.
End discovery.
