(* ===== verification/ConcreteClient.v ===== *)
(** A concrete network with one endpoint, which shows that the interfaces of
    Client.v and ClientDiscovery.v can be implemented; the witnesses of the
    client run on it. *)

From S2P Require Import Prelude NodeId Native Concrete DataTypeRegistry TypeProtocol EndpointTypeRegistry.
From S2P Require Import OperationDispatcher AddressSpace ConcreteServer NodeSpecs Client ClientDiscovery.

(** ** Status codes: [None] is good *)

Definition UaStatus_name (status : UaStatus) : string :=
  match status with
  | BADNODEIDINVALID => "BadNodeIdInvalid" | BADNODEIDUNKNOWN => "BadNodeIdUnknown"
  | BADNOTFOUND => "BadNotFound" | BADMETHODINVALID => "BadMethodInvalid"
  | BADSESSIONIDINVALID => "BadSessionIdInvalid" | BADSESSIONCLOSED => "BadSessionClosed"
  | BADSESSIONNOTACTIVATED => "BadSessionNotActivated"
  | BADSECURECHANNELIDINVALID => "BadSecureChannelIdInvalid"
  | BADSECURECHANNELCLOSED => "BadSecureChannelClosed"
  | BADSECURECHANNELTOKENUNKNOWN => "BadSecureChannelTokenUnknown"
  | BADCONNECTIONREJECTED => "BadConnectionRejected" | BADCONNECTIONCLOSED => "BadConnectionClosed"
  | BADSERVERNOTCONNECTED => "BadServerNotConnected" | BADNOTCONNECTED => "BadNotConnected"
  | BADCOMMUNICATIONERROR => "BadCommunicationError" | BADTIMEOUT => "BadTimeout"
  | BADTYPEMISMATCH => "BadTypeMismatch" | BADINVALIDARGUMENT => "BadInvalidArgument"
  | BADWAITINGFORINITIALDATA => "BadWaitingForInitialData"
  end.

#[global] Instance c_StatusCodes : StatusCodes (option UaStatus) := {
  status_isGood code := bool_decide (code = None);
  status_name code := from_option UaStatus_name "Good" code;
}.

#[global] Instance c_StatusConstants : StatusConstants (option UaStatus) := {
  status_constant := Some;
}.

#[global] Instance c_StatusConstantLaws : StatusConstantLaws (option UaStatus).
Proof. split; [naive_solver|done]. Qed.

(** ** The network *)

(** What can be read of a node; a wire structure is a list of named arguments. *)
Notation c_Wire := (list (string * string)).
Notation c_Remote := (c_Variant c_Wire).

Record c_RemoteNode := {
  rn_class : NodeClass;
  rn_text : string;
  rn_value : option UaStatus + c_Remote;
  rn_access : N;
}.

(** The endpoint answers while [net_up]; it counts its requests and keeps the
    values that were written to its variables and read from them. *)
Record c_Net := {
  net_namespaces : list string;
  net_up : bool;
  net_nodes : gmap c_NodeId c_RemoteNode;
  net_references : list (c_NodeId * ReferenceDescription c_NodeId);
  net_requests : nat;
  net_writes : list (c_NodeId * c_Remote);
  net_reads : list (c_NodeId * c_Remote);
}.

Definition count_request (net : c_Net) : c_Net :=
  {| net_namespaces := net_namespaces net; net_up := net_up net; net_nodes := net_nodes net;
     net_references := net_references net; net_requests := S (net_requests net);
     net_writes := net_writes net; net_reads := net_reads net |}.

Definition set_up (up : bool) (net : c_Net) : c_Net :=
  {| net_namespaces := net_namespaces net; net_up := up; net_nodes := net_nodes net;
     net_references := net_references net; net_requests := net_requests net;
     net_writes := net_writes net; net_reads := net_reads net |}.

(** A request: a status when the connection is down or the node unknown. *)
Definition c_read {A} (f : c_RemoteNode → option UaStatus + A) (id : c_NodeId) : IO c_Net (option UaStatus + A) :=
  λ net, (count_request net, inr
    (if net_up net then
       match net_nodes net !! id with
       | Some node => f node
       | None => inl (Some BADNODEIDUNKNOWN)
       end
     else inl (Some BADCONNECTIONCLOSED))).

Definition c_write (id : c_NodeId) (value : c_Remote) : IO c_Net (option UaStatus) := λ net,
  let net := count_request net in
  if net_up net then
    match net_nodes net !! id with
    | Some node =>
        ({| net_namespaces := net_namespaces net; net_up := true;
            net_nodes := <[id := {| rn_class := rn_class node; rn_text := rn_text node;
                                    rn_value := inr value; rn_access := rn_access node |}]> (net_nodes net);
            net_references := net_references net; net_requests := net_requests net;
            net_writes := net_writes net ++ [(id, value)]; net_reads := net_reads net |}, inr None)
    | None => (net, inr (Some BADNODEIDUNKNOWN))
    end
  else (net, inr (Some BADCONNECTIONCLOSED)).

(** A read of a value is kept when there is one. *)
Definition c_readValue (id : c_NodeId) : IO c_Net (option UaStatus + c_Remote) := λ net,
  match c_read rn_value id net with
  | (net, inr (inr value)) =>
      ({| net_namespaces := net_namespaces net; net_up := net_up net; net_nodes := net_nodes net;
          net_references := net_references net; net_requests := net_requests net;
          net_writes := net_writes net; net_reads := net_reads net ++ [(id, value)] |}, inr (inr value))
  | result => result
  end.

(** A method returns its value, or its inputs when it has none. *)
Definition c_call (object_id method_id : c_NodeId) (inputs : list c_Remote) :
    IO c_Net (option UaStatus * list c_Remote) := λ net,
  (count_request net, inr
    (if net_up net then
       match net_nodes net !! method_id with
       | Some node => (None, match rn_value node with inr value => [value] | inl _ => inputs end)
       | None => (Some BADMETHODINVALID, [])
       end
     else (Some BADCONNECTIONCLOSED, []))).

#[global] Instance c_ClientServices : ClientServices c_Net unit c_NodeId c_Remote c_DataType (option UaStatus) := {
  client_new _ _ := mret tt;
  client_delete _ net := net;
  client_connect _ url net :=
    if str_empty url then (net, inl (std_exception "BadTcpEndpointUrlInvalid"))
    else (set_up true net, inr tt);
  client_disconnect _ net := (set_up false net, inr tt);
  client_namespaceArray _ net := (count_request net, inr (net_namespaces net));
  client_isConnected _ net := net_up net;
  cs_readValue _ := c_readValue;
  cs_writeValue _ := c_write;
  cs_call _ := c_call;
}.

#[global] Instance c_DiscoveryServices :
    DiscoveryServices c_Net unit c_NodeId c_Remote (option UaStatus) := {
  cs_browseAll _ folder net :=
    (count_request net,
     if net_up net then
       if bool_decide (is_Some (net_nodes net !! browse_node folder)) then
         browse_references
           (filter (λ reference, rd_nodeClass reference = browse_class folder ∧
                                 rd_referenceTypeId reference = browse_type folder)
              (omap (λ entry, if bool_decide (entry.1 = browse_node folder) then Some entry.2 else None)
                 (net_references net)))
       else browse_status (Some BADNODEIDUNKNOWN)
     else browse_status (Some BADCONNECTIONCLOSED));
  cs_readDisplayName _ id := c_read (λ node, inr (rn_text node)) id;
  cs_readDescription _ id := c_read (λ node, inr (rn_text node)) id;
  cs_readNodeClass _ id := c_read (λ node, inr (rn_class node)) id;
  cs_readDataType _ id := c_read (λ node,
    inr (match rn_value node with
         | inr (cv_scalar t _) | inr (cv_array t _) => nodeid_datatype (wire_datatype t)
         | inr (cv_structure _ id) => id
         | inl _ => nodeid_datatype dt_BaseDataType
         end)) id;
  cs_readValueRank _ id := c_read (λ node,
    inr (match rn_value node with inr (cv_array _ _) => 1%Z | _ => (-1)%Z end)) id;
  cs_readAccessLevel _ id := c_read (λ node, inr (rn_access node)) id;
  cs_readUserAccessLevel _ id := c_read (λ node, inr (rn_access node)) id;
  variant_to_named_arguments value :=
    match value with cv_structure arguments _ => inr arguments | _ => inl "BadVariantAccess" end;
  variant_access_error _ := "BadVariantAccess";
}.

(** ** An endpoint

    The component "arm" with the operation "move", the property "gain", the
    service "tool" and the input port "target". *)
Definition at_path (segments : list string) : c_NodeId := (1%N, inr (modelPath "arm" [] segments)).

Definition remote_string (text : string) : c_RemoteNode :=
  {| rn_class := class_Variable; rn_text := ""; rn_value := inr (cv_scalar cpp_string text); rn_access := 1 |}.

Definition remote_object (text : string) : c_RemoteNode :=
  {| rn_class := class_Object; rn_text := text; rn_value := inl (Some BADNOTFOUND); rn_access := 0 |}.

Definition remote_reference (id : c_NodeId) (node_class : NodeClass) (name : string) :
    ReferenceDescription c_NodeId :=
  {| rd_nodeId := id; rd_isLocal := true; rd_nodeClass := node_class; rd_browseNamespace := 1;
     rd_browseName := name; rd_referenceTypeId := ref_HasComponent |}.

Definition arm_nodes : list (list string * c_RemoteNode) :=
  [([], remote_object "arm");
   (["operations"], remote_object "operations");
   (["operations"; "move"], {| rn_class := class_Method; rn_text := "Moves the arm.";
                               rn_value := inl (Some BADNOTFOUND); rn_access := 0 |});
   (["operations"; "move"; "rttInputTypes"],
    {| rn_class := class_Variable; rn_text := ""; rn_value := inr (cv_array cpp_string ["Int32"]); rn_access := 1 |});
   (["properties"], remote_object "properties");
   (["properties"; "gain"], {| rn_class := class_Variable; rn_text := "The gain.";
                               rn_value := inr (cv_scalar cpp_int32 7%Z); rn_access := 3 |});
   (["properties"; "gain"; "rttType"], remote_string "Int32");
   (["services"], remote_object "services");
   (["services"; "tool"], remote_object "The tool.");
   (["services"; "this"], remote_object "arm");
   (["ports"], remote_object "ports");
   (["ports"; "target"], remote_object "The target.");
   (["ports"; "target"; "type"], remote_string "Int32");
   (["ports"; "target"; "direction"],
    {| rn_class := class_Variable; rn_text := ""; rn_value := inr (cv_scalar cpp_int32 0%Z); rn_access := 1 |});
   (["ports"; "target"; "value"],
    {| rn_class := class_Variable; rn_text := ""; rn_value := inr (cv_scalar cpp_int32 0%Z); rn_access := 3 |})].

Definition arm_net (namespaces : list string) : c_Net :=
  {| net_namespaces := namespaces;
     net_up := false;
     net_nodes := list_to_map ((λ entry, (at_path entry.1, entry.2)) <$> arm_nodes);
     net_references :=
       [(at_path ["operations"], remote_reference (at_path ["operations"; "move"]) class_Method "move");
        (at_path ["properties"], remote_reference (at_path ["properties"; "gain"]) class_Variable "gain");
        (at_path ["services"], remote_reference (at_path ["services"; "tool"]) class_Object "tool");
        (at_path ["services"], remote_reference (at_path ["services"; "this"]) class_Object "this");
        (at_path ["ports"], remote_reference (at_path ["ports"; "target"]) class_Object "target")];
     net_requests := 0; net_writes := []; net_reads := [] |}.

(** The types of the client: "Int32" with the canonical protocol. *)
Definition arm_types : c_Repository (TypeProtocol c_World c_DS c_DS c_Remote c_NodeId c_NodeId) :=
  match makeCanonicalProtocol (Wire := c_Wire) true false "Int32" with
  | Some protocol => ({["Int32" := "Int32"]}, {["Int32" := protocol]})
  | None => (∅, ∅)
  end.

Definition c_SessionWorld : Type :=
  @world c_World c_DS c_DS c_Remote c_NodeId c_NodeId c_DataType string c_Net unit _ _.

Definition start_world (namespaces : list string) : c_SessionWorld :=
  {| w_session := new_session "opc.tcp://arm:4840" 2000; w_net := arm_net namespaces;
     w_types := initial_registry |}.

Definition arm_namespaces : list string := [namespace_zero; kNamespaceUri].

Definition arm_connected : c_SessionWorld := (connect arm_types None (start_world arm_namespaces)).1.

(** Connected and synchronized. *)
Definition arm_ready : c_SessionWorld := (setInterfaceAccessEnabled true arm_connected).1.

(** ** Runs *)

Example arm_connects :
  (connect arm_types (Some "") (start_world arm_namespaces)).2 = inr (true, Some "").
Proof. vm_compute. reflexivity. Qed.

Example arm_discovers :
  ((run_discovery (discovery_operations "arm" []) None arm_connected).2,
   (run_discovery (discovery_values "arm" [] category_properties) None arm_connected).2,
   (run_discovery (discovery_values "arm" [] category_attributes) None arm_connected).2,
   (run_discovery (discovery_services "arm" []) None arm_connected).2,
   (run_discovery (discovery_ports "arm" []) None arm_connected).2) =
  (inr (["move"], None), inr (["gain"], None), inr ([], None), inr (["tool"], None), inr (["target"], None)).
Proof. vm_compute. reflexivity. Qed.

Example arm_reads :
  (perform (request_read (at_path ["properties"; "gain"])) arm_ready).2 =
  inr (reply_values [cv_scalar cpp_int32 7%Z]).
Proof. vm_compute. reflexivity. Qed.
