(* ===== verification/ClientSpec.v ===== *)
(** What a client session promises: how connecting ends, what a request comes to,
    the invariant of the session, the silence of a stale one, and what a
    discovery finds. *)

From S2P Require Import Prelude NodeId Native Concrete DataTypeRegistry TypeProtocol EndpointTypeRegistry.
From S2P Require Import OperationDispatcher AddressSpace ConcreteServer NodeSpecs Client ClientDiscovery ConcreteClient.

Section spec.
Context {W DS Port Variant NodeId UA_DataType DataType TypeInfo R CN Client StatusCode Wire : Type}.
Context `{EqDecision TypeInfo} `{!Countable TypeInfo}.
Context `{NodeIds NodeId} `{DataTypes NodeId UA_DataType DataType}.
Context `{StatusCodes StatusCode} `{!StatusConstants StatusCode}.
Context `{!Variants Variant NodeId UA_DataType Wire}.
Context `{!ClientServices CN Client NodeId Variant DataType StatusCode}.
Context `{!DiscoveryServices CN Client NodeId Variant StatusCode}.
Notation TypeCodec := (TypeCodec W DS Port Variant NodeId UA_DataType).
Notation TypeProtocol := (TypeProtocol W DS Port Variant NodeId UA_DataType).
Notation EndpointTypeRegistry := (EndpointTypeRegistry UA_DataType DataType TypeInfo TypeCodec).
Context `{TypeInfos TypeInfo R TypeProtocol}.
Notation ClientSession :=
  (@ClientSession W DS Port Variant NodeId UA_DataType DataType TypeInfo Client _ _).
Notation world := (@world W DS Port Variant NodeId UA_DataType DataType TypeInfo CN Client _ _).
Notation Request := (@Request Variant NodeId).
Implicit Types (s : ClientSession) (w : world).

(** ** Steps *)

(** The calls of a session, one at a time. *)
Inductive session_event :=
  | event_connect (error : option string)
  | event_request (request : Request)
  | event_discovery (discovery : Discovery) (error : option string)
  | event_description (component_name : string) (service_path : RemoteServicePath)
      (description error : option string)
  | event_revoke
  | event_access (enabled : bool).

Definition run_event (r : R) (event : session_event) w : world :=
  match event with
  | event_connect error => (connect r error w).1
  | event_request request => (perform request w).1
  | event_discovery discovery error => (run_discovery discovery error w).1
  | event_description component_name service_path description error =>
      (readServiceDescription component_name service_path description error w).1
  | event_revoke => (revoke_access w).1
  | event_access enabled => (setInterfaceAccessEnabled enabled w).1
  end.

(** A call, or a change of the network or the registry by someone else. *)
Inductive session_step (r : R) : world → world → Prop :=
  | step_event event w : session_step r w (run_event r event w)
  | step_elsewhere w net types : session_step r w {| w_session := w_session w; w_net := net; w_types := types |}.

Definition session_reachable (r : R) w : Prop :=
  ∃ url timeout net types,
    rtc (session_step r) {| w_session := new_session url timeout; w_net := net; w_types := types |} w.

(** ** Lemmas: what the calls change *)

Lemma frame_last_error message s : request_frame s (with_last_error message s).
Proof. split; auto. Qed.

Lemma frame_invalidated invalid message s :
  state_ s = connected → request_frame s (invalidated invalid (with_last_error message s)).
Proof. intros Hs. destruct invalid; split; simpl; auto. Qed.

Lemma frame_ok s s' : request_frame s s' → session_ok s → session_ok s'.
Proof.
  intros [_ _ Hregistry Hclient Hindex Hstate _]. unfold session_ok. rewrite Hregistry, Hclient, Hindex.
  destruct Hstate as [->|[-> ->]]; [done|auto].
Qed.

Lemma perform_frame request w :
  request_frame (w_session w) (w_session (perform request w).1) ∧ w_types (perform request w).1 = w_types w ∧
  (state_ (w_session w) ≠ connected → w_net (perform request w).1 = w_net w ∧
     state_ (w_session (perform request w).1) = state_ (w_session w) ∧
     ∃ message, (perform request w).2 = inr (reply_failed message)).
Proof.
  rewrite perform_spec. unfold request_spec.
  destruct (refused _ _ (w_session w)) as [message|] eqn:Hrefused, (client_ (w_session w)) as [client|] eqn:Hclient.
  1, 2, 4: (split_and!; [apply frame_last_error|done|eauto]).
  apply refused_None in Hrefused as (_ & Hup & _).
  destruct (service _ _ _ _) as [net [[what|]|[status|reply]]]; simpl;
    (split_and!; [|done|done]); eauto using frame_last_error, frame_invalidated.
  - by apply (frame_invalidated true).
  - reflexivity.
Qed.

Lemma ends_frame {A} clears error s M (P : list A → Prop) s' o :
  discovery_ends clears error s M P s' o →
  request_frame s s' ∧ (state_ s ≠ connected → state_ s' = state_ s).
Proof. destruct 1; split; simpl; auto; try done; split; auto. Qed.

Lemma found_names_fst {A} (name : A → string) m w :
  (found_names name m w).1 = (m w).1.
Proof. unfold found_names, mbind, IO_bind. by destruct (m w) as [w' [e|[l error]]]. Qed.

Lemma session_ok_registry s : session_ok s → state_ s = connected → is_Some (type_registry_ s).
Proof. unfold session_ok. intros Hok Hs. rewrite Hs in Hok. destruct Hok as (? & registry & _ & -> & _). eauto. Qed.

Lemma discovery_frame discovery error w :
  session_ok (w_session w) →
  let w' := (run_discovery discovery error w).1 in
  request_frame (w_session w) (w_session w') ∧ w_types w' = w_types w ∧
  (state_ (w_session w) ≠ connected → w_net w' = w_net w ∧ state_ (w_session w') = state_ (w_session w)).
Proof.
  intros Hok. destruct discovery; simpl; rewrite found_names_fst;
    match goal with |- context [(?m w).1] => destruct (m w) as [w' o] eqn:Hrun end;
    [apply discoverOperations_ends in Hrun|apply discoverValues_ends in Hrun
    |apply discoverServices_ends in Hrun|apply discoverPorts_ends in Hrun; [|by apply session_ok_registry]];
    destruct Hrun as (Hends & Htypes & Hnet); apply ends_frame in Hends as [Hframe Hstate]; simpl;
    split_and!; auto.
Qed.

Lemma description_frame component_name service_path description error w :
  let w' := (readServiceDescription component_name service_path description error w).1 in
  request_frame (w_session w) (w_session w') ∧ w_types w' = w_types w ∧
  (state_ (w_session w) ≠ connected → w_net w' = w_net w ∧ state_ (w_session w') = state_ (w_session w)).
Proof.
  destruct w as [s net types]. destruct description as [description|]; [|by split_and!; [apply frame_last_error|..]].
  unfold readServiceDescription. run_io.
  destruct (client_ s) as [client|]; [|by split_and!; [apply frame_last_error|..]].
  case_bool_decide as Hup; [|by split_and!; [apply frame_last_error|..]]. unfold model_id. run_io.
  match goal with
  | |- context [cs_readDescription client ?id net] =>
      destruct (cs_readDescription client id net) as [net1 [[what|]|[status|text]]]
  end; io_cbn;
    [destruct (client_isConnected client net1); io_cbn|..]; (split_and!; [|done|done]); split; simpl; auto.
Qed.

(** ** Lemmas: connecting *)

Lemma connect_inv (r : R) error w w' o :
  connect r error w = (w', o) →
  (o = inr (true, error) ∧ ∃ namespaces, connection (w_session w') namespaces) ∨
  (o = inr (false, assignError error (last_error_ (w_session w'))) ∧
     last_error_ (w_session w') ≠ "" ∧ state_ (w_session w') = disconnected ∧
     client_ (w_session w') = None ∧ type_registry_ (w_session w') = None) ∨
  o = inl other_exception ∧ state_ (w_session w') = connecting.
Proof.
  intros Hrun. unfold connect in Hrun.
  apply io_bind_inv in Hrun as [(w1 & [] & [= <-] & Hrun)|(? & [=] & _)].
  apply io_bind_inv in Hrun as [(w1 & [] & [= <-] & Hrun)|(? & [=] & _)].
  apply catch_std_inv in Hrun as [(w1 & what & Htry & Hrun)|[Htry Hno]].
  - right. left. destruct w1 as [s1 net1 types1]. revert Hrun. unfold reset_client. run_io.
    destruct (client_ s1) as [client|]; io_cbn; intros [= <- <-]; simpl;
      (split_and!; [done| |done..]); nonempty_text.
  - apply try_connect_inv in Htry as [Hok|[(message & -> & Hmessage & <- & Hfields)|(e & -> & Hstate)]]; [by left| | |done].
    + right. left. by destruct Hfields as (? & ? & ?).
    + right. right. destruct e as [what|]; [by destruct (Hno what)|done].
Qed.

Lemma connection_ok s namespaces : connection s namespaces → session_ok s.
Proof.
  intros [Hstate _ _ (index & Hfind & Hindex & Hlt) (registry & Hregistry & Hbound) [client Hclient]].
  unfold session_ok. rewrite Hstate. exists client, registry. rewrite Hindex. split_and!; [done|done|lia..|].
  apply list_find_Some in Hfind as (Hl & _ & _). rewrite (Hbound index _ Hl), N.mod_small; [done|lia].
Qed.

Lemma connect_ok (r : R) error w : session_ok (w_session (connect r error w).1).
Proof.
  destruct (connect r error w) as [w' o] eqn:Hrun.
  apply connect_inv in Hrun as [(-> & namespaces & Hc)|[(-> & _ & Hstate & Hclient & Hregistry)|(-> & Hstate)]];
    [by eapply connection_ok|..]; unfold session_ok; simpl; by rewrite Hstate.
Qed.

(** ** Lemmas: sequences of calls *)

Lemma run_event_ok (r : R) event w : session_ok (w_session w) → session_ok (w_session (run_event r event w)).
Proof.
  intros Hok. destruct event; simpl.
  - apply connect_ok.
  - eapply frame_ok; [apply perform_frame|done].
  - eapply frame_ok; [by apply discovery_frame|done].
  - eapply frame_ok; [apply description_frame|done].
  - by destruct w.
  - destruct w as [s net types]. unfold setInterfaceAccessEnabled. by destruct enabled.
Qed.

Lemma session_reachable_ok (r : R) w : session_reachable r w → session_ok (w_session w).
Proof.
  intros (url & timeout & net & types & Hsteps). revert w Hsteps.
  apply (rtc_ind_r (λ w, session_ok (w_session w))); [done|].
  intros w w' _ [event w1|w1 net1 types1] Hok; [by apply run_event_ok|done].
Qed.

(** The calls that do not connect. *)
Definition not_connect (event : session_event) : Prop :=
  match event with event_connect _ => False | _ => True end.

Lemma run_event_silent (r : R) event w :
  not_connect event → session_ok (w_session w) → state_ (w_session w) ≠ connected →
  w_net (run_event r event w) = w_net w ∧ state_ (w_session (run_event r event w)) = state_ (w_session w).
Proof.
  intros Hevent Hok Hstate. destruct event; simpl; [done|..].
  - by destruct (perform_frame request w) as (_ & _ & (? & ? & _)).
  - by destruct (discovery_frame discovery error w Hok) as (_ & _ & ?); auto.
  - by destruct (description_frame component_name service_path description error w) as (_ & _ & ?); auto.
  - by destruct w.
  - destruct w as [s net types]. unfold setInterfaceAccessEnabled. by destruct enabled.
Qed.

Definition run_events (r : R) (events : list session_event) w : world :=
  foldl (λ w event, run_event r event w) w events.

Lemma run_events_silent (r : R) events w :
  Forall not_connect events → session_ok (w_session w) → state_ (w_session w) ≠ connected →
  w_net (run_events r events w) = w_net w ∧ state_ (w_session (run_events r events w)) = state_ (w_session w).
Proof.
  intros Hevents. revert w. induction Hevents as [|event events Hevent _ IH]; intros w Hok Hstate; [done|].
  destruct (run_event_silent r event w) as [Hnet Hsame]; [done..|].
  destruct (IH (run_event r event w)) as [Hnet' Hsame']; [by apply run_event_ok|congruence|].
  simpl. split; congruence.
Qed.

(** ** Lemmas: what a discovery finds *)

Lemma found_names_inv {A} (name : A → string) m w w' names error :
  found_names name m w = (w', inr (names, error)) → ∃ l, m w = (w', inr (l, error)) ∧ names = name <$> l.
Proof.
  unfold found_names, mbind, IO_bind. destruct (m w) as [w1 [e|[l error']]]; [done|]. intros [= <- <- <-]. eauto.
Qed.

(** The conclusion of [discovery_names] for the end of one discovery. *)
Lemma ends_names {A} (name : A → string) clears error s M folder skipped exact (E : list A → Prop) s' l error' :
  discovery_ends clears error s M (λ l, listing folder skipped exact (name <$> l) ∧ E l) s' (inr (l, error')) →
  ascending (name <$> l) ∧
  if str_empty (last_error_ s')
  then listing (CN := CN) (Client := Client) (StatusCode := StatusCode) folder skipped exact (name <$> l) ∨
       (name <$> l = [] ∧ M)
  else name <$> l = [] ∧ error' = assignError error (last_error_ s').
Proof.
  assert (Hnil : ascending []) by (split; constructor).
  inversion 1 as [l1 Hup [Hl HE]|Hup HM|message Hmessage|message Hup Hmessage|]; simplify_eq/=.
  - split; [by destruct Hl|by left].
  - split; [done|by right].
  - apply str_empty_false in Hmessage as ->. done.
  - apply str_empty_false in Hmessage as ->. done.
Qed.

(** ** Properties *)

(** C20: Whatever was called and whatever the network did, a session that is
    connected, or was until it went stale, has a client and a registry and
    knows the library's namespace under a 16-bit index that its registry has
    bound to the namespace's URI; a disconnected session has neither. *)
Theorem session_invariant (r : R) w (Hreach : session_reachable r w) : session_ok (w_session w).
Proof. by eapply session_reachable_ok. Qed.

(** C32: How [connect] ends.  It returns [true] with the index at which the
    server's namespace array has the library's URI first, which is neither that
    of namespace zero nor wider than 16 bits, and with a registry that binds
    every namespace of the array to its position; or [false] without a client
    and a registry, with a text that the caller gets.  No [std::exception]
    escapes. *)
Theorem connect_outcome (r : R) error w w' o (Hrun : connect r error w = (w', o)) :
  match o with
  | inr (true, error') =>
      error' = error ∧ ∃ namespaces, connection (CN := CN) (DataType := DataType) (NodeId := NodeId)
        (StatusCode := StatusCode) (Variant := Variant) (w_session w') namespaces
  | inr (false, error') =>
      state_ (w_session w') = disconnected ∧ client_ (w_session w') = None ∧
      type_registry_ (w_session w') = None ∧ last_error_ (w_session w') ≠ "" ∧
      error' = assignError error (last_error_ (w_session w'))
  | inl e => e = other_exception
  end.
Proof.
  by apply connect_inv in Hrun as [[-> ?]|[(-> & ? & ? & ? & ?)|[-> _]]].
Qed.

(** C10: Each of the six requests is refused without a word to the network when
    the interface is not synchronized (a call by name does without) or the
    session not connected, and is one service call otherwise; a good status is
    the answer, another status or an exception a failure with its text; and the
    session goes stale exactly when an exception was thrown, the connection is
    lost or the status is one that invalidates the interface, to which for ports
    the inactive component does not belong. *)
Theorem request_refines (request : Request) w : perform request w = request_spec request w.
Proof. apply perform_spec. Qed.

(** C21: A session that is not connected is silent: until it is connected
    again, no sequence of requests, discoveries and changes of access reaches
    the network or changes the connection state, and every request fails. *)
Theorem stale_silent (r : R) events w (Hevents : Forall not_connect events) (Hreach : session_reachable r w)
    (Hstate : state_ (w_session w) ≠ connected) :
  let w' := run_events r events w in
  w_net w' = w_net w ∧ state_ (w_session w') = state_ (w_session w) ∧
  ∀ request, w_net (perform request w').1 = w_net w ∧
    ∃ message, (perform request w').2 = inr (reply_failed message).
Proof.
  apply session_reachable_ok in Hreach.
  destruct (run_events_silent r events w Hevents Hreach Hstate) as [Hnet Hsame]. cbv zeta. rewrite Hnet, Hsame.
  split_and!; [done..|]. intros request.
  destruct (perform_frame request (run_events r events w)) as (_ & _ & (Hn & _ & Hm)); [congruence|].
  by rewrite Hn.
Qed.

(** C33: A discovery returns distinct names in ascending order.  Without an
    error they are the names of the local references that the server listed in
    the category's folder, without the empty ones (and "this" for services),
    where for ports outputs without a value may be missing; or there are none,
    because the server has no such folder.  With an error there are none, and
    the caller gets its text. *)
Theorem discovery_names discovery error w w' names error' (Hok : session_ok (w_session w))
    (Hrun : run_discovery discovery error w = (w', inr (names, error'))) :
  let folder := folder_of discovery (namespace_index_ (w_session w)) in
  ascending names ∧
  if str_empty (last_error_ (w_session w'))
  then listing (CN := CN) (Client := Client) (StatusCode := StatusCode) folder (skipped_by discovery)
         (exact_by discovery) names ∨
       (names = [] ∧ missing (CN := CN) (Client := Client) (StatusCode := StatusCode) folder)
  else names = [] ∧ error' = assignError error (last_error_ (w_session w')).
Proof.
  destruct discovery; simpl in Hrun; apply found_names_inv in Hrun as (l & Hrun & ->);
    [apply discoverOperations_ends in Hrun as [Hends _]|apply discoverValues_ends in Hrun as [Hends _]
    |apply discoverServices_ends in Hrun as [Hends _]
    |apply discoverPorts_ends in Hrun as [Hends _]; [|by apply session_ok_registry]];
    by eapply ends_names.
Qed.

(** What is discovered can be used: an operation has one source for each
    output and either no or as many names and descriptions as inputs, and a
    port has a value codec in the session's registry and the node that the
    server publishes for its value. *)
Theorem discovered_usable component_name service_path error w (Hok : session_ok (w_session w)) :
  (∀ w' operations error', discoverOperations component_name service_path error w =
     (w', inr (operations, error')) → Forall operation_consistent operations) ∧
  (∀ w' ports error', discoverPorts component_name service_path error w = (w', inr (ports, error')) →
     Forall (λ port, ∃ registry, type_registry_ (w_session w) = Some registry ∧
       port_usable registry component_name service_path (namespace_index_ (w_session w)) port) ports).
Proof.
  split; intros w' l error' Hrun.
  - apply discoverOperations_ends in Hrun as [Hends _].
    inversion Hends as [l1 Hup [Hl HE]|Hup HM|message Hmessage|message Hup Hmessage|]; by simplify_eq/=.
  - apply discoverPorts_ends in Hrun as [Hends _]; [|by apply session_ok_registry].
    inversion Hends as [l1 Hup [Hl HE]|Hup HM|message Hmessage|message Hup Hmessage|]; by simplify_eq/=.
Qed.
End spec.

(** ** Witnesses *)

Lemma arm_connected_reachable : session_reachable arm_types arm_connected.
Proof.
  exists "opc.tcp://arm:4840", 2000%Z, (arm_net arm_namespaces), initial_registry.
  apply rtc_once. exact (step_event arm_types (event_connect None) (start_world arm_namespaces)).
Qed.

Lemma session_invariant_witness : session_ok (w_session arm_connected).
Proof. exact (session_invariant arm_types arm_connected arm_connected_reachable). Defined.

Lemma connect_outcome_witness :
  ∃ namespaces, connection (CN := c_Net) (DataType := c_DataType) (NodeId := c_NodeId)
    (StatusCode := option UaStatus) (Variant := c_Remote) (w_session arm_connected) namespaces.
Proof.
  assert (Hresult : (connect arm_types None (start_world arm_namespaces)).2 = inr (true, None))
    by (vm_compute; reflexivity).
  refine (proj2 (connect_outcome arm_types None (start_world arm_namespaces) arm_connected
    (inr (true, None)) _)).
  rewrite <-Hresult. apply surjective_pairing.
Defined.

(** The endpoint goes down, and the next request notices. *)
Definition arm_down : c_SessionWorld :=
  {| w_session := w_session arm_connected; w_net := set_up false (w_net arm_connected);
     w_types := w_types arm_connected |}.

Definition arm_stale : c_SessionWorld :=
  run_event arm_types (event_request (request_operation "arm" [] "move" [])) arm_down.

Lemma arm_stale_reachable : session_reachable arm_types arm_stale.
Proof.
  destruct arm_connected_reachable as (url & timeout & net & types & Hsteps).
  exists url, timeout, net, types. eapply rtc_r; [eapply rtc_r; [exact Hsteps|]|].
  - exact (step_elsewhere arm_types arm_connected (set_up false (w_net arm_connected)) (w_types arm_connected)).
  - exact (step_event arm_types (event_request (request_operation "arm" [] "move" [])) arm_down).
Qed.

Lemma stale_silent_witness :
  let w' := run_events arm_types [event_access true; event_discovery (discovery_services "arm" []) None] arm_stale in
  w_net w' = w_net arm_stale ∧ state_ (w_session w') = state_ (w_session arm_stale) ∧
  ∀ request, w_net (perform request w').1 = w_net arm_stale ∧
    ∃ message, (perform request w').2 = inr (reply_failed message).
Proof.
  refine (stale_silent arm_types _ arm_stale _ arm_stale_reachable _); [by repeat constructor|].
  apply (bool_decide_unpack _). vm_compute. exact I.
Defined.

Definition arm_ports := run_discovery (discovery_ports "arm" []) None arm_connected.

Lemma discovery_names_witness :
  let folder := folder_of (discovery_ports "arm" []) (namespace_index_ (w_session arm_connected)) in
  ascending ["target"] ∧
  (listing (CN := c_Net) (Client := unit) (StatusCode := option UaStatus) folder
     (skipped_by (discovery_ports "arm" [])) (exact_by (discovery_ports "arm" [])) ["target"] ∨
   (["target"] = [] ∧ missing (CN := c_Net) (Client := unit) (StatusCode := option UaStatus) folder)).
Proof.
  assert (Hrun : arm_ports = (arm_ports.1, inr (["target"], None))).
  { assert (Hresult : arm_ports.2 = inr (["target"], None)) by (vm_compute; reflexivity).
    rewrite <-Hresult. apply surjective_pairing. }
  assert (Hnone : str_empty (last_error_ (w_session arm_ports.1)) = true) by (vm_compute; reflexivity).
  pose proof (discovery_names (discovery_ports "arm" []) None arm_connected arm_ports.1 ["target"] None
    (session_reachable_ok arm_types arm_connected arm_connected_reachable) Hrun) as Hnames.
  rewrite Hnone in Hnames. exact Hnames.
Defined.

Lemma discovered_usable_witness :
  (∀ w' operations error', discoverOperations "arm" [] None arm_connected = (w', inr (operations, error')) →
     Forall operation_consistent operations) ∧
  (∀ w' ports error', discoverPorts "arm" [] None arm_connected = (w', inr (ports, error')) →
     Forall (λ port, ∃ registry, type_registry_ (w_session arm_connected) = Some registry ∧
       port_usable registry "arm" [] (namespace_index_ (w_session arm_connected)) port) ports).
Proof.
  refine (discovered_usable "arm" [] None arm_connected _).
  exact (session_reachable_ok arm_types arm_connected arm_connected_reachable).
Defined.
