(* ===== verification/RemotePort.v ===== *)
(** The local mirror of a remote port (src/src/remote_port.cpp, remote_port.hpp):
    the adapter that moves samples between a local port and the value variable
    of the remote one, one pump at a time. *)

From S2P Require Import Prelude NodeId Native Concrete DataTypeRegistry TypeProtocol EndpointTypeRegistry.
From S2P Require Import OperationDispatcher PortDataSources AddressSpace NodeSpecs Client ClientDiscovery.

(** ** What RTT provides *)

Inductive FlowStatus := NoData | OldData | NewData.

#[global] Instance FlowStatus_eq_dec : EqDecision FlowStatus.
Proof. solve_decision. Defined.

(** Ports made from a type info and what the adapter asks of them; reading a
    port stores the sample in a data source. *)
Class LocalPorts (W DS Port TypeInfo : Type) := {
  ti_inputPort : TypeInfo → string → IO W (option Port);
  ti_outputPort : TypeInfo → string → IO W (option Port);
  ti_buildValue : TypeInfo → IO W (option DS);
  port_doc : Port → string → IO W unit;
  port_connected : Port → W → bool;
  port_hasInterface : Port → W → bool; (* [getInterface() != nullptr] *)
  port_read : Port → DS → IO W FlowStatus; (* [read(source, false)] *)
}.

Section remote_port.
Context {W DS Port Variant NodeId UA_DataType DataType TypeInfo R CN Client StatusCode : Type}.
Context `{EqDecision TypeInfo} `{!Countable TypeInfo}.
Context `{NodeIds NodeId} `{DataTypes NodeId UA_DataType DataType}.
Context `{StatusCodes StatusCode} `{!StatusConstants StatusCode}.
Context `{!ClientServices CN Client NodeId Variant DataType StatusCode}.
Context `{!RttPorts W DS Port TypeInfo} `{!LocalPorts W DS Port TypeInfo}.
Notation TypeCodec := (TypeCodec W DS Port Variant NodeId UA_DataType).
Notation TypeProtocol := (TypeProtocol W DS Port Variant NodeId UA_DataType).
Notation EndpointTypeRegistry := (EndpointTypeRegistry UA_DataType DataType TypeInfo TypeCodec).
Context `{TypeInfos TypeInfo R TypeProtocol}.
Notation session_world := (@world W DS Port Variant NodeId UA_DataType DataType TypeInfo CN Client _ _).
Notation RemotePortDescription := (RemotePortDescription NodeId).
(** [opcua::Variant encoded]. *)
Context (empty_variant : Variant).

(** ** State *)

Record RemotePortAdapter := {
  description_ : RemotePortDescription;
  adapter_registry : EndpointTypeRegistry;
  type_info_ : TypeInfo;
  codec_ : TypeCodec;
  port_ : option Port;
  pending_input_source_ : option DS;
  pending_input_ : option Variant;
  pending_output_ : option DS;
  adapter_error : string;
}.

(** The adapter, its session and the RTT heap. *)
Record port_world := {
  pw_adapter : RemotePortAdapter;
  pw_session : session_world;
  pw_rtt : W;
}.

Definition with_pending (source : option DS) (input : option Variant) (output : option DS)
    (a : RemotePortAdapter) : RemotePortAdapter :=
  {| description_ := description_ a; adapter_registry := adapter_registry a; type_info_ := type_info_ a;
     codec_ := codec_ a; port_ := port_ a; pending_input_source_ := source; pending_input_ := input;
     pending_output_ := output; adapter_error := adapter_error a |}.

Definition with_adapter_error (error : string) (a : RemotePortAdapter) : RemotePortAdapter :=
  {| description_ := description_ a; adapter_registry := adapter_registry a; type_info_ := type_info_ a;
     codec_ := codec_ a; port_ := port_ a; pending_input_source_ := pending_input_source_ a;
     pending_input_ := pending_input_ a; pending_output_ := pending_output_ a; adapter_error := error |}.

Definition update_adapter (f : RemotePortAdapter → RemotePortAdapter) : IO port_world unit :=
  io_modify (λ w, {| pw_adapter := f (pw_adapter w); pw_session := pw_session w; pw_rtt := pw_rtt w |}).

Definition adapter {A} (f : RemotePortAdapter → A) : IO port_world A := io_gets (λ w, f (pw_adapter w)).

Definition on_session {A} (m : IO session_world A) : IO port_world A := λ w,
  let '(session, result) := m (pw_session w) in
  ({| pw_adapter := pw_adapter w; pw_session := session; pw_rtt := pw_rtt w |}, result).

Definition on_heap {A} (m : IO W A) : IO port_world A := λ w,
  let '(rtt, result) := m (pw_rtt w) in
  ({| pw_adapter := pw_adapter w; pw_session := pw_session w; pw_rtt := rtt |}, result).

Definition setError (error : string) : IO port_world unit := update_adapter (with_adapter_error error).
Definition clear_error : IO port_world unit := update_adapter (with_adapter_error "").

(** ** Construction and destruction *)

(** [RemotePortAdapter::create]; [session] is [None] for a null pointer. *)
Definition create_adapter (r : R) (session : option session_world) (description : RemotePortDescription)
    (error : option string) : IO W (option RemotePortAdapter * option string) :=
  let type_info := types_type r (rpd_type_name description) in
  let type_registry := session ≫= λ s, type_registry_ (w_session s) in
  let codec :=
    registry ← type_registry; type_info ← type_info;
    codec ← codecForTypeInfo registry type_info; deref_codec registry codec in
  match type_registry, type_info, codec with
  | Some registry, Some type_info, Some codec =>
      if negb (hasValue codec)
      then mret (None, assignError error ("remote port '" +:+ rpd_name description +:+
                   "' uses unsupported RTT type '" +:+ rpd_type_name description +:+ "'"))
      else
        port ← match rpd_direction description with
               | direction_input => ti_inputPort type_info (rpd_name description)
               | direction_output => ti_outputPort type_info (rpd_name description)
               end;
        match port with
        | None => mret (None, assignError error ("failed to construct remote RTT port '" +:+
                          rpd_name description +:+ "'"))
        | Some port =>
            catch_all (port_doc port (rpd_description description))
              (λ e, io_modify (destroyPort port) ;; io_throw e) ;;
            mret (Some {| description_ := description; adapter_registry := registry;
                          type_info_ := type_info; codec_ := codec; port_ := Some port;
                          pending_input_source_ := None; pending_input_ := None;
                          pending_output_ := None; adapter_error := "" |},
                  assignError error "")
        end
  | _, _, _ => mret (None, assignError error ("remote port '" +:+ rpd_name description +:+
                       "' uses unsupported RTT type '" +:+ rpd_type_name description +:+ "'"))
  end.

(** [~RemotePortAdapter]: a port that an interface still points to, or that
    cannot be disconnected, is released instead of deleted. *)
Definition destroy_adapter (a : RemotePortAdapter) : IO W unit := λ w,
  match port_ a with
  | None => (w, inr tt)
  | Some port =>
      if port_hasInterface port w then (w, inr tt)
      else match disconnect port w with
           | (w, inl _) => (w, inr tt)
           | (w, inr _) => (destroyPort port w, inr tt)
           end
  end.

(** ** Pumping *)

(** The first part of [pumpInput]: a sample to send, if there is one. *)
Definition fetch_input (input : Port) : IO port_world bool :=
  a ← adapter id;
  match pending_input_source_ a, pending_input_ a with
  | None, None =>
      connected ← io_gets (λ w, port_connected input (pw_rtt w));
      if negb connected then mret false
      else
        value ← on_heap (ti_buildValue (type_info_ a));
        match value with
        | None => mret false
        | Some value =>
            status ← on_heap (port_read input value);
            if bool_decide (status = NewData) then
              update_adapter (λ a, with_pending (Some value) (pending_input_ a) (pending_output_ a) a) ;;
              mret true
            else mret false
        end
  | _, _ => mret true
  end.

(** The second part: the sample encoded. *)
Definition encode_input : IO port_world bool :=
  a ← adapter id;
  match pending_input_ a with
  | Some _ => mret true
  | None =>
      '(encoded, value) ← on_heap (toVariant (codec_ a) (pending_input_source_ a) (Some empty_variant));
      if negb encoded then
        setError ("failed to encode pending sample for remote input port '" +:+
                  rpd_name (description_ a) +:+ "'") ;;
        mret false
      else
        update_adapter (λ a, with_pending None (Some (default empty_variant value)) (pending_output_ a) a) ;;
        mret true
  end.

(** The rest: the encoded sample sent. *)
Definition send_input : IO port_world unit :=
  a ← adapter id;
  match pending_input_ a with
  | None => mret tt
  | Some value =>
      written ← on_session (writePortValue (rpd_value_id (description_ a)) value);
      if negb written then
        error ← io_gets (λ w, session_lastError (w_session (pw_session w)));
        setError error
      else
        update_adapter (λ a, with_pending (pending_input_source_ a) None (pending_output_ a) a) ;;
        clear_error
  end.

(** A port that is not an input port has no casts to follow. *)
Definition as_input (a : RemotePortAdapter) : option Port :=
  port ← port_ a; if is_InputPort port then Some port else None.
Definition as_output (a : RemotePortAdapter) : option Port :=
  port ← port_ a; if is_OutputPort port then Some port else None.

Definition pumpInput : IO port_world unit :=
  input ← adapter as_input;
  match input with
  | None => mret tt
  | Some input =>
      fetched ← fetch_input input;
      if negb fetched then mret tt
      else
        encoded ← encode_input;
        if negb encoded then mret tt else send_input
  end.

(** [output->write(pending_output_)] and what follows it. *)
Definition write_output (output : Port) (sample : DS) : IO port_world unit :=
  status ← on_heap (port_write output sample);
  name ← adapter (λ a, rpd_name (description_ a));
  match status with
  | WriteSuccess =>
      update_adapter (λ a, with_pending (pending_input_source_ a) (pending_input_ a) None a) ;;
      clear_error
  | NotConnected =>
      setError ("local mirror for remote output port '" +:+ name +:+ "' returned NotConnected")
  | WriteFailure =>
      setError ("local mirror for remote output port '" +:+ name +:+ "' returned WriteFailure")
  end.

Definition pumpOutput : IO port_world unit :=
  output ← adapter as_output;
  match output with
  | None => mret tt
  | Some output =>
      connected ← io_gets (λ w, port_connected output (pw_rtt w));
      if negb connected then mret tt
      else
        a ← adapter id;
        match pending_output_ a with
        | Some sample => write_output output sample
        | None =>
            result ← on_session (readPortValue (rpd_value_id (description_ a)));
            match rpr_status result with
            | read_waiting => clear_error
            | read_failed => setError (rpr_error result)
            | read_value =>
                sample ← on_heap (makeDataSource (codec_ a) (default empty_variant (rpr_value result)));
                update_adapter (λ a, with_pending (pending_input_source_ a) (pending_input_ a) sample a) ;;
                match sample with
                | None => setError ("failed to decode sample from remote output port '" +:+
                                    rpd_name (description_ a) +:+ "'")
                | Some sample => write_output output sample
                end
            end
        end
  end.

Definition pump : IO port_world unit :=
  description ← adapter description_;
  catch_all
    (match rpd_direction description with
     | direction_input => pumpInput
     | direction_output => pumpOutput
     end)
    (λ e,
     match e with
     | std_exception what =>
         setError ("remote port '" +:+ rpd_name description +:+ "' pump failed: " +:+ what)
     | other_exception =>
         setError ("remote port '" +:+ rpd_name description +:+ "' pump failed with an unknown error")
     end).

(** ** Replacement *)

Definition hasPendingState (a : RemotePortAdapter) : bool :=
  bool_decide (is_Some (pending_input_source_ a)) || bool_decide (is_Some (pending_input_ a)) ||
  bool_decide (is_Some (pending_output_ a)).

Definition hasSameIdentity (a other : RemotePortAdapter) : bool :=
  String.eqb (rpd_name (description_ a)) (rpd_name (description_ other)) &&
  String.eqb (rpd_type_name (description_ a)) (rpd_type_name (description_ other)) &&
  bool_decide (rpd_service_path (description_ a) = rpd_service_path (description_ other)) &&
  bool_decide (rpd_direction (description_ a) = rpd_direction (description_ other)).

Definition canTransferStateTo (a replacement : RemotePortAdapter) : bool := hasSameIdentity a replacement.

(** The adapter, the replacement and the answer; a moved-from string is empty. *)
Definition transferPendingStateTo (a replacement : RemotePortAdapter) :
    RemotePortAdapter * RemotePortAdapter * bool :=
  if negb (hasSameIdentity a replacement) then (a, replacement, false)
  else
    (with_adapter_error ""
       (with_pending (pending_input_source_ replacement) (pending_input_ replacement)
          (pending_output_ replacement) a),
     with_adapter_error (adapter_error a)
       (with_pending (pending_input_source_ a) (pending_input_ a) (pending_output_ a) replacement),
     true).

Definition discardPendingState (a : RemotePortAdapter) : RemotePortAdapter :=
  with_adapter_error "" (with_pending None None None a).

Definition adapter_name (a : RemotePortAdapter) : string := rpd_name (description_ a).
Definition adapter_lastError (a : RemotePortAdapter) : string := adapter_error a.
End remote_port.

(** ** Specification *)

(** [d] is [l] with every element repeated, at least once. *)
Inductive repeats {A} : list A → list A → Prop :=
  | repeats_nil : repeats [] []
  | repeats_cons x n l d : repeats l d → repeats (x :: l) (replicate (S n) x ++ d).

(** What is observed of a port and a variable: the samples that wait in a local
    input port, those that were written to a local output port, the sample a
    data source holds, the values that arrived at a variable and those that were
    read from it; and what the codec makes of a sample and of a value. *)
Class PortTraces (Sample W DS Port CN NodeId Variant : Type) := {
  port_queue : Port → W → list Sample;
  port_written : Port → W → list Sample;
  ds_sample : DS → W → option Sample;
  delivered : NodeId → CN → list Variant;
  observed : NodeId → CN → list Variant;
  encode : Sample → Variant;
  decode : Variant → option Sample;
}.

(** Reading a port takes the first sample; a write that fails may have arrived;
    a codec encodes what the data source holds and leaves it alone. *)
Record channel_laws {Sample W DS Port CN Client NodeId Variant DataType StatusCode UA_DataType TypeInfo : Type}
    `{!PortTraces Sample W DS Port CN NodeId Variant} `{StatusCodes StatusCode}
    `{!ClientServices CN Client NodeId Variant DataType StatusCode}
    `{!RttPorts W DS Port TypeInfo} `{!LocalPorts W DS Port TypeInfo}
    (codec : TypeCodec W DS Port Variant NodeId UA_DataType) (type_info : TypeInfo) (port : Port) : Prop := {
  cl_build w w' o : ti_buildValue type_info w = (w', o) → port_queue port w' = port_queue port w;
  cl_read ds w w' o : port_read port ds w = (w', o) →
    match o with
    | inr NewData => ∃ x, port_queue port w = x :: port_queue port w' ∧ ds_sample ds w' = Some x
    | _ => port_queue port w' = port_queue port w
    end;
  cl_toVariant ds v w w' o : toVariant codec (Some ds) v w = (w', o) →
    port_queue port w' = port_queue port w ∧ ds_sample ds w' = ds_sample ds w ∧
    ∀ out, o = inr (true, out) → out = encode <$> ds_sample ds w;
  cl_write ds w w' o : port_write port ds w = (w', o) →
    ds_sample ds w' = ds_sample ds w ∧
    port_written port w' =
      port_written port w ++ (if o is inr WriteSuccess then option_list (ds_sample ds w) else []);
  cl_make v w w' o : makeDataSource codec v w = (w', o) →
    port_written port w' = port_written port w ∧
    match o with
    | inr (Some ds) => is_Some (decode v) ∧ ds_sample ds w' = decode v
    | _ => decode v = None
    end;
  cl_send client id v net net' o : cs_writeValue client id v net = (net', o) →
    delivered id net' = delivered id net ++ [v] ∨
    delivered id net' = delivered id net ∧ ∀ status, o = inr status → status_isGood status = false;
  cl_receive client id net net' o : cs_readValue client id net = (net', o) →
    observed id net' = observed id net ++ (if o is inr (inr v) then [v] else []);
}.

Section facts.
Context {Sample W DS Port Variant NodeId UA_DataType DataType TypeInfo R CN Client StatusCode : Type}.
Context `{EqDecision TypeInfo} `{!Countable TypeInfo}.
Context `{NodeIds NodeId} `{DataTypes NodeId UA_DataType DataType}.
Context `{StatusCodes StatusCode} `{!StatusConstants StatusCode}.
Context `{!ClientServices CN Client NodeId Variant DataType StatusCode}.
Context `{!RttPorts W DS Port TypeInfo} `{!LocalPorts W DS Port TypeInfo}.
Context `{!PortTraces Sample W DS Port CN NodeId Variant}.
Notation TypeCodec := (TypeCodec W DS Port Variant NodeId UA_DataType).
Notation session_world := (@world W DS Port Variant NodeId UA_DataType DataType TypeInfo CN Client _ _).
Notation port_world :=
  (@port_world W DS Port Variant NodeId UA_DataType DataType TypeInfo CN Client _ _).
Notation RemotePortAdapter :=
  (@RemotePortAdapter W DS Port Variant NodeId UA_DataType DataType TypeInfo _ _).
Context (empty_variant : Variant).
Implicit Types (w : port_world) (a : RemotePortAdapter).

(** The value on its way to the server, and the sample on its way to the port. *)
Definition input_flight w : list Variant :=
  match pending_input_ (pw_adapter w) with
  | Some value => [value]
  | None =>
      match pending_input_source_ (pw_adapter w) with
      | Some source => encode <$> option_list (ds_sample source (pw_rtt w))
      | None => []
      end
  end.

Definition output_flight w : list Sample :=
  match pending_output_ (pw_adapter w) with
  | Some sample => option_list (ds_sample sample (pw_rtt w))
  | None => []
  end.

Definition value_id w : NodeId := rpd_value_id (description_ (pw_adapter w)).
Definition waiting (port : Port) w : list Variant := encode <$> port_queue port (pw_rtt w).
Definition arrived (id : NodeId) w : list Variant := delivered id (w_net (pw_session w)).

(** What does not change about an adapter. *)
Definition same_channel w w' : Prop :=
  description_ (pw_adapter w') = description_ (pw_adapter w) ∧
  type_info_ (pw_adapter w') = type_info_ (pw_adapter w) ∧
  codec_ (pw_adapter w') = codec_ (pw_adapter w) ∧ port_ (pw_adapter w') = port_ (pw_adapter w).

(** The adapter of an input port [port]. *)
Definition input_adapter (port : Port) w : Prop :=
  rpd_direction (description_ (pw_adapter w)) = direction_input ∧
  port_ (pw_adapter w) = Some port ∧ is_InputPort port = true ∧
  channel_laws (CN := CN) (Client := Client) (DataType := DataType) (StatusCode := StatusCode)
    (codec_ (pw_adapter w)) (type_info_ (pw_adapter w)) port.

Definition output_adapter (port : Port) w : Prop :=
  rpd_direction (description_ (pw_adapter w)) = direction_output ∧
  port_ (pw_adapter w) = Some port ∧ is_OutputPort port = true ∧
  channel_laws (CN := CN) (Client := Client) (DataType := DataType) (StatusCode := StatusCode)
    (codec_ (pw_adapter w)) (type_info_ (pw_adapter w)) port.

(** A pending source holds a sample, and there is none next to an encoded one. *)
Definition sourced w : Prop :=
  match pending_input_ (pw_adapter w), pending_input_source_ (pw_adapter w) with
  | None, Some source => is_Some (ds_sample source (pw_rtt w))
  | Some _, Some _ => False
  | _, _ => True
  end.

(** What one part of a pump does to the stream of an input port. *)
Inductive input_move (port : Port) w w' : Prop :=
  | move_none : input_flight w' = input_flight w → waiting port w' = waiting port w →
      arrived (value_id w) w' = arrived (value_id w) w → input_move port w w'
  | move_fetch v : input_flight w = [] → input_flight w' = [v] → waiting port w = v :: waiting port w' →
      arrived (value_id w) w' = arrived (value_id w) w → input_move port w w'
  | move_sent v : input_flight w = [v] → input_flight w' = [] → waiting port w' = waiting port w →
      arrived (value_id w) w' = arrived (value_id w) w ++ [v] → input_move port w w'
  | move_retry v : input_flight w = [v] → input_flight w' = [v] → waiting port w' = waiting port w →
      arrived (value_id w) w' = arrived (value_id w) w ++ [v] → input_move port w w'.

(** The produced values are those sent, the one in flight and those waiting; the
    ones sent arrived in order, some perhaps more than once, and the one in
    flight may have arrived [n] times. *)
Definition input_conserved (port : Port) (base produced : list Variant) w : Prop :=
  ∃ sent d n, produced = sent ++ input_flight w ++ waiting port w ∧ repeats sent d ∧
    arrived (value_id w) w = base ++ d ++ mjoin (replicate n (input_flight w)).

(** ** Lemmas: input *)

Ltac run_port :=
  unfold setError, clear_error, update_adapter, adapter, on_session, on_heap; run_io.

Lemma same_channel_refl w : same_channel w w.
Proof. done. Qed.

Lemma repeats_snoc {A} (x : A) n l d : repeats l d → repeats (l ++ [x]) (d ++ replicate (S n) x).
Proof.
  induction 1 as [|y m l d _ IH]; simpl.
  - rewrite <-(app_nil_r (replicate n x)). apply (repeats_cons x n [] []). constructor.
  - rewrite <-app_assoc. by apply (repeats_cons y m).
Qed.

Lemma mjoin_replicate {A} (x : A) n : mjoin (replicate n [x]) = replicate n x.
Proof. induction n as [|n IH]; simpl; congruence. Qed.

Lemma mjoin_replicate_nil {A} n : mjoin (replicate n ([] : list A)) = [].
Proof. by induction n. Qed.

(** The moves keep the stream. *)
Lemma input_move_conserved port base produced w w' :
  same_channel w w' → input_move port w w' →
  input_conserved port base produced w → input_conserved port base produced w'.
Proof.
  intros (Hdescription & _) Hmove (sent & d & n & Hproduced & Hrepeats & Harrived).
  unfold input_conserved. assert (Hid : value_id w' = value_id w) by (unfold value_id; by rewrite Hdescription).
  rewrite Hid. destruct Hmove as [Hf Hq Ha|v Hf Hf' Hq Ha|v Hf Hf' Hq Ha|v Hf Hf' Hq Ha].
  - exists sent, d, n. by rewrite Hf, Hq, Ha.
  - exists sent, d, 0. rewrite Hf' , Ha, Harrived, Hproduced, Hf, Hq, mjoin_replicate_nil. by split_and!.
  - exists (sent ++ [v]), (d ++ replicate (S n) v), 0.
    rewrite Hf', Hq, Ha, Harrived, Hproduced, Hf, mjoin_replicate. split_and!; [by rewrite <-!app_assoc| |].
    + by apply repeats_snoc.
    + rewrite <-!app_assoc, app_nil_r. f_equal. f_equal. by rewrite <-replicate_S_end.
  - exists sent, d, (S n). rewrite Hf', Hq, Ha, Harrived, Hproduced, Hf. split_and!; [done..|].
    rewrite !mjoin_replicate, <-!app_assoc. f_equal. f_equal. by rewrite <-replicate_S_end.
Qed.

Lemma fetch_input_move port w w' o :
  input_adapter port w → sourced w → fetch_input port w = (w', o) →
  same_channel w w' ∧ sourced w' ∧ input_move port w w' ∧
  (o = inr true → is_Some (pending_input_ (pw_adapter w')) ∨ is_Some (pending_input_source_ (pw_adapter w'))).
Proof.
  intros (_ & _ & _ & Hlaws) Hsourced. destruct w as [a session rtt]. unfold fetch_input. run_port.
  simpl in Hlaws. destruct (pending_input_source_ a) as [source|] eqn:Hsource.
  { intros [= <- <-]. split_and!; try done; [by apply move_none|]. simpl. rewrite Hsource. eauto. }
  destruct (pending_input_ a) as [value|] eqn:Hvalue.
  { intros [= <- <-]. split_and!; try done; [by apply move_none|]. simpl. rewrite Hvalue. eauto. }
  assert (Hnone : ∀ rtt' : W, port_queue port rtt' = port_queue port rtt →
    ∀ w2, w2 = {| pw_adapter := a; pw_session := session; pw_rtt := rtt' |} →
    same_channel {| pw_adapter := a; pw_session := session; pw_rtt := rtt |} w2 ∧ sourced w2 ∧
    input_move port {| pw_adapter := a; pw_session := session; pw_rtt := rtt |} w2).
  { intros rtt' Hq w2 ->. split_and!; [done|unfold sourced; simpl; by rewrite Hsource, Hvalue|].
    apply move_none; [|unfold waiting; simpl; congruence|done].
    unfold input_flight. simpl. by rewrite Hsource, Hvalue. }
  io_cbn. destruct (port_connected port rtt) eqn:Hconnected; io_cbn.
  2: { intros [= <- <-]. destruct (Hnone rtt eq_refl _ eq_refl) as (? & ? & ?). by split_and!. }
  destruct (ti_buildValue (type_info_ a) rtt) as [rtt1 [e|[value|]]] eqn:Hbuild;
    pose proof (cl_build _ _ _ Hlaws _ _ _ Hbuild) as Hq1; io_cbn.
  1, 3: intros [= <- <-]; destruct (Hnone rtt1 Hq1 _ eq_refl) as (? & ? & ?); by split_and!.
  destruct (port_read port value rtt1) as [rtt2 [e|status]] eqn:Hread;
    pose proof (cl_read _ _ _ Hlaws _ _ _ _ Hread) as Hq2; io_cbn.
  { intros [= <- <-]. destruct (Hnone rtt2 (eq_trans Hq2 Hq1) _ eq_refl) as (? & ? & ?). by split_and!. }
  case_bool_decide as Hstatus; io_cbn.
  - subst status. destruct Hq2 as (x & Hq2 & Hx). intros [= <- <-].
    split_and!; [done|unfold sourced; simpl; by rewrite Hvalue, Hx| |intros _; right; eauto].
    apply (move_fetch _ _ _ (encode x)); unfold input_flight, waiting; simpl; rewrite ?Hsource, ?Hvalue; try done.
    + by rewrite Hx.
    + by rewrite <-Hq1, Hq2.
  - intros [= <- <-]. assert (Hq : port_queue port rtt2 = port_queue port rtt1) by (by destruct status).
    destruct (Hnone rtt2 (eq_trans Hq Hq1) _ eq_refl) as (? & ? & ?). by split_and!.
Qed.

Lemma encode_input_move port w w' o :
  input_adapter port w → sourced w →
  is_Some (pending_input_ (pw_adapter w)) ∨ is_Some (pending_input_source_ (pw_adapter w)) →
  encode_input empty_variant w = (w', o) →
  same_channel w w' ∧ sourced w' ∧ input_move port w w' ∧
  (o = inr true → ∃ value, pending_input_ (pw_adapter w') = Some value ∧
     pending_input_source_ (pw_adapter w') = None).
Proof.
  intros (_ & _ & _ & Hlaws) Hsourced Hpending. destruct w as [a session rtt]. unfold encode_input. run_port.
  simpl in Hlaws, Hpending. unfold sourced in Hsourced. simpl in Hsourced.
  destruct (pending_input_ a) as [value|] eqn:Hvalue.
  { intros [= <- <-]. destruct (pending_input_source_ a) eqn:Hsource; [done|].
    split_and!; [done|unfold sourced; simpl; by rewrite Hvalue, Hsource|by apply move_none|].
    intros _. simpl. eauto. }
  destruct (pending_input_source_ a) as [source|] eqn:Hsource; [|by destruct Hpending as [[]|[]]]. io_cbn.
  destruct Hsourced as [x Hx].
  destruct (toVariant (codec_ a) (Some source) (Some empty_variant) rtt) as [rtt1 o1] eqn:Hencode.
  destruct (cl_toVariant _ _ _ Hlaws _ _ _ _ _ Hencode) as (Hq & Hds & Hout).
  assert (Hkeep : ∀ error w2,
    w2 = {| pw_adapter := with_adapter_error error a; pw_session := session; pw_rtt := rtt1 |} ∨
    w2 = {| pw_adapter := a; pw_session := session; pw_rtt := rtt1 |} →
    same_channel {| pw_adapter := a; pw_session := session; pw_rtt := rtt |} w2 ∧ sourced w2 ∧
    input_move port {| pw_adapter := a; pw_session := session; pw_rtt := rtt |} w2).
  { intros error w2 Hw2. assert (Hd : is_Some (ds_sample source rtt1)) by (rewrite Hds, Hx; eauto).
    destruct Hw2 as [->| ->]; (split_and!; [done|unfold sourced; simpl; by rewrite Hvalue, Hsource|]);
      (apply move_none; [|unfold waiting; simpl; congruence|done]);
      unfold input_flight; simpl; by rewrite Hvalue, Hsource, Hds. }
  destruct o1 as [e|[[|] out]]; io_cbn.
  - intros [= <- <-]. destruct (Hkeep "" _ (or_intror eq_refl)) as (? & ? & ?). by split_and!.
  - intros [= <- <-]. specialize (Hout out eq_refl). rewrite Hx in Hout. subst out. simpl.
    split_and!; [done|done| |eauto]. apply move_none; [|unfold waiting; simpl; congruence|done].
    unfold input_flight. simpl. by rewrite Hvalue, Hsource, Hx.
  - intros [= <- <-]. edestruct Hkeep as (? & ? & ?); [by left|]. by split_and!.
Qed.

Lemma send_input_move port w w' o value :
  input_adapter port w → pending_input_ (pw_adapter w) = Some value →
  pending_input_source_ (pw_adapter w) = None →
  send_input w = (w', o) → same_channel w w' ∧ sourced w' ∧ input_move port w w'.
Proof.
  intros (_ & _ & _ & Hlaws) Hvalue Hsource. destruct w as [a session rtt]. unfold send_input. run_port.
  simpl in Hlaws, Hvalue, Hsource. rewrite Hvalue. io_cbn.
  destruct (writePortValue (rpd_value_id (description_ a)) value session) as [session1 o1] eqn:Hwrite.
  apply writePortValue_net in Hwrite.
  assert (Hfailed : o1 ≠ inr true → ∀ a', with_adapter_error "" a' = with_adapter_error "" a →
    let w2 := {| pw_adapter := a'; pw_session := session1; pw_rtt := rtt |} in
    same_channel {| pw_adapter := a; pw_session := session; pw_rtt := rtt |} w2 ∧ sourced w2 ∧
    input_move port {| pw_adapter := a; pw_session := session; pw_rtt := rtt |} w2).
  { intros _ a' Ha' w2. injection Ha' as Hd Hr Ht Hc Hp Hs Hi Ho'.
    split_and!; [by split_and!|unfold sourced; simpl; by rewrite Hi, Hs, Hvalue, Hsource|].
    destruct Hwrite as [[Hnet _]|(client & result & Hsend & Hresult)].
    - apply move_none; [|done|unfold arrived; simpl; by rewrite Hnet].
      unfold input_flight; simpl; by rewrite Hi, Hvalue.
    - destruct (cl_send _ _ _ Hlaws _ _ _ _ _ _ Hsend) as [Harrived|[Hkept _]].
      + apply (move_retry _ _ _ value); [..|done|exact Harrived];
          unfold input_flight; simpl; by rewrite ?Hi, Hvalue.
      + apply move_none; [|done|exact Hkept]. unfold input_flight; simpl; by rewrite Hi, Hvalue. }
  destruct o1 as [e|[|]]; io_cbn; intros [= <- <-]; [by apply Hfailed| |by apply Hfailed].
  split_and!; [done|unfold sourced; simpl; by rewrite Hsource|].
  destruct Hwrite as [[_ [=]]|(client & result & Hsend & Hresult)].
  destruct (proj1 Hresult eq_refl) as (status & -> & Hgood).
  destruct (cl_send _ _ _ Hlaws _ _ _ _ _ _ Hsend) as [Harrived|[_ Hbad]].
  - apply (move_sent _ _ _ value); [..|done|exact Harrived]; unfold input_flight; simpl; by rewrite ?Hvalue, ?Hsource.
  - specialize (Hbad _ eq_refl). congruence.
Qed.

Lemma same_channel_trans w1 w2 w3 : same_channel w1 w2 → same_channel w2 w3 → same_channel w1 w3.
Proof. intros (?&?&?&?) (?&?&?&?). split_and!; congruence. Qed.

Lemma input_adapter_same port w w' : same_channel w w' → input_adapter port w → input_adapter port w'.
Proof. intros (Hd & Ht & Hc & Hp). unfold input_adapter. by rewrite Hd, Ht, Hc, Hp. Qed.

(** What holds of an input port before and after a pump. *)
Definition input_good (port : Port) (base produced : list Variant) w : Prop :=
  input_adapter port w ∧ sourced w ∧ input_conserved port base produced w.

Lemma input_good_move port base produced w w' :
  input_good port base produced w → same_channel w w' → sourced w' → input_move port w w' →
  input_good port base produced w'.
Proof.
  intros (Hadapter & _ & Hconserved) Hsame Hsourced Hmove.
  split_and!; [by eapply input_adapter_same|done|by eapply input_move_conserved].
Qed.

(** An error text changes nothing. *)
Lemma setError_move port base produced error w :
  input_good port base produced w → input_good port base produced (setError error w).1.
Proof. intros Hgood. by destruct w as [[] ? ?]. Qed.

Lemma pumpInput_good port base produced w w' o :
  input_good port base produced w → pumpInput empty_variant w = (w', o) → input_good port base produced w'.
Proof.
  intros Hgood Hpump. pose proof Hgood as ((Hdirection & Hport & Hinput & _) & _ & _).
  apply io_bind_inv in Hpump as [(w1 & input & [= <- <-] & Hpump)|(? & [=] & _)].
  unfold as_input in Hpump. rewrite Hport in Hpump. simpl in Hpump. rewrite Hinput in Hpump.
  apply io_bind_inv in Hpump as [(w1 & fetched & Hfetch & Hpump)|(e & Hfetch & ->)];
    destruct (fetch_input_move port _ _ _ (proj1 Hgood) (proj1 (proj2 Hgood)) Hfetch)
      as (Hsame1 & Hsourced1 & Hmove1 & Hpending); pose proof (input_good_move _ _ _ _ _ Hgood Hsame1 Hsourced1 Hmove1) as Hgood1;
    [|done].
  destruct fetched; simpl in Hpump; [|by injection Hpump as <- <-]. specialize (Hpending eq_refl).
  apply io_bind_inv in Hpump as [(w2 & encoded & Hencode & Hpump)|(e & Hencode & ->)];
    destruct (encode_input_move port _ _ _ (proj1 Hgood1) Hsourced1 Hpending Hencode)
      as (Hsame2 & Hsourced2 & Hmove2 & Hvalue); pose proof (input_good_move _ _ _ _ _ Hgood1 Hsame2 Hsourced2 Hmove2) as Hgood2;
    [|done].
  destruct encoded; simpl in Hpump; [|by injection Hpump as <- <-].
  destruct (Hvalue eq_refl) as (value & Hv & Hs).
  destruct (send_input_move port _ _ _ _ (proj1 Hgood2) Hv Hs Hpump) as (Hsame3 & Hsourced3 & Hmove3).
  by eapply input_good_move.
Qed.

Lemma pump_input_good port base produced w :
  input_good port base produced w → input_good port base produced (pump empty_variant w).1.
Proof.
  intros Hgood. pose proof Hgood as ((Hdirection & _) & _). unfold pump, adapter, io_gets, mbind, IO_bind, catch_all.
  rewrite Hdirection. destruct (pumpInput empty_variant w) as [w1 [[what|]|[]]] eqn:Hpump;
    pose proof (pumpInput_good _ _ _ _ _ _ Hgood Hpump) as Hgood1; [by apply setError_move..|done].
Qed.

(** ** Lemmas: output *)

(** A pending sample is a sample. *)
Definition output_sourced w : Prop :=
  match pending_output_ (pw_adapter w) with
  | Some sample => is_Some (ds_sample sample (pw_rtt w))
  | None => True
  end.

(** The samples read since the values [seen] were observed and [base] was
    written: those written to the port, in order, and the one in flight. *)
Definition output_conserved (port : Port) (seen base : list Sample) w : Prop :=
  ∃ mirrored, port_written port (pw_rtt w) = base ++ mirrored ∧
    omap decode (observed (value_id w) (w_net (pw_session w))) = seen ++ mirrored ++ output_flight w.

Definition output_good (port : Port) (seen base : list Sample) w : Prop :=
  output_adapter port w ∧ output_sourced w ∧ output_conserved port seen base w.

Lemma setError_output port seen base error w :
  output_good port seen base w → output_good port seen base (setError error w).1.
Proof. intros Hgood. by destruct w as [[] ? ?]. Qed.

Lemma write_output_good port seen base sample w w' o :
  output_good port seen base w → pending_output_ (pw_adapter w) = Some sample →
  write_output port sample w = (w', o) → output_good port seen base w'.
Proof.
  intros (Hadapter & Hsourced & mirrored & Hwritten & Hobserved) Hpending.
  pose proof Hadapter as (_ & _ & _ & Hlaws). destruct w as [a session rtt].
  unfold output_sourced, output_flight in *. simpl in *. rewrite Hpending in *. destruct Hsourced as [x Hx].
  rewrite Hx in Hobserved. simpl in Hobserved. unfold write_output. run_port.
  destruct (port_write port sample rtt) as [rtt1 o1] eqn:Hwrite.
  destruct (cl_write _ _ _ Hlaws _ _ _ _ Hwrite) as [Hds Hw].
  assert (Hkeep : ∀ error a', with_adapter_error error a' = with_adapter_error error a →
    port_written port rtt1 = port_written port rtt →
    output_good port seen base {| pw_adapter := a'; pw_session := session; pw_rtt := rtt1 |}).
  { intros error a' Ha' Hsame. injection Ha' as Hd Hr Ht Hc Hp Hs Hi Ho.
    split_and!; unfold output_adapter, output_sourced, output_conserved, output_flight, value_id in *; simpl in *.
    - by rewrite Hd, Hp, Hc, Ht.
    - rewrite Ho, Hpending, Hds, Hx. eauto.
    - exists mirrored. rewrite Hsame, Ho, Hpending, Hds, Hx, Hd. auto. }
  destruct o1 as [e|[| |]]; io_cbn; intros [= <- <-];
    try (apply (Hkeep ""); [done|rewrite Hw; apply app_nil_r]).
  split_and!; [done..|]. exists (mirrored ++ [x]). unfold output_flight. simpl.
  rewrite Hw, Hx, Hwritten, <-app_assoc, app_nil_r. by split.
Qed.

(** Reading the variable: one value observed, or none. *)
Lemma readPortValue_observed (port : Port) codec type_info id (session session' : session_world) o :
  channel_laws (CN := CN) (Client := Client) (DataType := DataType) (StatusCode := StatusCode)
    (UA_DataType := UA_DataType) codec type_info port →
  readPortValue id session = (session', o) →
  observed id (w_net session') = observed id (w_net session) ++
    (if o is inr {| rpr_status := read_value; rpr_value := Some value |} then [value] else []) ∧
  ∀ read, o = inr read → rpr_status read = read_value → is_Some (rpr_value read).
Proof.
  intros Hlaws [[Hnet [message ->]]|(client & result & Hread & Hresult)]%readPortValue_net.
  { rewrite Hnet. simpl. rewrite app_nil_r. split; [done|]. by intros ? [= <-]. }
  rewrite (cl_receive _ _ _ Hlaws _ _ _ _ _ Hread). destruct result as [e|[status|value]].
  3: { subst o. simpl. split; [done|]. intros ? [= <-]. simpl. eauto. }
  all: split; [f_equal|intros read -> Hs; by destruct (Hresult _ eq_refl)].
  all: destruct o as [|[[] [] ?]]; try done; by destruct (Hresult _ eq_refl).
Qed.

Lemma pumpOutput_good port seen base w w' o :
  output_good port seen base w → pumpOutput empty_variant w = (w', o) → output_good port seen base w'.
Proof.
  intros Hgood Hpump. pose proof Hgood as ((Hdirection & Hport & Houtput & Hlaws) & _).
  apply io_bind_inv in Hpump as [(w1 & output & [= <- <-] & Hpump)|(? & [=] & _)].
  unfold as_output in Hpump. rewrite Hport in Hpump. simpl in Hpump. rewrite Houtput in Hpump.
  apply io_bind_inv in Hpump as [(w1 & connected & [= <- <-] & Hpump)|(? & [=] & _)].
  destruct (port_connected port (pw_rtt w)); simpl in Hpump; [|by injection Hpump as <- <-].
  apply io_bind_inv in Hpump as [(w1 & a & [= <- <-] & Hpump)|(? & [=] & _)].
  destruct (pending_output_ (pw_adapter w)) as [sample|] eqn:Hpending; [by eapply write_output_good|].
  destruct w as [a session rtt]. simpl in *.
  destruct Hgood as (Hadapter & Hsourced & mirrored & Hwritten & Hobserved).
  unfold output_flight, value_id in Hobserved. simpl in Hwritten, Hobserved. rewrite Hpending, app_nil_r in Hobserved.
  revert Hpump. run_port.
  destruct (readPortValue (rpd_value_id (description_ a)) session) as [session1 o1] eqn:Hread.
  destruct (readPortValue_observed port _ _ _ _ _ _ Hlaws Hread) as [Hnew Hvalue].
  assert (Hstill : ∀ rtt' error a', with_adapter_error error a' = with_adapter_error error a →
    port_written port rtt' = port_written port rtt →
    omap decode (observed (rpd_value_id (description_ a)) (w_net session1)) = seen ++ mirrored →
    output_good port seen base {| pw_adapter := a'; pw_session := session1; pw_rtt := rtt' |}).
  { intros rtt' error a' Ha' Hsame Hseen. injection Ha' as Hd Hr Ht Hc Hp Hs Hi Ho. unfold output_adapter in Hadapter.
    split_and!; unfold output_adapter, output_sourced, output_conserved, output_flight, value_id; simpl in *.
    - by rewrite Hd, Hp, Hc, Ht.
    - by rewrite Ho, Hpending.
    - exists mirrored. by rewrite Hsame, Ho, Hpending, Hd, app_nil_r. }
  rewrite Hnew, omap_app, Hobserved in Hstill.
  destruct o1 as [e|[status value text]]; io_cbn.
  { intros [= <- <-]. apply (Hstill _ ""); [done..|]. by rewrite app_nil_r. }
  destruct status; io_cbn.
  2, 3: intros [= <- <-]; apply (Hstill _ ""); [done..|]; simpl; by rewrite app_nil_r.
  destruct (Hvalue _ eq_refl eq_refl) as [v Hv]. simpl in Hv. subst value. io_cbn.
  destruct (makeDataSource (codec_ a) v rtt) as [rtt1 o2] eqn:Hmake.
  destruct (cl_make _ _ _ Hlaws _ _ _ _ Hmake) as [Hw Hdecode]. simpl in Hstill.
  destruct o2 as [e|[sample|]]; io_cbn.
  1, 3: intros [= <- <-]; apply (Hstill _ ""); [|done|by rewrite Hdecode, app_nil_r];
    unfold with_adapter_error; simpl; by rewrite ?Hpending.
  destruct Hdecode as [[x Hx] Hsample]. intros Hwrite.
  eapply write_output_good; [| |exact Hwrite]; [|done].
  split_and!; unfold output_adapter, output_sourced, output_conserved, output_flight, value_id in *; simpl in *; [done|..].
  - rewrite Hsample, Hx. eauto.
  - exists mirrored. split; [congruence|]. rewrite Hnew, omap_app, Hobserved, Hsample, Hx. simpl.
    by rewrite Hx, <-app_assoc.
Qed.

Lemma pump_output_good port seen base w :
  output_good port seen base w → output_good port seen base (pump empty_variant w).1.
Proof.
  intros Hgood. pose proof Hgood as ((Hdirection & _) & _). unfold pump, adapter, io_gets, mbind, IO_bind, catch_all.
  rewrite Hdirection. destruct (pumpOutput empty_variant w) as [w1 [[what|]|[]]] eqn:Hpump;
    pose proof (pumpOutput_good _ _ _ _ _ _ Hgood Hpump) as Hgood1; [by apply setError_output..|done].
Qed.

(** ** Steps *)

(** A pump, or what others do meanwhile: samples written to the input port, and
    any use of the session, the heap and the network that neither reads nor
    writes this port's variable nor touches the pending sample. *)
Inductive port_step (port : Port) : port_world * list Variant → port_world * list Variant → Prop :=
  | step_pump w produced : port_step port (w, produced) ((pump empty_variant w).1, produced)
  | step_around w produced session rtt xs :
      port_queue port rtt = port_queue port (pw_rtt w) ++ xs →
      port_written port rtt = port_written port (pw_rtt w) →
      (∀ source, pending_input_source_ (pw_adapter w) = Some source ∨ pending_output_ (pw_adapter w) = Some source →
         ds_sample source rtt = ds_sample source (pw_rtt w)) →
      delivered (value_id w) (w_net session) = delivered (value_id w) (w_net (pw_session w)) →
      observed (value_id w) (w_net session) = observed (value_id w) (w_net (pw_session w)) →
      port_step port (w, produced)
        ({| pw_adapter := pw_adapter w; pw_session := session; pw_rtt := rtt |}, produced ++ (encode <$> xs)).

Lemma input_good_step port base st st' :
  port_step port st st' → input_good port base st.2 st.1 → input_good port base st'.2 st'.1.
Proof.
  destruct 1 as [w produced|w produced session rtt xs Hqueue _ Hpending Hdelivered _]; simpl.
  - apply pump_input_good.
  - intros (Hadapter & Hsourced & sent & d & n & Hproduced & Hrepeats & Harrived).
    destruct w as [a session0 rtt0]. unfold sourced, input_conserved, input_flight, waiting, arrived, value_id in *.
    simpl in *. assert (Hsample : ∀ source, pending_input_source_ a = Some source → ds_sample source rtt = ds_sample source rtt0) by auto.
    split_and!; [done|..].
    + unfold sourced. simpl. destruct (pending_input_ a), (pending_input_source_ a); try done.
      by rewrite Hsample.
    + exists sent, d, n. unfold waiting, arrived, value_id, input_flight. simpl.
      rewrite Hqueue, fmap_app, Hproduced, <-!app_assoc, Hdelivered, Harrived.
      destruct (pending_input_ a); [done|]. destruct (pending_input_source_ a) as [source|]; [|done].
      by rewrite Hsample.
Qed.

Lemma output_good_step port seen base st st' :
  port_step port st st' → output_good port seen base st.1 → output_good port seen base st'.1.
Proof.
  destruct 1 as [w produced|w produced session rtt xs _ Hwritten Hpending _ Hobserved]; simpl.
  - apply pump_output_good.
  - intros (Hadapter & Hsourced & mirrored & Hw & Ho). destruct w as [a session0 rtt0].
    unfold output_sourced, output_conserved, output_flight, value_id in *. simpl in *.
    assert (Hsample : ∀ source, pending_output_ a = Some source → ds_sample source rtt = ds_sample source rtt0) by auto.
    split_and!; [done|..].
    + unfold output_sourced. simpl. destruct (pending_output_ a); [|done]. by rewrite Hsample.
    + exists mirrored. simpl. split; [congruence|]. unfold output_flight, value_id. simpl. rewrite Hobserved, Ho.
      destruct (pending_output_ a) as [source|]; [|done]. by rewrite Hsample.
Qed.
End facts.
