(* ===== verification/RemotePortSpec.v ===== *)
(** What the mirror of a remote port promises: samples pass it in order and none
    is lost, a replacement takes over the one in flight, and the local port is
    never deleted under an interface that still refers to it. *)

From S2P Require Import Prelude NodeId Native Concrete DataTypeRegistry TypeProtocol EndpointTypeRegistry.
From S2P Require Import OperationDispatcher PortDataSources AddressSpace ConcreteServer NodeSpecs.
From S2P Require Import Client ClientDiscovery ConcreteClient ClientSpec RemotePort.

(** ** A concrete heap

    The samples that wait in local input ports, those written to local output
    ports, and the data sources by their addresses. *)
Record c_Heap := {
  h_queue : list Z;
  h_written : list Z;
  h_cells : list (option Z);
}.

Definition h_store (source : nat) (x : Z) (h : c_Heap) : c_Heap :=
  {| h_queue := h_queue h; h_written := h_written h; h_cells := <[source := Some x]> (h_cells h) |}.

Definition h_alloc (x : option Z) (h : c_Heap) : c_Heap * nat :=
  ({| h_queue := h_queue h; h_written := h_written h; h_cells := h_cells h ++ [x] |}, length (h_cells h)).

Definition h_value (source : nat) (h : c_Heap) : option Z := mjoin (h_cells h !! source).

(** Port 0 is an input port, port 1 an output port. *)
#[global] Instance heap_RttPorts : RttPorts c_Heap nat nat string := {
  antiClone _ := mret None;
  is_OutputPort port := (port =? 1);
  is_InputPort port := (port =? 0);
  port_typeInfo _ := Some "Int32";
  createConnection _ _ _ := mret false;
  disconnect _ := mret tt;
  port_write _ source h :=
    match h_value source h with
    | Some x => ({| h_queue := h_queue h; h_written := h_written h ++ [x]; h_cells := h_cells h |}, inr WriteSuccess)
    | None => (h, inr WriteFailure)
    end;
  destroyPort _ h := h;
  data_policy := default_policy;
}.

#[global] Instance heap_LocalPorts : LocalPorts c_Heap nat nat string := {
  ti_inputPort _ _ := mret (Some 0);
  ti_outputPort _ _ := mret (Some 1);
  ti_buildValue _ h := let '(h, source) := h_alloc None h in (h, inr (Some source));
  port_doc _ _ := mret tt;
  port_connected _ _ := true;
  port_hasInterface _ _ := false;
  port_read _ source h :=
    match h_queue h with
    | x :: queue =>
        if decide (source < length (h_cells h)) then
          ({| h_queue := queue; h_written := h_written h; h_cells := <[source := Some x]> (h_cells h) |}, inr NewData)
        else (h, inr NoData)
    | [] => (h, inr NoData)
    end;
}.

#[global] Instance heap_PortTraces : PortTraces Z c_Heap nat nat c_Net c_NodeId c_Remote := {
  port_queue _ := h_queue;
  port_written _ := h_written;
  ds_sample := h_value;
  delivered id net := (filter (λ entry, entry.1 = id) (net_writes net)).*2;
  observed id net := (filter (λ entry, entry.1 = id) (net_reads net)).*2;
  encode x := cv_scalar cpp_int32 x;
  decode v := variant_to_scalar cpp_int32 v;
}.

Definition heap_codec : TypeCodec c_Heap nat nat c_Remote c_NodeId c_NodeId :=
  {| dataTypeNodeId := nodeid_datatype dt_Int32;
     valueRank := vr_Scalar;
     hasValue := true;
     toVariant source value h :=
       match source ≫= λ source, h_value source h with
       | Some x => (h, inr (true, Some (cv_scalar cpp_int32 x)))
       | None => (h, inr (false, value))
       end;
     assignVariant value destination h :=
       match variant_to_scalar cpp_int32 value, destination with
       | Some x, Some source => (h_store source x h, inr true)
       | _, _ => (h, inr false)
       end;
     makeDataSource value h :=
       match variant_to_scalar cpp_int32 value with
       | Some x => let '(h, source) := h_alloc (Some x) h in (h, inr (Some source))
       | None => (h, inr None)
       end;
     makeProxyDataSource _ _ := None;
     portValue _ value _ := (pv_error, value) |}.

Definition heap_protocol : TypeProtocol c_Heap nat nat c_Remote c_NodeId c_NodeId :=
  {| dataType := ref_builtin (nodeid_datatype dt_Int32); registrationFingerprint := "v1";
     protocol_bind _ _ error := (Some heap_codec, error) |}.

Definition heap_types : c_Repository (TypeProtocol c_Heap nat nat c_Remote c_NodeId c_NodeId) :=
  ({["Int32" := "Int32"]}, {["Int32" := heap_protocol]}).

Definition c_PortSession : Type :=
  @world c_Heap nat nat c_Remote c_NodeId c_NodeId c_DataType string c_Net unit _ _.
Definition c_PortWorld : Type :=
  @port_world c_Heap nat nat c_Remote c_NodeId c_NodeId c_DataType string c_Net unit _ _.

(** A session that is connected and synchronized. *)
Definition port_session : c_PortSession :=
  (setInterfaceAccessEnabled true
     (connect heap_types None
        {| w_session := new_session "opc.tcp://arm:4840" 2000; w_net := arm_net arm_namespaces;
           w_types := initial_registry |}).1).1.

Definition target_port : RemotePortDescription c_NodeId :=
  {| rpd_name := "target"; rpd_description := "The target."; rpd_type_name := "Int32";
     rpd_service_path := []; rpd_direction := direction_input;
     rpd_value_id := at_path ["ports"; "target"; "value"] |}.

(** An output port that shows the gain. *)
Definition gain_port : RemotePortDescription c_NodeId :=
  {| rpd_name := "gain"; rpd_description := ""; rpd_type_name := "Int32"; rpd_service_path := [];
     rpd_direction := direction_output; rpd_value_id := at_path ["properties"; "gain"] |}.

Definition heap_of (queue : list Z) : c_Heap := {| h_queue := queue; h_written := []; h_cells := [] |}.

Definition adapter_for (description : RemotePortDescription c_NodeId) :=
  (create_adapter heap_types (Some port_session) description (Some "") (heap_of [])).2.

Definition the_adapter (description : RemotePortDescription c_NodeId) (port : nat) :
    @RemotePortAdapter c_Heap nat nat c_Remote c_NodeId c_NodeId c_DataType string _ _ :=
  {| description_ := description;
     adapter_registry := default (empty_endpoint ∅) (type_registry_ (w_session port_session));
     type_info_ := "Int32"; codec_ := heap_codec; port_ := Some port; pending_input_source_ := None;
     pending_input_ := None; pending_output_ := None; adapter_error := "" |}.

Definition port_start (description : RemotePortDescription c_NodeId) (port : nat) (queue : list Z) : c_PortWorld :=
  {| pw_adapter := the_adapter description port; pw_session := port_session; pw_rtt := heap_of queue |}.

Definition no_value : c_Remote := cv_scalar cpp_bool false.

Definition pump_port (w : c_PortWorld) : c_PortWorld := (pump no_value w).1.

Example adapter_created :
  match adapter_for target_port with inr (Some a, Some "") => port_ a = Some 0 | _ => False end.
Proof. vm_compute. reflexivity. Qed.

Example target_pumped :
  let w := pump_port (pump_port (port_start target_port 0 [1; 2; 3]%Z)) in
  (h_queue (pw_rtt w), delivered (rpd_value_id target_port) (w_net (pw_session w))) =
  ([3%Z], [cv_scalar cpp_int32 1%Z; cv_scalar cpp_int32 2%Z]).
Proof. vm_compute. reflexivity. Qed.

Example gain_pumped : h_written (pw_rtt (pump_port (pump_port (port_start gain_port 1 [])))) = [7; 7]%Z.
Proof. vm_compute. reflexivity. Qed.

(** ** The laws *)

Lemma h_value_alloc x h : h_value (h_alloc x h).2 (h_alloc x h).1 = x.
Proof. unfold h_value. simpl. rewrite lookup_app_r, Nat.sub_diag by lia. by destruct x. Qed.

Lemma filter_fst_snoc {B} (id id' : c_NodeId) (v : B) l :
  (filter (λ entry, entry.1 = id) (l ++ [(id', v)])).*2 =
  (filter (λ entry, entry.1 = id) l).*2 ++ (if decide (id' = id) then [v] else []).
Proof.
  rewrite filter_app, fmap_app. f_equal.
  by destruct (decide (id' = id)); [rewrite filter_cons_True|rewrite filter_cons_False].
Qed.

Lemma heap_laws port :
  channel_laws (CN := c_Net) (Client := unit) (DataType := c_DataType) (StatusCode := option UaStatus)
    (UA_DataType := c_NodeId) heap_codec "Int32" port.
Proof.
  split.
  - by intros h h' o [= <- <-].
  - intros source h h' o. simpl. destruct (h_queue h) as [|x queue] eqn:Hqueue; [by intros [= <- <-]|].
    case_decide; intros [= <- <-]; simpl; [|done]. exists x. split; [done|].
    unfold h_value. simpl. by rewrite list_lookup_insert_eq.
  - intros source v h h' o. simpl. destruct (h_value source h) as [x|] eqn:Hx; intros [= <- <-];
      (split_and!; [done|done|]); [|by intros ? [=]]. by intros ? [= <-].
  - intros source h h' o. simpl. destruct (h_value source h) as [x|] eqn:Hx; intros [= <- <-]; split; simpl;
      by rewrite ?app_nil_r.
  - intros v h h' o. simpl. destruct v as [t x| |]; [|by intros [= <- <-]..].
    destruct (cast cpp cpp_int32 x) as [y|] eqn:Hy; intros [= <- <-]; simpl; [|done].
    split_and!; [done|eauto|]. apply (h_value_alloc (Some y)).
  - intros [] id v net net' o. simpl. unfold c_write. simpl.
    destruct (net_up net); [destruct (net_nodes net !! id)|]; intros [= <- <-]; simpl.
    + left. rewrite filter_fst_snoc. by rewrite decide_True.
    + right. split; [done|]. by intros ? [= <-].
    + right. split; [done|]. by intros ? [= <-].
  - intros [] id net net' o. simpl. unfold c_readValue, c_read. simpl.
    destruct (net_up net); [destruct (net_nodes net !! id) as [node|]; [destruct (rn_value node) as [|value]|]|];
      intros [= <- <-]; simpl; rewrite ?app_nil_r; try done.
    rewrite filter_fst_snoc. by rewrite decide_True.
Qed.

(** ** Properties *)

Section properties.
Context {Sample W DS Port Variant NodeId UA_DataType DataType TypeInfo R CN Client StatusCode : Type}.
Context `{EqDecision TypeInfo} `{!Countable TypeInfo}.
Context `{NodeIds NodeId} `{DataTypes NodeId UA_DataType DataType}.
Context `{StatusCodes StatusCode} `{!StatusConstants StatusCode}.
Context `{!ClientServices CN Client NodeId Variant DataType StatusCode}.
Context `{!RttPorts W DS Port TypeInfo} `{!LocalPorts W DS Port TypeInfo}.
Context `{!PortTraces Sample W DS Port CN NodeId Variant}.
Notation TypeCodec := (TypeCodec W DS Port Variant NodeId UA_DataType).
Notation TypeProtocol := (TypeProtocol W DS Port Variant NodeId UA_DataType).
Context `{TypeInfos TypeInfo R TypeProtocol}.
Notation session_world := (@world W DS Port Variant NodeId UA_DataType DataType TypeInfo CN Client _ _).
Notation port_world :=
  (@port_world W DS Port Variant NodeId UA_DataType DataType TypeInfo CN Client _ _).
Notation RemotePortAdapter :=
  (@RemotePortAdapter W DS Port Variant NodeId UA_DataType DataType TypeInfo _ _).
Context (empty_variant : Variant).
Implicit Types (w : port_world) (a : RemotePortAdapter).

Lemma input_good_steps port base (st st' : port_world * list Variant) :
  rtc (port_step empty_variant port) st st' → input_good port base st.2 st.1 → input_good port base st'.2 st'.1.
Proof. induction 1; [done|]. intros. eauto using input_good_step. Qed.

Lemma output_good_steps port seen base (st st' : port_world * list Variant) :
  rtc (port_step empty_variant port) st st' → output_good port seen base st.1 → output_good port seen base st'.1.
Proof. induction 1; [done|]. intros. eauto using output_good_step. Qed.

(** C6: A mirrored input port loses nothing and keeps the order: at any time,
    whatever failed in between, the values of the samples that were ever put
    into the local port are those that were sent, then the one in flight, then
    those that wait; those sent arrived at the remote variable in this order,
    one more than once only when a write arrived that was reported as failed. *)
Theorem input_delivery port w w' produced (Hadapter : input_adapter port w)
    (Hsource : pending_input_source_ (pw_adapter w) = None) (Hinput : pending_input_ (pw_adapter w) = None)
    (Hsteps : rtc (port_step empty_variant port) (w, waiting port w) (w', produced)) :
  ∃ sent d n, produced = sent ++ input_flight w' ++ waiting port w' ∧ repeats sent d ∧
    arrived (value_id w') w' = arrived (value_id w) w ++ d ++ mjoin (replicate n (input_flight w')) ∧
    length (input_flight w') ≤ 1.
Proof.
  assert (Hstart : input_good port (arrived (value_id w) w) (waiting port w) w).
  { split_and!; [done|unfold sourced; by rewrite Hinput, Hsource|].
    exists [], [], 0. unfold input_flight. rewrite Hinput, Hsource, !app_nil_r. split_and!; [done|constructor|done]. }
  apply (input_good_steps _ _ _ _ Hsteps) in Hstart as (_ & _ & sent & d & n & ? & ? & ?).
  exists sent, d, n. split_and!; [done..|]. unfold input_flight.
  destruct (pending_input_ (pw_adapter w')); [done|].
  destruct (pending_input_source_ (pw_adapter w')) as [source|]; [|simpl; lia].
  rewrite length_fmap. destruct (ds_sample source _); simpl; lia.
Qed.

(** C27: A mirrored output port shows what was read: at any time the samples
    written to the local port since the start, with the one in flight after
    them, are the values read from the remote variable that could be decoded,
    in order, each once. *)
Theorem output_delivery port w w' produced (Hadapter : output_adapter port w)
    (Hpending : pending_output_ (pw_adapter w) = None)
    (Hsteps : rtc (port_step empty_variant port) (w, waiting port w) (w', produced)) :
  ∃ mirrored, port_written port (pw_rtt w') = port_written port (pw_rtt w) ++ mirrored ∧
    omap decode (observed (value_id w') (w_net (pw_session w'))) =
      omap decode (observed (value_id w) (w_net (pw_session w))) ++ mirrored ++ output_flight w'.
Proof.
  assert (Hstart : output_good port (omap decode (observed (value_id w) (w_net (pw_session w))))
    (port_written port (pw_rtt w)) w).
  { split_and!; [done|unfold output_sourced; by rewrite Hpending|].
    exists []. unfold output_flight. by rewrite Hpending, !app_nil_r. }
  apply (output_good_steps _ _ _ _ _ Hsteps) in Hstart as (_ & _ & mirrored & ? & ?). by exists mirrored.
Qed.

(** When an interface is synchronized again, what is pending of a port moves
    to its replacement if and only if both stand for the port of the same name,
    type, path and direction; nothing else of the two changes but the error
    text, which moves along, and adapters that cannot be exchanged stay as they
    are. *)
Theorem transfer_moves_pending a replacement :
  let '(a', replacement', moved) := transferPendingStateTo a replacement in
  (moved = true ↔
     rpd_name (description_ a) = rpd_name (description_ replacement) ∧
     rpd_type_name (description_ a) = rpd_type_name (description_ replacement) ∧
     rpd_service_path (description_ a) = rpd_service_path (description_ replacement) ∧
     rpd_direction (description_ a) = rpd_direction (description_ replacement)) ∧
  (moved = true → hasPendingState replacement' = hasPendingState a ∧
     hasPendingState a' = hasPendingState replacement ∧ adapter_error replacement' = adapter_error a ∧
     ∀ (session session' : session_world) (rtt : W),
       input_flight {| pw_adapter := replacement'; pw_session := session'; pw_rtt := rtt |} =
         input_flight {| pw_adapter := a; pw_session := session; pw_rtt := rtt |} ∧
       output_flight {| pw_adapter := replacement'; pw_session := session'; pw_rtt := rtt |} =
         output_flight {| pw_adapter := a; pw_session := session; pw_rtt := rtt |}) ∧
  (moved = false → a' = a ∧ replacement' = replacement).
Proof.
  unfold transferPendingStateTo. destruct (hasSameIdentity a replacement) eqn:Hsame; simpl.
  - unfold hasSameIdentity in Hsame. split_guards. split_and!; [|by intros _; split_and!|done].
    split; [|done]. intros _. by rewrite !String.eqb_eq in *.
  - split_and!; [|done|done]. split; [done|]. intros (Hn & Ht & Hp & Hd).
    unfold hasSameIdentity in Hsame. rewrite Hn, Ht, Hp, Hd, !String.eqb_refl in Hsame. simpl in Hsame.
    by rewrite !bool_decide_eq_true_2 in Hsame.
Qed.

(** A destructor never throws, and it touches nothing when an interface
    still refers to the port: the port is then leaked, not deleted. *)
Theorem destroy_keeps_referenced a (rtt : W) :
  (destroy_adapter a rtt).2 = inr tt ∧
  ∀ port, port_ a = Some port → port_hasInterface port rtt = true → (destroy_adapter a rtt).1 = rtt.
Proof.
  unfold destroy_adapter. destruct (port_ a) as [port|]; [|done].
  destruct (port_hasInterface port rtt) eqn:Hinterface.
  - split; [done|]. by intros.
  - destruct (disconnect port rtt) as [rtt' [e|[]]]; (split; [done|]); intros ? [= <-]; congruence.
Qed.
End properties.

(** ** Witnesses *)

Definition target_start : c_PortWorld := port_start target_port 0 [1; 2; 3]%Z.

Lemma target_steps (start : c_PortWorld) port produced :
  rtc (port_step no_value port) (start, produced) (pump_port (pump_port start), produced).
Proof. eapply rtc_l; [apply step_pump|]. apply rtc_once. apply step_pump. Qed.

Lemma input_delivery_witness :
  ∃ sent d n, waiting 0 target_start =
      sent ++ input_flight (pump_port (pump_port target_start)) ++ waiting 0 (pump_port (pump_port target_start)) ∧
    repeats sent d ∧
    arrived (value_id (pump_port (pump_port target_start))) (pump_port (pump_port target_start)) =
      arrived (value_id target_start) target_start ++ d ++
      mjoin (replicate n (input_flight (pump_port (pump_port target_start)))) ∧
    length (input_flight (pump_port (pump_port target_start))) ≤ 1.
Proof.
  refine (input_delivery no_value 0 target_start _ _ _ eq_refl eq_refl (target_steps target_start 0 _)).
  split_and!; [done..|]. apply heap_laws.
Defined.

Definition gain_start : c_PortWorld := port_start gain_port 1 [].

Lemma output_delivery_witness :
  ∃ mirrored, port_written 1 (pw_rtt (pump_port (pump_port gain_start))) =
      port_written 1 (pw_rtt gain_start) ++ mirrored ∧
    omap decode (observed (value_id (pump_port (pump_port gain_start)))
      (w_net (pw_session (pump_port (pump_port gain_start))))) =
    omap decode (observed (value_id gain_start) (w_net (pw_session gain_start))) ++
      mirrored ++ output_flight (pump_port (pump_port gain_start)).
Proof.
  refine (output_delivery no_value 1 gain_start _ _ _ eq_refl (target_steps gain_start 1 _)).
  split_and!; [done..|]. apply heap_laws.
Defined.
