(* ===== verification/RemoteOperation.v ===== *)
(** The caller's side of a remote operation (src/src/remote_operation.cpp): the
    interface part built from a discovered description, the actions that call
    or send it, and the collection of what was sent. *)

From S2P Require Import Prelude NodeId Native Concrete DataTypeRegistry TypeProtocol EndpointTypeRegistry.
From S2P Require Import OperationDispatcher AddressSpace NodeSpecs Client ClientDiscovery.

(** ** What RTT provides *)

Inductive SendStatus := SendFailure | SendNotReady | SendSuccess.

#[global] Instance SendStatus_eq_dec : EqDecision SendStatus.
Proof. solve_decision. Defined.

(** What the code asks of data sources and type infos; [C] is the table of the
    copies a [copy] has made so far. *)
Class OperationSources (W DS TypeInfo C : Type) := {
  arg_typeInfo : DS → TypeInfo;
  arg_isAssignable : DS → bool;
  arg_buildValue : TypeInfo → IO W (option DS);
  arg_hasActionAlias : TypeInfo → bool; (* [buildActionAlias] gives a data source *)
  arg_copy : DS → C → C * DS;
  handle_copy : nat → C → C * nat; (* a handle, by its address *)
  arg_getBool : DS → IO W bool; (* [DataSource<bool>::get()] *)
}.

(** The exceptions of RTT's factories. *)
Inductive CallError :=
  | wrong_number_of_args (expected received : nat)
  | wrong_types_of_args (argument : nat) (expected received : string)
  | non_lvalue_args (argument : nat) (type : string)
  | call_runtime_error (what : string).

Section remote_operation.
Context {W DS Port Variant NodeId UA_DataType DataType TypeInfo R CN Client StatusCode C : Type}.
Context `{EqDecision TypeInfo} `{!Countable TypeInfo} `{EqDecision DS}.
Context `{NodeIds NodeId} `{DataTypes NodeId UA_DataType DataType}.
Context `{StatusCodes StatusCode} `{!StatusConstants StatusCode}.
Context `{!ClientServices CN Client NodeId Variant DataType StatusCode}.
Context `{!OperationSources W DS TypeInfo C}.
Notation TypeCodec := (TypeCodec W DS Port Variant NodeId UA_DataType).
Notation TypeProtocol := (TypeProtocol W DS Port Variant NodeId UA_DataType).
Notation EndpointTypeRegistry := (EndpointTypeRegistry UA_DataType DataType TypeInfo TypeCodec).
Context `{TypeInfos TypeInfo R TypeProtocol}.
Notation session_world := (@world W DS Port Variant NodeId UA_DataType DataType TypeInfo CN Client _ _).
Notation RemoteOperationDescription := (RemoteOperationDescription NodeId).
(** [opcua::Variant value]. *)
Context (empty_variant : Variant).

Definition DataSourceList : Type := list (option DS).

(** ** Arguments *)

Fixpoint copyDataSources (sources : DataSourceList) (already_cloned : C) : C * DataSourceList :=
  match sources with
  | [] => (already_cloned, [])
  | source :: sources' =>
      let '(already_cloned, copied) :=
        match source with
        | Some source => let '(already_cloned, copied) := arg_copy source already_cloned in (already_cloned, Some copied)
        | None => (already_cloned, None)
        end in
      let '(already_cloned, copies) := copyDataSources sources' already_cloned in
      (already_cloned, copied :: copies)
  end.

(** The codec of a data source, followed. *)
Definition source_codec_of (registry : EndpointTypeRegistry) (source : option DS) : option TypeCodec :=
  codec ← codecForDataSource (λ source, Some (arg_typeInfo source)) registry source;
  deref_codec registry codec.

(** The loop of [encodeArguments]; [None] is a failure. *)
Fixpoint encode_loop (registry : EndpointTypeRegistry) (arguments : DataSourceList) (inputs : list Variant) :
    IO W (option (list Variant)) :=
  match arguments with
  | [] => mret (Some inputs)
  | argument :: arguments' =>
      match source_codec_of registry argument with
      | None => mret None
      | Some codec =>
          '(encoded, value) ← toVariant codec argument (Some empty_variant);
          if negb encoded then mret None
          else encode_loop registry arguments' (inputs ++ [default empty_variant value])
      end
  end.

(** The flag and the inputs; they are cleared by every failure. *)
Definition encodeArguments (registry : EndpointTypeRegistry) (arguments : DataSourceList) :
    IO W (bool * list Variant) :=
  catch_all
    (encoded ← encode_loop registry arguments [];
     mret (match encoded with Some inputs => (true, inputs) | None => (false, []) end))
    (λ _, mret (false, [])).

Definition name_codec (registry : EndpointTypeRegistry) (type_name : string) : option TypeCodec :=
  codec ← codecForTypeName registry type_name; deref_codec registry codec.

(** Where an output goes. *)
Definition output_destination (source : Z) (arguments : DataSourceList) (return_value : option DS) : option DS :=
  if (source =? -1)%Z then return_value
  else if (0 <=? source)%Z then mjoin (arguments !! Z.to_nat source) else None.

(** Every output to its destination until one fails; a call, unlike a
    collection, tests for null destinations itself. *)
Fixpoint assign_loop (registry : EndpointTypeRegistry) (test_null : bool) (outputs : list Variant)
    (output_types : list string) (destinations : list (option DS)) : IO W bool :=
  match outputs, output_types, destinations with
  | output :: outputs', type_name :: output_types', destination :: destinations' =>
      match name_codec registry type_name with
      | Some codec =>
          if test_null && bool_decide (destination = None) then mret false
          else
            assigned ← assignVariant codec output destination;
            if negb assigned then mret false
            else assign_loop registry test_null outputs' output_types' destinations'
      | None => mret false
      end
  | _, _, _ => mret true
  end.

Definition assignCallOutputs (registry : EndpointTypeRegistry) (result : RemoteCallResult Variant)
    (output_types : list string) (output_sources : list Z) (arguments : DataSourceList)
    (return_value : option DS) : IO W bool :=
  if negb (rcr_success result) || negb (length (rcr_outputs result) =? length output_types) ||
     negb (length output_types =? length output_sources)
  then mret false
  else assign_loop registry true (rcr_outputs result) output_types
         ((λ source, output_destination source arguments return_value) <$> output_sources).

(** ** The world of calls

    The session, the RTT heap, the futures of sent calls by their addresses, and
    the handles, data sources of invocation pointers. *)
Record Future := {
  fu_object : NodeId;
  fu_method : NodeId;
  fu_inputs : list Variant;
  fu_result : option (exn + RemoteCallResult Variant); (* [None] while it runs *)
}.

Record op_world := {
  ow_session : session_world;
  ow_rtt : W;
  ow_futures : gmap nat Future;
  ow_handles : gmap nat (option nat);
}.

Definition call_session {A} (m : IO session_world A) : IO op_world A := λ w,
  let '(session, result) := m (ow_session w) in
  ({| ow_session := session; ow_rtt := ow_rtt w; ow_futures := ow_futures w; ow_handles := ow_handles w |}, result).

Definition call_rtt {A} (m : IO W A) : IO op_world A := λ w,
  let '(rtt, result) := m (ow_rtt w) in
  ({| ow_session := ow_session w; ow_rtt := rtt; ow_futures := ow_futures w; ow_handles := ow_handles w |}, result).

(** ** [RemoteCallAction] *)

Record RemoteCallAction := {
  rca_registry : option EndpointTypeRegistry;
  rca_object_id : NodeId;
  rca_method_id : NodeId;
  rca_arguments : DataSourceList;
  rca_output_types : list string;
  rca_output_sources : list Z;
  rca_return_value : option DS;
  rca_inputs : list Variant;
  rca_prepared : bool;
}.

Definition new_call_action registry (object_id method_id : NodeId) (arguments : DataSourceList)
    (output_types : list string) (output_sources : list Z) (return_value : option DS) : RemoteCallAction :=
  {| rca_registry := registry; rca_object_id := object_id; rca_method_id := method_id;
     rca_arguments := arguments; rca_output_types := output_types; rca_output_sources := output_sources;
     rca_return_value := return_value; rca_inputs := []; rca_prepared := false |}.

(** [prepared_] and, when there is a registry, [inputs_]. *)
Definition call_readArguments (action : RemoteCallAction) : IO op_world RemoteCallAction :=
  '(prepared, inputs) ←
    match rca_registry action with
    | Some registry => call_rtt (encodeArguments registry (rca_arguments action))
    | None => mret (false, rca_inputs action)
    end;
  mret {| rca_registry := rca_registry action; rca_object_id := rca_object_id action;
          rca_method_id := rca_method_id action; rca_arguments := rca_arguments action;
          rca_output_types := rca_output_types action; rca_output_sources := rca_output_sources action;
          rca_return_value := rca_return_value action; rca_inputs := inputs; rca_prepared := prepared |}.

Definition call_execute (action : RemoteCallAction) : IO op_world bool :=
  if negb (rca_prepared action) then mret false
  else
    result ← call_session (call (rca_object_id action) (rca_method_id action) (rca_inputs action));
    match rca_registry action with
    | Some registry =>
        call_rtt (assignCallOutputs registry result (rca_output_types action) (rca_output_sources action)
                    (rca_arguments action) (rca_return_value action))
    | None => mret false
    end.

Definition call_clone (action : RemoteCallAction) : RemoteCallAction :=
  new_call_action (rca_registry action) (rca_object_id action) (rca_method_id action) (rca_arguments action)
    (rca_output_types action) (rca_output_sources action) (rca_return_value action).

(** The return value is copied first. *)
Definition call_copy (action : RemoteCallAction) (already_cloned : C) : C * RemoteCallAction :=
  let '(already_cloned, returns) := copyDataSources [rca_return_value action] already_cloned in
  let '(already_cloned, arguments) := copyDataSources (rca_arguments action) already_cloned in
  (already_cloned,
   new_call_action (rca_registry action) (rca_object_id action) (rca_method_id action) arguments
     (rca_output_types action) (rca_output_sources action) (mjoin (head returns))).

(** ** [RemoteSendAction] *)

Record RemoteSendAction := {
  rsa_registry : option EndpointTypeRegistry;
  rsa_object_id : NodeId;
  rsa_method_id : NodeId;
  rsa_arguments : DataSourceList;
  rsa_handle : nat;
  rsa_inputs : list Variant;
  rsa_prepared : bool;
}.

Definition new_send_action registry (object_id method_id : NodeId) (arguments : DataSourceList) (handle : nat)
    : RemoteSendAction :=
  {| rsa_registry := registry; rsa_object_id := object_id; rsa_method_id := method_id;
     rsa_arguments := arguments; rsa_handle := handle; rsa_inputs := []; rsa_prepared := false |}.

Definition send_readArguments (action : RemoteSendAction) : IO op_world RemoteSendAction :=
  '(prepared, inputs) ←
    match rsa_registry action with
    | Some registry => call_rtt (encodeArguments registry (rsa_arguments action))
    | None => mret (false, rsa_inputs action)
    end;
  mret {| rsa_registry := rsa_registry action; rsa_object_id := rsa_object_id action;
          rsa_method_id := rsa_method_id action; rsa_arguments := rsa_arguments action;
          rsa_handle := rsa_handle action; rsa_inputs := inputs; rsa_prepared := prepared |}.

(** [handle_->set(invocation)]. *)
Definition set_handle (handle : nat) (invocation : option nat) : IO op_world unit := io_modify (λ w,
  {| ow_session := ow_session w; ow_rtt := ow_rtt w; ow_futures := ow_futures w;
     ow_handles := <[handle := invocation]> (ow_handles w) |}).

(** [std::async]: the call starts on another thread with copies of the ids and
    of the inputs. *)
Definition launch (object_id method_id : NodeId) (inputs : list Variant) : IO op_world nat := λ w,
  let id := fresh (dom (ow_futures w)) in
  let future := {| fu_object := object_id; fu_method := method_id; fu_inputs := inputs; fu_result := None |} in
  ({| ow_session := ow_session w; ow_rtt := ow_rtt w; ow_futures := <[id := future]> (ow_futures w);
      ow_handles := ow_handles w |}, inr id).

(** [async_started] is whether [std::async] could start a thread. *)
Definition send_execute (async_started : bool) (action : RemoteSendAction) : IO op_world bool :=
  if negb (rsa_prepared action) then mret false
  else if async_started then
    invocation ← launch (rsa_object_id action) (rsa_method_id action) (rsa_inputs action);
    set_handle (rsa_handle action) (Some invocation) ;;
    mret true
  else set_handle (rsa_handle action) None ;; mret false.

Definition send_clone (action : RemoteSendAction) : RemoteSendAction :=
  new_send_action (rsa_registry action) (rsa_object_id action) (rsa_method_id action) (rsa_arguments action)
    (rsa_handle action).

(** The handle is copied first. *)
Definition send_copy (action : RemoteSendAction) (already_cloned : C) : C * RemoteSendAction :=
  let '(already_cloned, handle) := handle_copy (rsa_handle action) already_cloned in
  let '(already_cloned, arguments) := copyDataSources (rsa_arguments action) already_cloned in
  (already_cloned,
   new_send_action (rsa_registry action) (rsa_object_id action) (rsa_method_id action) arguments handle).

(** The thread of a sent call. *)
Definition run_future (id : nat) (w : op_world) : op_world :=
  match ow_futures w !! id with
  | Some future =>
      match fu_result future with
      | Some _ => w
      | None =>
          let '(session, result) := call (fu_object future) (fu_method future) (fu_inputs future) (ow_session w) in
          {| ow_session := session; ow_rtt := ow_rtt w;
             ow_futures := <[id := {| fu_object := fu_object future; fu_method := fu_method future;
                                      fu_inputs := fu_inputs future; fu_result := Some result |}]> (ow_futures w);
             ow_handles := ow_handles w |}
      end
  | None => w
  end.

(** ** [RemoteCollectDataSource] *)

Record RemoteCollectDataSource := {
  rcd_registry : option EndpointTypeRegistry;
  rcd_invocation : option nat;
  rcd_destinations : DataSourceList;
  rcd_output_types : list string;
  rcd_blocking : DS;
  rcd_status : SendStatus;
}.

Definition new_collect registry invocation destinations output_types blocking : RemoteCollectDataSource :=
  {| rcd_registry := registry; rcd_invocation := invocation; rcd_destinations := destinations;
     rcd_output_types := output_types; rcd_blocking := blocking; rcd_status := SendNotReady |}.

Definition with_send_status (status : SendStatus) (source : RemoteCollectDataSource) : RemoteCollectDataSource :=
  {| rcd_registry := rcd_registry source; rcd_invocation := rcd_invocation source;
     rcd_destinations := rcd_destinations source; rcd_output_types := rcd_output_types source;
     rcd_blocking := rcd_blocking source; rcd_status := status |}.

(** The [try] block once the blocking flag is known: [None] waits for the call. *)
Definition collect_result (source : RemoteCollectDataSource) (id : nat) (blocking : bool) :
    IO op_world (option SendStatus) :=
  result ← io_gets (λ w, future ← ow_futures w !! id; fu_result future);
  match result with
  | None => mret (if blocking then None else Some SendNotReady)
  | Some (inl e) => io_throw e
  | Some (inr result) =>
      if negb (rcr_success result) ||
         negb (length (rcr_outputs result) =? length (rcd_destinations source)) ||
         negb (length (rcd_destinations source) =? length (rcd_output_types source))
      then mret (Some SendFailure)
      else
        assigned ←
          match rcd_registry source with
          | Some registry =>
              call_rtt (assign_loop registry false (rcr_outputs result) (rcd_output_types source) (rcd_destinations source))
          | None => mret (bool_decide (rcd_destinations source = []))
          end;
        mret (Some (if assigned : bool then SendSuccess else SendFailure))
  end.

(** [get()]: the data source after it and the status, or [None] while it waits. *)
Definition collect_get (source : RemoteCollectDataSource) :
    IO op_world (RemoteCollectDataSource * option SendStatus) :=
  match rcd_status source with
  | SendSuccess | SendFailure => mret (source, Some (rcd_status source))
  | SendNotReady =>
      match rcd_invocation source with
      | None => mret (with_send_status SendFailure source, Some SendFailure)
      | Some id =>
          status ← catch_all
            (blocking ← call_rtt (arg_getBool (rcd_blocking source));
             collect_result source id blocking)
            (λ _, mret (Some SendFailure));
          mret (match status with Some status => with_send_status status source | None => source end, status)
      end
  end.

Definition collect_value (source : RemoteCollectDataSource) : SendStatus := rcd_status source.

Definition collect_clone (source : RemoteCollectDataSource) : RemoteCollectDataSource :=
  new_collect (rcd_registry source) (rcd_invocation source) (rcd_destinations source)
    (rcd_output_types source) (rcd_blocking source).

(** The blocking flag is copied first. *)
Definition collect_copy (source : RemoteCollectDataSource) (already_cloned : C) : C * RemoteCollectDataSource :=
  let '(already_cloned, blocking) := arg_copy (rcd_blocking source) already_cloned in
  let '(already_cloned, destinations) := copyDataSources (rcd_destinations source) already_cloned in
  (already_cloned,
   new_collect (rcd_registry source) (rcd_invocation source) destinations (rcd_output_types source) blocking).

(** ** [RemoteOperation] *)

Record RemoteOperation := {
  ro_registry : EndpointTypeRegistry;
  ro_description : RemoteOperationDescription;
  ro_input_types : list TypeInfo;
  ro_output_types : list TypeInfo;
  ro_return_type : TypeInfo;
  ro_mutable_arguments : gset nat;
  ro_arguments : list ArgumentDescription;
}.

(** The two loops over type names. *)
Fixpoint bound_types (r : R) (registry : EndpointTypeRegistry) (kind : string) (names : list string) :
    string + list TypeInfo :=
  match names with
  | [] => inr []
  | name :: names' =>
      let unsupported := "unsupported remote RTT " +:+ kind +:+ " type '" +:+ name +:+ "'" in
      match types_type r name with
      | None => inl unsupported
      | Some type =>
          match codecForTypeInfo registry type with
          | None => inl unsupported
          | Some _ =>
              match bound_types r registry kind names' with
              | inl message => inl message
              | inr types => inr (type :: types)
              end
          end
      end
  end.

(** The loop over the output sources: the return type and the mutable arguments. *)
Fixpoint place_outputs (name : string) (input_types : list TypeInfo) (outputs : list (TypeInfo * Z))
    (return_type : option TypeInfo) (mutable_arguments : gset nat) : string + (option TypeInfo * gset nat) :=
  match outputs with
  | [] => inr (return_type, mutable_arguments)
  | (type, source) :: outputs' =>
      if (source =? -1)%Z then
        match return_type with
        | Some _ => inl ("multiple return values for remote RTT operation '" +:+ name +:+ "'")
        | None => place_outputs name input_types outputs' (Some type) mutable_arguments
        end
      else if ((0 <=? source) && (source <? Z.of_nat (length input_types)))%Z then
        let index := Z.to_nat source in
        if negb (bool_decide (input_types !! index = Some type)) || bool_decide (index ∈ mutable_arguments)
        then inl ("inconsistent mutable output for remote RTT operation '" +:+ name +:+ "'")
        else place_outputs name input_types outputs' return_type ({[index]} ∪ mutable_arguments)
      else inl ("invalid output source for remote RTT operation '" +:+ name +:+ "'")
  end.

Definition describe_argument (description : RemoteOperationDescription) (mutable_arguments : gset nat)
    (index : nat) (type : TypeInfo) : ArgumentDescription :=
  {| ad_name :=
       match rod_input_names description !! index with
       | Some name => if str_empty name then "argument" +:+ to_string (N.of_nat (index + 1)) else name
       | None => "argument" +:+ to_string (N.of_nat (index + 1))
       end;
     ad_description := default "" (rod_input_descriptions description !! index);
     ad_type := if decide (index ∈ mutable_arguments) then ti_getTypeName type +:+ " &" else ti_getTypeName type |}.

(** The constructor: a [std::runtime_error] or the object. *)
Definition makeRemoteOperation (r : R) (type_registry : option EndpointTypeRegistry)
    (description : RemoteOperationDescription) : string + RemoteOperation :=
  match type_registry with
  | None => inl "OPC UA client type registry is unavailable"
  | Some registry =>
      match bound_types r registry "input" (rod_input_types description) with
      | inl message => inl message
      | inr input_types =>
          match bound_types r registry "output" (rod_output_types description) with
          | inl message => inl message
          | inr output_types =>
              if negb (length output_types =? length (rod_output_sources description))
              then inl ("inconsistent output metadata for remote RTT operation '" +:+ rod_name description +:+ "'")
              else
                match place_outputs (rod_name description) input_types
                        (zip output_types (rod_output_sources description)) None ∅ with
                | inl message => inl message
                | inr (return_type, mutable_arguments) =>
                    match (match return_type with Some type => Some type | None => types_type r "Void" end) with
                    | None => inl "RTT Void type is not registered"
                    | Some return_type => inr
                        {| ro_registry := registry; ro_description := description;
                           ro_input_types := input_types; ro_output_types := output_types;
                           ro_return_type := return_type; ro_mutable_arguments := mutable_arguments;
                           ro_arguments := imap (describe_argument description mutable_arguments) input_types |}
                    end
                end
          end
      end
  end.

(** ** The interface part *)

Definition ro_getName (operation : RemoteOperation) : string := rod_name (ro_description operation).
Definition ro_getDescription (operation : RemoteOperation) : string := rod_description (ro_description operation).
Definition ro_getArgumentList (operation : RemoteOperation) : list ArgumentDescription := ro_arguments operation.
Definition ro_resultType (operation : RemoteOperation) : string := ti_getTypeName (ro_return_type operation).

(** [static_cast<unsigned int>] of a size. *)
Definition unsigned_size {A} (l : list A) : N := (N.of_nat (length l) mod 2 ^ 32)%N.

Definition ro_arity (operation : RemoteOperation) : N := unsigned_size (ro_input_types operation).
Definition ro_collectArity (operation : RemoteOperation) : N := unsigned_size (ro_output_types operation).

Definition ro_getArgumentType (operation : RemoteOperation) (argument : N) : option TypeInfo :=
  if (argument =? 0)%N then Some (ro_return_type operation)
  else if (N.of_nat (length (ro_input_types operation)) <? argument)%N then None
  else ro_input_types operation !! N.to_nat (argument - 1).

Definition ro_getCollectType (operation : RemoteOperation) (argument : N) : option TypeInfo :=
  if (argument =? 0)%N || (N.of_nat (length (ro_output_types operation)) <? argument)%N then None
  else ro_output_types operation !! N.to_nat (argument - 1).

(** The loop of [validateArguments], from [index]. *)
Fixpoint validate_arguments (operation : RemoteOperation) (index : nat) (types : list TypeInfo)
    (arguments : DataSourceList) : option CallError :=
  match types, arguments with
  | type :: types', argument :: arguments' =>
      let received := match argument with Some source => ti_getTypeName (arg_typeInfo source) | None => "null" end in
      let expected := ti_getTypeName type in
      let bound := codecForDataSource (λ source, Some (arg_typeInfo source)) (ro_registry operation) argument in
      if bool_decide (argument = None) || negb (String.eqb received expected) || bool_decide (bound = None)
      then Some (wrong_types_of_args (index + 1) expected received)
      else if bool_decide (index ∈ ro_mutable_arguments operation) &&
              negb (from_option arg_isAssignable false argument)
      then Some (non_lvalue_args (index + 1) received)
      else validate_arguments operation (S index) types' arguments'
  | _, _ => None
  end.

Definition validateArguments (operation : RemoteOperation) (arguments : DataSourceList) : option CallError :=
  if negb (length arguments =? length (ro_input_types operation))
  then Some (wrong_number_of_args (length (ro_input_types operation)) (length arguments))
  else validate_arguments operation 0 (ro_input_types operation) arguments.

Fixpoint validate_destinations (index : nat) (types : list TypeInfo) (destinations : DataSourceList) :
    option CallError :=
  match types, destinations with
  | type :: types', destination :: destinations' =>
      let received := match destination with Some source => ti_getTypeName (arg_typeInfo source) | None => "null" end in
      let expected := ti_getTypeName type in
      if bool_decide (destination = None) || negb (from_option arg_isAssignable false destination) ||
         negb (String.eqb received expected)
      then Some (wrong_types_of_args (index + 1) expected received)
      else validate_destinations (S index) types' destinations'
  | _, _ => None
  end.

Definition validateDestinations (operation : RemoteOperation) (destinations : DataSourceList) : option CallError :=
  validate_destinations 0 (ro_output_types operation) destinations.

(** [produce]: the action of a command, or that of an alias of its return value. *)
Definition produce (operation : RemoteOperation) (arguments : DataSourceList) :
    IO W (CallError + RemoteCallAction) :=
  match validateArguments operation arguments with
  | Some error => mret (inl error)
  | None =>
      let action return_value :=
        new_call_action (Some (ro_registry operation)) (rod_object_id (ro_description operation))
          (rod_method_id (ro_description operation)) arguments (rod_output_types (ro_description operation))
          (rod_output_sources (ro_description operation)) return_value in
      if String.eqb (ti_getTypeName (ro_return_type operation)) "Void" then mret (inr (action None))
      else
        return_value ← arg_buildValue (ro_return_type operation);
        match return_value with
        | None => mret (inl (call_runtime_error "failed to allocate remote RTT return value"))
        | Some _ =>
            if arg_hasActionAlias (ro_return_type operation) then mret (inr (action return_value))
            else mret (inl (call_runtime_error "failed to build remote RTT call data source"))
        end
  end.

(** A new data source of an invocation pointer, null at first. *)
Definition produceHandle : IO op_world nat := λ w,
  let handle := fresh (dom (ow_handles w)) in
  ({| ow_session := ow_session w; ow_rtt := ow_rtt w; ow_futures := ow_futures w;
      ow_handles := <[handle := None]> (ow_handles w) |}, inr handle).

Definition produceSend (operation : RemoteOperation) (arguments : DataSourceList) :
    IO op_world (CallError + RemoteSendAction) :=
  match validateArguments operation arguments with
  | Some error => mret (inl error)
  | None =>
      handle ← produceHandle;
      mret (inr (new_send_action (Some (ro_registry operation)) (rod_object_id (ro_description operation))
                   (rod_method_id (ro_description operation)) arguments handle))
  end.

(** The first argument is a handle, or a data source of another type. *)
Definition produceCollect (operation : RemoteOperation) (handle : option (nat + DS)) (destinations : DataSourceList)
    (blocking : DS) : IO op_world (CallError + RemoteCollectDataSource) :=
  let expected := length (ro_output_types operation) + 1 in
  match handle with
  | None => mret (inl (wrong_number_of_args expected 0))
  | Some handle =>
      if negb (S (length destinations) =? expected)
      then mret (inl (wrong_number_of_args expected (S (length destinations))))
      else
        match handle with
        | inr source =>
            mret (inl (wrong_types_of_args 0 "OPC UA remote send handle" (ti_getTypeName (arg_typeInfo source))))
        | inl handle =>
            match validateDestinations operation destinations with
            | Some error => mret (inl error)
            | None =>
                invocation ← io_gets (λ w, mjoin (ow_handles w !! handle));
                mret (inr (new_collect (Some (ro_registry operation)) invocation destinations
                             (rod_output_types (ro_description operation)) blocking))
            end
        end
  end.
End remote_operation.
