(* ===== verification/RemoteOperationSpec.v ===== *)
(** What a mirrored operation promises: which descriptions are accepted and what
    the interface part then reports, what a call is checked against, and how the
    collection of a sent call ends. *)

From S2P Require Import Prelude NodeId Native Concrete DataTypeRegistry TypeProtocol EndpointTypeRegistry.
From S2P Require Import OperationDispatcher AddressSpace ConcreteServer NodeSpecs Client ClientDiscovery.
From S2P Require Import PortDataSources ConcreteClient RemotePort RemotePortSpec RemoteOperation.

Section interface.
Context {W DS Port Variant NodeId UA_DataType DataType TypeInfo R CN Client StatusCode C : Type}.
Context `{EqDecision TypeInfo} `{!Countable TypeInfo} `{EqDecision DS}.
Context `{!OperationSources W DS TypeInfo C}.
Notation TypeCodec := (TypeCodec W DS Port Variant NodeId UA_DataType).
Notation TypeProtocol := (TypeProtocol W DS Port Variant NodeId UA_DataType).
Notation EndpointTypeRegistry := (EndpointTypeRegistry UA_DataType DataType TypeInfo TypeCodec).
Context `{TypeInfos TypeInfo R TypeProtocol}.
Notation RemoteOperationDescription := (RemoteOperationDescription NodeId).
Notation RemoteOperation :=
  (@RemoteOperation W DS Port Variant NodeId UA_DataType DataType TypeInfo _ _).
Implicit Types (description : RemoteOperationDescription) (operation : RemoteOperation).

(** ** Specification *)

(** A local type of that name which the endpoint can encode. *)
Definition bound_type (r : R) (registry : EndpointTypeRegistry) (name : string) (type : TypeInfo) : Prop :=
  types_type r name = Some type ∧ is_Some (codecForTypeInfo registry type).

(** An output is the return value, or an input of the same type. *)
Definition placed (inputs : list TypeInfo) (type : TypeInfo) (source : Z) : Prop :=
  source = (-1)%Z ∨ (0 ≤ source)%Z ∧ inputs !! Z.to_nat source = Some type.

(** The type of the output that is the return value. *)
Definition returned (outputs : list (TypeInfo * Z)) : option TypeInfo :=
  fst <$> head (filter (λ output, output.2 = (-1)%Z) outputs).

(** [operation] is what its description says. *)
Record mirrors (r : R) (registry : EndpointTypeRegistry) description operation : Prop := {
  mi_registry : ro_registry operation = registry;
  mi_description : ro_description operation = description;
  mi_inputs : Forall2 (bound_type r registry) (rod_input_types description) (ro_input_types operation);
  mi_outputs : Forall2 (bound_type r registry) (rod_output_types description) (ro_output_types operation);
  mi_sources : NoDup (rod_output_sources description);
  mi_placed : Forall2 (placed (ro_input_types operation)) (ro_output_types operation) (rod_output_sources description);
  mi_return :
    match returned (zip (ro_output_types operation) (rod_output_sources description)) with
    | Some type => ro_return_type operation = type
    | None => types_type r "Void" = Some (ro_return_type operation)
    end;
  mi_mutable index : index ∈ ro_mutable_arguments operation ↔ Z.of_nat index ∈ rod_output_sources description;
  mi_arguments : ro_arguments operation =
    imap (describe_argument description (ro_mutable_arguments operation)) (ro_input_types operation);
}.

(** The object's interface has the signature with these type names: every input
    and output has the local type of its name, the argument list shows the type
    and the reference mark of a mutable argument, and the result is of the named
    type, or [Void] where there is none. *)
Record has_signature (r : R) (registry : EndpointTypeRegistry) (inputs outputs : list string) (result : option string)
    operation : Prop := {
  sg_arity : length (ro_getArgumentList operation) = length inputs ∧
    ro_arity operation = unsigned_size inputs ∧ ro_collectArity operation = unsigned_size outputs;
  sg_argument index name : inputs !! index = Some name → ∃ type argument,
    ro_getArgumentType operation (N.of_nat (S index)) = Some type ∧ bound_type r registry name type ∧
    ro_getArgumentList operation !! index = Some argument ∧
    ad_type argument = ti_getTypeName type +:+ (if decide (index ∈ ro_mutable_arguments operation) then " &" else "");
  sg_collect index name : outputs !! index = Some name → ∃ type,
    ro_getCollectType operation (N.of_nat (S index)) = Some type ∧ bound_type r registry name type;
  sg_result : ∃ type, ro_getArgumentType operation 0 = Some type ∧ ro_resultType operation = ti_getTypeName type ∧
    match result with
    | Some name => bound_type r registry name type
    | None => types_type r "Void" = Some type
    end;
}.

(** An argument the operation can be called with. *)
Definition callable operation (index : nat) (type : TypeInfo) (argument : option DS) : Prop :=
  ∃ source, argument = Some source ∧ ti_getTypeName (arg_typeInfo source) = ti_getTypeName type ∧
    is_Some (codecForDataSource (λ source, Some (arg_typeInfo source)) (ro_registry operation) argument) ∧
    (index ∈ ro_mutable_arguments operation → arg_isAssignable source = true).

(** What is wrong with the argument at [index]. *)
Definition argument_error operation (index : nat) (type : TypeInfo) (argument : option DS) (error : CallError) : Prop :=
  let received := from_option (λ source, ti_getTypeName (arg_typeInfo source)) "null" argument in
  error = wrong_types_of_args (index + 1) (ti_getTypeName type) received ∧
    (argument = None ∨ received ≠ ti_getTypeName type ∨
     codecForDataSource (λ source, Some (arg_typeInfo source)) (ro_registry operation) argument = None) ∨
  error = non_lvalue_args (index + 1) received ∧ index ∈ ro_mutable_arguments operation ∧
    from_option arg_isAssignable false argument = false.

(** A list of arguments the operation can be called with. *)
Definition call_accepted operation (arguments : DataSourceList (DS := DS)) : Prop :=
  length arguments = length (ro_input_types operation) ∧
  ∀ k type argument, ro_input_types operation !! k = Some type → arguments !! k = Some argument →
    callable operation k type argument.

(** [error] says what is wrong with the first argument that is. *)
Definition first_error operation (arguments : DataSourceList (DS := DS)) (error : CallError) : Prop :=
  ∃ k type argument, ro_input_types operation !! k = Some type ∧ arguments !! k = Some argument ∧
    argument_error operation k type argument error ∧
    ∀ j type' argument', j < k → ro_input_types operation !! j = Some type' → arguments !! j = Some argument' →
      callable operation j type' argument'.

(** The schema of the server's operation and the client's description of it. *)
Definition describes {SNode} (schema : OperationSchema SNode) description : Prop :=
  rod_input_types description = input_type_names schema ∧
  rod_output_types description = output_type_names schema ∧
  rod_output_sources description = output_sources schema.

(** ** Lemmas *)

Lemma bound_types_spec r registry kind names types :
  bound_types r registry kind names = inr types ↔ Forall2 (bound_type r registry) names types.
Proof.
  revert types. induction names as [|name names IH]; intros types; simpl.
  - split; [intros [= <-]; constructor|by intros ->%Forall2_nil_inv_l].
  - destruct (types_type r name) as [type|] eqn:Htype;
      [|split; [done|intros (? & ? & [? _] & _)%Forall2_cons_inv_l; congruence]].
    destruct (codecForTypeInfo registry type) eqn:Hcodec;
      [|split; [done|intros (? & ? & [? [? ?]] & _)%Forall2_cons_inv_l; congruence]].
    destruct (bound_types r registry kind names) as [|rest]; (split; [try done|]).
    + intros (? & rest & _ & Hrest%IH & _)%Forall2_cons_inv_l. done.
    + intros [= <-]. constructor; [split; eauto|by apply IH].
    + intros (type' & rest' & [Htype' _] & Hrest%IH & ->)%Forall2_cons_inv_l. congruence.
Qed.
Lemma returned_first type outputs : returned ((type, (-1)%Z) :: outputs) = Some type.
Proof. unfold returned. by rewrite filter_cons, decide_True. Qed.

Lemma returned_none outputs : (-1)%Z ∉ outputs.*2 → returned outputs = None.
Proof.
  intros Hnone. unfold returned. destruct (filter _ outputs) as [|output rest] eqn:Hfilter; [done|].
  assert (Hin : output ∈ filter (λ output, output.2 = (-1)%Z) outputs) by (rewrite Hfilter; left).
  apply list_elem_of_filter in Hin as [Hsource Hin]. destruct Hnone. rewrite <-Hsource.
  by apply list_elem_of_fmap_2.
Qed.

(** What the loop over the outputs accepts from a state on, and what it returns. *)
Definition places (inputs : list TypeInfo) (outputs : list (TypeInfo * Z))
    (return_type : option TypeInfo) (mutable : gset nat)
    (return_type' : option TypeInfo) (mutable' : gset nat) : Prop :=
  NoDup outputs.*2 ∧ Forall (λ output, placed inputs output.1 output.2) outputs ∧
  (is_Some return_type → (-1)%Z ∉ outputs.*2) ∧ (∀ index, index ∈ mutable → Z.of_nat index ∉ outputs.*2) ∧
  return_type' = match returned outputs with Some type => Some type | None => return_type end ∧
  ∀ index, index ∈ mutable' ↔ index ∈ mutable ∨ Z.of_nat index ∈ outputs.*2.

Lemma places_nil inputs return_type mutable return_type' mutable' :
  places inputs [] return_type mutable return_type' mutable' ↔ return_type' = return_type ∧ mutable' = mutable.
Proof.
  unfold places. simpl. split.
  - intros (_ & _ & _ & _ & -> & Hmutable). split; [done|]. apply set_eq. intros index.
    rewrite Hmutable. split; [|auto]. by intros [?|?%not_elem_of_nil].
  - intros [-> ->]. split_and!; try by constructor; try by (intros; apply not_elem_of_nil).
    + intros _. apply not_elem_of_nil.
    + intros index _. apply not_elem_of_nil.
    + intros index. split; [auto|]. by intros [?|?%not_elem_of_nil].
Qed.

Lemma places_return inputs type outputs return_type mutable return_type' mutable' :
  places inputs ((type, (-1)%Z) :: outputs) return_type mutable return_type' mutable' ↔
  return_type = None ∧ places inputs outputs (Some type) mutable return_type' mutable'.
Proof.
  unfold places, returned. rewrite filter_cons, decide_True by done. cbn [fmap list_fmap fst snd head option_fmap option_map].
  fold (returned outputs). rewrite NoDup_cons, Forall_cons. split.
  - intros ([Hnew Hnodup] & [_ Hplaced] & Hreturn & Hmutable & -> & Hmutable').
    rewrite (returned_none outputs Hnew). split.
    + destruct return_type; [|done]. destruct Hreturn; [eauto|left].
    + split_and!; try done.
      * intros index Hindex Hin. eapply Hmutable; [done|by right].
      * intros index. rewrite Hmutable', elem_of_cons. split; [|naive_solver]. intros [?|[?|?]]; [auto|lia|auto].
  - intros (-> & Hnodup & Hplaced & Hreturn & Hmutable & -> & Hmutable').
    rewrite (returned_none outputs) by (apply Hreturn; eauto). split_and!; try done.
    + apply Hreturn. eauto.
    + by left.
    + intros index Hindex [?|?]%elem_of_cons; [lia|]. by eapply Hmutable.
    + intros index. rewrite Hmutable', elem_of_cons. split; [naive_solver|]. intros [?|[?|?]]; [auto|lia|auto].
Qed.

Lemma places_argument inputs type source outputs return_type mutable return_type' mutable' :
  (0 ≤ source)%Z →
  places inputs ((type, source) :: outputs) return_type mutable return_type' mutable' ↔
  inputs !! Z.to_nat source = Some type ∧ Z.to_nat source ∉ mutable ∧
  places inputs outputs return_type ({[Z.to_nat source]} ∪ mutable) return_type' mutable'.
Proof.
  intros Hsource. unfold places, returned. rewrite filter_cons, decide_False by (simpl; lia).
  cbn [fmap list_fmap fst snd]. fold (returned outputs). rewrite NoDup_cons, Forall_cons.
  assert (Hindex : ∀ index, index ∈ ({[Z.to_nat source]} : gset nat) ∪ mutable ↔
    Z.of_nat index = source ∨ index ∈ mutable).
  { intros index. rewrite elem_of_union, elem_of_singleton. split; intros [?|?]; auto; left; lia. }
  split.
  - intros ([Hnew Hnodup] & [[?|[_ Htype]] Hplaced] & Hreturn & Hmutable & -> & Hmutable'); [simpl in *; lia|].
    split_and!; try done.
    + intros Hold. apply (Hmutable _ Hold). rewrite Z2Nat.id by done. left.
    + intros Hsome Hin. apply Hreturn; [done|by right].
    + intros index [<-|Hin]%Hindex Hin'; [done|]. eapply Hmutable; [done|by right].
    + intros index. rewrite Hmutable', Hindex, elem_of_cons. naive_solver.
  - intros (Htype & Hold & Hnodup & Hplaced & Hreturn & Hmutable & -> & Hmutable'). split_and!; try done.
    + intros Hin. apply (Hmutable (Z.to_nat source)); [apply Hindex; left|]; by rewrite Z2Nat.id.
    + by right.
    + intros Hsome [?|?]%elem_of_cons; [lia|]. by apply Hreturn.
    + intros index Hin [<-|?]%elem_of_cons; [by rewrite Nat2Z.id in Hold|].
      eapply (Hmutable index); [apply Hindex; auto|done].
    + intros index. rewrite Hmutable', Hindex, elem_of_cons. naive_solver.
Qed.

Lemma place_outputs_spec name inputs outputs return_type mutable return_type' mutable' :
  place_outputs name inputs outputs return_type mutable = inr (return_type', mutable') ↔
  places inputs outputs return_type mutable return_type' mutable'.
Proof.
  revert return_type mutable. induction outputs as [|[type source] outputs IH]; intros return_type mutable; simpl.
  - rewrite places_nil. split; [by intros [= <- <-]|by intros [-> ->]].
  - destruct (Z.eqb_spec source (-1)) as [->|Hne].
    + rewrite places_return, <-IH. destruct return_type; naive_solver.
    + destruct ((0 <=? source)%Z && (source <? Z.of_nat (length inputs))%Z) eqn:Hrange; simpl.
      * apply andb_true_iff in Hrange as [Hlow%Z.leb_le Hhigh%Z.ltb_lt]. rewrite places_argument, <-IH by done.
        destruct (bool_decide_reflect (inputs !! Z.to_nat source = Some type));
          destruct (bool_decide_reflect (Z.to_nat source ∈ mutable)); simpl; naive_solver.
      * split; [done|]. intros (_ & [[?|[Hlow Hsome%lookup_lt_Some]] _]%Forall_cons & _); [done|]. simpl in *.
        apply andb_false_iff in Hrange as [?%Z.leb_gt|?%Z.ltb_ge]; lia.
Qed.

Lemma makeRemoteOperation_mirrors r registry description operation :
  makeRemoteOperation r (Some registry) description = inr operation ↔ mirrors r registry description operation.
Proof.
  unfold makeRemoteOperation. split.
  - destruct (bound_types r registry "input" _) as [|inputs] eqn:Hins; [done|].
    destruct (bound_types r registry "output" _) as [|outputs] eqn:Houts; [done|].
    apply bound_types_spec in Hins, Houts.
    destruct (Nat.eqb_spec (length outputs) (length (rod_output_sources description))) as [Hlen|]; [simpl|done].
    destruct (place_outputs _ _ _ _ _) as [|[return_type mutable]] eqn:Hplace; [done|].
    apply place_outputs_spec in Hplace as (Hnodup & Hplaced & _ & _ & Hreturn & Hmutable).
    rewrite snd_zip in Hnodup, Hmutable by lia.
    destruct (match return_type with Some _ => _ | None => _ end) as [type|] eqn:Htype; [|done].
    intros [= <-]. split; simpl; try done.
    + apply Forall2_same_length_lookup_2; [done|]. intros k type' source Ht Hs.
      rewrite Forall_lookup in Hplaced. apply (Hplaced k (type', source)). rewrite lookup_zip_with; simpl. by rewrite Ht, Hs.
    + destruct (returned _); subst return_type; congruence.
    + intros index. rewrite Hmutable. split; [|auto]. by intros [?%elem_of_empty|?].
  - intros [Hregistry Hdescription Hins Houts Hnodup Hplaced Hreturn Hmutable Hargs].
    rewrite (proj2 (bound_types_spec r registry "input" _ _) Hins).
    rewrite (proj2 (bound_types_spec r registry "output" _ _) Houts).
    pose proof (Forall2_length _ _ _ Hplaced) as Hlen. rewrite (proj2 (Nat.eqb_eq _ _) Hlen). simpl.
    set (outputs := zip (ro_output_types operation) (rod_output_sources description)) in *.
    assert (Hplaces : places (ro_input_types operation) outputs None ∅ (returned outputs) (ro_mutable_arguments operation)).
    { unfold outputs, places. rewrite snd_zip by lia. split_and!; try done.
      - apply Forall_lookup. intros k output Hk. rewrite lookup_zip_with in Hk.
        destruct (ro_output_types operation !! k) as [type|] eqn:Ht; [|done]. destruct (rod_output_sources description !! k) as [source|] eqn:Hs; [|done].
        simplify_eq/=. by eapply Forall2_lookup_lr in Hplaced.
      - by destruct (returned _).
      - intros index. rewrite Hmutable. split; [auto|]. by intros [?%elem_of_empty|?]. }
    rewrite (proj2 (place_outputs_spec _ _ _ _ _ _ _) Hplaces).
    assert (Htype : match returned outputs with Some type => Some type | None => types_type r "Void" end =
      Some (ro_return_type operation)) by (by destruct (returned outputs); subst).
    rewrite Htype. f_equal. destruct operation; simpl in *. by subst.
Qed.

Lemma validate_arguments_spec operation index types arguments :
  length arguments = length types →
  match validate_arguments operation index types arguments with
  | None => ∀ k type argument, types !! k = Some type → arguments !! k = Some argument →
      callable operation (index + k) type argument
  | Some error => ∃ k type argument, types !! k = Some type ∧ arguments !! k = Some argument ∧
      argument_error operation (index + k) type argument error ∧
      ∀ j type' argument', j < k → types !! j = Some type' → arguments !! j = Some argument' →
        callable operation (index + j) type' argument'
  end.
Proof.
  revert index arguments. induction types as [|type types IH]; intros index [|argument arguments] Hlen; try done.
  simpl in Hlen |- *. set (received := match argument with Some _ => _ | None => _ end).
  assert (Hreceived : received = from_option (λ source, ti_getTypeName (arg_typeInfo source)) "null" argument)
    by (by destruct argument).
  destruct (_ || _ || _) eqn:Hwrong.
  - exists 0, type, argument. rewrite Nat.add_0_r. split_and!; try done; [|intros; lia]. left. rewrite <-Hreceived.
    split; [done|]. apply orb_true_iff in Hwrong as [[Hnull%bool_decide_eq_true|Hname]%orb_true_iff|Hcodec%bool_decide_eq_true];
      [auto| |auto]. right; left. apply negb_true_iff, String.eqb_neq in Hname. done.
  - apply orb_false_iff in Hwrong as [[Hnull%bool_decide_eq_false Hname%negb_false_iff]%orb_false_iff Hcodec%bool_decide_eq_false].
    apply String.eqb_eq in Hname. destruct argument as [source|]; [|done]. simpl in Hreceived.
    destruct (bool_decide (index ∈ ro_mutable_arguments operation) && negb (arg_isAssignable source)) eqn:Hlvalue; simpl.
    + rewrite Hlvalue. exists 0, type, (Some source). rewrite Nat.add_0_r. split_and!; try done; [|intros; lia].
      apply andb_true_iff in Hlvalue as [Hin%bool_decide_eq_true Hassign%negb_true_iff]. right. split_and!; [by rewrite Hreceived|done|done].
    + rewrite Hlvalue. assert (Hok : callable operation (index + 0) type (Some source)).
      { exists source. rewrite Nat.add_0_r. split_and!; [done|congruence|by apply not_eq_None_Some|].
        intros Hin. rewrite bool_decide_eq_true_2 in Hlvalue by done. by apply negb_false_iff. }
      specialize (IH (S index) arguments ltac:(lia)). destruct (validate_arguments _ _ _ _) as [error|].
      * destruct IH as (k & type' & argument' & Ht & Ha & Herror & Hbefore). exists (S k), type', argument'.
        rewrite Nat.add_succ_r. split_and!; [done..|].
        intros [|j] type'' argument''; [naive_solver|]. rewrite Nat.add_succ_r. intros ? ??. eapply Hbefore; [lia|done..].
      * intros [|k] type' argument'; [naive_solver|]. rewrite Nat.add_succ_r. apply IH.
Qed.

Lemma bound_names r registry names :
  (∀ name, name ∈ names → ∃ type, bound_type r registry name type) →
  ∃ types, Forall2 (bound_type r registry) names types.
Proof.
  induction names as [|name names IH]; intros Hnames; [by exists []|].
  destruct (Hnames name) as [type Htype]; [left|]. destruct IH as [types Htypes]; [intros; apply Hnames; by right|].
  exists (type :: types). by constructor.
Qed.

(** The types of entries that are bound here. *)
Lemma bound_entries {A B} (name_of : A → string) r registry (entries : list (A * B)) :
  (∀ entry, entry ∈ entries → ∃ type, bound_type r registry (name_of entry.1) type) →
  ∃ types, Forall2 (bound_type r registry) (name_of <$> entries.*1) types.
Proof.
  intros Hentries. apply bound_names. intros name (? & -> & (entry & -> & Hin)%list_elem_of_fmap)%list_elem_of_fmap. by apply Hentries.
Qed.

Lemma mutableArguments_spec arguments :
  NoDup (mutableArguments arguments) ∧ ∀ index, index ∈ mutableArguments arguments → index < length arguments.
Proof.
  unfold mutableArguments. split; [apply NoDup_filter, NoDup_seq|].
  intros index [_ Hin]%list_elem_of_filter. apply elem_of_seq in Hin. lia.
Qed.

Lemma expected_sources_NoDup arguments ret : NoDup (expected_sources arguments ret).
Proof.
  unfold expected_sources. destruct (mutableArguments_spec arguments) as [Hnodup _].
  assert (Hfmap : NoDup (Z.of_nat <$> mutableArguments arguments)) by (by apply NoDup_fmap_2; [apply Nat2Z.inj'|]).
  destruct ret; simpl; [|done]. constructor; [|done]. intros (index & ? & _)%list_elem_of_fmap. lia.
Qed.

(** A consistent description is accepted. *)
Lemma consistent_mirrored r registry description inputs outputs :
  Forall2 (bound_type r registry) (rod_input_types description) inputs →
  Forall2 (bound_type r registry) (rod_output_types description) outputs →
  NoDup (rod_output_sources description) →
  Forall2 (placed inputs) outputs (rod_output_sources description) →
  is_Some (types_type r "Void") →
  ∃ operation, makeRemoteOperation r (Some registry) description = inr operation ∧
    mirrors r registry description operation.
Proof.
  intros Hins Houts Hnodup Hplaced [void Hvoid].
  pose (mutable := list_to_set (C := gset nat)
    (Z.to_nat <$> filter (λ source, 0 ≤ source)%Z (rod_output_sources description))).
  pose (operation := {| ro_registry := registry; ro_description := description; ro_input_types := inputs;
    ro_output_types := outputs;
    ro_return_type := default void (returned (zip outputs (rod_output_sources description)));
    ro_mutable_arguments := mutable; ro_arguments := imap (describe_argument description mutable) inputs |}).
  exists operation. rewrite makeRemoteOperation_mirrors.
  assert (mirrors r registry description operation); [|done]. split; simpl; try done.
  - by destruct (returned _).
  - intros index. unfold mutable. rewrite elem_of_list_to_set, list_elem_of_fmap. split.
    + intros (source & -> & [Hsource Hin]%list_elem_of_filter). by rewrite Z2Nat.id.
    + intros Hin. exists (Z.of_nat index). rewrite Nat2Z.id, list_elem_of_filter. split_and!; [done|lia|done].
Qed.

(** An argument number within the list. *)
Lemma lookup_at_argument (types : list TypeInfo) index type :
  types !! index = Some type →
  (N.of_nat (S index) =? 0)%N = false ∧ (N.of_nat (length types) <? N.of_nat (S index))%N = false ∧
  N.to_nat (N.of_nat (S index) - 1) = index.
Proof.
  intros Hlt%lookup_lt_Some. split_and!; [by apply N.eqb_neq|apply N.ltb_ge|]; lia.
Qed.

(** What mirrors a description has the signature the description names. *)
Lemma mirrors_signature r registry description operation result :
  mirrors r registry description operation →
  match result with
  | Some name => ∃ rest sources, rod_output_types description = name :: rest ∧
      rod_output_sources description = (-1)%Z :: sources
  | None => (-1)%Z ∉ rod_output_sources description
  end →
  has_signature r registry (rod_input_types description) (rod_output_types description) result operation.
Proof.
  intros [Hregistry Hdescription Hins Houts Hnodup Hplaced Hreturn Hmutable Hargs] Hresult.
  pose proof (Forall2_length _ _ _ Hins) as Hlen. pose proof (Forall2_length _ _ _ Houts) as Hleno. split.
  - unfold ro_getArgumentList, ro_arity, ro_collectArity, unsigned_size. by rewrite Hargs, length_imap, Hlen, Hleno.
  - intros index name Hname. destruct (Forall2_lookup_l _ _ _ _ _ Hins Hname) as (type & Htype & Hbound).
    destruct (lookup_at_argument _ _ _ Htype) as (Hzero & Hrange & Hindex).
    exists type, (describe_argument description (ro_mutable_arguments operation) index type).
    unfold ro_getArgumentType, ro_getArgumentList. rewrite Hzero, Hrange, Hindex, Hargs, list_lookup_imap, Htype.
    split_and!; [done..|]. simpl. destruct (decide _); [done|by rewrite str_app_nil_r].
  - intros index name Hname. destruct (Forall2_lookup_l _ _ _ _ _ Houts Hname) as (type & Htype & Hbound).
    destruct (lookup_at_argument _ _ _ Htype) as (Hzero & Hrange & Hindex).
    exists type. unfold ro_getCollectType. by rewrite Hzero, Hrange, Hindex.
  - exists (ro_return_type operation). split_and!; [done..|]. destruct result as [name|].
    + destruct Hresult as (rest & sources & Hnames & Hsources). rewrite Hnames in Houts.
      apply Forall2_cons_inv_l in Houts as (type & types & Hbound & _ & Htypes).
      rewrite Htypes, Hsources in Hreturn. cbn [zip_with] in Hreturn.
      rewrite returned_first in Hreturn. by subst type.
    + rewrite returned_none in Hreturn; [done|]. rewrite snd_zip; [done|].
      apply Forall2_length in Hplaced. lia.
Qed.

(** A source the server publishes is the result or an argument. *)
Lemma expected_source arguments ret k source :
  expected_sources arguments ret !! k = Some source → source = (-1)%Z ∨ ∃ index, source = Z.of_nat index.
Proof.
  intros Hin%list_elem_of_lookup_2. unfold expected_sources in Hin.
  apply elem_of_app in Hin as [Hin|(index & -> & _)%list_elem_of_fmap]; [left|eauto].
  destruct ret; [by apply list_elem_of_singleton in Hin|by apply not_elem_of_nil in Hin].
Qed.

(** The outputs a schema collects are placed where it says. *)
Lemma published_placed {A B} (name_of : A → string) r registry (ins outs : list (A * B)) inputs outputs arguments (ret : bool) :
  Forall2 (bound_type r registry) (name_of <$> ins.*1) inputs →
  Forall2 (bound_type r registry) (name_of <$> outs.*1) outputs →
  length outputs ≤ (if ret then 1 else 0) + length (mutableArguments arguments) →
  (∀ k index out, expected_sources arguments ret !! k = Some (Z.of_nat index) → outs !! k = Some out →
     ∃ argument, ins !! index = Some argument ∧ name_of argument.1 = name_of out.1) →
  Forall2 (placed inputs) outputs (take (length outputs) (expected_sources arguments ret)).
Proof.
  intros Hinputs Houtputs Hlen Hcollect. apply Forall2_same_length_lookup_2.
  - rewrite length_take. unfold expected_sources. rewrite length_app, length_fmap. destruct ret; simpl; lia.
  - intros k type source Htype [Hsource _]%lookup_take_Some.
    destruct (decide (source = (-1)%Z)) as [->|Hne]; [by left|right].
    destruct (expected_source _ _ _ _ Hsource) as [?|[index ->]]; [done|]. split; [lia|]. rewrite Nat2Z.id.
    destruct (Forall2_lookup_r _ _ _ _ _ Houtputs Htype) as (name & Hname1 & [Htype1 _]).
    apply list_lookup_fmap_Some in Hname1 as (? & -> & (out & -> & Hout)%list_lookup_fmap_Some).
    destruct (Hcollect _ _ _ Hsource Hout) as (argument & Hargument & Hname).
    destruct (Forall2_lookup_l _ _ _ index (name_of argument.1) Hinputs) as (type' & Htype' & [Htype2 _]).
    { by rewrite !list_lookup_fmap, Hargument. }
    rewrite Htype'. congruence.
Qed.

(** The published output at source -1 is the first, when a value is returned. *)
Lemma expected_result arguments ret (names : list string) :
  match (if ret : bool then head names else None) with
  | Some name => ∃ rest sources, names = name :: rest ∧
      take (length names) (expected_sources arguments ret) = (-1)%Z :: sources
  | None => (-1)%Z ∉ take (length names) (expected_sources arguments ret)
  end.
Proof.
  destruct ret; [destruct names as [|name names]; simpl; [apply not_elem_of_nil|eauto]|].
  intros Hin%elem_of_take. destruct Hin as (k & Hk & _). apply list_elem_of_lookup_2 in Hk.
  unfold expected_sources in Hk. simpl in Hk. apply list_elem_of_fmap in Hk as (index & ? & _). lia.
Qed.

(** ** Properties: interface *)

(** An operation is mirrored exactly when every type it names is known here
    and bound at the endpoint, and its outputs are at most one return value and
    distinct inputs of the same type; the object then reports what the
    description says.  Argument 0 is the result, the others count from one. *)
Theorem mirrored_operation r type_registry description operation :
  (makeRemoteOperation r type_registry description = inr operation ↔
   ∃ registry, type_registry = Some registry ∧ mirrors r registry description operation) ∧
  (makeRemoteOperation r type_registry description = inr operation → ∀ argument : N,
   (is_Some (ro_getArgumentType operation argument) ↔
      (argument ≤ N.of_nat (length (rod_input_types description)))%N) ∧
   (is_Some (ro_getCollectType operation argument) ↔
      (1 ≤ argument ≤ N.of_nat (length (rod_output_types description)))%N)).
Proof.
  assert (Hiff : makeRemoteOperation r type_registry description = inr operation ↔
    ∃ registry, type_registry = Some registry ∧ mirrors r registry description operation).
  { destruct type_registry as [registry|]; [rewrite makeRemoteOperation_mirrors|]; naive_solver. }
  split; [done|]. intros (registry & -> & [])%Hiff argument.
  apply Forall2_length in mi_inputs0, mi_outputs0. unfold ro_getArgumentType, ro_getCollectType. split.
  - destruct (N.eqb_spec argument 0) as [->|]; [split; [lia|eauto]|].
    destruct (N.ltb_spec (N.of_nat (length (ro_input_types operation))) argument).
    + split; [by intros [? [=]]|lia].
    + rewrite lookup_lt_is_Some. lia.
  - destruct (N.eqb_spec argument 0) as [->|]; simpl; [split; [by intros [? [=]]|lia]|].
    destruct (N.ltb_spec (N.of_nat (length (ro_output_types operation))) argument).
    + split; [by intros [? [=]]|lia].
    + rewrite lookup_lt_is_Some. lia.
Qed.

(** C15: What the server can describe a client can mirror: if RTT lists an
    argument description per argument and collects a mutable argument as a value
    of its own type, and the client has every type the schema names, the
    operation is accepted with the same signature: as many arguments and outputs,
    each of the client's type for the server's type name, the mutable arguments
    the schema lists marked as references, and the result of the type of the
    output that returns it, or [Void]. *)
Theorem schema_accepted {SW SDS SPort SVariant SNode SUA SDataType STypeInfo} `{EqDecision STypeInfo, !Countable STypeInfo}
    (server_name : STypeInfo → string)
    (server_registry : option (EndpointTypeRegistry.EndpointTypeRegistry SUA SDataType STypeInfo
                                 (TypeProtocol.TypeCodec SW SDS SPort SVariant SNode SUA)))
    (operation : OperationInterfacePart STypeInfo) arguments ins ret outs r registry description :
  describable server_name server_registry operation arguments ins ret outs →
  length arguments = op_arity operation →
  (∀ k index out, expected_sources arguments ret !! k = Some (Z.of_nat index) → outs !! k = Some out →
     ∃ argument, ins !! index = Some argument ∧ server_name argument.1 = server_name out.1) →
  (∀ entry, entry ∈ ins ++ outs → ∃ type, bound_type r registry (server_name entry.1) type) →
  is_Some (types_type r "Void") →
  describes (describe (DS := SDS) server_name server_registry operation) description →
  ∃ mirror, makeRemoteOperation r (Some registry) description = inr mirror ∧
    length (ro_getArgumentList mirror) = op_arity operation ∧
    (∀ index, index ∈ ro_mutable_arguments mirror ↔
      Z.of_nat index ∈ take (op_collectArity operation) (expected_sources arguments ret)) ∧
    length ins = op_arity operation ∧ length outs = op_collectArity operation ∧
    has_signature r registry (server_name <$> ins.*1) (server_name <$> outs.*1)
      (if ret then head (server_name <$> outs.*1) else None) mirror.
Proof.
  intros Hdescribable Harity Hcollect Hbound Hvoid (Hind & Houtd & Hsrcd).
  destruct (describe_done _ _ _ _ _ _ _ Hdescribable) as (_ & _ & Hsrc & _ & Hinn & Houtn).
  rewrite Hinn in Hind. rewrite Houtn in Houtd. rewrite Hsrc in Hsrcd.
  destruct (bound_entries server_name r registry ins) as [inputs Hinputs]; [intros; apply Hbound, elem_of_app; auto|].
  destruct (bound_entries server_name r registry outs) as [outputs Houtputs]; [intros; apply Hbound, elem_of_app; auto|].
  pose proof (Forall2_length _ _ _ Hinputs) as Hleni. pose proof (Forall2_length _ _ _ Houtputs) as Hleno.
  rewrite !length_fmap in Hleni, Hleno.
  pose proof (Forall2_length _ _ _ (ds_inputs _ _ _ _ _ _ _ Hdescribable)) as Hins. rewrite length_seq in Hins.
  pose proof (Forall2_length _ _ _ (ds_outputs _ _ _ _ _ _ _ Hdescribable)) as Houts. rewrite length_seq in Houts.
  pose proof (ds_sources _ _ _ _ _ _ _ Hdescribable) as Hsources.
  assert (Hplaced : Forall2 (placed inputs) outputs (rod_output_sources description)).
  { rewrite Hsrcd, Houts, Hleno. eapply published_placed; [done|done| |done]. lia. }
  destruct (consistent_mirrored r registry description inputs outputs) as (mirror & Hmirror & Hmirrors);
    [by rewrite ?Hind, ?Houtd..| |done|done|].
  { rewrite Hsrcd. eapply sublist_NoDup; [apply expected_sources_NoDup|apply sublist_take]. }
  pose proof (mirrors_signature r registry description mirror
    (if ret then head (server_name <$> outs.*1) else None) Hmirrors) as Hsignature.
  rewrite Hind, Houtd, Hsrcd in Hsignature. exists mirror. destruct Hmirrors. split_and!; [done| | |lia|lia|].
  - unfold ro_getArgumentList. rewrite mi_arguments0, length_imap. apply Forall2_length in mi_inputs0.
    rewrite <-mi_inputs0, Hind, !length_fmap. lia.
  - intros index. by rewrite mi_mutable0, Hsrcd.
  - apply Hsignature. pose proof (expected_result arguments ret (server_name <$> outs.*1)) as Hresult.
    by rewrite !length_fmap, <-Houts in Hresult.
Qed.

(** A call or a send is built exactly for arguments of the right number and
    types that the endpoint can encode, those of mutable reference type being
    assignable; otherwise the number, or the first argument that does not fit,
    is reported and nothing happens. *)
Theorem call_checked operation arguments :
  (call_accepted operation arguments ↔ validateArguments operation arguments = None) ∧
  ∀ error, validateArguments operation arguments = Some error →
    (if decide (length arguments = length (ro_input_types operation)) then first_error operation arguments error
     else error = wrong_number_of_args (length (ro_input_types operation)) (length arguments)) ∧
    ∀ w, produce operation arguments w = (w, inr (inl error)).
Proof.
  unfold call_accepted, validateArguments.
  destruct (Nat.eqb_spec (length arguments) (length (ro_input_types operation))) as [Hlen|Hlen]; simpl.
  - pose proof (validate_arguments_spec operation 0 _ _ Hlen) as Hspec.
    destruct (validate_arguments operation 0 _ _) as [error|] eqn:Hvalid.
    + split.
      * split; [|done]. intros [_ Hok]. destruct Hspec as (k & type & argument & Ht & Ha & Herror & _).
        destruct (Hok k type argument Ht Ha) as (source & -> & Hname & [codec Hcodec] & Hlvalue).
        destruct Herror as [(_ & [?|[?|?]])|(_ & Hin & Hassign)]; simpl in *; try congruence.
        rewrite (Hlvalue Hin) in Hassign. done.
      * intros error' [= <-]. rewrite decide_True by done. split; [exact Hspec|].
        intros w. unfold produce, validateArguments. by rewrite (proj2 (Nat.eqb_eq _ _) Hlen), Hvalid.
    + split; [|done]. split; [done|]. intros _. split; [done|exact Hspec].
  - split; [naive_solver|]. intros error [= <-]. rewrite decide_False by done. split; [done|].
    intros w. unfold produce, validateArguments. by rewrite (proj2 (Nat.eqb_neq _ _) Hlen).
Qed.
End interface.

(** ** Calls *)

Section calls.
Context {W DS Port Variant NodeId UA_DataType DataType TypeInfo R CN Client StatusCode C : Type}.
Context `{EqDecision TypeInfo} `{!Countable TypeInfo} `{EqDecision DS}.
Context `{NodeIds NodeId} `{DataTypes NodeId UA_DataType DataType}.
Context `{StatusCodes StatusCode} `{!StatusConstants StatusCode}.
Context `{!ClientServices CN Client NodeId Variant DataType StatusCode}.
Context `{!OperationSources W DS TypeInfo C}.
Notation TypeCodec := (TypeCodec W DS Port Variant NodeId UA_DataType).
Notation EndpointTypeRegistry := (EndpointTypeRegistry UA_DataType DataType TypeInfo TypeCodec).
Notation op_world := (@op_world W DS Port Variant NodeId UA_DataType DataType TypeInfo CN Client _ _).
Notation RemoteCollectDataSource :=
  (@RemoteCollectDataSource W DS Port Variant NodeId UA_DataType DataType TypeInfo _ _).
Context (empty_variant : Variant).
Implicit Types (w : op_world) (source : RemoteCollectDataSource).

(** The outputs are assigned to their destinations, one after the other. *)
Inductive assigned (registry : EndpointTypeRegistry) :
    list Variant → list string → list (option DS) → W → W → Prop :=
  | assigned_nil rtt : assigned registry [] [] [] rtt rtt
  | assigned_cons output outputs type_name types destination destinations codec rtt rtt' rtt'' :
      name_codec registry type_name = Some codec →
      assignVariant codec output destination rtt = (rtt', inr true) →
      assigned registry outputs types destinations rtt' rtt'' →
      assigned registry (output :: outputs) (type_name :: types) (destination :: destinations) rtt rtt''.

(** The call a collection waits for is still running. *)
Definition running (id : nat) w : Prop :=
  (future ← ow_futures w !! id; fu_result future) = None.

(** The result of the finished call [id] of [w] was assigned. *)
Definition collected source (id : nat) w (rtt' : W) : Prop :=
  ∃ future result rtt, ow_futures w !! id = Some future ∧ fu_result future = Some (inr result) ∧
    rcr_success result = true ∧
    match rcd_registry source with
    | Some registry =>
        assigned registry (rcr_outputs result) (rcd_output_types source) (rcd_destinations source) rtt rtt'
    | None => rcr_outputs result = [] ∧ rcd_destinations source = [] ∧ rcd_output_types source = []
    end.

Lemma assign_loop_assigned registry test_null outputs types destinations rtt rtt' :
  length outputs = length types → length types = length destinations →
  assign_loop registry test_null outputs types destinations rtt = (rtt', inr true) →
  assigned registry outputs types destinations rtt rtt'.
Proof.
  revert types destinations rtt. induction outputs as [|output outputs IH];
    intros [|type_name types] [|destination destinations] rtt; try done; simpl; intros Hlen1 Hlen2.
  - intros [= <-]. constructor.
  - destruct (name_codec registry type_name) as [codec|] eqn:Hcodec; [|done].
    destruct (test_null && _); [done|]. unfold mbind, IO_bind.
    destruct (assignVariant codec output destination rtt) as [rtt1 [e|[]]] eqn:Hassign; try done; simpl.
    intros Hrest. econstructor; [done..|]. apply IH; [lia|lia|done].
Qed.

(** What [get()] makes of the world: only the RTT heap changes. *)
Definition only_rtt w w' : Prop :=
  ow_session w' = ow_session w ∧ ow_futures w' = ow_futures w ∧ ow_handles w' = ow_handles w.

Lemma call_rtt_inv {A} (m : IO W A) w w' o :
  call_rtt m w = (w', o) → m (ow_rtt w) = (ow_rtt w', o) ∧ only_rtt w w'.
Proof. unfold call_rtt. destruct (m (ow_rtt w)) as [rtt o'] eqn:Hm. by intros [= <- <-]. Qed.

(** The [try] block: what it answers, and what it does. *)
Lemma collect_result_inv source id blocking w w' o :
  collect_result source id blocking w = (w', o) →
  only_rtt w w' ∧
  match o with
  | inr None => running id w ∧ blocking = true
  | inr (Some SendNotReady) => running id w ∧ blocking = false
  | inr (Some SendSuccess) => collected source id w (ow_rtt w')
  | inr (Some SendFailure) | inl _ => ¬ running id w
  end.
Proof.
  unfold collect_result, io_gets, io_throw, running. unfold mbind at 1, IO_bind at 1.
  destruct (ow_futures w !! id ≫= (λ future, fu_result future)) as [[e|result]|] eqn:Hfuture; [by intros [= <- <-]| |].
  2: { intros [= <- <-]. by destruct blocking. }
  destruct (_ || _ || _) eqn:Hcheck; [by intros [= <- <-]|].
  apply orb_false_iff in Hcheck as [[Hsuccess%negb_false_iff Hlen1]%orb_false_iff Hlen2].
  apply negb_false_iff, Nat.eqb_eq in Hlen1, Hlen2.
  destruct (ow_futures w !! id) as [future|] eqn:Hid; [|done]. simpl in Hfuture.
  assert (Hcollected : ∀ rtt rtt', match rcd_registry source with
    | Some registry => assigned registry (rcr_outputs result) (rcd_output_types source) (rcd_destinations source) rtt rtt'
    | None => rcd_destinations source = [] end → collected source id w rtt').
  { intros rtt rtt' Hassigned. exists future, result, rtt. split_and!; try done.
    destruct (rcd_registry source); [done|]. rewrite Hassigned in Hlen1, Hlen2.
    split_and!; [by apply nil_length_inv|done|by apply nil_length_inv]. }
  destruct (rcd_registry source) as [registry|] eqn:Hregistry.
  - unfold mbind at 1, IO_bind at 1. destruct (call_rtt _ w) as [w1 [e|flag]] eqn:Hassign;
      apply call_rtt_inv in Hassign as [Hassign Honly]; [by intros [= <- <-]|].
    intros [= <- <-]. split; [done|]. destruct flag; [|done]. apply (Hcollected (ow_rtt w)).
    by apply assign_loop_assigned in Hassign; [|lia|lia].
  - intros [= <- <-]. split; [done|]. case_bool_decide; [|done]. by apply (Hcollected (ow_rtt w)).
Qed.

(** ** Properties: calls *)

(** C29: [get()] of a collection never throws and changes neither the session
    nor the futures.  An answer that was success or failure stays what it is;
    it is not ready only while the call runs and success only when every output
    of a call that succeeded was assigned to its destination; it waits only for
    a call that runs, and once the call has ended the answer is final. *)
Theorem collect_outcome source w w' o :
  collect_get source w = (w', o) →
  ∃ source' answer, o = inr (source', answer) ∧ only_rtt w w' ∧
    (∀ status, answer = Some status → rcd_status source' = status) ∧
    match rcd_status source, rcd_invocation source with
    | SendNotReady, Some id =>
        match answer with
        | None => running id w ∧ source' = source
        | Some SendNotReady => running id w
        | Some SendSuccess => collected source id w (ow_rtt w')
        | Some SendFailure => True
        end ∧ (¬ running id w → answer = Some SendSuccess ∨ answer = Some SendFailure)
    | SendNotReady, None => answer = Some SendFailure ∧ w' = w
    | status, _ => answer = Some status ∧ w' = w ∧ source' = source
    end.
Proof.
  unfold collect_get. destruct (rcd_status source) eqn:Hstatus.
  1, 3: intros [= <- <-]; eexists _, _; split_and!; try done; by intros ? [= <-].
  destruct (rcd_invocation source) as [id|];
    [|intros [= <- <-]; eexists _, _; split_and!; try done; by intros ? [= <-]].
  unfold mbind at 1, IO_bind at 1. unfold catch_all.
  destruct ((blocking ← call_rtt (arg_getBool (rcd_blocking source)); collect_result source id blocking) w)
    as [w1 o1] eqn:Htry.
  assert (Htried : only_rtt w w1 ∧ match o1 with
    | inr None => running id w
    | inr (Some SendNotReady) => running id w
    | inr (Some SendSuccess) => collected source id w (ow_rtt w1)
    | inr (Some SendFailure) | inl _ => True
    end).
  { revert Htry. unfold mbind, IO_bind. destruct (call_rtt _ w) as [w0 [e|blocking]] eqn:Hblocking;
      apply call_rtt_inv in Hblocking as [_ (Hs & Hf & Hh)]; [by intros [= <- <-]|].
    intros [(? & ? & ?) Hresult]%collect_result_inv. unfold only_rtt, running, collected in *.
    split; [split_and!; congruence|]. rewrite Hf in Hresult.
    destruct o1 as [e|[[]|]]; [done|done|by destruct Hresult|done|by destruct Hresult]. }
  destruct Htried as [Honly Hanswer].
  destruct o1 as [e|[[]|]]; intros [= <- <-]; eexists _, _; split_and!; try done;
    try (by intros ? [= <-]); intros Hended; by auto.
Qed.

(** C28: A send that was prepared starts one call with the values its arguments
    had when they were read.  The handle then refers to a new future; whenever
    its thread runs, it performs that call on the session as it is by then,
    once, and the future has ended. *)
Theorem sent_call action w w1 action' :
  send_readArguments empty_variant action w = (w1, inr action') → rsa_prepared action' = true →
  ∃ registry inputs id w2,
    rsa_registry action = Some registry ∧
    encodeArguments empty_variant registry (rsa_arguments action) (ow_rtt w) = (ow_rtt w1, inr (true, inputs)) ∧
    send_execute true action' w1 = (w2, inr true) ∧
    ow_futures w1 !! id = None ∧ ow_handles w2 !! rsa_handle action = Some (Some id) ∧ running id w2 ∧
    ∀ w3, ow_futures w3 !! id = ow_futures w2 !! id →
      let result := call (rsa_object_id action) (rsa_method_id action) inputs (ow_session w3) in
      ow_session (run_future id w3) = result.1 ∧
      (future ← ow_futures (run_future id w3) !! id; fu_result future) = Some result.2 ∧
      run_future id (run_future id w3) = run_future id w3.
Proof.
  unfold send_readArguments. destruct (rsa_registry action) as [registry|] eqn:Hregistry; [|by intros [= <- <-]].
  unfold mbind at 1, IO_bind at 1. destruct (call_rtt _ w) as [w' [e|[prepared inputs]]] eqn:Hencode; [done|].
  apply call_rtt_inv in Hencode as [Hencode (Hsession & Hfutures & Hhandles)]. intros [= <- <-] Hprepared.
  simpl in Hprepared. subst prepared. unfold send_execute, set_handle, io_modify, mbind, IO_bind, launch. simpl.
  set (id := fresh (dom (ow_futures w'))). eexists registry, inputs, id, _.
  split_and!; [done|done|done| | | |].
  - apply not_elem_of_dom, is_fresh.
  - apply lookup_insert_eq.
  - unfold running. simpl. by rewrite lookup_insert_eq.
  - intros w3. simpl. rewrite lookup_insert_eq. intros Hfuture. unfold run_future. rewrite Hfuture. simpl.
    destruct (call _ _ _ (ow_session w3)) as [session result]. simpl. rewrite lookup_insert_eq. by split_and!.
Qed.
End calls.

(** ** A concrete operation

    "double" of the arm takes an Int32 by reference and returns one; the data
    sources are those of the heap of RemotePortSpec.v. *)
#[global] Instance heap_sources : OperationSources c_Heap nat string unit := {
  arg_typeInfo _ := "Int32";
  arg_isAssignable source := (source <? 9);
  arg_buildValue _ h := let '(h, source) := h_alloc None h in (h, inr (Some source));
  arg_hasActionAlias _ := true;
  arg_copy source already_cloned := (already_cloned, source);
  handle_copy handle already_cloned := (already_cloned, handle);
  arg_getBool source h := (h, inr (bool_decide (h_value source h = Some 1%Z)));
}.

Definition call_types : c_Repository (TypeProtocol c_Heap nat nat c_Remote c_NodeId c_NodeId) :=
  ({["Int32" := "Int32"; "Void" := "Void"]}, {["Int32" := heap_protocol]}).

Definition call_registry := type_registry_ (w_session port_session).

Definition double : RemoteOperationDescription c_NodeId :=
  {| rod_name := "double"; rod_description := ""; rod_object_id := at_path ["operations"];
     rod_method_id := at_path ["operations"; "move"]; rod_input_types := ["Int32"]; rod_input_names := ["x"];
     rod_input_descriptions := [""]; rod_output_types := ["Int32"; "Int32"]; rod_output_sources := [-1; 0]%Z |}.

Definition double_mirror := makeRemoteOperation call_types call_registry double.

Definition is_mirrored {A B} (x : A + B) : bool := match x with inr _ => true | inl _ => false end.

(** The argument is 5; the last cell says whether to block. *)
Definition call_heap : c_Heap := {| h_queue := []; h_written := []; h_cells := [Some 5; None; Some 0]%Z |}.

Definition call_start :
    @op_world c_Heap nat nat c_Remote c_NodeId c_NodeId c_DataType string c_Net unit _ _ :=
  {| ow_session := port_session; ow_rtt := call_heap; ow_futures := ∅; ow_handles := {[3 := None]} |}.

Definition the_send :
    @RemoteSendAction c_Heap nat nat c_Remote c_NodeId c_NodeId c_DataType string _ _ :=
  new_send_action call_registry (at_path ["operations"]) (at_path ["operations"; "move"]) [Some 0] 3.

(** Read and executed; then the thread runs. *)
Definition sent_world :=
  match send_readArguments no_value the_send call_start with
  | (w, inr action) => (send_execute true action w).1
  | (w, _) => w
  end.
Definition done_world := run_future 0 sent_world.

Definition the_collect :
    @RemoteCollectDataSource c_Heap nat nat c_Remote c_NodeId c_NodeId c_DataType string _ _ :=
  new_collect call_registry (Some 0) [Some 1] ["Int32"] 2.

Definition collect_answer {A} (o : exn + (A * option SendStatus)) : option SendStatus :=
  match o with inr (_, answer) => answer | inl _ => None end.

Example double_is_mirrored : is_mirrored double_mirror = true.
Proof. vm_compute. reflexivity. Qed.

Example collect_runs :
  (collect_answer (collect_get the_collect sent_world).2, collect_answer (collect_get the_collect done_world).2,
   h_cells (ow_rtt (collect_get the_collect done_world).1)) =
  (Some SendNotReady, Some SendSuccess, [Some 5; Some 5; Some 0]%Z).
Proof. vm_compute. reflexivity. Qed.

(** ** Witnesses *)

Lemma mirrored_operation_witness : ∃ operation, double_mirror = inr operation ∧
  is_Some (ro_getArgumentType operation 1) ∧ ¬ is_Some (ro_getArgumentType operation 2).
Proof.
  pose proof double_is_mirrored as Hmirrored. destruct double_mirror as [|operation] eqn:Hop; [discriminate|].
  exists operation. split; [reflexivity|].
  pose proof (proj2 (mirrored_operation call_types call_registry double operation) Hop) as Htypes.
  split; [apply (Htypes 1%N); simpl; lia|]. intros Hsome%(Htypes 2%N). simpl in Hsome. lia.
Defined.

Definition client_registry := default (empty_endpoint ∅) call_registry.

Lemma schema_accepted_witness : ∃ mirror,
  makeRemoteOperation call_types (Some client_registry) double = inr mirror ∧
  length (ro_getArgumentList mirror) = 1 ∧ 0 ∈ ro_mutable_arguments mirror ∧
  has_signature call_types client_registry ["Int32"] ["Int32"; "Int32"] (Some "Int32") mirror ∧
  ro_getArgumentType mirror 0 = Some "Int32".
Proof.
  set (entry := ("Int32", number_codec)).
  assert (describable (λ type : string, type) (Some number_registry) (sample_operation "int &" "Int32" 2)
    [{| ad_name := ""; ad_description := "the number"; ad_type := "int &" |}] [entry] true [entry; entry]) as Hd.
  { split; [done| | | |].
    - constructor; [|constructor]. by vm_compute.
    - exists "Int32", number_codec. by vm_compute.
    - constructor; [|constructor; [|constructor]]; by vm_compute.
    - vm_compute. lia. }
  assert (Hentry : ∀ e, e ∈ [entry] ++ [entry; entry] → e = entry).
  { intros e He. repeat (apply elem_of_cons in He as [?|He]; [done|]). by apply not_elem_of_nil in He. }
  destruct (schema_accepted (λ type : string, type) (Some number_registry) (sample_operation "int &" "Int32" 2)
    _ _ _ _ call_types client_registry double Hd) as (mirror & Hmirror & Harity & Hmutable & _ & _ & Hsignature).
  - reflexivity.
  - intros k index out Hindex Hout. assert (out = entry) as -> by (apply Hentry, elem_of_app; right; by apply list_elem_of_lookup_2 in Hout).
    exists entry. destruct k as [|[|k]]; vm_compute in Hindex; [destruct index; discriminate| |discriminate].
    destruct index; [done|discriminate].
  - intros e ->%Hentry. exists "Int32". split; [reflexivity|]. vm_compute. eauto.
  - by exists "Void".
  - by vm_compute.
  - exists mirror. split_and!; [done|done| |exact Hsignature|].
    + apply Hmutable. vm_compute. right. left.
    + destruct (sg_result _ _ _ _ _ _ Hsignature) as (type & Htype & _ & [Hname _]). rewrite Htype.
      change (Some "Int32" = Some type) in Hname. by rewrite Hname.
Defined.

Lemma collect_outcome_witness :
  collected the_collect 0 done_world (ow_rtt (collect_get the_collect done_world).1).
Proof.
  assert (Hanswer : collect_answer (collect_get the_collect done_world).2 = Some SendSuccess)
    by (vm_compute; reflexivity).
  destruct (collect_get the_collect done_world) as [w' o] eqn:Hget.
  destruct (collect_outcome the_collect done_world w' o Hget) as (source' & answer & -> & _ & _ & Houtcome).
  simpl in Hanswer. subst answer. exact (proj1 Houtcome).
Defined.

Lemma sent_call_witness : ∃ id, running id sent_world ∧ ow_handles sent_world !! 3 = Some (Some id).
Proof.
  assert (Hprepared : match (send_readArguments no_value the_send call_start).2 with
    | inr action => rsa_prepared action | inl _ => false end = true) by (vm_compute; reflexivity).
  unfold sent_world. destruct (send_readArguments no_value the_send call_start) as [w [e|action]] eqn:Hread;
    [discriminate|].
  destruct (sent_call no_value the_send call_start w action Hread Hprepared)
    as (registry & inputs & id & w2 & _ & _ & Hsend & _ & Hhandle & Hrunning & _).
  exists id. rewrite Hsend. split; [exact Hrunning|exact Hhandle].
Defined.

Lemma call_checked_witness : ∃ operation, double_mirror = inr operation ∧
  validateArguments operation [Some 0] = None ∧ call_accepted operation [Some 0].
Proof.
  assert (Hvalid : match double_mirror with inr operation => validateArguments operation [Some 0] | inl _ => None end = None)
    by (vm_compute; reflexivity).
  pose proof double_is_mirrored as Hmirrored. destruct double_mirror as [|operation] eqn:Hop; [discriminate|].
  exists operation. split_and!; [reflexivity|exact Hvalid|].
  exact (proj2 (proj1 (call_checked operation [Some 0])) Hvalid).
Defined.
