(* ===== verification/TaskContextProxy.v ===== *)
(** The mirror of a remote component (src/src/task_context_proxy.cpp,
    include/rtt/opcua/task_context_proxy.hpp): its control operations, the
    thread that pumps its ports, and the synchronization that stages, checks and
    installs a new interface.

    A computation is a sequence of atomic steps: accesses to the atomic flags,
    calls of the session, critical sections, uses of RTT.  Before each of them
    the environment may move: the port thread and the other users of the session
    and of the RTT heap, by the schedule in the world. *)

From S2P Require Import Prelude NodeId Native Concrete DataTypeRegistry TypeProtocol EndpointTypeRegistry.
From S2P Require Import OperationDispatcher PortDataSources AddressSpace NodeSpecs Client ClientDiscovery.
From S2P Require Import RemotePort RemoteOperation.

(** [toString]. *)
Definition toString (state : ProxyConnectionState) : string :=
  match state with
  | disconnected => "disconnected"
  | connecting => "connecting"
  | connected => "connected"
  | stale => "stale"
  end.

(** [initializeRttThreadContext] (src/src/rtt_thread_context.hpp): what it throws.
    [xenomai] is the build switch, [has_context] whether [rt_task_self] returns a
    task, [shadow] what [rt_task_shadow] returns and [error_text] the text of a
    system error. *)
Definition EBUSY : Z := 16.

Definition initializeRttThreadContext (xenomai has_context : bool) (shadow : Z) (error_text : Z → string) :
    option string :=
  if negb xenomai || has_context then None
  else if (shadow =? 0)%Z || (shadow =? - EBUSY)%Z then None
  else Some ("failed to initialize the OPC UA RTT thread context: " +:+ error_text (- shadow)%Z).

Definition proxy_kMaximumServiceDepth : nat := 32.

Definition kRequiredRootOperations : list (string * string) :=
  [("getTaskState", "TaskState"); ("getTargetState", "TaskState"); ("isConfigured", "Bool");
   ("isActive", "Bool"); ("isRunning", "Bool"); ("inFatalError", "Bool"); ("inException", "Bool");
   ("inRunTimeError", "Bool")].

(** The message of the first requirement that fails. *)
Fixpoint validate_required {NodeId} (operations : list (RemoteOperationDescription NodeId))
    (required : list (string * string)) : option string :=
  match required with
  | [] => None
  | (name, output_type) :: required' =>
      match list_find (λ operation, rod_name operation = name) operations with
      | None => Some ("remote RTT root operation '" +:+ name +:+ "' is required")
      | Some (_, found) =>
          if bool_decide (rod_input_types found = []) && bool_decide (rod_output_types found = [output_type]) &&
             bool_decide (rod_output_sources found = [(-1)%Z])
          then validate_required operations required'
          else Some ("remote RTT root operation '" +:+ name +:+
                     "' must have no inputs and one return output of RTT type '" +:+ output_type +:+ "'")
      end
  end.

Definition validateRequiredRootOperations {NodeId} (operations : list (RemoteOperationDescription NodeId)) :
    option string := validate_required operations kRequiredRootOperations.

(** [StagedService]; the adapters by their addresses. *)
Inductive StagedService (Operation Property Attribute : Type) := Staged {
  staged_name : string;
  staged_description : string;
  staged_operations : list (string * Operation);
  staged_properties : list Property;
  staged_attributes : list Attribute;
  staged_ports : list nat;
  staged_children : list (StagedService Operation Property Attribute);
}.
Arguments Staged {_ _ _} _ _ _ _ _ _ _.
Arguments staged_name {_ _ _} _.
Arguments staged_description {_ _ _} _.
Arguments staged_operations {_ _ _} _.
Arguments staged_properties {_ _ _} _.
Arguments staged_attributes {_ _ _} _.
Arguments staged_ports {_ _ _} _.
Arguments staged_children {_ _ _} _.

Fixpoint collectStagedPorts {Operation Property Attribute}
    (staged : StagedService Operation Property Attribute) : list nat :=
  staged_ports staged ++ concat (collectStagedPorts <$> staged_children staged).

(** ** What RTT provides *)

(** Properties and attributes made from a type info around a data source. *)
Class MirrorTypes (W DS TypeInfo Proxy Property Attribute : Type) := {
  new_proxy : Proxy → IO W DS; (* the data source [makeProxyDataSource] makes *)
  ti_buildProperty : TypeInfo → string → string → DS → IO W (option Property);
  ti_buildAttribute : TypeInfo → string → DS → IO W (option Attribute);
  ti_buildAlias : TypeInfo → string → DS → IO W (option Attribute);
  property_getDataSource : Property → W → option DS;
  attribute_getDataSource : Attribute → W → option DS;
}.

(** The services of a task context; [service_levels] bounds how deep they nest. *)
Class MirrorServices (W Port Operation Property Attribute Service : Type) := {
  provides : Service;
  service_doc : Service → string → IO W unit;
  service_add : Service → string → Operation → IO W unit;
  service_ownProperty : Service → Property → IO W bool;
  service_setValue : Service → Attribute → IO W bool;
  service_addLocalPort : Service → Port → IO W unit;
  service_create : string → IO W Service;
  service_addService : Service → Service → IO W bool;
  service_getPortNames : Service → W → list string;
  service_removeLocalPort : Service → string → IO W unit;
  service_getProviderNames : Service → W → list string;
  service_getService : Service → string → IO W (option Service);
  service_clear : Service → IO W unit;
  task_clear : IO W unit;
  service_levels : W → nat;
}.

Section proxy.
Context {W DS Port Variant NodeId UA_DataType DataType TypeInfo R CN Client StatusCode Wire C : Type}.
Context {Property Attribute Service : Type}.
Context `{EqDecision TypeInfo} `{!Countable TypeInfo} `{EqDecision DS}.
Context `{NodeIds NodeId} `{DataTypes NodeId UA_DataType DataType}.
Context `{StatusCodes StatusCode} `{!StatusConstants StatusCode}.
Context `{!Variants Variant NodeId UA_DataType Wire}.
Context `{!ClientServices CN Client NodeId Variant DataType StatusCode}.
Context `{!DiscoveryServices CN Client NodeId Variant StatusCode}.
Context `{!RttPorts W DS Port TypeInfo} `{!LocalPorts W DS Port TypeInfo}.
Context `{!OperationSources W DS TypeInfo C} `{TaskStates}.
Notation TypeCodec := (TypeCodec W DS Port Variant NodeId UA_DataType).
Notation TypeProtocol := (TypeProtocol W DS Port Variant NodeId UA_DataType).
Notation EndpointTypeRegistry := (EndpointTypeRegistry UA_DataType DataType TypeInfo TypeCodec).
Notation ProxyDataSource := (ProxyDataSource W Variant NodeId UA_DataType).
Context `{TypeInfos TypeInfo R TypeProtocol}.
Notation session_world := (@world W DS Port Variant NodeId UA_DataType DataType TypeInfo CN Client _ _).
Notation RemotePortAdapter :=
  (@RemotePortAdapter W DS Port Variant NodeId UA_DataType DataType TypeInfo _ _).
Notation RemoteOperation :=
  (@RemoteOperation W DS Port Variant NodeId UA_DataType DataType TypeInfo _ _).
Notation RemoteOperationDescription := (RemoteOperationDescription NodeId).
Notation RemoteValueDescription := (RemoteValueDescription NodeId).
Notation RemotePortDescription := (RemotePortDescription NodeId).
Notation Request := (@Request Variant NodeId).
Context `{!MirrorTypes W DS TypeInfo ProxyDataSource Property Attribute}.
Context `{!MirrorServices W Port RemoteOperation Property Attribute Service}.
(** The component, the type repository, [opcua::Variant encoded], and the
    closures over the session that read and write a remote value. *)
Context (component_name : string) (r : R) (empty_variant : Variant).
Context (value_reader : NodeId → VariantReader W Variant) (value_writer : NodeId → VariantWriter W Variant).

(** ** State *)

(** The thread: at the first wait of its loop, at the adapters, at the second
    wait, or returned. *)
Inductive pump_phase := pump_idle | pump_running | pump_resting | pump_done.

#[global] Instance pump_phase_eq_dec : EqDecision pump_phase.
Proof. solve_decision. Defined.

(** Its local copy of the adapters, those not yet pumped in this round, and its
    stop token. *)
Record PortPump := {
  phase : pump_phase;
  held : list nat;
  round : list nat;
  stop_requested : bool;
}.

(** What the environment does: a step of the port thread, a request of a mirrored
    data source, operation or sent call, any use of the RTT heap. *)
Inductive env_event :=
  | env_pump
  | env_request (request : Request)
  | env_heap (rtt : W).

(** [TaskContextProxy::Impl], with the session, the adapters by their addresses,
    the thread, the RTT heap and the schedule of the environment. *)
Record proxy_world := {
  px_session : session_world;
  interface_ready : bool;
  interface_stale : bool;
  ports_paused : bool;
  port_adapters : list nat;
  quarantined_port_adapters : list nat;
  control_error : string;
  live : gmap nat RemotePortAdapter;
  port_thread : PortPump;
  px_rtt : W;
  schedule : list (list env_event);
}.

Definition ports_pumping (w : proxy_world) : bool := bool_decide (phase (port_thread w) = pump_running).

Definition with_session session (w : proxy_world) : proxy_world :=
  {| px_session := session; interface_ready := interface_ready w; interface_stale := interface_stale w;
     ports_paused := ports_paused w; port_adapters := port_adapters w;
     quarantined_port_adapters := quarantined_port_adapters w; control_error := control_error w;
     live := live w; port_thread := port_thread w; px_rtt := px_rtt w; schedule := schedule w |}.
Definition with_flags (ready is_stale paused : bool) (w : proxy_world) : proxy_world :=
  {| px_session := px_session w; interface_ready := ready; interface_stale := is_stale;
     ports_paused := paused; port_adapters := port_adapters w;
     quarantined_port_adapters := quarantined_port_adapters w; control_error := control_error w;
     live := live w; port_thread := port_thread w; px_rtt := px_rtt w; schedule := schedule w |}.
Definition with_lists (adapters quarantined : list nat) (w : proxy_world) : proxy_world :=
  {| px_session := px_session w; interface_ready := interface_ready w; interface_stale := interface_stale w;
     ports_paused := ports_paused w; port_adapters := adapters;
     quarantined_port_adapters := quarantined; control_error := control_error w;
     live := live w; port_thread := port_thread w; px_rtt := px_rtt w; schedule := schedule w |}.
Definition with_control_error error (w : proxy_world) : proxy_world :=
  {| px_session := px_session w; interface_ready := interface_ready w; interface_stale := interface_stale w;
     ports_paused := ports_paused w; port_adapters := port_adapters w;
     quarantined_port_adapters := quarantined_port_adapters w; control_error := error;
     live := live w; port_thread := port_thread w; px_rtt := px_rtt w; schedule := schedule w |}.
Definition with_heap (adapters : gmap nat RemotePortAdapter) (rtt : W) (w : proxy_world) : proxy_world :=
  {| px_session := px_session w; interface_ready := interface_ready w; interface_stale := interface_stale w;
     ports_paused := ports_paused w; port_adapters := port_adapters w;
     quarantined_port_adapters := quarantined_port_adapters w; control_error := control_error w;
     live := adapters; port_thread := port_thread w; px_rtt := rtt; schedule := schedule w |}.
Definition with_thread thread (w : proxy_world) : proxy_world :=
  {| px_session := px_session w; interface_ready := interface_ready w; interface_stale := interface_stale w;
     ports_paused := ports_paused w; port_adapters := port_adapters w;
     quarantined_port_adapters := quarantined_port_adapters w; control_error := control_error w;
     live := live w; port_thread := thread; px_rtt := px_rtt w; schedule := schedule w |}.
Definition with_schedule events (w : proxy_world) : proxy_world :=
  {| px_session := px_session w; interface_ready := interface_ready w; interface_stale := interface_stale w;
     ports_paused := ports_paused w; port_adapters := port_adapters w;
     quarantined_port_adapters := quarantined_port_adapters w; control_error := control_error w;
     live := live w; port_thread := port_thread w; px_rtt := px_rtt w; schedule := events |}.

(** ** Adapters: shared pointers *)

(** The owners of an adapter other than local variables. *)
Definition referenced (w : proxy_world) : list nat :=
  port_adapters w ++ quarantined_port_adapters w ++ held (port_thread w).

(** A reference that goes away; the last one takes the adapter with it. *)
Definition release (id : nat) (w : proxy_world) : proxy_world :=
  if bool_decide (id ∈ referenced w) then w
  else
    match live w !! id with
    | Some a => with_heap (delete id (live w)) (destroy_adapter a (px_rtt w)).1 w
    | None => w
    end.

Definition release_all (ids : list nat) (w : proxy_world) : proxy_world := foldl (λ w id, release id w) w ids.

(** The end of a scope whose variables own adapters: they go unless something
    else owns them. *)
Definition sweep (w : proxy_world) : proxy_world := release_all (elements (dom (live w))) w.

(** ** The port thread *)

(** [adapter->pump()]. *)
Definition pump_adapter (id : nat) (w : proxy_world) : proxy_world :=
  match live w !! id with
  | Some a =>
      let w' := (pump empty_variant {| pw_adapter := a; pw_session := px_session w; pw_rtt := px_rtt w |}).1 in
      with_session (pw_session w') (with_heap (<[id := pw_adapter w']> (live w)) (pw_rtt w') w)
  | None => w
  end.

(** One step of [pumpPorts]; at the first wait it can only be stuck, at the
    second it may always go on, since the wait is timed. *)
Definition pump_step (w : proxy_world) : proxy_world :=
  let thread := port_thread w in
  let go phase held round := with_thread
    {| phase := phase; held := held; round := round; stop_requested := stop_requested thread |} in
  match phase thread with
  | pump_idle =>
      if stop_requested thread then go pump_done [] [] w
      else if ports_paused w then w
      else go pump_running (port_adapters w) (port_adapters w) w
  | pump_running =>
      match round thread with
      | id :: rest =>
          if stop_requested thread then go pump_resting (held thread) [] w
          else go pump_running (held thread) rest (pump_adapter id w)
      | [] => go pump_resting (held thread) [] w
      end
  | pump_resting => release_all (held thread) (go pump_idle [] [] w)
  | pump_done => w
  end.

Definition env_step (event : env_event) (w : proxy_world) : proxy_world :=
  match event with
  | env_pump => pump_step w
  | env_request request =>
      if needs_access request then with_session (perform request (px_session w)).1 w else w
  | env_heap rtt => with_heap (live w) rtt w
  end.

(** ** Atomic steps *)

(** The environment moves. *)
Definition breathe : IO proxy_world unit := λ w,
  match schedule w with
  | [] => (w, inr tt)
  | events :: rest => (foldl (λ w event, env_step event w) (with_schedule rest w) events, inr tt)
  end.

Definition atomic {A} (m : IO proxy_world A) : IO proxy_world A := breathe ;; m.

Definition load {A} (f : proxy_world → A) : IO proxy_world A := atomic (io_gets f).
Definition section (f : proxy_world → proxy_world) : IO proxy_world unit := atomic (io_modify f).

Definition on_session {A} (m : IO session_world A) : IO proxy_world A := atomic (λ w,
  let '(session, result) := m (px_session w) in (with_session session w, result)).

Definition on_rtt {A} (m : IO W A) : IO proxy_world A := atomic (λ w,
  let '(rtt, result) := m (px_rtt w) in (with_heap (live w) rtt w, result)).

Definition store_ready (b : bool) : IO proxy_world unit :=
  section (λ w, with_flags b (interface_stale w) (ports_paused w) w).
Definition store_stale (b : bool) : IO proxy_world unit :=
  section (λ w, with_flags (interface_ready w) b (ports_paused w) w).

Definition setControlError (error : string) : IO proxy_world unit := section (with_control_error error).
Definition clearControlError : IO proxy_world unit := section (with_control_error "").

(** [session->setInterfaceAccessEnabled(enabled)]: when access is withdrawn the
    flag is cleared before the mutex of the session is taken, which is a step of
    its own. *)
Definition set_access (enabled : bool) : IO proxy_world unit :=
  (if enabled then mret tt else on_session revoke_access) ;;
  on_session (setInterfaceAccessEnabled enabled).

(** ** Pausing the thread *)

(** The thread finishes the round it is in. *)
Fixpoint finish_round (steps : nat) (w : proxy_world) : proxy_world :=
  match steps with
  | O => w
  | S steps => if ports_pumping w then finish_round steps (pump_step w) else w
  end.

(** [port_condition.wait(lock, [this] { return !ports_pumping; })]. *)
Definition wait_pumped (w : proxy_world) : proxy_world := finish_round (S (length (round (port_thread w)))) w.

Definition pausePortPump : IO proxy_world unit :=
  section (λ w, with_flags (interface_ready w) (interface_stale w) true w) ;;
  section wait_pumped.

Definition resumePortPump : IO proxy_world unit :=
  section (λ w, if interface_stale w then w else with_flags (interface_ready w) (interface_stale w) false w).

(** The thread runs to its end. *)
Fixpoint join (steps : nat) (w : proxy_world) : proxy_world :=
  match steps with
  | O => w
  | S steps => if bool_decide (phase (port_thread w) = pump_done) then w else join steps (pump_step w)
  end.

(** A thread that has returned is not joinable. *)
Definition stopPortPump : IO proxy_world unit := section (λ w,
  if bool_decide (phase (port_thread w) = pump_done) then w
  else join 4 (with_thread {| phase := phase (port_thread w); held := held (port_thread w);
                              round := round (port_thread w); stop_requested := true |} w)).

(** ** The port adapters *)

Definition discardPendingPortState : IO proxy_world unit := section (λ w,
  with_heap (foldl (λ adapters id, alter discardPendingState id adapters) (live w) (port_adapters w)) (px_rtt w) w).

Definition clearPortAdapters : IO proxy_world unit := section (λ w,
  release_all (port_adapters w ++ quarantined_port_adapters w) (with_lists [] [] w)).

Definition quarantinePortAdapters (adapters : list nat) : IO proxy_world unit := section (λ w,
  with_lists (port_adapters w) (quarantined_port_adapters w ++ adapters) w).

Definition clearQuarantinedPortAdapters : IO proxy_world unit := section (λ w,
  release_all (quarantined_port_adapters w) (with_lists (port_adapters w) [] w)).

(** Whether the adapter [id] has no pending state or somewhere to leave it. *)
Definition replaceable (adapters : gmap nat RemotePortAdapter) (replacements : list nat) (id : nat) : bool :=
  match adapters !! id with
  | Some a =>
      negb (hasPendingState a) ||
      existsb (λ replacement, from_option (canTransferStateTo a) false (adapters !! replacement)) replacements
  | None => true
  end.

Definition canReplacePortAdapters (replacements : list nat) (error : option string) :
    IO proxy_world (bool * option string) := atomic (io_gets (λ w,
  match list_find (λ id, replaceable (live w) replacements id = false) (port_adapters w) with
  | Some (_, id) =>
      (false, assignError error ("cannot replace remote port '" +:+ from_option adapter_name "" (live w !! id) +:+
                "' while it has an unacknowledged sample"))
  | None => (true, assignError error "")
  end)).

(** The inner loop: the first replacement that takes over the state. *)
Fixpoint transfer_to (old : nat) (replacements : list nat) (adapters : gmap nat RemotePortAdapter) :
    gmap nat RemotePortAdapter :=
  match replacements with
  | [] => adapters
  | new :: replacements' =>
      match adapters !! old, adapters !! new with
      | Some a, Some replacement =>
          let '(a, replacement, moved) := transferPendingStateTo a replacement in
          if moved : bool then <[new := replacement]> (<[old := a]> adapters)
          else transfer_to old replacements' adapters
      | _, _ => transfer_to old replacements' adapters
      end
  end.

(** The critical section and [previous.clear()]. *)
Definition replacePortAdapters (adapters : list nat) : IO proxy_world unit := section (λ w,
  let moved := foldl (λ live old, transfer_to old adapters live) (live w) (port_adapters w) in
  release_all (port_adapters w)
    (with_lists adapters (quarantined_port_adapters w) (with_heap moved (px_rtt w) w))).

(** The adapters are copied first, then asked for their errors, each of which a
    mutex guards.  The copies are not counted as owners: an adapter the proxy
    drops meanwhile is read here as one without an error. *)
Definition first_error (adapters : gmap nat RemotePortAdapter) (ids : list nat) : string :=
  default "" (head (filter (λ error, error ≠ "") (from_option adapter_lastError "" ∘ (adapters !!.) <$> ids))).

Definition lastPortError : IO proxy_world string :=
  adapters ← load port_adapters;
  load (λ w, first_error (live w) adapters).

(** ** Freshness *)

Definition markInterfaceStale (error : string) : IO proxy_world unit :=
  store_stale true ;;
  setControlError error ;;
  set_access false ;;
  pausePortPump ;;
  discardPendingPortState.

Definition markInterfaceFresh : IO proxy_world unit :=
  set_access true ;;
  store_stale false ;;
  clearControlError.

Definition proxy_connectionState (w : proxy_world) : ProxyConnectionState :=
  let session_state := state_ (w_session (px_session w)) in
  if interface_stale w && bool_decide (session_state = connected) then stale else session_state.

(** ** Control operations *)

(** The guards of an operation. *)
Definition guarded {A} (report_stale : bool) (fallback : A) (body : IO proxy_world A) : IO proxy_world A :=
  ready ← load interface_ready;
  if negb ready then setControlError "remote RTT interface is not ready" ;; mret fallback
  else
    is_stale ← load interface_stale;
    if is_stale : bool then
      (if report_stale
       then setControlError "remote RTT interface is stale; synchronize it before calling operations"
       else mret tt) ;;
      mret fallback
    else body.

Definition fall_back {A} (fallback : A) (error : string) : IO proxy_world A :=
  markInterfaceStale error ;; mret fallback.

Definition no_message (message otherwise : string) : string := if str_empty message then otherwise else message.

(** [Result] is the C++ type [t]; [to<Result>()] throws no other exception than
    the one with the text [variant_access_error]. *)
Definition invokeOperation (t : CppType) (operation_name : string) (fallback : cpp t) (inputs : list Variant) :
    IO proxy_world (cpp t) :=
  guarded true fallback
    (result ← on_session (callOperation component_name [] operation_name inputs);
     if negb (rcr_success result)
     then fall_back fallback (no_message (rcr_error result) "remote RTT operation call failed")
     else
       match rcr_outputs result with
       | [output] =>
           match variant_to_scalar t output with
           | Some value => clearControlError ;; mret value
           | None => fall_back fallback ("remote RTT operation '" +:+ operation_name +:+
                       "' returned an incompatible result: " +:+ variant_access_error output)
           end
       | _ => fall_back fallback ("remote RTT operation '" +:+ operation_name +:+
                "' returned an invalid result count")
       end).

Definition invokeVoidOperation (operation_name : string) : IO proxy_world unit :=
  guarded true tt
    (result ← on_session (callOperation component_name [] operation_name []);
     if negb (rcr_success result)
     then markInterfaceStale (no_message (rcr_error result) "remote RTT operation call failed")
     else
       match rcr_outputs result with
       | [] => clearControlError
       | _ => markInterfaceStale ("remote RTT operation '" +:+ operation_name +:+ "' returned unexpected results")
       end).

Definition invokeTaskStateOperation (operation_name : string) : IO proxy_world Z :=
  guarded false ts_Init
    (result ← on_session (callOperation component_name [] operation_name []);
     let fail text : IO proxy_world Z :=
       fall_back ts_Init ("remote RTT operation '" +:+ operation_name +:+ "' " +:+ text) in
     if negb (rcr_success result)
     then fall_back ts_Init (no_message (rcr_error result) "remote RTT task state operation failed")
     else
       match rcr_outputs result with
       | [output] =>
           if negb (variant_isScalar output) || negb (variant_isType output (nodeid_datatype dt_Int32))
           then fail "did not return a scalar Int32 TaskState"
           else
             match variant_to_scalar cpp_int32 output with
             | Some code =>
                 if ((code <? ts_Init) || (ts_RunTimeError <? code))%Z
                 then fail ("returned invalid TaskState code " +:+ to_string_Z code)
                 else clearControlError ;; mret code
             | None => fail ("returned an incompatible TaskState: " +:+ variant_access_error output)
             end
       | _ => fail "returned an invalid result count"
       end).

(** ** Staging *)

Notation StagedService := (StagedService RemoteOperation Property Attribute).

Definition throw_runtime {A} (what : string) : IO proxy_world A := io_throw (std_exception what).

(** A discovery; a text is thrown. *)
Definition discovered {A} (discovery : option string → IO session_world (list A * option string)) :
    IO proxy_world (list A) :=
  '(found, error) ← on_session (discovery (Some ""));
  if str_empty (default "" error) then mret found else throw_runtime (default "" error).

(** [session->typeRegistry()]. *)
Definition type_registry_of : IO proxy_world (option EndpointTypeRegistry) :=
  load (λ w, type_registry_ (w_session (px_session w))).

Definition makeRemoteDataSource (description : RemoteValueDescription) : IO proxy_world (TypeInfo * DS) :=
  type_registry ← type_registry_of;
  let codec :=
    registry ← type_registry; type_info ← types_type r (rvd_type_name description);
    codec ← codecForTypeInfo registry type_info; codec ← deref_codec registry codec;
    if hasValue codec then Some (type_info, codec) else None in
  match codec with
  | None => throw_runtime ("remote value '" +:+ rvd_name description +:+ "' uses unsupported RTT type '" +:+
              rvd_type_name description +:+ "'")
  | Some (type_info, codec) =>
      let node_id := rvd_node_id description in
      match makeProxyDataSource codec (Some (value_reader node_id))
              (if rvd_writable description then Some (value_writer node_id) else None) with
      | None => throw_runtime ("failed to build remote data source for '" +:+ rvd_name description +:+ "'")
      | Some proxy => source ← on_rtt (new_proxy proxy); mret (type_info, source)
      end
  end.

Definition stage_operation (description : RemoteOperationDescription) : IO proxy_world (string * RemoteOperation) :=
  type_registry ← type_registry_of;
  match makeRemoteOperation r type_registry description with
  | inl what => throw_runtime what
  | inr operation => mret (rod_name description, operation)
  end.

Definition stage_property (description : RemoteValueDescription) : IO proxy_world Property :=
  if negb (rvd_writable description)
  then throw_runtime ("remote property '" +:+ rvd_name description +:+
         "' is not writable for the current OPC UA user")
  else
    '(type_info, source) ← makeRemoteDataSource description;
    property ← on_rtt (ti_buildProperty type_info (rvd_name description) (rvd_description description) source);
    kept ← load (λ w, property ← property; property_getDataSource property (px_rtt w));
    match property with
    | Some property =>
        if bool_decide (kept = Some source) then mret property
        else throw_runtime ("failed to construct remote property '" +:+ rvd_name description +:+ "'")
    | None => throw_runtime ("failed to construct remote property '" +:+ rvd_name description +:+ "'")
    end.

Definition stage_attribute (description : RemoteValueDescription) : IO proxy_world Attribute :=
  '(type_info, source) ← makeRemoteDataSource description;
  attribute ← on_rtt (if rvd_writable description then ti_buildAttribute type_info (rvd_name description) source
                      else ti_buildAlias type_info (rvd_name description) source);
  kept ← load (λ w, attribute ← attribute; attribute_getDataSource attribute (px_rtt w));
  match attribute with
  | Some attribute =>
      if bool_decide (kept = Some source) then mret attribute
      else throw_runtime ("failed to construct remote attribute '" +:+ rvd_name description +:+ "'")
  | None => throw_runtime ("failed to construct remote attribute '" +:+ rvd_name description +:+ "'")
  end.

(** [RemotePortAdapter::create]: the adapter is a new object. *)
Definition stage_port (description : RemotePortDescription) : IO proxy_world nat :=
  created ← atomic (λ w,
    let '(rtt, result) := create_adapter r (Some (px_session w)) description (Some "") (px_rtt w) in
    match result with
    | inl e => (with_heap (live w) rtt w, inl e)
    | inr (None, error) => (with_heap (live w) rtt w, inr (inl (default "" error)))
    | inr (Some a, _) =>
        let id := fresh (dom (live w)) in (with_heap (<[id := a]> (live w)) rtt w, inr (inr id))
    end);
  match created with
  | inl error => throw_runtime (no_message error
                   ("failed to construct remote port '" +:+ rpd_name description +:+ "'"))
  | inr id => mret id
  end.

(** [fuel] is never used up: the depth is tested first. *)
Fixpoint stage_service (fuel : nat) (service_path : RemoteServicePath) (service_name service_description : string) :
    IO proxy_world StagedService :=
  if proxy_kMaximumServiceDepth <? length service_path
  then throw_runtime "remote RTT service hierarchy exceeds the supported depth"
  else
    match fuel with
    | O => io_throw other_exception
    | S fuel =>
        operations ← discovered (discoverOperations component_name service_path);
        match (if bool_decide (service_path = []) then validateRequiredRootOperations operations else None) with
        | Some what => throw_runtime what
        | None =>
            properties ← discovered (discoverValues component_name service_path category_properties);
            attributes ← discovered (discoverValues component_name service_path category_attributes);
            ports ← discovered (discoverPorts component_name service_path);
            services ← discovered (discoverServices component_name service_path);
            operations ← mapM stage_operation operations;
            properties ← mapM stage_property properties;
            attributes ← mapM stage_attribute attributes;
            ports ← mapM stage_port ports;
            children ← mapM (λ service, stage_service fuel (service_path ++ [rsd_name service])
                                          (rsd_name service) (rsd_description service)) services;
            mret (Staged service_name service_description operations properties attributes ports children)
        end
    end.

Definition stageRemoteService (service_path : RemoteServicePath) (service_name service_description : string) :
    IO proxy_world StagedService :=
  stage_service (S (proxy_kMaximumServiceDepth) - length service_path) service_path service_name service_description.

(** ** Installation *)

Fixpoint for_each {A} (f : A → IO proxy_world unit) (l : list A) : IO proxy_world unit :=
  match l with
  | [] => mret tt
  | x :: l => f x ;; for_each f l
  end.

Definition require (result : IO W bool) (otherwise : string) : IO proxy_world unit :=
  done ← on_rtt result; if done : bool then mret tt else throw_runtime otherwise.

(** [target->addLocalPort(port->port())]. *)
Definition add_port (target : Service) (id : nat) : IO proxy_world unit :=
  port ← load (λ w, a ← live w !! id; port_ a);
  match port with
  | Some port => on_rtt (service_addLocalPort target port)
  | None => mret tt
  end.

(** The ports installed, in this order. *)
Fixpoint installStagedService (target : Service) (staged : StagedService) : IO proxy_world (list nat) :=
  on_rtt (service_doc target (staged_description staged)) ;;
  for_each (λ entry, on_rtt (service_add target entry.1 entry.2)) (staged_operations staged) ;;
  for_each (λ property, require (service_ownProperty target property) "failed to install staged RTT property")
    (staged_properties staged) ;;
  for_each (λ attribute, require (service_setValue target attribute) "failed to install staged RTT attribute")
    (staged_attributes staged) ;;
  for_each (add_port target) (staged_ports staged) ;;
  installed ← (fix install_children (children : list StagedService) : IO proxy_world (list nat) :=
    match children with
    | [] => mret []
    | child_staged :: children =>
        child ← on_rtt (service_create (staged_name child_staged));
        require (service_addService target child)
          ("failed to install staged RTT service '" +:+ staged_name child_staged +:+ "'") ;;
        installed ← installStagedService child child_staged;
        others ← install_children children;
        mret (installed ++ others)
    end) (staged_children staged);
  mret (staged_ports staged ++ installed).

(** [levels] bounds how deep the services nest; an interface in which they do
    not end would overflow the stack. *)
Fixpoint clear_levels (levels : nat) (service : Service) : IO W unit :=
  match levels with
  | O => io_throw other_exception
  | S levels =>
      ports ← io_gets (service_getPortNames service);
      foldr (λ name rest, service_removeLocalPort service name ;; rest) (mret tt) ports ;;
      names ← io_gets (service_getProviderNames service);
      foldr (λ name rest,
        (if String.eqb name "this" then mret tt
         else
           child ← service_getService service name;
           match child with
           | None => mret tt
           | Some child => clear_levels levels child ;; service_clear child
           end) ;;
        rest) (mret tt) names
  end.

Definition clearMirroredInterface (service : Service) : IO W unit :=
  levels ← io_gets service_levels; clear_levels levels service.

(** [clearMirroredInterface(root); clear();]. *)
Definition clear_interface : IO proxy_world unit :=
  on_rtt (clearMirroredInterface provides) ;; on_rtt task_clear.

(** ** Synchronization *)

Definition scope_ends : IO proxy_world unit := io_modify sweep.

(** The [try] block that reads and stages the interface; the adapters of a
    staging that fails go with it. *)
Definition stage_interface : IO proxy_world (string + StagedService) :=
  catch_std
    ('(found, description, discovery_error) ←
       on_session (readServiceDescription component_name [] (Some "") (Some ""));
     if negb found then throw_runtime (default "" discovery_error)
     else staged ← stageRemoteService [] "" (default "" description); mret (inr staged))
    (λ what, scope_ends ;; mret (inl ("failed to stage remote RTT interface: " +:+ what))).

(** The second attempt to clear the interface: what went wrong with it. *)
Definition clean_up : IO proxy_world (option string) :=
  catch_all (clear_interface ;; mret None)
    (λ e, mret (Some (match e with
                      | std_exception what => "; cleanup also failed: " +:+ what
                      | other_exception => "; cleanup also failed with an unknown error"
                      end))).

Definition install_interface (staged : StagedService) : IO proxy_world (string + list nat) :=
  catch_all
    (store_ready false ;;
     clear_interface ;;
     clearQuarantinedPortAdapters ;;
     installed ← installStagedService provides staged;
     mret (inr installed))
    (λ e,
     cleanup_error ← clean_up;
     match cleanup_error with
     | Some _ => quarantinePortAdapters (collectStagedPorts staged)
     | None => mret tt
     end ;;
     let message :=
       match e with
       | std_exception what => "failed to install remote RTT interface: " +:+ what +:+ default "" cleanup_error
       | other_exception => "failed to install remote RTT interface: unknown error"
       end in
     markInterfaceStale message ;;
     mret (inl message)).

(** A session that was lost since the last synchronization. *)
Definition notice_lost_session (entry_session_state : ProxyConnectionState) : IO proxy_world unit :=
  ready ← load interface_ready;
  if ready && negb (bool_decide (entry_session_state = connected)) then
    is_stale ← load interface_stale;
    if is_stale : bool then mret tt
    else
      stale_error ← on_session (get last_error_);
      markInterfaceStale
        (no_message stale_error "remote RTT interface became stale before synchronization")
  else mret tt.

Definition can_restore (entry_session_state : ProxyConnectionState) : IO proxy_world bool :=
  ready ← load interface_ready;
  if ready : bool then
    is_stale ← load interface_stale;
    mret (negb is_stale && bool_decide (entry_session_state = connected))
  else mret false.

(** From the staged interface to the end. *)
Definition replace_interface (can_restore_existing_interface : bool) (staged : StagedService)
    (error : option string) : IO proxy_world (bool * option string) :=
  '(replaceable, replacement_error) ← canReplacePortAdapters (collectStagedPorts staged) (Some "");
  if negb replaceable then
    (if can_restore_existing_interface : bool then
       session_state ← on_session (get state_);
       if bool_decide (session_state = connected) then set_access true else mret tt
     else mret tt) ;;
    scope_ends ;;
    mret (false, assignError error (default "" replacement_error))
  else
    result ← install_interface staged;
    match result with
    | inl message => scope_ends ;; mret (false, assignError error message)
    | inr installed_ports =>
        replacePortAdapters installed_ports ;;
        store_ready true ;;
        markInterfaceFresh ;;
        resumePortPump ;;
        scope_ends ;;
        mret (true, assignError error "")
    end.

(** Between the construction of [resume_pump] and its destruction. *)
Definition synchronize_paused (error : option string) : IO proxy_world (bool * option string) :=
  entry_session_state ← on_session (get state_);
  notice_lost_session entry_session_state ;;
  can_restore_existing_interface ← can_restore entry_session_state;
  '(reached, error) ←
    if bool_decide (entry_session_state = connected) then mret (true, error)
    else on_session (connect r error);
  if negb reached then
    message ← match error with
              | None => on_session (get last_error_)
              | Some message => mret message
              end;
    markInterfaceStale message ;;
    mret (false, error)
  else
    staged ← stage_interface;
    match staged with
    | inl message => markInterfaceStale message ;; mret (false, assignError error message)
    | inr staged => replace_interface can_restore_existing_interface staged error
    end.

(** [thread_context] is what [initializeRttThreadContext] throws, if it does.
    [resume_pump] is released by success alone. *)
Definition synchronize (thread_context : option string) (error : option string) :
    IO proxy_world (bool * option string) :=
  match thread_context with
  | Some what => mret (false, assignError error what)
  | None =>
      set_access false ;;
      pausePortPump ;;
      '(synchronized, error) ← catch_all (synchronize_paused error)
        (λ e, scope_ends ;; resumePortPump ;; io_throw e);
      (if synchronized : bool then mret tt else resumePortPump) ;;
      mret (synchronized, error)
  end.

(** ** Construction and destruction *)

(** [TaskContextProxyOptions], in milliseconds. *)
Record TaskContextProxyOptions := {
  request_timeout : Z;
  port_poll_interval : Z;
}.

Definition supported_duration (milliseconds : Z) : bool :=
  (0 <? milliseconds)%Z && (milliseconds <=? 2 ^ 32 - 1)%Z.

(** A new proxy: the thread waits, the ports are paused. *)
Definition new_proxy_world (endpoint_url : string) (options : TaskContextProxyOptions) (net : CN)
    (types : RegistryState UA_DataType DataType) (rtt : W) (events : list (list env_event)) : proxy_world :=
  {| px_session := {| w_session := new_session endpoint_url (request_timeout options); w_net := net; w_types := types |};
     interface_ready := false; interface_stale := false; ports_paused := true; port_adapters := [];
     quarantined_port_adapters := []; control_error := ""; live := ∅;
     port_thread := {| phase := pump_idle; held := []; round := []; stop_requested := false |};
     px_rtt := rtt; schedule := events |}.

(** [~TaskContextProxy]. *)
Definition destroy_proxy : IO proxy_world unit :=
  store_ready false ;;
  catch_all (set_access false) (λ _, mret tt) ;;
  stopPortPump ;;
  catch_all (clear_interface ;; clearQuarantinedPortAdapters) (λ _, mret tt) ;;
  clearPortAdapters.

(** The arguments [create] refuses, before there is a proxy. *)
Definition refused_arguments (endpoint_url : string) (options : TaskContextProxyOptions) : option string :=
  if str_empty endpoint_url then Some "OPC UA endpoint URL must not be empty"
  else if str_empty component_name then Some "remote RTT component name must not be empty"
  else if negb (supported_duration (request_timeout options))
  then Some "OPC UA request timeout is outside the supported range"
  else if negb (supported_duration (port_poll_interval options))
  then Some "OPC UA port poll interval is outside the supported range"
  else None.

(** From the constructor on; the flag says whether a proxy is returned, and one
    that is not is destroyed. *)
Definition create_new (thread_context : option string) (error : option string) :
    IO proxy_world (bool * option string) :=
  catch_std
    (catch_all (on_rtt task_clear) (λ e, stopPortPump ;; io_throw e) ;;
     '(made, error) ← catch_all
       ('(reached, error) ← on_session (connect r error);
        if negb reached then mret (false, error) else synchronize thread_context error)
       (λ e, destroy_proxy ;; io_throw e);
     (if made : bool then mret tt else destroy_proxy) ;;
     mret (made, error))
    (λ what, mret (false, assignError error ("failed to create RTT OPC UA proxy: " +:+ what))).

Definition create_proxy (endpoint_url : string) (options : TaskContextProxyOptions)
    (thread_context : option string) (error : option string) : IO proxy_world (bool * option string) :=
  match refused_arguments endpoint_url options, thread_context with
  | Some message, _ => mret (false, assignError error message)
  | None, Some what => mret (false, assignError error ("failed to create RTT OPC UA proxy: " +:+ what))
  | None, None => create_new None error
  end.

(** ** The task context's operations *)

Definition proxy_ready : IO proxy_world bool :=
  ready ← load interface_ready;
  if negb ready then mret false
  else invokeTaskStateOperation "getTaskState" ;; load (λ w, bool_decide (proxy_connectionState w = connected)).

Definition proxy_configure : IO proxy_world bool := invokeOperation cpp_bool "configure" false [].
Definition proxy_activate : IO proxy_world bool := invokeOperation cpp_bool "activate" false [].
Definition proxy_start : IO proxy_world bool := invokeOperation cpp_bool "start" false [].
Definition proxy_stop : IO proxy_world bool := invokeOperation cpp_bool "stop" false [].
Definition proxy_cleanup : IO proxy_world bool := invokeOperation cpp_bool "cleanup" false [].
Definition proxy_recover : IO proxy_world bool := invokeOperation cpp_bool "recover" false [].
Definition proxy_isConfigured : IO proxy_world bool := invokeOperation cpp_bool "isConfigured" false [].
Definition proxy_isActive : IO proxy_world bool := invokeOperation cpp_bool "isActive" false [].
Definition proxy_isRunning : IO proxy_world bool := invokeOperation cpp_bool "isRunning" false [].
Definition proxy_inFatalError : IO proxy_world bool := invokeOperation cpp_bool "inFatalError" false [].
Definition proxy_inException : IO proxy_world bool := invokeOperation cpp_bool "inException" false [].
Definition proxy_inRunTimeError : IO proxy_world bool := invokeOperation cpp_bool "inRunTimeError" false [].
Definition proxy_update : IO proxy_world bool := invokeOperation cpp_bool "update" false [].
Definition proxy_trigger : IO proxy_world bool := invokeOperation cpp_bool "trigger" false [].

Definition proxy_getTaskState : IO proxy_world Z := invokeTaskStateOperation "getTaskState".
Definition proxy_getTargetState : IO proxy_world Z := invokeTaskStateOperation "getTargetState".

(** The bits of [-1.0], and [~0U]. *)
Definition no_period : cpp cpp_double := 0xBFF0000000000000%Z.
Definition no_affinity : cpp cpp_uint32 := 0xFFFFFFFF%Z.

Definition proxy_getPeriod : IO proxy_world Z := invokeOperation cpp_double "getPeriod" no_period [].
Definition proxy_setPeriod (period : cpp cpp_double) : IO proxy_world bool :=
  invokeOperation cpp_bool "setPeriod" false [variant_scalar cpp_double period].
Definition proxy_getCpuAffinity : IO proxy_world Z := invokeOperation cpp_uint32 "getCpuAffinity" no_affinity [].
Definition proxy_setCpuAffinity (cpu : cpp cpp_uint32) : IO proxy_world bool :=
  invokeOperation cpp_bool "setCpuAffinity" false [variant_scalar cpp_uint32 cpu].
Definition proxy_error : IO proxy_world unit := invokeVoidOperation "error".

Definition proxy_endpointUrl (w : proxy_world) : string := endpoint_url_ (w_session (px_session w)).

Definition proxy_lastError : IO proxy_world string :=
  control ← load control_error;
  if negb (str_empty control) then mret control
  else
    port_error ← lastPortError;
    if str_empty port_error then on_session (get last_error_) else mret port_error.
End proxy.
