(* ===== verification/ConcreteProxy.v ===== *)
(** A concrete mirror: an endpoint with a component that has all that a mirror
    requires, and services of a task context that keep nothing.  The witnesses of
    the mirror run on it. *)

From S2P Require Import Prelude NodeId Native Concrete DataTypeRegistry TypeProtocol EndpointTypeRegistry.
From S2P Require Import OperationDispatcher PortDataSources AddressSpace ConcreteServer NodeSpecs.
From S2P Require Import Client ClientDiscovery ConcreteClient ClientSpec RemotePort RemotePortSpec.
From S2P Require Import RemoteOperation RemoteOperationSpec TaskContextProxy.

(** ** The endpoint

    The component "arm" with the eight required operations, of which the states
    are 4 and the others false, an input port, and a service with a port of the
    same name. *)
Definition root_operation (name : string) (value : c_Remote) (type : string) : list (list string * c_RemoteNode) :=
  [(["operations"; name], {| rn_class := class_Method; rn_text := ""; rn_value := inr value; rn_access := 0 |});
   (["operations"; name; "rttOutputTypes"],
    {| rn_class := class_Variable; rn_text := ""; rn_value := inr (cv_array cpp_string [type]); rn_access := 1 |});
   (["operations"; name; "rttOutputSources"],
    {| rn_class := class_Variable; rn_text := ""; rn_value := inr (cv_array cpp_int32 [(-1)%Z]); rn_access := 1 |})].

Definition mirrored_port (path : list string) : list (list string * c_RemoteNode) :=
  [(path ++ ["ports"; "target"], remote_object "The target.");
   (path ++ ["ports"; "target"; "type"], remote_string "Int32");
   (path ++ ["ports"; "target"; "direction"],
    {| rn_class := class_Variable; rn_text := ""; rn_value := inr (cv_scalar cpp_int32 0%Z); rn_access := 1 |});
   (path ++ ["ports"; "target"; "value"],
    {| rn_class := class_Variable; rn_text := ""; rn_value := inr (cv_scalar cpp_int32 0%Z); rn_access := 3 |})].

Definition categories (path : list string) : list (list string * c_RemoteNode) :=
  (λ category, (path ++ [category], remote_object category)) <$>
    ["operations"; "properties"; "attributes"; "ports"; "services"].

Definition mirror_nodes : list (list string * c_RemoteNode) :=
  [([], remote_object "arm"); (["services"; "tool"], remote_object "The tool.")] ++
  categories [] ++ categories ["services"; "tool"] ++ mirrored_port [] ++ mirrored_port ["services"; "tool"] ++
  concat ((λ operation, root_operation operation.1
    (if String.eqb operation.2 "TaskState" then cv_scalar cpp_int32 4%Z else cv_scalar cpp_bool false)
    operation.2) <$> kRequiredRootOperations).

Definition child (folder : list string) (node_class : NodeClass) (name : string) :
    c_NodeId * ReferenceDescription c_NodeId :=
  (at_path folder, remote_reference (at_path (folder ++ [name])) node_class name).

Definition mirror_net : c_Net :=
  {| net_namespaces := arm_namespaces; net_up := false;
     net_nodes := list_to_map ((λ entry, (at_path entry.1, entry.2)) <$> mirror_nodes);
     net_references :=
       [child ["services"] class_Object "tool"; child ["ports"] class_Object "target";
        child ["services"; "tool"; "ports"] class_Object "target"] ++
       ((λ operation, child ["operations"] class_Method operation.1) <$> kRequiredRootOperations);
     net_requests := 0; net_writes := []; net_reads := [] |}.

(** ** The task context

    A property or an attribute is its data source. *)
#[global] Instance heap_MirrorTypes :
    MirrorTypes c_Heap nat string (ProxyDataSource c_Heap c_Remote c_NodeId c_NodeId) nat nat := {
  new_proxy _ h := let '(h, source) := h_alloc None h in (h, inr source);
  ti_buildProperty _ _ _ source := mret (Some source);
  ti_buildAttribute _ _ source := mret (Some source);
  ti_buildAlias _ _ source := mret (Some source);
  property_getDataSource property _ := Some property;
  attribute_getDataSource attribute _ := Some attribute;
}.

Notation c_RemoteOperation :=
  (@RemoteOperation c_Heap nat nat c_Remote c_NodeId c_NodeId c_DataType string _ _).

#[global] Instance heap_MirrorServices : MirrorServices c_Heap nat c_RemoteOperation nat nat string := {
  provides := "this";
  service_doc _ _ := mret tt;
  service_add _ _ _ := mret tt;
  service_ownProperty _ _ := mret true;
  service_setValue _ _ := mret true;
  service_addLocalPort _ _ := mret tt;
  service_create name := mret name;
  service_addService _ _ := mret true;
  service_getPortNames _ _ := [];
  service_removeLocalPort _ _ := mret tt;
  service_getProviderNames _ _ := [];
  service_getService _ _ := mret None;
  service_clear _ := mret tt;
  task_clear := mret tt;
  service_levels _ := 1;
}.

Definition mirror_types : c_Repository (TypeProtocol c_Heap nat nat c_Remote c_NodeId c_NodeId) :=
  (list_to_map ((λ name, (name, name)) <$> ["Int32"; "Bool"; "TaskState"; "Void"]),
   list_to_map ((λ name, (name, heap_protocol)) <$> ["Int32"; "Bool"; "TaskState"])).

(** ** Runs *)

Definition c_ProxyWorld : Type :=
  @proxy_world c_Heap nat nat c_Remote c_NodeId c_NodeId c_DataType string c_Net unit _ _.

Definition mirror_options : TaskContextProxyOptions := {| request_timeout := 2000; port_poll_interval := 10 |}.

(** The port thread moves before some of the first steps. *)
Definition mirror_schedule : list (list (env_event (W := c_Heap) (Variant := c_Remote) (NodeId := c_NodeId))) :=
  [[env_pump]; []; [env_pump; env_pump]].

Definition no_reader (node_id : c_NodeId) : VariantReader c_Heap c_Remote := mret None.
Definition no_writer (node_id : c_NodeId) : VariantWriter c_Heap c_Remote := λ _, mret false.

Definition mirror_new : c_ProxyWorld :=
  new_proxy_world "opc.tcp://arm:4840" mirror_options mirror_net initial_registry (heap_of [5; 6]%Z) mirror_schedule.

Definition mirror_create := create_proxy "arm" mirror_types no_value no_reader no_writer
  "opc.tcp://arm:4840" mirror_options None (Some "") mirror_new.

Definition mirror_ready : c_ProxyWorld := mirror_create.1.

(** The flags, the state of the session, how many adapters there are and which
    are mirrored. *)
Definition mirror_summary (w : c_ProxyWorld) :=
  (interface_ready w, interface_stale w, ports_paused w, state_ (w_session (px_session w)),
   size (live w), port_adapters w).

Example mirror_created :
  (mirror_create.2, mirror_summary mirror_ready) =
  (inr (true, Some ""), (true, false, false, connected, 2, [0; 1])).
Proof. vm_compute. reflexivity. Qed.

Example mirror_state : (proxy_getTaskState "arm" no_value mirror_ready).2 = inr 4%Z.
Proof. vm_compute. reflexivity. Qed.

(** The endpoint goes down; the next operation notices, and a synchronization
    brings the interface back. *)
Definition set_network (up : bool) (w : c_ProxyWorld) : c_ProxyWorld :=
  with_session {| w_session := w_session (px_session w); w_net := set_up up (w_net (px_session w));
                  w_types := w_types (px_session w) |} w.

Definition mirror_lost := proxy_getTaskState "arm" no_value (set_network false mirror_ready).
Definition mirror_again := synchronize "arm" mirror_types no_value no_reader no_writer None (Some "") mirror_lost.1.

Example mirror_recovers :
  (mirror_lost.2, mirror_summary mirror_lost.1, mirror_again.2, mirror_summary mirror_again.1) =
  (inr 0%Z, (true, true, true, stale, 2, [0; 1]), inr (true, Some ""), (true, false, false, connected, 2, [2; 3])).
Proof. vm_compute. reflexivity. Qed.
