(* ===== verification/Hoare.v ===== *)
(** A small program logic for the computations of Prelude.v: what holds after a
    computation that returns, and after one that throws. *)

From S2P Require Import Prelude.

Definition triple {W A} (P : W → Prop) (m : IO W A) (Q : A → W → Prop) (E : exn → W → Prop) : Prop :=
  ∀ w, P w → match m w with
             | (w', inr x) => Q x w'
             | (w', inl e) => E e w'
             end.

Section rules.
Context {W : Type}.
Implicit Types (P : W → Prop) (E : exn → W → Prop).

Lemma triple_conseq {A} P P' (m : IO W A) (Q Q' : A → W → Prop) E E' :
  triple P' m Q' E' → (∀ w, P w → P' w) → (∀ x w, Q' x w → Q x w) → (∀ e w, E' e w → E e w) → triple P m Q E.
Proof. intros Hm HP HQ HE w Hw. specialize (Hm w (HP w Hw)). destruct (m w) as [w' [e|x]]; auto. Qed.

Lemma triple_pre {A} P P' (m : IO W A) (Q : A → W → Prop) E :
  triple P' m Q E → (∀ w, P w → P' w) → triple P m Q E.
Proof. intros Hm HP w Hw. apply Hm. auto. Qed.

Lemma triple_post {A} P (m : IO W A) (Q Q' : A → W → Prop) E :
  triple P m Q' E → (∀ x w, Q' x w → Q x w) → triple P m Q E.
Proof. intros Hm HQ. eapply triple_conseq; eauto. Qed.

Lemma triple_ret {A} P (x : A) E : triple P (mret x) (λ y w, y = x ∧ P w) E.
Proof. intros w Hw. by split. Qed.

(** The rule that ends a computation. *)
Lemma triple_return {A} (x : A) P (Q : A → W → Prop) E : (∀ w, P w → Q x w) → triple P (mret x) Q E.
Proof. intros HQ w Hw. by apply HQ. Qed.

Lemma triple_throw {A} e P (Q : A → W → Prop) E : (∀ w, P w → E e w) → triple P (io_throw e) Q E.
Proof. intros HE w Hw. by apply HE. Qed.

Lemma triple_bind {A B} P (m : IO W A) (Q : A → W → Prop) (f : A → IO W B) (S : B → W → Prop) E :
  triple P m Q E → (∀ x, triple (Q x) (f x) S E) → triple P (m ≫= f) S E.
Proof.
  intros Hm Hf w Hw. specialize (Hm w Hw). unfold mbind, IO_bind.
  destruct (m w) as [w' [e|x]]; [done|]. by apply Hf.
Qed.

(** Sequencing with an assertion that ignores the result. *)
Lemma triple_seq {A B} P (m : IO W A) P' (f : A → IO W B) (S : B → W → Prop) E :
  triple P m (λ _, P') E → (∀ x, triple P' (f x) S E) → triple P (m ≫= f) S E.
Proof. intros Hm Hf. eapply triple_bind; [exact Hm|done]. Qed.

Lemma triple_catch_all {A} P (m : IO W A) (h : exn → IO W A) (Q : A → W → Prop) E E' :
  triple P m Q E' → (∀ e, triple (E' e) (h e) Q E) → triple P (catch_all m h) Q E.
Proof.
  intros Hm Hh w Hw. specialize (Hm w Hw). unfold catch_all.
  destruct (m w) as [w' [e|x]]; [by apply Hh|done].
Qed.

Lemma triple_catch_std {A} P (m : IO W A) (h : string → IO W A) (Q : A → W → Prop) E E' :
  triple P m Q E' → (∀ what, triple (E' (std_exception what)) (h what) Q E) →
  (∀ w, E' other_exception w → E other_exception w) → triple P (catch_std m h) Q E.
Proof.
  intros Hm Hh HE w Hw. specialize (Hm w Hw). unfold catch_std.
  destruct (m w) as [w' [[what|]|x]]; [by apply Hh|by apply HE|done].
Qed.

(** A fact that does not depend on the world. *)
Lemma triple_pure {A} (φ : Prop) P (m : IO W A) (Q : A → W → Prop) E :
  (φ → triple P m Q E) → triple (λ w, φ ∧ P w) m Q E.
Proof. intros Hm w [Hφ Hw]. by apply Hm. Qed.

Lemma triple_exists {A X} (P : X → W → Prop) (m : IO W A) (Q : A → W → Prop) E :
  (∀ x, triple (P x) m Q E) → triple (λ w, ∃ x, P x w) m Q E.
Proof. intros Hm w [x Hw]. by apply (Hm x). Qed.

Lemma triple_mapM {A B} (P : W → Prop) (f : A → IO W B) l E :
  (∀ x, x ∈ l → triple P (f x) (λ _, P) E) → triple P (mapM f l) (λ _, P) E.
Proof.
  induction l as [|x l IH]; intros Hf; simpl; [by apply triple_return|].
  eapply triple_seq; [apply Hf; left|]. intros y.
  eapply triple_seq; [apply IH; intros; apply Hf; by right|]. intros ys. by apply triple_return.
Qed.

(** Computations that do the same. *)
Lemma io_bind_ext {A B} (m m' : IO W A) (f f' : A → IO W B) :
  (∀ w, m w = m' w) → (∀ x w, f x w = f' x w) → ∀ w, (m ≫= f) w = (m' ≫= f') w.
Proof. intros Hm Hf w. unfold mbind, IO_bind. rewrite Hm. destruct (m' w) as [w' [e|x]]; [done|apply Hf]. Qed.

Lemma io_mapM_ext {A B} (f f' : A → IO W B) l : (∀ x w, f x w = f' x w) → ∀ w, mapM f l w = mapM f' l w.
Proof.
  intros Hf. induction l as [|x l IH]; intros w; simpl; [done|].
  apply io_bind_ext; [done|]. intros y w'. by apply io_bind_ext.
Qed.
End rules.
