(* ===== verification/ProxySteps.v ===== *)
(** What the environment does to the mirror of a component between two of its
    steps: requests, rounds of the port thread, uses of the RTT heap. *)

From S2P Require Import Prelude NodeId Native Concrete DataTypeRegistry TypeProtocol EndpointTypeRegistry.
From S2P Require Import OperationDispatcher PortDataSources AddressSpace ConcreteServer NodeSpecs.
From S2P Require Import Client ClientDiscovery ConcreteClient ClientSpec RemotePort RemotePortSpec.
From S2P Require Import RemoteOperation RemoteOperationSpec TaskContextProxy Hoare.

(** ** What requests and pumps do to a session *)

Section session_use.
Context {W DS Port Variant NodeId UA_DataType DataType TypeInfo R CN Client StatusCode : Type}.
Context `{EqDecision TypeInfo} `{!Countable TypeInfo}.
Context `{NodeIds NodeId} `{DataTypes NodeId UA_DataType DataType}.
Context `{StatusCodes StatusCode} `{!StatusConstants StatusCode}.
Context `{!ClientServices CN Client NodeId Variant DataType StatusCode}.
Context `{!RttPorts W DS Port TypeInfo} `{!LocalPorts W DS Port TypeInfo}.
Notation ClientSession :=
  (@ClientSession W DS Port Variant NodeId UA_DataType DataType TypeInfo Client _ _).
Notation session_world := (@world W DS Port Variant NodeId UA_DataType DataType TypeInfo CN Client _ _).
Notation port_world :=
  (@port_world W DS Port Variant NodeId UA_DataType DataType TypeInfo CN Client _ _).
Notation RemotePortAdapter :=
  (@RemotePortAdapter W DS Port Variant NodeId UA_DataType DataType TypeInfo _ _).
Notation Request := (@Request Variant NodeId).
Context (empty_variant : Variant).
Implicit Types (s : ClientSession) (request : Request) (a : RemotePortAdapter).

(** A session in use: it keeps its client and registry; it goes stale and loses
    access together, and without access it does not change but for its error. *)
Record uses s s' : Prop := {
  us_frame : request_frame s s';
  us_access : interface_access_enabled_ s' = true → interface_access_enabled_ s = true ∧ state_ s' = state_ s;
  us_refused : interface_access_enabled_ s = false → state_ s' = state_ s;
}.

#[global] Instance uses_refl : Reflexive uses.
Proof. intros s. split; auto. reflexivity. Qed.

#[global] Instance uses_trans : Transitive uses.
Proof.
  intros s1 s2 s3 [[] Ha Hr] [[] Ha' Hr']. split; [split; try congruence|..].
  - destruct rf_state as [E|[E1 E2]], rf_state0 as [E'|[E1' E2']]; try (left; congruence); try (right; split; congruence).
  - destruct rf_access as [E|E], rf_access0 as [E'|E']; (left; congruence) || (right; congruence).
  - intros H3. destruct (Ha' H3) as [H2 E2]. destruct (Ha H2) as [H1' E1]. split; congruence.
  - intros H1'. rewrite Hr'; [auto|]. destruct (interface_access_enabled_ s2) eqn:E; [|done]. naive_solver congruence.
Qed.

Lemma uses_last_error message s : uses s (with_last_error message s).
Proof. split; simpl; auto. apply frame_last_error. Qed.

Lemma uses_invalidated invalid message s :
  state_ s = connected → interface_access_enabled_ s = true →
  uses s (invalidated invalid (with_last_error message s)).
Proof.
  intros Hs Ha. split; [by apply frame_invalidated|..]; destruct invalid; simpl; auto; congruence.
Qed.

(** A request for which access is needed. *)
Lemma perform_uses request (w : session_world) :
  needs_access request = true → uses (w_session w) (w_session (perform request w).1).
Proof.
  intros Hneeds. rewrite perform_spec. unfold request_spec. rewrite Hneeds.
  destruct (refused _ _ (w_session w)) as [message|] eqn:Hrefused, (client_ (w_session w)) as [client|] eqn:Hclient.
  1, 2, 4: apply uses_last_error.
  apply refused_None in Hrefused as (_ & Hup & Haccess). specialize (Haccess eq_refl).
  destruct (service _ _ _ _) as [net [[what|]|[status|reply]]]; simpl.
  - by apply (uses_invalidated true).
  - reflexivity.
  - by apply uses_invalidated.
  - apply uses_last_error.
Qed.

Lemma writePortValue_uses id value (w : session_world) :
  uses (w_session w) (w_session (writePortValue id value w).1).
Proof.
  pose proof (perform_uses (request_writePort id value) w eq_refl) as Huses. revert Huses. simpl.
  unfold reply_of_flag, get, io_gets, mbind, IO_bind.
  by destruct (writePortValue id value w) as [w' [e|[]]].
Qed.

Lemma readPortValue_uses id (w : session_world) :
  uses (w_session w) (w_session (readPortValue id w).1).
Proof.
  pose proof (perform_uses (request_readPort id) w eq_refl) as Huses. revert Huses. simpl.
  unfold mbind, IO_bind. by destruct (readPortValue id w) as [w' [e|]].
Qed.

(** What a pump does to its world: it uses the session and stays with its port. *)
Definition pumps (w w' : port_world) : Prop :=
  uses (w_session (pw_session w)) (w_session (pw_session w')) ∧ same_channel w w'.

Lemma pumps_on_session {A} w0 (m : IO session_world A) :
  (∀ sw, uses (w_session sw) (w_session (m sw).1)) →
  triple (pumps w0) (RemotePort.on_session m) (λ _, pumps w0) (λ _, pumps w0).
Proof.
  intros Hm w [Huses Hsame]. unfold RemotePort.on_session. specialize (Hm (pw_session w)).
  destruct (m (pw_session w)) as [sw o]. simpl in Hm.
  assert (pumps w0 {| pw_adapter := pw_adapter w; pw_session := sw; pw_rtt := pw_rtt w |}); [|by destruct o].
  split; [by etransitivity|done].
Qed.

Lemma pumps_on_heap {A} w0 (m : IO W A) :
  triple (pumps w0) (on_heap m) (λ _, pumps w0) (λ _, pumps w0).
Proof. intros w Hw. unfold on_heap. destruct (m (pw_rtt w)) as [rtt o]. by destruct o. Qed.

Lemma pumps_update w0 (f : RemotePortAdapter → RemotePortAdapter) :
  (∀ a, description_ (f a) = description_ a ∧ type_info_ (f a) = type_info_ a ∧ codec_ (f a) = codec_ a ∧
        port_ (f a) = port_ a) →
  triple (pumps w0) (update_adapter f) (λ _, pumps w0) (λ _, pumps w0).
Proof.
  intros Hf w [Huses (Hd & Ht & Hc & Hp)]. split; [done|]. destruct (Hf (pw_adapter w)) as (Ed & Et & Ec & Ep).
  split_and!; simpl; congruence.
Qed.

Lemma pumps_gets {A} w0 (f : port_world → A) :
  triple (pumps w0) (io_gets f) (λ _, pumps w0) (λ _, pumps w0).
Proof. by intros w Hw. Qed.

Ltac pump_rules :=
  repeat match goal with
  | |- triple _ (match ?x with _ => _ end) _ _ => destruct x
  | |- triple _ (_ ≫= _) _ _ => eapply triple_seq; [|intros ?]
  | |- triple _ (mret _) _ _ => by apply triple_return
  | |- triple _ (RemotePort.on_session _) _ _ => apply pumps_on_session; intros ?
  | |- triple _ (on_heap _) _ _ => apply pumps_on_heap
  | |- triple _ (update_adapter _) _ _ => by apply pumps_update
  | |- triple _ (io_gets _) _ _ => apply pumps_gets
  | |- uses _ _ => apply writePortValue_uses || apply readPortValue_uses
  end.

Lemma pump_pumps w : pumps w (pump empty_variant w).1.
Proof.
  assert (Hpump : triple (pumps w) (pump empty_variant) (λ _, pumps w) (λ _, pumps w)).
  { unfold pump, adapter. eapply triple_seq; [apply pumps_gets|intros description].
    eapply triple_catch_all.
    - unfold pumpInput, pumpOutput, fetch_input, encode_input, send_input, write_output, adapter, setError, clear_error,
        adapter. pump_rules.
    - intros e. unfold setError. pump_rules. }
  specialize (Hpump w). destruct (pump empty_variant w) as [w' [e|[]]]; apply Hpump; (split; [reflexivity|done]).
Qed.
End session_use.

(** ** What the environment does to a proxy *)

Section proxy_facts.
Context {W DS Port Variant NodeId UA_DataType DataType TypeInfo R CN Client StatusCode Wire C : Type}.
Context {Property Attribute Service : Type}.
Context `{EqDecision TypeInfo} `{!Countable TypeInfo} `{EqDecision DS}.
Context `{NodeIds NodeId} `{DataTypes NodeId UA_DataType DataType}.
Context `{StatusCodes StatusCode} `{!StatusConstants StatusCode}.
Context `{!Variants Variant NodeId UA_DataType Wire}.
Context `{!ClientServices CN Client NodeId Variant DataType StatusCode}.
Context `{!DiscoveryServices CN Client NodeId Variant StatusCode}.
Context `{!RttPorts W DS Port TypeInfo} `{!LocalPorts W DS Port TypeInfo}.
Context `{!OperationSources W DS TypeInfo C} `{TaskStates}.
Notation TypeCodec := (TypeCodec W DS Port Variant NodeId UA_DataType).
Notation TypeProtocol := (TypeProtocol W DS Port Variant NodeId UA_DataType).
Notation EndpointTypeRegistry := (EndpointTypeRegistry UA_DataType DataType TypeInfo TypeCodec).
Notation ProxyDataSource := (ProxyDataSource W Variant NodeId UA_DataType).
Context `{TypeInfos TypeInfo R TypeProtocol}.
Notation ClientSession :=
  (@ClientSession W DS Port Variant NodeId UA_DataType DataType TypeInfo Client _ _).
Notation session_world := (@world W DS Port Variant NodeId UA_DataType DataType TypeInfo CN Client _ _).
Notation RemotePortAdapter :=
  (@RemotePortAdapter W DS Port Variant NodeId UA_DataType DataType TypeInfo _ _).
Notation RemoteOperation :=
  (@RemoteOperation W DS Port Variant NodeId UA_DataType DataType TypeInfo _ _).
Notation proxy_world :=
  (@proxy_world W DS Port Variant NodeId UA_DataType DataType TypeInfo CN Client _ _).
Context `{!MirrorTypes W DS TypeInfo ProxyDataSource Property Attribute}.
Context `{!MirrorServices W Port RemoteOperation Property Attribute Service}.
Context (component_name : string) (r : R) (empty_variant : Variant).
Context (value_reader : NodeId → VariantReader W Variant) (value_writer : NodeId → VariantWriter W Variant).
Notation breathe := (breathe empty_variant).
Notation env_step := (env_step empty_variant).
Notation pump_step := (pump_step empty_variant).
Implicit Types (w : proxy_world) (a : RemotePortAdapter).

Definition session_of w : ClientSession := w_session (px_session w).
Definition access w : bool := interface_access_enabled_ (session_of w).

(** What tells ports apart. *)
Definition identity a : string * string * RemoteServicePath * PortDirection :=
  (rpd_name (description_ a), rpd_type_name (description_ a), rpd_service_path (description_ a),
   rpd_direction (description_ a)).

(** The adapters are alive while something owns them, the thread only holds
    some while it is at work, and no two mirrored ports are the same. *)
Record heap_ok w : Prop := {
  hk_live id : id ∈ referenced w → is_Some (live w !! id);
  hk_round id : id ∈ round (port_thread w) → id ∈ held (port_thread w);
  hk_idle : phase (port_thread w) = pump_idle ∨ phase (port_thread w) = pump_done → held (port_thread w) = [];
  hk_work : phase (port_thread w) ≠ pump_running → round (port_thread w) = [];
  hk_distinct i j id id' a a' : port_adapters w !! i = Some id → port_adapters w !! j = Some id' →
    live w !! id = Some a → live w !! id' = Some a' → identity a = identity a' → i = j;
}.

(** Every adapter has an owner. *)
Definition leak_free w : Prop := ∀ id, is_Some (live w !! id) → id ∈ referenced w.

(** What a move of the environment may change. *)
Record moves w w' : Prop := {
  mv_session : uses (session_of w) (session_of w');
  mv_ready : interface_ready w' = interface_ready w;
  mv_stale : interface_stale w' = interface_stale w;
  mv_paused : ports_paused w' = ports_paused w;
  mv_adapters : port_adapters w' = port_adapters w;
  mv_quarantined : quarantined_port_adapters w' = quarantined_port_adapters w;
  mv_error : control_error w' = control_error w;
  mv_stop : stop_requested (port_thread w') = stop_requested (port_thread w);
  mv_done : phase (port_thread w) = pump_done → phase (port_thread w') = pump_done;
  mv_back id a' : live w' !! id = Some a' → ∃ a, live w !! id = Some a ∧ identity a' = identity a;
  mv_quiet : ports_paused w = true → phase (port_thread w) ≠ pump_running →
    phase (port_thread w') ≠ pump_running ∧ held (port_thread w') ⊆ held (port_thread w) ∧
    ∀ id, id ∈ port_adapters w ++ quarantined_port_adapters w ∨ id ∉ held (port_thread w) → live w' !! id = live w !! id;
}.

#[global] Instance moves_refl : Reflexive moves.
Proof. intros w. split; try done; eauto; reflexivity. Qed.

#[global] Instance moves_trans : Transitive moves.
Proof.
  intros w1 w2 w3 [] []. split; try congruence.
  - by etransitivity.
  - auto.
  - intros id a3 (a2 & Ha2 & ?)%mv_back1. destruct (mv_back0 _ _ Ha2) as (a1 & ? & ?). exists a1. split; congruence.
  - intros Hpaused Hphase. destruct (mv_quiet0 Hpaused Hphase) as (Hphase' & Hheld & Hlive).
    rewrite mv_adapters0, mv_quarantined0, mv_paused0 in *. destruct (mv_quiet1 Hpaused Hphase') as (? & Hheld' & Hlive').
    split_and!; [done|by trans (held (port_thread w2))|]. intros id Hid. rewrite Hlive', Hlive; [done|done|].
    destruct Hid as [?|Hid]; [by left|]. right. contradict Hid. by apply Hheld.
Qed.

Lemma hasSameIdentity_spec a a' : hasSameIdentity a a' = true ↔ identity a = identity a'.
Proof.
  unfold hasSameIdentity, identity. rewrite !andb_true_iff, !String.eqb_eq, !bool_decide_eq_true.
  split; [intros (((? & ?) & ?) & ?); congruence|intros [=]; auto].
Qed.

(** *** References *)

Lemma release_spec id w :
  (∃ rtt, release id w = with_heap (live (release id w)) rtt w) ∧
  ∀ id', live (release id w) !! id' = if decide (id' = id ∧ id ∉ referenced w) then None else live w !! id'.
Proof.
  unfold release. case_bool_decide as Href.
  - split; [exists (px_rtt w); by destruct w|]. intros id'. rewrite decide_False; [done|]. by intros [_ ?].
  - destruct (live w !! id) as [a|] eqn:Ha; simpl.
    + split; [eauto|]. intros id'. destruct (decide (id' = id)) as [->|Hne].
      * rewrite lookup_delete_eq. by rewrite decide_True.
      * rewrite lookup_delete_ne by done. rewrite decide_False; [done|]. by intros [? _].
    + split; [exists (px_rtt w); by destruct w|]. intros id'. case_decide as Hid; [|done]. destruct Hid as [-> _]. done.
Qed.

Lemma release_all_spec ids w :
  (∃ rtt, release_all ids w = with_heap (live (release_all ids w)) rtt w) ∧
  ∀ id, live (release_all ids w) !! id = if decide (id ∈ ids ∧ id ∉ referenced w) then None else live w !! id.
Proof.
  revert w. induction ids as [|id ids IH]; intros w.
  - split; [exists (px_rtt w); by destruct w|]. intros id. rewrite decide_False; [done|].
    by intros [?%not_elem_of_nil _].
  - unfold release_all in *. simpl. destruct (release_spec id w) as [[rtt Hw] Hlive].
    destruct (IH (release id w)) as [[rtt' Hw'] Hlive'].
    assert (Href : referenced (release id w) = referenced w) by (by rewrite Hw).
    split; [exists rtt'; rewrite Hw' at 1; rewrite Hw at 2; by destruct w|].
    intros id'. rewrite Hlive', Href, Hlive. destruct (decide (id' = id)) as [->|Hne].
    + destruct (decide (id ∉ referenced w)).
      * rewrite (decide_True (P := id = id ∧ _)) by done.
        rewrite (decide_True (P := id ∈ id :: ids ∧ _)) by (split; [left|done]).
        by destruct (decide (id ∈ ids ∧ _)).
      * rewrite !decide_False; [done|by intros [_ ?]..].
    + rewrite (decide_False (P := id' = id ∧ _)) by (by intros [? _]).
      apply decide_ext. rewrite elem_of_cons. split; [intros [? ?]; auto|intros [[?|?] ?]; [done|auto]].
Qed.

(** *** Steps *)

(** The thread lays down what it holds. *)
Lemma release_held_moves thread w :
  stop_requested thread = stop_requested (port_thread w) → phase (port_thread w) ≠ pump_done →
  phase thread ≠ pump_running → held thread ⊆ held (port_thread w) →
  moves w (release_all (held (port_thread w)) (with_thread thread w)).
Proof.
  intros Hstop Hdone Hphase Hheld. destruct (release_all_spec (held (port_thread w)) (with_thread thread w)) as [[rtt Hw] Hlive].
  rewrite Hw at 1. split; try done; simpl.
  - intros id a'. rewrite Hlive. case_decide; [done|]. eauto.
  - intros _ _. split_and!; [done..|]. intros id Hid. rewrite Hlive, decide_False; [done|]. intros [Hin Hno].
    destruct Hid as [Hid|Hid]; [|done].
    apply Hno. unfold referenced. simpl. rewrite !elem_of_app in *. tauto.
Qed.

Lemma pump_adapter_spec id w :
  let w' := pump_adapter empty_variant id w in
  w' = with_session (px_session w') (with_heap (live w') (px_rtt w') w) ∧
  uses (session_of w) (session_of w') ∧
  (∀ id', is_Some (live w' !! id') ↔ is_Some (live w !! id')) ∧
  ∀ id' a', live w' !! id' = Some a' → ∃ a, live w !! id' = Some a ∧ identity a' = identity a.
Proof.
  unfold pump_adapter. destruct (live w !! id) as [a|] eqn:Ha; simpl.
  2: { split_and!; [by destruct w|reflexivity|done|eauto]. }
  pose proof (pump_pumps empty_variant {| pw_adapter := a; pw_session := px_session w; pw_rtt := px_rtt w |})
    as [Huses (Hd & _)]. simpl in Hd. split_and!; [done|exact Huses|..].
  - intros id'. destruct (decide (id' = id)) as [->|]; [rewrite lookup_insert_eq, Ha|rewrite lookup_insert_ne by done]; [|done].
    split; eauto.
  - intros id' a'. destruct (decide (id' = id)) as [->|]; [rewrite lookup_insert_eq|rewrite lookup_insert_ne by done]; [|eauto].
    intros [= <-]. exists a. split; [done|]. unfold identity. by rewrite Hd.
Qed.

Lemma moves_thread thread w :
  stop_requested thread = stop_requested (port_thread w) → phase (port_thread w) ≠ pump_done →
  (ports_paused w = true → phase (port_thread w) ≠ pump_running →
   phase thread ≠ pump_running ∧ held thread ⊆ held (port_thread w)) →
  moves w (with_thread thread w).
Proof.
  intros Hstop Hdone Hphase. split; try done; simpl; eauto. intros Hpaused Hrun.
  by destruct (Hphase Hpaused Hrun) as [? ?].
Qed.

(** Adapters are pumped while the thread runs. *)
Lemma pump_adapter_moves id w : phase (port_thread w) = pump_running → moves w (pump_adapter empty_variant id w).
Proof.
  intros Hrun. destruct (pump_adapter_spec id w) as (Hw & Huses & _ & Hback).
  split; [done|by rewrite Hw..|done|congruence].
Qed.

Ltac split_thread w := destruct (port_thread w) as [[] ids left_over stopping] eqn:Hthread; simpl.

Lemma pump_step_moves w : moves w (pump_step w).
Proof.
  unfold TaskContextProxy.pump_step. split_thread w.
  - destruct stopping; [|destruct (ports_paused w) eqn:Hpaused; [reflexivity|]];
      (apply moves_thread; simpl; [by rewrite Hthread|by rewrite Hthread|rewrite ?Hthread, ?Hpaused; try done]).
    intros _ _. split; [done|apply list_subseteq_nil].
  - destruct left_over as [|id rest]; [|destruct stopping].
    1, 2: apply moves_thread; simpl; [by rewrite Hthread|by rewrite Hthread|rewrite Hthread; by intros _ []].
    etransitivity; [apply (pump_adapter_moves id); by rewrite Hthread|].
    destruct (pump_adapter_spec id w) as (Hw & _). rewrite Hw.
    apply moves_thread; simpl; [by rewrite Hthread|by rewrite Hthread|]. rewrite Hthread. by intros _ [].
  - pose proof (release_held_moves {| phase := pump_idle; held := []; round := []; stop_requested := stopping |} w)
      as Hmoves. rewrite Hthread in Hmoves. apply Hmoves; [done..|apply list_subseteq_nil].
  - reflexivity.
Qed.

Lemma env_step_moves event w : moves w (env_step event w).
Proof.
  destruct event as [|request|rtt]; simpl; [apply pump_step_moves| |by split; eauto].
  destruct (needs_access request) eqn:Hneeds; [|reflexivity]. split; try done; simpl; eauto.
  by apply perform_uses.
Qed.

(** *** Adapters stay in order *)

(** Changes that keep the owners and the thread. *)
Lemma heap_ok_same w w' :
  heap_ok w → port_adapters w' = port_adapters w → quarantined_port_adapters w' = quarantined_port_adapters w →
  port_thread w' = port_thread w → (∀ id, is_Some (live w !! id) → is_Some (live w' !! id)) →
  (∀ id a', live w' !! id = Some a' → id ∈ referenced w → ∃ a, live w !! id = Some a ∧ identity a' = identity a) →
  heap_ok w'.
Proof.
  intros [] Hadapters Hquarantined Hthread Hlive Hback.
  assert (Href : referenced w' = referenced w) by (unfold referenced; congruence).
  split; rewrite ?Hthread, ?Href, ?Hadapters; auto.
  intros i j id id' a a' Hi Hj Ha Ha' Hsame.
  destruct (Hback _ _ Ha) as (b & Hb & Eb); [unfold referenced; rewrite !elem_of_app; left; by eapply list_elem_of_lookup_2|].
  destruct (Hback _ _ Ha') as (b' & Hb' & Eb'); [unfold referenced; rewrite !elem_of_app; left; by eapply list_elem_of_lookup_2|].
  eapply hk_distinct0; eauto. congruence.
Qed.

Lemma leak_free_same w w' :
  leak_free w → (∀ id, id ∈ referenced w → id ∈ referenced w') →
  (∀ id, is_Some (live w' !! id) → is_Some (live w !! id)) → leak_free w'.
Proof. intros Hleak Href Hlive id Hid. apply Href, Hleak, Hlive, Hid. Qed.

(** The thread takes up or lays down its work. *)
Lemma heap_ok_thread thread w :
  heap_ok w → (∀ id, id ∈ held thread → is_Some (live w !! id)) →
  (∀ id, id ∈ round thread → id ∈ held thread) →
  (phase thread = pump_idle ∨ phase thread = pump_done → held thread = []) →
  (phase thread ≠ pump_running → round thread = []) →
  heap_ok (with_thread thread w).
Proof.
  intros [] Hheld Hround Hidle Hwork. split; simpl; auto.
  intros id Hid. unfold referenced in Hid. simpl in Hid. rewrite !elem_of_app in Hid.
  destruct Hid as [?|[?|?]]; auto; apply hk_live0; unfold referenced; rewrite !elem_of_app; auto.
Qed.

(** What is released was not owned. *)
Lemma heap_ok_release ids w : heap_ok w → heap_ok (release_all ids w).
Proof.
  intros Hok. destruct (release_all_spec ids w) as [[rtt Hw] Hlive].
  assert (Href : referenced (release_all ids w) = referenced w) by (by rewrite Hw).
  assert (Hsame : ∀ id, id ∈ referenced w → live (release_all ids w) !! id = live w !! id).
  { intros id Hid. rewrite Hlive, decide_False; [done|]. by intros [_ ?]. }
  destruct Hok. split; rewrite ?Href; try (rewrite Hw; simpl; auto; fail).
  - intros id Hid. rewrite Hsame by done. auto.
  - intros i j id id' a a'. rewrite Hw at 1 2. simpl. intros Hi Hj.
    rewrite !Hsame by (unfold referenced; rewrite !elem_of_app; left; by eapply list_elem_of_lookup_2). eauto.
Qed.

Lemma pump_step_ok w : heap_ok w → heap_ok (pump_step w).
Proof.
  intros Hok. pose proof Hok as [Hlive Hround Hidle Hwork _]. unfold TaskContextProxy.pump_step.
  assert (Hheld : ∀ id, id ∈ held (port_thread w) → is_Some (live w !! id)).
  { intros id Hid. apply Hlive. unfold referenced. rewrite !elem_of_app. auto. }
  assert (Hports : ∀ id, id ∈ port_adapters w → is_Some (live w !! id)).
  { intros id Hid. apply Hlive. unfold referenced. rewrite !elem_of_app. auto. }
  split_thread w; rewrite ?Hthread in *; simpl in *.
  - destruct stopping; [|destruct (ports_paused w); [done|]]; apply heap_ok_thread; simpl; try done; set_solver.
  - destruct left_over as [|id rest]; [|destruct stopping].
    1, 2: apply heap_ok_thread; simpl; try done; auto; try set_solver; by intros [?|?].
    destruct (pump_adapter_spec id w) as (Hw & _ & Hsome & Hback).
    assert (Hpumped : heap_ok (pump_adapter empty_variant id w)).
    { apply (heap_ok_same w); try done; try (by rewrite Hw); intros id'; [apply Hsome|eauto]. }
    apply heap_ok_thread; simpl; try done; [|intros id' ?; apply Hround; by right].
    intros id' Hid. apply Hsome. auto.
  - apply heap_ok_release, heap_ok_thread; simpl; try done; set_solver.
  - done.
Qed.

Lemma env_step_ok event w : heap_ok w → heap_ok (env_step event w).
Proof.
  intros Hok. destruct event as [|request|rtt]; simpl; [by apply pump_step_ok| |];
    [destruct (needs_access request); [|done]|]; (apply (heap_ok_same w); simpl; eauto).
Qed.

Lemma pump_step_leak_free w : heap_ok w → leak_free w → leak_free (pump_step w).
Proof.
  intros [Hlive Hround Hidle Hwork _] Hleak. unfold TaskContextProxy.pump_step. unfold leak_free, referenced in *.
  split_thread w; rewrite ?Hthread in *; simpl in *.
  - specialize (Hidle (or_introl eq_refl)). simpl in Hidle. subst ids.
    destruct stopping; [|destruct (ports_paused w)]; simpl; rewrite ?Hthread; simpl; try done.
    intros id Hid. specialize (Hleak id Hid). rewrite !elem_of_app in *. destruct Hleak as [?|[?|?%not_elem_of_nil]]; auto; done.
  - destruct left_over as [|id rest]; [|destruct stopping]; simpl; [done..|].
    destruct (pump_adapter_spec id w) as (Hw & _ & Hsome & _).
    intros id' Hid'%Hsome. rewrite Hw. simpl. auto.
  - destruct (release_all_spec ids (with_thread {| phase := pump_idle; held := []; round := [];
      stop_requested := stopping |} w)) as [[rtt Hw] Hreleased].
    intros id. rewrite Hreleased. case_decide as Hid; [by intros [? [=]]|]. simpl. intros Hsome.
    rewrite Hw. simpl. specialize (Hleak id Hsome). rewrite !elem_of_app in *.
    destruct Hleak as [?|[?|Hheld]]; auto. destruct (decide (id ∈ referenced (with_thread
      {| phase := pump_idle; held := []; round := []; stop_requested := stopping |} w))) as [Hr|Hr]; [|by destruct Hid].
    unfold referenced in Hr. simpl in Hr. by rewrite !elem_of_app in Hr.
  - done.
Qed.

Lemma env_step_leak_free event w : heap_ok w → leak_free w → leak_free (env_step event w).
Proof.
  intros Hok Hleak. destruct event as [|request|rtt]; simpl; [by apply pump_step_leak_free| |];
    [destruct (needs_access request); [|done]|]; (apply (leak_free_same w); simpl; auto).
Qed.

(** The moves before an atomic step. *)
Lemma breathe_spec w : ∃ w', breathe w = (w', inr tt) ∧ moves w w' ∧
  (heap_ok w → heap_ok w' ∧ (leak_free w → leak_free w')).
Proof.
  unfold TaskContextProxy.breathe. destruct (schedule w) as [|events rest]; [exists w; split; [done|split; [reflexivity|auto]]|].
  eexists. split; [done|]. assert (Hstart : moves w (with_schedule rest w)) by (by split; eauto).
  assert (Hok : heap_ok w → heap_ok (with_schedule rest w) ∧ (leak_free w → leak_free (with_schedule rest w))).
  { intros Hok. split; [by apply (heap_ok_same w); simpl; eauto|]. intros Hleak. by apply (leak_free_same w). }
  revert Hstart Hok. generalize (with_schedule rest w). induction events as [|event events IH]; intros w1 Hmoves Hok; [done|].
  simpl. apply IH; [etransitivity; [done|apply env_step_moves]|].
  intros Hw. destruct (Hok Hw) as [Hok1 Hleak1]. split; [by apply env_step_ok|].
  intros Hl. apply env_step_leak_free; auto.
Qed.

End proxy_facts.
