(* ===== verification/ProxyLogic.v ===== *)
(** Assertions about the mirror of a component that its environment keeps, and
    what each operation of TaskContextProxy.v does to them, as triples. *)

From S2P Require Import Prelude NodeId Native Concrete DataTypeRegistry TypeProtocol EndpointTypeRegistry.
From S2P Require Import OperationDispatcher PortDataSources AddressSpace ConcreteServer NodeSpecs.
From S2P Require Import Client ClientDiscovery ConcreteClient ClientSpec RemotePort RemotePortSpec.
From S2P Require Import RemoteOperation RemoteOperationSpec TaskContextProxy Hoare ProxySteps.

Section logic.
Context {W DS Port Variant NodeId UA_DataType DataType TypeInfo R CN Client StatusCode Wire C : Type}.
Context {Property Attribute Service : Type}.
Context `{EqDecision TypeInfo} `{!Countable TypeInfo} `{EqDecision DS}.
Context `{NodeIds NodeId} `{DataTypes NodeId UA_DataType DataType}.
Context `{StatusCodes StatusCode} `{!StatusConstants StatusCode}.
Context `{!Variants Variant NodeId UA_DataType Wire}.
Context `{!ClientServices CN Client NodeId Variant DataType StatusCode}.
Context `{!DiscoveryServices CN Client NodeId Variant StatusCode}.
Context `{!RttPorts W DS Port TypeInfo} `{!LocalPorts W DS Port TypeInfo}.
Context `{!OperationSources W DS TypeInfo C} `{TaskStates}.
Notation TypeCodec := (TypeCodec W DS Port Variant NodeId UA_DataType).
Notation TypeProtocol := (TypeProtocol W DS Port Variant NodeId UA_DataType).
Notation EndpointTypeRegistry := (EndpointTypeRegistry UA_DataType DataType TypeInfo TypeCodec).
Notation ProxyDataSource := (ProxyDataSource W Variant NodeId UA_DataType).
Context `{TypeInfos TypeInfo R TypeProtocol}.
Notation ClientSession :=
  (@ClientSession W DS Port Variant NodeId UA_DataType DataType TypeInfo Client _ _).
Notation session_world := (@world W DS Port Variant NodeId UA_DataType DataType TypeInfo CN Client _ _).
Notation RemotePortAdapter :=
  (@RemotePortAdapter W DS Port Variant NodeId UA_DataType DataType TypeInfo _ _).
Notation RemoteOperation :=
  (@RemoteOperation W DS Port Variant NodeId UA_DataType DataType TypeInfo _ _).
Notation RemotePortDescription := (RemotePortDescription NodeId).
Notation proxy_world :=
  (@proxy_world W DS Port Variant NodeId UA_DataType DataType TypeInfo CN Client _ _).
Context `{!MirrorTypes W DS TypeInfo ProxyDataSource Property Attribute}.
Context `{!MirrorServices W Port RemoteOperation Property Attribute Service}.
Context (component_name : string) (r : R) (empty_variant : Variant).
Context (value_reader : NodeId → VariantReader W Variant) (value_writer : NodeId → VariantWriter W Variant).
Notation breathe := (breathe empty_variant).
Notation env_step := (env_step empty_variant).
Notation pump_step := (pump_step empty_variant).
Implicit Types (w : proxy_world) (a : RemotePortAdapter).

(** ** Assertions *)

(** What the environment does before an atomic step. *)
Definition env_moves w w' : Prop :=
  moves w w' ∧ (heap_ok w → heap_ok w' ∧ (leak_free w → leak_free w')).

Class Stable (P : proxy_world → Prop) : Prop := stable w w' : env_moves w w' → P w → P w'.

(** No mirrored port has something pending. *)
Definition no_pending w : Prop :=
  ∀ id a, id ∈ port_adapters w → live w !! id = Some a → hasPendingState a = false.

(** The thread pumps nothing. *)
Definition parked w : Prop := ports_paused w = true ∧ phase (port_thread w) ≠ pump_running.

(** What is known throughout a part of an operation: whether every adapter has
    an owner, whether the interface is ready, the mirrored ports. *)
Record view := View { v_tidy : bool; v_ready : bool; v_adapters : list nat }.
Implicit Types (v : view).

(** At any time. *)
Record loose v w : Prop := {
  lo_ready : interface_ready w = v_ready v;
  lo_adapters : port_adapters w = v_adapters v;
  lo_session : session_ok (session_of w);
  lo_heap : heap_ok w;
  lo_tidy : v_tidy v = true → leak_free w;
}.

(** While the flag [interface_stale] is not on its way up. *)
Record calm v w : Prop := {
  ca_loose : loose v w;
  ca_stale : interface_stale w = true → parked w ∧ access w = false ∧ no_pending w;
}.

(** Between the operations. *)
Record settled v w : Prop := {
  se_calm : calm v w;
  se_access : access w = true → v_ready v = true ∧ interface_stale w = false ∧ state_ (session_of w) = connected;
}.

(** The adapters that were made and that nothing owns yet. *)
Record made_ok (made : list (nat * RemotePortDescription)) w : Prop := {
  mo_distinct : NoDup made.*1;
  mo_unowned id d : (id, d) ∈ made → id ∉ referenced w;
  mo_live id d : (id, d) ∈ made → ∃ a, live w !! id = Some a ∧ description_ a = d ∧ hasPendingState a = false;
}.

(** While the thread is parked and the session refuses the mirror's requests. *)
Record quiet v (is_stale : bool) (state : option ProxyConnectionState)
    (made : list (nat * RemotePortDescription)) w : Prop := {
  qu_loose : loose v w;
  qu_stale : interface_stale w = is_stale;
  qu_parked : parked w;
  qu_access : access w = false;
  qu_state s : state = Some s → state_ (session_of w) = s;
  qu_pending : is_stale = true → no_pending w;
  qu_made : made_ok made w;
}.

(** ** The environment keeps them *)

#[global] Instance stable_and P Q : Stable P → Stable Q → Stable (λ w, P w ∧ Q w).
Proof. intros HP HQ w w' Hmoves [HPw HQw]. split; [by apply (HP w)|by apply (HQ w)]. Qed.

#[global] Instance stable_pure (φ : Prop) : Stable (λ _, φ).
Proof. by intros w w' _. Qed.

#[global] Instance stable_stale b : Stable (λ w, interface_stale w = b).
Proof. intros w w' [[] _]. congruence. Qed.

#[global] Instance stable_paused : Stable (λ w, ports_paused w = true).
Proof. intros w w' [[] _]. congruence. Qed.

#[global] Instance stable_refused : Stable (λ w, access w = false).
Proof.
  intros w w' [[[_ Haccess _]] _] Hw. unfold access in *.
  destruct (interface_access_enabled_ (session_of w')) eqn:Ha; [|done]. destruct (Haccess eq_refl); congruence.
Qed.

#[global] Instance stable_parked : Stable parked.
Proof. intros w w' [[] _] [Hpaused Hphase]. split; [congruence|]. by apply mv_quiet. Qed.

(** What is pending does not change while the thread is parked. *)
Lemma parked_no_pending w w' : env_moves w w' → parked w → no_pending w → no_pending w'.
Proof.
  intros [[] _] [Hpaused Hphase] Hpending id a Hid. destruct (mv_quiet Hpaused Hphase) as (_ & _ & Hlive).
  rewrite mv_adapters in Hid. rewrite Hlive by (left; apply elem_of_app; auto). by apply Hpending.
Qed.

#[global] Instance stable_loose v : Stable (loose v).
Proof.
  intros w w' [[[Hframe _ _]] Hheap] []. destruct (Hheap lo_heap0) as [Hheap' Htidy].
  split; [congruence|congruence|by eapply frame_ok|done|auto].
Qed.

#[global] Instance stable_calm v : Stable (calm v).
Proof.
  intros w w' Hmoves [Hloose Hstale]. split; [by apply (stable_loose v w)|]. intros Hs.
  pose proof Hmoves as [[] _]. destruct Hstale as (Hparked & Haccess & Hpending); [congruence|].
  split_and!; [by apply (stable_parked w)|by apply (stable_refused w)|by eapply parked_no_pending].
Qed.

#[global] Instance stable_settled v : Stable (settled v).
Proof.
  intros w w' Hmoves [Hcalm Haccess]. split; [by apply (stable_calm v w)|]. intros Ha.
  pose proof Hmoves as [[] _]. destruct (us_access _ _ mv_session Ha) as [Ha' Hs].
  destruct (Haccess Ha') as (? & ? & ?). split_and!; congruence.
Qed.

#[global] Instance stable_quiet v is_stale state made : Stable (quiet v is_stale state made).
Proof.
  intros w w' Hmoves []. pose proof Hmoves as [[] _].
  destruct (mv_quiet (proj1 qu_parked0) (proj2 qu_parked0)) as (Hphase & Hheld & Hlive).
  split; [by apply (stable_loose v w)|congruence|by apply (stable_parked w)|by apply (stable_refused w)|..].
  - intros s Hs. rewrite <-(qu_state0 s Hs). by apply (us_refused _ _ mv_session).
  - intros Hs. by eapply parked_no_pending; auto.
  - destruct qu_made0 as [Hdistinct Hunowned Hmade].
    assert (Hno : ∀ id d, (id, d) ∈ made → id ∉ held (port_thread w)).
    { intros id d Hid Hin. apply (Hunowned id d Hid). unfold referenced. rewrite !elem_of_app. auto. }
    split; [done|..].
    + intros id d Hid. specialize (Hunowned id d Hid). unfold referenced in *. rewrite mv_adapters, mv_quarantined.
      rewrite !elem_of_app in *. contradict Hunowned. destruct Hunowned as [?|[?|?%Hheld]]; auto.
    + intros id d Hid. rewrite Hlive by (right; by eapply Hno). eauto.
Qed.

(** ** Rules for atomic steps *)

Lemma env_moves_refl w : env_moves w w.
Proof. split; [reflexivity|auto]. Qed.

Lemma env_moves_trans w1 w2 w3 : env_moves w1 w2 → env_moves w2 w3 → env_moves w1 w3.
Proof.
  intros [Hm Hh] [Hm' Hh']. split; [by etransitivity|]. intros Hok. destruct (Hh Hok) as [Hok2 Hl].
  destruct (Hh' Hok2) as [Hok3 Hl']. auto.
Qed.

Lemma breathe_triple P E : Stable P → triple P breathe (λ _, P) E.
Proof. intros HP w Hw. destruct (breathe_spec empty_variant w) as (w' & -> & Hmoves). by apply (HP w). Qed.

Lemma atomic_triple {A} P (m : IO proxy_world A) Q E :
  Stable P → triple P m Q E → triple P (atomic empty_variant m) Q E.
Proof. intros HP Hm. eapply triple_seq; [by apply breathe_triple|]. by intros []. Qed.

Lemma section_triple P f (Q : proxy_world → Prop) E :
  Stable P → (∀ w, P w → Q (f w)) → triple P (section empty_variant f) (λ _, Q) E.
Proof. intros HP Hf. apply atomic_triple; [done|]. intros w Hw. simpl. auto. Qed.

Lemma load_triple {A} P (f : proxy_world → A) E :
  Stable P → triple P (load empty_variant f) (λ x w, x = f w ∧ P w) E.
Proof. intros HP. apply atomic_triple; [done|]. by intros w Hw. Qed.

Lemma on_session_triple {A} P (m : IO session_world A) (Q : A → proxy_world → Prop) E :
  Stable P →
  (∀ w sw o, P w → m (px_session w) = (sw, o) →
     match o with inr x => Q x (with_session sw w) | inl e => E e (with_session sw w) end) →
  triple P (on_session empty_variant m) Q E.
Proof.
  intros HP Hm. apply atomic_triple; [done|]. intros w Hw. destruct (m (px_session w)) as [sw o] eqn:Hrun.
  specialize (Hm w sw o Hw Hrun). by destruct o.
Qed.

Lemma on_rtt_triple {A} P (m : IO W A) (E : exn → proxy_world → Prop) :
  Stable P → (∀ w rtt, P w → P (with_heap (live w) rtt w)) → (∀ e w, P w → E e w) →
  triple P (on_rtt empty_variant m) (λ _, P) E.
Proof.
  intros HP Hrtt HE. apply atomic_triple; [done|]. intros w Hw. destruct (m (px_rtt w)) as [rtt [e|x]]; auto.
Qed.

(** ** Changes that leave the adapters alone *)

(** The same adapters, owners and thread. *)
Record same_ports w w' : Prop := {
  sp_adapters : port_adapters w' = port_adapters w;
  sp_quarantined : quarantined_port_adapters w' = quarantined_port_adapters w;
  sp_live : live w' = live w;
  sp_thread : port_thread w' = port_thread w;
}.

Lemma loose_same v v' w w' :
  loose v w → same_ports w w' → v_tidy v' = v_tidy v → v_adapters v' = v_adapters v →
  interface_ready w' = v_ready v' → session_ok (session_of w') → loose v' w'.
Proof.
  intros [] [] Htidy Hadapters Hready Hsession. split; [done|congruence|done|..].
  - apply (heap_ok_same w); try done; rewrite sp_live0; eauto.
  - rewrite Htidy. intros Ht. unfold leak_free, referenced. rewrite sp_live0, sp_adapters0, sp_quarantined0, sp_thread0.
    by apply lo_tidy0.
Qed.

Lemma parked_same w w' : parked w → same_ports w w' → ports_paused w' = ports_paused w → parked w'.
Proof. intros [] [] Hp. split; congruence. Qed.

Lemma no_pending_same w w' : no_pending w → same_ports w w' → no_pending w'.
Proof. intros Hpending [] id a. rewrite sp_adapters0, sp_live0. apply Hpending. Qed.

Lemma made_same made w w' : made_ok made w → same_ports w w' → made_ok made w'.
Proof.
  intros [] []. split; [done|..].
  - intros id d Hid. unfold referenced. rewrite sp_adapters0, sp_quarantined0, sp_thread0. eauto.
  - rewrite sp_live0. eauto.
Qed.

Lemma calm_same v v' w w' :
  calm v w → same_ports w w' → v_tidy v' = v_tidy v → v_adapters v' = v_adapters v →
  interface_ready w' = v_ready v' → session_ok (session_of w') →
  interface_stale w' = interface_stale w → ports_paused w' = ports_paused w →
  (access w = false → access w' = false) → calm v' w'.
Proof.
  intros [Hloose Hstale] Hsame ? ? ? ? Hs Hp Ha. split; [by eapply loose_same|]. rewrite Hs.
  intros (? & ? & ?)%Hstale. split_and!; [by eapply parked_same|auto|by eapply no_pending_same].
Qed.

Lemma quiet_same v v' is_stale is_stale' state state' made w w' :
  quiet v is_stale state made w → same_ports w w' → v_tidy v' = v_tidy v → v_adapters v' = v_adapters v →
  interface_ready w' = v_ready v' → session_ok (session_of w') →
  interface_stale w' = is_stale' → ports_paused w' = ports_paused w → access w' = false →
  (∀ s, state' = Some s → state_ (session_of w') = s) → (is_stale' = true → is_stale = true) →
  quiet v' is_stale' state' made w'.
Proof.
  intros [] Hsame ? ? ? ? ? Hp ? ? Hs. split; [by eapply loose_same|done|by eapply parked_same|done|done|..].
  - intros ?. eapply no_pending_same; eauto.
  - by eapply made_same.
Qed.

Lemma same_ports_session sw w : same_ports w (with_session sw w).
Proof. done. Qed.

Lemma same_ports_rtt rtt w : same_ports w (with_heap (live w) rtt w).
Proof. done. Qed.

Lemma quiet_rtt v is_stale state made rtt w :
  quiet v is_stale state made w → quiet v is_stale state made (with_heap (live w) rtt w).
Proof. intros Hq. pose proof Hq as [[] ? ? ? ? ?]. by eapply quiet_same. Qed.

Lemma calm_rtt v rtt w : calm v w → calm v (with_heap (live w) rtt w).
Proof. intros Hq. pose proof Hq as [[] ?]. by eapply calm_same. Qed.

(** What an exception or a scope leaves behind is quiet. *)
Lemma quiet_forget v is_stale state made w : quiet v is_stale state made w → quiet v is_stale None [] w.
Proof. intros []. split; try done. split; [constructor|by intros ? ? ?%not_elem_of_nil..]. Qed.

Lemma quiet_settled v is_stale state made w : quiet v is_stale state made w → settled v w.
Proof. intros []. split; [split; [done|]|congruence]. intros Hs. split_and!; auto. apply qu_pending0. congruence. Qed.

Lemma settled_rtt v rtt w : settled v w → settled v (with_heap (live w) rtt w).
Proof. intros [Hcalm ?]. split; [by apply calm_rtt|done]. Qed.

Lemma calm_session v sw w :
  calm v w → session_ok (w_session sw) →
  (access w = false → interface_access_enabled_ (w_session sw) = false) → calm v (with_session sw w).
Proof. intros Hq ? ?. pose proof Hq as [[] ?]. by eapply calm_same. Qed.

Lemma quiet_session v is_stale state made sw w :
  quiet v is_stale state made w → session_ok (w_session sw) →
  interface_access_enabled_ (w_session sw) = false →
  quiet v is_stale (Some (state_ (w_session sw))) made (with_session sw w).
Proof. intros Hq ? ?. pose proof Hq as [[] ? ? ? ? ?]. eapply quiet_same; try done. by intros ? [= <-]. Qed.

(** ** Pausing and stopping the thread *)

Lemma pump_step_env w : env_moves w (pump_step w).
Proof.
  split; [apply pump_step_moves|]. intros Hok. split; [by apply pump_step_ok|].
  intros Hleak. by apply pump_step_leak_free.
Qed.

Lemma finish_round_env steps w : env_moves w (finish_round empty_variant steps w).
Proof.
  revert w. induction steps as [|steps IH]; intros w; simpl; [apply env_moves_refl|].
  destruct (ports_pumping w); [|apply env_moves_refl]. eapply env_moves_trans; [apply pump_step_env|apply IH].
Qed.

Lemma wait_pumped_env w : env_moves w (wait_pumped empty_variant w).
Proof. apply finish_round_env. Qed.

(** A round ends: every step of a thread at work leaves one adapter less. *)
Lemma finish_round_ends steps w :
  length (round (port_thread w)) < steps → phase (port_thread (finish_round empty_variant steps w)) ≠ pump_running.
Proof.
  revert w. induction steps as [|steps IH]; intros w Hsteps; [lia|]. simpl. unfold ports_pumping.
  case_bool_decide as Hrun; [|done].
  assert (Hstep : phase (port_thread (pump_step w)) ≠ pump_running ∨
    length (round (port_thread (pump_step w))) < length (round (port_thread w))).
  { unfold TaskContextProxy.pump_step. rewrite Hrun. destruct (round (port_thread w)) as [|id rest]; simpl; [by left|].
    destruct (stop_requested (port_thread w)); simpl; [by left|]. right. lia. }
  destruct Hstep as [Hstep|Hstep]; [|apply IH; lia].
  destruct steps as [|steps]; simpl; [done|]. unfold ports_pumping. by rewrite bool_decide_eq_false_2.
Qed.

Lemma wait_pumped_ends w : phase (port_thread (wait_pumped empty_variant w)) ≠ pump_running.
Proof. apply finish_round_ends. lia. Qed.

Lemma join_env steps w : env_moves w (join empty_variant steps w).
Proof.
  revert w. induction steps as [|steps IH]; intros w; simpl; [apply env_moves_refl|].
  case_bool_decide; [apply env_moves_refl|]. eapply env_moves_trans; [apply pump_step_env|apply IH].
Qed.

(** How far a thread that was told to stop is from its end. *)
Definition steps_left (thread : PortPump) : nat :=
  match phase thread with pump_running => 3 | pump_resting => 2 | pump_idle => 1 | pump_done => 0 end.

Lemma release_all_thread ids w : port_thread (release_all ids w) = port_thread w.
Proof. destruct (release_all_spec ids w) as [[rtt ->] _]. done. Qed.

Lemma pump_step_stopping w :
  stop_requested (port_thread w) = true → phase (port_thread w) ≠ pump_done →
  stop_requested (port_thread (pump_step w)) = true ∧
  steps_left (port_thread (pump_step w)) < steps_left (port_thread w).
Proof.
  intros Hstop Hphase. unfold TaskContextProxy.pump_step, steps_left. rewrite Hstop.
  destruct (phase (port_thread w)) eqn:E; [| |rewrite release_all_thread|done]; simpl; try (split; [done|lia]).
  destruct (round (port_thread w)); simpl; split; lia || done.
Qed.

Lemma join_done steps w :
  stop_requested (port_thread w) = true → steps_left (port_thread w) < steps →
  phase (port_thread (join empty_variant steps w)) = pump_done.
Proof.
  revert w. induction steps as [|steps IH]; intros w Hstop Hleft; [lia|]. simpl.
  case_bool_decide as Hphase; [done|]. destruct (pump_step_stopping w Hstop Hphase). apply IH; [done|lia].
Qed.

Lemma steps_left_bound thread : steps_left thread < 4.
Proof. unfold steps_left. destruct (phase thread); lia. Qed.

(** ** Operations on the flags and the session *)

Definition impossible : exn → proxy_world → Prop := λ _ _, False.

(** Access is withdrawn. *)
Lemma set_access_false_triple P E :
  Stable P →
  (∀ w sw, P w → request_frame (session_of w) (w_session sw) → state_ (w_session sw) = state_ (session_of w) →
     interface_access_enabled_ (w_session sw) = false → P (with_session sw w)) →
  triple P (set_access empty_variant false) (λ _ w, P w ∧ access w = false) E.
Proof.
  intros HP Hsession.
  assert (Hoff : ∀ w sw, P w → w_session sw = with_interface_access false (session_of w) → P (with_session sw w)).
  { intros w sw Hw Hs. apply Hsession; rewrite ?Hs; try done. split; simpl; auto. }
  unfold set_access. eapply triple_seq; [|intros ?].
  - apply (on_session_triple P _ (λ _ w, P w ∧ access w = false)); [done|].
    intros w sw o Hw [= <- <-]. split; [by apply Hoff|done].
  - apply on_session_triple; [apply _|]. intros w sw o [Hw Ha]. unfold setInterfaceAccessEnabled, revoke_access. run_io.
    intros [= <- <-]. split; [by apply Hoff|done].
Qed.

(** Access is given back; the interface may still be marked stale. *)
Record resuming v w : Prop := {
  re_loose : loose v w;
  re_parked : parked w;
  re_access : access w = true → state_ (session_of w) = connected;
}.

#[global] Instance stable_resuming v : Stable (resuming v).
Proof.
  intros w w' Hmoves []. pose proof Hmoves as [[] _].
  split; [by apply (stable_loose v w)|by apply (stable_parked w)|]. intros Ha.
  destruct (us_access _ _ mv_session Ha) as [Ha' Hs]. rewrite Hs. auto.
Qed.

Lemma set_access_true_triple v is_stale made E :
  triple (quiet v is_stale (Some connected) made) (set_access empty_variant true)
    (λ _ w, resuming v w ∧ interface_stale w = is_stale) E.
Proof.
  unfold set_access. eapply triple_seq; [by apply triple_return|intros ?].
  apply on_session_triple; [apply _|]. intros w sw o Hq. unfold setInterfaceAccessEnabled. run_io.
  intros [= <- <-]. pose proof Hq as [[] ? ? ? Hstate ? ?]. specialize (Hstate _ eq_refl).
  split; [|done]. split; [|done|done]. by eapply loose_same.
Qed.

Lemma resuming_settled v w : resuming v w → v_ready v = true → interface_stale w = false → settled v w.
Proof. intros [] Hready Hs. split; [split; [done|congruence]|auto]. Qed.

Definition view_ready (ready : bool) v : view := View (v_tidy v) ready (v_adapters v).

Lemma store_ready_triple v ready is_stale state made E :
  triple (quiet v is_stale state made) (store_ready empty_variant ready)
    (λ _, quiet (view_ready ready v) is_stale state made) E.
Proof.
  apply section_triple; [apply _|]. intros w Hq. pose proof Hq as [[] ? ? ? ? ? ?]. by eapply quiet_same.
Qed.

Lemma setControlError_triple P error E :
  Stable P → (∀ w, P w → P (with_control_error error w)) →
  triple P (setControlError empty_variant error) (λ _, P) E.
Proof. intros HP Herror. by apply section_triple. Qed.

Lemma settled_control_error v error w : settled v w → settled v (with_control_error error w).
Proof. intros [Hq ?]. split; [|done]. pose proof Hq as [[] ?]. by eapply calm_same. Qed.

Lemma resumePortPump_triple v is_stale E :
  triple (λ w, settled v w ∧ interface_stale w = is_stale) (resumePortPump empty_variant)
    (λ _ w, (settled v w ∧ interface_stale w = is_stale) ∧ (is_stale = false → ports_paused w = false)) E.
Proof.
  apply section_triple; [apply _|]. intros w [Hsettled Hs]. destruct (interface_stale w) eqn:Hstale.
  - subst is_stale. split; [|done]. split; [done|]. done.
  - subst is_stale. split; [|done]. split; [|done]. destruct Hsettled as [[Hloose _] Haccess].
    split; [split; [|done]|by intros (? & ? & ?)%Haccess]. pose proof Hloose as []. by eapply loose_same.
Qed.

(** *** The two marks *)

Lemma markInterfaceFresh_triple v is_stale made E :
  v_ready v = true →
  triple (quiet v is_stale (Some connected) made) (markInterfaceFresh empty_variant)
    (λ _ w, settled v w ∧ interface_stale w = false) E.
Proof.
  intros Hready. unfold markInterfaceFresh. eapply triple_seq; [apply set_access_true_triple|intros ?].
  apply (triple_seq _ _ (λ w, settled v w ∧ interface_stale w = false)); [|intros ?; apply section_triple; [apply _|]].
  - apply section_triple; [apply _|].
    intros w [[Hloose Hparked Haccess] _]. split; [|done]. apply resuming_settled; [|done..].
    split; [|done..]. pose proof Hloose as []. by eapply loose_same.
  - intros w [Hsettled Hs]. split; [by apply settled_control_error|done].
Qed.

(** Dropping what is pending keeps the adapters and their identities. *)
Lemma discard_live ids (adapters : gmap nat RemotePortAdapter) id :
  (∀ a', foldl (λ adapters id, alter discardPendingState id adapters) adapters ids !! id = Some a' →
     (∃ a, adapters !! id = Some a ∧ description_ a' = description_ a) ∧
     (id ∈ ids ∨ (∀ a, adapters !! id = Some a → hasPendingState a = false) → hasPendingState a' = false)) ∧
  (is_Some (adapters !! id) ↔
   is_Some (foldl (λ adapters id, alter discardPendingState id adapters) adapters ids !! id)).
Proof.
  revert adapters. induction ids as [|i ids IH]; intros adapters; simpl.
  - split; [|done]. intros a' Ha. split; [eauto|]. intros [?%not_elem_of_nil|Hno]; [done|auto].
  - destruct (IH (alter discardPendingState i adapters)) as [Hback Hsome]. split.
    + intros a' Ha. destruct (Hback a' Ha) as [(a & Halter & Hd) Hpending]. destruct (decide (i = id)) as [->|Hne].
      * rewrite lookup_alter_eq in Halter. destruct (adapters !! id) as [a0|] eqn:Ha0; [|done]. simpl in Halter.
        injection Halter as <-. split; [by exists a0|]. intros _. apply Hpending. right.
        intros a. rewrite lookup_alter_eq, Ha0. by intros [= <-].
      * rewrite lookup_alter_ne in Halter by done. split; [eauto|]. intros Hor. apply Hpending.
        destruct Hor as [[Heq|?]%elem_of_cons|Hno]; [by destruct Hne|by left|right].
        rewrite lookup_alter_ne by done. done.
    + rewrite <-Hsome. destruct (decide (i = id)) as [->|]; [rewrite lookup_alter_eq|by rewrite lookup_alter_ne].
      by rewrite fmap_is_Some.
Qed.

Lemma discardPendingPortState_triple v E :
  triple (λ w, loose v w ∧ (interface_stale w = true ∧ parked w) ∧ access w = false)
    (discardPendingPortState empty_variant) (λ _, quiet v true None []) E.
Proof.
  apply section_triple; [apply _|]. intros w ([] & (Hs & Hparked) & Ha).
  pose proof (discard_live (port_adapters w) (live w)) as Hdiscard.
  split; try done; [split; try done|..].
  - eapply heap_ok_same; try done; simpl; [intros id; apply Hdiscard|].
    intros id a' Ha' _. destruct (proj1 (Hdiscard id) a' Ha') as [(a & Hlive & Hd) _]. exists a. split; [done|].
    unfold identity. by rewrite Hd.
  - intros Ht id Hid. apply (lo_tidy0 Ht). simpl in Hid. by apply Hdiscard.
  - intros _ id a' Hid Ha'. apply (Hdiscard id); [done|]. by left.
  - split; [constructor|by intros ? ? ?%not_elem_of_nil..].
Qed.

Lemma markInterfaceStale_triple v message E :
  triple (loose v) (markInterfaceStale empty_variant message) (λ _, quiet v true None []) E.
Proof.
  assert (Hsame : ∀ w w', loose v w → same_ports w w' → interface_ready w' = interface_ready w →
    session_ok (session_of w') → loose v w').
  { intros w w' Hl ? ? ?. pose proof Hl as []. by eapply loose_same; eauto; congruence. }
  unfold markInterfaceStale, pausePortPump.
  eapply triple_seq; [apply (section_triple _ _ (λ w, loose v w ∧ interface_stale w = true)); [apply _|]|intros ?].
  { intros w Hw. split; [|done]. pose proof Hw as []. by eapply Hsame. }
  eapply triple_seq; [apply setControlError_triple; [apply _|]|intros ?].
  { intros w [Hw ?]. split; [|done]. pose proof Hw as []. by eapply Hsame. }
  eapply triple_seq; [apply set_access_false_triple; [apply _|]|intros ?].
  { intros w sw [Hw ?] Hframe _ _. split; [|done]. pose proof Hw as []. eapply Hsame; try done. by eapply frame_ok. }
  eapply triple_seq; [|intros ?; apply (discardPendingPortState_triple v)].
  apply (triple_seq _ _ (λ w, (loose v w ∧ interface_stale w = true ∧ ports_paused w = true) ∧ access w = false));
    [|intros ?; apply section_triple; [apply _|]].
  - apply section_triple; [apply _|]. intros w [[Hw ?] ?]. split; [|done]. split_and!; [|done..]. pose proof Hw as []. by eapply Hsame.
  - intros w Hw. pose proof (wait_pumped_env w) as Hmoves.
    pose proof (stable (P := λ w, (loose v w ∧ interface_stale w = true ∧ ports_paused w = true) ∧ access w = false)
      _ _ Hmoves Hw) as [(? & ? & ?) ?].
    repeat (split; try done). apply wait_pumped_ends.
Qed.

(** ** Control operations *)

(** What a request may do to a session that is in use. *)
Definition tame (s s' : ClientSession) : Prop :=
  request_frame s s' ∧
  (interface_access_enabled_ s' = true → interface_access_enabled_ s = true ∧ state_ s' = state_ s).

Lemma tame_last_error message (s : ClientSession) : tame s (with_last_error message s).
Proof. split; [apply frame_last_error|auto]. Qed.

Lemma tame_invalidated invalid message (s : ClientSession) :
  state_ s = connected → tame s (invalidated invalid (with_last_error message s)).
Proof. intros Hs. split; [by apply frame_invalidated|]. by destruct invalid. Qed.

Lemma perform_tame request (sw : session_world) :
  tame (w_session sw) (w_session (perform request sw).1) ∧
  ∀ e, (perform request sw).2 = inl e → e = other_exception.
Proof.
  rewrite perform_spec. unfold request_spec.
  destruct (refused _ _ (w_session sw)) as [message|] eqn:Hrefused, (client_ (w_session sw)) as [client|] eqn:Hclient.
  1, 2, 4: split; [apply tame_last_error|by intros].
  apply refused_None in Hrefused as (_ & Hup & _).
  destruct (service _ _ _ _) as [net [[what|]|[status|reply]]]; simpl; (split; [|by intros ? [=]]).
  - by apply (tame_invalidated true).
  - split; [reflexivity|auto].
  - by apply tame_invalidated.
  - apply tame_last_error.
Qed.

Lemma callOperation_tame service_path name inputs (sw sw' : session_world) o :
  callOperation component_name service_path name inputs sw = (sw', o) →
  tame (w_session sw) (w_session sw') ∧ ∀ e, o = inl e → e = other_exception.
Proof.
  intros Hrun. destruct (perform_tame (request_operation component_name service_path name inputs) sw) as [Htame He].
  revert Htame He. simpl. unfold mbind, IO_bind. rewrite Hrun. destruct o as [e|result]; simpl; [|done].
  split; [done|]. intros ? [= <-]. auto.
Qed.

Lemma tame_settled v sw w : settled v w → tame (session_of w) (w_session sw) → settled v (with_session sw w).
Proof.
  intros [Hcalm Haccess] [Hframe Hon]. split.
  - pose proof Hcalm as [[] _]. apply calm_session; [done|by eapply frame_ok|]. intros Ha.
    destruct (interface_access_enabled_ (w_session sw)) eqn:E; [|done]. destruct (Hon eq_refl). unfold access in Ha. congruence.
  - intros Ha. destruct (Hon Ha) as [Ha' Hs]. destruct (Haccess Ha') as (? & ? & ?). split_and!; [done..|].
    simpl. unfold session_of. simpl. by rewrite Hs.
Qed.

(** Between two operations: the ports are pumped unless the interface is stale. *)
Definition between v w : Prop := settled v w ∧ (interface_stale w = false → ports_paused w = false).

#[global] Instance stable_between v : Stable (between v).
Proof.
  intros w w' Hmoves [Hw Hp]. split; [by apply (stable_settled v w)|]. destruct Hmoves as [[] _].
  rewrite mv_stale, mv_paused. done.
Qed.

Lemma quiet_between v state made w : quiet v true state made w → between v w.
Proof. intros Hq. split; [by eapply quiet_settled|]. destruct Hq. congruence. Qed.

(** How an operation ends: it keeps what holds between the operations; an
    exception is none of the standard ones. *)
Definition ends_settled v {A} (m : IO proxy_world A) (Φ : A → Prop) : Prop :=
  triple (between v) m (λ x w, Φ x ∧ between v w) (λ e w, e = other_exception ∧ between v w).

Lemma fall_back_ends v {A} (fallback : A) message (Φ : A → Prop) :
  Φ fallback → ends_settled v (fall_back empty_variant fallback message) Φ.
Proof.
  intros HΦ. unfold ends_settled, fall_back. eapply triple_seq; [|intros ?].
  - eapply triple_pre; [apply markInterfaceStale_triple|]. by intros w [[[]]].
  - apply triple_return. intros w Hq. split; [done|]. by eapply quiet_between.
Qed.

Lemma setControlError_ends v message : ends_settled v (setControlError empty_variant message) (λ _, True).
Proof.
  eapply triple_post; [apply (setControlError_triple (between v)); [apply _|]|by auto]. intros w [Hw ?]. split; [by apply settled_control_error|done].
Qed.

Lemma guarded_ends v {A} report (fallback : A) body (Φ : A → Prop) :
  Φ fallback → ends_settled v body Φ → ends_settled v (guarded empty_variant report fallback body) Φ.
Proof.
  intros HΦ Hbody. unfold ends_settled, guarded.
  assert (Hload : ∀ (f : proxy_world → bool) E, triple (between v) (load empty_variant f) (λ _, between v) E).
  { intros f E. eapply triple_post; [apply load_triple, _|]. by intros x w [_ ?]. }
  assert (Hrefuse : ∀ message, ends_settled v (setControlError empty_variant message ;; mret fallback) Φ).
  { intros message. eapply triple_seq; [eapply triple_post; [apply setControlError_ends|by intros ? ? [_ ?]]|].
    intros ?. by apply triple_return. }
  eapply triple_seq; [apply Hload|]. intros [|]; simpl; [|apply Hrefuse].
  eapply triple_seq; [apply Hload|]. intros [|]; [|apply Hbody]. destruct report; [apply Hrefuse|].
  eapply triple_seq; [by apply triple_return|]. intros ?. by apply triple_return.
Qed.

Lemma callOperation_ends v name inputs :
  ends_settled v (on_session empty_variant (callOperation component_name [] name inputs)) (λ _, True).
Proof.
  apply on_session_triple; [apply _|]. intros w sw o [Hw Hp] Hrun. apply callOperation_tame in Hrun as [Htame He].
  destruct o as [e|result]; (split; [by auto|split; [by apply tame_settled|done]]).
Qed.

(** The end of an operation: success clears the error. *)
Lemma clear_and_return v {A} (x : A) (Φ : A → Prop) :
  Φ x → ends_settled v (clearControlError empty_variant ;; mret x) Φ.
Proof.
  intros HΦ. eapply triple_seq; [eapply triple_post; [apply setControlError_ends|by intros ? ? [_ ?]]|].
  intros ?. by apply triple_return.
Qed.

Ltac after_call :=
  apply guarded_ends; [done|]; eapply triple_seq;
    [eapply triple_post; [apply callOperation_ends|by intros ? ? [_ ?]]|];
  intros result; destruct (rcr_success result); simpl.

Lemma invokeOperation_ends v t name fallback inputs :
  ends_settled v (invokeOperation component_name empty_variant t name fallback inputs) (λ _, True).
Proof.
  unfold invokeOperation. after_call; [|by apply fall_back_ends].
  destruct (rcr_outputs result) as [|output [|? ?]]; [by apply fall_back_ends| |by apply fall_back_ends].
  destruct (variant_to_scalar t output); [by apply clear_and_return|by apply fall_back_ends].
Qed.

Lemma invokeVoidOperation_ends v name :
  ends_settled v (invokeVoidOperation component_name empty_variant name) (λ _, True).
Proof.
  assert (Hstale : ∀ message, ends_settled v (markInterfaceStale empty_variant message) (λ _, True)).
  { intros message. eapply triple_conseq; [apply markInterfaceStale_triple|by intros w [[[]]]| |].
    - intros ? w Hq. split; [done|]. exact (quiet_between _ _ _ _ Hq).
    - by instantiate (1 := λ _ _, False). }
  unfold invokeVoidOperation. after_call; [|apply Hstale].
  destruct (rcr_outputs result); [apply setControlError_ends|apply Hstale].
Qed.

Lemma invokeTaskStateOperation_ends v name (Φ : Z → Prop) :
  Φ ts_Init → (∀ code, (ts_Init <= code <= ts_RunTimeError)%Z → Φ code) →
  ends_settled v (invokeTaskStateOperation component_name empty_variant name) Φ.
Proof.
  intros Hinit Hrange.
  assert (Hgive : ∀ message, ends_settled v (fall_back empty_variant ts_Init message) Φ) by (intros; by apply fall_back_ends).
  unfold invokeTaskStateOperation. after_call; [|apply Hgive].
  destruct (rcr_outputs result) as [|output [|? ?]]; [apply Hgive| |apply Hgive].
  destruct (negb _ || negb _); [apply Hgive|].
  destruct (variant_to_scalar cpp_int32 output) as [code|]; [|apply Hgive].
  destruct (_ || _) eqn:Hcode; [apply Hgive|]. apply (clear_and_return v code Φ), Hrange.
  apply orb_false_iff in Hcode as [?%Z.ltb_ge ?%Z.ltb_ge]. by split.
Qed.
End logic.
