(* ===== verification/ProxySync.v ===== *)
(** How a synchronization stages an interface, installs it and replaces the
    ports, and how a proxy is made and destroyed, as triples. *)

From S2P Require Import Prelude NodeId Native Concrete DataTypeRegistry TypeProtocol EndpointTypeRegistry.
From S2P Require Import OperationDispatcher PortDataSources AddressSpace ConcreteServer NodeSpecs.
From S2P Require Import Client ClientDiscovery ConcreteClient ClientSpec RemotePort RemotePortSpec.
From S2P Require Import RemoteOperation RemoteOperationSpec TaskContextProxy Hoare ProxySteps ProxyLogic.

Section sync.
Context {W DS Port Variant NodeId UA_DataType DataType TypeInfo R CN Client StatusCode Wire C : Type}.
Context {Property Attribute Service : Type}.
Context `{EqDecision TypeInfo} `{!Countable TypeInfo} `{EqDecision DS}.
Context `{NodeIds NodeId} `{DataTypes NodeId UA_DataType DataType}.
Context `{StatusCodes StatusCode} `{!StatusConstants StatusCode}.
Context `{!Variants Variant NodeId UA_DataType Wire}.
Context `{!ClientServices CN Client NodeId Variant DataType StatusCode}.
Context `{!DiscoveryServices CN Client NodeId Variant StatusCode}.
Context `{!RttPorts W DS Port TypeInfo} `{!LocalPorts W DS Port TypeInfo}.
Context `{!OperationSources W DS TypeInfo C} `{TaskStates}.
Notation TypeCodec := (TypeCodec W DS Port Variant NodeId UA_DataType).
Notation TypeProtocol := (TypeProtocol W DS Port Variant NodeId UA_DataType).
Notation EndpointTypeRegistry := (EndpointTypeRegistry UA_DataType DataType TypeInfo TypeCodec).
Notation ProxyDataSource := (ProxyDataSource W Variant NodeId UA_DataType).
Context `{TypeInfos TypeInfo R TypeProtocol}.
Notation ClientSession :=
  (@ClientSession W DS Port Variant NodeId UA_DataType DataType TypeInfo Client _ _).
Notation session_world := (@world W DS Port Variant NodeId UA_DataType DataType TypeInfo CN Client _ _).
Notation RemotePortAdapter :=
  (@RemotePortAdapter W DS Port Variant NodeId UA_DataType DataType TypeInfo _ _).
Notation RemoteOperation :=
  (@RemoteOperation W DS Port Variant NodeId UA_DataType DataType TypeInfo _ _).
Notation RemotePortDescription := (RemotePortDescription NodeId).
Notation proxy_world :=
  (@proxy_world W DS Port Variant NodeId UA_DataType DataType TypeInfo CN Client _ _).
Context `{!MirrorTypes W DS TypeInfo ProxyDataSource Property Attribute}.
Context `{!MirrorServices W Port RemoteOperation Property Attribute Service}.
Context (component_name : string) (r : R) (empty_variant : Variant).
Context (value_reader : NodeId → VariantReader W Variant) (value_writer : NodeId → VariantWriter W Variant).
Notation StagedService := (StagedService RemoteOperation Property Attribute).
Implicit Types (w : proxy_world) (a : RemotePortAdapter).

Implicit Types (v : view) (made : list (nat * RemotePortDescription)).

(** ** The session *)

(** Connecting leaves the access to the interface as it is. *)
Definition accessible (b : bool) (sw : session_world) : Prop := interface_access_enabled_ (w_session sw) = b.

Lemma accessible_net {A} b (m : IO CN A) : triple (accessible b) (on_net m) (λ _, accessible b) (λ _, accessible b).
Proof. intros sw Hsw. unfold on_net. destruct (m (w_net sw)) as [net [e|x]]; done. Qed.

Lemma accessible_update b f :
  (∀ s : ClientSession, interface_access_enabled_ (f s) = interface_access_enabled_ s) →
  triple (accessible b) (update f) (λ _, accessible b) (λ _, accessible b).
Proof. intros Hf sw Hsw. unfold accessible, update. simpl. by rewrite Hf. Qed.

Lemma accessible_gets {A} b (f : session_world → A) :
  triple (accessible b) (io_gets f) (λ _, accessible b) (λ _, accessible b).
Proof. by intros sw Hsw. Qed.

Lemma accessible_registry b table :
  triple (accessible b) (bind_registry r table) (λ _, accessible b) (λ _, accessible b).
Proof.
  intros sw Hsw. unfold bind_registry.
  destruct (EndpointTypeRegistry.create r (w_types sw) table (Some "")) as [[types [e|registry]] text]; done.
Qed.

Ltac accessible_rules :=
  repeat match goal with
  | |- triple _ (match ?x with _ => _ end) _ _ => destruct x
  | |- triple _ (_ ≫= _) _ _ => eapply triple_seq; [|intros ?]
  | |- triple _ (mret _) _ _ => by apply triple_return
  | |- triple _ (io_throw _) _ _ => by apply triple_throw
  | |- triple _ (on_net _) _ _ => apply accessible_net
  | |- triple _ (update _) _ _ => by apply accessible_update
  | |- triple _ (io_gets _) _ _ => apply accessible_gets
  | |- triple _ (get _) _ _ => apply accessible_gets
  | |- triple _ (bind_registry _ _) _ _ => apply accessible_registry
  | |- triple _ (catch_all _ _) _ _ => eapply triple_catch_all; [|intros ?]
  end.

Lemma connect_accessible b error :
  triple (accessible b) (connect r error) (λ _, accessible b) (λ _, accessible b).
Proof.
  unfold connect. do 2 (eapply triple_seq; [by apply accessible_update|intros ?]).
  apply (triple_catch_std _ _ _ _ _ (λ _, accessible b)); [|intros what; unfold reset_client; accessible_rules|done].
  unfold try_connect, close_connection, reset_client, discover_namespaces, refuse_connection, open_connection.
  accessible_rules.
Qed.

(** A description that was found leaves the session connected. *)
Lemma description_connected service_path description error (sw sw' : session_world) found text error' :
  readServiceDescription component_name service_path description error sw = (sw', inr (found, text, error')) →
  found = true → state_ (w_session sw') = state_ (w_session sw).
Proof.
  destruct sw as [s net types], description as [description|]; [|by intros [= <- <- <- <-]].
  unfold readServiceDescription. run_io.
  destruct (client_ s) as [client|]; [|by intros [= <- <- <- <-]].
  case_bool_decide; [|by intros [= <- <- <- <-]]. unfold model_id. run_io.
  match goal with
  | |- context [cs_readDescription client ?id net] =>
      destruct (cs_readDescription client id net) as [net1 [[what|]|[status|value]]]
  end; io_cbn; [destruct (client_isConnected client net1); io_cbn|..]; by intros [= <- <- <- <-].
Qed.

(** ** Staging *)

(** An assertion of a staging: the session is connected, the staging owns what
    it has made; one that throws leaves it to the end of the scope. *)
Notation staging v is_stale made := (quiet v is_stale (Some connected) made : proxy_world → Prop).
Notation unstaged v is_stale := ((λ _, quiet v is_stale None []) : exn → proxy_world → Prop).

Lemma load_staging {A} v is_stale state made (f : proxy_world → A) E :
  triple (quiet v is_stale state made : proxy_world → Prop) (load empty_variant f) (λ _, quiet v is_stale state made) E.
Proof. eapply triple_post; [apply load_triple, _|]. by intros ? ? [_ ?]. Qed.

Lemma throw_staging {A} v is_stale made what (Q : A → proxy_world → Prop) :
  triple (staging v is_stale made) (throw_runtime what) Q (unstaged v is_stale).
Proof. apply triple_throw. intros w. exact (quiet_forget _ _ _ _ _). Qed.

Lemma on_rtt_staging {A} v is_stale made (m : IO W A) :
  triple (staging v is_stale made) (on_rtt empty_variant m) (λ _, staging v is_stale made) (unstaged v is_stale).
Proof.
  apply on_rtt_triple; [apply _|intros; by apply quiet_rtt|]. intros _ w. exact (quiet_forget _ _ _ _ _).
Qed.

Lemma ends_connected {A} clears (s : ClientSession) M (P : list A → Prop) s' o :
  discovery_ends clears (Some "") s M P s' o → state_ s = connected →
  match o with
  | inl e => e = other_exception
  | inr (l, error) => default "" error = "" → (P l ∨ l = []) ∧ state_ s' = connected
  end.
Proof. by destruct 1; simpl; auto. Qed.

(** A discovery that throws nothing has found what it promises. *)
Lemma discovered_triple {A} v is_stale made (discovery : option string → IO session_world (list A * option string))
    (Φ : list A → Prop) :
  Φ [] →
  (∀ (sw sw' : session_world) o, session_ok (w_session sw) → discovery (Some "") sw = (sw', o) →
     ∃ clears M P, discovery_ends clears (Some "") (w_session sw) M P (w_session sw') o ∧ ∀ l, P l → Φ l) →
  triple (staging v is_stale made) (discovered empty_variant discovery)
    (λ l w, Φ l ∧ staging v is_stale made w) (unstaged v is_stale).
Proof.
  intros Hnil Hends. unfold discovered.
  eapply (triple_bind _ _ (λ found w, quiet v is_stale None made w ∧
    (default "" found.2 = "" → Φ found.1 ∧ staging v is_stale made w))).
  - apply on_session_triple; [apply _|]. intros w sw o Hw Hrun. pose proof Hw as [[] ? ? Haccess Hstate ? ?].
    specialize (Hstate _ eq_refl). destruct (Hends _ _ _ lo_session Hrun) as (clears & M & P & He & HP).
    pose proof (ends_frame _ _ _ _ _ _ _ He) as [Hframe _].
    assert (Hq : quiet v is_stale (Some (state_ (w_session sw))) made (with_session sw w)).
    { apply quiet_session with (state := Some connected); [done|by eapply frame_ok|].
      by destruct Hframe as [_ _ _ _ _ _ [-> | ->]]. }
    pose proof (ends_connected _ _ _ _ _ _ He Hstate) as Hfound. destruct o as [e|[l error]]; [by eapply quiet_forget|].
    split; [destruct Hq; split; try done|]. intros Herror. destruct (Hfound Herror) as [Hl Hs]. rewrite Hs in Hq.
    split; [|done]. destruct Hl as [?| ->]; auto.
  - intros [l error]. simpl. destruct (str_empty (default "" error)) eqn:Herror.
    + apply triple_return. intros w [_ Hq]. apply Hq. by apply str_empty_spec.
    + apply triple_throw. intros w [Hq _]. by eapply quiet_forget.
Qed.

Lemma discoverOperations_triple v is_stale made service_path :
  triple (staging v is_stale made) (discovered empty_variant (discoverOperations component_name service_path))
    (λ _, staging v is_stale made) (unstaged v is_stale).
Proof.
  eapply triple_post; [apply (discovered_triple _ _ _ _ (λ _, True)); [done|]|by intros ? ? [_ ?]].
  intros sw sw' o Hok Hrun. apply discoverOperations_ends in Hrun as [Hends _]. eauto 6.
Qed.

Lemma discoverValues_triple v is_stale made service_path category :
  triple (staging v is_stale made) (discovered empty_variant (discoverValues component_name service_path category))
    (λ _, staging v is_stale made) (unstaged v is_stale).
Proof.
  eapply triple_post; [apply (discovered_triple _ _ _ _ (λ _, True)); [done|]|by intros ? ? [_ ?]].
  intros sw sw' o Hok Hrun. apply discoverValues_ends in Hrun as [Hends _]. eauto 6.
Qed.

Lemma discoverServices_triple v is_stale made service_path :
  triple (staging v is_stale made) (discovered empty_variant (discoverServices component_name service_path))
    (λ services w, NoDup (rsd_name <$> services) ∧ staging v is_stale made w) (unstaged v is_stale).
Proof.
  apply discovered_triple; [constructor|]. intros sw sw' o Hok Hrun. apply discoverServices_ends in Hrun as [Hends _].
  do 3 eexists. split; [exact Hends|]. by intros l [[[_ ?] _] _].
Qed.

(** The ports of one service. *)
Definition ports_of (service_path : RemoteServicePath) (ports : list RemotePortDescription) : Prop :=
  NoDup (rpd_name <$> ports) ∧ Forall (λ port, rpd_service_path port = service_path) ports.

Lemma discoverPorts_triple v is_stale made service_path :
  triple (staging v is_stale made) (discovered empty_variant (discoverPorts component_name service_path))
    (λ ports w, ports_of service_path ports ∧ staging v is_stale made w) (unstaged v is_stale).
Proof.
  apply discovered_triple; [split; constructor|]. intros sw sw' o Hok Hrun.
  apply discoverPorts_ends in Hrun as [Hends _]; [|by apply session_ok_registry].
  do 3 eexists. split; [exact Hends|]. intros l [[[_ ?] _] Hports]. split; [done|].
  eapply Forall_impl; [exact Hports|]. by intros port (registry & _ & ? & _).
Qed.

(** *** What is made from a description *)

Ltac stage_rules :=
  repeat match goal with
  | |- triple _ (match ?x with _ => _ end) _ _ => destruct x
  | |- triple _ (_ ≫= _) _ _ => eapply triple_seq; [|intros ?]
  | |- triple _ (mret _) _ _ => by apply triple_return
  | |- triple _ (throw_runtime _) _ _ => apply throw_staging
  | |- triple _ (on_rtt _ _) _ _ => apply on_rtt_staging
  | |- triple _ (load _ _) _ _ => apply load_staging
  | |- triple _ (type_registry_of _) _ _ => apply load_staging
  end.

Lemma stage_operation_triple v is_stale made description :
  triple (staging v is_stale made) (stage_operation r empty_variant description)
    (λ _, staging v is_stale made) (unstaged v is_stale).
Proof. unfold stage_operation. stage_rules. Qed.

Lemma makeRemoteDataSource_triple v is_stale made description :
  triple (staging v is_stale made) (makeRemoteDataSource r empty_variant value_reader value_writer description)
    (λ _, staging v is_stale made) (unstaged v is_stale).
Proof. unfold makeRemoteDataSource. cbv zeta. stage_rules. Qed.

Lemma stage_property_triple v is_stale made description :
  triple (staging v is_stale made) (stage_property r empty_variant value_reader value_writer description)
    (λ _, staging v is_stale made) (unstaged v is_stale).
Proof.
  unfold stage_property. destruct (negb _); [apply throw_staging|].
  eapply triple_seq; [apply makeRemoteDataSource_triple|intros [type_info source]]. stage_rules.
Qed.

Lemma stage_attribute_triple v is_stale made description :
  triple (staging v is_stale made) (stage_attribute r empty_variant value_reader value_writer description)
    (λ _, staging v is_stale made) (unstaged v is_stale).
Proof.
  unfold stage_attribute. eapply triple_seq; [apply makeRemoteDataSource_triple|intros [type_info source]]. stage_rules.
Qed.

(** *** Ports *)

Lemma create_adapter_fresh (session : option session_world) description error (rtt rtt' : W) a error' :
  create_adapter r session description error rtt = (rtt', inr (Some a, error')) →
  description_ a = description ∧ hasPendingState a = false.
Proof.
  unfold create_adapter. intros Hrun. repeat case_match; simplify_eq/=.
  all: apply io_bind_inv in Hrun as [(rtt1 & [port|] & _ & Hrun)|(? & _ & [=])]; [|by injection Hrun].
  all: apply io_bind_inv in Hrun as [(rtt2 & [] & _ & Hrun)|(? & _ & [=])]; by injection Hrun as _ <- _.
Qed.

Lemma stage_port_triple v is_stale made description :
  v_tidy v = false →
  triple (staging v is_stale made) (stage_port r empty_variant description)
    (λ id, staging v is_stale (made ++ [(id, description)])) (unstaged v is_stale).
Proof.
  intros Htidy. unfold stage_port.
  eapply (triple_bind _ _ (λ created, match created with
    | inl _ => staging v is_stale made
    | inr id => staging v is_stale (made ++ [(id, description)])
    end)); [|intros [error|id]; [apply throw_staging|by apply triple_return]].
  apply atomic_triple; [apply _|]. intros w Hq.
  destruct (create_adapter r (Some (px_session w)) description (Some "") (px_rtt w)) as [rtt [e|[[a|] error]]] eqn:Hcreate;
    [by eapply quiet_forget, quiet_rtt| |by apply quiet_rtt].
  apply create_adapter_fresh in Hcreate as [Hd Hpending].
  set (id := fresh (dom (live w))). assert (Hfresh : live w !! id = None) by (apply not_elem_of_dom, is_fresh).
  pose proof Hq as [[] ? ? ? ? Hno [Hdistinct Hunowned Hlive]].
  assert (Hother : ∀ id', is_Some (live w !! id') → (<[id := a]> (live w)) !! id' = live w !! id').
  { intros id' [a' Ha']. rewrite lookup_insert_ne; [done|]. intros <-. congruence. }
  assert (Href : ∀ id', id' ∈ referenced w → is_Some (live w !! id')) by apply hk_live, lo_heap.
  assert (Hports : ∀ id', id' ∈ port_adapters w → is_Some (live w !! id')).
  { intros id' ?. apply Href. unfold referenced. apply elem_of_app. by left. }
  split; [| |done..| |].
  - split; [done..| |congruence]. apply (heap_ok_same w); simpl; try done.
    + intros id' Hid'. by rewrite Hother.
    + intros id' a' Ha' Hid'. rewrite Hother in Ha' by auto. by exists a'.
  - done.
  - intros Hs id' a' Hid'. simpl in *. rewrite Hother by auto. by apply Hno.
  - split.
    + rewrite fmap_app. apply NoDup_app. split_and!; [done| |repeat constructor; by apply not_elem_of_nil].
      intros id' ((id1 & d) & -> & Hin)%list_elem_of_fmap. simpl. intros ->%list_elem_of_singleton.
      destruct (Hlive _ _ Hin) as (a' & ? & _). congruence.
    + intros id' d [Hin|[= -> ->]%list_elem_of_singleton]%elem_of_app; [by eapply Hunowned|].
      intros Hin%Href. rewrite Hfresh in Hin. by destruct Hin.
    + intros id' d [Hin|[= -> ->]%list_elem_of_singleton]%elem_of_app; simpl.
      * destruct (Hlive _ _ Hin) as (a' & Ha' & ?). rewrite Hother by (by rewrite Ha'). by exists a'.
      * exists a. by rewrite lookup_insert_eq.
Qed.

Lemma stage_ports_triple v is_stale made ports :
  v_tidy v = false →
  triple (staging v is_stale made) (mapM (stage_port r empty_variant) ports)
    (λ ids w, length ids = length ports ∧ staging v is_stale (made ++ zip ids ports) w) (unstaged v is_stale).
Proof.
  intros Htidy. revert made. induction ports as [|port ports IH]; intros made; simpl.
  - apply triple_return. intros w. by rewrite app_nil_r.
  - eapply triple_bind; [by apply stage_port_triple|]. intros id. simpl.
    eapply triple_bind; [apply IH|]. intros ids. simpl. apply triple_return. intros w [Hlength Hq].
    split; [simpl; congruence|]. by rewrite <-app_assoc in Hq.
Qed.

(** *** Services *)

Definition port_key (port : RemotePortDescription) : RemoteServicePath * string :=
  (rpd_service_path port, rpd_name port).

(** The adapters [made] are those with the addresses [ids]; no two mirror the
    same port, and all belong to a service that satisfies [P]. *)
Record made_for (P : RemoteServicePath → Prop) (ids : list nat) (made : list (nat * RemotePortDescription)) : Prop := {
  mf_ids : made.*1 = ids;
  mf_keys : NoDup (port_key <$> made.*2);
  mf_paths : Forall (λ port, P (rpd_service_path port)) made.*2;
}.

Lemma made_for_nil P : made_for P [] [].
Proof. split; constructor. Qed.

Lemma made_for_app P Q P' ids ids' made made' :
  made_for P ids made → made_for Q ids' made' → (∀ path, P path → Q path → False) →
  (∀ path, P path ∨ Q path → P' path) →
  made_for P' (ids ++ ids') (made ++ made').
Proof.
  intros [<- Hkeys Hpaths] [<- Hkeys' Hpaths'] Hno Hor. split; rewrite !fmap_app; [done| |].
  - apply NoDup_app. split_and!; [done| |done].
    intros key (port & -> & Hin)%list_elem_of_fmap (port' & Heq & Hin')%list_elem_of_fmap.
    rewrite Forall_forall in Hpaths, Hpaths'. apply (Hno (rpd_service_path port)); [auto|].
    injection Heq as -> _. auto.
  - apply Forall_app. split; (eapply Forall_impl; [done|]); simpl; auto.
Qed.

(** The ports of the service itself. *)
Lemma made_for_ports path ids ports :
  ports_of path ports → length ids = length ports → made_for (eq path) ids (zip ids ports).
Proof.
  intros [Hnames Hpaths] Hlength. assert (Hports : (zip ids ports).*2 = ports) by (apply snd_zip; lia).
  split; rewrite ?Hports; [apply fst_zip; lia| |by eapply Forall_impl; [done|]].
  apply (NoDup_fmap_1 snd). by rewrite <-list_fmap_compose.
Qed.

(** What staging the service at [path] makes: the ports of the service and of
    those below it. *)
Definition service_staged v is_stale made (path : RemoteServicePath) (staged : StagedService) w : Prop :=
  ∃ new, made_for (λ path', path `prefix_of` path') (collectStagedPorts staged) new ∧
    staging v is_stale (made ++ new) w.

Lemma stage_children_triple v is_stale path (stage : RemoteServiceDescription → IO proxy_world StagedService) services made :
  (∀ service made, triple (staging v is_stale made) (stage service)
     (service_staged v is_stale made (path ++ [rsd_name service])) (unstaged v is_stale)) →
  NoDup (rsd_name <$> services) →
  triple (staging v is_stale made) (mapM stage services)
    (λ children w, ∃ new,
      made_for (λ path', ∃ service, service ∈ services ∧ path ++ [rsd_name service] `prefix_of` path')
        (concat (collectStagedPorts <$> children)) new ∧
      staging v is_stale (made ++ new) w) (unstaged v is_stale).
Proof.
  intros Hstage. revert made. induction services as [|service services IH]; intros made Hnames; simpl.
  - apply triple_return. intros w Hq. exists []. split; [apply made_for_nil|by rewrite app_nil_r].
  - apply NoDup_cons in Hnames as [Hnew Hnames].
    eapply triple_bind; [apply Hstage|]. intros child. apply triple_exists. intros new1. apply triple_pure. intros Hmade1.
    eapply triple_bind; [by apply IH|]. intros children. apply triple_exists. intros new2. apply triple_pure. intros Hmade2.
    apply triple_return. intros w Hq. exists (new1 ++ new2). split; [|by rewrite app_assoc].
    eapply made_for_app; [exact Hmade1|exact Hmade2|..].
    + intros path' [rest1 ->] (service' & Hin & rest2 & Heq). rewrite <-!app_assoc in Heq.
      apply app_inv_head in Heq. injection Heq as Heq _. apply Hnew. rewrite Heq. by apply list_elem_of_fmap_2.
    + intros path' [?|(service' & ? & ?)]; [exists service; split; [left|done]|exists service'; split; [by right|done]].
Qed.

Lemma stage_service_triple v is_stale fuel path name description made :
  v_tidy v = false →
  triple (staging v is_stale made)
    (stage_service component_name r empty_variant value_reader value_writer fuel path name description)
    (service_staged v is_stale made path) (unstaged v is_stale).
Proof.
  intros Htidy. revert path name description made. induction fuel as [|fuel IH]; intros path name description made;
    cbn [stage_service]; destruct (_ <? _); [apply throw_staging| |apply throw_staging|].
  { apply triple_throw. intros w. exact (quiet_forget _ _ _ _ _). }
  eapply triple_seq; [apply discoverOperations_triple|]. intros operations.
  destruct (if bool_decide _ then _ else None); [apply throw_staging|].
  eapply triple_seq; [apply discoverValues_triple|]. intros properties.
  eapply triple_seq; [apply discoverValues_triple|]. intros attributes.
  eapply triple_bind; [apply discoverPorts_triple|]. intros ports. apply triple_pure. intros Hports.
  eapply triple_bind; [apply discoverServices_triple|]. intros services. apply triple_pure. intros Hservices.
  eapply triple_seq; [apply triple_mapM; intros; apply stage_operation_triple|]. intros made_operations.
  eapply triple_seq; [apply triple_mapM; intros; apply stage_property_triple|]. intros made_properties.
  eapply triple_seq; [apply triple_mapM; intros; apply stage_attribute_triple|]. intros made_attributes.
  eapply triple_bind; [by apply stage_ports_triple|]. intros ids. apply triple_pure. intros Hlength.
  eapply triple_bind; [apply (stage_children_triple v is_stale path); [intros; apply IH|done]|].
  intros children. apply triple_exists. intros new. apply triple_pure. intros Hnew.
  apply triple_return. intros w Hq. exists (zip ids ports ++ new). split; [|by rewrite app_assoc].
  eapply made_for_app; [by apply made_for_ports|exact Hnew|..].
  - intros path' <- (service & _ & rest & Heq). rewrite <-app_assoc in Heq. simpl in Heq.
    apply (f_equal length) in Heq. rewrite length_app in Heq. simpl in Heq. lia.
  - intros path' [<-|(service & _ & Hprefix)]; [done|]. etrans; [|exact Hprefix]. by apply prefix_app_r.
Qed.

(** The depth is tested before the fuel: what is beyond the depth is never used. *)
Lemma stage_service_fuel fuel fuel' path name description w :
  S proxy_kMaximumServiceDepth ≤ fuel + length path → S proxy_kMaximumServiceDepth ≤ fuel' + length path →
  stage_service component_name r empty_variant value_reader value_writer fuel path name description w =
  stage_service component_name r empty_variant value_reader value_writer fuel' path name description w.
Proof.
  revert fuel' path name description w. induction fuel as [|fuel IH]; intros fuel' path name description w Hfuel Hfuel'.
  - destruct fuel'; cbn [stage_service]; rewrite (proj2 (Nat.ltb_lt _ _)) by lia; done.
  - cbn [stage_service]. destruct (proxy_kMaximumServiceDepth <? length path) eqn:Hdepth.
    { destruct fuel'; cbn [stage_service]; by rewrite Hdepth. }
    apply Nat.ltb_ge in Hdepth as Hle. destruct fuel' as [|fuel']; [lia|]. cbn [stage_service]. rewrite Hdepth.
    assert (Hchild : ∀ service w,
      stage_service component_name r empty_variant value_reader value_writer fuel
        (path ++ [rsd_name service]) (rsd_name service) (rsd_description service) w =
      stage_service component_name r empty_variant value_reader value_writer fuel'
        (path ++ [rsd_name service]) (rsd_name service) (rsd_description service) w).
    { intros service w'. apply IH; rewrite length_app; simpl; lia. }
    apply io_bind_ext; [done|intros operations w1]. destruct (if bool_decide _ then _ else None); [done|].
    revert w1. repeat (apply io_bind_ext; [done|intros ?]). apply io_bind_ext; [|done]. by apply io_mapM_ext.
Qed.

(** ** Scopes *)

Definition tidied v : view := View true (v_ready v) (v_adapters v).
Definition untidy v : view := View false (v_ready v) (v_adapters v).

Lemma sweep_spec w :
  (∃ rtt, sweep w = with_heap (live (sweep w)) rtt w) ∧
  ∀ id, live (sweep w) !! id = if decide (id ∈ referenced w) then live w !! id else None.
Proof.
  unfold sweep. destruct (release_all_spec (elements (dom (live w))) w) as [Hw Hlive]. split; [done|].
  intros id. rewrite Hlive. destruct (decide (id ∈ referenced w)) as [Hin|Hin].
  - rewrite decide_False; [done|]. by intros [_ ?].
  - case_decide as Hno; [done|]. apply not_elem_of_dom. intros Hdom. apply Hno. split; [by apply elem_of_elements|done].
Qed.

Lemma sweep_loose v w : loose v w → loose (tidied v) (sweep w).
Proof.
  intros []. destruct (sweep_spec w) as [[rtt Hw] Hlive].
  assert (Href : referenced (sweep w) = referenced w) by (by rewrite Hw).
  split; [by rewrite Hw..|by apply heap_ok_release|].
  intros _ id. rewrite Hlive, Href. case_decide; [done|]. by intros [? [=]].
Qed.

Lemma sweep_no_pending w : no_pending w → no_pending (sweep w).
Proof.
  intros Hpending. destruct (sweep_spec w) as [[rtt Hw] Hlive]. intros id a Hid. rewrite Hlive.
  rewrite Hw in Hid. simpl in Hid. case_decide; [|done]. by apply Hpending.
Qed.

Lemma scope_ends_quiet v is_stale state made E :
  triple (quiet v is_stale state made : proxy_world → Prop) scope_ends (λ _, quiet (tidied v) is_stale state []) E.
Proof.
  intros w [Hloose ? [] ? ? ? ?]. simpl. destruct (sweep_spec w) as [[rtt Hw] _].
  split; [by apply sweep_loose|by rewrite Hw|split; by rewrite Hw|by rewrite Hw|by rewrite Hw|..].
  - intros ?. apply sweep_no_pending. auto.
  - split; [constructor|by intros ? ? ?%not_elem_of_nil..].
Qed.

Lemma scope_ends_settled v (φ : bool → bool → Prop) E :
  triple (λ w, settled v w ∧ φ (interface_stale w) (ports_paused w)) scope_ends
    (λ _ w, settled (tidied v) w ∧ φ (interface_stale w) (ports_paused w)) E.
Proof.
  intros w ([[Hloose Hstale] Haccess] & Hφ). simpl. destruct (sweep_spec w) as [[rtt Hw] _].
  split; [|by rewrite Hw]. split; [split|].
  - by apply sweep_loose.
  - intros Hs. destruct Hstale as ([] & ? & ?); [by rewrite Hw in Hs|].
    split_and!; [split; by rewrite Hw|by rewrite Hw|by apply sweep_no_pending].
  - by rewrite Hw.
Qed.

(** ** Installation *)

(** An assertion of an installation, which may throw at any time. *)
Notation installing v is_stale made := (quiet v is_stale (Some connected) made : proxy_world → Prop).
Notation uninstalled v is_stale made :=
  ((λ _, quiet v is_stale (Some connected) made) : exn → proxy_world → Prop).

Lemma on_rtt_installing {A} v is_stale made (m : IO W A) :
  triple (installing v is_stale made) (on_rtt empty_variant m) (λ _, installing v is_stale made)
    (uninstalled v is_stale made).
Proof. apply on_rtt_triple; [apply _|intros; by apply quiet_rtt|done]. Qed.

Lemma for_each_triple {A} (P : proxy_world → Prop) (f : A → IO proxy_world unit) l E :
  (∀ x, triple P (f x) (λ _, P) E) → triple P (for_each f l) (λ _, P) E.
Proof.
  intros Hf. induction l as [|x l IH]; simpl; [by apply triple_return|]. eapply triple_seq; [apply Hf|done].
Qed.

Lemma require_triple v is_stale made result otherwise :
  triple (installing v is_stale made) (require empty_variant result otherwise) (λ _, installing v is_stale made)
    (uninstalled v is_stale made).
Proof.
  unfold require. eapply triple_seq; [apply on_rtt_installing|]. intros [|]; [by apply triple_return|by apply triple_throw].
Qed.

Lemma add_port_triple v is_stale made target id :
  triple (installing v is_stale made) (add_port empty_variant target id) (λ _, installing v is_stale made)
    (uninstalled v is_stale made).
Proof.
  unfold add_port. eapply triple_seq; [apply load_staging|]. intros [port|]; [apply on_rtt_installing|by apply triple_return].
Qed.

(** Induction on a staged service and those below it. *)
Fixpoint StagedService_children_ind (P : StagedService → Prop)
    (Hstaged : ∀ staged, Forall P (staged_children staged) → P staged) (staged : StagedService) : P staged :=
  match staged with
  | Staged name description operations properties attributes ports children =>
      Hstaged (Staged name description operations properties attributes ports children)
        ((fix children_ind (children : list StagedService) : Forall P children :=
            match children with
            | [] => Forall_nil_2 P
            | child :: children =>
                Forall_cons_2 P child children (StagedService_children_ind P Hstaged child) (children_ind children)
            end) children)
  end.

(** The ports that are installed are those that were staged, in this order. *)
Lemma installStagedService_triple v is_stale made target staged :
  triple (installing v is_stale made) (installStagedService empty_variant target staged)
    (λ ids w, ids = collectStagedPorts staged ∧ installing v is_stale made w) (uninstalled v is_stale made).
Proof.
  revert target. induction staged as [[name description operations properties attributes ports children] IH]
    using StagedService_children_ind. intros target. simpl in IH.
  cbn [installStagedService staged_description staged_operations staged_properties staged_attributes staged_ports
       staged_children collectStagedPorts].
  eapply triple_seq; [apply on_rtt_installing|intros ?].
  eapply triple_seq; [apply for_each_triple; intros; apply on_rtt_installing|intros ?].
  eapply triple_seq; [apply for_each_triple; intros; apply require_triple|intros ?].
  eapply triple_seq; [apply for_each_triple; intros; apply require_triple|intros ?].
  eapply triple_seq; [apply for_each_triple; intros; apply add_port_triple|intros ?].
  eapply (triple_bind _ _ (λ ids w, ids = concat (collectStagedPorts <$> children) ∧ installing v is_stale made w)).
  - induction IH as [|child children Hchild _ IH]; [by apply triple_return|].
    eapply triple_seq; [apply on_rtt_installing|intros service].
    eapply triple_seq; [apply require_triple|intros ?].
    eapply triple_bind; [apply Hchild|intros installed]. apply triple_pure. intros ->.
    eapply triple_bind; [exact IH|intros others]. apply triple_pure. intros ->. by apply triple_return.
  - intros installed. apply triple_pure. intros ->. by apply triple_return.
Qed.

Lemma clear_interface_triple v is_stale made :
  triple (installing v is_stale made) (clear_interface empty_variant) (λ _, installing v is_stale made)
    (uninstalled v is_stale made).
Proof. unfold clear_interface. eapply triple_seq; [apply on_rtt_installing|intros ?; apply on_rtt_installing]. Qed.

Lemma clean_up_triple v is_stale made E :
  triple (installing v is_stale made) (clean_up empty_variant) (λ _, installing v is_stale made) E.
Proof.
  unfold clean_up. eapply triple_catch_all; [|intros ?; apply triple_return; intros w Hw; exact Hw].
  eapply triple_seq; [apply clear_interface_triple|intros ?; by apply triple_return].
Qed.

(** ** Replacing the ports *)

(** Owners change, adapters stay: a state is [quiet] with the new owners. *)
Lemma quarantinePortAdapters_triple v is_stale made E :
  triple (installing v is_stale made) (quarantinePortAdapters empty_variant made.*1) (λ _ w, loose v w) E.
Proof.
  apply section_triple; [apply _|]. intros w [[] ? ? ? ? ? []].
  assert (Href : ∀ id, id ∈ referenced (with_lists (port_adapters w) (quarantined_port_adapters w ++ made.*1) w) ↔
    id ∈ referenced w ∨ id ∈ made.*1).
  { intros id. unfold referenced. simpl. rewrite !elem_of_app. tauto. }
  split; try done.
  - destruct lo_heap. split; simpl; try done.
    intros id [?|((id' & d) & -> & Hin)%list_elem_of_fmap]%Href; [auto|].
    destruct (mo_live _ _ Hin) as (a & ? & _). eauto.
  - intros Ht id Hid. apply Href. left. by apply lo_tidy.
Qed.

Lemma clearQuarantinedPortAdapters_triple v is_stale made :
  v_tidy v = false →
  triple (installing v is_stale made) (clearQuarantinedPortAdapters empty_variant) (λ _, installing v is_stale made)
    (uninstalled v is_stale made).
Proof.
  intros Htidy. apply section_triple; [apply _|]. intros w [[] Hs [] ? ? Hno [Hdistinct Hunowned Hmade]].
  set (w1 := with_lists (port_adapters w) [] w). change (port_adapters w) with (port_adapters w1) in Hno.
  destruct (release_all_spec (quarantined_port_adapters w) w1) as [[rtt Hw] Hlive].
  assert (Href : ∀ id, id ∈ referenced w1 → id ∈ referenced w).
  { intros id. unfold referenced. simpl. rewrite !elem_of_app. tauto. }
  assert (Hnew : ∀ id, id ∉ quarantined_port_adapters w → live (release_all (quarantined_port_adapters w) w1) !! id = live w !! id).
  { intros id Hid. rewrite Hlive, decide_False; [done|]. by intros [? _]. }
  assert (Hports : ∀ id, id ∈ port_adapters w → live (release_all (quarantined_port_adapters w) w1) !! id = live w !! id).
  { intros id Hid. rewrite Hlive, decide_False; [done|]. intros [_ Hn]. apply Hn. unfold referenced. simpl.
    rewrite !elem_of_app. auto. }
  split.
  - split; [by rewrite Hw..| |by rewrite Htidy].
    apply heap_ok_release. destruct lo_heap. split; simpl; auto.
  - by rewrite Hw.
  - split; by rewrite Hw.
  - by rewrite Hw.
  - by rewrite Hw.
  - intros Hst id a Hid. rewrite Hw in Hid. simpl in Hid. rewrite Hports by done. by apply Hno.
  - split; [done|..].
    + intros id d Hin. rewrite Hw. intros Hr. apply (Hunowned id d Hin). by apply Href.
    + intros id d Hin. rewrite Hnew; [eauto|]. intros Hq. apply (Hunowned id d Hin). unfold referenced.
      rewrite !elem_of_app. auto.
Qed.

(** The same pending state and error. *)
Definition same_pending a a' : Prop :=
  pending_input_source_ a' = pending_input_source_ a ∧ pending_input_ a' = pending_input_ a ∧
  pending_output_ a' = pending_output_ a ∧ adapter_error a' = adapter_error a.

(** The adapters of a heap, by what does not change about them. *)
Definition same_descriptions (adapters adapters' : gmap nat RemotePortAdapter) : Prop :=
  ∀ id, description_ <$> adapters' !! id = description_ <$> adapters !! id.

(** What the inner loop does: nothing without a replacement of the same
    identity, and otherwise a transfer to the first of them. *)
Lemma transfer_to_spec old replacements (adapters : gmap nat RemotePortAdapter) :
  (transfer_to old replacements adapters = adapters ∧
   ∀ a new replacement, adapters !! old = Some a → new ∈ replacements → adapters !! new = Some replacement →
     identity a ≠ identity replacement) ∨
  ∃ a new replacement,
    adapters !! old = Some a ∧ new ∈ replacements ∧ adapters !! new = Some replacement ∧
    identity a = identity replacement ∧
    transfer_to old replacements adapters =
      <[new := (transferPendingStateTo a replacement).1.2]>
        (<[old := (transferPendingStateTo a replacement).1.1]> adapters).
Proof.
  induction replacements as [|new replacements IH]; simpl.
  { left. split; [done|]. by intros ? ? ? _ ?%not_elem_of_nil. }
  destruct (adapters !! old) as [a|] eqn:Ha; [destruct (adapters !! new) as [replacement|] eqn:Hnew|].
  - unfold transferPendingStateTo. destruct (hasSameIdentity a replacement) eqn:Hsame; simpl.
    + right. exists a, new, replacement. split_and!; [done|left|done|by apply hasSameIdentity_spec|by rewrite Hsame].
    + destruct IH as [[IH Hno]|(a' & new' & replacement' & Ha' & Hin & Hnew' & Hsame' & IH)].
      * left. split; [done|]. intros a1 new1 replacement1 [= <-] [->|Hin]%elem_of_cons Hnew1; [|by eapply Hno].
        intros Heq%hasSameIdentity_spec. congruence.
      * right. exists a', new', replacement'. split_and!; [done|by right|done..].
  - destruct IH as [[IH Hno]|(a' & new' & replacement' & ? & ? & ? & ? & ?)].
    + left. split; [done|]. intros a1 new1 replacement1 Ha1 [->|Hin]%elem_of_cons Hnew1; [congruence|by eapply Hno].
    + right. exists a', new', replacement'. split_and!; [done|by right|done..].
  - left. split; [|done]. destruct IH as [[IH _]|(? & ? & ? & ? & _)]; [done|congruence].
Qed.

Lemma transfer_descriptions a replacement :
  description_ (transferPendingStateTo a replacement).1.1 = description_ a ∧
  description_ (transferPendingStateTo a replacement).1.2 = description_ replacement.
Proof. unfold transferPendingStateTo. by destruct (hasSameIdentity a replacement). Qed.

Lemma transfer_no_pending a replacement :
  hasPendingState a = false → hasPendingState replacement = false →
  hasPendingState (transferPendingStateTo a replacement).1.1 = false ∧
  hasPendingState (transferPendingStateTo a replacement).1.2 = false.
Proof. unfold transferPendingStateTo. by destruct (hasSameIdentity a replacement). Qed.

Lemma transfer_to_descriptions old replacements adapters :
  same_descriptions adapters (transfer_to old replacements adapters).
Proof.
  intros id. destruct (transfer_to_spec old replacements adapters) as [[-> _]|(a & new & replacement & Ha & _ & Hnew & _ & ->)];
    [done|]. destruct (transfer_descriptions a replacement) as [Ha' Hnew'].
  destruct (decide (id = new)) as [->|]; [rewrite lookup_insert_eq, Hnew; simpl; congruence|].
  rewrite lookup_insert_ne by done.
  destruct (decide (id = old)) as [->|]; [rewrite lookup_insert_eq, Ha; simpl; congruence|by rewrite lookup_insert_ne].
Qed.

(** Nothing pending stays nothing pending. *)
Lemma transfer_to_no_pending (S : nat → Prop) old replacements adapters :
  S old → (∀ id, id ∈ replacements → S id) →
  (∀ id a, S id → adapters !! id = Some a → hasPendingState a = false) →
  ∀ id a, S id → transfer_to old replacements adapters !! id = Some a → hasPendingState a = false.
Proof.
  intros Hold Hreplacements Hno id a' HS.
  destruct (transfer_to_spec old replacements adapters) as [[-> _]|(a & new & replacement & Ha & Hin & Hnew & _ & ->)];
    [by apply Hno|].
  destruct (transfer_no_pending a replacement) as [Ha' Hnew']; [by apply (Hno old)|by apply (Hno new); [apply Hreplacements|]|].
  destruct (decide (id = new)) as [->|]; [rewrite lookup_insert_eq; by intros [= <-]|]. rewrite lookup_insert_ne by done.
  destruct (decide (id = old)) as [->|]; [rewrite lookup_insert_eq; by intros [= <-]|]. rewrite lookup_insert_ne by done.
  by apply Hno.
Qed.

(** The outer loop. *)
Definition transfer_all (olds replacements : list nat) (adapters : gmap nat RemotePortAdapter) :
    gmap nat RemotePortAdapter :=
  foldl (λ live old, transfer_to old replacements live) adapters olds.

Lemma transfer_all_descriptions olds replacements adapters :
  same_descriptions adapters (transfer_all olds replacements adapters).
Proof.
  unfold transfer_all. revert adapters. induction olds as [|old olds IH]; intros adapters; simpl; [done|].
  intros id. rewrite IH. apply transfer_to_descriptions.
Qed.

Lemma transfer_all_no_pending (S : nat → Prop) olds replacements adapters :
  (∀ id, id ∈ olds → S id) → (∀ id, id ∈ replacements → S id) →
  (∀ id a, S id → adapters !! id = Some a → hasPendingState a = false) →
  ∀ id a, S id → transfer_all olds replacements adapters !! id = Some a → hasPendingState a = false.
Proof.
  unfold transfer_all. revert adapters. induction olds as [|old olds IH]; intros adapters Holds Hreplacements Hno; simpl; [done|].
  apply IH; [intros; apply Holds; by right|done|]. apply transfer_to_no_pending; [apply Holds; left|done..].
Qed.

Lemma same_descriptions_lookup adapters adapters' id a' :
  same_descriptions adapters adapters' → adapters' !! id = Some a' →
  ∃ a, adapters !! id = Some a ∧ description_ a' = description_ a.
Proof.
  intros Hsame Ha'. specialize (Hsame id). rewrite Ha' in Hsame. simpl in Hsame.
  destruct (adapters !! id) as [a|]; [|done]. injection Hsame as Hsame. by exists a.
Qed.

Lemma same_descriptions_some adapters adapters' id :
  same_descriptions adapters adapters' → is_Some (adapters' !! id) ↔ is_Some (adapters !! id).
Proof. intros Hsame. rewrite <-(fmap_is_Some description_), Hsame. apply fmap_is_Some. Qed.

Lemma same_descriptions_identity adapters adapters' id a' :
  same_descriptions adapters adapters' → adapters' !! id = Some a' →
  ∃ a, adapters !! id = Some a ∧ identity a' = identity a.
Proof.
  intros Hsame Ha'. destruct (same_descriptions_lookup _ _ _ _ Hsame Ha') as (a & ? & Hd).
  exists a. split; [done|]. unfold identity. by rewrite Hd.
Qed.

(** An adapter that is neither the old one nor a replacement for it. *)
Lemma transfer_to_other old replacements adapters id :
  id ≠ old →
  (∀ a a', adapters !! old = Some a → adapters !! id = Some a' → id ∈ replacements → identity a ≠ identity a') →
  transfer_to old replacements adapters !! id = adapters !! id.
Proof.
  intros Hne Hother.
  destruct (transfer_to_spec old replacements adapters) as [[-> _]|(a & new & replacement & Ha & Hin & Hnew & Hsame & ->)];
    [done|]. rewrite !lookup_insert_ne; [done|done|]. intros ->. by eapply Hother.
Qed.

Lemma transfer_all_other olds replacements adapters id :
  id ∉ olds →
  (∀ old a a', old ∈ olds → adapters !! old = Some a → adapters !! id = Some a' → id ∈ replacements →
     identity a ≠ identity a') →
  transfer_all olds replacements adapters !! id = adapters !! id.
Proof.
  unfold transfer_all. revert adapters. induction olds as [|old olds IH]; intros adapters Hid Hother; simpl; [done|].
  apply not_elem_of_cons in Hid as [Hne Hid].
  rewrite IH; [apply transfer_to_other; [done|]; intros a a' ? ?; eapply Hother; [left|done..]|done|].
  intros old' a1 a1' Hin Ha1 Ha1' Hid'.
  pose proof (transfer_to_descriptions old replacements adapters) as Hsame.
  destruct (same_descriptions_identity _ _ _ _ Hsame Ha1) as (a & Ha & ->).
  destruct (same_descriptions_identity _ _ _ _ Hsame Ha1') as (a' & Ha' & ->). by eapply Hother; [right| | |].
Qed.

(** Where a replacement of the same identity exists, the pending state of an old
    adapter ends in one, and the transfers after it leave it there. *)
Lemma transfer_all_moves olds replacements adapters old a :
  NoDup olds →
  (∀ o o' b b', o ∈ olds → o' ∈ olds → adapters !! o = Some b → adapters !! o' = Some b' →
     identity b = identity b' → o = o') →
  (∀ id, id ∈ olds → id ∉ replacements) →
  old ∈ olds → adapters !! old = Some a →
  (∃ new replacement, new ∈ replacements ∧ adapters !! new = Some replacement ∧ identity a = identity replacement) →
  ∃ new a', new ∈ replacements ∧ transfer_all olds replacements adapters !! new = Some a' ∧
    identity a' = identity a ∧ same_pending a a'.
Proof.
  intros Hnodup Hdistinct Hapart (before & after & ->)%list_elem_of_split Ha Hexists.
  apply NoDup_app in Hnodup as (_ & Hbefore & [Hafter _]%NoDup_cons).
  assert (Hold : old ∈ before ++ old :: after) by (apply elem_of_app; right; left).
  unfold transfer_all. rewrite foldl_app. simpl. fold (transfer_all before replacements adapters).
  pose proof (transfer_all_descriptions before replacements adapters) as Hsame.
  set (adapters1 := transfer_all before replacements adapters) in *.
  assert (Ha1 : adapters1 !! old = Some a).
  { rewrite <-Ha. apply transfer_all_other.
    - intros Hin. apply (Hbefore old Hin). left.
    - intros old' b b' Hin _ _ Hin'. by destruct (Hapart old Hold). }
  destruct (transfer_to_spec old replacements adapters1) as [[_ Hno]|(a' & new & replacement & Ha' & Hin & Hnew & Hid & Htransfer)].
  { destruct Hexists as (new & replacement & Hin & Hnew & Hid).
    destruct (adapters1 !! new) as [replacement1|] eqn:Hnew1.
    - destruct (same_descriptions_identity _ _ _ _ Hsame Hnew1) as (replacement' & Hnew' & Hid').
      destruct (Hno a new replacement1 Ha1 Hin Hnew1). congruence.
    - apply (same_descriptions_some _ _ new) in Hsame. rewrite Hnew1, Hnew in Hsame.
      destruct Hsame as [_ Hsome]. destruct Hsome; [eauto|done]. }
  replace a' with a in * by congruence. clear Ha'.
  fold (transfer_all after replacements (transfer_to old replacements adapters1)).
  exists new, (transferPendingStateTo a replacement).1.2. split; [done|].
  assert (Hmoved : transferPendingStateTo a replacement =
    (with_adapter_error "" (with_pending (pending_input_source_ replacement) (pending_input_ replacement)
       (pending_output_ replacement) a),
     with_adapter_error (adapter_error a)
       (with_pending (pending_input_source_ a) (pending_input_ a) (pending_output_ a) replacement), true)).
  { unfold transferPendingStateTo. by rewrite (proj2 (hasSameIdentity_spec a replacement) Hid). }
  split; [|rewrite Hmoved; split; [by rewrite Hid|done]].
  rewrite transfer_all_other.
  - rewrite Htransfer. by rewrite lookup_insert_eq.
  - intros Hin'. apply (Hapart new); [apply elem_of_app; right; by right|done].
  - intros old' b b' Hin' Hb Hb' _ Heq.
    pose proof (transfer_to_descriptions old replacements adapters1) as Hsame1.
    destruct (same_descriptions_identity _ _ _ _ Hsame1 Hb) as (b1 & Hb1 & Hidb).
    destruct (same_descriptions_identity _ _ _ _ Hsame1 Hb') as (b1' & Hb1' & Hidb').
    destruct (same_descriptions_identity _ _ _ _ Hsame Hb1) as (b2 & Hb2 & Hidb2).
    assert (old' = old); [|by subst].
    apply (Hdistinct old' old b2 a); [apply elem_of_app; right; by right|done..|]. congruence.
Qed.

(** What replacing the ports makes of a world. *)
Definition replace_ports (replacements : list nat) w : proxy_world :=
  release_all (port_adapters w)
    (with_lists replacements (quarantined_port_adapters w)
       (with_heap (transfer_all (port_adapters w) replacements (live w)) (px_rtt w) w)).

Lemma replace_ports_spec replacements w :
  (∃ rtt, replace_ports replacements w =
     with_lists replacements (quarantined_port_adapters w) (with_heap (live (replace_ports replacements w)) rtt w)) ∧
  ∀ id, live (replace_ports replacements w) !! id =
    if decide (id ∈ port_adapters w ∧ id ∉ replacements ++ quarantined_port_adapters w ++ held (port_thread w)) then None
    else transfer_all (port_adapters w) replacements (live w) !! id.
Proof.
  unfold replace_ports.
  match goal with |- context [release_all ?ids ?w1] => destruct (release_all_spec ids w1) as [[rtt Hw] Hlive] end.
  split; [exists rtt; by rewrite Hw|]. intros id. by rewrite Hlive.
Qed.

Lemma replacePortAdapters_triple v is_stale ids made E :
  v_tidy v = false → made_for (λ _, True) ids made →
  triple (installing v is_stale made) (replacePortAdapters empty_variant ids)
    (λ _, installing (View false (v_ready v) ids) is_stale []) E.
Proof.
  intros Htidy [Hids Hkeys _]. apply section_triple; [apply _|].
  intros w [[] Hs [] ? ? Hno [Hdistinct Hunowned Hmade]].
  change (installing (View false (v_ready v) ids) is_stale [] (replace_ports ids w)).
  destruct (replace_ports_spec ids w) as [[rtt Hw] Hlive].
  pose proof (transfer_all_descriptions (port_adapters w) ids (live w)) as Hsame.
  assert (Hin_made : ∀ id, id ∈ ids ↔ ∃ d, (id, d) ∈ made).
  { intros id. rewrite <-Hids, list_elem_of_fmap. split; [intros ([id' d] & -> & ?); eauto|intros [d ?]; by exists (id, d)]. }
  assert (Hkept : ∀ id, id ∈ ids ++ quarantined_port_adapters w ++ held (port_thread w) →
    live (replace_ports ids w) !! id = transfer_all (port_adapters w) ids (live w) !! id).
  { intros id Hid. rewrite Hlive, decide_False; [done|]. by intros [_ ?]. }
  assert (Hold_live : ∀ id, id ∈ referenced w → is_Some (live w !! id)) by apply lo_heap.
  split; [|by rewrite Hw|split; by rewrite Hw|by rewrite Hw|by rewrite Hw|..].
  - split; [by rewrite Hw|by rewrite Hw|by rewrite Hw| |done].
    apply heap_ok_release. destruct lo_heap. split; simpl; auto.
    + intros id Hid. unfold referenced in Hid. simpl in Hid. apply (same_descriptions_some _ _ _ Hsame).
      apply elem_of_app in Hid as [[d Hin]%Hin_made|Hid].
      * destruct (Hmade _ _ Hin) as (a & ? & _). eauto.
      * apply Hold_live. unfold referenced. apply elem_of_app. by right.
    + intros i j id id' a a' Hi Hj Ha Ha' Hid.
      rewrite <-Hids, list_lookup_fmap in Hi, Hj.
      destruct (made !! i) as [[id1 d]|] eqn:Ei; [|done]. destruct (made !! j) as [[id1' d']|] eqn:Ej; [|done].
      simpl in Hi, Hj. injection Hi as ->. injection Hj as ->.
      destruct (same_descriptions_lookup _ _ _ _ Hsame Ha) as (b & Hb & Hd).
      destruct (same_descriptions_lookup _ _ _ _ Hsame Ha') as (b' & Hb' & Hd').
      destruct (Hmade id d) as (c & Hc & <- & _); [by eapply list_elem_of_lookup_2|].
      destruct (Hmade id' d') as (c' & Hc' & <- & _); [by eapply list_elem_of_lookup_2|].
      assert (b = c) as -> by congruence. assert (b' = c') as -> by congruence.
      eapply (NoDup_lookup _ _ _ (port_key (description_ c)) Hkeys); rewrite !list_lookup_fmap.
      * by rewrite Ei.
      * rewrite Ej. simpl. f_equal. unfold port_key. unfold identity in Hid. congruence.
  - intros Hst id a Hid. rewrite Hw in Hid. simpl in Hid. rewrite Hkept by (apply elem_of_app; by left).
    apply (transfer_all_no_pending (λ id, id ∈ port_adapters w ∨ id ∈ ids)); [by left|by right| |by right].
    intros id' a' [Hin|[d Hin]%Hin_made] Ha'; [by eapply Hno|].
    destruct (Hmade _ _ Hin) as (b & ? & _ & ?). congruence.
  - split; [constructor|by intros ? ? ?%not_elem_of_nil..].
Qed.

(** Nothing that the thread holds changes while it is parked. *)
Lemma parked_live w w' id :
  env_moves w w' → parked w → id ∈ port_adapters w ∨ id ∉ referenced w → live w' !! id = live w !! id.
Proof.
  intros [[] _] [Hpaused Hphase] Hid. destruct (mv_quiet Hpaused Hphase) as (_ & _ & Hlive). apply Hlive.
  unfold referenced in Hid. rewrite !elem_of_app in *. tauto.
Qed.

(** ** Synchronization *)

Lemma quiet_untidy v is_stale state made w :
  quiet v is_stale state made w → quiet (untidy v) is_stale state made w.
Proof. intros [[] ? ? ? ? ? ?]. split; try done. Qed.

Lemma stage_interface_triple v is_stale :
  v_tidy v = true →
  triple (staging v is_stale [])
    (stage_interface component_name r empty_variant value_reader value_writer)
    (λ result w, match result with
     | inl _ => quiet v is_stale None [] w
     | inr staged => service_staged (untidy v) is_stale [] [] staged w
     end)
    (λ e w, e = other_exception ∧ quiet (untidy v) is_stale None [] w).
Proof.
  intros Htidy. unfold stage_interface.
  apply (triple_catch_std _ _ _ _ _ (unstaged (untidy v) is_stale)).
  - eapply (triple_bind _ _ (λ found w, quiet (untidy v) is_stale None [] w ∧
      (found.1.1 = true → staging (untidy v) is_stale [] w))).
    + apply on_session_triple; [apply _|]. intros w sw o Hw Hrun. pose proof Hw as [[] ? ? Haccess Hstate ? ?].
      pose proof (description_frame component_name [] (Some "") (Some "") (px_session w)) as [Hframe _].
      rewrite Hrun in Hframe. simpl in Hframe.
      assert (Hq : quiet (untidy v) is_stale (Some (state_ (w_session sw))) [] (with_session sw w)).
      { apply quiet_untidy, quiet_session with (state := Some connected); [done|by eapply frame_ok|].
        by destruct Hframe as [_ _ _ _ _ _ [-> | ->]]. }
      destruct o as [e|[[found text] error]]; [by eapply quiet_forget|]. simpl.
      split; [by eapply quiet_forget|]. intros ->. apply description_connected in Hrun; [|done].
      specialize (Hstate _ eq_refl). unfold session_of in Hstate. by rewrite Hrun, Hstate in Hq.
    + intros [[[|] text] error]; simpl.
      * eapply triple_bind; [eapply triple_pre; [by apply (stage_service_triple (untidy v))|]|].
        { intros w [_ Hq]. by apply Hq. }
        intros staged. by apply triple_return.
      * apply triple_throw. by intros w [Hq _].
  - intros what. eapply triple_seq; [apply scope_ends_quiet|]. intros ?. apply triple_return.
    intros w Hq. destruct v as [tidy ready adapters]. simpl in Htidy. by subst tidy.
  - done.
Qed.

Lemma install_interface_triple v is_stale made staged P E :
  v_tidy v = false → made_for P (collectStagedPorts staged) made →
  triple (installing v is_stale made) (install_interface empty_variant staged)
    (λ result w, match result with
     | inl _ => quiet (view_ready false v) true None [] w
     | inr ids => ids = collectStagedPorts staged ∧ installing (view_ready false v) is_stale made w
     end) E.
Proof.
  intros Htidy Hmade. unfold install_interface.
  apply (triple_catch_all _ _ _ _ _ (uninstalled (view_ready false v) is_stale made)).
  - eapply triple_seq; [apply store_ready_triple|intros ?].
    eapply triple_seq; [apply clear_interface_triple|intros ?].
    eapply triple_seq; [by apply clearQuarantinedPortAdapters_triple|intros ?].
    eapply triple_bind; [apply installStagedService_triple|intros ids]. by apply triple_return.
  - intros e. eapply triple_seq; [apply clean_up_triple|intros cleanup_error].
    eapply (triple_seq _ _ (loose (view_ready false v))).
    + destruct cleanup_error; [|apply triple_return; by intros w []].
      rewrite <-(mf_ids _ _ _ Hmade). apply quarantinePortAdapters_triple.
    + intros ?. eapply triple_seq; [apply markInterfaceStale_triple|intros ?]. by apply triple_return.
Qed.

(** How a synchronization ends that began with the view [v] and the flag
    [is_stale]: with a new interface; or, without one, stale or as it began. *)
Definition synchronized v (is_stale : bool) (error : option string) (result : bool * option string) w : Prop :=
  if result.1 then
    result.2 = assignError error "" ∧
    ∃ ids, settled (View true true ids) w ∧ interface_stale w = false ∧ ports_paused w = false
  else ∃ v' b, (v_tidy v' = true ∧ (b = true ∨ b = is_stale ∧ v' = tidied v)) ∧ settled v' w ∧ interface_stale w = b.

Lemma replace_interface_triple v is_stale made can_restore staged error P E :
  v_tidy v = false → made_for P (collectStagedPorts staged) made →
  (can_restore = true → v_ready v = true ∧ is_stale = false) →
  triple (installing v is_stale made) (replace_interface empty_variant can_restore staged error)
    (λ result w, synchronized v is_stale error result w) E.
Proof.
  intros Htidy Hmade Hrestore. unfold replace_interface.
  eapply (triple_seq _ _ (installing v is_stale made)); [apply atomic_triple; [apply _|by intros w Hw]|].
  intros [replaceable replacement_error]. destruct replaceable; simpl.
  - eapply triple_bind; [by eapply install_interface_triple|]. intros [message|ids].
    + eapply triple_seq; [apply scope_ends_quiet|intros ?]. apply triple_return. intros w Hq.
      exists (tidied (view_ready false v)), true. split; [auto|]. split; [by eapply quiet_settled|apply Hq].
    + apply triple_pure. intros ->.
      eapply triple_seq; [apply replacePortAdapters_triple; [done|]|intros ?].
      { destruct Hmade as [? ? ?]. split; [done..|]. by apply Forall_true. }
      eapply triple_seq; [apply store_ready_triple|intros ?].
      eapply triple_seq; [by apply markInterfaceFresh_triple|intros ?].
      eapply triple_seq; [apply resumePortPump_triple|intros ?].
      eapply triple_seq; [eapply triple_pre; [apply (scope_ends_settled (View false true (collectStagedPorts staged)) (λ b p, b = false ∧ (false = false → p = false)))|]|intros ?].
      { intros w [[Hsettled Hs] Hp]. split_and!; [exact Hsettled|done|done]. }
      apply triple_return. intros w (Hsettled & Hs & Hp). split; [done|].
      exists (collectStagedPorts staged). split_and!; [exact Hsettled|done|auto].
  - eapply (triple_seq _ _ (λ w, settled v w ∧ interface_stale w = is_stale)).
    + assert (Hkeep : triple (installing v is_stale made) (mret tt : IO proxy_world unit)
        (λ _ w, settled v w ∧ interface_stale w = is_stale) E).
      { apply triple_return. intros w Hq. split; [by eapply quiet_settled|apply Hq]. }
      destruct can_restore; [|done]. destruct (Hrestore eq_refl) as [Hready ->].
      eapply triple_seq.
      { apply (on_session_triple _ _ _ (λ _, installing v false made)); [apply _|].
        intros w sw o Hq [= <- <-]. by destruct w. }
      intros state. case_bool_decide; [|done].
      eapply triple_post; [apply set_access_true_triple|]. intros ? w [Hw Hs]. split; [by apply resuming_settled|done].
    + intros ?. eapply (triple_seq _ _ (λ w, settled (tidied v) w ∧ interface_stale w = is_stale)).
      * apply (scope_ends_settled v (λ b _, b = is_stale)).
      * intros ?. apply triple_return. intros w Hw. exists (tidied v), is_stale. split; [auto|done].
Qed.

(** The state of the session is read. *)
Lemma read_state_triple v is_stale state made E :
  triple (quiet v is_stale state made) (on_session empty_variant (get state_))
    (λ s w, (∀ s', state = Some s' → s = s') ∧ quiet v is_stale (Some s) made w) E.
Proof.
  apply on_session_triple; [apply _|]. intros w sw o Hq [= <- <-].
  assert (Hw : with_session (px_session w) w = w) by (by destruct w). unfold get, io_gets. simpl. rewrite Hw.
  pose proof Hq as [[] ? ? ? Hstate ? ?]. split; [intros s' Hs'; by apply Hstate|].
  split; try done. by intros ? [= <-].
Qed.

Lemma connect_triple v is_stale state error :
  triple (quiet v is_stale state []) (on_session empty_variant (connect r error))
    (λ result w, (result.1 = true → result.2 = error) ∧
       quiet v is_stale (if result.1 then Some connected else None) [] w)
    (λ e w, e = other_exception ∧ quiet v is_stale None [] w).
Proof.
  apply on_session_triple; [apply _|]. intros w sw o Hq Hrun. pose proof Hq as [[] ? ? Haccess ? ? ?].
  pose proof (connect_ok r error (px_session w)) as Hok. rewrite Hrun in Hok. simpl in Hok.
  assert (Hoff : interface_access_enabled_ (w_session sw) = false).
  { pose proof (connect_accessible false error (px_session w) Haccess) as Ha. rewrite Hrun in Ha. by destruct o. }
  pose proof (quiet_session _ _ _ _ _ _ Hq Hok Hoff) as Hq'.
  destruct (connect_inv r error _ _ _ Hrun) as [(-> & namespaces & Hc)|[(-> & _)|(-> & _)]]; simpl.
  - split; [done|]. by rewrite (cn_state _ _ Hc) in Hq'.
  - split; [done|]. by eapply quiet_forget.
  - split; [done|]. by eapply quiet_forget.
Qed.

Lemma read_session_triple {A} P (f : ClientSession → A) E :
  Stable P → triple P (on_session empty_variant (get f)) (λ _, P) E.
Proof. intros HP. apply on_session_triple; [done|]. intros w sw o Hw [= <- <-]. by destruct w. Qed.

Lemma notice_lost_session_triple v is_stale entry E :
  triple (quiet v is_stale (Some entry) []) (notice_lost_session empty_variant entry)
    (λ _ w, ∃ b, (b = true ∨ b = is_stale ∧ (v_ready v = true → b = false → entry = connected)) ∧
       quiet v b (if bool_decide (entry = connected) then Some connected else None) [] w) E.
Proof.
  unfold notice_lost_session. eapply triple_bind; [apply load_triple, _|]. intros ready.
  eapply (triple_pre _ (λ w, ready = v_ready v ∧ quiet v is_stale (Some entry) [] w)).
  2: { intros w [-> Hq]. split; [|done]. by destruct Hq as [[]]. }
  apply triple_pure. intros ->.
  destruct (v_ready v) eqn:Hready; simpl; [case_bool_decide as Hentry; simpl|].
  - apply triple_return. intros w Hq. exists is_stale. split; [auto|]. by subst entry.
  - eapply triple_bind; [apply load_triple, _|]. intros b.
    eapply (triple_pre _ (λ w, b = is_stale ∧ quiet v is_stale (Some entry) [] w)).
    2: { intros w [-> Hq]. split; [|done]. by destruct Hq as [[]]. }
    apply triple_pure. intros ->. destruct is_stale.
    + apply triple_return. intros w Hq. exists true. split; [auto|]. by eapply quiet_forget.
    + eapply triple_seq; [by apply read_session_triple, _|]. intros message.
      eapply triple_post; [eapply triple_pre; [apply (markInterfaceStale_triple _ v)|by intros w []]|].
      intros ? w Hq. exists true. split; [auto|]. exact Hq.
  - apply triple_return. intros w Hq. exists is_stale. split; [right; by split|]. case_bool_decide; [by subst entry|by eapply quiet_forget].
Qed.

Lemma can_restore_triple v is_stale state entry E :
  triple (quiet v is_stale state []) (can_restore empty_variant entry)
    (λ b w, (b = true → v_ready v = true ∧ is_stale = false) ∧ quiet v is_stale state [] w) E.
Proof.
  unfold can_restore. eapply triple_bind; [apply load_triple, _|]. intros [|].
  - eapply (triple_bind _ _ (λ b w, (true = v_ready v ∧ b = is_stale) ∧ quiet v is_stale state [] w)).
    + eapply triple_conseq; [apply load_triple; apply (stable_and (λ _, true = v_ready v) (quiet v is_stale state [])); apply _|..].
      * intros w [Hready Hq]. split; [|done]. by destruct Hq as [[]]; congruence.
      * intros b w [-> [Hready Hq]]. split; [|done]. by destruct Hq.
      * done.
    + intros b. apply triple_pure. intros [Hready ->]. apply triple_return. intros w Hq. split; [|done].
      intros [Hs _]%andb_true_iff. by destruct is_stale.
  - apply triple_return. by intros w [_ Hq].
Qed.

Lemma synchronize_paused_triple v is_stale error :
  v_tidy v = true →
  triple (quiet v is_stale None [])
    (synchronize_paused component_name r empty_variant value_reader value_writer error)
    (λ result w, synchronized v is_stale error result w)
    (λ e w, e = other_exception ∧ ∃ b, quiet (untidy v) b None [] w).
Proof.
  intros Htidy. unfold synchronize_paused.
  eapply triple_bind; [apply read_state_triple|intros entry]. apply triple_pure. intros _.
  eapply triple_bind; [apply notice_lost_session_triple|intros ?]. apply triple_exists. intros b. apply triple_pure. intros Hb.
  assert (Hv : tidied v = v) by (destruct v; simpl in Htidy; by subst).
  eapply triple_bind; [apply can_restore_triple|intros restore]. apply triple_pure. intros Hrestore.
  eapply (triple_bind _ _ (λ (result : bool * option string) w, (result.1 = true → result.2 = error) ∧
    quiet v b (if result.1 then Some connected else None) [] w)).
  - case_bool_decide; [by apply triple_return|]. eapply triple_conseq; [apply connect_triple|done|done|].
    intros e w [He Hq]. split; [done|]. exists b. by apply quiet_untidy.
  - intros [reached error']. simpl. apply triple_pure. intros Herror. destruct reached; simpl.
    + rewrite (Herror eq_refl). eapply triple_bind; [eapply triple_conseq; [by apply stage_interface_triple|done|done|]|].
      { intros e w [He Hq]. split; [done|]. by exists b. }
      intros [message|staged].
      * eapply triple_seq; [eapply triple_pre; [apply (markInterfaceStale_triple _ v)|by intros w []]|intros ?].
        apply triple_return. intros w Hq. exists v, true. split; [auto|]. split; [by eapply quiet_settled|apply Hq].
      * apply triple_exists. intros made. apply triple_pure. intros Hmade.
        eapply triple_post; [by eapply replace_interface_triple|]. intros [[|] error''] w; [by intros Hw; exact Hw|].
        intros (v' & b' & [Htidy' Hb'] & Hw). exists v', b'. split; [split; [done|]|done].
        destruct Hb' as [?|[-> ->]]; [by left|]. destruct Hb as [?|[-> _]]; [by left|by right].
    + eapply (triple_seq _ _ (quiet v b None [])).
      { destruct error'; [by apply triple_return|by apply read_session_triple, _]. }
      intros message.
      eapply triple_seq; [eapply triple_pre; [apply (markInterfaceStale_triple _ v)|by intros w []]|intros ?].
      apply triple_return. intros w Hq. exists v, true. split; [auto|]. split; [by eapply quiet_settled|apply Hq].
Qed.

(** Between two operations, and after the first steps of a synchronization. *)
Lemma pausePortPump_triple v is_stale E :
  triple (λ w, (settled v w ∧ interface_stale w = is_stale) ∧ access w = false) (pausePortPump empty_variant)
    (λ _, quiet v is_stale None []) E.
Proof.
  unfold pausePortPump. eapply (triple_seq _ _ (λ w,
    ((settled v w ∧ interface_stale w = is_stale) ∧ access w = false) ∧ ports_paused w = true)).
  - apply section_triple; [apply _|]. intros w [[[Hcalm Haccess] Hs] Ha]. split; [|done]. split; [|done]. split; [|done].
    split; [|done]. pose proof Hcalm as [Hloose Hstale]. split.
    + pose proof Hloose as []. by eapply loose_same.
    + intros ([] & ? & ?)%Hstale. split_and!; [by split|done|done].
  - intros ?. apply section_triple; [apply _|]. intros w Hw.
    pose proof (stable (P := λ w, ((settled v w ∧ interface_stale w = is_stale) ∧ access w = false) ∧ ports_paused w = true)
      _ _ (wait_pumped_env empty_variant w) Hw) as [[[[[Hloose Hstale] _] Hs] Ha] Hp].
    split; try done.
    + split; [done|]. apply wait_pumped_ends.
    + intros ->. by apply Hstale.
    + split; [constructor|by intros ? ? ?%not_elem_of_nil..].
Qed.

(** [None] for the thread's context. *)
Lemma synchronize_triple v is_stale error :
  v_tidy v = true →
  triple (λ w, settled v w ∧ interface_stale w = is_stale)
    (synchronize component_name r empty_variant value_reader value_writer None error)
    (λ result w, synchronized v is_stale error result w ∧ (interface_stale w = false → ports_paused w = false))
    (λ e w, e = other_exception ∧ settled v w ∧ (interface_stale w = false → ports_paused w = false)).
Proof.
  intros Htidy. unfold synchronize.
  assert (Hv : tidied (untidy v) = v) by (destruct v; simpl in Htidy; by subst).
  eapply triple_seq; [apply set_access_false_triple; [apply _|]|intros ?].
  { intros w sw [[Hcalm Haccess] Hs] Hframe Hstate Hoff. split; [|done]. split.
    - pose proof Hcalm as [[] _]. apply calm_session; [done|by eapply frame_ok|done].
    - unfold access, session_of. simpl. congruence. }
  eapply triple_seq; [apply pausePortPump_triple|intros ?].
  eapply triple_bind.
  { eapply triple_catch_all; [by apply synchronize_paused_triple|]. intros e. simpl. apply triple_pure. intros ->.
    apply triple_exists. intros b.
    eapply triple_seq; [apply scope_ends_quiet|intros ?].
    eapply triple_seq; [eapply triple_pre; [apply (resumePortPump_triple _ v b)|]|intros ?].
    - intros w Hq. rewrite Hv in Hq. split; [by eapply quiet_settled|apply Hq].
    - apply triple_throw. intros w [[Hw Hs] Hp]. split_and!; [done|exact Hw|]. by rewrite Hs. }
  intros [[|] error']; simpl.
  - eapply (triple_seq _ _ (synchronized v is_stale error (true, error'))); [by apply triple_return|intros ?].
    apply triple_return. intros w Hw. split; [done|]. by destruct Hw as (_ & ids & _ & _ & ?).
  - unfold synchronized. simpl. eapply triple_seq; [|intros ?; apply triple_return; intros w Hw; exact Hw].
    apply triple_exists. intros v'. apply triple_exists. intros b. apply triple_pure. intros Hb.
    eapply triple_post; [apply resumePortPump_triple|]. intros ? w [Hw Hp]. split; [by exists v', b|].
    destruct Hw as [_ Hs]. by rewrite Hs.
Qed.

(** ** Destruction and construction *)

#[global] Instance stable_done : Stable (λ w, phase (port_thread w) = pump_done).
Proof. intros w w' [[] _]. auto. Qed.

#[global] Instance stable_empty : Stable (λ w, live w = ∅).
Proof.
  intros w w' [[] _] Hw. apply map_eq. intros id. rewrite lookup_empty. destruct (live w' !! id) as [a'|] eqn:Ha'; [|done].
  destruct (mv_back _ _ Ha') as (a & Ha & _). by rewrite Hw in Ha.
Qed.

#[global] Instance stable_owned : Stable (λ w, heap_ok w ∧ leak_free w).
Proof. intros w w' [_ Hheap] [Hok Hleak]. destruct (Hheap Hok) as [? Hl]. auto. Qed.

(** The thread is told to stop. *)
Definition stop_request w : proxy_world :=
  with_thread {| phase := phase (port_thread w); held := held (port_thread w); round := round (port_thread w);
                 stop_requested := true |} w.

Lemma heap_ok_stop w : heap_ok w → heap_ok (stop_request w).
Proof.
  intros Hok. pose proof Hok as [Hlive Hround Hidle Hwork _]. apply heap_ok_thread; simpl; auto.
  intros id Hid. apply Hlive. unfold referenced. rewrite !elem_of_app. auto.
Qed.

Lemma stopPortPump_triple P E :
  Stable P → (∀ w, P w → P (stop_request w)) →
  triple P (stopPortPump empty_variant) (λ _ w, P w ∧ phase (port_thread w) = pump_done) E.
Proof.
  intros HP Hstop. apply section_triple; [done|]. intros w Hw. case_bool_decide; [done|].
  change (with_thread _ w) with (stop_request w). split.
  - apply (HP (stop_request w)); [apply join_env|by apply Hstop].
  - apply join_done; [done|apply steps_left_bound].
Qed.

(** The proxy is gone: its thread has returned and its adapters are destroyed. *)
Definition gone w : Prop := phase (port_thread w) = pump_done ∧ live w = ∅ ∧ access w = false.

(** On the way there. *)
Definition stopped w : Prop :=
  (heap_ok w ∧ leak_free w) ∧ access w = false ∧ phase (port_thread w) = pump_done.

#[global] Instance stable_stopped : Stable stopped.
Proof. apply stable_and; [apply _|]. apply stable_and; apply _. Qed.

Lemma stopped_rtt rtt w : stopped w → stopped (with_heap (live w) rtt w).
Proof. intros [[Hok Hleak] ?]. split; [split|done]; [by apply (heap_ok_same w); eauto|done]. Qed.

Lemma held_done w : stopped w → held (port_thread w) = [].
Proof. intros [[[] _] [_ Hdone]]. auto. Qed.

(** What the quarantine owned goes. *)
Lemma clear_quarantine_stopped E :
  triple stopped (clearQuarantinedPortAdapters empty_variant) (λ _, stopped) E.
Proof.
  apply section_triple; [apply _|]. intros w Hw. pose proof (held_done w Hw) as Hheld.
  destruct Hw as [[Hok Hleak] [Ha Hdone]]. set (w1 := with_lists (port_adapters w) [] w).
  destruct (release_all_spec (quarantined_port_adapters w) w1) as [[rtt Hw] Hlive].
  split; [split|split; by rewrite Hw].
  - apply heap_ok_release. destruct Hok. split; simpl; auto. intros id Hid. apply hk_live. unfold referenced in *.
    simpl in Hid. rewrite !elem_of_app in *. tauto.
  - intros id. rewrite Hlive. case_decide as Hid; [by intros [? [=]]|]. intros Hsome.
    assert (Hor : id ∈ referenced w) by (by apply Hleak). rewrite Hw. unfold referenced in *. simpl in *.
    rewrite !elem_of_app in *. destruct (decide (id ∈ port_adapters w)); [by left|].
    destruct Hor as [?|[?|?]]; [done| |tauto]. destruct Hid. split; [done|]. rewrite Hheld. by intros [?|?%not_elem_of_nil].
Qed.

Lemma clearPortAdapters_triple E : triple stopped (clearPortAdapters empty_variant) (λ _, gone) E.
Proof.
  apply section_triple; [apply _|]. intros w Hw. pose proof (held_done w Hw) as Hheld.
  destruct Hw as [[Hok Hleak] [Ha Hdone]].
  destruct (release_all_spec (port_adapters w ++ quarantined_port_adapters w) (with_lists [] [] w)) as [[rtt Hw] Hlive].
  split_and!; [by rewrite Hw| |by rewrite Hw].
  apply map_eq. intros id. rewrite Hlive, lookup_empty. case_decide as Hid; [done|]. simpl.
  destruct (live w !! id) as [a|] eqn:Ha'; [|done]. destruct Hid.
  assert (Hin : id ∈ referenced w) by (apply Hleak; eauto). unfold referenced in *. simpl. rewrite Hheld in *.
  rewrite app_nil_r in Hin. split; [done|apply not_elem_of_nil].
Qed.

Lemma destroy_proxy_triple v :
  v_tidy v = true →
  triple (settled v) (destroy_proxy empty_variant) (λ _, gone) impossible.
Proof.
  intros Htidy. unfold destroy_proxy.
  eapply (triple_seq _ _ (calm (view_ready false v))).
  { apply section_triple; [apply _|]. intros w [Hcalm _]. pose proof Hcalm as [[] _]. by eapply calm_same. }
  intros ?. eapply triple_seq.
  { eapply (triple_catch_all _ _ _ _ _ impossible); [|by intros e w].
    apply set_access_false_triple; [apply _|]. intros w sw Hcalm Hframe _ Hoff.
    pose proof Hcalm as [[] _]. apply calm_session; [done|by eapply frame_ok|done]. }
  intros ?. eapply (triple_seq _ _ stopped).
  { eapply triple_post; [apply stopPortPump_triple; [apply _|]|].
    - intros w [[[] Hstale] Ha]. split; [|done]. split.
      + split; try done. by apply heap_ok_stop.
      + intros ([] & ? & ?)%Hstale. by split_and!.
    - intros ? w [[[[] _] Ha] Hdone]. split; [split|]; auto. }
  intros ?. eapply (triple_seq _ _ stopped); [|intros ?; apply clearPortAdapters_triple].
  eapply (triple_catch_all _ _ _ _ _ (λ _, stopped)); [|intros e; by apply triple_return].
  unfold clear_interface.
  assert (Hrtt : ∀ {A} (m : IO W A), triple stopped (on_rtt empty_variant m) (λ _, stopped) (λ _, stopped)).
  { intros A m. apply on_rtt_triple; [apply _|intros; by apply stopped_rtt|done]. }
  eapply triple_seq; [eapply triple_seq; [apply Hrtt|intros ?; apply Hrtt]|intros ?; apply clear_quarantine_stopped].
Qed.

(** The end of [create]: a proxy that is ready, or none. *)
Definition created (result : bool * option string) w : Prop :=
  if result.1 then ∃ ids, settled (View true true ids) w ∧ interface_stale w = false ∧ ports_paused w = false
  else gone w.

Lemma create_new_triple error :
  triple (λ w, quiet (View true false []) false None [] w ∧ live w = ∅)
    (create_new component_name r empty_variant value_reader value_writer None error)
    created (λ e w, e = other_exception ∧ gone w).
Proof.
  unfold create_new. apply (triple_catch_std _ _ _ _ _ (λ _, gone)); [|intros what; by apply triple_return|done].
  eapply triple_seq.
  { eapply (triple_catch_all _ _ _ _ _ (λ _ w, quiet (View true false []) false None [] w ∧ live w = ∅)).
    - apply on_rtt_triple; [apply _| |done]. intros w rtt [Hq Hlive]. split; [by apply quiet_rtt|done].
    - intros e. eapply (triple_seq _ _ gone); [|intros ?; by apply triple_throw].
      eapply triple_post; [apply stopPortPump_triple; [apply _|]|].
      + intros w [[[] ? [] ? ? ? ?] Hlive]. split; [|done].
        split; try done; [|by split; [apply NoDup_nil_2|intros ? ? ?%not_elem_of_nil..]].
        split; try done. by apply heap_ok_stop.
      + intros ? w [[[] ?] ?]. by split_and!. }
  intros ?. eapply triple_bind.
  - eapply (triple_catch_all _ _ _ (λ (result : bool * option string) w,
      if result.1 then created (true, None) w else ∃ v, v_tidy v = true ∧ settled v w) _ (λ _ w, ∃ v, v_tidy v = true ∧ settled v w)).
    + eapply triple_bind; [eapply triple_conseq; [apply (connect_triple (View true false []) false None)|by intros w [? _]|done|]|].
      { intros e w [_ Hq]. exists (View true false []). split; [done|]. by eapply quiet_settled. }
      intros [reached error']. simpl. apply triple_pure. intros _. destruct reached; simpl.
      * eapply triple_conseq; [by apply (synchronize_triple (View true false []) false)| | |].
        -- intros w Hq. split; [by eapply quiet_settled|apply Hq].
        -- intros [[|] error''] w [Hw _]; simpl in *; [by destruct Hw as (_ & Hw)|].
           destruct Hw as (v' & b & [? _] & ? & _). eauto.
        -- intros e w (_ & Hw & _). by exists (View true false []).
      * apply triple_return. intros w Hq. exists (View true false []). split; [done|]. by eapply quiet_settled.
    + intros e. apply triple_exists. intros v. apply triple_pure. intros Htidy.
      eapply (triple_seq _ _ gone); [|intros ?; by apply triple_throw].
      eapply triple_conseq; [by apply destroy_proxy_triple|done|done|by intros].
  - intros [[|] error']; simpl.
    + eapply triple_seq; [apply triple_return; intros w Hw; exact Hw|intros ?]. by apply triple_return.
    + eapply (triple_seq _ _ gone); [|intros ?; by apply triple_return].
      apply triple_exists. intros v. apply triple_pure. intros Htidy.
      eapply triple_conseq; [by apply destroy_proxy_triple|done|done|by intros].
Qed.
End sync.
