(* ===== verification/TaskContextProxySpec.v ===== *)
(** What the mirror of a component promises: its invariant under every
    interleaving, how a synchronization, a construction and a destruction end,
    that no pending sample is lost when ports are replaced, that its thread can be
    paused, and what an operation answers. *)

From S2P Require Import Prelude NodeId Native Concrete DataTypeRegistry TypeProtocol EndpointTypeRegistry.
From S2P Require Import OperationDispatcher PortDataSources AddressSpace ConcreteServer NodeSpecs.
From S2P Require Import Client ClientDiscovery ConcreteClient ClientSpec RemotePort RemotePortSpec.
From S2P Require Import RemoteOperation RemoteOperationSpec TaskContextProxy ConcreteProxy.
From S2P Require Import Hoare ProxySteps ProxyLogic ProxySync.

Section spec.
Context {W DS Port Variant NodeId UA_DataType DataType TypeInfo R CN Client StatusCode Wire C : Type}.
Context {Property Attribute Service : Type}.
Context `{EqDecision TypeInfo} `{!Countable TypeInfo} `{EqDecision DS}.
Context `{NodeIds NodeId} `{DataTypes NodeId UA_DataType DataType}.
Context `{StatusCodes StatusCode} `{!StatusConstants StatusCode}.
Context `{!Variants Variant NodeId UA_DataType Wire}.
Context `{!ClientServices CN Client NodeId Variant DataType StatusCode}.
Context `{!DiscoveryServices CN Client NodeId Variant StatusCode}.
Context `{!RttPorts W DS Port TypeInfo} `{!LocalPorts W DS Port TypeInfo}.
Context `{!OperationSources W DS TypeInfo C} `{TaskStates}.
Notation TypeCodec := (TypeCodec W DS Port Variant NodeId UA_DataType).
Notation TypeProtocol := (TypeProtocol W DS Port Variant NodeId UA_DataType).
Notation EndpointTypeRegistry := (EndpointTypeRegistry UA_DataType DataType TypeInfo TypeCodec).
Notation ProxyDataSource := (ProxyDataSource W Variant NodeId UA_DataType).
Context `{TypeInfos TypeInfo R TypeProtocol}.
Notation ClientSession :=
  (@ClientSession W DS Port Variant NodeId UA_DataType DataType TypeInfo Client _ _).
Notation session_world := (@world W DS Port Variant NodeId UA_DataType DataType TypeInfo CN Client _ _).
Notation RemotePortAdapter :=
  (@RemotePortAdapter W DS Port Variant NodeId UA_DataType DataType TypeInfo _ _).
Notation RemoteOperation :=
  (@RemoteOperation W DS Port Variant NodeId UA_DataType DataType TypeInfo _ _).
Notation RemotePortDescription := (RemotePortDescription NodeId).
Notation proxy_world :=
  (@proxy_world W DS Port Variant NodeId UA_DataType DataType TypeInfo CN Client _ _).
Context `{!MirrorTypes W DS TypeInfo ProxyDataSource Property Attribute}.
Context `{!MirrorServices W Port RemoteOperation Property Attribute Service}.
Context (component_name : string) (r : R) (empty_variant : Variant).
Context (value_reader : NodeId → VariantReader W Variant) (value_writer : NodeId → VariantWriter W Variant).
Notation StagedService := (StagedService RemoteOperation Property Attribute).
Implicit Types (w : proxy_world) (a : RemotePortAdapter).

Implicit Types (v : view) (made : list (nat * RemotePortDescription)).

Notation synchronize := (synchronize component_name r empty_variant value_reader value_writer).
Notation create_proxy := (create_proxy component_name r empty_variant value_reader value_writer).

(** ** Steps *)

(** The calls of the user. *)
Inductive proxy_call :=
  | call_synchronize (thread_context error : option string)
  | call_operation (t : CppType) (operation_name : string) (fallback : cpp t) (inputs : list Variant)
  | call_void (operation_name : string)
  | call_state (operation_name : string)
  | call_ready
  | call_lastError.

Definition run_call (call : proxy_call) w : proxy_world :=
  match call with
  | call_synchronize thread_context error => (synchronize thread_context error w).1
  | call_operation t name fallback inputs => (invokeOperation component_name empty_variant t name fallback inputs w).1
  | call_void name => (invokeVoidOperation component_name empty_variant name w).1
  | call_state name => (invokeTaskStateOperation component_name empty_variant name w).1
  | call_ready => (proxy_ready component_name empty_variant w).1
  | call_lastError => (proxy_lastError empty_variant w).1
  end.

(** A call; a move of the environment; what it will do during the next calls. *)
Inductive proxy_step : proxy_world → proxy_world → Prop :=
  | step_call call w : proxy_step w (run_call call w)
  | step_environment event w : proxy_step w (env_step empty_variant event w)
  | step_schedule events w : proxy_step w (with_schedule events w).

(** From a proxy that [create] returned. *)
Definition proxy_reachable w : Prop :=
  ∃ url options net types rtt events error w0 error',
    create_proxy url options None error (new_proxy_world url options net types rtt events) = (w0, inr (true, error')) ∧
    rtc proxy_step w0 w.

(** What holds between the steps: requests of the mirror go through only while
    the interface is the one that was synchronized; a stale interface is silent
    and keeps no sample; otherwise the ports are pumped; the adapters alive are
    those that something owns, and no two mirror the same port. *)
Record proxy_ok w : Prop := {
  px_access : access w = true →
    interface_ready w = true ∧ interface_stale w = false ∧ state_ (session_of w) = connected;
  px_stale : interface_stale w = true →
    access w = false ∧ ports_paused w = true ∧ phase (port_thread w) ≠ pump_running ∧
    ∀ id a, id ∈ port_adapters w → live w !! id = Some a → hasPendingState a = false;
  px_pumped : interface_stale w = false → ports_paused w = false;
  px_owned id : is_Some (live w !! id) ↔ id ∈ referenced w;
  px_distinct i j id id' a a' : port_adapters w !! i = Some id → port_adapters w !! j = Some id' →
    live w !! id = Some a → live w !! id' = Some a' → identity a = identity a' → i = j;
  px_session_ok : session_ok (session_of w);
}.

(** ** Lemmas *)

Lemma between_ok v w : v_tidy v = true → between v w → proxy_ok w.
Proof.
  intros Htidy [[[[] Hstale] Haccess] Hp]. split; try done.
  - intros Ha. rewrite lo_ready. auto.
  - intros ([? ?] & ? & ?)%Hstale. by split_and!.
  - intros id. split; [by apply lo_tidy|apply lo_heap].
  - apply lo_heap.
Qed.

Lemma with_schedule_env events w : env_moves w (with_schedule events w).
Proof.
  split; [split; try done; eauto; reflexivity|]. intros Hok. split; [by apply (heap_ok_same w); simpl; eauto|].
  intros Hleak. by apply (leak_free_same w).
Qed.

Lemma env_step_env event w : env_moves w (env_step empty_variant event w).
Proof.
  split; [apply env_step_moves|]. intros Hok. split; [by apply env_step_ok|]. intros Hl. by apply env_step_leak_free.
Qed.

(** The outcome of a triple. *)
Lemma triple_run {A} P (m : IO proxy_world A) (Q : A → proxy_world → Prop) E w :
  triple P m Q E → P w → ∀ I : proxy_world → Prop, (∀ x w', Q x w' → I w') → (∀ e w', E e w' → I w') → I (m w).1.
Proof. intros Hm Hw I HQ HE. specialize (Hm w Hw). destruct (m w) as [w' [e|x]]; simpl; eauto. Qed.

Definition good w : Prop := ∃ v, v_tidy v = true ∧ between v w.

Lemma synchronized_good v is_stale error result w :
  synchronized v is_stale error result w → (interface_stale w = false → ports_paused w = false) → good w.
Proof.
  unfold synchronized. destruct result as [[|] error'].
  - intros (_ & ids & Hw & _) Hp. exists (View true true ids). split; [done|by split].
  - intros (v' & b & [Htidy _] & Hw & _) Hp. exists v'. split; [done|by split].
Qed.

Lemma load_between {A} v (f : proxy_world → A) E : triple (between v) (load empty_variant f) (λ _, between v) E.
Proof. eapply triple_post; [apply load_triple, _|]. by intros ? ? [_ ?]. Qed.

Lemma call_good call w : good w → good (run_call call w).
Proof.
  intros (v & Htidy & Hw).
  assert (Hends : ∀ {A} (m : IO proxy_world A) Φ, ends_settled v m Φ → good (m w).1).
  { intros A m Φ Hm. eapply triple_run; [exact Hm|done|..].
    - intros x w' [_ ?]. by exists v.
    - intros e w' [_ ?]. by exists v. }
  destruct call as [thread_context error|t name fallback inputs|name|name| |]; simpl.
  - destruct thread_context as [what|]; [by exists v|]. destruct Hw as [Hw Hp].
    eapply triple_run; [by apply (synchronize_triple _ _ _ _ _ v (interface_stale w))|done|..].
    + intros result w' [Hsync ?]. by eapply synchronized_good.
    + intros e w' (_ & ? & ?). exists v. split; [done|by split].
  - eapply Hends, invokeOperation_ends.
  - eapply Hends, invokeVoidOperation_ends.
  - by eapply Hends, (invokeTaskStateOperation_ends _ _ v name (λ _, True)).
  - apply (Hends _ _ (λ _, True)). unfold ends_settled, proxy_ready. eapply triple_seq; [apply load_between|].
    intros [|]; simpl; [|by apply triple_return].
    eapply triple_seq; [eapply triple_post; [by apply (invokeTaskStateOperation_ends _ _ v "getTaskState" (λ _, True))|]|].
    { by intros ? w' [_ ?]. }
    intros ?. eapply triple_post; [apply load_between|]. auto.
  - apply (Hends _ _ (λ _, True)). unfold ends_settled, proxy_lastError, lastPortError.
    eapply triple_seq; [apply load_between|]. intros control. destruct (negb _); [by apply triple_return|].
    eapply triple_seq; [eapply triple_seq; [apply load_between|intros ?; apply load_between]|]. intros port_error.
    destruct (str_empty port_error); [|by apply triple_return].
    eapply triple_post; [apply read_session_triple, _|]. auto.
Qed.

Lemma step_good w w' : proxy_step w w' → good w → good w'.
Proof.
  intros Hstep Hw. destruct Hstep as [call w|event w|events w]; [by apply call_good|..]; destruct Hw as (v & Htidy & Hw);
    exists v; (split; [done|]); eapply (stable_between v); [apply env_step_env|done|apply with_schedule_env|done].
Qed.

Lemma new_quiet url options net types rtt events :
  let w : proxy_world := new_proxy_world url options net types rtt events in
  quiet (View true false []) false None [] w ∧ live w = ∅.
Proof.
  assert (Hno : ∀ id, ¬ is_Some ((∅ : gmap nat RemotePortAdapter) !! id)) by (intros id [? [=]]).
  split; [|done]. split; try done.
  - split; try done; [|by intros _ id ?%Hno]. split; simpl; try done. intros id []%not_elem_of_nil.
  - split; [apply NoDup_nil_2|by intros ? ? ?%not_elem_of_nil..].
Qed.

Lemma create_proxy_spec url options thread_context error net types rtt events w' o :
  create_proxy url options thread_context error (new_proxy_world url options net types rtt events) = (w', o) →
  match o with
  | inr (true, _) => refused_arguments component_name url options = None ∧ thread_context = None ∧ created (true, None) w'
  | inr (false, _) => (refused_arguments component_name url options ≠ None ∨ thread_context ≠ None) ∧
      w' = new_proxy_world url options net types rtt events ∨ gone w'
  | inl e => e = other_exception ∧ gone w'
  end.
Proof.
  unfold TaskContextProxy.create_proxy. destruct (refused_arguments component_name url options); [by intros [= <- <-]; auto|].
  destruct thread_context as [what|]; [by intros [= <- <-]; auto|]. intros Hrun.
  pose proof (create_new_triple component_name r empty_variant value_reader value_writer error
    (new_proxy_world url options net types rtt events) (new_quiet url options net types rtt events)) as Hcreate.
  rewrite Hrun in Hcreate. destruct o as [e|[[|] error']]; [done|done|by right].
Qed.

Lemma reachable_good w : proxy_reachable w → good w.
Proof.
  intros (url & options & net & types & rtt & events & error & w0 & error' & Hcreate & Hsteps).
  apply create_proxy_spec in Hcreate as (_ & _ & ids & Hw & _ & Hp).
  assert (Hgood : good w0) by (exists (View true true ids); split; [done|by split]). clear Hw Hp.
  induction Hsteps; [done|]. eauto using step_good.
Qed.

(** ** Properties *)

(** C2: Whatever the user called and the environment did in between,
    a proxy that was created stays in order: the mirror's requests go through
    only while the interface that was synchronized is in force, a stale interface
    is cut off with its ports paused and nothing pending, and the adapters alive
    are exactly those that are mirrored, in quarantine or held by the thread. *)
Theorem proxy_invariant w (Hreach : proxy_reachable w) : proxy_ok w.
Proof. destruct (reachable_good w Hreach) as (v & Htidy & Hw). by eapply between_ok. Qed.

(** C9: How [synchronize] ends.  With [true], the text cleared, the interface
    is ready and fresh and its ports are pumped; with [false] it is stale, or its
    flags and adapters are as before because a replacement was refused.  No [std::exception] escapes,
    and nothing is touched without a thread context. *)
Theorem synchronize_outcome thread_context error w w' o (Hreach : proxy_reachable w)
    (Hrun : synchronize thread_context error w = (w', o)) :
  match thread_context, o with
  | Some what, _ => w' = w ∧ o = inr (false, assignError error what)
  | None, inr (true, error') =>
      error' = assignError error "" ∧
      interface_ready w' = true ∧ interface_stale w' = false ∧ ports_paused w' = false
  | None, inr (false, _) =>
      interface_stale w' = true ∨
      interface_ready w' = interface_ready w ∧ interface_stale w' = interface_stale w ∧
        port_adapters w' = port_adapters w ∧ ports_paused w' = false
  | None, inl e =>
      e = other_exception ∧ interface_ready w' = interface_ready w ∧ port_adapters w' = port_adapters w
  end.
Proof.
  destruct thread_context as [what|]; [by injection Hrun as <- <-|].
  destruct (reachable_good w Hreach) as (v & Htidy & Hw & Hp).
  pose proof (synchronize_triple component_name r empty_variant value_reader value_writer v (interface_stale w) error
    Htidy w (conj Hw eq_refl)) as Hsync. rewrite Hrun in Hsync.
  destruct Hw as [[[] _] _]. destruct o as [e|[[|] error']].
  - destruct Hsync as (-> & [[[] _] _] & _). split_and!; congruence.
  - destruct Hsync as [(? & ids & [[[] _] _] & ? & ?) _]. by split_and!.
  - destruct Hsync as [(v' & b & [_ Hb] & [[[] _] _] & Hs) Hp']. simpl in *. destruct Hb as [->|[-> ->]]; [by left|].
    destruct (interface_stale w') eqn:Hstale; [by left|]. right. simpl in *. split_and!; try congruence. auto.
Qed.

(** C7: No sample in flight is lost when ports are replaced.  Once the
    replacement is found to be possible, each mirrored port with a pending sample
    has, after it, a mirrored port of the same name, type, service and direction
    that holds that sample. *)
Theorem replacement_keeps_pending replacements error w w1 w2 error' o (Hok : heap_ok w) (Hparked : parked w)
    (Hnew : ∀ new, new ∈ replacements → new ∉ referenced w ∧ is_Some (live w !! new))
    (Hcan : canReplacePortAdapters empty_variant replacements error w = (w1, inr (true, error')))
    (Hreplace : replacePortAdapters empty_variant replacements w1 = (w2, o)) id a
    (Hid : id ∈ port_adapters w) (Ha : live w !! id = Some a) (Hpending : hasPendingState a = true) :
  ∃ new a', new ∈ port_adapters w2 ∧ live w2 !! new = Some a' ∧ identity a' = identity a ∧ same_pending a a'.
Proof.
  revert Hcan Hreplace. unfold canReplacePortAdapters, replacePortAdapters, section, TaskContextProxy.atomic.
  unfold mbind, IO_bind. destruct (breathe_spec empty_variant w) as (wa & -> & Hmoves).
  unfold io_gets. destruct (list_find _ _) as [[i refused]|] eqn:Hfind; [done|]. intros [= <- _].
  destruct (breathe_spec empty_variant wa) as (wb & -> & Hmoves'). intros [= <- _].
  change (∃ new a', new ∈ port_adapters (replace_ports replacements wb) ∧
    live (replace_ports replacements wb) !! new = Some a' ∧ identity a' = identity a ∧ same_pending a a').
  pose proof (env_moves_trans _ _ _ Hmoves Hmoves') as Hboth.
  assert (Hkept : ∀ id', id' ∈ port_adapters w ∨ id' ∉ referenced w →
    live wa !! id' = live w !! id' ∧ live wb !! id' = live w !! id').
  { intros id' ?. split; by apply parked_live. }
  destruct (replace_ports_spec replacements wb) as [[rtt Hw] Hlive].
  assert (Hports : port_adapters wa = port_adapters w ∧ port_adapters wb = port_adapters w).
  { split; [apply Hmoves|apply Hboth]. }
  destruct Hports as [Hports_a Hports_b].
  assert (Hwhere : ∃ new replacement, new ∈ replacements ∧ live wb !! new = Some replacement ∧
    identity a = identity replacement).
  { apply list_find_None in Hfind. rewrite Forall_forall, Hports_a in Hfind. specialize (Hfind id Hid).
    apply not_false_is_true in Hfind. unfold replaceable in Hfind. rewrite (proj1 (Hkept id (or_introl Hid))), Ha, Hpending in Hfind.
    simpl in Hfind. apply existsb_exists in Hfind as (new & Hin%list_elem_of_In & Htransfer).
    destruct (Hnew new Hin) as [Hunowned [replacement Hreplacement]].
    destruct (Hkept new (or_intror Hunowned)) as [Hla Hlb]. rewrite Hla, Hreplacement in Htransfer.
    exists new, replacement. rewrite Hlb. split_and!; [done..|]. by apply hasSameIdentity_spec. }
  destruct (transfer_all_moves (port_adapters wb) replacements (live wb) id a) as (new & a' & Hin & Ha' & ? & ?).
  - rewrite Hports_b. apply NoDup_alt. intros i j id' Hi Hj.
    destruct (hk_live _ Hok id') as [b Hb]; [unfold referenced; apply elem_of_app; left; by eapply list_elem_of_lookup_2|].
    by eapply hk_distinct.
  - rewrite Hports_b. intros id1 id2 b1 b2 Hin1 Hin2. rewrite (proj2 (Hkept id1 (or_introl Hin1))), (proj2 (Hkept id2 (or_introl Hin2))).
    intros Hb1 Hb2 Hsame. apply list_elem_of_lookup in Hin1 as [i1 Hi1], Hin2 as [i2 Hi2].
    assert (i1 = i2) as -> by (by eapply hk_distinct). congruence.
  - rewrite Hports_b. intros id' Hin Hin'. destruct (Hnew id' Hin') as [Hunowned _]. apply Hunowned. unfold referenced.
    apply elem_of_app. by left.
  - by rewrite Hports_b.
  - by rewrite (proj2 (Hkept id (or_introl Hid))).
  - done.
  - exists new, a'. split_and!; [by rewrite Hw| |done|done]. rewrite Hlive, decide_False; [done|].
    intros [_ Hno]. apply Hno, elem_of_app. by left.
Qed.

(** C19: How [create] ends.  It returns a proxy that is ready and fresh, its
    ports pumped, for arguments it accepts; or none, and then nothing was started,
    or what was started is gone: the thread has returned and no adapter is
    left.  No [std::exception] escapes. *)
Theorem create_outcome url options thread_context error net types rtt events w' o
    (Hrun : create_proxy url options thread_context error (new_proxy_world url options net types rtt events) = (w', o)) :
  match o with
  | inr (true, _) =>
      refused_arguments component_name url options = None ∧ thread_context = None ∧
      interface_ready w' = true ∧ interface_stale w' = false ∧ ports_paused w' = false
  | inr (false, _) =>
      (refused_arguments component_name url options ≠ None ∨ thread_context ≠ None) ∧
        w' = new_proxy_world url options net types rtt events ∨ gone w'
  | inl e => e = other_exception ∧ gone w'
  end.
Proof.
  apply create_proxy_spec in Hrun. destruct o as [e|[[|] error']]; [done| |done].
  destruct Hrun as (? & ? & ids & [[[] _] _] & ? & ?). by split_and!.
Qed.

(** C30: A destructor never throws; after it the thread has returned, no
    adapter is left and requests of the mirror are refused, and so it stays. *)
Theorem destroy_outcome w w' o events (Hreach : proxy_reachable w) (Hrun : destroy_proxy empty_variant w = (w', o)) :
  o = inr tt ∧ gone (foldl (λ w event, env_step empty_variant event w) w' events).
Proof.
  destruct (reachable_good w Hreach) as (v & Htidy & Hw & _).
  pose proof (destroy_proxy_triple empty_variant v Htidy w Hw) as Hgone. rewrite Hrun in Hgone.
  destruct o as [e|[]]; [done|]. split; [done|]. clear Hrun. revert w' Hgone.
  induction events as [|event events IH]; intros w' Hgone; [done|]. apply IH.
  destruct Hgone as (? & ? & ?). pose proof (env_step_env event w') as Hmoves.
  split_and!; [by apply (stable_done w')|by apply (stable_empty w')|by apply (stable_refused w')].
Qed.

(** C31: Pausing always succeeds, whatever the thread is doing: it ends with
    the thread outside its round, and from then on the environment leaves the
    mirrored adapters alone. *)
Theorem pause_parks w w' o events (Hrun : pausePortPump empty_variant w = (w', o)) :
  o = inr tt ∧ ports_paused w' = true ∧ phase (port_thread w') ≠ pump_running ∧
  ∀ id, id ∈ port_adapters w' →
    live (foldl (λ w event, env_step empty_variant event w) w' events) !! id = live w' !! id.
Proof.
  assert (Hpause : triple (λ _, True) (pausePortPump empty_variant) (λ _ w, parked w) (λ _ (_ : proxy_world), False)).
  { unfold pausePortPump. eapply (triple_seq _ _ (λ w, ports_paused w = true)); [by apply section_triple; [apply _|]|].
    intros ?. apply section_triple; [apply _|]. intros w1 Hp. split; [|apply wait_pumped_ends].
    by apply (stable_paused w1); [apply wait_pumped_env|]. }
  specialize (Hpause w I). rewrite Hrun in Hpause. destruct o as [e|[]]; [done|]. destruct Hpause as [Hp Hphase].
  split_and!; [done..|]. clear Hrun. intros id Hid.
  assert (Hmoves : env_moves w' (foldl (λ w event, env_step empty_variant event w) w' events)).
  { clear Hid Hp Hphase. revert w'. induction events as [|event events IH]; intros w'; [apply env_moves_refl|]. simpl.
    eapply env_moves_trans; [apply env_step_env|apply IH]. }
  apply parked_live; [done|by split|by left].
Qed.

(** C39: The state that a proxy reports is one of the states of a task,
    whatever the server sends, and a call of another exception than the standard
    ones is all that can escape. *)
Theorem task_state_bounds name w w' o (Hreach : proxy_reachable w)
    (Horder : (ts_Init <= ts_RunTimeError)%Z)
    (Hrun : invokeTaskStateOperation component_name empty_variant name w = (w', o)) :
  match o with
  | inr state => (ts_Init <= state <= ts_RunTimeError)%Z
  | inl e => e = other_exception
  end.
Proof.
  destruct (reachable_good w Hreach) as (v & Htidy & Hw).
  pose proof (invokeTaskStateOperation_ends component_name empty_variant v name
    (λ state, ts_Init <= state <= ts_RunTimeError)%Z) as Hends.
  specialize (Hends (conj (Z.le_refl _) Horder) (λ _ Hcode, Hcode) w Hw). rewrite Hrun in Hends.
  by destruct o; destruct Hends.
Qed.

(** An operation of an interface that is not ready, or stale, is not sent:
    it answers its fallback and touches neither the session nor the network. *)
Theorem refused_operation t name fallback inputs w (Halone : schedule w = [])
    (Hrefused : interface_ready w = false ∨ interface_stale w = true) :
  let run := invokeOperation component_name empty_variant t name fallback inputs w in
  run.2 = inr fallback ∧ px_session run.1 = px_session w ∧ px_rtt run.1 = px_rtt w ∧
  control_error run.1 ≠ "".
Proof.
  destruct w as [session ready is_stale paused adapters quarantined error0 live0 thread rtt events].
  simpl in Halone, Hrefused. subst events. unfold invokeOperation, guarded, load, setControlError, section, atomic, breathe.
  unfold mbind, IO_bind, mret, IO_ret. simpl. destruct ready; simpl; [|done].
  destruct Hrefused as [?| ->]; [done|]. simpl. done.
Qed.

(** C40: Staging ends.  It refuses to go below the supported depth before it
    asks the server, so that no fuel beyond that depth changes what it does: the
    depth bounds every recursion, however deep the remote services nest. *)
Theorem staging_ends fuel service_path name description w
    (Hfuel : S proxy_kMaximumServiceDepth ≤ fuel + length service_path) :
  stage_service component_name r empty_variant value_reader value_writer fuel service_path name description w =
    stageRemoteService component_name r empty_variant value_reader value_writer service_path name description w ∧
  (proxy_kMaximumServiceDepth < length service_path →
   stage_service component_name r empty_variant value_reader value_writer fuel service_path name description w =
     (w, inl (std_exception "remote RTT service hierarchy exceeds the supported depth"))).
Proof.
  split; [apply stage_service_fuel; lia|]. intros Hdeep%Nat.ltb_lt. by destruct fuel; simpl; rewrite Hdeep.
Qed.
End spec.

(** ** Witnesses *)

Lemma mirror_create_run : mirror_create = (mirror_ready, inr (true, Some "")).
Proof.
  assert (Hresult : mirror_create.2 = inr (true, Some "")) by (vm_compute; reflexivity).
  unfold mirror_ready. rewrite <-Hresult. apply surjective_pairing.
Qed.

Lemma mirror_reachable : proxy_reachable "arm" mirror_types no_value no_reader no_writer mirror_ready.
Proof.
  exists "opc.tcp://arm:4840", mirror_options, mirror_net, initial_registry, (heap_of [5; 6]%Z), mirror_schedule,
    (Some ""), mirror_ready, (Some ""). split; [exact mirror_create_run|constructor].
Qed.

Lemma proxy_invariant_witness : proxy_ok mirror_ready.
Proof. exact (proxy_invariant "arm" mirror_types no_value no_reader no_writer mirror_ready mirror_reachable). Defined.

Lemma create_outcome_witness : interface_ready mirror_ready = true ∧ ports_paused mirror_ready = false.
Proof.
  pose proof (create_outcome "arm" mirror_types no_value no_reader no_writer "opc.tcp://arm:4840" mirror_options None
    (Some "") mirror_net initial_registry (heap_of [5; 6]%Z) mirror_schedule mirror_ready (inr (true, Some ""))
    mirror_create_run) as (_ & _ & Hready & _ & Hpaused).
  exact (conj Hready Hpaused).
Defined.

Definition mirror_synchronize :=
  synchronize "arm" mirror_types no_value no_reader no_writer None (Some "old") mirror_ready.

Lemma synchronize_outcome_witness :
  interface_ready mirror_synchronize.1 = true ∧ interface_stale mirror_synchronize.1 = false.
Proof.
  assert (Hresult : mirror_synchronize.2 = inr (true, Some "")) by (vm_compute; reflexivity).
  assert (Hrun : mirror_synchronize = (mirror_synchronize.1, inr (true, Some "")))
    by (rewrite <-Hresult; apply surjective_pairing).
  pose proof (synchronize_outcome "arm" mirror_types no_value no_reader no_writer None (Some "old") mirror_ready
    mirror_synchronize.1 (inr (true, Some "")) mirror_reachable Hrun) as (_ & Hready & Hstale & _).
  exact (conj Hready Hstale).
Defined.

Lemma destroy_outcome_witness : gone (destroy_proxy no_value mirror_ready).1.
Proof.
  exact (proj2 (destroy_outcome "arm" mirror_types no_value no_reader no_writer mirror_ready
    (destroy_proxy no_value mirror_ready).1 (destroy_proxy no_value mirror_ready).2 [] mirror_reachable
    (surjective_pairing _))).
Defined.

(** The thread is at its round when it is paused. *)
Definition mirror_pumping : c_ProxyWorld := env_step no_value env_pump (env_step no_value env_pump mirror_ready).

Lemma pause_parks_witness : ports_pumping mirror_pumping = true ∧
  phase (port_thread (pausePortPump no_value mirror_pumping).1) ≠ pump_running.
Proof.
  split; [vm_compute; reflexivity|].
  exact (proj1 (proj2 (proj2 (pause_parks no_value mirror_pumping (pausePortPump no_value mirror_pumping).1
    (pausePortPump no_value mirror_pumping).2 [] (surjective_pairing _))))).
Defined.

Lemma task_state_bounds_witness : (ts_Init <= 4 <= ts_RunTimeError)%Z.
Proof.
  pose (run := invokeTaskStateOperation "arm" no_value "getTaskState" mirror_ready).
  assert (Hresult : run.2 = inr 4%Z) by (vm_compute; reflexivity).
  assert (Hrun : run = (run.1, inr 4%Z)) by (rewrite <-Hresult; apply surjective_pairing).
  refine (task_state_bounds "arm" mirror_types no_value no_reader no_writer "getTaskState" mirror_ready run.1
    (inr 4%Z) mirror_reachable _ Hrun).
  simpl. lia.
Defined.

Lemma refused_operation_witness :
  (invokeOperation "arm" no_value cpp_bool "start" true [] (with_schedule [] mirror_new)).2 = inr true.
Proof.
  exact (proj1 (refused_operation "arm" no_value cpp_bool "start" true [] (with_schedule [] mirror_new) eq_refl
    (or_introl eq_refl))).
Defined.

Lemma staging_ends_witness :
  stage_service "arm" mirror_types no_value no_reader no_writer 40 [] "" "" mirror_ready =
  stageRemoteService "arm" mirror_types no_value no_reader no_writer [] "" "" mirror_ready.
Proof.
  refine (proj1 (staging_ends "arm" mirror_types no_value no_reader no_writer 40 [] "" "" mirror_ready _)).
  simpl. unfold proxy_kMaximumServiceDepth. lia.
Defined.

(** A port with a value on its way, and a replacement for it. *)
Definition pending_adapter := with_pending None (Some (cv_scalar cpp_int32 5%Z)) None (the_adapter target_port 0).

Definition replacing_world : c_ProxyWorld :=
  with_lists [0] [] (with_heap {[0 := pending_adapter; 1 := the_adapter target_port 0]} (heap_of [])
    (with_schedule [] mirror_new)).

Lemma replacing_ok : heap_ok replacing_world ∧ parked replacing_world.
Proof.
  split; [|done]. split; simpl; try done.
  - intros id ->%list_elem_of_singleton. by exists pending_adapter.
  - intros [|i] [|j]; by simpl.
Qed.

Lemma replacement_keeps_pending_witness :
  let w := replacing_world in
  ∃ new a', new ∈ port_adapters (replacePortAdapters no_value [1] w).1 ∧
    live (replacePortAdapters no_value [1] w).1 !! new = Some a' ∧ same_pending pending_adapter a'.
Proof.
  destruct replacing_ok as [Hok Hparked].
  assert (Hresult : (canReplacePortAdapters no_value [1] None replacing_world).2 = inr (true, None))
    by (vm_compute; reflexivity).
  assert (Hcan : canReplacePortAdapters no_value [1] None replacing_world = (replacing_world, inr (true, None)))
    by (rewrite <-Hresult; reflexivity).
  destruct (replacement_keeps_pending no_value [1] None replacing_world replacing_world
    (replacePortAdapters no_value [1] replacing_world).1 None (replacePortAdapters no_value [1] replacing_world).2
    Hok Hparked) with (id := 0) (a := pending_adapter) as (new & a' & Hin & Ha' & _ & Hpending);
    [|exact Hcan|apply surjective_pairing|left|reflexivity|reflexivity|].
  - intros new ->%list_elem_of_singleton. split; [|eexists; reflexivity].
    intros [?|?%not_elem_of_nil]%elem_of_cons; done.
  - exists new, a'. exact (conj Hin (conj Ha' Hpending)).
Defined.
